(* ===== verification/_CoqProject ===== *)
-Q . S2P
Prelude.v
RustStd.v
Model.v
Secret.v
Dpapi.v
Config.v
Accept.v
Disk.v
Journal.v
Store.v
Capture.v
Pipes.v
Process.v
Lifecycle.v
Progress.v
Platform.v
Worker.v
App.v
Gate.v
System.v
Front.v
Tls.v
Runtime.v
Shutdown.v
Service.v
Cli.v
Main.v
Tests.v
