(* ===== verification/Prelude.v ===== *)
(** * A verification library for command-api

    command-api is an HTTP service that runs preconfigured scripts on request:
    it checks the source address and a bearer token, validates the arguments,
    creates a task with a durable record, starts the script in a worker process
    of its own, captures its output up to a limit, and lets clients read the
    status, page through the output, cancel or kill the task, and stop or
    restart the service. This library models that program, file by file, as
    executable Rocq definitions and proves what makes it correct.

    ** The program and the files that model it

    - [Prelude] (this file): the error monad ([result], for [anyhow::Result]
      and the handlers' [Result]), the state-and-error monad [stm] (the state
      survives an error), triples over it, invariants of transition systems,
      machine integers with their wrap-around.
    - [RustStd]: the parts of the Rust standard library and of tokio the code
      calls: strings as UTF-8 bytes, paths as Unix and as Windows read them
      ([OsPath] chooses by the build target), IP addresses, the monotonic clock
      whose addition can overflow, watch channels.
    - [Model] (model.rs): the data of the API, status codes, error responses,
      time stamps.
    - [Secret] (secret.rs): token checks, the verifier with its shared
      fingerprint cache ([verify_begin], [verify_finish], cut at the only
      suspension point), PBKDF2 hash generation, DPAPI key files.
    - [Dpapi] (secret.rs [dpapi] on Windows): the binding to the data protection
      API with the memory it allocates and frees; it discharges the interface
      [DpapiLib] of [Secret].
    - [Config] (config.rs): the schema and its defaults, the validation of every
      section, resolution against the file system, on either platform, the
      argument rules of a route ([validate_request_args]).
    - [Accept]: the rules for a configuration as a declarative predicate, and
      the proof that [Config.resolve] accepts exactly what satisfies it.
    - [Disk]: the task directories, on which every operation may fail and a
      write may deliver only a part of its data.
    - [Journal] (store.rs [read_latest_snapshot], [persist]): the line-based
      event journal of a task.
    - [Store] (store.rs): task records and their transitions, creation,
      recovery after a crash, expiry, views, output paging, stop requests.
    - [Capture] (process/mod.rs [Capture], [copy_output]): the reader threads,
      which share one byte budget, as an interleaving transition system.
    - [Pipes] (process/mod.rs [Capture::new], [apply], [start_readers], the start
      of [run_task]): the output pipes of a task and who holds their write ends,
      with the processes of the task as a transition system.
    - [Process] (process/mod.rs [start_task], [run_task], [stop_process],
      [force_stop_process]): a task as a computation driven by a schedule, the
      list of what the outside world does next: exits, timers, stop requests,
      results of system calls. A theorem about every schedule is a theorem about
      every order of these events. A transition of the task's record takes two
      of them: it is shown to readers ([show]) before it is written to the
      journal ([save]).
    - [Lifecycle]: the abstract specification of a task, an automaton of five
      phases, and the proofs that the snapshots of [Process] and the recovery of
      [Store] follow it.
    - [Progress]: from wherever a task waits it can reach its end: a calculus of
      computations that a bounded number of ordinary events completes.
    - [Platform] (process/platform.rs): process groups (Module [Unix]) and job
      objects (Module [Windows]) over kernels given by their system calls; for
      both the contract [TreeLaws] of the interface [TreeOps] is proved.
    - [Worker] (process/mod.rs [worker_main], [run_worker]; platform.rs
      [worker_wait_for_descendants]; the exit code of main.rs): the child process
      that runs the script.
    - [App] (app.rs): the application state, the authentication middleware, all
      handlers, and the concurrent requests as a transition system on the two
      semaphores.
    - [Gate]: the authentication of [App] with any number of requests in flight,
      cut where the executor can switch between them, on one failure table, one
      verifier and one clock.
    - [System]: [App], [Process] and [Store] together: the effects of any number
      of tasks interleaved with requests on the shared semaphores, task table and
      counter of active tasks. An accepted request is one step of it; the window
      in which its task is being created is [App.app_step].
    - [Front] (app.rs [build]'s routes): [Gate] and [System] together, from a
      connection through the authentication and an endpoint to the end of a task;
      a simulation maps its runs to runs of both ([Front.front_sys],
      [Front.front_gate]).
    - [Tls] (runtime.rs [load_tls_config], [init_logging]): the TLS configuration
      of the listeners and the layers of the log.
    - [Runtime] (runtime.rs [run], [console_shutdown_signal]; store.rs
      [wait_until_idle]): the generations of the service with the servers they
      spawn and their shutdown sequence, and the wait for the tasks as a
      transition system.
    - [Shutdown]: the shutdown sequence of [Runtime], with its waits as runs of
      [System] and of the waiter of [Runtime.Idle] together, on one counter.
    - [Service] (service.rs): the status reports of the Windows service as a
      transition system of its two threads, and the service commands over the
      control manager.
    - [Cli] (main.rs [read_token], the [secret] commands): tokens and hashes on
      the command line.
    - [Main] (main.rs [main], [run]): the commands with their defaults, their
      dispatch and the exit code.
    - [Tests]: the unit tests of the repository as propositions about the model,
      proved for every library where the code alone decides their outcome.

    A record of the source is a [Record], an enumeration an [Inductive], a
    function one [Definition] or [Fixpoint] with the source's name; a map is a
    [gmap]; an unsigned integer is a [Z] with every operation that can leave its
    range written out. [?] is the bind of the error monad and [bail!] the
    notation [guard!]. Interleavings are step relations, and their invariants
    are proved by rule induction.

    ** What the theorems show

    - Access: a request reaches a handler only from an allowed network, outside
      a cooldown, with an accepted token ([App.authenticate_gate],
      [App.cooldown_enforced], [App.record_auth_failure_spec]), also when any
      number of requests are in flight ([Gate.gate_interleaved],
      [Gate.cooldown_interleaved]), where the pieces of the cut middleware, run one
      after the other, are the middleware ([Gate.pieces_are_authenticate]);
      acceptance is sound and stable under concurrent verifications
      ([Secret.verify_interleaved_sound], [Secret.verify_after_success]); the
      hash printed by the command line is one the service accepts
      ([Cli.hash_command_usable]), a DPAPI key file is read back
      ([Dpapi.windows_key_file_roundtrip], [Dpapi.dpapi_heap_balanced]), and
      listeners with TLS demand a client certificate of exactly the configured
      authorities ([Tls.load_tls_config_spec], [Runtime.listeners_served]).
    - Configuration: exactly the valid configurations are accepted, on
      Unix and on Windows ([Accept.resolve_accepts]), what resolves is well formed
      ([Config.resolve_wf], [App.route_table_unique]), and the argument check is exactly the
      declarative rule ([Config.validate_request_args_spec]).
    - Execution: the limits hold under every interleaving
      ([App.concurrency_limits], [App.execute_spec]); the script gets exactly the
      requested command ([Worker.worker_runs_request]); a task ends in a
      finished state, its permits are released before the end is visible, and
      the end is reported truthfully, with the exit code of the worker and a
      reason that was really given ([Process.start_task_order],
      [Process.run_task_outcome], [Worker.script_exit_reported]); a kill wins
      over a grace period in either part of it ([Process.kill_cuts_grace]); a task is never stuck as long
      as calls return and its output ends ([Progress.task_never_stuck]), and the
      output ends with the processes that hold it ([Pipes.readers_end_with_family]).
    - Refinement: the snapshots of every task are a path of the automaton of
      [Lifecycle], each well formed ([Lifecycle.task_refines_lifecycle],
      [Lifecycle.snapshots_wf]). A crash of the service at any point, also inside
      a write, loses at most the snapshot shown last, and only before it was
      written; the recovery is one more step of the life up to there
      ([Lifecycle.crash_continues_life], [Lifecycle.unsaved_end_lost]).
    - Composition: no command runs that was not requested by an admitted client
      for a configured route with allowed arguments
      ([Front.every_task_requested]); however tasks and requests interleave, a task seen as finished
      has returned its permits, and an idle counter means that every task is
      over ([System.finished_tasks_hold_nothing], [System.idle_means_done]); a
      generation that was shut down has left no task behind, and a shutdown
      fails only while a task is really there ([Shutdown.shutdown_leaves_nothing],
      [Shutdown.shutdown_failure_busy]).
    - Process trees: on both platforms a forced tree is gone and nothing else was
      touched; job objects are not leaked, a worker told to stop leaves its loop
      ([Platform.force_and_wait_spec], [Platform.Windows.job_lifetime],
      [Platform.Windows.wait_empty_terminates], [Worker.worker_stop_terminates]).
    - Durability: on a journal of whole lines a successful transition survives a
      crash, a failed one damages nothing before it, what follows a torn record
      is lost, and after a restart the table is what the journals held, with the
      unfinished tasks interrupted ([Store.transition_durable],
      [Store.transition_failure], [Journal.torn_record_skipped],
      [Store.append_after_torn_lost], [Store.open_store_finished]); cleanup removes
      exactly what is too old ([Store.cleanup_expired_spec]).
    - Output: the capture respects its limit and loses nothing below it
      ([Capture.capture_bounded], [Capture.capture_exact]); paging returns the
      whole output and ends ([Store.chunk_faithful], [Store.paging_complete]).
    - Service: one management action per generation, the log directory never
      changes, and the service ends only when its tasks have ended
      ([App.management_once], [App.restart_service_spec],
      [Runtime.run_log_directory], [Runtime.run_finishes_idle],
      [Runtime.Idle.wait_until_idle_sound]); as a Windows service it reports its
      states in order, uninstalling undoes installing, and what was installed is
      what runs ([Service.service_status_order], [Service.install_outcomes],
      [Service.uninstall_undoes_install], [Main.installed_service_runs],
      [Main.main_exit_spec]).

    Some theorems record behaviour that is not intended, each proved for the
    code as it is: a lost wake-up at shutdown, the lost truncation mark after a
    restart, the unreachable last byte of odd UTF-16 output, a journal torn
    inside a character, a transition glued to a torn record
    ([Store.append_after_torn_lost]), an end shown to clients but not yet written
    ([Lifecycle.unsaved_end_lost]), panics on durations the clock cannot represent, a
    negative exit code reported as success, a kill replaced by a later
    cancellation, key files that cannot be loaded, a retention that wraps, a
    service reported as stopping after it was reported as stopped, a signal
    handler whose failure counts as a stop, a process that escapes the kill of
    its group and keeps the task waiting for its output
    ([Pipes.escaped_process_keeps_output], [Progress.unread_output_holds_task]),
    guesses made at once that a cooldown does not stop ([Gate.parallel_guesses]).

    ** Bounds and fuel

    [Process.main_loop] takes the length of the schedule plus one as fuel:
    every iteration consumes an event, so it never runs out before the schedule
    does, and more fuel changes nothing ([Process.main_loop_fuel]). Loops that
    pause ([Platform.Windows.wait_empty], [Worker.poll_loop], [Store.spawn_cleanup])
    recurse over the list of what happens in their pauses. [Store.fetch_all] is
    given one request per byte of the file plus one, which
    [Store.paging_complete] proves enough. [RustStd.Utf8] uses the length of the
    string. [Progress.task_never_stuck] counts the events that complete a task:
    33 are enough. All other recursion is structural.

    ** What is not modelled

    The libraries: axum's routing and extractors, serde, tokio's scheduler, PEM
    parsing and the builders of rustls, tracing, the cryptographic primitives,
    regular expressions, CIDR arithmetic, character decoding, UUIDs and RFC 3339
    text are parameters (type classes), with the documented behaviour the proofs
    need as separate law classes and a concrete instance of each in the modules
    named [Toy]. So are the system calls of platform.rs, the Windows data
    protection API and the service control manager. How a server of
    axum_server ends is an outcome of a generation in [Runtime]. Of the unit
    tests, those of clap and of socket-address formatting test libraries only;
    the end-to-end tests drive the built binary. The text syntax of the command
    line belongs to clap; [Main] starts from the parsed command. The paths that
    [Store] makes below the log directory use the Unix separator on both
    platforms; they are opaque names there, never taken apart. In [System] each
    task has a disk of its own, as the code gives each task its own directory, [execute] is one step (the
    permits of requests in flight are the subject of [App.app_step]), and a task that panics on a deadline the clock cannot represent
    ([Process.deadline_overflow_abandons]) is not among those that run.

    ** Plan

    Every source file of the program has its model. What could be joined
    further: [Process] over an instance of the interface of [Platform] and over
    the pipes of [Pipes] instead of the schedule of call results, and [System]
    over the requests in flight of [App.app_step]. *)

From stdpp Require Export base tactics list strings gmap pretty fin_maps.
From Stdlib Require Export ZArith Lia Ascii.

#[export] Set Default Goal Selector "!".

(** ** Results

    [anyhow::Result<A>] and [Result<A, ApiError>]: a value or an error. The
    [?] operator is the bind of the error monad. *)

Inductive result (E A : Type) : Type :=
| Ok (a : A)
| Err (e : E).
Arguments Ok {E A} _.
Arguments Err {E A} _.

#[global] Instance result_ret E : MRet (result E) := λ A a, Ok a.
#[global] Instance result_bind E : MBind (result E) := λ A B f m,
  match m with Ok a => f a | Err e => Err e end.
#[global] Instance result_fmap E : FMap (result E) := λ A B f m,
  match m with Ok a => Ok (f a) | Err e => Err e end.
#[global] Instance result_eq_dec E A `{EqDecision E, EqDecision A} :
  EqDecision (result E A).
Proof. solve_decision. Defined.

(** [bail!(e)] guarded by a condition. *)
Definition bail_when {E} (b : bool) (e : E) : result E unit :=
  if b then Err e else Ok tt.

(** [.context(e)] / [.ok_or_else(e)] on an [Option]. *)
Definition ok_or {E A} (e : E) (o : option A) : result E A :=
  match o with Some a => Ok a | None => Err e end.

(** [.map_err(f)]. *)
Definition map_err {E F A} (f : E → F) (r : result E A) : result F A :=
  match r with Ok a => Ok a | Err e => Err (f e) end.

Definition is_ok {E A} (r : result E A) : bool :=
  match r with Ok _ => true | Err _ => false end.

(** [iter().map(f).collect::<Result<Vec<_>>>()]: the first error wins. *)
Fixpoint collect {E A B} (f : A → result E B) (l : list A) : result E (list B) :=
  match l with
  | [] => Ok []
  | a :: l => b ← f a; bs ← collect f l; Ok (b :: bs)
  end.

Declare Scope result_scope.
Delimit Scope result_scope with result.
Notation "'guard!' b 'else' e ; k" := (_ ← bail_when b e; k)
  (at level 100, b at level 99, e at level 99, k at level 200,
   format "'guard!'  b  'else'  e ;  '//' k") : result_scope.
#[global] Open Scope result_scope.

Create HintDb cmdapi.

(** ** Inversion of result-valued computations *)

Lemma bind_Ok {E A B} (m : result E A) (f : A → result E B) b :
  (m ≫= f) = Ok b ↔ ∃ a, m = Ok a ∧ f a = Ok b.
Proof. destruct m; simpl; naive_solver. Qed.

Lemma bail_when_Ok {E} b (e : E) u : bail_when b e = Ok u ↔ b = false.
Proof. destruct u, b; simpl; naive_solver. Qed.

Lemma ok_or_Ok {E A} (e : E) (o : option A) a : ok_or e o = Ok a ↔ o = Some a.
Proof. destruct o; simpl; naive_solver. Qed.

Lemma map_err_Ok {E F A} (f : E → F) (r : result E A) a :
  map_err f r = Ok a ↔ r = Ok a.
Proof. destruct r; simpl; naive_solver. Qed.

Lemma bail_when_false {E B} (e : E) (k : unit → result E B) :
  (bail_when false e ≫= k) = k tt.
Proof. done. Qed.

Lemma bail_when_true {E B} (e : E) (k : unit → result E B) :
  (bail_when true e ≫= k) = Err e.
Proof. done. Qed.

Lemma collect_Ok {E A B} (f : A → result E B) l bs :
  collect f l = Ok bs ↔ Forall2 (λ a b, f a = Ok b) l bs.
Proof.
  revert bs. induction l as [|a l IH]; intros bs; simpl.
  - split; [intros [= <-]; constructor | by inversion 1].
  - rewrite bind_Ok. setoid_rewrite bind_Ok. split.
    + intros (b & Hb & bs' & Hbs & [= <-]). constructor; [done|]. by apply IH.
    + inversion 1; subst. eexists. split; [done|]. eexists. by rewrite IH.
Qed.

(** [inv_ok] takes a hypothesis [computation = Ok _] apart along every [?]. *)
Ltac inv_ok :=
  repeat match goal with
  | H : (_ ≫= _) = Ok _ |- _ =>
      apply bind_Ok in H; let x := fresh "x" in let Hx := fresh "Hx" in
      destruct H as (x & Hx & H)
  | H : bail_when _ _ = Ok _ |- _ => apply bail_when_Ok in H
  | H : ok_or _ _ = Ok _ |- _ => apply ok_or_Ok in H
  | H : map_err _ _ = Ok _ |- _ => apply map_err_Ok in H
  | H : Ok _ = Ok _ |- _ => injection H as H; try subst
  | H : Err _ = Ok _ |- _ => discriminate H
  | u : unit |- _ => destruct u
  end.

(** Boolean connectives of guards to propositions. *)
Ltac breflect :=
  repeat match goal with
  | H : (_ || _) = false |- _ => apply orb_false_iff in H as [? ?]
  | H : (_ && _) = true |- _ => apply andb_true_iff in H as [? ?]
  | H : negb _ = true |- _ => apply negb_true_iff in H
  | H : negb _ = false |- _ => apply negb_false_iff in H
  | H : bool_decide _ = true |- _ => apply bool_decide_eq_true in H
  | H : bool_decide _ = false |- _ => apply bool_decide_eq_false in H
  | H : (_ =? _)%Z = true |- _ => apply Z.eqb_eq in H
  | H : (_ =? _)%Z = false |- _ => apply Z.eqb_neq in H
  | H : (_ <? _)%Z = true |- _ => apply Z.ltb_lt in H
  | H : (_ <? _)%Z = false |- _ => apply Z.ltb_ge in H
  | H : (_ <=? _)%Z = true |- _ => apply Z.leb_le in H
  | H : (_ <=? _)%Z = false |- _ => apply Z.leb_gt in H
  end.

(** ** Stateful computations that can fail

    [stm S E A]: the state survives an error, as the heap and the disk do when
    a Rust function returns early through [?]. *)

Definition stm (S E A : Type) : Type := S → result E A * S.

#[global] Instance stm_ret S E : MRet (stm S E) := λ A a s, (Ok a, s).
#[global] Instance stm_bind S E : MBind (stm S E) := λ A B f m s,
  match m s with
  | (Ok a, s') => f a s'
  | (Err e, s') => (Err e, s')
  end.

Definition fail {S E A} (e : E) : stm S E A := λ s, (Err e, s).
Definition gets {S E A} (f : S → A) : stm S E A := λ s, (Ok (f s), s).
Definition modify {S E} (f : S → S) : stm S E unit := λ s, (Ok tt, f s).
(** A result as a computation that leaves the state alone. *)
Definition pure_result {S E A} (r : result E A) : stm S E A := λ s, (r, s).
(** [let _ = m;]: the outcome is dropped, the state change stays. *)
Definition ignore {S E A} (m : stm S E A) : stm S E unit := λ s, (Ok tt, (m s).2).
(** [.map_err(f)] / [.with_context(f)] on a stateful computation. *)
Definition with_err {S E F A} (f : E → F) (m : stm S E A) : stm S F A := λ s,
  match m s with (Ok a, s') => (Ok a, s') | (Err e, s') => (Err (f e), s') end.

Lemma stm_bind_Ok {S E A B} (m : stm S E A) (f : A → stm S E B) s b s' :
  (m ≫= f) s = (Ok b, s') ↔ ∃ a s1, m s = (Ok a, s1) ∧ f a s1 = (Ok b, s').
Proof.
  unfold mbind, stm_bind. destruct (m s) as [[a|e] s1]; split; try naive_solver.
Qed.

Lemma with_err_Ok {S E F A} (f : E → F) (m : stm S E A) s a s' :
  with_err f m s = (Ok a, s') ↔ m s = (Ok a, s').
Proof. unfold with_err. destruct (m s) as [[|] ?]; naive_solver. Qed.

(** [inv_stm] takes a successful run apart along every bind. *)
Ltac inv_stm :=
  repeat match goal with
  | H : (_ ≫= _) _ = (Ok _, _) |- _ =>
      apply stm_bind_Ok in H; let x := fresh "x" in let s := fresh "s" in let Hx := fresh "Hx" in
      destruct H as (x & s & Hx & H)
  | H : with_err _ _ _ = (Ok _, _) |- _ => apply with_err_Ok in H
  | H : mret _ _ = (_, _) |- _ => unfold mret, stm_ret in H
  | H : gets _ _ = (_, _) |- _ => unfold gets in H
  | H : modify _ _ = (_, _) |- _ => unfold modify in H
  | H : fail _ _ = (_, _) |- _ => unfold fail in H
  | H : pure_result _ _ = (_, _) |- _ => unfold pure_result in H
  | H : ignore _ _ = (_, _) |- _ => unfold ignore in H
  | H : (_, _) = (_, _) |- _ => injection H as H; try subst
  | H : Ok _ = Ok _ |- _ => injection H as H; try subst
  | H : Err _ = Ok _ |- _ => discriminate H
  | u : unit |- _ => destruct u
  end.

(** A triple over a computation: from [Pre], a result satisfies [Q] and an error
    satisfies [X]. *)
Definition triple {S E A} (Pre : S → Prop) (m : stm S E A) (Q : A → S → Prop) (X : E → S → Prop) : Prop :=
  ∀ s, Pre s → match m s with (Ok a, s') => Q a s' | (Err e, s') => X e s' end.

Section triples.
Context {S E : Type}.
Implicit Types (I : S → Prop) (X : E → S → Prop).

Lemma triple_ret {A} (a : A) I (Q : A → S → Prop) X :
  (∀ s, I s → Q a s) → triple I (mret a) Q X.
Proof. intros HQ s ?. by apply HQ. Qed.

Lemma triple_fail {A} e (Q : A → S → Prop) X : triple (X e) (fail e) Q X.
Proof. by intros s ?. Qed.

Lemma triple_gets {A} (f : S → A) I (Q : A → S → Prop) X :
  (∀ s, I s → Q (f s) s) → triple I (gets f) Q X.
Proof. intros HQ s ?. by apply HQ. Qed.

Lemma triple_gets_keep {A} (f : S → A) I X : triple I (gets f) (λ a s, a = f s ∧ I s) X.
Proof. by apply triple_gets. Qed.

Lemma triple_modify f I (Q : unit → S → Prop) X :
  (∀ s, I s → Q tt (f s)) → triple I (modify f) Q X.
Proof. intros HQ s ?. by apply HQ. Qed.

Lemma triple_bind {A B} I (m : stm S E A) (f : A → stm S E B) (Q : A → S → Prop) R X :
  triple I m Q X → (∀ a, triple (Q a) (f a) R X) → triple I (m ≫= f) R X.
Proof.
  intros Hm Hf s Hs. specialize (Hm s Hs). unfold mbind, stm_bind.
  destruct (m s) as [[a|e] s1]; [by apply Hf | done].
Qed.

Lemma triple_conseq {A} I I' (m : stm S E A) (Q Q' : A → S → Prop) X :
  triple I m Q X → (∀ s, I' s → I s) → (∀ a s, Q a s → Q' a s) → triple I' m Q' X.
Proof.
  intros Hm HI HQ s Hs. specialize (Hm s (HI s Hs)).
  destruct (m s) as [[a|e] s1]; auto.
Qed.

Lemma triple_pre {A} I I' (m : stm S E A) (Q : A → S → Prop) X :
  triple I m Q X → (∀ s, I' s → I s) → triple I' m Q X.
Proof. intros Hm HI s Hs. exact (Hm s (HI s Hs)). Qed.

Lemma triple_drop {A} (F : S → Prop) I (m : stm S E A) (Q : A → S → Prop) X :
  triple I m Q X → triple (λ s, F s ∧ I s) m Q X.
Proof. intros Hm s [_ Hs]. exact (Hm s Hs). Qed.

(** A pure fact of the precondition. *)
Lemma triple_pure {A} (F : Prop) I (m : stm S E A) (Q : A → S → Prop) X :
  (F → triple I m Q X) → triple (λ s, F ∧ I s) m Q X.
Proof. intros Hm s [HF Hs]. exact (Hm HF s Hs). Qed.

Lemma triple_Ok {A} I (m : stm S E A) (Q : A → S → Prop) X s a s' :
  triple I m Q X → I s → m s = (Ok a, s') → Q a s'.
Proof. intros Hm Hs Hr. specialize (Hm s Hs). by rewrite Hr in Hm. Qed.
End triples.

(** Invariants of transition systems, by rule induction. *)
Lemma rtc_invariant {A} (R : relation A) (P : A → Prop) x y :
  (∀ a b, R a b → P a → P b) → rtc R x y → P x → P y.
Proof. intros HR. induction 1; eauto. Qed.

(** ** Machine integers

    [u64] and [usize] (64-bit targets) are integers in [0 .. 2^64 - 1] kept in
    [Z]; every operation that can leave the range is written with its
    behaviour at the boundary. *)

Section machine_integers.
Local Open Scope Z_scope.

Definition U64_MAX : Z := 2 ^ 64 - 1.
Definition I64_MAX : Z := 2 ^ 63 - 1.
Definition is_u64 (z : Z) : Prop := 0 ≤ z ≤ U64_MAX.

#[global] Instance is_u64_dec z : Decision (is_u64 z).
Proof. unfold is_u64. apply _. Defined.

(** [AtomicU64::fetch_add] and [fetch_sub] wrap around. *)
Definition wrapping_add (a b : Z) : Z := (a + b) mod 2 ^ 64.
Definition wrapping_sub (a b : Z) : Z := (a - b) mod 2 ^ 64.
Definition saturating_add (a b : Z) : Z := Z.min (a + b) U64_MAX.
Definition saturating_sub (a b : Z) : Z := Z.max (a - b) 0.
(** [x as i64] for [x : u64]. *)
Definition as_i64 (z : Z) : Z := if z <=? I64_MAX then z else z - 2 ^ 64.

Lemma wrapping_add_small a b : 0 ≤ a + b ≤ U64_MAX → wrapping_add a b = a + b.
Proof. unfold wrapping_add, U64_MAX. intros. apply Z.mod_small. lia. Qed.

Lemma wrapping_sub_small a b : 0 ≤ a - b ≤ U64_MAX → wrapping_sub a b = a - b.
Proof. unfold wrapping_sub, U64_MAX. intros. apply Z.mod_small. lia. Qed.

Lemma wrapping_add_u64 a b : is_u64 (wrapping_add a b).
Proof.
  unfold is_u64, wrapping_add, U64_MAX.
  pose proof (Z.mod_pos_bound (a + b) (2 ^ 64)). lia.
Qed.

Lemma saturating_add_assoc_min a b c :
  0 ≤ b → 0 ≤ c → saturating_add (Z.min a U64_MAX) b = Z.min (a + b) U64_MAX.
Proof. unfold saturating_add, U64_MAX. lia. Qed.
End machine_integers.
