(* ===== verification/RustStd.v ===== *)
(** * The parts of the Rust standard library (and of tokio's channels) the
      sources use

    [Str]: strings as UTF-8 byte sequences; [Path], [WinPath] and
    [OsPath]: paths as [std::path::Path] splits them on Unix, on Windows and on
    the build target; [Utf8]: the validity check of [String];
    [Net]: [IpAddr]; [Instants]: the monotonic clock; [Watch]: the
    single-value watch channel. Nothing here models a file of the repository:
    these are the library functions its code calls. *)

From S2P Require Import Prelude.
Local Open Scope string_scope.
Local Open Scope Z_scope.

(** ** Strings

    A Rust [&str] is its UTF-8 bytes; [len] counts bytes. *)
Module Str.

Definition len (s : string) : Z := Z.of_nat (String.length s).

Definition is_empty (s : string) : bool := bool_decide (s = EmptyString).

(** [s.contains(c)] / [s.contains([c1, c2, ..])] for ASCII patterns: an ASCII
    byte never occurs inside a multi-byte UTF-8 sequence. *)
Fixpoint contains (cs : list ascii) (s : string) : bool :=
  match s with
  | EmptyString => false
  | String c s => bool_decide (c ∈ cs) || contains cs s
  end.

Fixpoint starts_with (p s : string) : bool :=
  match p, s with
  | EmptyString, _ => true
  | String a p, String b s => bool_decide (a = b) && starts_with p s
  | String _ _, EmptyString => false
  end.

Fixpoint strip_prefix (p s : string) : option string :=
  match p, s with
  | EmptyString, _ => Some s
  | String a p, String b s => if bool_decide (a = b) then strip_prefix p s else None
  | String _ _, EmptyString => None
  end.

Fixpoint ends_with_char (c : ascii) (s : string) : bool :=
  match s with
  | EmptyString => false
  | String a EmptyString => bool_decide (a = c)
  | String _ s => ends_with_char c s
  end.

(** [s.split(c)]: always at least one piece. *)
Fixpoint split (c : ascii) (s : string) : list string :=
  match s with
  | EmptyString => [EmptyString]
  | String a s =>
      if bool_decide (a = c) then EmptyString :: split c s
      else match split c s with
           | [] => [String a EmptyString]
           | p :: ps => String a p :: ps
           end
  end.

Fixpoint join (c : ascii) (l : list string) : string :=
  match l with
  | [] => EmptyString
  | [s] => s
  | s :: l => s +:+ String c (join c l)
  end.

Definition ascii_lower (c : ascii) : ascii :=
  let n := Ascii.nat_of_ascii c in
  if bool_decide (65 ≤ n ∧ n ≤ 90)%nat then Ascii.ascii_of_nat (n + 32) else c.

Fixpoint to_ascii_lowercase (s : string) : string :=
  match s with
  | EmptyString => EmptyString
  | String c s => String (ascii_lower c) (to_ascii_lowercase s)
  end.

Definition eq_ignore_ascii_case (a b : string) : bool :=
  bool_decide (to_ascii_lowercase a = to_ascii_lowercase b).

(** The bytes [s[from ..]] and [s[.. n]]. *)
Fixpoint drop (n : nat) (s : string) : string :=
  match n, s with
  | O, _ => s
  | S n, String _ s => drop n s
  | S _, EmptyString => EmptyString
  end.

Fixpoint take (n : nat) (s : string) : string :=
  match n, s with
  | O, _ => EmptyString
  | S n, String c s => String c (take n s)
  | S _, EmptyString => EmptyString
  end.

Lemma len_nonneg s : 0 ≤ len s.
Proof. unfold len. lia. Qed.

Lemma app_cons c a b : String c a +:+ b = String c (a +:+ b).
Proof. done. Qed.

Lemma length_app (a b : string) :
  String.length (a +:+ b) = (String.length a + String.length b)%nat.
Proof. induction a as [|c a IH]; [done|]. rewrite app_cons. simpl. by rewrite IH. Qed.

Lemma len_app a b : len (a +:+ b) = len a + len b.
Proof. unfold len. rewrite length_app. lia. Qed.

Lemma app_nil_r s : s +:+ EmptyString = s.
Proof. induction s as [|c s IH]; [done|]. change (String c (s +:+ EmptyString) = String c s). by rewrite IH. Qed.

Lemma app_assoc a b c : (a +:+ b) +:+ c = a +:+ (b +:+ c).
Proof.
  induction a as [|x a IH]; [done|].
  change (String x ((a +:+ b) +:+ c) = String x (a +:+ (b +:+ c))). by rewrite IH.
Qed.

Lemma starts_with_spec p s : starts_with p s = true ↔ ∃ t, s = p +:+ t.
Proof.
  revert s. induction p as [|a p IH]; intros s; simpl.
  - split; [by exists s | done].
  - destruct s as [|b s]; simpl; [split; [done | intros [t Ht]; done]|].
    rewrite andb_true_iff, bool_decide_eq_true, IH. split.
    + intros [-> [t ->]]. by exists t.
    + intros [t Ht]. injection Ht as -> ->. naive_solver.
Qed.

Lemma strip_prefix_spec p s t : strip_prefix p s = Some t ↔ s = p +:+ t.
Proof.
  revert s. induction p as [|a p IH]; intros s; simpl; [naive_solver|].
  destruct s as [|b s]; simpl; [split; [done | intros Ht; done]|].
  case_bool_decide as Hab; subst.
  - rewrite IH. rewrite app_cons. naive_solver.
  - split; [done | intros [= ]]. congruence.
Qed.

Lemma contains_app cs a b : contains cs (a +:+ b) = contains cs a || contains cs b.
Proof.
  induction a as [|c a IH]; [done|].
  rewrite app_cons. simpl. by rewrite IH, orb_assoc.
Qed.

Lemma length_take n s : String.length (take n s) = Nat.min n (String.length s).
Proof. revert s. induction n; intros [|c s]; simpl; auto. Qed.

Lemma length_drop n s : String.length (drop n s) = (String.length s - n)%nat.
Proof. revert s. induction n; intros [|c s]; simpl; auto. Qed.

Lemma take_drop n s : take n s +:+ drop n s = s.
Proof.
  revert s. induction n as [|n IH]; intros [|c s]; simpl; try done.
  rewrite app_cons. by rewrite IH.
Qed.

Lemma drop_drop n m s : drop n (drop m s) = drop (m + n) s.
Proof. revert s. induction m as [|m IH]; intros [|c s]; simpl; try done; by destruct n. Qed.

Lemma drop_all n s : (String.length s ≤ n)%nat → drop n s = EmptyString.
Proof. revert s. induction n as [|n IH]; intros [|c s]; simpl; intros; try done; [lia|]. apply IH. lia. Qed.

Lemma take_all n s : (String.length s ≤ n)%nat → take n s = s.
Proof. revert s. induction n as [|n IH]; intros [|c s]; simpl; intros; try done; [lia|]. f_equal. apply IH. lia. Qed.

Lemma take_app a b : take (String.length a) (a +:+ b) = a.
Proof. induction a as [|c a IH]; [by destruct b|]. rewrite app_cons. simpl. by rewrite IH. Qed.

Lemma take_0 s : take 0 s = EmptyString.
Proof. by destruct s. Qed.

(** Cutting a string that was put together. *)
Lemma take_app_le n a b : (n ≤ String.length a)%nat → take n (a +:+ b) = take n a.
Proof.
  revert n. induction a as [|c a IH]; intros [|n] Hn; rewrite ?take_0; try done; simpl in Hn; [lia|].
  rewrite app_cons. simpl. f_equal. apply IH. lia.
Qed.

Lemma take_app_ge n a b :
  (String.length a ≤ n)%nat → take n (a +:+ b) = a +:+ take (n - String.length a) b.
Proof.
  revert n. induction a as [|c a IH]; intros n Hn; simpl in Hn; [by rewrite Nat.sub_0_r|].
  destruct n as [|n]; [lia|]. rewrite !app_cons. simpl. f_equal. apply IH. lia.
Qed.

Lemma contains_take cs n s : contains cs s = false → contains cs (take n s) = false.
Proof.
  revert n. induction s as [|c s IH]; intros [|n]; simpl; try done.
  intros [-> Hs]%orb_false_iff. by apply IH.
Qed.

Lemma contains_ends_with c s : contains [c] s = false → ends_with_char c s = false.
Proof.
  induction s as [|a s IH]; [done|]. simpl. intros [Ha Hs]%orb_false_iff.
  destruct s; [|by apply IH]. apply bool_decide_eq_false in Ha. apply bool_decide_eq_false. set_solver.
Qed.

Lemma ends_with_app c s d : ends_with_char c (s +:+ String d EmptyString) = bool_decide (d = c).
Proof.
  induction s as [|a s IH]; [done|]. rewrite app_cons. simpl. rewrite IH. by destruct s.
Qed.

Lemma join_split c s : join c (split c s) = s.
Proof.
  induction s as [|a s IH]; [done|]. simpl. case_bool_decide as Hac; subst.
  - destruct (split c s) eqn:E; [by destruct s; simpl in E; repeat case_match|].
    simpl in *. by rewrite IH.
  - destruct (split c s) as [|p ps] eqn:E; [by destruct s; simpl in E; repeat case_match|].
    destruct ps; simpl in *; rewrite ?app_cons; by rewrite IH.
Qed.

End Str.

(** ** UTF-8

    The well-formedness table of [core::str::from_utf8] (no overlong forms, no
    surrogates, at most U+10FFFF), and the decoding of well-formed text. *)
Module Utf8.

Definition byte (c : ascii) : Z := Z.of_N (Ascii.N_of_ascii c).
Definition between (lo hi : Z) (c : ascii) : bool := (lo <=? byte c) && (byte c <=? hi).
Definition cont : ascii → bool := between 128 191.

(** The length of the well-formed character a byte string begins with. *)
Definition char_width (s : string) : option nat :=
  match s with
  | EmptyString => None
  | String b0 r0 =>
    if between 0 127 b0 then Some 1%nat else
    match r0 with
    | EmptyString => None
    | String b1 r1 =>
      if between 194 223 b0 then if cont b1 then Some 2%nat else None else
      match r1 with
      | EmptyString => None
      | String b2 r2 =>
        if between 224 239 b0 then
          let lo := if byte b0 =? 224 then 160 else 128 in
          let hi := if byte b0 =? 237 then 159 else 191 in
          if between lo hi b1 && cont b2 then Some 3%nat else None
        else
        match r2 with
        | EmptyString => None
        | String b3 _ =>
          if between 240 244 b0 then
            let lo := if byte b0 =? 240 then 144 else 128 in
            let hi := if byte b0 =? 244 then 143 else 191 in
            if between lo hi b1 && cont b2 && cont b3 then Some 4%nat else None
          else None
        end
      end
    end
  end.

(** Fuel: every character has at least one byte. *)
Fixpoint valid_fuel (n : nat) (s : string) : bool :=
  match s with
  | EmptyString => true
  | _ => match n, char_width s with
         | S n, Some w => valid_fuel n (Str.drop w s)
         | _, _ => false
         end
  end.

Definition valid (s : string) : bool := valid_fuel (String.length s) s.

Lemma char_width_app a b w : char_width a = Some w → char_width (a +:+ b) = Some w.
Proof.
  destruct a as [|a0 a]; [done|]. rewrite Str.app_cons. simpl. destruct (between 0 127 a0); [done|].
  destruct a as [|a1 a]; [done|]. rewrite Str.app_cons. destruct (between 194 223 a0); [done|].
  destruct a as [|a2 a]; [done|]. rewrite Str.app_cons. destruct (between 224 239 a0); [done|].
  destruct a as [|a3 a]; [done|]. by rewrite Str.app_cons.
Qed.

Lemma char_width_bound a w : char_width a = Some w → (w ≤ String.length a)%nat.
Proof. unfold char_width. repeat case_match; intros [= <-] || intros; simpl in *; try done; lia. Qed.

Lemma drop_app w a b : (w ≤ String.length a)%nat → Str.drop w (a +:+ b) = Str.drop w a +:+ b.
Proof.
  revert w. induction a as [|c a IH]; intros [|w] Hw; try done; simpl in Hw; [lia|].
  rewrite Str.app_cons. simpl. apply IH. lia.
Qed.

Lemma valid_fuel_app n m a b :
  valid_fuel n a = true → valid_fuel m b = true → valid_fuel (n + m) (a +:+ b) = true.
Proof.
  revert a. induction n as [|n IH]; intros a Ha Hb.
  { destruct a; [done|]. simpl in Ha. done. }
  destruct a as [|c a].
  { change (EmptyString +:+ b) with b. clear IH Ha. revert m b Hb. generalize (S n) as k.
    intros k m. revert k. induction m as [|m IH]; intros k [|d b] Hb; try done.
    - by destruct (k + 0)%nat.
    - by destruct (k + S m)%nat.
    - replace (k + S m)%nat with (S (k + m)) by lia. cbn [valid_fuel] in *.
      destruct (char_width _); [|done]. by apply IH. }
  cbn [valid_fuel Nat.add] in *. rewrite Str.app_cons. cbn [valid_fuel].
  destruct (char_width (String c a)) as [w|] eqn:Hw; [|done].
  rewrite <- Str.app_cons, (char_width_app _ _ _ Hw), drop_app by by apply char_width_bound.
  by apply IH.
Qed.

(** Text after text is text. *)
Lemma valid_app a b : valid a = true → valid b = true → valid (a +:+ b) = true.
Proof. unfold valid. rewrite Str.length_app. apply valid_fuel_app. Qed.

(** [char::is_whitespace] on the character a well-formed string begins with. *)
Definition ws_first (s : string) : option nat :=
  match s with
  | String b0 r =>
    if (between 9 13 b0) || (byte b0 =? 32) then Some 1%nat else
    match r with
    | String b1 r1 =>
      if (byte b0 =? 194) && ((byte b1 =? 133) || (byte b1 =? 160)) then Some 2%nat else
      match r1 with
      | String b2 _ =>
        if ((byte b0 =? 225) && (byte b1 =? 154) && (byte b2 =? 128))
           || ((byte b0 =? 226) && (byte b1 =? 128)
               && (between 128 138 b2 || (byte b2 =? 168) || (byte b2 =? 169) || (byte b2 =? 175)))
           || ((byte b0 =? 226) && (byte b1 =? 129) && (byte b2 =? 159))
           || ((byte b0 =? 227) && (byte b1 =? 128) && (byte b2 =? 128))
        then Some 3%nat else None
      | EmptyString => None
      end
    | EmptyString => None
    end
  | EmptyString => None
  end.

Fixpoint trim_start_fuel (n : nat) (s : string) : string :=
  match n with
  | O => s
  | S n => match ws_first s with
           | Some w => trim_start_fuel n (Str.drop w s)
           | None => s
           end
  end.

(** [s.trim_start()]; fuel: at most one character per byte. *)
Definition trim_start (s : string) : string := trim_start_fuel (String.length s) s.

Definition all_whitespace (s : string) : bool := Str.is_empty (trim_start s).

(** [s.trim_end()]: cut at the first position from which only white space
    follows. A continuation byte never starts a white-space character, so the
    cut falls on a character boundary. *)
Fixpoint trim_end (s : string) : string :=
  match s with
  | EmptyString => EmptyString
  | String c r => if all_whitespace s then EmptyString else String c (trim_end r)
  end.

Definition trim (s : string) : string := trim_end (trim_start s).

End Utf8.

(** ** Unix paths *)
Module Path.

Definition slash : ascii := "/"%char.

Inductive Component := RootDir | CurDir | ParentDir | Normal (name : string).

#[global] Instance Component_eq_dec : EqDecision Component.
Proof. solve_decision. Defined.

Definition is_absolute (p : string) : bool := Str.starts_with "/" p.

(** Repeated separators and inner [.] segments produce no component. *)
Definition component_of (seg : string) : option Component :=
  if Str.is_empty seg then None
  else if bool_decide (seg = ".") then None
  else if bool_decide (seg = "..") then Some ParentDir
  else Some (Normal seg).

(** [Path::components]: a leading [.] of a relative path is kept. *)
Definition components (p : string) : list Component :=
  let segs := Str.split slash p in
  if is_absolute p then RootDir :: omap component_of segs
  else match segs with
       | seg :: rest => if bool_decide (seg = ".") then CurDir :: omap component_of rest
                        else omap component_of segs
       | [] => []
       end.

Definition file_name (p : string) : option string :=
  match last (components p) with
  | Some (Normal name) => Some name
  | _ => None
  end.

(** [extension]: what follows the last dot of the file name, unless the name
    has no other dot than a leading one. *)
Definition extension (p : string) : option string :=
  name ← file_name p;
  match rev (Str.split "."%char name) with
  | after :: before :: rest =>
      if bool_decide (rest = [] ∧ before = EmptyString) then None else Some after
  | _ => None
  end.

(** [base.join(value)]. *)
Definition join (base value : string) : string :=
  if is_absolute value then value
  else if Str.is_empty base || Str.ends_with_char slash base then base +:+ value
  else base +:+ "/" +:+ value.

Definition skippable (seg : string) : bool := Str.is_empty seg || bool_decide (seg = ".").

Fixpoint drop_skippable (l : list string) : list string :=
  match l with
  | seg :: l' => if skippable seg then drop_skippable l' else l
  | [] => []
  end.

(** [parent]: the path without its last component, [None] for [/] and the
    empty path. *)
Definition parent (p : string) : option string :=
  let trim_back l := rev (drop_skippable (rev l)) in
  match is_absolute p, Str.split slash p with
  | true, _ :: body =>
      match rev (trim_back body) with
      | [] => None
      | _ :: before => Some ("/" +:+ Str.join slash (trim_back (rev before)))
      end
  | false, first :: body =>
      match rev (trim_back body) with
      | [] => if Str.is_empty first then None else Some EmptyString
      | _ :: before => Some (Str.join slash (first :: trim_back (rev before)))
      end
  | _, [] => None
  end.

End Path.

(** ** Windows paths

    [std::path] on Windows: a path may begin with a prefix, separators are [\]
    and, except after a verbatim prefix, also [/]. *)
Module WinPath.

Definition backslash : ascii := "\"%char.
Definition is_verbatim_sep (c : ascii) : bool := bool_decide (c = backslash).
Definition is_sep_byte (c : ascii) : bool := is_verbatim_sep c || bool_decide (c = "/"%char).

(** Cut at the first, and at the last, character of a kind. *)
Fixpoint cut_first (sep : ascii → bool) (s : string) : option (string * string) :=
  match s with
  | EmptyString => None
  | String c r =>
      if sep c then Some (EmptyString, r)
      else '(a, b) ← cut_first sep r; Some (String c a, b)
  end.

Fixpoint cut_last (sep : ascii → bool) (s : string) : option (string * string) :=
  match s with
  | EmptyString => None
  | String c r =>
      match cut_last sep r with
      | Some (a, b) => Some (String c a, b)
      | None => if sep c then Some (EmptyString, r) else None
      end
  end.

(** [std::sys::path::windows::parse_next_component]. *)
Definition parse_next_component (verbatim : bool) (s : string) : string * string :=
  default (s, EmptyString) (cut_first (if verbatim then is_verbatim_sep else is_sep_byte) s).

Inductive Prefix :=
| Verbatim (name : string)
| VerbatimUNC (server share : string)
| VerbatimDisk (drive : ascii)
| UNC (server share : string)
| DeviceNS (name : string)
| Disk (drive : ascii).

#[global] Instance Prefix_eq_dec : EqDecision Prefix.
Proof. solve_decision. Defined.

Definition is_verbatim (p : Prefix) : bool :=
  match p with Verbatim _ | VerbatimUNC _ _ | VerbatimDisk _ => true | _ => false end.
Definition is_drive (p : Prefix) : bool := match p with Disk _ => true | _ => false end.
Definition has_implicit_root (p : Prefix) : bool := negb (is_drive p).

(** [Prefix::len]. *)
Definition prefix_len (p : Prefix) : nat :=
  let share y := if Str.is_empty y then O else S (String.length y) in
  match p with
  | Verbatim x => 4 + String.length x
  | VerbatimUNC x y => 8 + String.length x + share y
  | VerbatimDisk _ => 6
  | UNC x y => 2 + String.length x + share y
  | DeviceNS x => 4 + String.length x
  | Disk _ => 2
  end.

Definition is_letter (c : ascii) : bool :=
  let n := Ascii.nat_of_ascii (Str.ascii_lower c) in bool_decide (97 ≤ n ∧ n ≤ 122)%nat.

Definition parse_drive (s : string) : option ascii :=
  match s with
  | String d (String ":" _) => if is_letter d then Some d else None
  | _ => None
  end.

(** Only a drive: nothing or a separator follows. *)
Definition parse_drive_exact (s : string) : option ascii :=
  match s with
  | String _ (String _ (String c _)) => if is_sep_byte c then parse_drive s else None
  | _ => parse_drive s
  end.

(** [strip_prefix] of the parser, for which [/] counts as [\]. *)
Fixpoint strip (p s : string) : option string :=
  match p, s with
  | EmptyString, _ => Some s
  | String a p, String b s =>
      if bool_decide (a = b) || is_verbatim_sep a && is_sep_byte b then strip p s else None
  | String _ _, EmptyString => None
  end.

(** [parse_prefix]. The three characters of [\\?] and its separator must be
    written exactly so. *)
Definition parse_prefix (path : string) : option Prefix :=
  match strip "\\" path with
  | None => Disk <$> parse_drive path
  | Some rest =>
      match Str.strip_prefix "\\?\" path with
      | Some p =>
          match strip "UNC\" p with
          | Some p => let '(server, p) := parse_next_component true p in
                      Some (VerbatimUNC server (parse_next_component true p).1)
          | None => match parse_drive_exact p with
                    | Some d => Some (VerbatimDisk d)
                    | None => Some (Verbatim (parse_next_component true p).1)
                    end
          end
      | None =>
          match strip ".\" rest with
          | Some p => Some (DeviceNS (parse_next_component false p).1)
          | None =>
              let '(server, p) := parse_next_component false rest in
              let share := (parse_next_component false p).1 in
              if Str.is_empty server || Str.is_empty share then None else Some (UNC server share)
          end
      end
  end.

Inductive Component :=
| PrefixPart (text : string) (parsed : Prefix)
| RootDir
| CurDir
| ParentDir
| Normal (name : string).

#[global] Instance Component_eq_dec : EqDecision Component.
Proof. solve_decision. Defined.

(** What [Path::components] knows of a path before it looks at its body. *)
Record Components := mkComponents {
  pre : string;
  prefix : option Prefix;
  after_prefix : string
}.

Definition parse (path : string) : Components :=
  let n := from_option prefix_len O (parse_prefix path) in
  mkComponents (Str.take n path) (parse_prefix path) (Str.drop n path).

Definition prefix_verbatim (c : Components) : bool := from_option is_verbatim false (prefix c).
Definition sep_of (c : Components) : ascii → bool := if prefix_verbatim c then is_verbatim_sep else is_sep_byte.

Definition has_physical_root (c : Components) : bool :=
  match after_prefix c with String x _ => is_sep_byte x | EmptyString => false end.

Definition has_root (c : Components) : bool :=
  has_physical_root c || from_option has_implicit_root false (prefix c).

Definition include_cur_dir (c : Components) : bool :=
  negb (has_root c) &&
  match after_prefix c with
  | String "." EmptyString => true
  | String "." (String x _) => sep_of c x
  | _ => false
  end.

(** The text before the body, and the body. *)
Definition lead (c : Components) : string * string :=
  let n := ((if has_physical_root c then 1 else 0) + (if include_cur_dir c then 1 else 0))%nat in
  (pre c +:+ Str.take n (after_prefix c), Str.drop n (after_prefix c)).

Definition parse_single (c : Components) (seg : string) : option Component :=
  if bool_decide (seg = ".") then (if prefix_verbatim c then Some CurDir else None)
  else if bool_decide (seg = "..") then Some ParentDir
  else if Str.is_empty seg then None
  else Some (Normal seg).

Fixpoint segments (sep : ascii → bool) (s : string) : list string :=
  match s with
  | EmptyString => [EmptyString]
  | String c r =>
      if sep c then EmptyString :: segments sep r
      else match segments sep r with
           | [] => [String c EmptyString]
           | p :: ps => String c p :: ps
           end
  end.

Definition components (path : string) : list Component :=
  let c := parse path in
  match prefix c with Some p => [PrefixPart (pre c) p] | None => [] end ++
  (if has_physical_root c then [RootDir]
   else match prefix c with
        | Some p => if has_implicit_root p && negb (is_verbatim p) then [RootDir] else []
        | None => if include_cur_dir c then [CurDir] else []
        end) ++
  omap (parse_single c) (segments (sep_of c) (lead c).2).

(** [has_root() && prefix().is_some()]. *)
Definition is_absolute (path : string) : bool :=
  let c := parse path in has_root c && bool_decide (is_Some (prefix c)).

Definition file_name (path : string) : option string :=
  match last (components path) with Some (Normal name) => Some name | _ => None end.

Definition extension (path : string) : option string :=
  name ← file_name path;
  match rev (Str.split "."%char name) with
  | after :: before :: rest =>
      if bool_decide (rest = [] ∧ before = EmptyString) then None else Some after
  | _ => None
  end.

(** The body without the trailing parts that are no components, and without its
    last component. Fuel: every step shortens the body. *)
Fixpoint trim_right (fuel : nat) (c : Components) (body : string) : string :=
  match fuel with
  | O => body
  | S fuel =>
      let '(before, seg) := default (EmptyString, body) (cut_last (sep_of c) body) in
      if Str.is_empty body then body
      else match parse_single c seg with Some _ => body | None => trim_right fuel c before end
  end.

(** [Path::parent]: what is left before the last component, unless that is the
    root or the prefix. *)
Definition parent (path : string) : option string :=
  let c := parse path in
  let '(front, body) := lead c in
  let body := trim_right (S (String.length body)) c body in
  match last (components path) with
  | Some (Normal _) | Some ParentDir | Some CurDir =>
      if Str.is_empty body then Some (pre c)             (* the leading [.] *)
      else let before := from_option fst EmptyString (cut_last (sep_of c) body) in
           Some (front +:+ trim_right (S (String.length before)) c before)
  | _ => None
  end.

Definition component_text (c : Component) : string :=
  match c with
  | PrefixPart text _ => text
  | RootDir => "\"
  | CurDir => "."
  | ParentDir => ".."
  | Normal name => name
  end.

(** [PathBuf::push] onto a verbatim path: [.] and [..] are resolved. *)
Definition push_component (buf : list Component) (c : Component) : list Component :=
  match c with
  | RootDir => take 1 buf ++ [RootDir]
  | CurDir => buf
  | ParentDir => match last buf with Some (Normal _) => take (length buf - 1) buf | _ => buf end
  | _ => buf ++ [c]
  end.

Fixpoint render (need_sep : bool) (cs : list Component) : string :=
  match cs with
  | [] => EmptyString
  | c :: cs =>
      let sep := if need_sep && negb (bool_decide (c = RootDir)) then "\" else EmptyString in
      let need_sep := match c with
                      | RootDir => false
                      | PrefixPart _ p => negb (is_drive p) && (0 <? prefix_len p)%nat
                      | _ => true
                      end in
      sep +:+ component_text c +:+ render need_sep cs
  end.

Fixpoint last_byte (s : string) : option ascii :=
  match s with
  | EmptyString => None
  | String c EmptyString => Some c
  | String _ s => last_byte s
  end.

(** [base.join(value)]. *)
Definition join (base value : string) : string :=
  let b := parse base in
  let v := parse value in
  let need_sep := match last_byte base with Some x => negb (is_sep_byte x) | None => false end
                  && negb (from_option is_drive false (prefix b) && Str.is_empty (after_prefix b)) in
  if is_absolute value || bool_decide (is_Some (prefix v)) then value
  else if prefix_verbatim b && negb (Str.is_empty value)
  then render false (foldl push_component (components base) (components value))
  else if has_root v then pre b +:+ value
  else if need_sep then base +:+ "\" +:+ value
  else base +:+ value.

Example join_plain : join "C:\conf" "cmd.exe" = "C:\conf\cmd.exe". Proof. reflexivity. Qed.
Example join_verbatim : join "\\?\C:\conf" "..\bin/./cmd.exe" = "\\?\C:\bin\cmd.exe". Proof. reflexivity. Qed.
Example join_rooted : join "C:\conf" "\bin" = "C:\bin". Proof. reflexivity. Qed.
Example join_drive : join "C:\conf" "D:cmd.exe" = "D:cmd.exe". Proof. reflexivity. Qed.
Example parent_verbatim : parent "\\?\C:\conf\a.yaml" = Some "\\?\C:\conf". Proof. reflexivity. Qed.
Example parent_of_top : parent "C:\a.yaml" = Some "C:\". Proof. reflexivity. Qed.
Example parent_root : parent "\\server\share\" = None. Proof. reflexivity. Qed.
Example file_name_mixed : file_name "C:\Windows/System32\CMD.exe" = Some "CMD.exe". Proof. reflexivity. Qed.
Example file_name_drive : file_name "c:cmd" = Some "cmd". Proof. reflexivity. Qed.
Example extension_stream : extension "\\?\C:\a\run.BAT" = Some "BAT". Proof. reflexivity. Qed.
Example absolute_unc : is_absolute "\\server\share" = true. Proof. reflexivity. Qed.
Example absolute_rooted : is_absolute "\Windows" = false. Proof. reflexivity. Qed.
Example absolute_forward : is_absolute "c:/Windows" = true. Proof. reflexivity. Qed.
Example count_drive : length (components "C:.") = 1%nat. Proof. reflexivity. Qed.
Example count_relative : length (components ".\pwsh") = 2%nat. Proof. reflexivity. Qed.

End WinPath.

(** ** Paths of the build target: [windows] is [cfg!(windows)] *)
Module OsPath.

Definition is_absolute (windows : bool) (p : string) : bool :=
  if windows then WinPath.is_absolute p else Path.is_absolute p.
Definition component_count (windows : bool) (p : string) : nat :=
  if windows then length (WinPath.components p) else length (Path.components p).
Definition file_name (windows : bool) (p : string) : option string :=
  if windows then WinPath.file_name p else Path.file_name p.
Definition extension (windows : bool) (p : string) : option string :=
  if windows then WinPath.extension p else Path.extension p.
Definition join (windows : bool) (base value : string) : string :=
  if windows then WinPath.join base value else Path.join base value.
Definition parent (windows : bool) (p : string) : option string :=
  if windows then WinPath.parent p else Path.parent p.

End OsPath.

(** ** IP addresses: 32-bit and 128-bit numbers *)
Module Net.

Inductive IpAddr := V4 (a : Z) | V6 (a : Z).

#[global] Instance IpAddr_eq_dec : EqDecision IpAddr.
Proof. solve_decision. Defined.

#[global] Instance IpAddr_countable : Countable IpAddr.
Proof.
  refine (inj_countable'
    (λ ip, match ip with V4 a => inl a | V6 a => inr a end)
    (λ s, match s with inl a => V4 a | inr a => V6 a end) _).
  by intros [].
Defined.

Definition wf_ip (ip : IpAddr) : Prop :=
  match ip with V4 a => 0 ≤ a < 2 ^ 32 | V6 a => 0 ≤ a < 2 ^ 128 end.

(** [Ipv6Addr::to_ipv4_mapped]: [::ffff:a.b.c.d]. *)
Definition to_ipv4_mapped (a : Z) : option Z :=
  if Z.shiftr a 32 =? 65535 then Some (Z.land a (2 ^ 32 - 1)) else None.

Definition is_loopback (ip : IpAddr) : bool :=
  match ip with
  | V4 a => Z.shiftr a 24 =? 127
  | V6 a => a =? 1
  end.

Lemma to_ipv4_mapped_range a b : to_ipv4_mapped a = Some b → 0 ≤ b < 2 ^ 32.
Proof.
  unfold to_ipv4_mapped. case_match; [|done]. intros [= <-].
  change (2 ^ 32 - 1) with (Z.ones 32). rewrite Z.land_ones by lia.
  apply Z.mod_pos_bound. lia.
Qed.

Lemma to_ipv4_mapped_spec a b :
  0 ≤ b < 2 ^ 32 → (to_ipv4_mapped a = Some b ↔ a = 65535 * 2 ^ 32 + b).
Proof.
  intros Hb. unfold to_ipv4_mapped.
  rewrite Z.shiftr_div_pow2 by lia.
  change (2 ^ 32 - 1) with (Z.ones 32). rewrite Z.land_ones by lia.
  pose proof (Z.div_mod a (2 ^ 32)) as Hdm.
  destruct (Z.eqb_spec (a / 2 ^ 32) 65535) as [Hq|Hq].
  - split; [intros [= <-]; lia|]. intros ->. f_equal. lia.
  - split; [done|]. intros ->. exfalso. apply Hq.
    rewrite Z.add_comm, Z.div_add by lia. rewrite Z.div_small by lia. lia.
Qed.

End Net.

(** ** The monotonic clock, in nanoseconds

    An [Instant] on Linux is a [timespec] with 64-bit seconds; [Instant +
    Duration] panics when the sum does not fit, modelled as [None]. *)
Module Instants.

Definition NANOS : Z := 1000000000.
Definition INSTANT_MAX : Z := I64_MAX * NANOS + (NANOS - 1).

Definition add_secs (now secs : Z) : option Z :=
  let t := now + secs * NANOS in
  if t <=? INSTANT_MAX then Some t else None.

End Instants.

(** ** [tokio::sync::watch]

    One value with a version; a receiver remembers the version it has seen.
    [send_replace] overwrites the value, so only the latest is observable. A
    receiver made by [subscribe] regards the current value as seen. *)
Module Watch.

Record watch (A : Type) := mk { value : A; version : nat }.
Arguments mk {A} _ _.
Arguments value {A} _.
Arguments version {A} _.

Definition channel {A} (a : A) : watch A := mk a 0.
Definition send_replace {A} (a : A) (w : watch A) : watch A := mk a (S (version w)).
Definition subscribe {A} (w : watch A) : nat := version w.
(** [changed()] is ready. *)
Definition has_changed {A} (w : watch A) (seen : nat) : bool := (seen <? version w)%nat.
(** [borrow_and_update()]: the value and the receiver's new seen version. *)
Definition borrow_and_update {A} (w : watch A) : A * nat := (value w, version w).

End Watch.
