(* ===== verification/Model.v ===== *)
(** * The data model (src/src/model.rs)

    The enumerations and records the components exchange, the API error and
    its response, and the RFC 3339 time stamps. [OutputEncoding] of
    src/src/config.rs is declared here because the snapshots contain it.

    The [time] crate's formatter and parser are an interface ([TimeLib]) with
    the law the code relies on ([TimeLaws]): a formatted UTC time of the years
    0 to 9999 parses back to the same nanosecond. *)

From S2P Require Import Prelude RustStd.
Local Open Scope string_scope.
Local Open Scope Z_scope.

(** ** Enumerations *)

Inductive TaskStatus :=
| Starting | Running | Stopping
| Succeeded | Failed | TimedOut | Cancelled | Killed | Interrupted.

Definition is_finished (s : TaskStatus) : bool :=
  match s with
  | Succeeded | Failed | TimedOut | Cancelled | Killed | Interrupted => true
  | _ => false
  end.

Inductive OutputMode := Separate | Combined.

Inductive StopReason :=
| RTimeout | RCancelled | RForceKilled | RServerShutdown | RServerRestart
| RParentExited | RLoggingFailure.

Definition StopReason_fmt (r : StopReason) : string :=
  match r with
  | RTimeout => "timeout"
  | RCancelled => "cancelled"
  | RForceKilled => "force_killed"
  | RServerShutdown => "server_shutdown"
  | RServerRestart => "server_restart"
  | RParentExited => "parent_exited"
  | RLoggingFailure => "logging_failure"
  end.

Inductive OutputEncoding := Utf8 | Gbk | Utf16le.

Definition label (e : OutputEncoding) : string :=
  match e with
  | Utf8 => "utf-8"
  | Gbk => "gbk"
  | Utf16le => "utf-16le"
  end.

Inductive OutputStream := SStdout | SStderr | SCombined.

Definition file_name (s : OutputStream) : string :=
  match s with
  | SStdout => "stdout.log"
  | SStderr => "stderr.log"
  | SCombined => "output.log"
  end.

#[global] Instance TaskStatus_eq_dec : EqDecision TaskStatus.
Proof. solve_decision. Defined.
#[global] Instance OutputMode_eq_dec : EqDecision OutputMode.
Proof. solve_decision. Defined.
#[global] Instance StopReason_eq_dec : EqDecision StopReason.
Proof. solve_decision. Defined.
#[global] Instance OutputEncoding_eq_dec : EqDecision OutputEncoding.
Proof. solve_decision. Defined.
#[global] Instance OutputStream_eq_dec : EqDecision OutputStream.
Proof. solve_decision. Defined.

(** ** Task snapshots *)

(** A version-4 UUID: 128 random bits. *)
Definition Uuid := N.

Record Termination := mkTermination {
  reason : StopReason;
  graceful_attempted : bool;
  forced : bool;
  method : string;
  signal : option string;
  t_message : option string
}.

Record TaskSnapshot := mkTaskSnapshot {
  task_id : Uuid;
  route : string;
  status : TaskStatus;
  output_mode : OutputMode;
  output_encoding : OutputEncoding;
  created_at : string;
  started_at : option string;
  finished_at : option string;
  exit_code : option Z;
  termination : option Termination;
  error : option string;
  output_truncated : bool
}.

#[global] Instance Termination_eq_dec : EqDecision Termination.
Proof. solve_decision. Defined.
#[global] Instance TaskSnapshot_eq_dec : EqDecision TaskSnapshot.
Proof. solve_decision. Defined.

(** Field updates used by the closures passed to [TaskRecord::transition]. *)
Definition set_status (v : TaskStatus) (s : TaskSnapshot) : TaskSnapshot :=
  mkTaskSnapshot (task_id s) (route s) v (output_mode s) (output_encoding s) (created_at s)
    (started_at s) (finished_at s) (exit_code s) (termination s) (error s) (output_truncated s).
Definition set_started_at (v : option string) (s : TaskSnapshot) : TaskSnapshot :=
  mkTaskSnapshot (task_id s) (route s) (status s) (output_mode s) (output_encoding s) (created_at s)
    v (finished_at s) (exit_code s) (termination s) (error s) (output_truncated s).
Definition set_finished_at (v : option string) (s : TaskSnapshot) : TaskSnapshot :=
  mkTaskSnapshot (task_id s) (route s) (status s) (output_mode s) (output_encoding s) (created_at s)
    (started_at s) v (exit_code s) (termination s) (error s) (output_truncated s).
Definition set_exit_code (v : option Z) (s : TaskSnapshot) : TaskSnapshot :=
  mkTaskSnapshot (task_id s) (route s) (status s) (output_mode s) (output_encoding s) (created_at s)
    (started_at s) (finished_at s) v (termination s) (error s) (output_truncated s).
Definition set_termination (v : option Termination) (s : TaskSnapshot) : TaskSnapshot :=
  mkTaskSnapshot (task_id s) (route s) (status s) (output_mode s) (output_encoding s) (created_at s)
    (started_at s) (finished_at s) (exit_code s) v (error s) (output_truncated s).
Definition set_error (v : option string) (s : TaskSnapshot) : TaskSnapshot :=
  mkTaskSnapshot (task_id s) (route s) (status s) (output_mode s) (output_encoding s) (created_at s)
    (started_at s) (finished_at s) (exit_code s) (termination s) v (output_truncated s).
Definition set_output_truncated (v : bool) (s : TaskSnapshot) : TaskSnapshot :=
  mkTaskSnapshot (task_id s) (route s) (status s) (output_mode s) (output_encoding s) (created_at s)
    (started_at s) (finished_at s) (exit_code s) (termination s) (error s) v.

(** ** Requests and responses *)

Record OutputSizes := mkOutputSizes {
  sz_stdout : option Z; sz_stderr : option Z; sz_combined : option Z
}.

Record TaskLinks := mkTaskLinks {
  l_status : string;
  l_stdout : option string;
  l_stderr : option string;
  l_combined : option string;
  l_cancel : string;
  l_kill : string
}.

Record TaskView := mkTaskView {
  v_success : bool;
  v_task : TaskSnapshot;
  duration_ms : Z;
  output_bytes : OutputSizes;
  links : TaskLinks
}.

Record ExecuteRequest := mkExecuteRequest { args : list string }.

Record AcceptedTask := mkAcceptedTask {
  a_success : bool; a_task_id : Uuid; a_status : TaskStatus; status_url : string
}.

Definition default_output_limit : Z := 64 * 1024.

Record OutputQuery := mkOutputQuery {
  q_stream : OutputStream; q_offset : Z; q_limit : Z
}.

Record OutputChunk := mkOutputChunk {
  c_success : bool;
  c_task_id : Uuid;
  c_stream : OutputStream;
  c_encoding : string;
  c_offset : Z;
  next_offset : Z;
  eof : bool;
  content : string;
  decoding_errors : bool;
  content_base64 : option string
}.

Record IndexData := mkIndexData {
  name : string; description : string; repository : string
}.

Record ApiError := mkApiError {
  e_status : Z; e_code : string; e_message : string
}.

(** The JSON bodies the handlers return, before serialization. *)
Inductive Body :=
| BError (success : bool) (code message : string)
| BMessage (success : bool) (message : string)
| BIndex (success : bool) (data : IndexData)
| BAccepted (a : AcceptedTask)
| BTask (v : TaskView)
| BChunk (c : OutputChunk).

Record Response := mkResponse {
  r_status : Z; r_headers : list (string * string); r_body : Body
}.

Definition ApiError_new (status : Z) (code message : string) : ApiError :=
  mkApiError status code message.

(** [IntoResponse for ApiError]: the status line and a body marked
    unsuccessful. *)
Definition into_response (e : ApiError) : Response :=
  mkResponse (e_status e) [] (BError false (e_code e) (e_message e)).

(** HTTP status codes by their [http::StatusCode] names. *)
Definition OK : Z := 200.
Definition ACCEPTED : Z := 202.
Definition BAD_REQUEST : Z := 400.
Definition UNAUTHORIZED : Z := 401.
Definition FORBIDDEN : Z := 403.
Definition NOT_FOUND : Z := 404.
Definition CONFLICT : Z := 409.
Definition TOO_MANY_REQUESTS : Z := 429.
Definition INTERNAL_SERVER_ERROR : Z := 500.
Definition SERVICE_UNAVAILABLE : Z := 503.

(** ** Time stamps

    Wall-clock times are nanoseconds since the Unix epoch. *)

Class TimeLib := {
  rfc3339_format : Z → string;
  rfc3339_parse : string → option Z
}.

(** 0000-01-01T00:00:00Z to 9999-12-31T23:59:59.999999999Z. *)
Definition rfc3339_range (t : Z) : Prop :=
  -62167219200 * 10 ^ 9 ≤ t < 253402300800 * 10 ^ 9.

Class TimeLaws `{TimeLib} : Prop :=
  rfc3339_roundtrip : ∀ t, rfc3339_range t → rfc3339_parse (rfc3339_format t) = Some t.

Section time.
Context `{TimeLib}.

Definition now_rfc3339 (now : Z) : string := rfc3339_format now.

(** [elapsed_ms start end], at wall-clock time [now]: [whole_milliseconds]
    truncates towards zero, and a negative duration counts as zero. *)
Definition elapsed_ms (now : Z) (start : string) (end_ : option string) : Z :=
  match rfc3339_parse start with
  | None => 0
  | Some start =>
      let end_ := default now (end_ ≫= rfc3339_parse) in
      Z.max (Z.quot (end_ - start) 1000000) 0
  end.

Lemma elapsed_ms_nonneg now start end_ : 0 ≤ elapsed_ms now start end_.
Proof. unfold elapsed_ms. case_match; lia. Qed.
End time.

(** ** A concrete codec

    Any countable type has a text form over the characters 0, 1 and i. It
    instantiates the codec interfaces of the development in the examples. *)
Module BitText.

Fixpoint of_pos (p : positive) : string :=
  match p with
  | xH => "1"
  | xO p => String "0" (of_pos p)
  | xI p => String "i" (of_pos p)
  end.

Fixpoint to_pos (s : string) : option positive :=
  match s with
  | EmptyString => None
  | String c s =>
      if bool_decide (c = "1"%char) then
        if Str.is_empty s then Some xH else None
      else if bool_decide (c = "0"%char) then xO <$> to_pos s
      else if bool_decide (c = "i"%char) then xI <$> to_pos s
      else None
  end.

Definition encode {A} `{Countable A} (a : A) : string := of_pos (countable.encode a).
Definition decode {A} `{Countable A} (s : string) : option A := to_pos s ≫= countable.decode.

Lemma to_of_pos p : to_pos (of_pos p) = Some p.
Proof. induction p as [p IH|p IH|]; simpl; rewrite ?IH; done. Qed.

Lemma decode_encode {A} `{Countable A} (a : A) : decode (encode a) = Some a.
Proof. unfold decode, encode. rewrite to_of_pos. simpl. apply decode_encode. Qed.

Lemma of_pos_contains cs p :
  "1"%char ∉ cs → "0"%char ∉ cs → "i"%char ∉ cs → Str.contains cs (of_pos p) = false.
Proof.
  intros. induction p; simpl; rewrite bool_decide_eq_false_2 by done; done.
Qed.

End BitText.

#[global] Instance bit_time_lib : TimeLib | 100 :=
  {| rfc3339_format t := BitText.encode t; rfc3339_parse s := BitText.decode s |}.

Lemma bit_time_laws : @TimeLaws bit_time_lib.
Proof. intros t _. apply BitText.decode_encode. Qed.

(** Countability of the snapshot types, through their field tuples. *)
#[global] Instance TaskStatus_countable : Countable TaskStatus.
Proof.
  refine (inj_countable
    (λ s, match s with Starting => 0 | Running => 1 | Stopping => 2 | Succeeded => 3 | Failed => 4
          | TimedOut => 5 | Cancelled => 6 | Killed => 7 | Interrupted => 8 end)
    (λ n, match n with 0 => Some Starting | 1 => Some Running | 2 => Some Stopping
          | 3 => Some Succeeded | 4 => Some Failed | 5 => Some TimedOut | 6 => Some Cancelled
          | 7 => Some Killed | 8 => Some Interrupted | _ => None end) _).
  by intros [].
Defined.
#[global] Instance StopReason_countable : Countable StopReason.
Proof.
  refine (inj_countable
    (λ s, match s with RTimeout => 0 | RCancelled => 1 | RForceKilled => 2 | RServerShutdown => 3
          | RServerRestart => 4 | RParentExited => 5 | RLoggingFailure => 6 end)
    (λ n, match n with 0 => Some RTimeout | 1 => Some RCancelled | 2 => Some RForceKilled
          | 3 => Some RServerShutdown | 4 => Some RServerRestart | 5 => Some RParentExited
          | 6 => Some RLoggingFailure | _ => None end) _).
  by intros [].
Defined.
#[global] Instance OutputMode_countable : Countable OutputMode.
Proof.
  refine (inj_countable' (λ m, match m with Separate => true | Combined => false end)
    (λ b : bool, if b then Separate else Combined) _). by intros [].
Defined.
#[global] Instance OutputEncoding_countable : Countable OutputEncoding.
Proof.
  refine (inj_countable' (λ e, match e with Utf8 => 0 | Gbk => 1 | Utf16le => 2 end)
    (λ n : Z, match n with 0 => Utf8 | 1 => Gbk | _ => Utf16le end) _). by intros [].
Defined.
#[global] Instance Termination_countable : Countable Termination.
Proof.
  refine (inj_countable'
    (λ t, ((reason t, graceful_attempted t, forced t), (method t, signal t, t_message t)))
    (λ '((a, b, c), (d, e, f)), mkTermination a b c d e f) _). by intros [].
Defined.
#[global] Instance TaskSnapshot_countable : Countable TaskSnapshot.
Proof.
  refine (inj_countable'
    (λ s, (((task_id s, route s, status s), (output_mode s, output_encoding s, created_at s)),
           ((started_at s, finished_at s, exit_code s), (termination s, error s, output_truncated s))))
    (λ '(((a, b, c), (d, e, f)), ((g, h, i), (j, k, l))), mkTaskSnapshot a b c d e f g h i j k l) _).
  by intros [].
Defined.
