(* ===== verification/Secret.v ===== *)
(** * Token verification and token secrets (src/src/secret.rs)

    [TokenVerifier] and its cache of the first successful fingerprint, the
    validation of tokens and of PHC hashes, and the DPAPI key file. The
    [sha2], [pbkdf2] and DPAPI libraries are the interfaces [CryptoLib] and
    [DpapiLib]; [dpapi_unsupported] is the non-Windows build of the module
    [dpapi].

    A PBKDF2 verification runs on a blocking thread while other requests are
    served, so [verify] is two atomic steps ([verify_begin] reads the cache,
    [verify_finish] stores into it) and the safety theorem quantifies over
    every interleaving of them. *)

From S2P Require Import Prelude RustStd Model.
Local Open Scope string_scope.
Local Open Scope Z_scope.

(** ** Interfaces *)

Class CryptoLib := {
  sha256 : string → string;
  PasswordHash : Type;
  (** [PasswordHash::new]: parse a PHC string. *)
  PasswordHash_new : string → option PasswordHash;
  ph_algorithm : PasswordHash → string;
  ph_salt : PasswordHash → option string;
  ph_hash : PasswordHash → option string;
  (** [Params::try_from(&hash)]: rounds and output length. *)
  Params_try_from : PasswordHash → option (Z * Z);
  (** [Pbkdf2::SHA256.verify_password(token, &hash).is_ok()]. *)
  verify_password : string → PasswordHash → bool;
  (** [Pbkdf2::new(Pbkdf2Sha256, rounds).hash_password(token)], with the random
      salt drawn as an argument. *)
  hash_password : Z → string → string → option string;
  MIN_ROUNDS : Z;
  RECOMMENDED_ROUNDS : Z;
  RECOMMENDED_OUTPUT_LENGTH : Z
}.

Inductive SecretError :=
| TokenTooShort | TokenTooLong | TokenControlChar
| RoundsTooMany | RoundsTooFew | HashFailed
| PhcInvalid | PhcAlgorithm | PhcIncomplete | PhcParams | PhcOutputLength | PhcRounds
| DpapiUnsupported | DpapiFailed | KeyFileUnreadable | KeyFileUnwritable | KeyDirectory
| KeyNotUtf8.

#[global] Instance SecretError_eq_dec : EqDecision SecretError.
Proof. solve_decision. Defined.

Inductive DpapiScope := User | Machine.

(** The module [dpapi]: [protect] and [unprotect]. *)
Class DpapiLib := {
  dpapi_protect : string → DpapiScope → result SecretError string;
  dpapi_unprotect : string → result SecretError string
}.

Definition dpapi_unsupported : DpapiLib := {|
  dpapi_protect _ _ := Err DpapiUnsupported;
  dpapi_unprotect _ := Err DpapiUnsupported
|}.

(** ** Token verifiers *)

Definition MAX_PBKDF2_SHA256_ROUNDS : Z := 1000000.

Inductive TokenVerifier :=
| Sha256 (expected : string)
| Pbkdf2Sha256 (phc : string) (successful_fingerprint : option string).

(** [impl Debug for TokenVerifier]: nothing of the verifier is shown. *)
Definition TokenVerifier_fmt (_ : TokenVerifier) : string := "TokenVerifier([REDACTED])".

Definition line_breaks : list ascii := ["013"; "010"; "000"]%char.

Definition validate_token (token : string) : result SecretError unit :=
  guard! Str.len token <? 32 else TokenTooShort;
  guard! 4096 <? Str.len token else TokenTooLong;
  guard! Str.contains line_breaks token else TokenControlChar;
  Ok tt.

Section verifier.
Context `{CryptoLib}.

Definition token_fingerprint (token : string) : string := sha256 token.

Definition from_token (token : string) : TokenVerifier := Sha256 (token_fingerprint token).

Definition validate_pbkdf2_sha256 (phc : string) : result SecretError unit :=
  hash ← ok_or PhcInvalid (PasswordHash_new phc);
  guard! negb (bool_decide (ph_algorithm hash = "pbkdf2-sha256")) else PhcAlgorithm;
  guard! bool_decide (ph_salt hash = None) || bool_decide (ph_hash hash = None) else PhcIncomplete;
  params ← ok_or PhcParams (Params_try_from hash);
  guard! negb (params.2 =? RECOMMENDED_OUTPUT_LENGTH) else PhcOutputLength;
  guard! MAX_PBKDF2_SHA256_ROUNDS <? params.1 else PhcRounds;
  Ok tt.

Definition from_pbkdf2_sha256 (phc : string) : result SecretError TokenVerifier :=
  _ ← validate_pbkdf2_sha256 phc;
  Ok (Pbkdf2Sha256 phc None).

(** The guard of [verify] on the supplied token. *)
Definition malformed (token : string) : bool :=
  (4096 <? Str.len token) || Str.contains line_breaks token.

(** The closure of [spawn_blocking]. *)
Definition pbkdf2_check (phc token : string) : bool :=
  match PasswordHash_new phc with
  | Some parsed => verify_password token parsed
  | None => false
  end.

(** [verify] up to its suspension point: [Some b] answers at once, [None]
    starts the PBKDF2 computation. *)
Definition verify_begin (v : TokenVerifier) (token : string) : option bool :=
  if malformed token then Some false else
  let supplied := token_fingerprint token in
  match v with
  | Sha256 expected => Some (bool_decide (supplied = expected))
  | Pbkdf2Sha256 _ (Some expected) => Some (bool_decide (supplied = expected))
  | Pbkdf2Sha256 _ None => None
  end.

(** The rest of [verify], when the blocking computation has ended:
    [OnceLock::set] keeps a value that is already there. *)
Definition verify_finish (v : TokenVerifier) (token : string) : bool * TokenVerifier :=
  match v with
  | Sha256 _ => (false, v)
  | Pbkdf2Sha256 phc cache =>
      let verified := pbkdf2_check phc token in
      (verified,
       if verified then
         Pbkdf2Sha256 phc (Some (default (token_fingerprint token) cache))
       else v)
  end.

(** [TokenVerifier::verify] when no other request runs in between. *)
Definition verify (v : TokenVerifier) (token : string) : bool * TokenVerifier :=
  match verify_begin v token with
  | Some b => (b, v)
  | None => verify_finish v token
  end.

(** ** Generation and storage *)

Definition generate_pbkdf2_sha256 (token : string) (rounds : Z) (salt : string)
    : result SecretError string :=
  _ ← validate_token token;
  guard! MAX_PBKDF2_SHA256_ROUNDS <? rounds else RoundsTooMany;
  guard! rounds <? MIN_ROUNDS else RoundsTooFew;
  ok_or HashFailed (hash_password rounds token salt).

End verifier.

Section dpapi_files.
Context `{DpapiLib}.

(** The key file as a write or a read of the file system: [mkdir] and
    [write] say whether the call succeeds. *)
Definition protect_to_file (plaintext : string) (scope : DpapiScope)
    (mkdir : option bool) (write : bool) : result SecretError string :=
  guard! Str.len plaintext <? 32 else TokenTooShort;
  guard! 4096 <? Str.len plaintext else TokenTooLong;
  protected ← dpapi_protect plaintext scope;
  guard! bool_decide (mkdir = Some false) else KeyDirectory;
  guard! negb write else KeyFileUnwritable;
  Ok protected.

(** Two UUIDs in their 32-digit simple form, as one token. *)
Definition generate_and_protect (u1 u2 : string) (scope : DpapiScope)
    (mkdir : option bool) (write : bool) : result SecretError (string * string) :=
  let token := u1 +:+ u2 in
  file ← protect_to_file token scope mkdir write;
  Ok (token, file).

Definition unprotect_from_file (file : option string) : result SecretError string :=
  protected ← ok_or KeyFileUnreadable file;
  plaintext ← dpapi_unprotect protected;
  guard! negb (Utf8.valid plaintext) else KeyNotUtf8;
  _ ← validate_token plaintext;
  Ok plaintext.
End dpapi_files.

(** ** Interleaved verifications *)

Section interleaving.
Context `{CryptoLib}.

(** A verifier shared by the requests in flight: the tokens whose PBKDF2
    computation is running, and the answers given so far. *)
Record Auth := mkAuth {
  verifier : TokenVerifier;
  in_flight : list string;
  answers : list (string * bool)
}.

Inductive auth_step : Auth → Auth → Prop :=
| auth_answer v fl ans t b :
    verify_begin v t = Some b →
    auth_step (mkAuth v fl ans) (mkAuth v fl ((t, b) :: ans))
| auth_suspend v fl ans t :
    verify_begin v t = None →
    auth_step (mkAuth v fl ans) (mkAuth v (t :: fl) ans)
| auth_resume v fl1 fl2 ans t b v' :
    verify_finish v t = (b, v') →
    auth_step (mkAuth v (fl1 ++ t :: fl2) ans) (mkAuth v' (fl1 ++ fl2) ((t, b) :: ans)).

(** The abstract promise: a token is acceptable to the PHC hash [phc] when
    it is well formed and has the fingerprint of one that PBKDF2 verifies. *)
Definition acceptable (phc t : string) : Prop :=
  malformed t = false ∧
  ∃ t0, pbkdf2_check phc t0 = true ∧ token_fingerprint t = token_fingerprint t0.

Definition cache_ok (phc : string) (v : TokenVerifier) : Prop :=
  ∃ cache, v = Pbkdf2Sha256 phc cache ∧
    ∀ fp, cache = Some fp → ∃ t0, pbkdf2_check phc t0 = true ∧ fp = token_fingerprint t0.

Definition auth_inv (phc : string) (s : Auth) : Prop :=
  cache_ok phc (verifier s) ∧
  Forall (λ t, malformed t = false) (in_flight s) ∧
  Forall (λ a, a.2 = true → acceptable phc a.1) (answers s).

Lemma verify_begin_sound phc v t :
  cache_ok phc v → verify_begin v t = Some true → acceptable phc t.
Proof.
  intros (cache & -> & Hc). unfold verify_begin, acceptable.
  destruct (malformed t); [done|]. destruct cache as [fp|]; [|done].
  intros [= ?]. breflect. split; [done|]. destruct (Hc fp) as (t0 & ? & ->); eauto.
Qed.

Lemma verify_begin_suspends v t : verify_begin v t = None → malformed t = false.
Proof. unfold verify_begin. by destruct (malformed t). Qed.

Lemma verify_finish_sound phc v t b v' :
  cache_ok phc v → malformed t = false → verify_finish v t = (b, v') →
  cache_ok phc v' ∧ (b = true → acceptable phc t).
Proof.
  intros (cache & -> & Hc) Hm. simpl. intros [= <- <-].
  destruct (pbkdf2_check phc t) eqn:Hp; (split; [|by intros; unfold acceptable; eauto]);
    eexists; (split; [reflexivity|]); [|done].
  intros fp [= <-]. destruct cache; simpl; eauto.
Qed.

Lemma auth_step_inv phc s s' : auth_step s s' → auth_inv phc s → auth_inv phc s'.
Proof.
  intros Hs (Hc & Hf & Ha). destruct Hs as [v fl ans t b Hb|v fl ans t Hb|v fl1 fl2 ans t b v' Hb];
    simpl in *.
  - split_and!; simpl; [done..|]. constructor; [|done]. simpl. intros ->.
    by eapply verify_begin_sound.
  - split_and!; simpl; [done| |done]. constructor; [|done]. by eapply verify_begin_suspends.
  - apply Forall_app in Hf as [Hf1 Hf2]. apply Forall_cons in Hf2 as [Ht Hf2].
    destruct (verify_finish_sound _ _ _ _ _ Hc Ht Hb) as [Hc' Hacc].
    split_and!; simpl; [done| by apply Forall_app |]. by constructor.
Qed.

Lemma auth_steps_inv phc s s' : rtc auth_step s s' → auth_inv phc s → auth_inv phc s'.
Proof. induction 1; eauto using auth_step_inv. Qed.

(** The cache is write-once. *)
Definition cached (v : TokenVerifier) : option string :=
  match v with Sha256 _ => None | Pbkdf2Sha256 _ c => c end.

Lemma verify_finish_cached v t b v' fp :
  verify_finish v t = (b, v') → cached v = Some fp → cached v' = Some fp.
Proof.
  destruct v as [|phc cache]; simpl; [done|]. intros [= <- <-] ->.
  by case_match.
Qed.

Lemma auth_steps_cached s s' fp :
  rtc auth_step s s' → cached (verifier s) = Some fp → cached (verifier s') = Some fp.
Proof.
  induction 1 as [|s1 s2 s3 Hstep _ IH]; [done|]. intros Hc. apply IH.
  destruct Hstep; simpl in *; eauto using verify_finish_cached.
Qed.
End interleaving.

(** ** Properties *)

(** A library for the examples: the fingerprint is the token itself and a PHC
    string verifies exactly the token it spells. *)
Definition toy_crypto : CryptoLib := {|
  sha256 s := s;
  PasswordHash := string;
  PasswordHash_new s := if Str.is_empty s then None else Some s;
  ph_algorithm _ := "pbkdf2-sha256";
  ph_salt _ := Some "salt";
  ph_hash h := Some h;
  Params_try_from _ := Some (1000, 32);
  verify_password t h := bool_decide (t = h);
  hash_password _ t _ := Some t;
  MIN_ROUNDS := 1000;
  RECOMMENDED_ROUNDS := 600000;
  RECOMMENDED_OUTPUT_LENGTH := 32
|}.

Definition toy_dpapi : DpapiLib := {|
  dpapi_protect s _ := Ok (String "p" s);
  dpapi_unprotect s := match s with String _ s => Ok s | EmptyString => Err DpapiFailed end
|}.

Definition token32 : string := "0123456789abcdef0123456789abcdef".

(** Whatever requests are interleaved, the verifier loaded from a PHC hash
    accepts a token only if the token is well formed and has the SHA-256
    fingerprint of a token that PBKDF2 verifies against that hash. *)
Theorem verify_interleaved_sound `{CryptoLib} phc v s t :
  from_pbkdf2_sha256 phc = Ok v →
  rtc auth_step (mkAuth v [] []) s →
  (t, true) ∈ answers s →
  acceptable phc t.
Proof.
  intros Hv Hs Ht. unfold from_pbkdf2_sha256 in Hv. inv_ok.
  destruct (auth_steps_inv phc _ _ Hs) as (_ & _ & Ha).
  - split_and!; simpl; [|constructor..]. exists None. by split.
  - rewrite Forall_forall in Ha. by apply (Ha _ Ht).
Qed.

Lemma verify_interleaved_sound_witness :
  @acceptable toy_crypto token32 token32.
Proof.
  apply (@verify_interleaved_sound toy_crypto token32 (Pbkdf2Sha256 token32 None)
    (mkAuth (Pbkdf2Sha256 token32 (Some token32)) [] [(token32, true)]) token32).
  - vm_compute. reflexivity.
  - eapply rtc_l; [eapply (@auth_suspend toy_crypto _ _ _ token32); vm_compute; reflexivity|].
    eapply rtc_l; [|apply rtc_refl].
    eapply (@auth_resume toy_crypto (Pbkdf2Sha256 token32 None) [] [] [] token32 true).
    vm_compute. reflexivity.
  - simpl. left.
Defined.

(** Once a token [t] has been accepted, the verifier never runs PBKDF2
    again: in every later state it answers at once, and accepts exactly the
    well-formed tokens with the fingerprint of [t]. *)
Theorem verify_after_success `{CryptoLib} phc cache t v' s fl ans t' :
  verify (Pbkdf2Sha256 phc cache) t = (true, v') →
  rtc auth_step (mkAuth v' fl ans) s →
  verify_begin (verifier s) t' =
    Some (negb (malformed t') && bool_decide (token_fingerprint t' = token_fingerprint t)).
Proof.
  intros Hv Hs.
  assert (cached (verifier s) = Some (token_fingerprint t)) as Hc.
  { eapply auth_steps_cached; [done|]. simpl. unfold verify, verify_begin in Hv.
    destruct (malformed t); [done|]. destruct cache as [fp|]; simpl in Hv.
    - injection Hv as Hfp <-. breflect. by subst.
    - destruct (pbkdf2_check phc t); by simplify_eq/=. }
  unfold verify_begin. destruct (verifier s) as [|phc' c]; simpl in Hc; [done|subst].
  by destruct (malformed t').
Qed.

Lemma verify_after_success_witness :
  @verify_begin toy_crypto (Pbkdf2Sha256 token32 (Some token32)) "other" = Some false.
Proof.
  apply (@verify_after_success toy_crypto token32 None token32
    (Pbkdf2Sha256 token32 (Some token32))
    (mkAuth (Pbkdf2Sha256 token32 (Some token32)) [] []) [] [] "other").
  - vm_compute. reflexivity.
  - apply rtc_refl.
Defined.

(** A token that passes [validate_token] is accepted by the verifier made
    from it, and that verifier accepts no token with another SHA-256
    fingerprint. *)
Theorem from_token_verify `{CryptoLib} token :
  validate_token token = Ok tt →
  (verify (from_token token) token).1 = true ∧
  ∀ t', (verify (from_token token) t').1 = true → token_fingerprint t' = token_fingerprint token.
Proof.
  intros Hv. unfold validate_token in Hv. inv_ok. breflect. split.
  - unfold verify, verify_begin, malformed. simpl.
    replace (4096 <? Str.len token) with false by (symmetry; apply Z.ltb_ge; lia).
    rewrite Hx1. simpl. by apply bool_decide_eq_true.
  - intros t'. unfold verify, verify_begin. destruct (malformed t'); [done|].
    simpl. intros. by breflect.
Qed.

Lemma from_token_verify_witness : (@verify toy_crypto (@from_token toy_crypto token32) token32).1 = true.
Proof. apply (@from_token_verify toy_crypto token32). vm_compute. reflexivity. Defined.

(** The law of a working DPAPI: decryption inverts encryption, for texts of the
    size of a token. *)
Class DpapiLaws `{DpapiLib} : Prop :=
  dpapi_roundtrip : ∀ s scope p, Str.len s ≤ 4096 → dpapi_protect s scope = Ok p → dpapi_unprotect p = Ok s.

Lemma toy_dpapi_laws : @DpapiLaws toy_dpapi.
Proof. by intros s scope p _ [= <-]. Qed.

(** A valid UTF-8 token that [protect_to_file] has written is the token
    [unprotect_from_file] reads back. *)
Lemma protect_unprotect `{DpapiLaws} token scope mkdir write file :
  validate_token token = Ok tt → Utf8.valid token = true →
  protect_to_file token scope mkdir write = Ok file →
  unprotect_from_file (Some file) = Ok token.
Proof.
  intros Ht Hu Hp. unfold protect_to_file in Hp. inv_ok. breflect.
  unfold unprotect_from_file. simpl. erewrite dpapi_roundtrip by (done || lia). simpl.
  by rewrite Hu, Ht.
Qed.

Lemma protect_unprotect_witness :
  @unprotect_from_file toy_dpapi (Some (String "p" token32)) = Ok token32.
Proof.
  apply (@protect_unprotect toy_dpapi toy_dpapi_laws token32 User (Some true) true);
    vm_compute; reflexivity.
Defined.

(** [protect_to_file] checks the length of a token only: a token with a
    line break in the middle is written to the key file and every later
    [unprotect_from_file] of that file fails. *)
Theorem protect_accepts_unloadable `{DpapiLaws} scope file :
  protect_to_file (token32 +:+ String "010" "x") scope (Some true) true = Ok file →
  unprotect_from_file (Some file) = Err TokenControlChar.
Proof.
  intros Hp. unfold protect_to_file in Hp. inv_ok.
  match goal with Hd : dpapi_protect _ _ = Ok _ |- _ => apply dpapi_roundtrip in Hd; [|by vm_compute] end.
  unfold unprotect_from_file. simpl. by rewrite Hx1.
Qed.

Lemma protect_accepts_unloadable_witness :
  @unprotect_from_file toy_dpapi (Some (String "p" (token32 +:+ String "010" "x"))) = Err TokenControlChar.
Proof.
  apply (@protect_accepts_unloadable toy_dpapi toy_dpapi_laws User). vm_compute. reflexivity.
Defined.
