(* ===== verification/Dpapi.v ===== *)
(** * The Windows data protection binding (src/src/secret.rs, module [dpapi])

    The two calls of the data protection API hand their result back as a block
    of the local heap, which the binding copies and frees. The API is an
    interface on an abstract process state ([CryptApi]) with its documented
    behaviour as laws; the theorems show that the binding reads only what the
    API has allocated, leaves the heap as it found it, and implements the
    interface [DpapiLib] that [Secret] is written against, with its law. *)

From S2P Require Import Prelude RustStd Model Secret.
Local Open Scope string_scope.
Local Open Scope list_scope.
Local Open Scope Z_scope.

Definition CRYPTPROTECT_UI_FORBIDDEN : Z := 0x1.
Definition CRYPTPROTECT_LOCAL_MACHINE : Z := 0x4.

(** [CRYPT_INTEGER_BLOB] as an output: a length and an address. *)
Record Blob := mkBlob { cbData : Z; pbData : Z }.

Definition empty_blob : Blob := mkBlob 0 0.

(** [blob bytes] as an input: what the API reads, [cbData] bytes of them, and
    [cbData] is the length as a [u32]. *)
Definition blob (bytes : string) : string := Str.take (Z.to_nat (Str.len bytes mod 2 ^ 32)) bytes.

(** The calls take the input bytes, the flags and the output blob to fill; zero
    means failure. [heap] is the local heap by address. *)
Class CryptApi (K : Type) := {
  CryptProtectData : string → Z → Blob → K → Z * Blob * K;
  CryptUnprotectData : string → Z → Blob → K → Z * Blob * K;
  LocalFree : Z → K → K;
  last_os_error : K → string;
  heap : K → gmap Z string
}.

(** A call that succeeds with [c] in a fresh block, or fails and allocates
    nothing. *)
Definition allocates `{CryptApi K} (k : K) (ok : Z) (out : Blob) (k' : K) (c : string) : Prop :=
  heap k !! pbData out = None ∧ heap k' = <[pbData out := c]> (heap k) ∧ cbData out = Str.len c.

Class CryptLaws K `{CryptApi K} : Prop := {
  protect_fails s f b k ok out k' :
    CryptProtectData s f b k = (ok, out, k') → ok = 0 → heap k' = heap k;
  protect_succeeds s f b k ok out k' :
    CryptProtectData s f b k = (ok, out, k') → ok ≠ 0 → ∃ c, allocates k ok out k' c ∧
      (* for the same account, on the same machine *)
      ∀ b1 k1, ∃ ok1 out1 k1', CryptUnprotectData c CRYPTPROTECT_UI_FORBIDDEN b1 k1 = (ok1, out1, k1') ∧
        ok1 ≠ 0 ∧ allocates k1 ok1 out1 k1' s;
  protect_small s f b k ok out k' c :
    CryptProtectData s f b k = (ok, out, k') → ok ≠ 0 → Str.len s ≤ 4096 → allocates k ok out k' c →
    Str.len c < 2 ^ 32;
  unprotect_fails s f b k ok out k' :
    CryptUnprotectData s f b k = (ok, out, k') → ok = 0 → heap k' = heap k;
  unprotect_succeeds s f b k ok out k' :
    CryptUnprotectData s f b k = (ok, out, k') → ok ≠ 0 → ∃ c, allocates k ok out k' c;
  local_free p k : heap (LocalFree p k) = delete p (heap k)
}.

Section binding.
Context `{CryptApi K}.

(** [copy_and_free]; [None] when the slice is not inside an allocated block,
    which the language leaves undefined. *)
Definition copy_and_free (output : Blob) (k : K) : option string * K :=
  match heap k !! pbData output with
  | Some c =>
      if (0 <=? cbData output) && (cbData output <=? Str.len c)
      then (Some (Str.take (Z.to_nat (cbData output)) c), LocalFree (pbData output) k)
      else (None, k)
  | None => (None, k)
  end.

(** The flags of [protect]. *)
Definition protect_flags (scope : DpapiScope) : Z :=
  Z.lor CRYPTPROTECT_UI_FORBIDDEN (match scope with Machine => CRYPTPROTECT_LOCAL_MACHINE | User => 0 end).

(** The outcome is [None] when the behaviour is undefined. *)
Definition protect (plaintext : string) (scope : DpapiScope) (k : K) : option (result SecretError string) * K :=
  let '(success, output, k) := CryptProtectData (blob plaintext) (protect_flags scope) empty_blob k in
  if bool_decide (success = 0) then (Some (Err DpapiFailed), k)
  else let '(bytes, k) := copy_and_free output k in (Ok <$> bytes, k).

Definition unprotect (protected : string) (k : K) : option (result SecretError string) * K :=
  let '(success, output, k) := CryptUnprotectData (blob protected) CRYPTPROTECT_UI_FORBIDDEN empty_blob k in
  if bool_decide (success = 0) then (Some (Err DpapiFailed), k)
  else let '(bytes, k) := copy_and_free output k in (Ok <$> bytes, k).

(** The binding as the module [dpapi] of [Secret], in a given state. *)
Definition windows_dpapi (k : K) : DpapiLib := {|
  dpapi_protect s scope := default (Err DpapiFailed) (protect s scope k).1;
  dpapi_unprotect s := default (Err DpapiFailed) (unprotect s k).1
|}.
End binding.

Section facts.
Context {K : Type} `{CryptLaws K}.

Lemma blob_small s : Str.len s < 2 ^ 32 → blob s = s.
Proof.
  intros Hs. unfold blob. rewrite Z.mod_small by (unfold Str.len in *; lia).
  unfold Str.len. rewrite Nat2Z.id. by apply Str.take_all.
Qed.

Lemma copy_and_free_block k ok out k' c :
  allocates k ok out k' c →
  copy_and_free out k' = (Some c, LocalFree (pbData out) k') ∧ heap (LocalFree (pbData out) k') = heap k.
Proof.
  intros (Hn & Hh & Hl). unfold copy_and_free. rewrite Hh, lookup_insert_eq, Hl.
  rewrite (proj2 (Z.leb_le 0 (Str.len c))) by (unfold Str.len; lia). rewrite Z.leb_refl. simpl.
  unfold Str.len. rewrite Nat2Z.id, Str.take_all by done. split; [done|].
  by rewrite local_free, Hh, delete_insert_id.
Qed.

(** The binding is memory safe and leaks nothing: encryption and
    decryption always have a defined outcome, whatever the API answers, and the
    local heap is afterwards what it was before, on success and on failure. *)
Theorem dpapi_heap_balanced s scope k :
  (∃ r k', protect s scope k = (Some r, k') ∧ heap k' = heap k) ∧
  (∃ r k', unprotect s k = (Some r, k') ∧ heap k' = heap k).
Proof.
  split.
  - unfold protect. destruct (CryptProtectData _ _ _ k) as [[ok out] k1] eqn:Hp.
    case_bool_decide as Hz; [eauto using protect_fails|].
    destruct (protect_succeeds _ _ _ _ _ _ _ Hp Hz) as (c & Ha & _).
    apply copy_and_free_block in Ha as [-> Hh]. eauto.
  - unfold unprotect. destruct (CryptUnprotectData _ _ _ k) as [[ok out] k1] eqn:Hp.
    case_bool_decide as Hz; [eauto using unprotect_fails|].
    destruct (unprotect_succeeds _ _ _ _ _ _ _ Hp Hz) as (c & Ha).
    apply copy_and_free_block in Ha as [-> Hh]. eauto.
Qed.

(** What [protect] made, [unprotect] reads, in any later state. *)
Lemma unprotect_protect s scope k c k' k1 :
  Str.len s ≤ 4096 → protect s scope k = (Some (Ok c), k') → (unprotect c k1).1 = Some (Ok s).
Proof.
  intros Hlen. unfold protect. rewrite blob_small by lia.
  destruct (CryptProtectData _ _ _ k) as [[ok out] k2] eqn:Hp. case_bool_decide as Hz; [done|].
  destruct (protect_succeeds _ _ _ _ _ _ _ Hp Hz) as (c' & Ha & Hu).
  pose proof (protect_small _ _ _ _ _ _ _ _ Hp Hz Hlen Ha) as Hsmall.
  apply copy_and_free_block in Ha as [-> _]. intros [= -> _].
  unfold unprotect. rewrite blob_small by done.
  destruct (Hu empty_blob k1) as (ok1 & out1 & k1' & -> & Hz1 & Ha1).
  rewrite bool_decide_eq_false_2 by done. by apply copy_and_free_block in Ha1 as [-> _].
Qed.
(** The binding discharges the law [Secret] relies on. *)
#[global] Instance windows_dpapi_laws k : @DpapiLaws (windows_dpapi k).
Proof.
  intros s scope c Hs Hp. simpl in *. destruct (protect s scope k) as [[r|] k'] eqn:He; [|done].
  simpl in Hp. subst r. by rewrite (unprotect_protect s scope k c k' k).
Qed.

(** A key file survives a restart on Windows: a valid token written by
    [protect_to_file] through the binding is the token [unprotect_from_file]
    reads back through it. *)
Theorem windows_key_file_roundtrip token scope k mkdir write file :
  validate_token token = Ok tt → Utf8.valid token = true →
  @protect_to_file (windows_dpapi k) token scope mkdir write = Ok file →
  @unprotect_from_file (windows_dpapi k) (Some file) = Ok token.
Proof. apply protect_unprotect. Qed.
End facts.

(** ** A concrete API *)
Module DpapiToy.

(** Encryption prepends a letter; blocks are allocated at one address. *)
#[export] Instance api : CryptApi (gmap Z string) | 100 := {|
  CryptProtectData s _ b k :=
    if decide (k !! 8 = None) then (1, mkBlob (Str.len s + 1) 8, <[8 := String "p" s]> k) else (0, b, k);
  CryptUnprotectData s _ b k :=
    let fresh := fresh (dom k) in
    match s with
    | String _ s => (1, mkBlob (Str.len s) fresh, <[fresh := s]> k)
    | EmptyString => (0, b, k)
    end;
  LocalFree p k := delete p k;
  last_os_error _ := "The parameter is incorrect. (os error 87)";
  heap k := k
|}.

Lemma api_laws : CryptLaws (gmap Z string).
Proof.
  assert (∀ s (k : gmap Z string), allocates k 1 (mkBlob (Str.len s) (fresh (dom k))) (<[fresh (dom k) := s]> k) s) as Hal.
  { intros s k. split_and!; simpl; [|done|done]. apply not_elem_of_dom, is_fresh. }
  split; simpl.
  - intros s f b k ok out k'. case_decide; by intros [= <- <- <-].
  - intros s f b k ok out k'. case_decide as Hn; intros [= <- <- <-] Hok; [|done].
    exists (String "p" s). split; [split_and!; simpl; [done|done|]|].
    + unfold Str.len. simpl. lia.
    + intros b1 k1. eexists _, _, _. split; [done|]. split; [done|apply Hal].
  - intros s f b k ok out k' c. case_decide as Hn; intros [= <- <- <-] Hok Hs (_ & Hc & _); [|done].
    simpl in *. apply (f_equal (lookup 8)) in Hc. rewrite !lookup_insert_eq in Hc. injection Hc as <-.
    unfold Str.len in *. simpl. lia.
  - intros [|a s] f b k ok out k'; by intros [= <- <- <-].
  - intros [|a s] f b k ok out k'; intros [= <- <- <-] Hok; [done|]. exists s. apply Hal.
  - done.
Qed.
#[local] Existing Instance api_laws.

Lemma dpapi_heap_balanced_witness :
  (∃ r k', protect token32 User (∅ : gmap Z string) = (Some r, k') ∧ heap k' = heap (∅ : gmap Z string)) ∧
  (∃ r k', unprotect token32 (∅ : gmap Z string) = (Some r, k') ∧ heap k' = heap (∅ : gmap Z string)).
Proof. apply (dpapi_heap_balanced token32 User (∅ : gmap Z string)). Defined.

Lemma windows_key_file_roundtrip_witness :
  @unprotect_from_file (windows_dpapi (∅ : gmap Z string)) (Some (String "p" token32)) = Ok token32.
Proof.
  apply (windows_key_file_roundtrip token32 Machine (∅ : gmap Z string) (Some true) true);
    vm_compute; reflexivity.
Defined.

End DpapiToy.
