(* ===== verification/Config.v ===== *)
(** * Configuration (src/src/config.rs)

    The YAML schema with its defaults, the validation of every section, the
    resolution of a parsed configuration against the host, and the check of
    the request arguments of a route.

    The host (file system and environment), the [regex] crate, the [ipnet]
    crate and the YAML parser are interfaces; the file system is an abstract
    state because [resolve] creates the log directory. Paths and strings are
    the ones of [RustStd]; [windows] is the build target, which decides how a
    path is read and the default program of an executor. *)

From S2P Require Import Prelude RustStd Model Secret.
Import Net.
Local Open Scope string_scope.
Local Open Scope Z_scope.

(** ** Interfaces *)

Class RegexLib := {
  Regex : Type;
  Regex_new : string → option Regex;
  is_match : Regex → string → bool
}.

Class IpNetLib := {
  IpNet : Type;
  net_contains : IpNet → IpAddr → bool
}.

Class HostLib := {
  host : Type;
  canonicalize : host → string → option string;
  is_file : host → string → bool;
  is_dir : host → string → bool;
  create_dir_all : host → string → option host;
  env_var : host → string → option string;
  read_to_string : host → string → option string;
  read_bytes : host → string → option string
}.

(** ** Errors: one constructor per [bail!] or [context] *)

Inductive ConfigError :=
| ConfigUnreadable | YamlInvalid
| ListenersMixed | ListenersEmpty | ListenerDuplicate (host : IpAddr) (port : Z)
| CidrsEmpty | CooldownZero
| MaxTotalConcurrencyZero | ShutdownTimeoutZero | RetentionZero | MaxOutputZero | RoutesEmpty
| ServiceNameIllegal | NoParentDirectory
| TokenVariableIllegal | TokenVariableUnset | DpapiFileMissing | TokenError (e : SecretError)
| FileMissing (label : string) | NotAFile (label : string)
| LogDirectoryUncreatable | LogDirectoryUnreachable
| RoutePathShape (path : string) | RoutePathIllegal (path : string) | RoutePathReserved (path : string)
| RouteConcurrencyZero (path : string) | RouteTimeoutZero (path : string) | RouteGraceZero (path : string)
| RouteCmdArguments (path : string) | RouteArgumentLimitZero (path : string)
| FixedArgumentNul (path : string)
| LocalSystemAllowlist (path : string) | RouteDuplicate (path : string)
| ScriptMissing (path : string) | ScriptNotFile (path : string) | ScriptNoParent
| WorkingDirectoryMissing (path : string) | WorkingDirectoryNotDir (path : string)
| PatternInvalid (path pattern : string).

Inductive ArgsError :=
| ArgsDisabled (path : string) | ArgsTooMany (max : Z) | ArgNul | ArgTooLong (max : Z)
| ArgNotAllowed | ArgsTooLarge (max : Z).

(** The [Display] text of the errors of [validate_request_args]. *)
Definition ArgsError_to_string (e : ArgsError) : string :=
  match e with
  | ArgsDisabled path => "路由 " +:+ path +:+ " 不允许传递动态参数"
  | ArgsTooMany max => "动态参数数量超过限制 " +:+ pretty max
  | ArgNul => "动态参数不能包含 NUL 字符"
  | ArgTooLong max => "单个动态参数超过 " +:+ pretty max +:+ " 字节"
  | ArgNotAllowed => "动态参数不符合路由允许值或正则规则"
  | ArgsTooLarge max => "动态参数总大小超过 " +:+ pretty max +:+ " 字节"
  end.

(** ** Enumerations *)

Inductive Executor := Sh | Bash | Zsh | Pwsh | Powershell | Cmd.

#[global] Instance Executor_eq_dec : EqDecision Executor.
Proof. solve_decision. Defined.

(** [windows] is [cfg!(windows)]. *)
Definition default_program (windows : bool) (e : Executor) : string :=
  match e with
  | Sh => "sh"
  | Bash => "bash"
  | Zsh => "zsh"
  | Pwsh => "pwsh"
  | Powershell => if windows then "powershell.exe" else "powershell"
  | Cmd => "cmd.exe"
  end.

Definition launcher_args (e : Executor) : list string :=
  match e with
  | Pwsh | Powershell =>
      ["-NoLogo"; "-NoProfile"; "-NonInteractive"; "-ExecutionPolicy"; "Bypass"; "-File"]
  | Cmd => ["/D"; "/S"; "/C"]
  | Sh | Bash | Zsh => []
  end.

Inductive WindowsServiceAccount := LocalService | LocalSystem.

#[global] Instance WindowsServiceAccount_eq_dec : EqDecision WindowsServiceAccount.
Proof. solve_decision. Defined.

Definition account_name (a : WindowsServiceAccount) : option string :=
  match a with
  | LocalService => Some "NT AUTHORITY\LocalService"
  | LocalSystem => None
  end.

Inductive TokenSource :=
| Environment (variable : string)
| WindowsDpapi (file : string)
| Pbkdf2 (hash : string).

(** ** The schema *)

Record ListenerConfig := mkListener { l_host : IpAddr; l_port : Z }.

#[global] Instance ListenerConfig_eq_dec : EqDecision ListenerConfig.
Proof. solve_decision. Defined.
#[global] Instance ListenerConfig_countable : Countable ListenerConfig.
Proof.
  refine (inj_countable' (λ l, (l_host l, l_port l)) (λ '(h, p), mkListener h p) _). by intros [].
Defined.

Record ServerConfig := mkServerConfig {
  hosts : option (list IpAddr); port : option Z; listeners : list ListenerConfig
}.

Inductive OneOrManyHosts := One (h : IpAddr) | Many (hs : list IpAddr).

Definition deserialize_optional_hosts (v : OneOrManyHosts) : option (list IpAddr) :=
  Some (match v with One h => [h] | Many hs => hs end).

Record TokenFailureCooldownConfig := mkCooldown {
  enabled : bool; seconds : Z; max_tracked_ips : Z
}.

Record TlsConfig := mkTls {
  certificate : string; private_key : string; client_ca_certificate : string
}.

Record LoggingConfig := mkLogging {
  directory : string; retention_seconds : Z; max_output_bytes_per_task : Z
}.

Record ExecutionConfig := mkExecution {
  max_total_concurrency : Z; shutdown_timeout_seconds : Z
}.

Record WindowsServiceConfig := mkWindowsService {
  ws_name : string; display_name : string; ws_description : string; account : WindowsServiceAccount
}.

Record RequestArgsConfig := mkRequestArgs {
  ra_enabled : bool; max_count : Z; max_item_bytes : Z; max_total_bytes : Z;
  allowed_values : list string; allowed_patterns : list string
}.

Record RouteConfig := mkRouteConfig {
  rc_path : string;
  rc_executor : Executor;
  rc_program : option string;
  rc_script : string;
  rc_fixed_args : list string;
  rc_request_args : RequestArgsConfig;
  rc_working_directory : option string;
  rc_env : gmap string string;
  rc_max_concurrency : Z;
  rc_max_execution_seconds : Z;
  rc_graceful_shutdown_seconds : Z;
  rc_merge_stdout_stderr : bool;
  rc_output_encoding : OutputEncoding
}.

Section schema.
Context `{RegexLib, IpNetLib}.

Record AccessConfig := mkAccess {
  allowed_cidrs : list IpNet; token_failure_cooldown : TokenFailureCooldownConfig
}.

Record Config := mkConfig {
  c_server : ServerConfig;
  c_access : AccessConfig;
  c_tls : option TlsConfig;
  c_auth_token : TokenSource;
  c_logging : LoggingConfig;
  c_execution : ExecutionConfig;
  c_windows_service : WindowsServiceConfig;
  c_routes : list RouteConfig
}.

Record ResolvedRoute := mkResolvedRoute {
  path : string;
  executor : Executor;
  program : string;
  script : string;
  fixed_args : list string;
  request_args : RequestArgsConfig;
  request_arg_patterns : list Regex;
  working_directory : string;
  env : gmap string string;
  max_concurrency : Z;
  max_execution_seconds : Z;
  graceful_shutdown_seconds : Z;
  merge_stdout_stderr : bool;
  r_output_encoding : OutputEncoding
}.

Record ResolvedConfig := mkResolved {
  source_path : string;
  server_listeners : list ListenerConfig;
  access : AccessConfig;
  tls : option TlsConfig;
  auth_token : TokenVerifier;
  logging : LoggingConfig;
  execution : ExecutionConfig;
  windows_service : WindowsServiceConfig;
  routes : list ResolvedRoute
}.
End schema.

(** ** Defaults *)

Definition default_hosts : list IpAddr := [V4 2130706433].
Definition default_port : Z := 27415.
Definition default_retention_seconds : Z := 86400.
Definition default_max_output_bytes : Z := 100 * 1024 * 1024.
Definition default_max_total_concurrency : Z := 16.
Definition default_shutdown_timeout_seconds : Z := 30.
Definition default_max_arg_count : Z := 32.
Definition default_max_arg_bytes : Z := 4096.
Definition default_max_total_arg_bytes : Z := 16 * 1024.
Definition default_token_failure_cooldown_seconds : Z := 10.
Definition default_token_failure_max_tracked_ips : Z := 4096.
Definition default_service_name : string := "command-api".
Definition default_service_display_name : string := "Command API".
Definition default_service_description : string := "通过受控 HTTP API 异步执行预配置脚本".

Definition TokenFailureCooldownConfig_default : TokenFailureCooldownConfig :=
  mkCooldown false default_token_failure_cooldown_seconds default_token_failure_max_tracked_ips.
Definition ExecutionConfig_default : ExecutionConfig :=
  mkExecution default_max_total_concurrency default_shutdown_timeout_seconds.
Definition WindowsServiceConfig_default : WindowsServiceConfig :=
  mkWindowsService default_service_name default_service_display_name
    default_service_description LocalService.
Definition RequestArgsConfig_default : RequestArgsConfig :=
  mkRequestArgs false default_max_arg_count default_max_arg_bytes default_max_total_arg_bytes [] [].

(** ** Validation of the sections *)

(** The loop of [validate_listeners] over the set of listeners seen so far. *)
Fixpoint validate_unique (unique : gset ListenerConfig) (ls : list ListenerConfig)
    : result ConfigError unit :=
  match ls with
  | [] => Ok tt
  | l :: ls =>
      guard! bool_decide (l ∈ unique) else ListenerDuplicate (l_host l) (l_port l);
      validate_unique ({[l]} ∪ unique) ls
  end.

Definition validate_listeners (ls : list ListenerConfig) : result ConfigError unit :=
  guard! bool_decide (ls = []) else ListenersEmpty;
  validate_unique ∅ ls.

Definition resolve_server (server : ServerConfig) : result ConfigError (list ListenerConfig) :=
  ls ← (if bool_decide (listeners server = []) then
          let hs := default default_hosts (hosts server) in
          let p := default default_port (port server) in
          Ok ((λ h, mkListener h p) <$> hs)
        else
          guard! bool_decide (is_Some (hosts server)) || bool_decide (is_Some (port server))
            else ListenersMixed;
          Ok (listeners server));
  _ ← validate_listeners ls;
  Ok ls.

Definition validate_access `{IpNetLib} (a : AccessConfig) : result ConfigError unit :=
  guard! bool_decide (length (allowed_cidrs a) = 0%nat) else CidrsEmpty;
  guard! enabled (token_failure_cooldown a)
         && ((seconds (token_failure_cooldown a) =? 0)
             || (max_tracked_ips (token_failure_cooldown a) =? 0)) else CooldownZero;
  Ok tt.

Definition nul : list ascii := ["000"]%char.

Definition validate_args (route : string) (args : list string) : result ConfigError unit :=
  guard! existsb (Str.contains nul) args else FixedArgumentNul route;
  Ok tt.

Definition validate_service_name (name : string) : result ConfigError unit :=
  guard! Str.is_empty name || (128 <? Str.len name) || Str.contains ["/"; "\"]%char name
    else ServiceNameIllegal;
  Ok tt.

(** Paths are those of the build target. *)
Definition script_is_batch (windows : bool) (script : string) : bool :=
  match OsPath.extension windows script with
  | Some e => let e := Str.to_ascii_lowercase e in bool_decide (e = "bat") || bool_decide (e = "cmd")
  | None => false
  end.

Definition program_is_cmd (windows : bool) (program : option string) : bool :=
  match program ≫= OsPath.file_name windows with
  | Some n => Str.eq_ignore_ascii_case n "cmd" || Str.eq_ignore_ascii_case n "cmd.exe"
  | None => false
  end.

Example cmd_by_path :
  program_is_cmd true (Some "C:\Windows\System32\CMD.EXE") = true ∧
  program_is_cmd false (Some "C:\Windows\System32\CMD.EXE") = false ∧
  script_is_batch true "C:\jobs.d\run.Bat" = true ∧ script_is_batch true "jobs.bat\run" = false.
Proof. by split_and!. Qed.

Definition reserved_path (p : string) : bool :=
  bool_decide (p = "/") || bool_decide (p = "/healthz")
  || bool_decide (p = "/tasks") || Str.starts_with "/tasks/" p
  || bool_decide (p = "/system") || Str.starts_with "/system/" p.

Definition validate_route (windows : bool) (r : RouteConfig) : result ConfigError unit :=
  let p := rc_path r in
  let ra := rc_request_args r in
  guard! negb (Str.starts_with "/" p) || (Str.len p <? 2) || Str.ends_with_char "/" p
    else RoutePathShape p;
  guard! Str.contains ["?"; "#"]%char p || existsb (λ seg, bool_decide (seg = "..")) (Str.split "/" p)
    else RoutePathIllegal p;
  guard! reserved_path p else RoutePathReserved p;
  guard! rc_max_concurrency r =? 0 else RouteConcurrencyZero p;
  guard! rc_max_execution_seconds r =? 0 else RouteTimeoutZero p;
  guard! rc_graceful_shutdown_seconds r =? 0 else RouteGraceZero p;
  guard! ra_enabled ra
         && (bool_decide (rc_executor r = Cmd) || script_is_batch windows (rc_script r)
             || program_is_cmd windows (rc_program r)) else RouteCmdArguments p;
  guard! ra_enabled ra
         && ((max_count ra =? 0) || (max_item_bytes ra =? 0) || (max_total_bytes ra =? 0))
    else RouteArgumentLimitZero p;
  _ ← validate_args p (rc_fixed_args r);
  Ok tt.

(** ** Request arguments *)

Section request_args.
Context `{RegexLib}.

Definition has_allowlist (r : ResolvedRoute) : bool :=
  negb (bool_decide (allowed_values (request_args r) = []))
  || negb (bool_decide (length (request_arg_patterns r) = 0%nat)).

(** One iteration of the loop over the arguments; the value is the size to
    add to the total. *)
Definition check_arg (r : ResolvedRoute) (arg : string) : result ArgsError Z :=
  guard! Str.contains nul arg else ArgNul;
  let size := Str.len arg in
  guard! max_item_bytes (request_args r) <? size else ArgTooLong (max_item_bytes (request_args r));
  guard! has_allowlist r
         && negb (existsb (λ v, bool_decide (v = arg)) (allowed_values (request_args r)))
         && negb (existsb (λ p, is_match p arg) (request_arg_patterns r)) else ArgNotAllowed;
  Ok size.

Fixpoint check_args (r : ResolvedRoute) (args : list string) (total : Z) : result ArgsError Z :=
  match args with
  | [] => Ok total
  | arg :: args =>
      size ← check_arg r arg;
      check_args r args (saturating_add total size)
  end.

Definition validate_request_args (r : ResolvedRoute) (args : list string) : result ArgsError unit :=
  guard! negb (ra_enabled (request_args r)) && negb (bool_decide (args = []))
    else ArgsDisabled (path r);
  guard! max_count (request_args r) <? Z.of_nat (length args) else ArgsTooMany (max_count (request_args r));
  total ← check_args r args 0;
  guard! max_total_bytes (request_args r) <? total else ArgsTooLarge (max_total_bytes (request_args r));
  Ok tt.
End request_args.

(** ** Addresses and paths *)

Definition normalize_ip (ip : IpAddr) : IpAddr :=
  match ip with
  | V6 a => match to_ipv4_mapped a with Some b => V4 b | None => V6 a end
  | value => value
  end.

Definition absolute_from (windows : bool) (base value : string) : string :=
  if OsPath.is_absolute windows value then value else OsPath.join windows base value.

Definition absolute_if_path_like (windows : bool) (base value : string) : string :=
  if OsPath.is_absolute windows value || (1 <? Z.of_nat (OsPath.component_count windows value))
  then absolute_from windows base value else value.

(** ** Resolution against the host *)

Section resolution.
Context `{RegexLib, IpNetLib, HostLib, CryptoLib, DpapiLib}.
(** The build target: [cfg!(windows)]. *)
Context (windows : bool).

Definition canonical_file (h : host) (base value label : string) : result ConfigError string :=
  p ← ok_or (FileMissing label) (canonicalize h (absolute_from windows base value));
  guard! negb (is_file h p) else NotAFile label;
  Ok p.

Definition resolve_tls (h : host) (base : string) (t : option TlsConfig)
    : result ConfigError (option TlsConfig) :=
  match t with
  | None => Ok None
  | Some t =>
      cert ← canonical_file h base (certificate t) "TLS 服务器证书";
      key ← canonical_file h base (private_key t) "TLS 服务器私钥";
      ca ← canonical_file h base (client_ca_certificate t) "TLS 客户端 CA 证书";
      Ok (Some (mkTls cert key ca))
  end.

Definition resolve_token (h : host) (base : string) (source : TokenSource)
    : result ConfigError TokenVerifier :=
  match source with
  | Pbkdf2 hash => map_err TokenError (from_pbkdf2_sha256 hash)
  | _ =>
      token ← match source with
              | Environment variable =>
                  guard! Utf8.all_whitespace variable || Str.contains ["="; "000"]%char variable
                    else TokenVariableIllegal;
                  ok_or TokenVariableUnset (env_var h variable)
              | WindowsDpapi file =>
                  p ← ok_or DpapiFileMissing (canonicalize h (absolute_from windows base file));
                  map_err TokenError (unprotect_from_file (read_bytes h p))
              | Pbkdf2 _ => Err TokenVariableIllegal
              end;
      _ ← map_err TokenError (validate_token token);
      Ok (from_token token)
  end.

Definition compile_pattern (path pattern : string) : result ConfigError Regex :=
  ok_or (PatternInvalid path pattern) (Regex_new pattern).

(** The body of the loop over the routes, after the duplicate check. *)
Definition resolve_route (h : host) (base : string) (r : RouteConfig)
    : result ConfigError ResolvedRoute :=
  scr ← ok_or (ScriptMissing (rc_path r)) (canonicalize h (absolute_from windows base (rc_script r)));
  guard! negb (is_file h scr) else ScriptNotFile (rc_path r);
  dir ← match rc_working_directory r with
        | Some d => Ok (absolute_from windows base d)
        | None => ok_or ScriptNoParent (OsPath.parent windows scr)
        end;
  dir ← ok_or (WorkingDirectoryMissing (rc_path r)) (canonicalize h dir);
  guard! negb (is_dir h dir) else WorkingDirectoryNotDir (rc_path r);
  let prog := match rc_program r with
              | Some p => absolute_if_path_like windows base p
              | None => default_program windows (rc_executor r)
              end in
  patterns ← collect (compile_pattern (rc_path r)) (allowed_patterns (rc_request_args r));
  Ok (mkResolvedRoute (rc_path r) (rc_executor r) prog scr (rc_fixed_args r) (rc_request_args r)
        patterns dir (rc_env r) (rc_max_concurrency r) (rc_max_execution_seconds r)
        (rc_graceful_shutdown_seconds r) (rc_merge_stdout_stderr r) (rc_output_encoding r)).

Definition missing_allowlist (acc : WindowsServiceAccount) (r : RouteConfig) : bool :=
  bool_decide (acc = LocalSystem) && ra_enabled (rc_request_args r)
  && bool_decide (allowed_values (rc_request_args r) = [])
  && bool_decide (allowed_patterns (rc_request_args r) = []).

Fixpoint resolve_routes (h : host) (base : string) (acc : WindowsServiceAccount)
    (paths : gset string) (rs : list RouteConfig) : result ConfigError (list ResolvedRoute) :=
  match rs with
  | [] => Ok []
  | r :: rs =>
      _ ← validate_route windows r;
      guard! missing_allowlist acc r else LocalSystemAllowlist (rc_path r);
      guard! bool_decide (rc_path r ∈ paths) else RouteDuplicate (rc_path r);
      r' ← resolve_route h base r;
      rs' ← resolve_routes h base acc ({[rc_path r]} ∪ paths) rs;
      Ok (r' :: rs')
  end.

(** [resolve] up to the creation of the log directory. *)
Definition resolve_sections (h : host) (c : Config) (src : string)
    : result ConfigError (list ListenerConfig * string * TokenVerifier * option TlsConfig) :=
  server ← resolve_server (c_server c);
  _ ← validate_access (c_access c);
  guard! max_total_concurrency (c_execution c) =? 0 else MaxTotalConcurrencyZero;
  guard! shutdown_timeout_seconds (c_execution c) =? 0 else ShutdownTimeoutZero;
  guard! retention_seconds (c_logging c) =? 0 else RetentionZero;
  guard! max_output_bytes_per_task (c_logging c) =? 0 else MaxOutputZero;
  guard! bool_decide (length (c_routes c) = 0%nat) else RoutesEmpty;
  _ ← validate_service_name (ws_name (c_windows_service c));
  base ← ok_or NoParentDirectory (OsPath.parent windows src);
  auth ← resolve_token h base (c_auth_token c);
  t ← resolve_tls h base (c_tls c);
  Ok (server, base, auth, t).

(** [Config::resolve]: the result and the host after the log directory has
    been created. *)
Definition resolve (h : host) (c : Config) (src : string)
    : result ConfigError ResolvedConfig * host :=
  match resolve_sections h c src with
  | Err e => (Err e, h)
  | Ok (server, base, auth, t) =>
      let log := absolute_from windows base (directory (c_logging c)) in
      match create_dir_all h (OsPath.join windows log "tasks") with
      | None => (Err LogDirectoryUncreatable, h)
      | Some h =>
          (log ← ok_or LogDirectoryUnreachable (canonicalize h log);
           rs ← resolve_routes h base (account (c_windows_service c)) ∅ (c_routes c);
           Ok (mkResolved src server (c_access c) t auth
                 (mkLogging log (retention_seconds (c_logging c))
                    (max_output_bytes_per_task (c_logging c)))
                 (c_execution c) (c_windows_service c) rs), h)
      end
  end.

(** [Config::load]; [from_yaml] is [serde_yaml::from_str]. *)
Definition load (from_yaml : string → option Config) (h : host) (p : string)
    : result ConfigError ResolvedConfig * host :=
  match (src ← ok_or ConfigUnreadable (canonicalize h p);
         text ← ok_or ConfigUnreadable (read_to_string h src);
         c ← ok_or YamlInvalid (from_yaml text);
         Ok (c, src)) with
  | Err e => (Err e, h)
  | Ok (c, src) => resolve h c src
  end.
End resolution.

(** ** Listeners *)

Lemma validate_unique_Ok unique ls :
  validate_unique unique ls = Ok tt ↔ NoDup ls ∧ ∀ l, l ∈ ls → l ∉ unique.
Proof.
  revert unique. induction ls as [|l ls IH]; intros unique; simpl.
  - split; [|done]. intros _. split; [constructor|]. intros l Hl. by apply elem_of_nil in Hl.
  - rewrite bind_Ok. rewrite NoDup_cons. split.
    + intros ([] & Hb & Hv). inv_ok. breflect. apply IH in Hv as [Hnd Hu]. set_solver.
    + intros [[Hn Hnd] Hu]. exists tt. rewrite bail_when_Ok, bool_decide_eq_false, IH. set_solver.
Qed.

Lemma validate_listeners_Ok ls : validate_listeners ls = Ok tt ↔ ls ≠ [] ∧ NoDup ls.
Proof.
  unfold validate_listeners. rewrite bind_Ok. split.
  - intros ([] & Hb & Hv). inv_ok. breflect. apply validate_unique_Ok in Hv. naive_solver.
  - intros [Hne Hnd]. exists tt. rewrite bail_when_Ok, bool_decide_eq_false, validate_unique_Ok.
    set_solver.
Qed.

Lemma resolve_server_Ok server ls :
  resolve_server server = Ok ls →
  ls ≠ [] ∧ NoDup ls ∧
  (listeners server = [] ∧
     ls = (λ h, mkListener h (default default_port (port server)))
            <$> default default_hosts (hosts server)
   ∨ ls = listeners server ∧ hosts server = None ∧ port server = None).
Proof.
  unfold resolve_server. intros Hr. inv_ok. rename ls into ls'.
  apply validate_listeners_Ok in Hx0 as [Hne Hnd]. split_and!; [done..|].
  case_bool_decide as Hl; inv_ok; [by left|]. right. breflect.
  by rewrite !eq_None_not_Some.
Qed.

(** ** Request arguments: the declarative rule *)

Section args_spec.
Context `{RegexLib}.

(** What the route's [request_args] section promises of one argument. *)
Definition arg_allowed (r : ResolvedRoute) (arg : string) : Prop :=
  Str.contains nul arg = false ∧
  Str.len arg ≤ max_item_bytes (request_args r) ∧
  (allowed_values (request_args r) = [] ∧ request_arg_patterns r = []
   ∨ arg ∈ allowed_values (request_args r)
   ∨ Exists (λ p, is_match p arg = true) (request_arg_patterns r)).

Definition total_len (args : list string) : Z :=
  foldr (λ a n, Str.len a + n) 0 args.

Definition args_allowed (r : ResolvedRoute) (args : list string) : Prop :=
  (ra_enabled (request_args r) = true ∨ args = []) ∧
  Z.of_nat (length args) ≤ max_count (request_args r) ∧
  Forall (arg_allowed r) args ∧
  Z.min (total_len args) U64_MAX ≤ max_total_bytes (request_args r).

Lemma total_len_nonneg args : 0 ≤ total_len args.
Proof. induction args as [|a args IH]; simpl; [lia|]. pose proof (Str.len_nonneg a). lia. Qed.

Lemma existsb_eq_elem (v : string) l :
  existsb (λ x, bool_decide (x = v)) l = true ↔ v ∈ l.
Proof.
  rewrite existsb_exists. setoid_rewrite bool_decide_eq_true.
  setoid_rewrite <- list_elem_of_In. naive_solver.
Qed.

Lemma existsb_Exists {A} (f : A → bool) l : existsb f l = true ↔ Exists (λ x, f x = true) l.
Proof. rewrite existsb_exists, Exists_exists. by setoid_rewrite list_elem_of_In. Qed.

Lemma has_allowlist_false r :
  has_allowlist r = false ↔ allowed_values (request_args r) = [] ∧ request_arg_patterns r = [].
Proof.
  unfold has_allowlist. rewrite orb_false_iff, !negb_false_iff, !bool_decide_eq_true.
  by rewrite length_zero_iff_nil.
Qed.

Lemma check_arg_Ok r arg n : check_arg r arg = Ok n ↔ arg_allowed r arg ∧ n = Str.len arg.
Proof.
  unfold check_arg, arg_allowed.
  rewrite <- has_allowlist_false, <- existsb_eq_elem, <- existsb_Exists.
  destruct (Str.contains nul arg); simpl; [naive_solver|].
  destruct (Z.ltb_spec (max_item_bytes (request_args r)) (Str.len arg)); simpl;
    [split; [done | lia]|].
  destruct (has_allowlist r), (existsb _ (allowed_values _)), (existsb _ (request_arg_patterns _));
    simpl; naive_solver.
Qed.

Lemma check_args_Ok r args total n :
  0 ≤ total →
  check_args r args (Z.min total U64_MAX) = Ok n ↔
  Forall (arg_allowed r) args ∧ n = Z.min (total + total_len args) U64_MAX.
Proof.
  revert total. induction args as [|a args IH]; intros total Ht; simpl.
  - rewrite Z.add_0_r. split; [intros [= <-]; by split; [constructor|] | by intros [_ ->]].
  - pose proof (Str.len_nonneg a) as Ha. pose proof (total_len_nonneg args).
    rewrite bind_Ok, Forall_cons. setoid_rewrite check_arg_Ok. split.
    + intros (m & [Hal ->] & Hc). rewrite (saturating_add_assoc_min _ _ 0) in Hc by lia.
      apply IH in Hc as [? ->]; [|lia]. split; [done|]. f_equal. lia.
    + intros [[Hal Hf] ->]. eexists. split; [done|].
      rewrite (saturating_add_assoc_min _ _ 0) by lia. apply IH; [lia|]. split; [done|]. f_equal. lia.
Qed.

Lemma validate_request_args_Ok r args :
  validate_request_args r args = Ok tt ↔ args_allowed r args.
Proof.
  pose proof (check_args_Ok r args 0) as Hc. rewrite Z.min_l in Hc by (unfold U64_MAX; lia).
  unfold validate_request_args, args_allowed. split.
  - intros Hv. inv_ok. breflect.
    match goal with Hx : check_args _ _ _ = Ok _ |- _ => apply Hc in Hx as [Hf ->]; [|lia] end.
    split_and!; try done.
    match goal with Hx : (_ && _) = false |- _ => apply andb_false_iff in Hx as [?|?] end;
      breflect; auto.
  - intros (Hen & Hcnt & Hf & Htot).
    replace (negb _ && negb _) with false; [|destruct Hen as [->| ->]; [done|by rewrite andb_false_r]].
    rewrite bail_when_false, (proj2 (Z.ltb_ge _ _)), bail_when_false by done.
    rewrite (proj2 (Hc (Z.min (0 + total_len args) U64_MAX) (Z.le_refl 0))) by done. simpl.
    by rewrite (proj2 (Z.ltb_ge _ _)) by done.
Qed.

(** C11: [validate_request_args] accepts exactly the argument vectors the
    route's [request_args] section allows: arguments enabled, count, NUL,
    size and allow-list of each argument, and the total (which saturates at
    the machine limit). *)
Theorem validate_request_args_spec r args :
  validate_request_args r args = Ok tt ↔ args_allowed r args.
Proof. apply validate_request_args_Ok. Qed.
End args_spec.

(** ** The invariant of a resolved configuration *)

Section resolved.
Context `{RegexLib, IpNetLib, HostLib, CryptoLib, DpapiLib}.

Definition wf_route (h : host) (acc : WindowsServiceAccount) (r : ResolvedRoute) : Prop :=
  let ra := request_args r in
  (* the path *)
  Str.starts_with "/" (path r) = true ∧ 2 ≤ Str.len (path r) ∧
  Str.ends_with_char "/" (path r) = false ∧ Str.contains ["?"; "#"]%char (path r) = false ∧
  (".." ∉ Str.split "/" (path r)) ∧ reserved_path (path r) = false ∧
  (* the limits *)
  max_concurrency r ≠ 0 ∧ max_execution_seconds r ≠ 0 ∧ graceful_shutdown_seconds r ≠ 0 ∧
  (* dynamic arguments never reach a batch interpreter *)
  (ra_enabled ra = true → executor r ≠ Cmd ∧
     max_count ra ≠ 0 ∧ max_item_bytes ra ≠ 0 ∧ max_total_bytes ra ≠ 0) ∧
  (acc = LocalSystem → ra_enabled ra = true → has_allowlist r = true) ∧
  (* what is executed *)
  is_file h (script r) = true ∧ is_dir h (working_directory r) = true ∧
  Forall (λ a, Str.contains nul a = false) (fixed_args r) ∧
  Forall2 (λ p re, Regex_new p = Some re) (allowed_patterns ra) (request_arg_patterns r).

Definition wf_resolved (h : host) (c : ResolvedConfig) : Prop :=
  server_listeners c ≠ [] ∧ NoDup (server_listeners c) ∧
  allowed_cidrs (access c) ≠ [] ∧
  (enabled (token_failure_cooldown (access c)) = true →
     seconds (token_failure_cooldown (access c)) ≠ 0 ∧
     max_tracked_ips (token_failure_cooldown (access c)) ≠ 0) ∧
  max_total_concurrency (execution c) ≠ 0 ∧ shutdown_timeout_seconds (execution c) ≠ 0 ∧
  retention_seconds (logging c) ≠ 0 ∧ max_output_bytes_per_task (logging c) ≠ 0 ∧
  routes c ≠ [] ∧ NoDup (path <$> routes c) ∧
  Forall (wf_route h (account (windows_service c))) (routes c).

Lemma resolve_route_fields windows h base r r' :
  resolve_route windows h base r = Ok r' →
  path r' = rc_path r ∧ executor r' = rc_executor r ∧ request_args r' = rc_request_args r ∧
  fixed_args r' = rc_fixed_args r ∧
  max_concurrency r' = rc_max_concurrency r ∧
  max_execution_seconds r' = rc_max_execution_seconds r ∧
  graceful_shutdown_seconds r' = rc_graceful_shutdown_seconds r ∧
  is_file h (script r') = true ∧ is_dir h (working_directory r') = true ∧
  Forall2 (λ p re, Regex_new p = Some re)
    (allowed_patterns (rc_request_args r)) (request_arg_patterns r').
Proof.
  unfold resolve_route. intros Hr. inv_ok. simpl. breflect. split_and!; try done.
  match goal with Hc : collect _ _ = Ok _ |- _ => apply collect_Ok in Hc; eapply Forall2_impl; [exact Hc|] end.
  intros p re Hp. unfold compile_pattern in Hp. by inv_ok.
Qed.

Lemma validate_route_path windows r :
  validate_route windows r = Ok tt →
  Str.starts_with "/" (rc_path r) = true ∧ 2 ≤ Str.len (rc_path r) ∧
  Str.ends_with_char "/" (rc_path r) = false ∧
  Str.contains ["?"; "#"]%char (rc_path r) = false ∧
  (".." ∉ Str.split "/" (rc_path r)) ∧ reserved_path (rc_path r) = false.
Proof.
  unfold validate_route. intros Hv. inv_ok. breflect. split_and!; try done.
  rewrite <- existsb_eq_elem. congruence.
Qed.

Lemma validate_route_limits windows r :
  validate_route windows r = Ok tt →
  rc_max_concurrency r ≠ 0 ∧ rc_max_execution_seconds r ≠ 0 ∧
  rc_graceful_shutdown_seconds r ≠ 0 ∧
  (ra_enabled (rc_request_args r) = true → rc_executor r ≠ Cmd ∧
     max_count (rc_request_args r) ≠ 0 ∧ max_item_bytes (rc_request_args r) ≠ 0 ∧
     max_total_bytes (rc_request_args r) ≠ 0) ∧
  Forall (λ a, Str.contains nul a = false) (rc_fixed_args r).
Proof.
  unfold validate_route, validate_args. intros Hv. inv_ok. breflect. split_and!; try done.
  - intros Hen. rewrite Hen in *. simpl in *. by breflect.
  - match goal with He : existsb _ _ = false |- _ => rename He into Hn end.
    apply Forall_forall. intros a Ha. apply not_true_iff_false. intros Hc.
    apply not_true_iff_false in Hn. apply Hn. apply existsb_Exists, Exists_exists. eauto.
Qed.

Lemma missing_allowlist_false acc h windows base r r' :
  missing_allowlist acc r = false → resolve_route windows h base r = Ok r' →
  acc = LocalSystem → ra_enabled (request_args r') = true → has_allowlist r' = true.
Proof.
  intros Hm Hr -> Hen.
  destruct (resolve_route_fields _ _ _ _ _ Hr) as (_ & _ & Hra & _ & _ & _ & _ & _ & _ & Hp).
  rewrite Hra in Hen. apply not_false_iff_true. intros Hf.
  apply has_allowlist_false in Hf as [Hv Hpat]. rewrite Hra in Hv. rewrite Hpat in Hp.
  apply Forall2_nil_inv_r in Hp. unfold missing_allowlist in Hm.
  rewrite Hen, Hv, Hp in Hm. done.
Qed.

Lemma resolve_route_wf acc windows h base r r' :
  validate_route windows r = Ok tt → missing_allowlist acc r = false →
  resolve_route windows h base r = Ok r' → wf_route h acc r'.
Proof.
  intros Hv Hm Hr.
  pose proof (missing_allowlist_false _ _ _ _ _ _ Hm Hr) as Hal.
  apply validate_route_path in Hv as Hp. apply validate_route_limits in Hv.
  destruct (resolve_route_fields _ _ _ _ _ Hr) as (E1 & E2 & E3 & E4 & E5 & E6 & E7 & ?).
  unfold wf_route. rewrite E3 in *. rewrite E1, E2, E4, E5, E6, E7. intuition auto.
Qed.

Lemma resolve_routes_wf windows h base acc paths rs rs' :
  resolve_routes windows h base acc paths rs = Ok rs' →
  length rs' = length rs ∧ NoDup (path <$> rs') ∧
  (∀ p, p ∈ path <$> rs' → p ∉ paths) ∧ Forall (wf_route h acc) rs'.
Proof.
  revert paths rs'. induction rs as [|r rs IH]; intros paths rs'; simpl.
  - intros [= <-]. split_and!; [done|constructor|set_solver|constructor].
  - intros Hr. inv_ok. breflect.
    match goal with Hs : resolve_routes _ _ _ _ _ _ = Ok _ |- _ =>
      apply IH in Hs as (Hlen & Hnd & Hni & Hwf) end.
    match goal with Hs : resolve_route _ _ _ _ = Ok _ |- _ =>
      pose proof (resolve_route_fields _ _ _ _ _ Hs) as [Hpath _];
      eapply resolve_route_wf in Hs; [|done..] end.
    rewrite fmap_cons, Hpath. split_and!.
    + simpl. by rewrite Hlen.
    + apply NoDup_cons. split; [|done]. intros Hin. apply Hni in Hin. set_solver.
    + intros p Hp. apply elem_of_cons in Hp as [->|Hp]; [done|]. apply Hni in Hp. set_solver.
    + by constructor.
Qed.

(** C14: a configuration [resolve] accepts satisfies every promise of the
    documentation: unique non-empty listeners and routes, at least one CIDR,
    non-zero limits, route paths that are well formed and disjoint from the
    system endpoints, no dynamic arguments for [cmd], an allow-list for
    every LocalSystem route with dynamic arguments, existing scripts and
    working directories, compiled patterns. *)
Theorem resolve_wf windows h c src rc h' :
  resolve windows h c src = (Ok rc, h') → wf_resolved h' rc.
Proof.
  unfold resolve. destruct (resolve_sections windows h c src) as [[[[server base] auth] t]|e] eqn:Hs; [|done].
  destruct (create_dir_all h _) as [h1|]; [|done]. intros [= Hr <-].
  unfold resolve_sections, validate_access in Hs. inv_ok. breflect.
  match goal with Hs : resolve_routes _ _ _ _ _ _ = Ok _ |- _ =>
    apply resolve_routes_wf in Hs as (Hlen & Hnd & _ & Hwf) end.
  match goal with Hs : resolve_server _ = Ok _ |- _ =>
    apply resolve_server_Ok in Hs as (Hne & Hndl & _) end.
  assert (∀ A (l : list A), length l ≠ 0%nat → l ≠ []) as Hnil by (intros A [|] ?; done).
  unfold wf_resolved. simpl. split_and!; try done; try (apply Hnil; congruence).
  intros Hen. rewrite Hen in *. simpl in *. by breflect.
Qed.
End resolved.

(** ** Server forms, addresses and programs *)

(** The legacy [hosts] + [port] form is the [listeners] form with that port
    on every host, duplicates rejected alike; and mixing the two forms is an
    error. *)
Theorem resolve_server_forms hs p h0 :
  resolve_server (mkServerConfig (Some (h0 :: hs)) (Some p) [])
    = resolve_server (mkServerConfig None None ((λ h, mkListener h p) <$> (h0 :: hs))) ∧
  (∀ ho po l ls, ho ≠ None ∨ po ≠ None →
     resolve_server (mkServerConfig ho po (l :: ls)) = Err ListenersMixed).
Proof.
  split; [done|]. intros ho po l ls Hm. unfold resolve_server. simpl.
  replace (bool_decide (is_Some ho) || bool_decide (is_Some po)) with true; [done|].
  symmetry. rewrite orb_true_iff, !bool_decide_eq_true, <- !not_eq_None_Some. done.
Qed.

(** An accepted [server] section yields listeners that are non-empty and
    pairwise distinct, whichever of the three forms it uses. *)
Theorem resolve_server_unique server ls :
  resolve_server server = Ok ls → ls ≠ [] ∧ NoDup ls.
Proof. intros Hr. apply resolve_server_Ok in Hr. tauto. Qed.

Lemma resolve_server_unique_witness :
  [mkListener (V4 2130706433) 27415] ≠ [] ∧ NoDup [mkListener (V4 2130706433) 27415].
Proof. apply (resolve_server_unique (mkServerConfig None None [])). vm_compute. reflexivity. Defined.

(** After [normalize_ip] a peer is the IPv4 address [a] exactly when it
    connected from [a] or from the IPv4-mapped IPv6 form of [a], so the CIDR
    list and the cooldown table see one address for both; and normalizing
    twice changes nothing. *)
Theorem normalize_ip_spec ip a :
  0 ≤ a < 2 ^ 32 →
  (normalize_ip ip = V4 a ↔ ip = V4 a ∨ ip = V6 (65535 * 2 ^ 32 + a)) ∧
  normalize_ip (normalize_ip ip) = normalize_ip ip.
Proof.
  intros Ha. destruct ip as [b|b]; cbn [normalize_ip].
  - split; [|done]. split; [by left|]. by intros [?|?].
  - pose proof (to_ipv4_mapped_spec b a Ha) as Hm.
    destruct (to_ipv4_mapped b) as [c|] eqn:Hc; cbn [normalize_ip].
    + split; [|done]. split.
      * intros Hca. right. f_equal. apply Hm. congruence.
      * intros [Hca|Hca]; [congruence|]. injection Hca as Hb. apply Hm in Hb. congruence.
    + rewrite Hc. split; [|done]. split; [congruence|].
      intros [Hca|Hca]; [congruence|]. injection Hca as Hb. apply Hm in Hb. congruence.
Qed.

Lemma normalize_ip_spec_witness : normalize_ip (V6 (65535 * 2 ^ 32 + 176423169)) = V4 176423169.
Proof.
  refine (proj2 (proj1 (normalize_ip_spec (V6 (65535 * 2 ^ 32 + 176423169)) 176423169 _)) (or_intror eq_refl)).
  lia.
Defined.

Lemma join_absolute base value :
  Path.is_absolute base = true → Path.is_absolute (Path.join base value) = true.
Proof.
  unfold Path.join, Path.is_absolute. intros Hb.
  destruct (Str.starts_with "/" value) eqn:Hv; [done|].
  apply Str.starts_with_spec in Hb as [t ->].
  case_match; apply Str.starts_with_spec; rewrite ?Str.app_assoc; eauto.
Qed.

(** On Unix, relative to an absolute configuration directory, a configured
    interpreter is either an absolute path or a bare name of at most one
    component, which is looked up in [PATH]; it is never resolved against the
    working directory of the service. *)
Theorem program_absolute_or_bare base value :
  Path.is_absolute base = true →
  Path.is_absolute (absolute_if_path_like false base value) = true ∨
  absolute_if_path_like false base value = value ∧ (length (Path.components value) ≤ 1)%nat.
Proof.
  intros Hb. unfold absolute_if_path_like, absolute_from, OsPath.is_absolute, OsPath.component_count, OsPath.join.
  destruct (Path.is_absolute value) eqn:Hv; simpl; [by left|].
  destruct (Z.ltb_spec 1 (Z.of_nat (length (Path.components value)))).
  - left. by apply join_absolute.
  - right. split; [done|lia].
Qed.

Lemma program_absolute_or_bare_witness :
  Path.is_absolute (absolute_if_path_like false "/etc/command-api" "bin/pwsh") = true ∨
  absolute_if_path_like false "/etc/command-api" "bin/pwsh" = "bin/pwsh" ∧
  (length (Path.components "bin/pwsh") ≤ 1)%nat.
Proof. apply program_absolute_or_bare. vm_compute. reflexivity. Defined.

(** ** A concrete host *)

Module Toy.

Definition regex : RegexLib := {|
  Regex := string;
  Regex_new s := if Str.is_empty s then None else Some s;
  is_match p s := Str.starts_with p s
|}.

(** An IPv4 network of the given prefix length. *)
Definition ipnet : IpNetLib := {|
  IpNet := Z * Z;
  net_contains n ip := match ip with
                       | V4 a => Z.shiftr a (32 - n.2) =? Z.shiftr n.1 (32 - n.2)
                       | V6 _ => false
                       end
|}.

(** Files and directories by absolute path. *)
Definition hostlib : HostLib := {|
  host := gset string * gset string;
  canonicalize h p := if bool_decide (p ∈ h.1 ∨ p ∈ h.2) then Some p else None;
  is_file h p := bool_decide (p ∈ h.1);
  is_dir h p := bool_decide (p ∈ h.2);
  create_dir_all h p := Some (h.1, {[p]} ∪ h.2);
  env_var _ v := if bool_decide (v = "COMMAND_API_TOKEN") then Some token32 else None;
  read_to_string _ _ := None;
  read_bytes _ _ := None
|}.

#[local] Existing Instances regex ipnet hostlib toy_crypto toy_dpapi.

Definition fs : host := ({["/etc/run.sh"]}, {["/etc"; "/etc/logs"]}).

Definition request_args : RequestArgsConfig :=
  mkRequestArgs true 2 8 12 ["status"] ["node-"].

Definition route : RouteConfig :=
  mkRouteConfig "/commands/run" Bash None "run.sh" ["--fixed"] request_args None ∅ 1 10 1 false Utf8.

Definition config : Config :=
  mkConfig (mkServerConfig None None []) (mkAccess [(2130706432, 8)] TokenFailureCooldownConfig_default)
    None (Environment "COMMAND_API_TOKEN") (mkLogging "logs" 86400 1048576)
    ExecutionConfig_default WindowsServiceConfig_default [route].

Definition resolved_route : ResolvedRoute :=
  mkResolvedRoute "/commands/run" Bash "bash" "/etc/run.sh" ["--fixed"] request_args ["node-"] "/etc" ∅
    1 10 1 false Utf8.

Definition resolved : ResolvedConfig :=
  mkResolved "/etc/config.yaml" [mkListener (V4 2130706433) 27415]
    (mkAccess [(2130706432, 8)] TokenFailureCooldownConfig_default) None (from_token token32)
    (mkLogging "/etc/logs" 86400 1048576) ExecutionConfig_default WindowsServiceConfig_default
    [resolved_route].

Lemma resolve_wf_witness : wf_resolved (fs.1, {["/etc/logs/tasks"]} ∪ fs.2) resolved.
Proof. apply (resolve_wf false fs config "/etc/config.yaml"). vm_compute. reflexivity. Defined.

Example args_accepted : validate_request_args resolved_route ["status"; "node-1"] = Ok tt.
Proof. vm_compute. reflexivity. Qed.
Example args_refused : validate_request_args resolved_route ["; rm -rf"] = Err ArgNotAllowed.
Proof. vm_compute. reflexivity. Qed.

End Toy.
