(* ===== verification/Accept.v ===== *)
(** * Which configurations are accepted (src/src/config.rs [Config::resolve])

    [Config.resolve_wf] says what an accepted configuration promises. Here is
    the other half: a declarative reading of the rules ([valid_config]) and the
    proof that [resolve] accepts exactly the configurations that satisfy it;
    no rule is checked that is not stated, and none is stated that is not
    checked. *)

From S2P Require Import Prelude RustStd Model Secret Config.
Local Open Scope string_scope.
Local Open Scope list_scope.
Local Open Scope Z_scope.

(** ** Acceptance *)

Lemma is_ok_spec {E A} (r : result E A) : is_ok r = true ↔ ∃ a, r = Ok a.
Proof. destruct r; naive_solver. Qed.

Lemma is_ok_bind {E A B} (m : result E A) (f : A → result E B) :
  is_ok (m ≫= f) = true ↔ ∃ a, m = Ok a ∧ is_ok (f a) = true.
Proof. destruct m; simpl; naive_solver. Qed.

Lemma is_ok_guard {E B} b (e : E) (k : result E B) :
  is_ok (guard! b else e; k) = true ↔ b = false ∧ is_ok k = true.
Proof. rewrite is_ok_bind. setoid_rewrite bail_when_Ok. split; [naive_solver|]. intros [-> Hk]. by exists tt. Qed.

Lemma is_ok_seq {E A B} (m : result E A) (k : result E B) :
  is_ok (_ ← m; k) = true ↔ is_ok m = true ∧ is_ok k = true.
Proof. rewrite is_ok_bind, (is_ok_spec m). split; [intros (a & ? & ?); eauto|intros [[a ?] ?]; eauto]. Qed.

Lemma is_ok_bind2 {E A B C} (m : result E A) (k : result E B) (f : A → B → C) :
  is_ok (a ← m; b ← k; Ok (f a b)) = true ↔ is_ok m = true ∧ is_ok k = true.
Proof. destruct m, k; simpl; tauto. Qed.

Lemma is_ok_map_err {E F A} (f : E → F) (m : result E A) : is_ok (map_err f m) = is_ok m.
Proof. by destruct m. Qed.

Lemma is_ok_collect {E A B} (f : A → result E B) l :
  is_ok (collect f l) = true ↔ Forall (λ a, is_ok (f a) = true) l.
Proof.
  rewrite is_ok_spec. setoid_rewrite collect_Ok. split.
  - intros [bs Hf]. apply Forall_forall. intros a Ha. apply is_ok_spec. apply list_elem_of_lookup_1 in Ha as [i Hi].
    destruct (Forall2_lookup_l _ _ _ _ _ Hf Hi) as (b & _ & ?). eauto.
  - induction 1 as [|a l [b Hb]%is_ok_spec _ [bs IH]]; [by exists []|]. exists (b :: bs). by constructor.
Qed.

Lemma forall_nonzero_guard a b c :
  (a =? 0) || (b =? 0) || (c =? 0) = false ↔ a ≠ 0 ∧ b ≠ 0 ∧ c ≠ 0.
Proof. rewrite !orb_false_iff, !Z.eqb_neq. tauto. Qed.

(** ** The rules *)

Definition valid_path (p : string) : Prop :=
  Str.starts_with "/" p = true ∧ 2 ≤ Str.len p ∧ Str.ends_with_char "/" p = false ∧
  Str.contains ["?"; "#"]%char p = false ∧ (".." ∉ Str.split "/" p) ∧ reserved_path p = false.

(** Arguments of a request may never reach a batch interpreter. *)
Definition valid_request_args (windows : bool) (r : RouteConfig) : Prop :=
  ra_enabled (rc_request_args r) = true →
  rc_executor r ≠ Cmd ∧ script_is_batch windows (rc_script r) = false ∧ program_is_cmd windows (rc_program r) = false ∧
  max_count (rc_request_args r) ≠ 0 ∧ max_item_bytes (rc_request_args r) ≠ 0 ∧ max_total_bytes (rc_request_args r) ≠ 0.

Definition valid_route (windows : bool) (r : RouteConfig) : Prop :=
  valid_path (rc_path r) ∧
  rc_max_concurrency r ≠ 0 ∧ rc_max_execution_seconds r ≠ 0 ∧ rc_graceful_shutdown_seconds r ≠ 0 ∧
  valid_request_args windows r ∧ Forall (λ a, Str.contains nul a = false) (rc_fixed_args r).

Lemma existsb_false_Forall {A} (f : A → bool) l : existsb f l = false ↔ Forall (λ a, f a = false) l.
Proof. induction l as [|a l IH]; simpl; rewrite ?orb_false_iff, ?Forall_cons, ?IH; naive_solver. Qed.

Lemma validate_route_Ok windows r : is_ok (validate_route windows r) = true ↔ valid_route windows r.
Proof.
  unfold validate_route, validate_args, valid_route, valid_path, valid_request_args. cbv zeta.
  rewrite !is_ok_guard, is_ok_seq, !is_ok_guard, !orb_false_iff, !andb_false_iff, !orb_false_iff.
  rewrite negb_false_iff, !Z.eqb_neq, Z.ltb_ge, (existsb_false_Forall (Str.contains nul)), bool_decide_eq_false.
  rewrite <- (not_true_iff_false (existsb _ (Str.split _ _))), existsb_eq_elem.
  destruct (ra_enabled (rc_request_args r)); naive_solver.
Qed.

(** An account of the system needs an allow-list for requests' arguments. *)
Definition valid_allowlist (acc : WindowsServiceAccount) (r : RouteConfig) : Prop :=
  acc = LocalSystem → ra_enabled (rc_request_args r) = true →
  allowed_values (rc_request_args r) ≠ [] ∨ allowed_patterns (rc_request_args r) ≠ [].

Lemma missing_allowlist_spec acc r : missing_allowlist acc r = false ↔ valid_allowlist acc r.
Proof.
  unfold missing_allowlist, valid_allowlist. rewrite !andb_false_iff, !bool_decide_eq_false.
  destruct acc, (ra_enabled (rc_request_args r)); naive_solver.
Qed.

(** The listeners a [server] section stands for. *)
Definition effective (s : ServerConfig) : list ListenerConfig :=
  if bool_decide (listeners s = []) then
    (λ h, mkListener h (default default_port (port s))) <$> default default_hosts (hosts s)
  else listeners s.

Definition valid_server (s : ServerConfig) : Prop :=
  (listeners s = [] ∨ hosts s = None ∧ port s = None) ∧ effective s ≠ [] ∧ NoDup (effective s).

Lemma resolve_server_accepts s : is_ok (resolve_server s) = true ↔ valid_server s.
Proof.
  unfold resolve_server, valid_server, effective. rewrite is_ok_bind. setoid_rewrite is_ok_seq.
  assert (∀ l, is_ok (validate_listeners l) = true ↔ l ≠ [] ∧ NoDup l) as Hv.
  { intros l. rewrite <- validate_listeners_Ok, is_ok_spec. split; [by intros [[] ?]|eauto]. }
  setoid_rewrite Hv. case_bool_decide as Hl.
  - split; [intros (ls & [= <-] & [? ?] & _); auto|]. intros (_ & ? & ?). eauto.
  - split.
    + intros (ls & Hb & [? ?] & _). inv_ok. breflect. rewrite !eq_None_not_Some. auto.
    + intros ([?|[-> ->]] & ? & ?); [done|]. exists (listeners s). by split.
Qed.

Section accept.
Context `{RegexLib, IpNetLib, HostLib, CryptoLib, DpapiLib}.
(** The build target, whose rules paths follow. *)
Context (windows : bool).

Definition valid_access (a : AccessConfig) : Prop :=
  allowed_cidrs a ≠ [] ∧
  (enabled (token_failure_cooldown a) = true →
   seconds (token_failure_cooldown a) ≠ 0 ∧ max_tracked_ips (token_failure_cooldown a) ≠ 0).

Lemma validate_access_Ok a : is_ok (validate_access a) = true ↔ valid_access a.
Proof.
  unfold validate_access, valid_access.
  rewrite !is_ok_guard, bool_decide_eq_false, length_zero_iff_nil, andb_false_iff, orb_false_iff, !Z.eqb_neq.
  destruct (enabled _); naive_solver.
Qed.

Definition regular_file (h : host) (base value : string) : Prop :=
  ∃ p, canonicalize h (absolute_from windows base value) = Some p ∧ is_file h p = true.

Lemma canonical_file_Ok h base value what : is_ok (canonical_file windows h base value what) = true ↔ regular_file h base value.
Proof.
  unfold canonical_file, regular_file. rewrite is_ok_bind. setoid_rewrite ok_or_Ok. setoid_rewrite is_ok_guard.
  setoid_rewrite negb_false_iff. naive_solver.
Qed.

Definition valid_tls (h : host) (base : string) (t : TlsConfig) : Prop :=
  regular_file h base (certificate t) ∧ regular_file h base (private_key t) ∧ regular_file h base (client_ca_certificate t).

Lemma resolve_tls_Ok h base t :
  is_ok (resolve_tls windows h base t) = true ↔ (∀ t', t = Some t' → valid_tls h base t').
Proof.
  destruct t as [t|]; simpl; [|naive_solver].
  transitivity (valid_tls h base t); [|split; [by intros ? ? [= <-]|by intros Ht; apply Ht]]. unfold valid_tls.
  rewrite <- (canonical_file_Ok _ _ (certificate t) "TLS 服务器证书"), <- (canonical_file_Ok _ _ (private_key t) "TLS 服务器私钥"),
    <- (canonical_file_Ok _ _ (client_ca_certificate t) "TLS 客户端 CA 证书").
  rewrite !is_ok_spec. split.
  - intros [r Hr]. inv_ok. split_and!; eexists; eassumption.
  - intros ([c Hc] & [k Hk] & [a Ha]). eexists. by rewrite Hc; simpl; rewrite Hk; simpl; rewrite Ha.
Qed.

(** The three sources of the token. *)
Definition valid_token (h : host) (base : string) (source : TokenSource) : Prop :=
  match source with
  | Environment v =>
      Utf8.all_whitespace v = false ∧ Str.contains ["="; "000"]%char v = false ∧
      ∃ t, env_var h v = Some t ∧ is_ok (validate_token t) = true
  | WindowsDpapi file =>
      ∃ p t, canonicalize h (absolute_from windows base file) = Some p ∧ unprotect_from_file (read_bytes h p) = Ok t ∧
        is_ok (validate_token t) = true
  | Pbkdf2 hash => is_ok (validate_pbkdf2_sha256 hash) = true
  end.

Lemma resolve_token_Ok h base source : is_ok (resolve_token windows h base source) = true ↔ valid_token h base source.
Proof.
  unfold resolve_token. destruct source as [v|file|hash]; simpl.
  - rewrite is_ok_spec. split.
    + intros [r Hr]. inv_ok. breflect. split_and!; [done..|]. eexists. split; [eassumption|].
      apply is_ok_spec. eexists. eassumption.
    + intros (Hw & Hc & t & Ht & [[] Hv]%is_ok_spec). eexists. rewrite Hw, Hc. simpl. rewrite Ht. simpl. by rewrite Hv.
  - rewrite is_ok_spec. split.
    + intros [r Hr]. inv_ok. do 2 eexists. split_and!; [eassumption..|]. apply is_ok_spec. eexists. eassumption.
    + intros (p & t & Hp & Ht & [[] Hv]%is_ok_spec). eexists. rewrite Hp. simpl. rewrite Ht. simpl. by rewrite Hv.
  - rewrite is_ok_map_err. unfold from_pbkdf2_sha256. rewrite is_ok_seq. by split; [intros []|].
Qed.

(** What a route starts is there. *)
Definition runnable (h : host) (base : string) (r : RouteConfig) : Prop :=
  ∃ scr dir, canonicalize h (absolute_from windows base (rc_script r)) = Some scr ∧ is_file h scr = true ∧
    from_option (Some ∘ absolute_from windows base) (OsPath.parent windows scr) (rc_working_directory r) ≫= canonicalize h = Some dir ∧
    is_dir h dir = true ∧
    Forall (λ p, is_Some (Regex_new p)) (allowed_patterns (rc_request_args r)).

Lemma resolve_route_Ok h base r : is_ok (resolve_route windows h base r) = true ↔ runnable h base r.
Proof.
  unfold resolve_route, runnable. cbv zeta. rewrite is_ok_bind. setoid_rewrite ok_or_Ok.
  assert (is_ok (collect (compile_pattern (rc_path r)) (allowed_patterns (rc_request_args r))) = true ↔
    Forall (λ p, is_Some (Regex_new p)) (allowed_patterns (rc_request_args r))) as Hpat.
  { rewrite is_ok_collect. apply Forall_iff. intros p. unfold compile_pattern. rewrite is_ok_spec.
    setoid_rewrite ok_or_Ok. done. }
  setoid_rewrite is_ok_guard. setoid_rewrite negb_false_iff. setoid_rewrite <- Hpat. split.
  - intros (scr & Hs & Hf & Hrest). exists scr. rewrite !is_ok_bind in Hrest.
    destruct Hrest as (d & Hd & (dir & Hdir & [? (ps & Hps & _)%is_ok_bind]%is_ok_guard)%is_ok_bind).
    exists dir. apply ok_or_Ok in Hdir. rewrite negb_false_iff in *. split_and!; [done..| |done|by rewrite Hps].
    destruct (rc_working_directory r); simpl; [by injection Hd as <-|]. apply ok_or_Ok in Hd. by rewrite Hd.
  - intros (scr & dir & Hs & Hf & Hd & Hdir & (ps & Hps)%is_ok_spec). exists scr. split_and!; [done..|].
    rewrite is_ok_bind. apply bind_Some in Hd as (d & Hd & Hc). exists d. split.
    + destruct (rc_working_directory r); simpl in *; [by injection Hd as <-|by rewrite Hd].
    + rewrite is_ok_bind. exists dir. rewrite Hc. split; [done|]. rewrite is_ok_guard, Hdir. split; [done|].
      by rewrite Hps.
Qed.

Lemma resolve_routes_Ok h base acc paths rs :
  is_ok (resolve_routes windows h base acc paths rs) = true ↔
  Forall (λ r, valid_route windows r ∧ valid_allowlist acc r ∧ runnable h base r) rs ∧
  NoDup (rc_path <$> rs) ∧ (∀ r, r ∈ rs → rc_path r ∉ paths).
Proof.
  revert paths. induction rs as [|r rs IH]; intros paths; simpl.
  - split; [|done]. intros _. split_and!; [done|constructor|set_solver].
  - rewrite is_ok_seq, validate_route_Ok, !is_ok_guard, missing_allowlist_spec, bool_decide_eq_false.
    rewrite is_ok_bind2, resolve_route_Ok, IH, Forall_cons, NoDup_cons. split.
    + intros (? & ? & ? & ? & (? & ? & Hn)). split_and!; try done.
      * intros (r' & Hp & Hin)%list_elem_of_fmap. apply (Hn r' Hin). set_solver.
      * intros r' [->|Hin]%elem_of_cons; [done|]. specialize (Hn r' Hin). set_solver.
    + intros ((Hr & ?) & (Hni & ?) & Hn). split_and!; try tauto.
      * apply Hn. left.
      * intros r' Hin. specialize (Hn r'). rewrite not_elem_of_union, not_elem_of_singleton. split.
        -- intros He. apply Hni. rewrite <- He. by apply list_elem_of_fmap_2.
        -- apply Hn. by right.
Qed.

(** The rules of the sections, which do not depend on the log directory. *)
Definition valid_sections (h : host) (c : Config) (base : string) : Prop :=
  valid_server (c_server c) ∧ valid_access (c_access c) ∧
  max_total_concurrency (c_execution c) ≠ 0 ∧ shutdown_timeout_seconds (c_execution c) ≠ 0 ∧
  retention_seconds (c_logging c) ≠ 0 ∧ max_output_bytes_per_task (c_logging c) ≠ 0 ∧
  c_routes c ≠ [] ∧ is_ok (validate_service_name (ws_name (c_windows_service c))) = true ∧
  valid_token h base (c_auth_token c) ∧ (∀ t, c_tls c = Some t → valid_tls h base t).

Lemma resolve_sections_Ok h c src :
  is_ok (resolve_sections windows h c src) = true ↔ ∃ base, OsPath.parent windows src = Some base ∧ valid_sections h c base.
Proof.
  unfold resolve_sections, valid_sections.
  assert (∀ base (server : list ListenerConfig), is_ok (auth ← resolve_token windows h base (c_auth_token c); t ← resolve_tls windows h base (c_tls c);
    Ok (server, base, auth, t)) = true ↔
    valid_token h base (c_auth_token c) ∧ (∀ t, c_tls c = Some t → valid_tls h base t)) as Htail.
  { intros base server. by rewrite is_ok_bind2, resolve_token_Ok, resolve_tls_Ok. }
  setoid_rewrite <- resolve_server_accepts. setoid_rewrite <- validate_access_Ok.
  destruct (resolve_server (c_server c)) as [server|e]; simpl.
  2: { split; [done|]. by intros (? & _ & ? & _). }
  rewrite is_ok_seq, !is_ok_guard, !Z.eqb_neq, bool_decide_eq_false, length_zero_iff_nil, is_ok_seq, is_ok_bind.
  setoid_rewrite ok_or_Ok. setoid_rewrite Htail. split; [intros (?&?&?&?&?&?&?&base&?&?&?); exists base; by split_and!|].
  intros (base & ? & _ & ? & ? & ? & ? & ? & ? & ? & ? & ?). split_and!; [done..|]. exists base. by split_and!.
Qed.

(** The documented rules: the sections are valid, the log directory can be
    made, and every route is well formed, has an allow-list where it must, can
    be started, and has a path of its own. *)
Definition valid_config (h : host) (c : Config) (src : string) : Prop :=
  ∃ base h',
    OsPath.parent windows src = Some base ∧ valid_sections h c base ∧
    create_dir_all h (OsPath.join windows (absolute_from windows base (directory (c_logging c))) "tasks") = Some h' ∧
    is_Some (canonicalize h' (absolute_from windows base (directory (c_logging c)))) ∧
    Forall (λ r, valid_route windows r ∧ valid_allowlist (account (c_windows_service c)) r ∧ runnable h' base r) (c_routes c) ∧
    NoDup (rc_path <$> c_routes c).

Lemma resolve_sections_base h c src server base auth t :
  resolve_sections windows h c src = Ok (server, base, auth, t) → OsPath.parent windows src = Some base.
Proof. unfold resolve_sections. intros Hs. by inv_ok. Qed.

(** C13: on either platform [resolve] accepts exactly the configurations that
    satisfy the documented rules, in which paths are read as the platform reads
    them: what is relative to the configuration, what the directory of a file
    is, and which scripts and programs are batch files or [cmd] and so may not
    get dynamic arguments. *)
Theorem resolve_accepts h c src :
  (∃ rc, (resolve windows h c src).1 = Ok rc) ↔ valid_config h c src.
Proof.
  rewrite <- is_ok_spec. unfold resolve, valid_config. pose proof (resolve_sections_Ok h c src) as Hsec.
  destruct (resolve_sections windows h c src) as [[[[server base] auth] t]|e] eqn:Hs.
  2: { simpl. split; [done|]. intros (base & h' & ? & ? & _). apply Hsec. eauto. }
  apply resolve_sections_base in Hs as Hb. destruct (proj1 Hsec eq_refl) as (base' & Hb' & Hv). simplify_eq.
  destruct (create_dir_all h _) as [h'|] eqn:Hd; simpl.
  2: { split; [done|]. intros (b1 & h1 & ? & _ & ? & _). simplify_eq. }
  rewrite is_ok_bind. setoid_rewrite ok_or_Ok. split.
  - intros (log & Hlog & Hr). exists base, h'. split_and!; [done..|by exists log| |];
      apply is_ok_bind in Hr as (rs & Hr & _);
      by apply (f_equal is_ok), resolve_routes_Ok in Hr as (? & ? & _).
  - intros (b1 & h1 & ? & _ & ? & [log Hlog] & Hr & Hnd). simplify_eq. exists log. split; [done|].
    assert (is_ok (resolve_routes windows h' base (account (c_windows_service c)) ∅ (c_routes c)) = true) as (rs & Hrs)%is_ok_spec.
    { apply resolve_routes_Ok. split_and!; [done..|]. set_solver. }
    by rewrite Hrs.
Qed.
End accept.
