(* ===== verification/Disk.v ===== *)
(** * The task directories on disk

    The files under [<log directory>/tasks], as the store uses them: one
    directory per task holding [events.jsonl] and the captured output. Every
    file operation can fail, and a write can fail after a part of its data
    has reached the file: the outcomes of the coming operations are a list in
    the state, so a theorem that quantifies over the state covers every
    pattern of failures. An empty list means that everything succeeds. *)

From S2P Require Import Prelude RustStd.
Local Open Scope string_scope.

(** A failing operation: how many bytes a write still delivers, and the text
    of the operating system error. *)
Record fault := mkFault { written : nat; os_error : string }.

Record World := mkWorld {
  dirs : gmap string (gmap string string);
  faults : list (option fault)
}.

Inductive IoError :=
| NotFound (msg : string)
| IoFailure (msg : string).

#[global] Instance IoError_eq_dec : EqDecision IoError.
Proof. solve_decision. Defined.

Definition IoError_to_string (e : IoError) : string :=
  match e with NotFound m | IoFailure m => m end.

Definition Io := stm World IoError.

(** Take the outcome of the next operation. *)
Definition next_fault : Io (option fault) := λ w,
  match faults w with
  | [] => (Ok None, w)
  | f :: fs => (Ok f, mkWorld (dirs w) fs)
  end.

Definition set_dirs (d : gmap string (gmap string string)) : Io unit := λ w,
  (Ok tt, mkWorld d (faults w)).

Definition not_found : IoError := NotFound "No such file or directory (os error 2)".
Definition already_exists : IoError := IoFailure "File exists (os error 17)".

(** An operation that has no effect when it fails. *)
Definition checked : Io unit :=
  f ← next_fault;
  match f with Some f => fail (IoFailure (os_error f)) | None => mret tt end.

Definition file_content (w : World) (dir file : string) : option string :=
  d ← dirs w !! dir; d !! file.

(** [tokio::fs::create_dir]. *)
Definition create_dir (dir : string) : Io unit :=
  _ ← checked;
  ds ← gets dirs;
  match ds !! dir with
  | Some _ => fail already_exists
  | None => set_dirs (<[dir := ∅]> ds)
  end.

(** [tokio::fs::write(dir/file, [])]: create or truncate. *)
Definition write_empty (dir file : string) : Io unit :=
  _ ← checked;
  ds ← gets dirs;
  match ds !! dir with
  | None => fail not_found
  | Some d => set_dirs (<[dir := <[file := EmptyString]> d]> ds)
  end.

(** [OpenOptions::new().create(true).append(true).open(dir/file)]. *)
Definition open_append (dir file : string) : Io unit :=
  _ ← checked;
  ds ← gets dirs;
  match ds !! dir with
  | None => fail not_found
  | Some d => set_dirs (<[dir := <[file := default EmptyString (d !! file)]> d]> ds)
  end.

(** [write_all] and [flush] on a file opened for appending. *)
Definition append_all (dir file data : string) : Io unit :=
  f ← next_fault;
  ds ← gets dirs;
  let put n := match ds !! dir with
               | Some d => <[dir := <[file := default EmptyString (d !! file) +:+ Str.take n data]> d]> ds
               | None => ds
               end in
  match f with
  | Some f => _ ← set_dirs (put (written f)); fail (IoFailure (os_error f))
  | None => set_dirs (put (String.length data))
  end.

(** [File::open] and a full read. *)
Definition read_file (dir file : string) : Io string :=
  _ ← checked;
  w ← gets id;
  match file_content w dir file with
  | Some s => mret s
  | None => fail not_found
  end.

(** [tokio::fs::remove_dir_all]. *)
Definition remove_dir_all (dir : string) : Io unit :=
  _ ← checked;
  ds ← gets dirs;
  set_dirs (delete dir ds).

Ltac io_unfold :=
  unfold create_dir, write_empty, open_append, append_all, read_file, remove_dir_all, checked,
    next_fault, set_dirs, gets, fail in *;
  cbv [mbind mret stm_bind stm_ret] in *.

(** A successful append delivers all of its data and changes nothing else. *)
Lemma append_all_Ok dir file data w w' :
  append_all dir file data w = (Ok tt, w') →
  is_Some (dirs w !! dir) →
  file_content w' dir file = Some (default EmptyString (file_content w dir file) +:+ data) ∧
  is_Some (dirs w' !! dir) ∧
  ∀ d f, (d, f) ≠ (dir, file) → file_content w' d f = file_content w d f.
Proof.
  intros Ha [d Hd]. io_unfold. unfold file_content.
  destruct (faults w) as [|[f|] fs]; simplify_eq/=; rewrite Hd; simpl;
    rewrite lookup_insert_eq; simpl; rewrite lookup_insert_eq, Str.take_all by lia;
    (split_and!; [done|eauto|]; intros d' f' Hne;
     destruct (decide (d' = dir)) as [->|]; [|by rewrite lookup_insert_ne];
     rewrite lookup_insert_eq, Hd; simpl; rewrite lookup_insert_ne; [done|congruence]).
Qed.

(** Opening for append creates the file if needed and keeps its content. *)
Lemma open_append_Ok dir file w w' :
  open_append dir file w = (Ok tt, w') →
  is_Some (dirs w' !! dir) ∧ is_Some (dirs w !! dir) ∧
  file_content w' dir file = Some (default EmptyString (file_content w dir file)) ∧
  ∀ d f, (d, f) ≠ (dir, file) → file_content w' d f = file_content w d f.
Proof.
  intros Ha. io_unfold. unfold file_content.
  destruct (faults w) as [|[f|] fs]; simplify_eq/=;
    (destruct (dirs w !! dir) as [d|] eqn:Hd; simplify_eq/=; split_and!;
     [rewrite lookup_insert_eq; eauto|eauto|by rewrite lookup_insert_eq; simpl; rewrite lookup_insert_eq|];
     intros d' f' Hne; destruct (decide (d' = dir)) as [->|]; [|by rewrite lookup_insert_ne];
     rewrite lookup_insert_eq, Hd; simpl; rewrite lookup_insert_ne; [done|congruence]).
Qed.

Lemma checked_Ok u w w' : checked w = (Ok u, w') → dirs w' = dirs w.
Proof. io_unfold. by destruct (faults w) as [|[f|] fs]; intros; simplify_eq/=. Qed.

(** [create_dir] succeeds only on a new directory, which is then empty. *)
Lemma create_dir_Ok dir w w' :
  create_dir dir w = (Ok tt, w') → dirs w !! dir = None ∧ dirs w' = <[dir := ∅]> (dirs w).
Proof.
  unfold create_dir. intros Hc. inv_stm.
  match goal with Hx : checked _ = _ |- _ => apply checked_Ok in Hx as Hd end. rewrite Hd in *.
  destruct (dirs w !! dir); [done|]. unfold set_dirs in Hc. by simplify_eq.
Qed.

Lemma write_empty_Ok dir file w w' :
  write_empty dir file w = (Ok tt, w') →
  ∃ d, dirs w !! dir = Some d ∧ dirs w' = <[dir := <[file := EmptyString]> d]> (dirs w).
Proof.
  unfold write_empty. intros Hc. inv_stm.
  match goal with Hx : checked _ = _ |- _ => apply checked_Ok in Hx as Hd end. rewrite Hd in *.
  destruct (dirs w !! dir) as [d|]; [|done]. unfold set_dirs in Hc. simplify_eq. eauto.
Qed.

Lemma read_file_Ok dir file w c w' :
  read_file dir file w = (Ok c, w') → file_content w dir file = Some c.
Proof.
  unfold read_file. intros Hr. inv_stm.
  match goal with H : checked _ = _ |- _ => apply checked_Ok in H as Hd end.
  unfold file_content in *. rewrite Hd in *.
  by destruct (dirs w !! dir ≫= _) eqn:E; inv_stm.
Qed.

Lemma read_file_no_fault dir file w c :
  faults w = [] → file_content w dir file = Some c → read_file dir file w = (Ok c, w).
Proof.
  intros Hf Hc. unfold read_file, checked, next_fault, mbind, stm_bind, gets, mret, stm_ret.
  rewrite Hf. simpl. by rewrite Hc.
Qed.

Lemma checked_no_fault w : faults w = [] → checked w = (Ok tt, w).
Proof. intros Hf. unfold checked, next_fault, mbind, stm_bind. by rewrite Hf. Qed.

Lemma read_file_NotFound dir file w m w' :
  read_file dir file w = (Err (NotFound m), w') → file_content w dir file = None.
Proof.
  unfold read_file, checked, next_fault, fail, mbind, stm_bind, gets, mret, stm_ret.
  assert (∀ fs, file_content (mkWorld (dirs w) fs) dir file = file_content w dir file) as Hfs by done.
  destruct (faults w) as [|[f|] fs]; simpl; intros Hr; simplify_eq/=; rewrite ?Hfs in Hr;
    by destruct (file_content w dir file); simplify_eq/=.
Qed.

(** Reading changes no file. *)
Lemma read_file_keeps dir file w : dirs (read_file dir file w).2 = dirs w.
Proof.
  unfold read_file, checked, next_fault, fail, mbind, stm_bind, gets, mret, stm_ret.
  destruct (faults w) as [|[f|] fs]; simpl; [|done|]; by destruct (file_content _ _ _).
Qed.
