(* ===== verification/Journal.v ===== *)
(** * The event journal of a task (src/src/store.rs: [read_latest_snapshot])

    A task's [events.jsonl] holds one serialized snapshot per line; the last
    readable line is the state of the task. [serde_json] is the interface
    [SnapshotJson] with the laws of [JsonLaws]; [lines] is [BufRead::lines]. *)

From S2P Require Import Prelude RustStd Model.
Local Open Scope string_scope.
Local Open Scope list_scope.
Local Open Scope Z_scope.

Definition LF : ascii := "010"%char.
Definition CR : ascii := "013"%char.

Class SnapshotJson := {
  to_vec : TaskSnapshot → string;
  from_str : string → option TaskSnapshot
}.

(** What the store relies on of [serde_json]: compact output is one line of
    UTF-8 that ends in a brace, and it parses back. What a crash leaves of it
    does not parse: not a part, whose outer brace is still open, and not a
    record behind a part or the whole of another one. *)
Class JsonLaws `{SnapshotJson} : Prop := {
  json_roundtrip s : from_str (to_vec s) = Some s;
  json_one_line s : Str.contains [LF] (to_vec s) = false;
  json_utf8 s : Utf8.valid (to_vec s) = true;
  json_no_cr s : Str.ends_with_char CR (to_vec s) = false;
  json_prefix s n : (n < String.length (to_vec s))%nat → from_str (Str.take n (to_vec s)) = None;
  json_glued a b n : (0 < n)%nat → from_str (Str.take n (to_vec a) +:+ to_vec b) = None
}.

(** ** Reading lines *)

Inductive ReadError := InvalidUtf8.

#[global] Instance ReadError_eq_dec : EqDecision ReadError.
Proof. solve_decision. Defined.

(** Drop a carriage return before the line feed. *)
Definition strip_cr (s : string) : string :=
  if Str.ends_with_char CR s then Str.take (String.length s - 1) s else s.

(** The lines of a file: every line but the last is terminated, and the text
    after the last line feed counts only if there is some. *)
Fixpoint raw_lines (pieces : list string) : list string :=
  match pieces with
  | [] => []
  | [last] => if Str.is_empty last then [] else [last]
  | p :: ps => strip_cr p :: raw_lines ps
  end.

Definition lines (content : string) : list string := raw_lines (Str.split LF content).

Section journal.
Context `{SnapshotJson}.

(** The loop: an unreadable line ends it with an error, a line that does
    not parse is skipped. *)
Fixpoint latest_of (ls : list string) (latest : option TaskSnapshot)
    : result ReadError (option TaskSnapshot) :=
  match ls with
  | [] => Ok latest
  | l :: ls =>
      guard! negb (Utf8.valid l) else InvalidUtf8;
      latest_of ls (match from_str l with Some s => Some s | None => latest end)
  end.

(** [read_latest_snapshot] on the content of the file, [None] when there is
    no file. *)
Definition read_latest_snapshot (content : option string)
    : result ReadError (option TaskSnapshot) :=
  match content with
  | None => Ok None
  | Some c => latest_of (lines c) None
  end.

(** What [persist] appends. *)
Definition event_line (s : TaskSnapshot) : string := to_vec s +:+ String LF EmptyString.
End journal.

(** ** Lines of a terminated file *)

Lemma split_app_line c a b :
  Str.contains [c] a = false → Str.split c (a +:+ String c b) = a :: Str.split c b.
Proof.
  induction a as [|x a IH]; intros Hc.
  - change (EmptyString +:+ String c b) with (String c b). simpl. by rewrite bool_decide_eq_true_2.
  - simpl in Hc. apply orb_false_iff in Hc as [Hx Hc]. breflect.
    rewrite Str.app_cons. simpl. rewrite bool_decide_eq_false_2 by set_solver. by rewrite IH.
Qed.

Lemma split_not_nil c s : Str.split c s ≠ [].
Proof. destruct s; simpl; repeat case_match; done. Qed.

(** A file that is empty or ends with a line feed. *)
Definition terminated (s : string) : Prop := last (Str.split LF s) = Some EmptyString.

Lemma terminated_nil : terminated EmptyString.
Proof. done. Qed.

Lemma split_app_terminated s t :
  terminated s →
  ∃ ps, Str.split LF s = ps ++ [EmptyString] ∧ Str.split LF (s +:+ t) = ps ++ Str.split LF t.
Proof.
  unfold terminated. induction s as [|x s IH]; intros Ht.
  - by exists [].
  - rewrite Str.app_cons. simpl in *. case_bool_decide as Hx.
    + assert (last (Str.split LF s) = Some EmptyString) as Hl.
      { pose proof (split_not_nil LF s). by destruct (Str.split LF s). }
      destruct (IH Hl) as (ps & E1 & E2). exists (EmptyString :: ps). by rewrite E1, E2.
    + pose proof (split_not_nil LF s) as Hn. destruct (Str.split LF s) as [|p ps] eqn:E; [done|].
      destruct ps as [|q ps]; [done|].
      destruct IH as (ps' & E1 & E2); [done|].
      destruct ps' as [|p' ps']; [done|]. simpl in E1. injection E1 as <- E1.
      exists (String x p :: ps'). rewrite E2. simpl. by rewrite E1.
Qed.

Lemma terminated_app_line s l :
  terminated s → Str.contains [LF] l = false → terminated (s +:+ l +:+ String LF EmptyString).
Proof.
  intros Hs Hl. destruct (split_app_terminated s (l +:+ String LF EmptyString) Hs) as (ps & _ & E).
  unfold terminated. rewrite E, split_app_line by done. simpl.
  change [l; EmptyString] with ([l] ++ [EmptyString]). by rewrite app_assoc, last_snoc.
Qed.

Lemma raw_lines_app ps q qs : raw_lines (ps ++ q :: qs) = (strip_cr <$> ps) ++ raw_lines (q :: qs).
Proof.
  induction ps as [|p ps IH]; [done|]. change ((p :: ps) ++ q :: qs) with (p :: (ps ++ q :: qs)).
  rewrite fmap_cons. change ((strip_cr p :: (strip_cr <$> ps)) ++ raw_lines (q :: qs))
    with (strip_cr p :: ((strip_cr <$> ps) ++ raw_lines (q :: qs))). rewrite <- IH.
  by destruct ps.
Qed.

Lemma lines_app_terminated s t : terminated s → lines (s +:+ t) = lines s ++ lines t.
Proof.
  intros Hs. destruct (split_app_terminated s t Hs) as (ps & E1 & E2).
  unfold lines. rewrite E1, E2. pose proof (split_not_nil LF t) as Hn.
  destruct (Str.split LF t) as [|q qs]; [done|].
  rewrite !raw_lines_app. simpl. by rewrite app_nil_r.
Qed.

Lemma lines_line l :
  Str.contains [LF] l = false → lines (l +:+ String LF EmptyString) = [strip_cr l].
Proof. intros Hl. unfold lines. by rewrite split_app_line. Qed.

Lemma lines_unterminated l :
  Str.contains [LF] l = false → l ≠ EmptyString → lines l = [l].
Proof.
  intros Hl Hne. unfold lines.
  assert (Str.split LF l = [l]) as ->.
  { clear Hne. induction l as [|x l IH]; [done|]. simpl in *.
    apply orb_false_iff in Hl as [Hx Hl]. breflect.
    rewrite bool_decide_eq_false_2 by set_solver. by rewrite IH. }
  simpl. unfold Str.is_empty. by rewrite bool_decide_eq_false_2.
Qed.

(** ** The journal read back *)

Section journal_facts.
Context `{JsonLaws}.

Lemma latest_of_app ls1 ls2 acc r :
  latest_of ls1 acc = Ok r → latest_of (ls1 ++ ls2) acc = latest_of ls2 r.
Proof.
  revert acc. induction ls1 as [|l ls1 IH]; intros acc; simpl; [by intros [= ->]|].
  intros Hr. inv_ok. rewrite Hx. simpl. by apply IH.
Qed.

Lemma latest_of_Ok ls acc :
  Forall (λ l, Utf8.valid l = true) ls → ∃ r, latest_of ls acc = Ok r.
Proof.
  revert acc. induction ls as [|l ls IH]; intros acc Hf; simpl; [eauto|].
  apply Forall_cons in Hf as [-> Hf]. simpl. by apply IH.
Qed.

Lemma strip_cr_json s : strip_cr (to_vec s) = to_vec s.
Proof. unfold strip_cr. by rewrite json_no_cr. Qed.

(** A journal of whole lines of UTF-8: as the service leaves it as long as no
    append of [persist] failed or was cut short. *)
Definition wf_journal (c : string) : Prop :=
  terminated c ∧ Forall (λ l, Utf8.valid l = true) (lines c).

Lemma wf_journal_nil : wf_journal EmptyString.
Proof. split; [done|constructor]. Qed.

Lemma lines_event_line s : lines (event_line s) = [to_vec s].
Proof. unfold event_line. rewrite lines_line by apply json_one_line. by rewrite strip_cr_json. Qed.

Lemma wf_journal_append c s : wf_journal c → wf_journal (c +:+ event_line s).
Proof.
  intros [Ht Hl]. split.
  - apply terminated_app_line; [done|apply json_one_line].
  - rewrite lines_app_terminated, lines_event_line by done.
    apply Forall_app. split; [done|]. constructor; [apply json_utf8|constructor].
Qed.

Lemma read_latest_append c s :
  wf_journal c → read_latest_snapshot (Some (c +:+ event_line s)) = Ok (Some s).
Proof.
  intros [Ht Hl]. simpl. rewrite lines_app_terminated, lines_event_line by done.
  destruct (latest_of_Ok (lines c) None Hl) as [r Hr]. erewrite latest_of_app by done.
  simpl. by rewrite json_utf8, json_roundtrip.
Qed.

Lemma read_latest_torn_utf8 c p :
  wf_journal c → Str.contains [LF] p = false → Utf8.valid p = false →
  read_latest_snapshot (Some (c +:+ p)) = Err InvalidUtf8.
Proof.
  intros [Ht Hl] Hp Hu. simpl. rewrite lines_app_terminated by done.
  destruct (latest_of_Ok (lines c) None Hl) as [r Hr]. erewrite latest_of_app by done.
  rewrite lines_unterminated; [|done|by intros ->]. simpl. by rewrite Hu.
Qed.

(** A record that a crash cut short, between two characters, is skipped:
    whatever was appended after the last complete record, as long as it does
    not parse, the journal reads as it did before the interrupted write. *)
Theorem torn_record_skipped c p r :
  wf_journal c → Str.contains [LF] p = false → Utf8.valid p = true → from_str p = None →
  read_latest_snapshot (Some c) = Ok r → read_latest_snapshot (Some (c +:+ p)) = Ok r.
Proof.
  intros [Ht Hl] Hp Hu Hn Hr. simpl in *. rewrite lines_app_terminated by done.
  erewrite latest_of_app by done. destruct (decide (p = EmptyString)) as [->|Hne]; [done|].
  rewrite lines_unterminated by done. simpl. by rewrite Hu, Hn.
Qed.

(** A record appended to an unterminated line is glued to it and not read. *)
Lemma read_latest_glued c a n s :
  wf_journal c → (0 < n)%nat → Utf8.valid (Str.take n (to_vec a)) = true →
  read_latest_snapshot (Some (c +:+ Str.take n (to_vec a) +:+ event_line s)) = read_latest_snapshot (Some c) ∧
  wf_journal (c +:+ Str.take n (to_vec a) +:+ event_line s).
Proof.
  intros [Ht Hl] Hn Hu. unfold event_line. rewrite <- (Str.app_assoc (Str.take n (to_vec a))).
  set (l := Str.take n (to_vec a) +:+ to_vec s).
  assert (Str.contains [LF] l = false) as Hlf.
  { unfold l. rewrite Str.contains_app, json_one_line, Str.contains_take by apply json_one_line. done. }
  assert (Utf8.valid l = true) as Hlu by (by apply Utf8.valid_app; [|apply json_utf8]).
  assert (strip_cr l = l) as Hcr.
  { unfold strip_cr. replace (Str.ends_with_char CR l) with false; [done|]. symmetry.
    pose proof (json_no_cr s) as Hs. unfold l. destruct (to_vec s) as [|x v] eqn:Hv.
    - pose proof (json_glued a s n Hn) as Hg. pose proof (json_roundtrip s) as Hr. rewrite Hv in *.
      rewrite Str.app_nil_r in *. destruct (decide (n < String.length (to_vec a))%nat) as [Hlt|Hge].
      + exfalso. pose proof (json_glued s a 1 Nat.lt_0_1) as Hg'. rewrite Hv in Hg'.
        change (Str.take 1 EmptyString +:+ to_vec a) with (to_vec a) in Hg'. by rewrite json_roundtrip in Hg'.
      + rewrite Str.take_all in Hg by lia. by rewrite json_roundtrip in Hg.
    - clear -Hs. induction (Str.take n (to_vec a)) as [|y t IH]; [done|].
      rewrite Str.app_cons. simpl. destruct (t +:+ String x v) eqn:E; [by destruct t|done]. }
  split.
  - simpl. rewrite lines_app_terminated, lines_line, Hcr by done.
    destruct (latest_of_Ok (lines c) None Hl) as [r Hr]. erewrite latest_of_app by done.
    simpl. rewrite Hlu, Hr. simpl. unfold l. by rewrite json_glued.
  - split; [by apply terminated_app_line|].
    rewrite lines_app_terminated, lines_line, Hcr by done. apply Forall_app. split; [done|]. by repeat constructor.
Qed.

(** What a crash leaves of an append: the journal reads as before it, or as
    after it. *)
Lemma read_latest_cut c s n r :
  wf_journal c → Utf8.valid (Str.take n (event_line s)) = true → read_latest_snapshot (Some c) = Ok r →
  read_latest_snapshot (Some (c +:+ Str.take n (event_line s))) = Ok r ∨
  read_latest_snapshot (Some (c +:+ Str.take n (event_line s))) = Ok (Some s).
Proof.
  intros Hw Hu Hr. unfold event_line in *.
  destruct (Nat.lt_trichotomy n (String.length (to_vec s))) as [Hn|[Hn|Hn]].
  - left. rewrite Str.take_app_le in * by lia. apply torn_record_skipped; [done| |done|by apply json_prefix|done].
    apply Str.contains_take, json_one_line.
  - right. rewrite Str.take_app_le in * by lia. rewrite Str.take_all in * by lia.
    destruct Hw as [Ht Hl]. simpl. rewrite lines_app_terminated by done.
    destruct (latest_of_Ok (lines c) None Hl) as [r' Hr']. erewrite latest_of_app by done.
    destruct (decide (to_vec s = EmptyString)) as [He|He].
    { pose proof (json_glued s s 1 Nat.lt_0_1) as Hg. rewrite He in Hg.
      change (Str.take 1 EmptyString +:+ EmptyString) with EmptyString in Hg. rewrite <- He in Hg.
      by rewrite json_roundtrip in Hg. }
    rewrite lines_unterminated by (done || apply json_one_line). simpl. by rewrite json_utf8, json_roundtrip.
  - right. rewrite Str.take_all by (rewrite Str.length_app; simpl; lia). by apply read_latest_append.
Qed.
End journal_facts.

(** ** A codec for the examples *)

(** The braces of a JSON object around binary digits. *)
#[global] Instance bit_json : SnapshotJson | 100 := {|
  to_vec s := String "{" (BitText.encode s +:+ "}");
  from_str t := match t with
                | String "{" r => if Str.ends_with_char "}" r
                                  then BitText.decode (Str.take (String.length r - 1) r) else None
                | _ => None
                end
|}.

Lemma of_pos_valid_fuel p q :
  Utf8.valid q = true → Utf8.valid (BitText.of_pos p +:+ q) = true.
Proof.
  intros Hq. apply Utf8.valid_app; [|done]. unfold Utf8.valid.
  induction p as [p IH|p IH|]; [..|done]; simpl; exact IH.
Qed.

Lemma bits_plain c s : c ∉ ["1"; "0"; "i"]%char → Str.contains [c] (BitText.encode (A:=TaskSnapshot) s) = false.
Proof. intros Hc. apply BitText.of_pos_contains; set_solver. Qed.

(** What is not made of digits does not decode. *)
Lemma to_pos_brace a b : BitText.to_pos (a +:+ String "{" b) = None.
Proof.
  induction a as [|x a IH]; [done|]. rewrite Str.app_cons. simpl. rewrite IH.
  repeat case_bool_decide; try done. by destruct a.
Qed.

Lemma take_braced s t : Str.take (String.length (s +:+ String t EmptyString) - 1) (s +:+ String t EmptyString) = s.
Proof. rewrite Str.length_app. simpl. rewrite Nat.add_sub. apply Str.take_app. Qed.

Lemma bit_json_laws : @JsonLaws bit_json.
Proof.
  split; [intros s..|intros a b n]; unfold from_str, to_vec, bit_json.
  - rewrite Str.ends_with_app, take_braced. simpl. apply BitText.decode_encode.
  - change (Str.contains [LF] (String "{" EmptyString +:+ (BitText.encode s +:+ "}")) = false).
    rewrite !Str.contains_app, bits_plain by (unfold LF; set_solver). done.
  - by apply (Utf8.valid_app "{" (BitText.encode s +:+ "}")), of_pos_valid_fuel.
  - destruct (BitText.encode s +:+ "}") eqn:E; [by destruct (BitText.encode s)|]. rewrite <- E.
    simpl. rewrite E, <- E. apply Str.ends_with_app.
  - intros [|n] Hn; [done|]. simpl in *. rewrite Str.length_app in Hn. simpl in Hn.
    rewrite Str.take_app_le by lia.
    by rewrite Str.contains_ends_with by (apply Str.contains_take, bits_plain; set_solver).
  - intros Hn. destruct n as [|n]; [lia|]. cbn [Str.take]. rewrite Str.app_cons.
    change (String "{" (BitText.encode b +:+ "}")) with ((String "{" (BitText.encode b)) +:+ String "}" EmptyString).
    rewrite <- Str.app_assoc, Str.ends_with_app, take_braced. simpl.
    unfold BitText.decode. by rewrite to_pos_brace.
Qed.

Lemma torn_record_skipped_witness : read_latest_snapshot (Some (EmptyString +:+ "{0i")) = Ok None.
Proof.
  apply (@torn_record_skipped bit_json EmptyString "{0i" None); try reflexivity. apply wf_journal_nil.
Defined.
