(* ===== verification/Store.v ===== *)
(** * The task store (src/src/store.rs)

    [TaskRecord] is a task in memory with its stop channel and its counters;
    [TaskStore] is the table of records with the number of active tasks. The
    operations are stateful computations over the store and the disk. Values
    the code draws from outside (the fresh UUID, the wall-clock time, the
    directory listing) are arguments.

    [encoding_rs], [base64] and [uuid] are the interfaces [EncodingLib] and
    [UuidLib]. *)

From S2P Require Import Prelude RustStd Model Disk Journal.
Local Open Scope string_scope.
Local Open Scope list_scope.
Local Open Scope Z_scope.

Class UuidLib := { uuid_to_string : Uuid → string }.

Class EncodingLib := {
  (** [Encoding::decode]: the text and whether malformed input was replaced. *)
  decode : OutputEncoding → string → string * bool;
  base64_encode : string → string
}.

(** ** State *)

Record TaskRecord := mkTaskRecord {
  id : Uuid;
  dir : string;
  snap : TaskSnapshot;
  stdout_bytes : Z;
  stderr_bytes : Z;
  combined_bytes : Z;
  captured_bytes : Z;
  truncated : bool;
  stop : Watch.watch (option StopReason)
}.

Record TaskStore := mkTaskStore {
  root : string;
  max_output_bytes : Z;
  retention : Z;
  tasks : gmap Uuid TaskRecord;
  active_count : Z
}.

Record Sys := mkSys { store : TaskStore; world : World }.

Inductive StoreError :=
| SIo (e : IoError)
| TaskDirFailed (dir : string)
| LimitRange
| TaskMissing
| ModeSeparate
| ModeCombined
| OutputMissing (path : string)
| OffsetBeyond (offset size : Z)
| JournalUnreadable (e : ReadError)
| LockUnopenable (path : string)
| LockHeld (root : string).

(** The outermost [Display] text of the error. *)
Definition StoreError_to_string (e : StoreError) : string :=
  match e with
  | SIo e => IoError_to_string e
  | TaskDirFailed d => "无法创建任务日志目录 " +:+ d
  | LimitRange => "limit 必须在 1 到 1048576 之间"
  | TaskMissing => "任务不存在"
  | ModeSeparate => "该任务使用分离输出模式"
  | ModeCombined => "该任务使用合并输出模式"
  | OutputMissing p => "输出文件尚未生成: " +:+ p
  | OffsetBeyond o s => "offset " +:+ pretty o +:+ " 超过当前输出大小 " +:+ pretty s
  | JournalUnreadable InvalidUtf8 => "stream did not contain valid UTF-8"
  | LockUnopenable p => "无法打开日志目录锁文件 " +:+ p
  | LockHeld r => "日志目录 " +:+ r +:+ " 已被另一个 command-api 实例使用"
  end.

Definition M := stm Sys StoreError.

Definition lift {A} (m : Io A) : M A := λ s,
  match m (world s) with
  | (Ok a, w) => (Ok a, mkSys (store s) w)
  | (Err e, w) => (Err (SIo e), mkSys (store s) w)
  end.

Definition set_tasks (ts : gmap Uuid TaskRecord) (st : TaskStore) : TaskStore :=
  mkTaskStore (root st) (max_output_bytes st) (retention st) ts (active_count st).
Definition set_active (n : Z) (st : TaskStore) : TaskStore :=
  mkTaskStore (root st) (max_output_bytes st) (retention st) (tasks st) n.
Definition on_store (f : TaskStore → TaskStore) : M unit := λ s,
  (Ok tt, mkSys (f (store s)) (world s)).

Definition set_snap (v : TaskSnapshot) (r : TaskRecord) : TaskRecord :=
  mkTaskRecord (id r) (dir r) v (stdout_bytes r) (stderr_bytes r) (combined_bytes r)
    (captured_bytes r) (truncated r) (stop r).
Definition set_stop (v : Watch.watch (option StopReason)) (r : TaskRecord) : TaskRecord :=
  mkTaskRecord (id r) (dir r) (snap r) (stdout_bytes r) (stderr_bytes r) (combined_bytes r)
    (captured_bytes r) (truncated r) v.

(** ** Task records *)

Definition TaskRecord_new (s : TaskSnapshot) (directory : string) : TaskRecord :=
  mkTaskRecord (task_id s) directory s 0 0 0 0 false (Watch.channel None).

(** [TaskRecord::snapshot]: the truncation flag comes from the atomic. *)
Definition record_snapshot (r : TaskRecord) : TaskSnapshot :=
  set_output_truncated (truncated r) (snap r).

Definition subscribe_stop (r : TaskRecord) : nat := Watch.subscribe (stop r).

Definition request_stop_now (reason : StopReason) (r : TaskRecord) : TaskRecord :=
  set_stop (Watch.send_replace (Some reason) (stop r)) r.

Section records.
Context `{SnapshotJson}.

(** Setting the mark again changes nothing. *)
Lemma set_truncated_twice b c s : set_output_truncated b (set_output_truncated c s) = set_output_truncated b s.
Proof. by destruct s. Qed.

(** What [TaskRecord::transition] does under the write lock: readers see the
    new snapshot from here on. *)
Definition shown (update : TaskSnapshot → TaskSnapshot) (r : TaskRecord) : TaskRecord :=
  set_snap (set_output_truncated (truncated r) (update (snap r))) r.

Lemma record_snapshot_shown f r :
  record_snapshot (shown f r) = set_output_truncated (truncated r) (f (snap r)).
Proof. apply set_truncated_twice. Qed.

(** [TaskRecord::persist]: open, write and flush one line. *)
Definition persist (r : TaskRecord) : Io unit :=
  _ ← open_append (dir r) "events.jsonl";
  append_all (dir r) "events.jsonl" (event_line (record_snapshot r)).

(** [TaskRecord::transition]: the record in memory changes even when the
    journal cannot be written. The lock is released before [persist]; here
    nothing happens between the two, [Process] cuts a transition there. *)
Definition transition (update : TaskSnapshot → TaskSnapshot) (r : TaskRecord) (w : World)
    : result IoError unit * TaskRecord * World :=
  let r := shown update r in
  let '(res, w) := persist r w in
  (res, r, w).

(** The size of a file, [None] when [metadata] fails. *)
Definition file_size (dir file : string) : Io (option Z) :=
  f ← next_fault;
  w ← gets (λ w, w);
  mret (match f with
        | Some _ => None
        | None => Str.len <$> file_content w dir file
        end).

(** [refresh_output_sizes]: the counters from the files. *)
Definition refresh_output_sizes (r : TaskRecord) : Io TaskRecord :=
  so ← file_size (dir r) (file_name SStdout);
  se ← file_size (dir r) (file_name SStderr);
  co ← file_size (dir r) (file_name SCombined);
  let add o total := match o with Some n => saturating_add total n | None => total end in
  mret (mkTaskRecord (id r) (dir r) (snap r)
          (default (stdout_bytes r) so) (default (stderr_bytes r) se) (default (combined_bytes r) co)
          (add co (add se (add so 0))) (truncated r) (stop r)).
End records.

(** [TaskRecord::view] at wall-clock time [now]. *)
Definition record_view `{TimeLib, UuidLib} (now : Z) (r : TaskRecord) : TaskView :=
  let s := record_snapshot r in
  let base := "/tasks/" +:+ uuid_to_string (id r) in
  let sizes := match output_mode s with
               | Separate => mkOutputSizes (Some (stdout_bytes r)) (Some (stderr_bytes r)) None
               | Combined => mkOutputSizes None None (Some (combined_bytes r))
               end in
  let links := match output_mode s with
               | Separate => mkTaskLinks base (Some (base +:+ "/output?stream=stdout"))
                               (Some (base +:+ "/output?stream=stderr")) None
                               (base +:+ "/cancel") (base +:+ "/kill")
               | Combined => mkTaskLinks base None None (Some (base +:+ "/output?stream=combined"))
                               (base +:+ "/cancel") (base +:+ "/kill")
               end in
  mkTaskView (bool_decide (status s = Succeeded)) s
    (elapsed_ms now (default (created_at s) (started_at s)) (finished_at s)) sizes links.

(** ** The store *)

Definition get (i : Uuid) (st : TaskStore) : option TaskRecord := tasks st !! i.

Definition view `{TimeLib, UuidLib} (now : Z) (i : Uuid) (st : TaskStore) : option TaskView :=
  record_view now <$> get i st.

(** [request_stop]: whether the task exists and is still running. *)
Definition request_stop (i : Uuid) (reason : StopReason) (st : TaskStore) : bool * TaskStore :=
  match get i st with
  | None => (false, st)
  | Some r =>
      if is_finished (status (record_snapshot r)) then (false, st)
      else (true, set_tasks (<[i := request_stop_now reason r]> (tasks st)) st)
  end.

Definition cancel_record (reason : StopReason) (r : TaskRecord) : TaskRecord :=
  if is_finished (status (record_snapshot r)) then r else request_stop_now reason r.

Definition cancel_all (reason : StopReason) (st : TaskStore) : TaskStore :=
  set_tasks (cancel_record reason <$> tasks st) st.

Definition mark_finished (st : TaskStore) : TaskStore :=
  set_active (wrapping_sub (active_count st) 1) st.

Section operations.
Context `{SnapshotJson, TimeLib, UuidLib, EncodingLib}.

Definition new_snapshot (i : Uuid) (now : Z) (route : string) (mode : OutputMode)
    (enc : OutputEncoding) : TaskSnapshot :=
  mkTaskSnapshot i route Starting mode enc (now_rfc3339 now) None None None None None false.

Definition task_directory (root : string) (i : Uuid) : string :=
  Path.join (Path.join root "tasks") (uuid_to_string i).

(** [TaskStore::create] with the UUID it draws. *)
Definition create (i : Uuid) (now : Z) (route : string) (mode : OutputMode)
    (enc : OutputEncoding) : M TaskRecord :=
  r ← gets (root ∘ store);
  let directory := task_directory r i in
  _ ← with_err (λ _, TaskDirFailed directory) (lift (create_dir directory));
  let snapshot := new_snapshot i now route mode enc in
  _ ← match mode with
      | Separate =>
          _ ← lift (write_empty directory (file_name SStdout));
          lift (write_empty directory (file_name SStderr))
      | Combined => lift (write_empty directory (file_name SCombined))
      end;
  let record := TaskRecord_new snapshot directory in
  _ ← lift (persist record);
  _ ← on_store (λ st, set_tasks (<[i := record]> (tasks st)) st);
  _ ← on_store (λ st, set_active (wrapping_add (active_count st) 1) st);
  mret record.

Definition MAX_LIMIT : Z := 1024 * 1024.

Definition decode_output (enc : OutputEncoding) (data : string) : string * bool := decode enc data.

Definition stream_mode_ok (mode : OutputMode) (stream : OutputStream) : result StoreError unit :=
  match mode, stream with
  | Separate, SCombined => Err ModeSeparate
  | Combined, SStdout | Combined, SStderr => Err ModeCombined
  | _, _ => Ok tt
  end.

(** The number of bytes to read at [offset] of a file of [size] bytes: a
    UTF-16 read is cut to an even number. *)
Definition read_length (enc : OutputEncoding) (offset limit size : Z) : Z :=
  let n := Z.min limit (size - offset) in
  if bool_decide (enc = Utf16le) && Z.odd n then n - 1 else n.

Definition chunk_of (r : TaskRecord) (i : Uuid) (stream : OutputStream) (offset limit : Z)
    (content : string) : OutputChunk :=
  let s := snap r in
  let size := Str.len content in
  let n := read_length (output_encoding s) offset limit size in
  let data := Str.take (Z.to_nat n) (Str.drop (Z.to_nat offset) content) in
  let next := offset + Str.len data in
  let '(text, errors) := decode_output (output_encoding s) data in
  mkOutputChunk true i stream (label (output_encoding s)) offset next
    (is_finished (status s) && (size <=? next)) text errors
    (if errors then Some (base64_encode data) else None).

(** [TaskStore::output_chunk]. *)
Definition output_chunk (i : Uuid) (stream : OutputStream) (offset limit : Z) : M OutputChunk :=
  _ ← pure_result (bail_when ((limit =? 0) || (MAX_LIMIT <? limit)) LimitRange);
  st ← gets store;
  r ← pure_result (ok_or TaskMissing (get i st));
  _ ← pure_result (stream_mode_ok (output_mode (snap r)) stream);
  content ← with_err (λ _, OutputMissing (Path.join (dir r) (file_name stream)))
              (lift (read_file (dir r) (file_name stream)));
  _ ← lift checked;
  _ ← pure_result (bail_when (Str.len content <? offset) (OffsetBeyond offset (Str.len content)));
  _ ← lift checked;
  _ ← lift checked;
  mret (chunk_of r i stream offset limit content).

(** ** Recovery *)

(** The journal of a task directory; a missing file is no journal. *)
Definition read_journal (directory : string) : M (option TaskSnapshot) := λ s,
  match read_file directory "events.jsonl" (world s) with
  | (Ok c, w) => (map_err JournalUnreadable (read_latest_snapshot (Some c)), mkSys (store s) w)
  | (Err (NotFound _), w) => (Ok None, mkSys (store s) w)
  | (Err e, w) => (Err (SIo e), mkSys (store s) w)
  end.

Definition interrupt (now : Z) (s : TaskSnapshot) : TaskSnapshot :=
  if is_finished (status s) then s
  else set_error (Some "服务重启时任务仍处于未完成状态")
         (set_finished_at (Some (now_rfc3339 now)) (set_status Interrupted s)).

(** The body of the loop of [recover] for one directory. *)
Definition recover_directory (now : Z) (directory : string) : M unit :=
  s ← read_journal directory;
  match s with
  | None => mret tt
  | Some s =>
      r ← lift (refresh_output_sizes (TaskRecord_new (interrupt now s) directory));
      _ ← (if bool_decide (status (snap r) = Interrupted) then lift (persist r) else mret tt);
      on_store (λ st, set_tasks (<[id r := r]> (tasks st)) st)
  end.

(** [recover] over a directory listing: names with their kind. *)
Fixpoint recover (now : Z) (entries : list (string * bool)) : M unit :=
  match entries with
  | [] => mret tt
  | (path, is_dir) :: entries =>
      _ ← (if is_dir then recover_directory now path else mret tt);
      recover now entries
  end.

(** ** Expiry *)

(** [(now - finished_at).whole_seconds() >= retention.as_secs() as i64]. *)
Definition expired (now retention : Z) (s : TaskSnapshot) : bool :=
  match finished_at s ≫= rfc3339_parse with
  | None => false
  | Some f => as_i64 retention <=? Z.quot (now - f) Instants.NANOS
  end.

Definition expired_ids (now : Z) (st : TaskStore) : list Uuid :=
  omap (λ '(i, r), if expired now (retention st) (snap r) then Some (id r) else None)
    (map_to_list (tasks st)).

Definition remove_task (i : Uuid) : M unit :=
  st ← gets store;
  match get i st with
  | None => mret tt
  | Some r =>
      _ ← on_store (λ st, set_tasks (delete i (tasks st)) st);
      ignore (lift (remove_dir_all (dir r)))
  end.

Fixpoint remove_tasks (ids : list Uuid) : M unit :=
  match ids with
  | [] => mret tt
  | i :: ids => _ ← remove_task i; remove_tasks ids
  end.

Definition cleanup_expired (now : Z) : M unit :=
  st ← gets store;
  remove_tasks (expired_ids now st).

(** [spawn_cleanup]: the task of a generation that cleans up at every tick of its
    interval, at these times, until it is aborted; an error is only logged. *)
Fixpoint spawn_cleanup (ticks : list Z) : M unit :=
  match ticks with
  | [] => mret tt
  | now :: ticks => _ ← ignore (cleanup_expired now); spawn_cleanup ticks
  end.

(** [TaskStore::open]: [mkdir], [lock_file] and [lock] say whether the task
    directory could be created, the lock file opened, and the lock taken. *)
Definition open_store (root : string) (retention_seconds max_output : Z)
    (mkdir lock_file lock : bool)
    (entries : list (string * bool)) (now1 now2 : Z) (w : World)
    : result StoreError unit * Sys :=
  (_ ← pure_result (bail_when (negb mkdir) (TaskDirFailed root));
   _ ← pure_result (bail_when (negb lock_file) (LockUnopenable (Path.join root "command-api.lock")));
   _ ← pure_result (bail_when (negb lock) (LockHeld root));
   _ ← recover now1 entries;
   cleanup_expired now2)
    (mkSys (mkTaskStore root max_output retention_seconds ∅ 0) w).
End operations.

(** ** Facts about the lifted operations *)

Lemma lift_Ok {A} (m : Io A) s a s' :
  lift m s = (Ok a, s') ↔ ∃ w, m (world s) = (Ok a, w) ∧ s' = mkSys (store s) w.
Proof. unfold lift. destruct (m (world s)) as [[|] w]; naive_solver. Qed.

Lemma on_store_Ok f s a s' :
  on_store f s = (Ok a, s') ↔ a = tt ∧ s' = mkSys (f (store s)) (world s).
Proof. unfold on_store. destruct a. naive_solver. Qed.

(** Take a successful store operation apart. *)
Ltac inv_store :=
  repeat (inv_stm; inv_ok;
    try match goal with
    | H : lift _ _ = (Ok _, _) |- _ => apply lift_Ok in H; let w := fresh "w" in
        destruct H as (w & H & ?); subst
    | H : on_store _ _ = (Ok _, _) |- _ => apply on_store_Ok in H as [_ H]; subst
    end).

(** A file operation never touches the table of tasks. *)
Lemma lift_store {A} (m : Io A) s : store (lift m s).2 = store s.
Proof. unfold lift. by destruct (m (world s)) as [[|] w]. Qed.

(** Computations that never touch the table of tasks, and computations that
    leave it alone when they fail. *)
Definition keeps_store {A} (m : M A) : Prop := ∀ s, store (m s).2 = store s.
Definition fails_clean {A} (m : M A) : Prop := ∀ s e s', m s = (Err e, s') → store s' = store s.

Lemma keeps_lift {A} (m : Io A) : keeps_store (lift m).
Proof. intros s. apply lift_store. Qed.

Lemma keeps_bind {A B} (m : M A) (f : A → M B) :
  keeps_store m → (∀ a, keeps_store (f a)) → keeps_store (m ≫= f).
Proof.
  intros Hm Hf s. specialize (Hm s). unfold mbind, stm_bind.
  destruct (m s) as [[a|e] s1]; simpl in *; [|done]. by rewrite <- Hm, (Hf a s1).
Qed.

Lemma keeps_with_err {A} f (m : M A) : keeps_store m → keeps_store (with_err f m).
Proof. intros Hm s. specialize (Hm s). unfold with_err. by destruct (m s) as [[a|e] s1]. Qed.

Lemma keeps_pure {A} (r : result StoreError A) : keeps_store (pure_result r).
Proof. done. Qed.

Lemma keeps_ret {A} (a : A) : keeps_store (mret a).
Proof. done. Qed.

Lemma keeps_gets {A} (f : Sys → A) : keeps_store (gets f).
Proof. done. Qed.

Lemma fails_clean_bind {A B} (m : M A) (f : A → M B) :
  keeps_store m → (∀ a, fails_clean (f a)) → fails_clean (m ≫= f).
Proof.
  intros Hm Hf s e s'. specialize (Hm s). unfold mbind, stm_bind.
  destruct (m s) as [[a|e1] s1]; simpl in *; [|by intros [= _ <-]].
  intros He. rewrite <- Hm. exact (Hf _ _ _ _ He).
Qed.

#[export] Hint Resolve keeps_lift keeps_bind keeps_with_err keeps_pure keeps_ret keeps_gets
  fails_clean_bind : cmdapi.

(** The journal of a directory, as a string. *)
Definition journal (w : World) (directory : string) : string :=
  default EmptyString (file_content w directory "events.jsonl").

Section store_facts.
Context `{JsonLaws, TimeLib, UuidLib, EncodingLib}.

Lemma persist_Ok r w w' :
  persist r w = (Ok tt, w') →
  file_content w' (dir r) "events.jsonl" = Some (journal w (dir r) +:+ event_line (record_snapshot r)) ∧
  ∀ d f, (d, f) ≠ (dir r, "events.jsonl") → file_content w' d f = file_content w d f.
Proof.
  unfold persist. intros Hp. inv_stm.
  match goal with Ho : open_append _ _ _ = _ |- _ =>
    apply open_append_Ok in Ho as (Hd & _ & Hc & Hother) end.
  apply append_all_Ok in Hp as (Hc' & _ & Hother'); [|done].
  rewrite Hc in Hc'. split; [done|]. intros d f Hne. rewrite Hother', Hother; done.
Qed.

Lemma persist_latest r w w' :
  wf_journal (journal w (dir r)) → persist r w = (Ok tt, w') →
  read_latest_snapshot (file_content w' (dir r) "events.jsonl") = Ok (Some (record_snapshot r)) ∧
  wf_journal (journal w' (dir r)).
Proof.
  intros Hj Hp. apply persist_Ok in Hp as [Hc _]. unfold journal at 1. rewrite Hc. split.
  - by apply read_latest_append.
  - by apply wf_journal_append.
Qed.

(** C16: on a journal of whole lines a [transition] that returns [Ok] is
    durable: reading the journal back gives exactly the snapshot now in memory,
    and the journal is again one of whole lines. The condition holds from
    [create] on as long as no append failed or was cut short;
    [append_after_torn_lost] says what happens after one that was. *)
Theorem transition_durable f r w r' w' :
  wf_journal (journal w (dir r)) →
  transition f r w = (Ok tt, r', w') →
  read_latest_snapshot (file_content w' (dir r) "events.jsonl") = Ok (Some (record_snapshot r')) ∧
  wf_journal (journal w' (dir r)) ∧
  record_snapshot r' = set_output_truncated (truncated r) (f (snap r)).
Proof.
  unfold transition. intros Hj Ht.
  destruct (persist _ w) as [res w1] eqn:Hp. injection Ht as -> <- <-.
  apply persist_latest in Hp as [Hl Hw]; [|done].
  split_and!; [exact Hl|exact Hw|apply record_snapshot_shown].
Qed.

(** C25: what comes after a torn record is lost: when an append was cut
    short, by a crash or a full disk, the next [transition] that returns [Ok]
    does not end the torn line but is glued to it: the journal reads as it did
    before the torn write, and the snapshot now in memory is not in it. The
    line is whole again after that. *)
Theorem append_after_torn_lost c torn n f r w r' w' :
  wf_journal c → (0 < n ≤ String.length (to_vec torn))%nat →
  Utf8.valid (Str.take n (event_line torn)) = true →
  journal w (dir r) = c +:+ Str.take n (event_line torn) →
  transition f r w = (Ok tt, r', w') →
  read_latest_snapshot (file_content w' (dir r) "events.jsonl") = read_latest_snapshot (Some c) ∧
  wf_journal (journal w' (dir r)) ∧
  record_snapshot r' = set_output_truncated (truncated r) (f (snap r)).
Proof.
  unfold transition. intros Hj [Hn Hle] Hu Hc Ht.
  destruct (persist _ w) as [res w1] eqn:Hp. injection Ht as -> <- <-.
  apply persist_Ok in Hp as [Hf _]. change (dir (shown f r)) with (dir r) in Hf.
  rewrite Hc, Str.app_assoc in Hf. unfold event_line at 1 in Hf. unfold event_line in Hu.
  rewrite Str.take_app_le in Hf, Hu by done.
  destruct (read_latest_glued c torn n (record_snapshot (shown f r)) Hj Hn Hu) as [Hl Hw].
  unfold journal. rewrite Hf. split_and!; [exact Hl|exact Hw|apply record_snapshot_shown].
Qed.

(** The record in memory takes the new snapshot even when the journal
    write fails, and a failed write adds only a prefix of the new line. *)
Theorem transition_failure f r w e r' w' :
  transition f r w = (Err e, r', w') →
  snap r' = set_output_truncated (truncated r) (f (snap r)) ∧
  ∃ n, journal w' (dir r) = journal w (dir r) +:+ Str.take n (event_line (record_snapshot r')).
Proof.
  unfold transition. intros Ht. destruct (persist _ w) as [res w1] eqn:Hp.
  injection Ht as -> <- <-. split; [done|]. unfold persist in Hp.
  match type of Hp with (?m ≫= ?k) _ = _ =>
    destruct (m w) as [[[]|e0] w2] eqn:Ho end;
    unfold mbind, stm_bind in Hp; rewrite Ho in Hp.
  - apply open_append_Ok in Ho as (Hd & _ & Hc & _). simpl in *.
    assert (journal w2 (dir r) = journal w (dir r)) as <-; [by unfold journal at 1; rewrite Hc|].
    clear Hc. destruct Hd as [d Hd]. unfold journal, file_content in *. io_unfold.
    destruct (faults w2) as [|[fl|] fs]; simplify_eq/=. rewrite Hd in *. simpl in *.
    rewrite lookup_insert_eq. simpl. rewrite lookup_insert_eq. simpl. eauto.
  - exists 0%nat. rewrite Str.app_nil_r. injection Hp as _ <-. unfold journal, file_content.
    io_unfold. destruct (faults w) as [|[fl|] fs]; simplify_eq/=; try done;
      destruct (dirs w !! dir r) eqn:Hd; simplify_eq/=; by rewrite Hd.
Qed.
End store_facts.

(** ** Creation *)

Section create_facts.
Context `{JsonLaws, TimeLib, UuidLib, EncodingLib}.

(** The files a new task directory holds. *)
Definition initial_files (mode : OutputMode) : gmap string string :=
  match mode with
  | Separate => <[file_name SStderr := EmptyString]> (<[file_name SStdout := EmptyString]> ∅)
  | Combined => <[file_name SCombined := EmptyString]> ∅
  end.

(** [create] up to the journal: the directory and its empty output files. *)
Lemma create_files_Ok (mode : OutputMode) d (s s2 : Sys) (w : World) :
  create_dir d (world s) = (Ok tt, w) →
  (match mode with
   | Separate =>
       _ ← lift (write_empty d (file_name SStdout));
       lift (write_empty d (file_name SStderr))
   | Combined => lift (write_empty d (file_name SCombined))
   end : M unit) (mkSys (store s) w) = (Ok tt, s2) →
  dirs (world s) !! d = None ∧ store s2 = store s ∧
  dirs (world s2) = <[d := initial_files mode]> (dirs (world s)).
Proof.
  intros Hd Hf. apply create_dir_Ok in Hd as [Hn Hd].
  destruct mode; inv_store; simpl in *;
    repeat match goal with Hw : write_empty _ _ _ = _ |- _ =>
      apply write_empty_Ok in Hw as (? & ? & ?) end;
    repeat match goal with Hw : dirs _ = _ |- _ => rewrite Hw in * end;
    rewrite ?lookup_insert_eq in *; simplify_eq; rewrite ?insert_insert_eq; done.
Qed.

(** A successful [create] makes a new directory with empty output files
    and a journal that reads back as the new snapshot, enters the record
    under its UUID and counts one more active task; every other task is as
    before. *)
Lemma create_success i now rt mode enc s r s' :
  create i now rt mode enc s = (Ok r, s') →
  let d := task_directory (root (store s)) i in
  dirs (world s) !! d = None ∧
  r = TaskRecord_new (new_snapshot i now rt mode enc) d ∧
  store s' = set_active (wrapping_add (active_count (store s)) 1)
               (set_tasks (<[i := r]> (tasks (store s))) (store s)) ∧
  read_latest_snapshot (file_content (world s') d "events.jsonl")
    = Ok (Some (new_snapshot i now rt mode enc)) ∧
  wf_journal (journal (world s') d) ∧
  (∀ f, initial_files mode !! f = Some EmptyString → file_content (world s') d f = Some EmptyString).
Proof.
  unfold create. intros Hc. inv_store. cbv zeta.
  match goal with Hd : create_dir _ _ = _ |- _ =>
    eapply (create_files_Ok mode) in Hd as (Hn & Hst & Hdirs); [|eassumption] end.
  match goal with Hp : persist ?r _ = _ |- _ =>
    pose proof Hp as Hj; apply persist_Ok in Hp as [_ Hother];
    apply persist_latest in Hj as [Hj Hwj] end.
  - simpl in *. rewrite Hst. split_and!; try done. intros f Hf. rewrite Hother.
    + unfold file_content. rewrite Hdirs, lookup_insert_eq. done.
    + intros [= ->]. by destruct mode; vm_compute in Hf.
  - unfold journal, file_content. simpl. rewrite Hdirs, lookup_insert_eq. simpl.
    replace (initial_files mode !! "events.jsonl") with (@None string) by (by destruct mode).
    apply wf_journal_nil.
Qed.

(** A [create] that fails, at whatever file operation, leaves the table
    of tasks and the number of active tasks unchanged. *)
Lemma create_failure i now rt mode enc s e s' :
  create i now rt mode enc s = (Err e, s') → store s' = store s.
Proof.
  revert s e s'. change (fails_clean (create i now rt mode enc)). unfold create.
  apply fails_clean_bind; [auto with cmdapi|]. intros rt0.
  apply fails_clean_bind; [auto with cmdapi|]. intros _.
  apply fails_clean_bind; [destruct mode; auto with cmdapi|]. intros _.
  apply fails_clean_bind; [auto with cmdapi|]. intros _ s e s' He. done.
Qed.
End create_facts.

(** ** Recovery *)

Section recovery.
Context `{JsonLaws, TimeLib, UuidLib, EncodingLib}.

Definition all_finished (st : TaskStore) : Prop :=
  map_Forall (λ _ r, is_finished (status (snap r)) = true) (tasks st).

(** Records are filed under their own UUID. *)
Definition keyed (st : TaskStore) : Prop := map_Forall (λ i r, id r = i) (tasks st).

Lemma interrupt_finished now s : is_finished (status (interrupt now s)) = true.
Proof. unfold interrupt. by destruct (is_finished (status s)) eqn:Hf. Qed.

Lemma interrupt_finished_id now s : is_finished (status s) = true → interrupt now s = s.
Proof. unfold interrupt. by intros ->. Qed.

Lemma refresh_fields r w r' w' :
  refresh_output_sizes r w = (Ok r', w') →
  id r' = id r ∧ dir r' = dir r ∧ snap r' = snap r ∧ truncated r' = truncated r ∧ stop r' = stop r.
Proof. unfold refresh_output_sizes. intros Hr. inv_stm. done. Qed.

Lemma refresh_keeps r w r' w' : refresh_output_sizes r w = (Ok r', w') → dirs w' = dirs w.
Proof.
  unfold refresh_output_sizes, file_size. intros Hr. inv_stm.
  repeat match goal with H : next_fault ?w = (_, ?w') |- _ =>
    assert (dirs w' = dirs w) by (unfold next_fault in H; destruct (faults w); by simplify_eq); clear H end.
  congruence.
Qed.

(** What one recovered directory adds to the table. *)
Lemma recover_directory_Ok now d s u s' :
  recover_directory now d s = (Ok u, s') →
  store s' = store s ∧
    read_latest_snapshot (file_content (world s) d "events.jsonl") = Ok None ∨
  ∃ sn r, store s' = set_tasks (<[id r := r]> (tasks (store s))) (store s) ∧
    read_latest_snapshot (file_content (world s) d "events.jsonl") = Ok (Some sn) ∧
    snap r = interrupt now sn ∧ id r = task_id sn ∧ truncated r = false ∧ dir r = d.
Proof.
  unfold recover_directory. intros Hr. inv_stm.
  match goal with H : read_journal _ _ = _ |- _ => rename H into Hj end.
  unfold read_journal in Hj.
  destruct (read_file d "events.jsonl" (world s)) as [[c|[m|m]] w0] eqn:Hf; simplify_eq/=.
  - destruct (map_err _ _) as [o|] eqn:Hm; simplify_eq/=. inv_ok.
    assert (file_content (world s) d "events.jsonl" = Some c) as Hc.
    { by apply read_file_Ok in Hf. }
    destruct x as [sn|]; inv_store; [|left; by rewrite Hc].
    match goal with Hx : refresh_output_sizes _ _ = _ |- _ =>
      apply refresh_fields in Hx as (Hi & Hdir & Hsn & Htr & _) end.
    right. exists sn. eexists. simpl in *. rewrite Hi, Hdir, Hsn, Htr, Hc. simpl.
    split_and!; try done.
    + destruct (bool_decide _); inv_store; by rewrite Hi.
    + rewrite Hi. unfold interrupt. destruct (is_finished (status sn)); reflexivity.
  - inv_stm. left. apply read_file_NotFound in Hf. by rewrite Hf.
Qed.

(** Recovery of a directory touches no file of another one. *)
Lemma recover_directory_frame now d s u s' d' f :
  recover_directory now d s = (Ok u, s') → d' ≠ d → file_content (world s') d' f = file_content (world s) d' f.
Proof.
  unfold recover_directory. intros Hr Hd. inv_stm.
  match goal with H : read_journal _ _ = _ |- _ => rename H into Hj end.
  assert (file_content (world s0) d' f = file_content (world s) d' f) as Hs0.
  { unfold read_journal in Hj. pose proof (read_file_keeps d "events.jsonl" (world s)) as Hk.
    destruct (read_file _ _ _) as [[c|[m|m]] w]; simplify_eq/=; unfold file_content; by rewrite Hk. }
  destruct x as [sn|]; inv_store; [|done].
  match goal with Hx : refresh_output_sizes _ _ = (Ok ?r, ?w1) |- _ =>
    pose proof (refresh_fields _ _ _ _ Hx) as (_ & Hdir & _); pose proof (refresh_keeps _ _ _ _ Hx) as Hk end.
  rewrite <- Hs0. simpl in *. destruct (bool_decide _); inv_store; simpl; [|unfold file_content; by rewrite Hk].
  match goal with Hp : persist _ _ = _ |- _ => apply persist_Ok in Hp as [_ Hother] end.
  rewrite Hother by congruence. simpl. unfold file_content. by rewrite Hk.
Qed.

(** What recovery makes of a directory: the record of the last readable
    snapshot, as it was if the task had ended, and interrupted now if not. *)
Definition recovered (now : Z) (entries : list (string * bool)) (w : World) (i : Uuid) (r : TaskRecord) : Prop :=
  ∃ sn, (dir r, true) ∈ entries ∧
    read_latest_snapshot (file_content w (dir r) "events.jsonl") = Ok (Some sn) ∧
    task_id sn = i ∧ truncated r = false ∧
    if is_finished (status sn) then snap r = sn
    else status (snap r) = Interrupted ∧ finished_at (snap r) = Some (now_rfc3339 now) ∧
         is_Some (error (snap r)) ∧
         snap r = set_error (error (snap r)) (set_finished_at (finished_at (snap r)) (set_status Interrupted sn)).

Lemma interrupt_recovered now sn v :
  v = interrupt now sn →
  if is_finished (status sn) then v = sn
  else status v = Interrupted ∧ finished_at v = Some (now_rfc3339 now) ∧ is_Some (error v) ∧
       v = set_error (error v) (set_finished_at (finished_at v) (set_status Interrupted sn)).
Proof.
  intros ->. destruct (is_finished (status sn)) eqn:Hf; [by apply interrupt_finished_id|].
  unfold interrupt. rewrite Hf. destruct sn. simpl. split_and!; [done|done|by eexists|done].
Qed.

Lemma recover_retention now entries s u s' :
  recover now entries s = (Ok u, s') → retention (store s') = retention (store s).
Proof.
  revert s. induction entries as [|[d k] entries IH]; intros s; simpl; intros Hr; inv_stm; [done|].
  match goal with H : (if _ then _ else _) _ = _ |- _ => rename H into Hdir end. rewrite (IH _ Hr).
  destruct k; [|by inv_stm].
  by apply recover_directory_Ok in Hdir as [[-> _]|(sn & r & -> & _)].
Qed.

(** The table after a recovery: what it was, and what the directories held. *)
Lemma recover_table now entries s u s' :
  recover now entries s = (Ok u, s') → NoDup (entries.*1) → ∀ i,
  match tasks (store s') !! i with
  | Some r => tasks (store s) !! i = Some r ∨ recovered now entries (world s) i r
  | None => tasks (store s) !! i = None ∧
      ∀ d sn, (d, true) ∈ entries → 
        read_latest_snapshot (file_content (world s) d "events.jsonl") = Ok (Some sn) → task_id sn ≠ i
  end.
Proof.
  revert s. induction entries as [|[d k] entries IH]; intros s; simpl.
  { intros Hr _ i. inv_stm. destruct (tasks _ !! i); [by left|]. split; [done|]. intros d sn Hin. by apply not_elem_of_nil in Hin. }
  intros Hr Hnd i. inv_stm. match goal with H : (if _ then _ else _) _ = _ |- _ => rename H into Hdir end.
  apply NoDup_cons in Hnd as [Hnew Hnd]. specialize (IH _ Hr Hnd i).
  assert (∀ d' f, (d', true) ∈ entries → file_content (world s0) d' f = file_content (world s) d' f) as Hframe.
  { intros d' f Hin. destruct k; [|by inv_stm]. eapply recover_directory_frame; [exact Hdir|].
    intros ->. apply Hnew. apply list_elem_of_fmap. by exists (d, true). }
  assert (∀ r, recovered now entries (world s0) i r → recovered now ((d, k) :: entries) (world s) i r) as Hmono.
  { intros r (sn & Hin & Hl & Hrest). exists sn. rewrite <- Hframe by done. split_and!; [by right|done|apply Hrest..]. }
  destruct k; [|inv_stm; destruct (tasks (store s') !! i); [destruct IH as [?|?]; [by left|right; auto]|];
    destruct IH as [? IH]; split; [done|]; intros d' sn [[= ]|Hin]%elem_of_cons; eauto].
  apply recover_directory_Ok in Hdir as [[Hst Hn]|(sn & r & Hst & Hl & Hsn & Hid & Htr & Hd)]; rewrite Hst in IH.
  - destruct (tasks (store s') !! i); [destruct IH as [?|?]; [by left|right; auto]|].
    destruct IH as [? IH]. split; [done|]. intros d' sn' [[= ->]|Hin]%elem_of_cons Hl'; [congruence|].
    rewrite <- (Hframe d') in Hl' by done. eauto.
  - simpl in IH. destruct (tasks (store s') !! i) as [r'|] eqn:Hr'.
    + destruct IH as [IH|IH]; [|right; auto]. apply lookup_insert_Some in IH as [[<- ->]|[_ IH]]; [right|by left].
      exists sn. rewrite Hd. split_and!; [by left|done|done|done|by apply interrupt_recovered].
    + destruct IH as [Hnone IH]. apply lookup_insert_None in Hnone as [Hnone Hne]. split; [done|].
      intros d' sn' [[= ->]|Hin]%elem_of_cons Hl'; [congruence|]. rewrite <- (Hframe d') in Hl' by done. eauto.
Qed.

Lemma recover_inv now entries s u s' :
  recover now entries s = (Ok u, s') →
  all_finished (store s) → keyed (store s) →
  all_finished (store s') ∧ keyed (store s') ∧ active_count (store s') = active_count (store s).
Proof.
  revert s. induction entries as [|[d k] entries IH]; intros s; simpl.
  - intros Hr. by inv_stm.
  - intros Hr Hf Hk. inv_stm.
    match goal with H : (if _ then _ else _) _ = _ |- _ => rename H into Hdir end.
    destruct k; [|inv_stm; by apply (IH _ Hr)].
    apply recover_directory_Ok in Hdir as [[Hst _]|(sn & r & Hst & _ & Hsn & _ & _ & _)];
      apply IH in Hr; rewrite ?Hst in *; simpl in *; try done.
    + apply map_Forall_insert_2; [|done]. rewrite Hsn. apply interrupt_finished.
    + by apply map_Forall_insert_2.
Qed.
End recovery.

(** ** Expiry *)

Section expiry.
Context `{SnapshotJson, TimeLib, UuidLib, EncodingLib}.

Lemma remove_task_spec i s :
  ∃ w, remove_task i s =
    (Ok tt, mkSys (set_tasks (delete i (tasks (store s))) (store s)) w).
Proof.
  unfold remove_task, mbind, stm_bind, gets, get. destruct (tasks (store s) !! i) as [r|] eqn:Hi.
  - simpl. unfold ignore, lift, mret, stm_ret. simpl.
    destruct (remove_dir_all (dir r) (world s)) as [[]]; simpl; eauto.
  - exists (world s). rewrite delete_id by done. by destruct s as [[]].
Qed.

Lemma remove_tasks_spec ids s :
  ∃ w st, remove_tasks ids s = (Ok tt, mkSys st w) ∧
    active_count st = active_count (store s) ∧ retention st = retention (store s) ∧
    ∀ i, tasks st !! i = if bool_decide (i ∈ ids) then None else tasks (store s) !! i.
Proof.
  revert s. induction ids as [|j ids IH]; intros s.
  - exists (world s), (store s). by destruct s.
  - simpl. destruct (remove_task_spec j s) as (w1 & Hr).
    unfold mbind, stm_bind. rewrite Hr.
    destruct (IH (mkSys (set_tasks (delete j (tasks (store s))) (store s)) w1))
      as (w & st & -> & Ha & Hret & Hl).
    exists w, st. split_and!; [done..|]. intros i. rewrite Hl. simpl.
    destruct (decide (i = j)) as [->|Hne].
    + rewrite lookup_delete_eq, (bool_decide_eq_true_2 (j ∈ j :: ids)) by set_solver. by case_match.
    + rewrite lookup_delete_ne by done.
      by rewrite (bool_decide_ext (i ∈ ids) (i ∈ j :: ids)) by set_solver.
Qed.

Lemma expired_ids_spec now st i r :
  keyed st → tasks st !! i = Some r →
  (i ∈ expired_ids now st ↔ expired now (retention st) (snap r) = true).
Proof.
  intros Hk Hi. unfold expired_ids. rewrite list_elem_of_omap. split.
  - intros ([j q] & Hin & Heq). apply elem_of_map_to_list in Hin as Hj.
    destruct (expired now (retention st) (snap q)) eqn:E; simplify_eq.
    apply Hk in Hj as Hid. simpl in Hid. subst j. congruence.
  - intros He. exists (i, r). split; [by apply elem_of_map_to_list|]. rewrite He.
    f_equal. by apply Hk in Hi.
Qed.

Lemma cleanup_expired_tasks now s :
  keyed (store s) →
  ∃ s', cleanup_expired now s = (Ok tt, s') ∧
    active_count (store s') = active_count (store s) ∧ retention (store s') = retention (store s) ∧
    ∀ i, tasks (store s') !! i =
      match tasks (store s) !! i with
      | Some r => if expired now (retention (store s)) (snap r) then None else Some r
      | None => None
      end.
Proof.
  intros Hk. unfold cleanup_expired, mbind, stm_bind, gets.
  destruct (remove_tasks_spec (expired_ids now (store s)) s) as (w & st & -> & Ha & Hret & Hl).
  eexists. split_and!; [done..|]. simpl. intros i. rewrite Hl.
  destruct (tasks (store s) !! i) as [r|] eqn:Hi; [|by case_match].
  pose proof (expired_ids_spec now (store s) i r Hk Hi) as He.
  destruct (expired now (retention (store s)) (snap r)).
  - rewrite bool_decide_eq_true_2; [done|]. by apply He.
  - rewrite bool_decide_eq_false_2; [done|]. intros Hin. by apply He in Hin.
Qed.

(** A task is expired exactly when it has a readable end time at least as many
    whole seconds in the past as the retention, read as a signed number. *)
Lemma expired_spec now ret s :
  expired now ret s = true ↔
  ∃ f t secs, finished_at s = Some f ∧ rfc3339_parse f = Some t ∧
    (ret ≤ I64_MAX ∧ secs = ret ∨ I64_MAX < ret ∧ secs = ret - 2 ^ 64) ∧
    secs ≤ Z.quot (now - t) Instants.NANOS.
Proof.
  unfold expired, as_i64. destruct (finished_at s) as [f|]; simpl; [|by split; [|intros (? & ? & ? & ? & _)]].
  destruct (rfc3339_parse f) as [t|] eqn:Hp.
  - rewrite Z.leb_le. split.
    + intros Hq. exists f, t, (if ret <=? I64_MAX then ret else ret - 2 ^ 64). split_and!; [done..| |done].
      destruct (Z.leb_spec ret I64_MAX); [by left|by right].
    + intros (f' & t' & secs & [= <-] & Ht & Hs & Hq). simplify_eq.
      destruct (Z.leb_spec ret I64_MAX), Hs as [[? ->]|[? ->]]; lia.
  - split; [done|]. intros (f' & t' & ? & [= <-] & ? & ?). congruence.
Qed.

(** C33: [cleanup_expired] never fails, whatever happens to the files, and
    removes exactly the tasks with a readable end that lies at least
    [retention_seconds] whole seconds in the past, where [retention_seconds] is
    read as a signed 64-bit number: up to [I64_MAX] it is itself, above it is
    negative. Every other task, in particular every task that has not ended, and
    the number of active tasks stay as they are. *)
Theorem cleanup_expired_spec now s :
  keyed (store s) →
  ∃ s', cleanup_expired now s = (Ok tt, s') ∧
    active_count (store s') = active_count (store s) ∧
    ∀ i r, tasks (store s') !! i = Some r ↔
      tasks (store s) !! i = Some r ∧
      ¬ ∃ f t secs, finished_at (snap r) = Some f ∧ rfc3339_parse f = Some t ∧
          (retention (store s) ≤ I64_MAX ∧ secs = retention (store s) ∨
           I64_MAX < retention (store s) ∧ secs = retention (store s) - 2 ^ 64) ∧
          secs ≤ Z.quot (now - t) Instants.NANOS.
Proof.
  intros Hk. destruct (cleanup_expired_tasks now s Hk) as (s' & Hc & Ha & _ & Hl).
  exists s'. split_and!; [done..|]. intros i r. rewrite Hl.
  destruct (tasks (store s) !! i) as [r0|]; [|by split; [|intros [? _]]].
  destruct (expired now _ (snap r0)) eqn:He.
  - split; [done|]. intros [[= ->] Hn]. by apply expired_spec in He.
  - split; [|by intros [? _]]. intros [= ->]. split; [done|]. intros Hx%expired_spec. congruence.
Qed.

(** The periodic cleanup never fails and keeps exactly the tasks that were
    within their retention at every tick; one that has not ended is always
    among them. *)
Lemma spawn_cleanup_spec ticks s :
  keyed (store s) →
  ∃ s', spawn_cleanup ticks s = (Ok tt, s') ∧
    active_count (store s') = active_count (store s) ∧
    ∀ i r, tasks (store s') !! i = Some r ↔
      tasks (store s) !! i = Some r ∧ Forall (λ now, expired now (retention (store s)) (snap r) = false) ticks.
Proof.
  revert s. induction ticks as [|now ticks IH]; intros s Hk; simpl.
  { exists s. split_and!; [done|done|]. intros i r. by split; [|intros [? _]]. }
  destruct (cleanup_expired_tasks now s Hk) as (s1 & Hc & Ha & Hret & Hl).
  assert (keyed (store s1)) as Hk1.
  { intros i r Hi. rewrite Hl in Hi. destruct (tasks (store s) !! i) eqn:Hs; [|done]. case_match; simplify_eq.
    by apply (Hk i). }
  destruct (IH s1 Hk1) as (s2 & Hs2 & Ha2 & Hl2). exists s2. unfold ignore, mbind, stm_bind. rewrite Hc. simpl.
  split_and!; [done|congruence|]. intros i r. rewrite Hl2, Hl, Hret, Forall_cons.
  destruct (tasks (store s) !! i) as [r0|]; [|by split; intros [? _]].
  destruct (expired now _ (snap r0)) eqn:He.
  - split; [by intros [? _]|]. intros ([= ->] & Hn & _). congruence.
  - split; [intros ([= ->] & Hf)|intros ([= ->] & _ & Hf)]; by split_and!.
Qed.

(** A retention above the signed range is read as a negative number: the
    largest accepted [retention_seconds] makes a task expire the moment it
    ends. *)
Theorem retention_overflow_expires now s f :
  finished_at s = Some f → rfc3339_parse f = Some now → expired now U64_MAX s = true.
Proof.
  intros Hf Hp. unfold expired. rewrite Hf. simpl. rewrite Hp, Z.sub_diag. done.
Qed.
End expiry.

(** ** Opening the store *)

Section opening.
Context `{JsonLaws, TimeLib, UuidLib, EncodingLib}.

(** A journal whose last record was cut inside a multi-byte character
    (a crash or a full disk during a write) is not skipped like other
    damaged records: the whole store refuses to open. *)
Theorem torn_character_blocks_open root ret max entries now1 now2 w d c p :
  faults w = [] → wf_journal c → Str.contains [LF] p = false → Utf8.valid p = false →
  file_content w d "events.jsonl" = Some (c +:+ p) →
  (open_store root ret max true true true ((d, true) :: entries) now1 now2 w).1
    = Err (JournalUnreadable InvalidUtf8).
Proof.
  intros Hw Hj Hp Hu Hc. unfold open_store, mbind, stm_bind, pure_result. simpl.
  unfold recover_directory, read_journal, mbind, stm_bind. simpl.
  rewrite (read_file_no_fault _ _ _ (c +:+ p)) by done.
  pose proof (read_latest_torn_utf8 c p) as Ht. simpl in *. by rewrite Ht.
Qed.

(** The table of a store that was opened. *)
Lemma open_store_table root ret max mk lf lk entries now1 now2 w s :
  open_store root ret max mk lf lk entries now1 now2 w = (Ok tt, s) → NoDup (entries.*1) → ∀ i,
  match tasks (store s) !! i with
  | Some r => recovered now1 entries w i r ∧ expired now2 ret (snap r) = false
  | None => ∀ d sn, (d, true) ∈ entries →
      read_latest_snapshot (file_content w d "events.jsonl") = Ok (Some sn) → task_id sn = i →
      ∃ r, recovered now1 entries w i r ∧ expired now2 ret (snap r) = true
  end.
Proof.
  unfold open_store. intros Ho Hnd i. inv_store.
  match goal with Hr : recover _ _ _ = _ |- _ => rename Hr into Hrec end.
  pose proof (recover_inv _ _ _ _ _ Hrec (map_Forall_empty _) (map_Forall_empty _)) as (_ & Hk & _).
  pose proof (recover_retention _ _ _ _ _ Hrec) as Hret. simpl in Hret.
  pose proof (recover_table _ _ _ _ _ Hrec Hnd i) as Ht. simpl in Ht.
  match goal with Hc : cleanup_expired _ ?s0 = _ |- _ =>
    destruct (cleanup_expired_tasks now2 s0 Hk) as (s2 & Hc2 & _ & _ & Hl) end.
  rewrite Hc2 in Ho. injection Ho as <-. rewrite Hl, Hret.
  match goal with |- context [tasks (store ?s1) !! i] => destruct (tasks (store s1) !! i) as [r|] end.
  - destruct Ht as [Ht|Ht]; [done|]. destruct (expired now2 ret (snap r)) eqn:He; [|by split].
    intros d sn _ _ _. by exists r.
  - destruct Ht as [_ Ht]. intros d sn Hin Hlat Hid. by destruct (Ht d sn Hin Hlat).
Qed.

Lemma open_store_inv root ret max mk lf lk entries now1 now2 w s :
  open_store root ret max mk lf lk entries now1 now2 w = (Ok tt, s) →
  all_finished (store s) ∧ keyed (store s) ∧ active_count (store s) = 0.
Proof.
  unfold open_store. intros Ho. inv_store.
  match goal with Hr : recover _ _ _ = _ |- _ =>
    apply recover_inv in Hr as (Hf & Hk & Ha); [|apply map_Forall_empty..] end.
  match goal with Hc : cleanup_expired _ ?s0 = _ |- _ =>
    destruct (cleanup_expired_tasks now2 s0 Hk) as (s2 & Hc2 & Ha2 & _ & Hl) end.
  rewrite Hc2 in Ho. injection Ho as <-. simpl in Ha.
  split_and!; [..|congruence]; intros i r Hi; rewrite Hl in Hi;
    repeat case_match; simplify_eq; [by apply (Hf i) | by apply (Hk i)].
Qed.

(** C21: after [TaskStore::open] has succeeded no task is unfinished, none is
    counted as active, and the table is exactly what the task directories (of
    distinct names) held, less what has expired: a task that had ended is there
    with its last readable snapshot, one that had not is [Interrupted] with an
    error and the time of the start as its end and is otherwise as it was. *)
Theorem open_store_finished root ret max mk lf lk entries now1 now2 w s :
  open_store root ret max mk lf lk entries now1 now2 w = (Ok tt, s) → NoDup (entries.*1) →
  all_finished (store s) ∧ keyed (store s) ∧ active_count (store s) = 0 ∧ ∀ i,
  match tasks (store s) !! i with
  | Some r => recovered now1 entries w i r ∧ expired now2 ret (snap r) = false
  | None => ∀ d sn, (d, true) ∈ entries →
      read_latest_snapshot (file_content w d "events.jsonl") = Ok (Some sn) → task_id sn = i →
      ∃ r, recovered now1 entries w i r ∧ expired now2 ret (snap r) = true
  end.
Proof.
  intros Ho Hnd. pose proof (open_store_inv _ _ _ _ _ _ _ _ _ _ _ Ho) as (? & ? & ?).
  split_and!; [done..|]. by eapply open_store_table.
Qed.

(** A task that had ended is recovered with the snapshot of its journal,
    except that its truncation mark is gone: the API reports
    [output_truncated: false] for a task whose output was truncated. *)
Theorem recovered_truncation_lost now d s u s' sn :
  recover_directory now d s = (Ok u, s') →
  tasks (store s) = ∅ →
  read_latest_snapshot (file_content (world s) d "events.jsonl") = Ok (Some sn) →
  is_finished (status sn) = true →
  ∃ r, tasks (store s') = {[task_id sn := r]} ∧
    record_snapshot r = set_output_truncated false sn.
Proof.
  intros Hr He Hl Hf.
  apply recover_directory_Ok in Hr as [[_ Hn]|(sn' & r & Hst & Hl' & Hsn & Hid & Htr & _)].
  - congruence.
  - exists r. assert (sn' = sn) as -> by congruence.
    split; [by rewrite Hst, He; simpl; rewrite Hid, insert_empty|].
    unfold record_snapshot. by rewrite Htr, Hsn, interrupt_finished_id.
Qed.
End opening.

(** ** Reading the output in pages *)

Section paging.
Context `{SnapshotJson, TimeLib, UuidLib, EncodingLib}.

(** The bytes of the file a chunk stands for. *)
Definition slice (content : string) (from to : Z) : string :=
  Str.take (Z.to_nat (to - from)) (Str.drop (Z.to_nat from) content).

Definition chunk_bytes (content : string) (c : OutputChunk) : string :=
  slice content (c_offset c) (next_offset c).

(** [output_chunk] when no file operation fails: every check in order, then
    the chunk. *)
Lemma output_chunk_eval i stream offset limit s r content :
  faults (world s) = [] → tasks (store s) !! i = Some r →
  stream_mode_ok (output_mode (snap r)) stream = Ok tt →
  file_content (world s) (dir r) (file_name stream) = Some content →
  1 ≤ limit ≤ MAX_LIMIT → offset ≤ Str.len content →
  output_chunk i stream offset limit s = (Ok (chunk_of r i stream offset limit content), s).
Proof.
  intros Hw Hi Hm Hc Hl Ho. unfold output_chunk, mbind, stm_bind, pure_result, gets.
  replace ((limit =? 0) || (MAX_LIMIT <? limit)) with false by lia. simpl.
  unfold get. rewrite Hi. simpl. rewrite Hm. unfold with_err, lift.
  rewrite (read_file_no_fault _ _ _ content) by done. destruct s as [st w]. simpl in *.
  rewrite checked_no_fault by done. simpl.
  replace (Str.len content <? offset) with false by lia. simpl.
  rewrite checked_no_fault by done. simpl. by rewrite checked_no_fault.
Qed.

Lemma chunk_of_fields r i stream offset limit content :
  0 ≤ offset ≤ Str.len content → 1 ≤ limit →
  let n := read_length (output_encoding (snap r)) offset limit (Str.len content) in
  let c := chunk_of r i stream offset limit content in
  0 ≤ n ≤ Z.min limit (Str.len content - offset) ∧
  c_offset c = offset ∧ next_offset c = offset + n ∧
  eof c = is_finished (status (snap r)) && (Str.len content <=? offset + n) ∧
  Model.content c = (decode (output_encoding (snap r)) (chunk_bytes content c)).1 ∧
  decoding_errors c = (decode (output_encoding (snap r)) (chunk_bytes content c)).2 ∧
  content_base64 c = (if decoding_errors c then Some (base64_encode (chunk_bytes content c)) else None).
Proof.
  intros Ho Hl n c.
  assert (0 ≤ n ≤ Z.min limit (Str.len content - offset)) as Hn.
  { subst n. unfold read_length. destruct (bool_decide _); simpl; [|lia].
    destruct (Z.odd (Z.min limit (Str.len content - offset))) eqn:E; [|lia].
    assert (Z.min limit (Str.len content - offset) ≠ 0) by (intros E'; by rewrite E' in E). lia. }
  assert (Str.len (Str.take (Z.to_nat n) (Str.drop (Z.to_nat offset) content)) = n) as Hlen.
  { unfold Str.len in *. rewrite Str.length_take, Str.length_drop. lia. }
  assert (c_offset c = offset ∧ next_offset c = offset + n) as [Hoff Hnext].
  { subst c. unfold chunk_of. fold n.
    destruct (decode_output _ _) as [text errors]. simpl. by rewrite Hlen. }
  split_and!; [lia..|done|done| | | |];
    unfold chunk_bytes, slice; rewrite ?Hoff, ?Hnext; replace (offset + n - offset) with n by lia;
    subst c; unfold chunk_of, decode_output; fold n; rewrite Hlen;
    destruct (decode _ _) as [text errors]; simpl; done.
Qed.

(** A client that asks for chunk after chunk until [eof]; [None] when the
    fuel runs out or a request fails. *)
Fixpoint fetch_all (fuel : nat) (i : Uuid) (stream : OutputStream) (limit offset : Z) (s : Sys)
    : option (list OutputChunk) :=
  match fuel with
  | O => None
  | S fuel =>
      match output_chunk i stream offset limit s with
      | (Err _, _) => None
      | (Ok c, s) =>
          if eof c then Some [c]
          else cs ← fetch_all fuel i stream limit (next_offset c) s; Some (c :: cs)
      end
  end.

(** The chunk is the part of the file it says, of at most [limit] bytes: the
    returned text is the decoding of exactly these bytes, which come along
    whenever it was lossy. *)
Definition faithful (enc : OutputEncoding) (limit : Z) (content : string) (c : OutputChunk) : Prop :=
  let bytes := chunk_bytes content c in
  0 ≤ c_offset c ≤ next_offset c ∧ next_offset c ≤ Z.min (c_offset c + limit) (Str.len content) ∧
  Model.content c = (decode enc bytes).1 ∧ decoding_errors c = (decode enc bytes).2 ∧
  content_base64 c = (if (decode enc bytes).2 then Some (base64_encode bytes) else None).

(** Chunks that follow each other from an offset to the end of the file; only
    the last one says that it is. *)
Fixpoint tiles (enc : OutputEncoding) (limit : Z) (content : string) (from : Z) (cs : list OutputChunk) : Prop :=
  match cs with
  | [] => False
  | c :: cs =>
      c_offset c = from ∧ faithful enc limit content c ∧
      match cs with
      | [] => eof c = true ∧ next_offset c = Str.len content
      | _ => eof c = false ∧ tiles enc limit content (next_offset c) cs
      end
  end.

Definition concat_bytes (content : string) (cs : list OutputChunk) : string :=
  foldr (λ c acc, chunk_bytes content c +:+ acc) EmptyString cs.

Lemma chunk_of_faithful r i stream offset limit content :
  0 ≤ offset ≤ Str.len content → 1 ≤ limit →
  faithful (output_encoding (snap r)) limit content (chunk_of r i stream offset limit content).
Proof.
  intros Ho Hl. destruct (chunk_of_fields r i stream offset limit content) as (Hn & Hoff & Hnext & _ & Ht & He & Hb);
    [done..|]. unfold faithful. rewrite Ht, <- He. split_and!; [lia|lia|lia|done|done|done].
Qed.

(** A chunk makes progress on [rem] remaining bytes. *)
Definition advances (enc : OutputEncoding) (limit rem : Z) : Prop :=
  enc ≠ Utf16le ∧ 1 ≤ limit ∨ 2 ≤ limit ∧ Z.even rem = true.

Lemma read_length_advances enc offset limit size :
  offset < size → advances enc limit (size - offset) →
  1 ≤ read_length enc offset limit size ∧
  advances enc limit (size - (offset + read_length enc offset limit size)).
Proof.
  intros Ho Ha. unfold read_length, advances in *. case_bool_decide as He; simpl.
  - destruct Ha as [[? ?]|[Hl Hev]]; [done|].
    assert (Z.odd (size - offset) = false) as Hod by (rewrite <- Z.negb_even, Hev; done).
    destruct (Z.odd (Z.min limit (size - offset))) eqn:E.
    + destruct (Z.min_spec limit (size - offset)) as [[? Em]|[? Em]]; rewrite Em in *; [|congruence].
      split; [lia|]. right. split; [done|].
      replace (size - (offset + (limit - 1))) with (size - offset - limit + 1) by lia.
      rewrite Z.even_add, Z.even_sub, Hev, <- Z.negb_odd, E. done.
    + split; [lia|]. right. split; [done|].
      replace (size - (offset + Z.min limit (size - offset)))
        with (size - offset - Z.min limit (size - offset)) by lia.
      by rewrite Z.even_sub, Hev, <- Z.negb_odd, E.
  - destruct Ha as [[? ?]|[Hl Hev]]; (split; [lia|left; split; [done|lia]]).
Qed.

Lemma slice_drop content offset next :
  0 ≤ offset ≤ next → next ≤ Str.len content →
  slice content offset next +:+ Str.drop (Z.to_nat next) content
    = Str.drop (Z.to_nat offset) content.
Proof.
  intros Ho Hn. unfold slice.
  replace (Z.to_nat next) with (Z.to_nat offset + Z.to_nat (next - offset))%nat by lia.
  rewrite <- Str.drop_drop. apply Str.take_drop.
Qed.

Context (i : Uuid) (stream : OutputStream) (limit : Z) (s : Sys) (r : TaskRecord) (content : string).
Context (Hw : faults (world s) = []) (Hi : tasks (store s) !! i = Some r).
Context (Hm : stream_mode_ok (output_mode (snap r)) stream = Ok tt).
Context (Hc : file_content (world s) (dir r) (file_name stream) = Some content).
Context (Hl : 1 ≤ limit ≤ MAX_LIMIT) (Hfin : is_finished (status (snap r)) = true).

Lemma fetch_all_from fuel offset :
  0 ≤ offset ≤ Str.len content → Str.len content - offset < Z.of_nat fuel →
  advances (output_encoding (snap r)) limit (Str.len content - offset) →
  ∃ cs, fetch_all fuel i stream limit offset s = Some cs ∧
    tiles (output_encoding (snap r)) limit content offset cs ∧
    concat_bytes content cs = Str.drop (Z.to_nat offset) content.
Proof using Hw Hi Hm Hc Hl Hfin.
  revert offset. induction fuel as [|fuel IH]; intros offset Ho Hf Ha; [lia|].
  cbn [fetch_all]. rewrite (output_chunk_eval i stream offset limit s r content) by (done || lia).
  destruct (chunk_of_fields r i stream offset limit content) as (Hn & Hoff & Hnext & Heof & _); [done|lia|].
  pose proof (chunk_of_faithful r i stream offset limit content Ho (proj1 Hl)) as Hfaith.
  set (n := read_length _ _ _ _) in *. set (c := chunk_of _ _ _ _ _ _) in *.
  rewrite Heof, Hfin. simpl. destruct (Z.leb_spec (Str.len content) (offset + n)).
  - exists [c]. split; [done|]. split.
    { simpl. rewrite Heof, Hfin, Hnext, Hoff. split_and!; [done|done|simpl; lia|lia]. }
    simpl. rewrite Str.app_nil_r. unfold chunk_bytes. rewrite Hoff, Hnext. rewrite <- (slice_drop content offset (offset + n)) by lia.
    rewrite (Str.drop_all (Z.to_nat (offset + n))), Str.app_nil_r; [done|].
    unfold Str.len in *. lia.
  - destruct (read_length_advances (output_encoding (snap r)) offset limit (Str.len content))
      as [Hpos Ha']; [lia|done|]. fold n in Hpos, Ha'.
    destruct (IH (offset + n)) as (cs & Hcs & Ht & Hcat); [lia..|done|].
    rewrite Hnext, Hcs. exists (c :: cs). split; [done|]. split.
    { destruct cs as [|c' cs]; [done|]. rewrite <- Hnext in Ht. split; [done|]. split; [done|].
      split; [|exact Ht]. rewrite Heof, Hfin. simpl. lia. }
    simpl. rewrite Hcat.
    unfold chunk_bytes. rewrite Hoff, Hnext. apply slice_drop; lia.
Qed.
End paging.

Section paging_theorems.
Context `{SnapshotJson, TimeLib, UuidLib, EncodingLib}.

(** C24: paging terminates, tells the truth and loses nothing: a client that
    fetches a stream of a finished task chunk by chunk until [eof] gets, within
    one request per byte plus one, chunks that tile the file: each starts where
    the one before ended, its text is the decoding of exactly its bytes, which
    are attached when the decoding was lossy, and only the last one, which ends
    with the file, has [eof]. The conditions are that no file operation fails
    and, for UTF-16 output, a limit of at least two bytes and a file of even
    size. *)
Theorem paging_complete i stream limit s r content :
  faults (world s) = [] → tasks (store s) !! i = Some r →
  stream_mode_ok (output_mode (snap r)) stream = Ok tt →
  file_content (world s) (dir r) (file_name stream) = Some content →
  1 ≤ limit ≤ MAX_LIMIT → is_finished (status (snap r)) = true →
  (output_encoding (snap r) = Utf16le → 2 ≤ limit ∧ Z.even (Str.len content) = true) →
  ∃ cs, fetch_all (S (String.length content)) i stream limit 0 s = Some cs ∧
    tiles (output_encoding (snap r)) limit content 0 cs ∧
    concat_bytes content cs = content.
Proof.
  intros Hw Hi Hm Hc Hl Hfin Henc. pose proof (Str.len_nonneg content).
  apply (fetch_all_from i stream limit s r content); try done.
  - unfold Str.len. lia.
  - rewrite Z.sub_0_r. unfold advances.
    destruct (decide (output_encoding (snap r) = Utf16le)); [right; auto|left]. split; [done|lia].
Qed.

(** One chunk: it starts where it was asked to, covers at most [limit]
    bytes inside the file, its text is the decoding of exactly those bytes,
    and the raw bytes are included whenever the decoding was lossy. *)
Theorem chunk_faithful i stream offset limit s r content :
  faults (world s) = [] → tasks (store s) !! i = Some r →
  stream_mode_ok (output_mode (snap r)) stream = Ok tt →
  file_content (world s) (dir r) (file_name stream) = Some content →
  1 ≤ limit ≤ MAX_LIMIT → 0 ≤ offset ≤ Str.len content →
  ∃ c, output_chunk i stream offset limit s = (Ok c, s) ∧
    c_offset c = offset ∧
    offset ≤ next_offset c ≤ Z.min (offset + limit) (Str.len content) ∧
    Model.content c = (decode (output_encoding (snap r)) (chunk_bytes content c)).1 ∧
    (decoding_errors c = true → content_base64 c = Some (base64_encode (chunk_bytes content c))) ∧
    (eof c = true → is_finished (status (snap r)) = true ∧ next_offset c = Str.len content).
Proof.
  intros Hw Hi Hm Hc Hl Ho. eexists. split; [by apply output_chunk_eval; (done || lia)|].
  destruct (chunk_of_fields r i stream offset limit content)
    as (Hn & Hoff & Hnext & Heof & Htext & _ & Hb64); [done|lia|].
  split_and!; [done|lia|lia|done| |].
  - intros He. by rewrite Hb64, He.
  - rewrite Heof. intros He. breflect. split; [done|lia].
Qed.

(** The last byte of a UTF-16 stream of odd size is out of reach: at the
    offset before it every request, with any limit, returns the same offset
    and never [eof], although the task has ended. *)
Theorem utf16_odd_tail_stuck r i stream offset limit content :
  output_encoding (snap r) = Utf16le → 0 ≤ offset → Str.len content = offset + 1 → 1 ≤ limit →
  let c := chunk_of r i stream offset limit content in
  next_offset c = offset ∧ eof c = false.
Proof.
  intros He Ho Hs Hl. destruct (chunk_of_fields r i stream offset limit content)
    as (_ & _ & Hnext & Heof & _); [lia..|].
  assert (read_length (output_encoding (snap r)) offset limit (Str.len content) = 0) as Hz.
  { unfold read_length. rewrite He, Hs. replace (offset + 1 - offset) with 1 by lia.
    by replace (Z.min limit 1) with 1 by lia. }
  rewrite Hz, Z.add_0_r in *. split; [done|]. rewrite Heof, Hs.
  replace (offset + 1 <=? offset) with false by lia. apply andb_false_r.
Qed.

(** [output_chunk] refuses a bad limit, an unknown task, a stream of the
    other output mode and an offset past the end, in this order and without
    changing any state. *)
Theorem output_chunk_errors i stream offset limit s :
  ((limit = 0 ∨ MAX_LIMIT < limit) → output_chunk i stream offset limit s = (Err LimitRange, s)) ∧
  (1 ≤ limit ≤ MAX_LIMIT →
     (tasks (store s) !! i = None → output_chunk i stream offset limit s = (Err TaskMissing, s)) ∧
     (∀ r, tasks (store s) !! i = Some r →
       (∀ e, stream_mode_ok (output_mode (snap r)) stream = Err e →
          output_chunk i stream offset limit s = (Err e, s)) ∧
       (∀ content, stream_mode_ok (output_mode (snap r)) stream = Ok tt →
          faults (world s) = [] →
          file_content (world s) (dir r) (file_name stream) = Some content →
          Str.len content < offset →
          output_chunk i stream offset limit s = (Err (OffsetBeyond offset (Str.len content)), s)))).
Proof.
  unfold output_chunk, mbind, stm_bind, pure_result, gets, get. split.
  { intros Hl. by replace ((limit =? 0) || (MAX_LIMIT <? limit)) with true by lia. }
  intros Hl. replace ((limit =? 0) || (MAX_LIMIT <? limit)) with false by lia. simpl. split.
  { by intros ->. }
  intros r ->. simpl. split; [by intros e ->|].
  intros content -> Hw Hc Ho. unfold with_err, lift.
  rewrite (read_file_no_fault _ _ _ content) by done. destruct s as [st w]. simpl in *.
  rewrite checked_no_fault by done. simpl.
  by replace (Str.len content <? offset) with true by lia.
Qed.
End paging_theorems.

(** ** Stop requests *)

(** [cancel_all] keeps the set of tasks, leaves finished tasks untouched
    and publishes the reason on every unfinished one. *)
Theorem cancel_all_spec why st i :
  tasks (cancel_all why st) !! i =
    match tasks st !! i with
    | Some r => Some (if is_finished (status (snap r)) then r else request_stop_now why r)
    | None => None
    end ∧ active_count (cancel_all why st) = active_count st.
Proof.
  unfold cancel_all. simpl. rewrite lookup_fmap. split; [|done].
  by destruct (tasks st !! i).
Qed.

(** ** Examples *)

Module StoreToy.

#[export] Instance uuids : UuidLib | 100 := {| uuid_to_string i := BitText.encode i |}.

(** Every encoding read as UTF-8, with the raw bytes for [base64]. *)
#[export] Instance encodings : EncodingLib | 100 :=
  {| decode _ s := (s, negb (Utf8.valid s)); base64_encode s := s |}.

Definition empty_store : TaskStore := mkTaskStore "/log" 100 86400 ∅ 0.
Definition sys0 : Sys := mkSys empty_store (mkWorld ∅ []).

(** One task created on an empty store, and its record. *)
Definition sys1 : Sys := (create 7%N 5 "/run" Separate Utf8 sys0).2.
Definition rec1 : TaskRecord :=
  TaskRecord_new (new_snapshot 7%N 5 "/run" Separate Utf8) (task_directory "/log" 7%N).

(** A finished task with six bytes of standard output. *)
Definition done_snapshot (enc : OutputEncoding) : TaskSnapshot :=
  set_finished_at (Some (now_rfc3339 9)) (set_status Succeeded (new_snapshot 7%N 5 "/run" Separate enc)).
Definition done_record (enc : OutputEncoding) : TaskRecord := TaskRecord_new (done_snapshot enc) "/log/tasks/x".
Definition done_sys (enc : OutputEncoding) (output : string) : Sys :=
  mkSys (set_tasks {[7%N := done_record enc]} empty_store)
    (mkWorld {["/log/tasks/x" := {[file_name SStdout := output]}]} []).

(** The directory of [rec1], with no journal yet. *)
Definition world1 (fs : list (option fault)) : World := mkWorld {[dir rec1 := ∅]} fs.

Lemma transition_durable_witness :
  ∃ r' w', transition (set_status Running) rec1 (world1 []) = (Ok tt, r', w') ∧
    record_snapshot r' = set_output_truncated false (set_status Running (snap rec1)).
Proof.
  eexists _, _. split; [reflexivity|].
  eapply (@transition_durable bit_json bit_json_laws (set_status Running) rec1 (world1 []));
    [apply wf_journal_nil | reflexivity].
Defined.

(** A crash left four bytes of the first record; the next one says running. *)
Definition torn_world : World :=
  mkWorld {[dir rec1 := {["events.jsonl" := Str.take 4 (event_line (snap rec1))]}]} [].

Lemma append_after_torn_lost_witness :
  ∃ r' w', transition (set_status Running) rec1 torn_world = (Ok tt, r', w') ∧
    read_latest_snapshot (file_content w' (dir r') "events.jsonl") = Ok None ∧ status (record_snapshot r') = Running.
Proof.
  eexists _, _. split; [reflexivity|].
  destruct (@append_after_torn_lost bit_json bit_json_laws EmptyString (snap rec1) 4 (set_status Running) rec1 torn_world
    (set_snap (set_status Running (snap rec1)) rec1) (transition (set_status Running) rec1 torn_world).2)
    as (Hl & _ & Hs).
  - apply wf_journal_nil.
  - vm_compute. lia.
  - vm_compute. reflexivity.
  - vm_compute. reflexivity.
  - reflexivity.
  - split; [exact Hl|reflexivity].
Defined.

Lemma transition_failure_witness :
  ∃ n, journal (transition (set_status Running) rec1 (world1 [None; Some (mkFault 3 "disk full")])).2
         (dir rec1) = EmptyString +:+ Str.take n (event_line (set_status Running (snap rec1))).
Proof.
  eapply (@transition_failure bit_json (set_status Running) rec1
    (world1 [None; Some (mkFault 3 "disk full")]) (IoFailure "disk full")
    (set_snap (set_status Running (snap rec1)) rec1)).
  reflexivity.
Defined.

Lemma cleanup_expired_spec_witness :
  ∃ s', cleanup_expired (9 + 86400 * Instants.NANOS) (done_sys Utf8 "hello!") = (Ok tt, s') ∧
    tasks (store s') !! 7%N = None.
Proof.
  destruct (@cleanup_expired_spec bit_time_lib (9 + 86400 * Instants.NANOS) (done_sys Utf8 "hello!"))
    as (s' & Hc & _ & Hl).
  - apply map_Forall_singleton. reflexivity.
  - exists s'. split; [exact Hc|]. apply eq_None_not_Some. intros [r Hr]. apply Hl in Hr as [Hr Hn].
    apply Hn. exists (now_rfc3339 9), 9, 86400.
    change (({[7%N := done_record Utf8]} : gmap Uuid TaskRecord) !! 7%N = Some r) in Hr.
    apply lookup_singleton_Some in Hr as [_ <-].
    vm_compute. repeat split; try reflexivity; try discriminate. left. split; [discriminate|reflexivity].
Defined.

Lemma retention_overflow_expires_witness : expired 9 U64_MAX (done_snapshot Utf8) = true.
Proof.
  apply (@retention_overflow_expires bit_time_lib 9 (done_snapshot Utf8) (now_rfc3339 9));
    vm_compute; reflexivity.
Defined.

(** The journal [rec1] would leave when its service dies while it runs. *)
Definition crashed : World :=
  mkWorld {["/log/tasks/x" := {["events.jsonl" := event_line (set_status Running (snap rec1))]}]} [].

Lemma open_store_finished_witness :
  ∃ s, open_store "/log" 86400 100 true true true [("/log/tasks/x", true)] 11 12 crashed = (Ok tt, s) ∧
    all_finished (store s) ∧ is_Some (tasks (store s) !! 7%N).
Proof.
  destruct (open_store "/log" 86400 100 true true true [("/log/tasks/x", true)] 11 12 crashed)
    as [[[]|e] s] eqn:E.
  - exists s. split; [reflexivity|].
    destruct (@open_store_finished bit_json bit_time_lib "/log" 86400 100 true true true
      [("/log/tasks/x", true)] 11 12 crashed s E (NoDup_singleton _)) as (Hf & _).
    split; [exact Hf|]. apply (f_equal (λ x, bool_decide (is_Some (tasks (store x.2) !! 7%N)))) in E.
    simpl in E. eapply bool_decide_eq_true_1. rewrite <- E. vm_compute. reflexivity.
  - exfalso. apply (f_equal (λ x, is_ok x.1)) in E. vm_compute in E. discriminate E.
Defined.

(** A finished, truncated task on disk. *)
Definition truncated_snapshot : TaskSnapshot := set_output_truncated true (done_snapshot Utf8).
Definition truncated_world : World :=
  mkWorld {["/log/tasks/x" := {["events.jsonl" := event_line truncated_snapshot]}]} [].

Lemma recovered_truncation_lost_witness :
  output_truncated truncated_snapshot = true ∧
  ∃ s' r, recover_directory 11 "/log/tasks/x" (mkSys empty_store truncated_world) = (Ok tt, s') ∧
    tasks (store s') = {[7%N := r]} ∧ record_snapshot r = set_output_truncated false truncated_snapshot.
Proof.
  split; [reflexivity|].
  destruct (recover_directory 11 "/log/tasks/x" (mkSys empty_store truncated_world)) as [[[]|e] s'] eqn:E.
  - exists s'.
    destruct (@recovered_truncation_lost bit_json bit_time_lib 11 "/log/tasks/x"
      (mkSys empty_store truncated_world) tt s' truncated_snapshot E) as (r & H1 & H2).
    + reflexivity.
    + exact (@read_latest_append bit_json bit_json_laws EmptyString truncated_snapshot wf_journal_nil).
    + reflexivity.
    + exists r. split; [reflexivity|]. split; assumption.
  - exfalso. apply (f_equal (λ x, is_ok x.1)) in E. vm_compute in E. discriminate E.
Defined.

(** The first two of the three bytes of a character. *)
Definition torn_bytes : string := Str.take 2 "任".

Lemma torn_character_blocks_open_witness :
  (open_store "/log" 86400 100 true true true [("/log/tasks/x", true)] 11 12
     (mkWorld {["/log/tasks/x" := {["events.jsonl" := torn_bytes]}]} [])).1
    = Err (JournalUnreadable InvalidUtf8).
Proof.
  apply (@torn_character_blocks_open bit_json bit_time_lib "/log" 86400 100 [] 11 12
    (mkWorld {["/log/tasks/x" := {["events.jsonl" := torn_bytes]}]} []) "/log/tasks/x" EmptyString torn_bytes);
    [reflexivity|apply wf_journal_nil|vm_compute; reflexivity..].
Defined.

Lemma paging_complete_witness :
  ∃ cs, fetch_all 7 7%N SStdout 4 0 (done_sys Utf8 "hello!") = Some cs ∧
    tiles Utf8 4 "hello!" 0 cs ∧ concat_bytes "hello!" cs = "hello!".
Proof.
  apply (@paging_complete encodings 7%N SStdout 4 (done_sys Utf8 "hello!") (done_record Utf8) "hello!");
    try (vm_compute; reflexivity).
  - unfold MAX_LIMIT. lia.
  - discriminate.
Defined.

Lemma chunk_faithful_witness :
  ∃ c, output_chunk 7%N SStdout 2 4 (done_sys Gbk "hello!") = (Ok c, done_sys Gbk "hello!") ∧
    Model.content c = (decode Gbk (chunk_bytes "hello!" c)).1.
Proof.
  destruct (@chunk_faithful encodings 7%N SStdout 2 4 (done_sys Gbk "hello!") (done_record Gbk) "hello!")
    as (c & Hc & _ & _ & Ht & _); try (vm_compute; reflexivity).
  - unfold MAX_LIMIT. lia.
  - unfold Str.len. simpl. lia.
  - exists c. split; assumption.
Defined.

Lemma utf16_odd_tail_stuck_witness :
  next_offset (chunk_of (done_record Utf16le) 7%N SStdout 6 100 "hello!!") = 6 ∧
  eof (chunk_of (done_record Utf16le) 7%N SStdout 6 100 "hello!!") = false.
Proof. apply utf16_odd_tail_stuck; [reflexivity|lia|reflexivity|lia]. Defined.

Lemma output_chunk_errors_witness :
  output_chunk 7%N SStdout 0 0 (done_sys Utf8 "hello!") = (Err LimitRange, done_sys Utf8 "hello!").
Proof.
  apply (@output_chunk_errors encodings 7%N SStdout 0 0 (done_sys Utf8 "hello!")). left. reflexivity.
Defined.

End StoreToy.
