(* ===== verification/Capture.v ===== *)
(** * Output capture (src/src/process/mod.rs: [Capture], [copy_output])

    One blocking thread per captured stream copies a pipe into a log file. The
    threads share the task's [captured_bytes] budget and [output_truncated]
    mark through atomics, so the model is a step relation in which each atomic
    operation and each file operation of a loop iteration is one step and the
    threads interleave freely.

    The file, the data already read ([seen]) and the data still to come
    ([input], as the chunks [read] will return) of each thread are part of its
    state; [seen] and [granted] are bookkeeping for the proofs and are never
    read by a step. *)

From S2P Require Import Prelude RustStd Model.
Local Open Scope string_scope.
Local Open Scope list_scope.
Local Open Scope Z_scope.

(** ** The pipes of a task *)

(** The read ends in order, and which of them the worker's standard output
    and standard error are connected to. *)
Record Capture := mkCapture {
  stdout_pipe : nat; stderr_pipe : nat; readers : list OutputStream
}.

Definition Capture_new (mode : OutputMode) : Capture :=
  match mode with
  | Separate => mkCapture 0 1 [SStdout; SStderr]
  | Combined => mkCapture 0 0 [SCombined]
  end.

(** ** Reader threads *)

(** Where a thread is in an iteration of the loop of [copy_output]. *)
Inductive pc :=
| AtRead
| Got (chunk : string)
| Allowed (chunk : string) (allowed : Z)
| Wrote (chunk : string) (allowed : Z)
| AtCheck (chunk : string) (allowed : Z)
| AtEof
| AtError.

Record Reader := mkReader {
  at_ : pc;
  input : list string;
  file : string;
  counter : Z;
  seen : string;
  granted : Z
}.

Record Shared := mkShared {
  captured : Z;
  was_truncated : bool;
  stop_requested : option StopReason;
  threads : list Reader
}.

(** The bytes of a read that may still be written, given the total before it. *)
Definition allowance (limit already size : Z) : Z :=
  Z.min (saturating_sub limit already) size.

Section copy_output.
Context (limit : Z).

(** One step of one thread: the shared counter, mark and stop request, and
    the thread, before and after. *)
Inductive reader_step : Z → bool → option StopReason → Reader → Z → bool → option StopReason → Reader → Prop :=
| step_read cap tr st c inp f n sn g :
    reader_step cap tr st (mkReader AtRead (c :: inp) f n sn g)
                cap tr st (mkReader (Got c) inp f n (sn +:+ c) g)
| step_eof cap tr st f n sn g :
    reader_step cap tr st (mkReader AtRead [] f n sn g)
                cap tr st (mkReader AtEof [] f n sn g)
| step_read_error cap tr st inp f n sn g :
    reader_step cap tr st (mkReader AtRead inp f n sn g)
                cap tr (Some RLoggingFailure) (mkReader AtError inp f n sn g)
| step_fetch_add cap tr st c inp f n sn g :
    reader_step cap tr st (mkReader (Got c) inp f n sn g)
                (wrapping_add cap (Str.len c)) tr st
                (mkReader (Allowed c (allowance limit cap (Str.len c))) inp f n sn
                   (g + allowance limit cap (Str.len c)))
| step_write cap tr st c a inp f n sn g :
    0 < a →
    reader_step cap tr st (mkReader (Allowed c a) inp f n sn g)
                cap tr st (mkReader (Wrote c a) inp (f +:+ Str.take (Z.to_nat a) c) n sn g)
| step_write_error cap tr st c a inp f n sn g k :
    0 < a → Z.of_nat k ≤ a →
    reader_step cap tr st (mkReader (Allowed c a) inp f n sn g)
                cap tr (Some RLoggingFailure) (mkReader AtError inp (f +:+ Str.take k c) n sn g)
| step_skip_write cap tr st c a inp f n sn g :
    a ≤ 0 →
    reader_step cap tr st (mkReader (Allowed c a) inp f n sn g)
                cap tr st (mkReader (AtCheck c a) inp f n sn g)
| step_count cap tr st c a inp f n sn g :
    reader_step cap tr st (mkReader (Wrote c a) inp f n sn g)
                cap tr st (mkReader (AtCheck c a) inp f (wrapping_add n a) sn g)
| step_check cap tr st c a inp f n sn g :
    reader_step cap tr st (mkReader (AtCheck c a) inp f n sn g)
                cap (tr || (a <? Str.len c)) st (mkReader AtRead inp f n sn g).

(** Any thread may take the next step. *)
Inductive capture_step : Shared → Shared → Prop :=
| capture_thread cap tr st ts1 r ts2 cap' tr' st' r' :
    reader_step cap tr st r cap' tr' st' r' →
    capture_step (mkShared cap tr st (ts1 ++ r :: ts2)) (mkShared cap' tr' st' (ts1 ++ r' :: ts2)).
End copy_output.

(** A thread about to copy the given chunks into an empty file. *)
Definition reader_init (chunks : list string) : Reader := mkReader AtRead chunks EmptyString 0 EmptyString 0.

Definition capture_init (pipes : list (list string)) : Shared :=
  mkShared 0 false None (reader_init <$> pipes).

(** ** The invariant *)

Definition concat_str (l : list string) : string := foldr (λ a b, a +:+ b) EmptyString l.

(** Bytes read but not yet counted in [captured_bytes]. *)
Definition uncounted (r : Reader) : Z := match at_ r with Got c => Str.len c | _ => 0 end.

(** Bytes granted but not yet in the file. *)
Definition unwritten (r : Reader) : Z :=
  match at_ r with Allowed _ a => a | AtError => granted r - Str.len (file r) | _ => 0 end.

(** Bytes in the file but not yet in the stream's counter. *)
Definition unreported (r : Reader) : Z :=
  match at_ r with Wrote _ a => a | AtError => Str.len (file r) - counter r | _ => 0 end.

(** The chunk in hand was cut and the mark is not set yet. *)
Definition unmarked (r : Reader) : bool :=
  match at_ r with
  | Allowed c a | Wrote c a | AtCheck c a => a <? Str.len c
  | _ => false
  end.

Definition sumz (f : Reader → Z) (l : list Reader) : Z := foldr (λ r n, f r + n) 0 l.

Definition consumed (r : Reader) : Z := Str.len (seen r) - uncounted r.

(** The data of the chunk in hand that is granted and not written yet. *)
Definition pending (r : Reader) : string :=
  match at_ r with Allowed c a => Str.take (Z.to_nat a) c | _ => EmptyString end.

(** What the thread has read before the chunk in hand was granted. *)
Definition string_prefix (p s : string) : Prop := ∃ t, s = p +:+ t.

Definition reader_ok (r : Reader) : Prop :=
  0 ≤ granted r ≤ consumed r ∧
  0 ≤ unwritten r ∧ granted r = Str.len (file r) + unwritten r ∧
  0 ≤ counter r ∧ 0 ≤ unreported r ∧ Str.len (file r) = counter r + unreported r ∧
  string_prefix (file r +:+ pending r) (seen r) ∧
  match at_ r with
  | Allowed c a | Wrote c a | AtCheck c a => 0 ≤ a ≤ Str.len c
  | Got c => ∃ t, seen r = t +:+ c
  | _ => True
  end.

(** All the data the thread's pipe delivers. *)
Definition total (r : Reader) : Z := Str.len (seen r) + Str.len (concat_str (input r)).

(** The relation between a thread and the shared budget. *)
Definition budget_ok (limit cap : Z) (tr : bool) (r : Reader) : Prop :=
  (granted r < consumed r → limit ≤ cap) ∧
  (unmarked r = true → limit < cap) ∧
  (at_ r ≠ AtError → granted r < consumed r → tr = true ∨ unmarked r = true).

Definition capture_inv (limit : Z) (s : Shared) : Prop :=
  captured s = sumz consumed (threads s) ∧
  sumz granted (threads s) = Z.min (captured s) limit ∧
  (was_truncated s = true → limit < captured s) ∧
  sumz total (threads s) ≤ U64_MAX ∧
  Forall reader_ok (threads s) ∧
  Forall (budget_ok limit (captured s) (was_truncated s)) (threads s).

Lemma sumz_app f l1 l2 : sumz f (l1 ++ l2) = sumz f l1 + sumz f l2.
Proof. induction l1 as [|r l1 IH]; simpl; [done|]. rewrite IH. lia. Qed.

Lemma sumz_thread f l1 r l2 : sumz f (l1 ++ r :: l2) = sumz f l1 + f r + sumz f l2.
Proof. rewrite sumz_app. simpl. lia. Qed.

(** ** Preservation *)

Lemma prefix_app p q s : string_prefix (p +:+ q) s → string_prefix p s.
Proof. intros [t ->]. exists (q +:+ t). by rewrite Str.app_assoc. Qed.

Lemma prefix_extend p s c : string_prefix p s → string_prefix p (s +:+ c).
Proof. intros [t ->]. exists (t +:+ c). by rewrite Str.app_assoc. Qed.

Lemma take_prefix n s : string_prefix (Str.take n s) s.
Proof. exists (Str.drop n s). by rewrite Str.take_drop. Qed.

Lemma prefix_app_l p a b : string_prefix a b → string_prefix (p +:+ a) (p +:+ b).
Proof. intros [t ->]. exists t. by rewrite Str.app_assoc. Qed.

Lemma app_inj_len p q t c : p +:+ t = q +:+ c → String.length p = String.length q → p = q ∧ t = c.
Proof.
  revert q. induction p as [|x p IH]; intros [|y q]; simpl; try done.
  rewrite !Str.app_cons. intros [= -> He] [= Hl]. destruct (IH q He Hl) as [-> ->]. done.
Qed.

Lemma take_take k n s : (k ≤ n)%nat → string_prefix (Str.take k s) (Str.take n s).
Proof.
  revert k s. induction n as [|n IH]; intros [|k] [|x s] Hk; simpl; try lia; try (by eexists).
  destruct (IH k s) as [t ->]; [lia|]. exists t. by rewrite Str.app_cons.
Qed.

Lemma len_take a c : 0 ≤ a ≤ Str.len c → Str.len (Str.take (Z.to_nat a) c) = a.
Proof. unfold Str.len. rewrite Str.length_take. lia. Qed.

Lemma allowance_spec limit cap n :
  0 ≤ limit → 0 ≤ cap → 0 ≤ n →
  0 ≤ allowance limit cap n ≤ n ∧
  allowance limit cap n = Z.min (cap + n) limit - Z.min cap limit.
Proof. unfold allowance, saturating_sub. lia. Qed.

(** What one step of a thread does to its part of the invariant. *)
Definition step_ok (limit cap : Z) (tr : bool) (r : Reader) (cap' : Z) (tr' : bool) (r' : Reader) : Prop :=
  reader_ok r' ∧ budget_ok limit cap' tr' r' ∧
  consumed r' - consumed r = cap' - cap ∧ cap ≤ cap' ∧
  granted r' - granted r = Z.min cap' limit - Z.min cap limit ∧
  total r' = total r ∧ (tr = true → tr' = true) ∧ (tr' = true → tr = true ∨ limit < cap').

Ltac reader_cbn :=
  unfold step_ok, reader_ok, budget_ok, consumed, uncounted, unwritten, unreported, unmarked, pending,
    total in *; cbn [at_ input file counter seen granted concat_str foldr] in *;
  rewrite ?Str.len_app, ?Str.app_nil_r in *.

Section preservation.
Context (limit : Z) (Hlimit : 0 ≤ limit).

Lemma fetch_add_ok cap tr c inp f n sn g :
  let r := mkReader (Got c) inp f n sn g in
  let a := allowance limit cap (Str.len c) in
  reader_ok r → budget_ok limit cap tr r → 0 ≤ cap → cap + Str.len c ≤ U64_MAX →
  step_ok limit cap tr r (wrapping_add cap (Str.len c)) tr (mkReader (Allowed c a) inp f n sn (g + a)).
Proof using Hlimit.
  intros r a Hok Hb Hc Hu. subst r. pose proof (Str.len_nonneg c) as Hlc.
  rewrite wrapping_add_small by lia.
  pose proof (allowance_spec limit cap (Str.len c) Hlimit Hc Hlc) as [Ha Hal]. fold a in Ha, Hal.
  reader_cbn. destruct Hok as (Hg & _ & Hgf & Hcnt & Hur & Hfc & Hpre & [t Ht]).
  destruct Hb as (Hb1 & _ & Hb3). subst sn. rewrite Str.len_app in *.
  split_and!; try lia; try done.
  - destruct (decide (a = 0)) as [Ha0|Ha0].
    + replace (Z.to_nat a) with 0%nat by lia. simpl. by rewrite Str.app_nil_r.
    + assert (g = Str.len t) as Hgt by (destruct (decide (g < Str.len t)); lia).
      destruct Hpre as [u Hu']. destruct (app_inj_len f t u c) as [-> _].
      { by rewrite Hu'. } { unfold Str.len in *. lia. }
      apply prefix_app_l, take_prefix.
  - intros _ Hlt. destruct (Z.ltb_spec a (Str.len c)); [by right|]. left.
    destruct Hb3; [done|lia|done|done].
  - by left.
Qed.

Lemma reader_step_ok cap tr st r cap' tr' st' r' :
  reader_step limit cap tr st r cap' tr' st' r' →
  reader_ok r → budget_ok limit cap tr r → 0 ≤ cap → cap + uncounted r ≤ U64_MAX →
  Str.len (file r) ≤ U64_MAX → step_ok limit cap tr r cap' tr' r'.
Proof using Hlimit.
  intros Hs Hok Hb Hc Hu Hlen.
  destruct Hs as [cap tr st c inp f n sn g|cap tr st f n sn g|cap tr st inp f n sn g
    |cap tr st c inp f n sn g|cap tr st c a inp f n sn g Ha|cap tr st c a inp f n sn g k Ha Hk
    |cap tr st c a inp f n sn g Ha|cap tr st c a inp f n sn g|cap tr st c a inp f n sn g].
  4: by apply fetch_add_ok.
  all: reader_cbn; destruct Hok as (Hg & Hw & Hgf & Hcnt & Hur & Hfc & Hpre & Hat);
    destruct Hb as (Hb1 & Hb2 & Hb3).
  - split_and!; try lia; try done; eauto using prefix_extend. intros _ ?. apply Hb3; [done|lia].
  - split_and!; try lia; try done; auto.
  - split_and!; try lia; try done; auto.
  - rewrite len_take by lia. split_and!; try lia; try done; auto.
  - assert (Str.len (Str.take k c) = Z.of_nat k) as Hlk.
    { unfold Str.len in *. rewrite Str.length_take. lia. }
    rewrite Hlk. split_and!; try lia; try done; auto.
    destruct (take_take k (Z.to_nat a) c) as [t Ht]; [lia|].
    rewrite Ht, <- Str.app_assoc in Hpre. by apply (prefix_app _ t).
  - replace (Z.to_nat a) with 0%nat in Hpre by lia. simpl in Hpre. rewrite Str.app_nil_r in Hpre.
    split_and!; try lia; try done; auto.
  - rewrite wrapping_add_small by lia. split_and!; try lia; try done; auto.
  - split_and!; try lia; try done.
    + intros _ Hlt. left. apply orb_true_iff. apply Hb3; [done|lia].
    + intros ->. done.
    + intros [?|?]%orb_true_iff; auto.
Qed.
End preservation.

(** ** Reachable states *)

Lemma sumz_le f g l : Forall (λ r, f r ≤ g r) l → sumz f l ≤ sumz g l.
Proof. induction 1; simpl; lia. Qed.

Lemma budget_mono limit cap tr cap' tr' r :
  cap ≤ cap' → (tr = true → tr' = true) → budget_ok limit cap tr r → budget_ok limit cap' tr' r.
Proof.
  intros Hc Ht (H1 & H2 & H3). split_and!.
  - intros Hg. specialize (H1 Hg). lia.
  - intros Hu. specialize (H2 Hu). lia.
  - intros Hn Hg. destruct (H3 Hn Hg); auto.
Qed.

Lemma reader_ok_bounds r :
  reader_ok r → 0 ≤ consumed r ∧ 0 ≤ uncounted r ∧ Str.len (file r) ≤ consumed r ∧
    consumed r + uncounted r ≤ total r.
Proof.
  intros (? & ? & ? & _). unfold consumed, total in *.
  pose proof (Str.len_nonneg (concat_str (input r))).
  assert (0 ≤ uncounted r) by (unfold uncounted; case_match; [lia|apply Str.len_nonneg|lia..]).
  lia.
Qed.

Lemma capture_step_inv limit s s' :
  0 ≤ limit → capture_step limit s s' → capture_inv limit s → capture_inv limit s'.
Proof.
  intros Hl [cap tr st ts1 r ts2 cap' tr' st' r' Hs] (Hcap & Hgr & Htr & Htot & Hok & Hb).
  cbn [captured was_truncated threads] in *.
  rewrite sumz_thread in Hcap, Hgr, Htot. rewrite Forall_app, Forall_cons in Hok, Hb.
  destruct Hok as (Hok1 & Hokr & Hok2). destruct Hb as (Hb1 & Hbr & Hb2).
  assert (∀ l, Forall reader_ok l → 0 ≤ sumz consumed l ≤ sumz total l) as Hsum.
  { intros l Hf. induction Hf as [|q l Hq _ IH]; simpl; [lia|]. apply reader_ok_bounds in Hq. lia. }
  pose proof (Hsum _ Hok1). pose proof (Hsum _ Hok2). pose proof (reader_ok_bounds _ Hokr).
  destruct (reader_step_ok limit Hl _ _ _ _ _ _ _ _ Hs Hokr Hbr)
    as (Hok' & Hbr' & Hcon & Hle & Hg' & Ht' & Hmono & Hset); [lia..|].
  unfold capture_inv. cbn [captured was_truncated threads].
  rewrite !sumz_thread, !Forall_app, !Forall_cons. split_and!; try done; try lia.
  - intros Htr'. destruct (Hset Htr') as [Htrue|?]; [|done]. specialize (Htr Htrue). lia.
  - eapply Forall_impl; [exact Hb1|]. intros q. by apply budget_mono.
  - eapply Forall_impl; [exact Hb2|]. intros q. by apply budget_mono.
Qed.

Lemma capture_init_inv limit pipes :
  0 ≤ limit → sumz total (reader_init <$> pipes) ≤ U64_MAX → capture_inv limit (capture_init pipes).
Proof.
  intros Hl Ht. unfold capture_inv, capture_init. cbn [captured was_truncated threads].
  assert (∀ f, (∀ p, f (reader_init p) = 0) → sumz f (reader_init <$> pipes) = 0) as Hz.
  { intros f Hf. clear Ht. induction pipes as [|p ps IH]; [done|].
    rewrite fmap_cons. unfold sumz in *. cbn [foldr]. by rewrite Hf, IH. }
  rewrite !Hz by done. split_and!; try done; try lia;
    apply Forall_fmap, Forall_true; intros p; reader_cbn; simpl.
  - split_and!; try done. by exists EmptyString.
  - split_and!; try done; simpl; lia.
Qed.

Lemma capture_steps_inv limit pipes s :
  0 ≤ limit → sumz total (reader_init <$> pipes) ≤ U64_MAX →
  rtc (capture_step limit) (capture_init pipes) s → capture_inv limit s.
Proof.
  intros Hl Ht Hs. eapply rtc_invariant; [|exact Hs|by apply capture_init_inv].
  intros a b Hab. by apply capture_step_inv.
Qed.

(** The data a step consumes comes from the thread's input. *)
Definition data (r : Reader) : string := seen r +:+ concat_str (input r).

Lemma reader_step_data limit cap tr st r cap' tr' st' r' :
  reader_step limit cap tr st r cap' tr' st' r' → data r' = data r.
Proof. destruct 1; unfold data; simpl; rewrite ?Str.app_assoc; done. Qed.

Lemma capture_steps_data limit s s' :
  rtc (capture_step limit) s s' → data <$> threads s' = data <$> threads s.
Proof.
  induction 1 as [|s1 s2 s3 H12 _ IH]; [done|]. rewrite IH.
  destruct H12 as [cap tr st ts1 r ts2 cap' tr' st' r' Hs]. cbn [threads].
  rewrite !fmap_app, !fmap_cons. by rewrite (reader_step_data _ _ _ _ _ _ _ _ _ Hs).
Qed.

(** ** Properties *)

Definition all_eof (s : Shared) : Prop := Forall (λ r, at_ r = AtEof) (threads s).

Definition pipe_data (pipes : list (list string)) : Z := sumz total (reader_init <$> pipes).

(** C22: however the reader threads interleave, and also when reads or writes
    fail, the log files of a task together never exceed
    [max_output_bytes_per_task], and each file is a prefix of what its pipe
    delivered. *)
Theorem capture_bounded limit pipes s :
  0 ≤ limit → pipe_data pipes ≤ U64_MAX →
  rtc (capture_step limit) (capture_init pipes) s →
  sumz (λ r, Str.len (file r)) (threads s) ≤ limit ∧
  Forall (λ r, string_prefix (file r) (data r)) (threads s).
Proof.
  intros Hl Ht Hs. destruct (capture_steps_inv _ _ _ Hl Ht Hs) as (_ & Hg & _ & _ & Hok & _). split.
  - transitivity (sumz granted (threads s)); [|lia]. apply sumz_le.
    eapply Forall_impl; [exact Hok|]. intros r (_ & ? & ? & _). lia.
  - eapply Forall_impl; [exact Hok|]. intros r (_ & _ & _ & _ & _ & _ & Hp & _).
    apply prefix_extend. by eapply prefix_app.
Qed.

Lemma sum_lt_exists f g l : Forall (λ r, f r ≤ g r) l → sumz f l < sumz g l → Exists (λ r, f r < g r) l.
Proof.
  induction 1 as [|r l Hr Hl IH]; simpl; [lia|]. intros Hlt.
  destruct (decide (f r < g r)); [by left|right]. apply IH. lia.
Qed.

Lemma eof_input limit pipes s :
  rtc (capture_step limit) (capture_init pipes) s →
  Forall (λ r, at_ r = AtEof → input r = []) (threads s).
Proof.
  intros Hs. eapply (rtc_invariant _ (λ s, Forall _ (threads s))); [|exact Hs|].
  - intros s1 s2 [cap tr st ts1 r ts2 cap' tr' st' r' H12]. cbn [threads].
    rewrite !Forall_app, !Forall_cons. intros (? & ? & ?). split_and!; try done. by destruct H12.
  - apply Forall_fmap, Forall_true. by intros p.
Qed.

Lemma sumz_ext f g l : (∀ r, r ∈ l → f r = g r) → sumz f l = sumz g l.
Proof.
  induction l as [|r l IH]; simpl; [done|]. intros Hfg. rewrite (Hfg r), IH; [done|..]; set_solver.
Qed.

Lemma total_preserved limit pipes s :
  rtc (capture_step limit) (capture_init pipes) s → sumz total (threads s) = pipe_data pipes.
Proof.
  intros Hs. apply capture_steps_data in Hs. unfold pipe_data.
  change (reader_init <$> pipes) with (threads (capture_init pipes)).
  revert Hs. generalize (threads s), (threads (capture_init pipes)).
  induction l as [|r l IH]; intros [|q k]; simpl; try done. intros [= Hd Hl].
  rewrite (IH k Hl). f_equal. unfold total. rewrite <- !Str.len_app. unfold data in Hd. by rewrite Hd.
Qed.

(** A thread at the end of its pipe. *)
Lemma eof_reader limit cap tr r :
  at_ r = AtEof → input r = [] → reader_ok r → budget_ok limit cap tr r →
  granted r = Str.len (file r) ∧ consumed r = total r ∧ counter r = Str.len (file r) ∧
  granted r ≤ consumed r ∧ (granted r < consumed r → tr = true).
Proof.
  intros He Hin (? & ? & ? & ? & ? & ? & _) (_ & _ & Hb3).
  unfold total, consumed, unwritten, unreported, uncounted, unmarked in *. rewrite He, Hin in *.
  simpl in *. change (Str.len EmptyString) with 0. split_and!; try lia. intros Hlt. destruct Hb3; done.
Qed.

(** C23: when every thread has reached the end of its pipe, exactly
    min(output, limit) bytes are on disk, each stream's counter equals the
    size of its file, and [output_truncated] is set if and only if the output
    was larger than the limit. *)
Theorem capture_exact limit pipes s :
  0 ≤ limit → pipe_data pipes ≤ U64_MAX →
  rtc (capture_step limit) (capture_init pipes) s → all_eof s →
  sumz (λ r, Str.len (file r)) (threads s) = Z.min (pipe_data pipes) limit ∧
  Forall (λ r, counter r = Str.len (file r)) (threads s) ∧
  (was_truncated s = true ↔ limit < pipe_data pipes).
Proof.
  intros Hl Ht Hs He. pose proof (eof_input _ _ _ Hs) as Hin.
  destruct (capture_steps_inv _ _ _ Hl Ht Hs) as (Hcap & Hg & Htr & _ & Hok & Hb).
  rewrite <- (total_preserved _ _ _ Hs). unfold all_eof in He. rewrite Forall_forall in *.
  assert (∀ r, r ∈ threads s → _) as Hall by (intros r Hr; exact (eof_reader limit _ _ r
    (He r Hr) (Hin r Hr (He r Hr)) (Hok r Hr) (Hb r Hr))).
  assert (sumz consumed (threads s) = sumz total (threads s)) as Hct
    by (apply sumz_ext; intros r Hr; apply (Hall r Hr)).
  split_and!.
  - rewrite <- (sumz_ext granted) by (intros r Hr; apply (Hall r Hr)). lia.
  - intros r Hr. apply (Hall r Hr).
  - rewrite <- Hct, <- Hcap. split; [done|]. intros Hlt.
    destruct (proj1 (Exists_exists _ _) (sum_lt_exists granted consumed (threads s)
      (proj2 (Forall_forall _ _) (λ r Hr, proj1 (proj2 (proj2 (proj2 (Hall r Hr))))))
      ltac:(lia))) as (r & Hr & Hlt').
    by apply (Hall r Hr).
Qed.

(** A run of one thread that copies one chunk of five bytes under a limit of
    three. *)
Definition demo_final : Shared :=
  mkShared 5 true None [mkReader AtEof [] "hel" 3 "hello" 3].

Lemma demo_run : rtc (capture_step 3) (capture_init [["hello"]]) demo_final.
Proof.
  unfold capture_init, reader_init. simpl.
  repeat (eapply rtc_l; [eapply (capture_thread _ _ _ _ []); first
    [ apply step_read | apply step_fetch_add | by apply step_write | apply step_count
    | apply step_check | apply step_eof ]|]; cbv).
  apply rtc_refl.
Qed.

Lemma capture_bounded_witness :
  sumz (λ r, Str.len (file r)) (threads demo_final) ≤ 3 ∧
  Forall (λ r, string_prefix (file r) (data r)) (threads demo_final).
Proof. apply (capture_bounded 3 [["hello"]]); [lia|vm_compute; discriminate|apply demo_run]. Defined.

Lemma capture_exact_witness :
  sumz (λ r, Str.len (file r)) (threads demo_final) = Z.min (pipe_data [["hello"]]) 3 ∧
  Forall (λ r, counter r = Str.len (file r)) (threads demo_final) ∧
  (was_truncated demo_final = true ↔ 3 < pipe_data [["hello"]]).
Proof.
  apply (capture_exact 3 [["hello"]]); [lia|vm_compute; discriminate|apply demo_run|].
  constructor; [reflexivity|constructor].
Defined.
