(* ===== verification/Pipes.v ===== *)
(** * The pipes of a task (src/src/process/mod.rs: [Capture::new],
      [Capture::apply], [Capture::start_readers], the spawn in [run_task])

    A reader thread ends when its pipe has no write end left. The service itself
    creates the write ends and hands them to the worker, so a single end it keeps
    would leave every reader, and with it the task, waiting for ever. Here the
    write ends are resources with an owner, moved and dropped the way the code
    moves and drops the values that own them, and the processes that inherit
    them fork, leave their group, close descriptors and die, alone or when a whole
    group is killed. *)

From stdpp Require Import gmultiset.
From S2P Require Import Prelude RustStd Model Config Capture.
Local Open Scope string_scope.
Local Open Scope list_scope.
Local Open Scope Z_scope.

(** ** Descriptors *)

(** The open write ends: who holds them ([None] is the service, [Some pid] a
    process) and on which pipe; and the pipes made so far. *)
Record Os := mkOs { ends : gmultiset (option Z * nat); pipes : nat }.

Definition O := stm Os string.

(** A call that fails with the given error, or returns. *)
Definition checked (r : result string unit) : O unit := λ s, (r, s).

(** Dropping a write end of the service. *)
Definition close (p : nat) (s : Os) : Os := mkOs (ends s ∖ {[+ (None, p) +]}) (pipes s).
Definition close_opt (o : option nat) (s : Os) : Os := match o with Some p => close p s | None => s end.

(** What an early return through [?] drops. *)
Definition owning {A} (cleanup : Os → Os) (m : O A) : O A := λ s,
  match m s with
  | (Ok a, s) => (Ok a, s)
  | (Err e, s) => (Err e, cleanup s)
  end.

(** [os_pipe::pipe()]: the write end of a new pipe. *)
Definition pipe (r : result string unit) : O nat :=
  _ ← checked r;
  p ← gets pipes;
  _ ← modify (λ s, mkOs (ends s ⊎ {[+ (None, p) +]}) (S (pipes s)));
  mret p.

(** [writer.try_clone()]. *)
Definition try_clone (p : nat) (r : result string unit) : O nat :=
  _ ← checked r;
  _ ← modify (λ s, mkOs (ends s ⊎ {[+ (None, p) +]}) (pipes s));
  mret p.

(** ** [Capture] *)

Record CapturePipes := mkCapturePipes {
  c_stdout : option nat;
  c_stderr : option nat;
  c_readers : list (OutputStream * nat)
}.

(** [Capture::new], with the outcome of its two calls. *)
Definition new (mode : OutputMode) (r1 r2 : result string unit) : O CapturePipes :=
  match mode with
  | Separate =>
      stdout ← pipe r1;
      stderr ← owning (close stdout) (pipe r2);
      mret (mkCapturePipes (Some stdout) (Some stderr) [(SStdout, stdout); (SStderr, stderr)])
  | Combined =>
      writer ← pipe r1;
      stderr ← owning (close writer) (try_clone writer r2);
      mret (mkCapturePipes (Some writer) (Some stderr) [(SCombined, writer)])
  end.

(** [Drop] of a [Capture]. *)
Definition drop_capture (c : CapturePipes) (s : Os) : Os := close_opt (c_stderr c) (close_opt (c_stdout c) s).

(** What the command owns. *)
Record CommandPipes := mkCommandPipes { cmd_stdout : nat; cmd_stderr : nat }.

Definition drop_command (c : CommandPipes) (s : Os) : Os := close (cmd_stderr c) (close (cmd_stdout c) s).

(** [Capture::apply]: the write ends move into the command; [None] is the panic
    of an [expect]. *)
Definition apply (c : CapturePipes) : option CommandPipes :=
  match c_stdout c, c_stderr c with
  | Some o, Some e => Some (mkCommandPipes o e)
  | _, _ => None
  end.

(** [Capture::start_readers]: a thread per reader until a clone fails; [rs] are
    the outcomes of the clones. *)
Fixpoint start_readers (readers : list (OutputStream * nat)) (rs : list (result string unit)) : O (list (OutputStream * nat)) :=
  match readers with
  | [] => mret []
  | r :: readers =>
      _ ← checked (default (Ok tt) (head rs));
      started ← start_readers readers (tail rs);
      mret (r :: started)
  end.

(** [command.spawn()]: the child gets a write end for each of its streams. *)
Definition spawn (c : CommandPipes) (r : result string Z) : O Z := λ s,
  match r with
  | Ok pid => (Ok pid, mkOs (ends s ⊎ {[+ (Some pid, cmd_stdout c) +]} ⊎ {[+ (Some pid, cmd_stderr c) +]}) (pipes s))
  | Err e => (Err ("无法启动内部任务 Worker: " +:+ e), s)
  end.

(** The outcomes of the calls of [run_task] up to [drop(command)]. *)
Record Calls := mkCalls {
  pipe1 : result string unit;
  pipe2 : result string unit;          (* or the clone of the combined writer *)
  clones : list (result string unit);
  current_exe : result string unit;
  tree_new : result string unit;
  spawned : result string Z
}.

(** [run_task] from [Capture::new] to [drop(command)]: the worker and the
    readers started. *)
Definition open_and_spawn (mode : OutputMode) (c : Calls) : O (Z * list (OutputStream * nat)) :=
  capture ← new mode (pipe1 c) (pipe2 c);
  output_tasks ← owning (drop_capture capture) (start_readers (c_readers capture) (clones c));
  _ ← owning (drop_capture capture) (checked (current_exe c));
  _ ← owning (drop_capture capture) (checked (tree_new c));
  match apply capture with
  | None => λ s, (Err "panic", drop_capture capture s)
  | Some command =>
      pid ← owning (drop_command command) (spawn command (spawned c));
      _ ← modify (drop_command command);
      mret (pid, output_tasks)
  end.

(** ** The service keeps no write end *)

(** The streams of a task and the pipe each of them is read from, for pipes
    numbered from [n]. *)
Definition streams (mode : OutputMode) (n : nat) : list (OutputStream * nat) :=
  match mode with
  | Separate => [(SStdout, n); (SStderr, S n)]
  | Combined => [(SCombined, n)]
  end.

(** The pipes the worker's standard output and standard error go to. *)
Definition out_pipe (mode : OutputMode) (n : nat) : nat := n.
Definition err_pipe (mode : OutputMode) (n : nat) : nat := match mode with Separate => S n | Combined => n end.

Lemma new_spec mode r1 r2 s r s' :
  new mode r1 r2 s = (r, s') →
  match r with
  | Err _ => ends s' = ends s
  | Ok c => c = mkCapturePipes (Some (out_pipe mode (pipes s))) (Some (err_pipe mode (pipes s))) (streams mode (pipes s)) ∧
      ends s' = ends s ⊎ {[+ (None, out_pipe mode (pipes s)) +]} ⊎ {[+ (None, err_pipe mode (pipes s)) +]}
  end.
Proof.
  unfold new, pipe, try_clone, owning, checked, close, gets, modify, mbind, stm_bind.
  destruct mode, r1 as [[]|]; simpl; try (by intros [= <- <-]);
    destruct r2 as [[]|]; simpl; intros [= <- <-]; simpl; split_and?; try done; multiset_solver.
Qed.

Lemma start_readers_spec readers rs s r s' :
  start_readers readers rs s = (r, s') → s' = s ∧ match r with Ok started => started = readers | Err _ => True end.
Proof.
  revert rs s r s'. induction readers as [|x readers IH]; intros rs s r s'; simpl; [by intros [= <- <-]|].
  unfold mbind, stm_bind, checked. destruct (default _ _); [|by intros [= <- <-]].
  destruct (start_readers readers (tail rs) s) as [[st|e] s1] eqn:Hs; apply IH in Hs as [-> Hst].
  - intros [= <- <-]. by rewrite Hst.
  - by intros [= <- <-].
Qed.

(** The write ends after [open_and_spawn]: an error at any of its calls, early or
    late, closes whatever it had opened; after a success the worker holds one
    for each of its streams and the service none. *)
Lemma open_and_spawn_spec mode c s r s' :
  open_and_spawn mode c s = (r, s') →
  match r with
  | Err _ => ends s' = ends s
  | Ok (pid, started) => started = streams mode (pipes s) ∧
      ends s' = ends s ⊎ {[+ (Some pid, out_pipe mode (pipes s)) +]} ⊎ {[+ (Some pid, err_pipe mode (pipes s)) +]}
  end.
Proof.
  unfold open_and_spawn, mbind, stm_bind at 1.
  destruct (new _ _ _ s) as [[cap|e] s1] eqn:Hn; apply new_spec in Hn; [|by intros [= <- <-]].
  destruct Hn as [-> He]. unfold stm_bind, owning. cbn [c_readers c_stdout c_stderr].
  set (o := out_pipe mode (pipes s)) in *. set (w := err_pipe mode (pipes s)) in *.
  assert (ends (close w (close o s1)) = ends s) as Hclose by (unfold close; simpl; rewrite He; multiset_solver).
  destruct (start_readers _ _ s1) as [[st|e] s2] eqn:Hr; apply start_readers_spec in Hr as [-> Hst];
    [|by intros [= <- <-]]. subst st.
  unfold checked. destruct (current_exe c); [|by intros [= <- <-]].
  destruct (tree_new c); [|by intros [= <- <-]]. unfold apply. simpl.
  unfold spawn. destruct (spawned c) as [pid|e]; [|by intros [= <- <-]].
  intros [= <- <-]. split; [done|]. unfold drop_command, close. simpl. rewrite He. multiset_solver.
Qed.

(** ** What the processes do *)

(** The open ends, the living processes with their groups, and the worker with
    everything it ever started. *)
Record Machine := mkMachine {
  machine : Os;
  procs : gmap Z Z;
  family : gset Z
}.

Section machine.
(** The pipes of the task. *)
Context (ours : nat → Prop).

Inductive proc_step : Machine → Machine → Prop :=
| proc_fork os os' ps fam p g c :
    ps !! p = Some g → ps !! c = None → c ∉ fam →   (* a new process id *)
    (∀ h q, (h, q) ∈ ends os' ↔ (h, q) ∈ ends os ∨ h = Some c ∧ (Some p, q) ∈ ends os) →
    proc_step (mkMachine os ps fam)
      (mkMachine os' (<[c := g]> ps) (if decide (p ∈ fam) then {[c]} ∪ fam else fam))
| proc_leave os ps fam p g g' :
    ps !! p = Some g → proc_step (mkMachine os ps fam) (mkMachine os (<[p := g']> ps) fam)
| proc_close os os' ps fam :                        (* a descriptor is closed or redirected *)
    ends os' ⊆ ends os → proc_step (mkMachine os ps fam) (mkMachine os' ps fam)
| proc_exit os os' ps fam p :
    (∀ h q, (h, q) ∈ ends os' ↔ (h, q) ∈ ends os ∧ h ≠ Some p) →
    proc_step (mkMachine os ps fam) (mkMachine os' (delete p ps) fam)
| proc_kill_group os os' ps fam g :                 (* SIGKILL to a process group *)
    (∀ h q, (h, q) ∈ ends os' ↔ (h, q) ∈ ends os ∧ ∀ p, h = Some p → ps !! p ≠ Some g) →
    proc_step (mkMachine os ps fam) (mkMachine os' (filter (λ x, x.2 ≠ g) ps) fam)
| proc_service os os' ps fam :                      (* the service, for other tasks *)
    (∀ h q, ours q → (h, q) ∈ ends os' → (h, q) ∈ ends os) →
    proc_step (mkMachine os ps fam) (mkMachine os' ps fam).

(** SIGKILL has been sent to all of the process group [g]. *)
Definition killed_group (g : Z) (m m' : Machine) : Prop :=
  procs m' = filter (λ x, x.2 ≠ g) (procs m) ∧ family m' = family m ∧
  ∀ h q, (h, q) ∈ ends (machine m') ↔ (h, q) ∈ ends (machine m) ∧ ∀ p, h = Some p → procs m !! p ≠ Some g.

Lemma killed_group_step g m m' : killed_group g m m' → proc_step m m'.
Proof.
  destruct m as [os ps fam], m' as [os' ps' fam']. intros (Hp & Hf & He). simpl in *. subst. by apply proc_kill_group.
Qed.

(** [read] returns 0: nobody can write any more. *)
Definition at_eof (q : nat) (m : Machine) : Prop := ∀ h, (h, q) ∉ ends (machine m).

(** The ends of the task are with living processes of its family. *)
Definition contained (m : Machine) : Prop :=
  ∀ h q, ours q → (h, q) ∈ ends (machine m) → ∃ p, h = Some p ∧ p ∈ family m ∧ is_Some (procs m !! p).

Lemma proc_step_contained m m' : proc_step m m' → contained m → contained m'.
Proof.
  intros Hs Hc h q Hq Hin. destruct Hs as [os os' ps fam p g c Hp Hn Hf He|os ps fam p g g' Hp|os os' ps fam He
    |os os' ps fam p He|os os' ps fam g He|os os' ps fam He]; simpl in *.
  - apply He in Hin as [Hin|[-> Hin]].
    + destruct (Hc _ _ Hq Hin) as (p' & -> & ? & ?). exists p'. split_and!; [done|by destruct (decide _); set_solver|].
      rewrite lookup_insert. case_decide; eauto.
    + destruct (Hc _ _ Hq Hin) as (p' & [= <-] & Hfam & ?). exists c. split_and!; [done| |rewrite lookup_insert_eq; eauto].
      rewrite decide_True by done. set_solver.
  - destruct (Hc _ _ Hq Hin) as (p' & -> & ? & ?). exists p'. split_and!; [done|done|].
    rewrite lookup_insert. case_decide; eauto.
  - destruct (Hc h q Hq) as (p' & -> & ? & ?); [multiset_solver|]. eauto.
  - apply He in Hin as [Hin Hne]. destruct (Hc _ _ Hq Hin) as (p' & -> & ? & ?). exists p'.
    split_and!; [done|done|]. rewrite lookup_delete_ne by congruence. done.
  - apply He in Hin as [Hin Hne]. destruct (Hc _ _ Hq Hin) as (p' & -> & ? & g' & Hg'). exists p'.
    split_and!; [done|done|]. exists g'. apply map_lookup_filter_Some. split; [done|]. simpl.
    intros ->. by apply (Hne p').
  - apply (Hc h q Hq). by apply He.
Qed.
End machine.

Section task_pipes.
Context (mode : OutputMode) (c : Calls) (s s' : Os) (pid : Z) (started : list (OutputStream * nat)).

(** The pipes of the task that [open_and_spawn] started in [s]. *)
Definition task_pipe (q : nat) : Prop := q = out_pipe mode (pipes s) ∨ q = err_pipe mode (pipes s).

(** No end is on a pipe that is not yet made. *)
Definition wf_os : Prop := ∀ h q, (h, q) ∈ ends s → (q < pipes s)%nat.

Lemma streams_task_pipe : Forall (λ x, task_pipe x.2) (streams mode (pipes s)).
Proof. unfold task_pipe, out_pipe, err_pipe. destruct mode; repeat (apply Forall_cons; split); simpl; auto. Qed.

Lemma spawned_contained ps :
  wf_os → open_and_spawn mode c s = (Ok (pid, started), s') → is_Some (ps !! pid) →
  contained task_pipe (mkMachine s' ps {[pid]}).
Proof.
  intros Hwf Ho Hp h q Hq Hin. apply open_and_spawn_spec in Ho as [_ He]. simpl in *. rewrite He in Hin.
  assert ((h, q) ∉ ends s) as Hnot.
  { intros Hs. apply Hwf in Hs. destruct Hq as [-> | ->]; unfold out_pipe, err_pipe in Hs; destruct mode; simpl in Hs; lia. }
  exists pid. split_and!; [|set_solver|done].
  rewrite !gmultiset_elem_of_disj_union, !gmultiset_elem_of_singleton in Hin. naive_solver.
Qed.

(** C15: the readers of a task end with its processes: the service has kept no
    write end of the pipes it made for the worker, and whatever processes the
    worker starts and whatever these do with their descriptors, their groups and
    their lives, an end that is still open belongs to a living process among
    them; once none of them lives every reader is at the end of its pipe. *)
Theorem readers_end_with_family ps m :
  wf_os → open_and_spawn mode c s = (Ok (pid, started), s') → is_Some (ps !! pid) →
  rtc (proc_step task_pipe) (mkMachine s' ps {[pid]}) m →
  started = streams mode (pipes s) ∧
  Forall (λ x,
    (∀ h, (h, x.2) ∈ ends (machine m) → ∃ p, h = Some p ∧ p ∈ family m ∧ is_Some (procs m !! p)) ∧
    ((∀ p, p ∈ family m → procs m !! p = None) → at_eof x.2 m)) started.
Proof.
  intros Hwf Ho Hp Hrun. pose proof (spawned_contained ps Hwf Ho Hp) as Hc.
  apply open_and_spawn_spec in Ho as [-> _]. split; [done|].
  assert (contained task_pipe m) as Hm
    by exact (rtc_invariant _ _ _ _ (proc_step_contained task_pipe) Hrun Hc).
  eapply Forall_impl; [apply streams_task_pipe|]. intros [st q] Hq. simpl in *. split.
  - intros h Hin. by apply (Hm h q).
  - intros Hdead h Hin. destruct (Hm h q Hq Hin) as (p & -> & Hf & Hl). rewrite (Hdead p Hf) in Hl. by destruct Hl.
Qed.

(** C36: on Unix the kill of the worker's process group need not end the
    readers. Whatever the processes of the task did before, after SIGKILL to a
    whole group a reader is at the end of its pipe exactly when no living process
    of the task outside that group held one of its write ends. And a process can
    be outside: there is a run in which a child of the worker leaves the group,
    the whole group is killed, and the child lives on and keeps every reader of
    the task waiting. *)
Theorem escaped_process_keeps_output :
  wf_os → open_and_spawn mode c s = (Ok (pid, started), s') → (∀ q, (Some pid, q) ∉ ends s) →
  let start := mkMachine s' {[pid := pid]} {[pid]} in
  (∀ m g m', rtc (proc_step task_pipe) start m → killed_group g m m' →
     (∀ p, procs m' !! p ≠ Some g) ∧
     Forall (λ x, at_eof x.2 m' ↔
       ¬ ∃ d g', d ∈ family m ∧ procs m !! d = Some g' ∧ g' ≠ g ∧ (Some d, x.2) ∈ ends (machine m)) started) ∧
  ∃ m m' d, rtc (proc_step task_pipe) start m ∧ procs m !! pid = Some pid ∧ killed_group pid m m' ∧
    d ∈ family m' ∧ is_Some (procs m' !! d) ∧ Forall (λ x, ¬ at_eof x.2 m') started.
Proof.
  intros Hwf Ho Hfree start. assert (contained task_pipe start) as Hc0
    by (apply (spawned_contained _ Hwf Ho); rewrite lookup_singleton_eq; by eexists).
  apply open_and_spawn_spec in Ho as [-> He]. split.
  { intros m g m' Hrun (Hps & Hfam & Hk). split.
    { intros p Hp. rewrite Hps in Hp. by apply map_lookup_filter_Some in Hp as [_ Hp]. }
    pose proof (rtc_invariant _ _ _ _ (proc_step_contained task_pipe) Hrun Hc0) as Hc.
    eapply Forall_impl; [apply streams_task_pipe|]. intros [st q] Hq. simpl in *. split.
    - intros Heof (d & g' & _ & Hd & Hne & Hin). apply (Heof (Some d)). apply Hk. split; [done|].
      intros p [= <-] Hg. congruence.
    - intros Hno h Hin. apply Hk in Hin as [Hin Hg]. destruct (Hc h q Hq Hin) as (p & -> & Hpf & g' & Hp).
      apply Hno. exists p, g'. split_and!; [done|done| |done]. intros ->. by apply (Hg p). }
  set (o := out_pipe mode (pipes s)) in *. set (w := err_pipe mode (pipes s)) in *. set (d := pid + 1).
  set (os1 := mkOs (ends s' ⊎ {[+ (Some d, o) +]} ⊎ {[+ (Some d, w) +]}) (pipes s')).
  set (os2 := mkOs (ends s ⊎ {[+ (Some d, o) +]} ⊎ {[+ (Some d, w) +]}) (pipes s')).
  set (ps := <[d := d]> (<[d := pid]> {[pid := pid]}) : gmap Z Z).
  assert (d ≠ pid) as Hd by (unfold d; lia).
  exists (mkMachine os1 ps ({[d]} ∪ {[pid]})), (mkMachine os2 (filter (λ x, x.2 ≠ pid) ps) ({[d]} ∪ {[pid]})), d.
  split_and!.
  - eapply rtc_l; [apply (proc_fork _ _ os1 _ _ pid pid d)|].
    + apply lookup_singleton_eq.
    + by rewrite lookup_singleton_ne.
    + set_solver.
    + intros h q. unfold os1. simpl. rewrite He, !gmultiset_elem_of_disj_union, !gmultiset_elem_of_singleton.
      specialize (Hfree q). naive_solver.
    + rewrite decide_True by set_solver. apply rtc_once. apply (proc_leave _ _ _ _ d pid d), lookup_insert_eq.
  - unfold ps. simpl. rewrite !lookup_insert_ne by done. apply lookup_singleton_eq.
  - split_and!; [done|done|]. intros h q. unfold os1, os2, ps. simpl.
    rewrite He, !gmultiset_elem_of_disj_union, !gmultiset_elem_of_singleton. split.
    + intros Hin. split; [naive_solver|]. intros p ->.
      assert (p ≠ pid) as Hp by (intros ->; specialize (Hfree q); naive_solver).
      rewrite lookup_insert. case_decide; [congruence|].
      rewrite lookup_insert. case_decide; [congruence|]. by rewrite lookup_singleton_ne.
    + intros [Hin Hne]. assert (h ≠ Some pid) as Hp.
      { intros ->. apply (Hne pid); [done|]. rewrite !lookup_insert_ne by done. apply lookup_singleton_eq. }
      naive_solver.
  - set_solver.
  - exists d. simpl. apply map_lookup_filter_Some. split; [apply lookup_insert_eq|done].
  - eapply Forall_impl; [apply streams_task_pipe|]. intros [st q] Hq Heof. simpl in *.
    apply (Heof (Some d)). unfold os2. simpl. destruct Hq as [-> | ->]; multiset_solver.
Qed.
End task_pipes.

(** ** A worker with separate streams *)
Module PipesToy.

Definition fine : Calls := mkCalls (Ok tt) (Ok tt) [Ok tt; Ok tt] (Ok tt) (Ok tt) (Ok 20).
Definition empty_os : Os := mkOs ∅ 0.
Definition after_spawn : Os := (open_and_spawn Separate fine empty_os).2.

Lemma spawn_fine : open_and_spawn Separate fine empty_os = (Ok (20, [(SStdout, 0%nat); (SStderr, 1%nat)]), after_spawn).
Proof. reflexivity. Qed.

(** The second clone of a reader fails: both write ends are closed again. *)
Example failing_clone :
  ends (open_and_spawn Separate (mkCalls (Ok tt) (Ok tt) [Ok tt; Err "EMFILE"] (Ok tt) (Ok tt) (Ok 20)) empty_os).2 = ∅.
Proof. reflexivity. Qed.

Definition all_dead : Machine := mkMachine (mkOs ∅ 2) (delete 20 {[20 := 20]}) {[20]}.

Lemma worker_exits : proc_step (task_pipe Separate empty_os) (mkMachine after_spawn {[20 := 20]} {[20]}) all_dead.
Proof.
  apply (proc_exit _ after_spawn). intros h q. destruct (open_and_spawn_spec _ _ _ _ _ spawn_fine) as [_ He].
  rewrite He. simpl. rewrite !gmultiset_elem_of_disj_union, !gmultiset_elem_of_singleton.
  split; [set_solver|]. intros [[[Hin|Hin]|Hin] Hne]; [set_solver|naive_solver|naive_solver].
Qed.

Lemma no_ends_yet h q : (h, q) ∉ ends empty_os.
Proof. unfold empty_os. simpl. set_solver. Qed.

Lemma readers_end_with_family_witness : at_eof 0 all_dead ∧ at_eof 1 all_dead.
Proof.
  destruct (readers_end_with_family Separate fine empty_os after_spawn 20 [(SStdout, 0%nat); (SStderr, 1%nat)] {[20 := 20]} all_dead) as [_ Hf].
  - intros h q Hin. by apply no_ends_yet in Hin.
  - exact spawn_fine.
  - by exists 20.
  - apply rtc_once. exact worker_exits.
  - apply Forall_cons in Hf as [[_ H1] Hf]. apply Forall_cons in Hf as [[_ H2] _].
    assert (∀ p, p ∈ family all_dead → procs all_dead !! p = None) as Hdead.
    { intros p Hp. simpl in *. apply elem_of_singleton in Hp as ->. apply lookup_delete_eq. }
    split; [exact (H1 Hdead)|exact (H2 Hdead)].
Defined.

Lemma escaped_process_keeps_output_witness :
  ∃ m m' d, procs m !! 20 = Some 20 ∧ killed_group 20 m m' ∧ is_Some (procs m' !! d) ∧
    ¬ at_eof 0 m' ∧ ¬ at_eof 1 m'.
Proof.
  destruct (escaped_process_keeps_output Separate fine empty_os after_spawn 20 [(SStdout, 0%nat); (SStderr, 1%nat)])
    as (_ & m & m' & d & _ & Hw & Hk & _ & Hd & Hf).
  - intros h q Hin. by apply no_ends_yet in Hin.
  - exact spawn_fine.
  - intros q. apply no_ends_yet.
  - apply Forall_cons in Hf as [H1 Hf]. apply Forall_cons in Hf as [H2 _]. exists m, m', d.
    split; [exact Hw|]. split; [exact Hk|]. split; [exact Hd|]. split; [exact H1|exact H2].
Defined.

End PipesToy.
