(* ===== verification/Process.v ===== *)
(** * Task execution (src/src/process/mod.rs: [start_task] to
      [force_stop_process], and the worker command)

    The asynchronous code of one task is a stateful computation driven by a
    schedule: the list of what the outside world does next. At every
    suspension point the computation first takes what other threads and the
    clocks did meanwhile, then the event that resumes it: which branch of a
    [select!] fired, the outcome of an operating system call, a reader thread
    that ended. A theorem about all schedules is a theorem about all orders in
    which timeouts, exits, stop requests and failures can occur.

    A computation ends with a value, with an error ([Fail], what [?] returns),
    by a panic ([Panicked]), or is still suspended when the schedule ends
    ([Blocked]). A schedule with an event that cannot resume the task where it
    is, say a timer before its deadline, is none of this task ([Impossible]).
    The list [effects] records, in order, what other components can observe. A
    transition of the record takes two events, since other threads can see the
    snapshot, and the service can die, before the journal has it ([show],
    [save]). *)

From S2P Require Import Prelude RustStd Model Disk Journal Store Config Capture.
Local Open Scope string_scope.
Local Open Scope list_scope.
Local Open Scope Z_scope.

(** ** Platforms (src/src/process/platform.rs) *)

(** The texts each platform reports about its termination methods. *)
Class Platform := {
  graceful_method : string;
  force_method : string;
  graceful_signal : option string;
  force_signal : option string
}.

Definition unix : Platform := {|
  graceful_method := "process_group_sigterm";
  force_method := "process_group_sigkill";
  graceful_signal := Some "SIGTERM";
  force_signal := Some "SIGKILL"
|}.

Definition windows : Platform := {|
  graceful_method := "ctrl_break_event";
  force_method := "terminate_job_object";
  graceful_signal := Some "CTRL_BREAK";
  force_signal := None
|}.

(** ** The worker command *)

Record WorkerSpec := mkWorkerSpec {
  w_executor : Executor;
  w_program : string;
  w_script : string;
  w_fixed_args : list string;
  w_request_args : list string;
  w_working_directory : string;
  w_env : gmap string string;
  w_graceful_shutdown_seconds : Z
}.

(** A process to start: program, argument vector, directory and the variables
    added to the environment. *)
Record ScriptCommand := mkScriptCommand {
  cmd_program : string;
  cmd_args : list string;
  cmd_current_dir : string;
  cmd_envs : gmap string string
}.

Definition build_script_command (spec : WorkerSpec) : ScriptCommand :=
  mkScriptCommand (w_program spec)
    (launcher_args (w_executor spec) ++ [w_script spec] ++ w_fixed_args spec ++ w_request_args spec)
    (w_working_directory spec) (w_env spec).

(** ** Schedules *)

(** [std::process::ExitStatus]: the exit code, [None] after a signal. *)
Record ExitStatus := mkExitStatus { code : option Z }.

Definition success (s : ExitStatus) : bool := bool_decide (code s = Some 0).

(** What resumes a suspended task. An error carries its text. *)
Inductive Ev :=
| EvStop (why : StopReason)               (* someone publishes a stop request *)
| EvTick (now elapsed : Z)                (* both clocks change *)
| EvTruncated                             (* a reader sets [output_truncated] *)
| EvCall (err : option string)            (* a fallible call returns *)
| EvShown                                 (* a transition takes its lock and updates the snapshot *)
| EvSaved                                 (* a transition writes its record to the journal *)
| EvChildExit (r : result string ExitStatus) (* [child_wait] resolves *)
| EvDeadline                              (* a timer of the select fires *)
| EvStopChanged                           (* [stop_rx.changed()] resolves *)
| EvForceSeen                             (* [wait_for_force_kill] resolves *)
| EvTreeEmpty (err : option string)       (* [tree.wait_empty()] resolves *)
| EvReader (r : result string (option string)). (* a reader task is joined *)

Inductive Effect :=
| Spawned
| SentSpec (spec : WorkerSpec)
| SentTerminate
| SentGraceful
| SentForce
| DroppedPermits
| DroppedControl
| Published (s : TaskSnapshot)
| MarkedFinished.

Definition is_drop (e : Effect) : bool := match e with DroppedPermits => true | _ => false end.

Inductive Stopped := Fail (msg : string) | Panicked | Blocked | Impossible.

Record Run := mkRun {
  record : TaskRecord;
  disk : World;
  seen_version : nat;
  schedule : list Ev;
  clock : Z;
  instant : Z;
  effects : list Effect
}.

Definition P := stm Run Stopped.

Definition set_record (r : TaskRecord) (s : Run) : Run :=
  mkRun r (disk s) (seen_version s) (schedule s) (clock s) (instant s) (effects s).

(** [record.output_truncated.store(true)], by a reader thread. *)
Definition mark_truncated (r : TaskRecord) : TaskRecord :=
  mkTaskRecord (id r) (dir r) (snap r) (stdout_bytes r) (stderr_bytes r) (combined_bytes r)
    (captured_bytes r) true (stop r).

(** Deliver what other threads and the clocks did: the head of the schedule.
    The monotonic clock never goes back. *)
Fixpoint settle_tape (tape : list Ev) (s : Run) : Run :=
  let at_tape tape := mkRun (record s) (disk s) (seen_version s) tape (clock s) (instant s) (effects s) in
  match tape with
  | EvStop why :: tape => settle_tape tape (set_record (request_stop_now why (record s)) s)
  | EvTruncated :: tape => settle_tape tape (set_record (mark_truncated (record s)) s)
  | EvTick now elapsed :: tape =>
      settle_tape tape (mkRun (record s) (disk s) (seen_version s) (schedule s) now
                          (instant s + Z.max 0 elapsed) (effects s))
  | _ => at_tape tape
  end.

Definition settle : P unit := modify (λ s, settle_tape (schedule s) s).

(** Suspend until the next event. *)
Definition next_event : P Ev := λ s,
  match schedule s with
  | [] => (Err Blocked, s)
  | e :: tape => (Ok e, mkRun (record s) (disk s) (seen_version s) tape (clock s) (instant s) (effects s))
  end.

Definition await : P Ev := _ ← settle; next_event.

Definition emit (e : Effect) : P unit := modify (λ s,
  mkRun (record s) (disk s) (seen_version s) (schedule s) (clock s) (instant s) (effects s ++ [e])).

(** A timer of the monotonic clock does not fire before its deadline. *)
Definition expired_at (deadline : Z) (s : Run) : bool := deadline <=? instant s.

(** A fallible call with the context its error gets; an event of another kind
    does not resume it. *)
Definition call (context : string) : P unit :=
  e ← await;
  match e with
  | EvCall None => mret tt
  | EvCall (Some msg) => fail (Fail (context +:+ msg))
  | _ => fail Impossible
  end.

(** [let _ = m.await;]: an error is dropped, a suspension is not. *)
Definition ignore_fail {A} (m : P A) : P unit := λ s,
  match m s with
  | (Ok _, s) | (Err (Fail _), s) => (Ok tt, s)
  | (Err e, s) => (Err e, s)
  end.

(** [Instant::now() + Duration::from_secs(secs)], which panics on overflow. *)
Definition deadline_after (secs : Z) : P Z :=
  s ← gets (λ s, s);
  match Instants.add_secs (instant s) secs with
  | Some t => mret t
  | None => fail Panicked
  end.

Section execution.
Context `{RegexLib, SnapshotJson, TimeLib, Platform}.

(** The first half of [record.transition(update).await?]: under the write lock
    the snapshot changes, and readers see it from here on. The closure reads the
    clock. *)
Definition show (update : Z → TaskSnapshot → TaskSnapshot) : P unit :=
  e ← await;
  match e with
  | EvShown => modify (λ s,
      let r := shown (update (clock s)) (record s) in
      mkRun r (disk s) (seen_version s) (schedule s) (clock s) (instant s)
        (effects s ++ [Published (record_snapshot r)]))
  | _ => fail Impossible
  end.

(** The second half, [persist], after the lock was released: the truncation flag
    is read again, and the disk decides whether the journal can be written. *)
Definition save : P unit :=
  e ← await;
  s ← gets (λ s, s);
  match e with
  | EvSaved =>
      let '(res, w) := persist (record s) (disk s) in
      _ ← modify (λ s, mkRun (record s) w (seen_version s) (schedule s) (clock s) (instant s) (effects s));
      match res with
      | Ok _ => mret tt
      | Err e => fail (Fail (IoError_to_string e))
      end
  | _ => fail Impossible
  end.

(** [record.transition(update).await?]. *)
Definition publish (update : Z → TaskSnapshot → TaskSnapshot) : P unit := _ ← show update; save.

(** ** Termination *)

Definition child_status (context : string) (r : result string ExitStatus) : P ExitStatus :=
  match r with
  | Ok st => mret st
  | Err msg => fail (Fail (context +:+ msg))
  end.

Definition force_message (why : StopReason) (graceful : bool) : string :=
  if graceful then
    if bool_decide (why = RForceKilled) then "收到强制终止请求，已立即终止整个进程树"
    else "平滑退出宽限期已结束，已强制终止整个进程树"
  else "已立即强制终止整个进程树，未尝试平滑退出".

Definition forced_termination (why : StopReason) (graceful : bool) : Termination :=
  mkTermination why graceful true force_method force_signal (Some (force_message why graceful)).

(** [tree.wait_empty().await?]. *)
Definition wait_empty : P unit :=
  e ← await;
  match e with
  | EvTreeEmpty None => mret tt
  | EvTreeEmpty (Some msg) => fail (Fail msg)
  | _ => fail Impossible
  end.

Definition force_stop_process (why : StopReason) (graceful : bool) (worker : option ExitStatus)
    : P ExitStatus :=
  _ ← publish (λ _ s, set_termination (Some (forced_termination why graceful)) (set_status Stopping s));
  _ ← call EmptyString;
  _ ← emit SentForce;
  st ← match worker with
       | Some st => mret st
       | None =>
           e ← await;
           match e with
           | EvChildExit r => child_status "等待 Worker 强制退出失败: " r
           | _ => fail Impossible
           end
       end;
  _ ← wait_empty;
  mret st.

Definition graceful_termination (why : StopReason) (secs : Z) : Termination :=
  mkTermination why true false graceful_method graceful_signal
    (Some ("已请求平滑退出，宽限期 " +:+ pretty secs +:+ " 秒")).

(** The branch [force_requested] of a select resolves only if the channel
    holds a force-kill request. *)
Definition force_pending (s : Run) : bool :=
  bool_decide (Watch.value (stop (record s)) = Some RForceKilled).

(** [stop_process] after the worker was told to stop: the two selects, on the
    worker's exit and on the end of its tree, until the grace period is over. *)
Definition grace_period (why : StopReason) (grace_deadline : Z) : P (ExitStatus * StopReason) :=
  e ← await;
  s ← gets (λ s, s);
  match e with
  | EvForceSeen =>
      if force_pending s then
        st ← force_stop_process RForceKilled true None;
        mret (st, RForceKilled)
      else fail Impossible
  | EvChildExit r =>
      st ← child_status "等待 Worker 平滑退出失败: " r;
      e ← await;
      s ← gets (λ s, s);
      match e with
      | EvTreeEmpty None => mret (st, why)
      | EvTreeEmpty (Some msg) => fail (Fail msg)
      | EvForceSeen =>
          if force_pending s then
            st ← force_stop_process RForceKilled true (Some st);
            mret (st, RForceKilled)
          else fail Impossible
      | EvDeadline =>
          if expired_at grace_deadline s then
            st ← force_stop_process why true (Some st);
            mret (st, why)
          else fail Impossible
      | _ => fail Impossible
      end
  | EvDeadline =>
      if expired_at grace_deadline s then
        st ← force_stop_process why true None;
        mret (st, why)
      else fail Impossible
  | _ => fail Impossible
  end.

(** [stop_process]: the worker's status and the reason that took effect. *)
Definition stop_process (route : ResolvedRoute) (why : StopReason) : P (ExitStatus * StopReason) :=
  if bool_decide (why = RForceKilled) then
    st ← force_stop_process why false None;
    mret (st, why)
  else
    _ ← publish (λ _ s, set_termination
           (Some (graceful_termination why (graceful_shutdown_seconds route))) (set_status Stopping s));
    _ ← ignore_fail (call EmptyString);                    (* write_all *)
    _ ← ignore_fail (call EmptyString);                    (* flush *)
    _ ← emit SentTerminate;
    _ ← call EmptyString;
    _ ← emit SentGraceful;
    grace_deadline ← deadline_after (graceful_shutdown_seconds route);
    grace_period why grace_deadline.

(** ** The main loop *)

(** The [select!] of [run_task]. Every iteration takes an event of the
    schedule, so its length is enough fuel. *)
Fixpoint main_loop (fuel : nat) (route : ResolvedRoute) (deadline : Z) : P (ExitStatus * option StopReason) :=
  match fuel with
  | O => fail Blocked
  | S fuel =>
      e ← await;
      s ← gets (λ s, s);
      match e with
      | EvChildExit r =>
          st ← child_status "等待 Worker 退出失败: " r;
          mret (st, None)
      | EvDeadline =>
          if expired_at deadline s then
            '(st, actual) ← stop_process route RTimeout;
            mret (st, Some actual)
          else fail Impossible
      | EvStopChanged =>
          if Watch.has_changed (stop (record s)) (seen_version s) then
            let '(value, version) := Watch.borrow_and_update (stop (record s)) in
            _ ← modify (λ s, mkRun (record s) (disk s) version (schedule s) (clock s) (instant s) (effects s));
            match value with
            | Some why =>
                '(st, actual) ← stop_process route why;
                mret (st, Some actual)
            | None => main_loop fuel route deadline
            end
          else fail Impossible
      | _ => fail Impossible
      end
  end.

Definition orphan_termination : Termination :=
  mkTermination RTimeout false true force_method force_signal
    (Some "主脚本已经退出，但子进程超过最大执行时间，已强制终止进程树").

(** After the loop: the process tree must be empty. With no stop so far, a
    timeout forces it; an error of [wait_empty] inside the timeout is not
    looked at. *)
Definition settle_tree (deadline : Z) (stopped : option StopReason) : P (option StopReason) :=
  match stopped with
  | None =>
      e ← await;
      s ← gets (λ s, s);
      match e with
      | EvTreeEmpty _ => mret None
      | EvDeadline =>
          if expired_at deadline s then
            _ ← call EmptyString;
            _ ← emit SentForce;
            _ ← publish (λ _ s, set_termination (Some orphan_termination) (set_status Stopping s));
            _ ← wait_empty;
            mret (Some RTimeout)
          else fail Impossible
      | _ => fail Impossible
      end
  | Some why => _ ← wait_empty; mret (Some why)
  end.

(** Join the reader tasks in order. *)
Fixpoint join_readers (n : nat) : P unit :=
  match n with
  | O => mret tt
  | S n =>
      e ← await;
      match e with
      | EvReader (Ok None) => join_readers n
      | EvReader (Ok (Some msg)) => fail (Fail msg)
      | EvReader (Err msg) => fail (Fail ("输出读取任务崩溃: " +:+ msg))
      | _ => fail Impossible
      end
  end.

Definition final_status (stopped : option StopReason) (st : ExitStatus) : TaskStatus :=
  match stopped with
  | Some RTimeout => TimedOut
  | Some RCancelled => Cancelled
  | Some RForceKilled => Killed
  | Some RServerShutdown | Some RServerRestart | Some RParentExited => Interrupted
  | Some RLoggingFailure => Failed
  | None => if success st then Succeeded else Failed
  end.

Definition exit_error (stopped : option StopReason) (c : option Z) : string :=
  match stopped with
  | Some RLoggingFailure => "写入任务日志失败，任务已终止"
  | _ => "脚本退出码非零: " +:+ match c with Some v => pretty v | None => "unknown" end
  end.

(** The closure of the last transition. *)
Definition finish (stopped : option StopReason) (st : ExitStatus) (now : Z) (s : TaskSnapshot)
    : TaskSnapshot :=
  let final := final_status stopped st in
  let s := set_exit_code (code st) (set_finished_at (Some (now_rfc3339 now)) (set_status final s)) in
  if bool_decide (final = Failed) && bool_decide (error s = None)
  then set_error (Some (exit_error stopped (code st))) s
  else s.

Definition spec_of (route : ResolvedRoute) (args : list string) : WorkerSpec :=
  mkWorkerSpec (executor route) (program route) (script route) (fixed_args route) args
    (working_directory route) (env route) (graceful_shutdown_seconds route).

Definition route_mode (route : ResolvedRoute) : OutputMode :=
  if merge_stdout_stderr route then Combined else Separate.

(** [run_task] up to the state [running]. *)
Definition spawn_worker (route : ResolvedRoute) (args : list string) : P unit :=
  _ ← call EmptyString;                                    (* Capture::new *)
  _ ← call EmptyString;                                    (* start_readers *)
  _ ← call "无法确定 command-api 可执行文件路径: ";        (* current_exe *)
  _ ← call EmptyString;                                    (* ProcessTree::new *)
  _ ← call "无法启动内部任务 Worker: ";                    (* spawn *)
  _ ← emit Spawned;
  _ ← call EmptyString;                                    (* tree.attach *)
  _ ← call "无法打开 Worker 控制管道";                     (* stdin.take *)
  _ ← call EmptyString;                                    (* to_vec *)
  _ ← call "无法初始化任务 Worker: ";                      (* write_all *)
  _ ← emit (SentSpec (spec_of route args));
  _ ← call EmptyString;                                    (* flush *)
  publish (λ now s, set_started_at (Some (now_rfc3339 now)) (set_status Running s)).

(** [run_task] up to the main loop: the deadline of the task. *)
Definition launch (route : ResolvedRoute) (args : list string) : P Z :=
  _ ← spawn_worker route args;
  deadline_after (max_execution_seconds route).

(** [run_task] after the main loop. *)
Definition conclude (route : ResolvedRoute) (deadline : Z) (st : ExitStatus) (stopped : option StopReason)
    : P unit :=
  stopped ← settle_tree deadline stopped;
  _ ← emit DroppedControl;
  _ ← join_readers (length (readers (Capture_new (route_mode route))));
  _ ← emit DroppedPermits;
  publish (finish stopped st).

Definition run_task (route : ResolvedRoute) (args : list string) : P unit :=
  deadline ← launch route args;
  n ← gets (λ s, S (length (schedule s)));
  '(st, stopped) ← main_loop n route deadline;
  conclude route deadline st stopped.

(** The transition of the error branch of [start_task]. *)
Definition abandon (msg : string) (now : Z) (s : TaskSnapshot) : TaskSnapshot :=
  if is_finished (status s) then s
  else set_error (Some ("任务执行器异常: " +:+ msg))
         (set_finished_at (Some (now_rfc3339 now)) (set_status Failed s)).

(** The permits are owned by [run_task]: an early return or a panic drops
    them when its frame is left. *)
Definition drop_permits : P unit := λ s,
  if existsb is_drop (effects s) then (Ok tt, s) else emit DroppedPermits s.

(** The task spawned by [start_task]. *)
Definition start_task (route : ResolvedRoute) (args : list string) : P unit := λ s,
  match run_task route args (mkRun (record s) (disk s) (subscribe_stop (record s)) (schedule s)
                               (clock s) (instant s) (effects s)) with
  | (Ok _, s) => emit MarkedFinished s
  | (Err (Fail msg), s) =>
      (_ ← drop_permits;
       _ ← ignore_fail (publish (abandon msg));
       emit MarkedFinished) s
  | (Err Panicked, s) => (Err Panicked, (drop_permits s).2)
  | (Err e, s) => (Err e, s)
  end.
End execution.

(** ** Fuel *)

Lemma settle_tape_length tape s : (length (schedule (settle_tape tape s)) ≤ length tape)%nat.
Proof.
  revert s. induction tape as [|e tape IH]; intros s; [done|].
  destruct e; simpl; try lia; (etrans; [apply IH|lia]).
Qed.

(** Every suspension point takes an event. *)
Lemma await_shrinks s e s' :
  await s = (Ok e, s') → (length (schedule s') < length (schedule s))%nat.
Proof.
  unfold await, mbind, stm_bind, settle, modify, next_event.
  pose proof (settle_tape_length (schedule s) s) as Hl.
  destruct (schedule (settle_tape _ _)) as [|e' tape]; [done|]. intros [= _ <-]. simpl in *. lia.
Qed.

(** More fuel than events changes nothing: the loop stops with the schedule,
    not with the fuel. *)
Lemma main_loop_fuel `{RegexLib, SnapshotJson, TimeLib, Platform} n m route deadline s :
  (length (schedule s) < n)%nat → (length (schedule s) < m)%nat →
  main_loop n route deadline s = main_loop m route deadline s.
Proof.
  revert m s. induction n as [|n IH]; intros [|m] s Hn Hm; [lia..|]. cbn [main_loop].
  unfold mbind, stm_bind, gets. destruct (await s) as [[e|e] s1] eqn:Ha; [|done].
  apply await_shrinks in Ha. destruct e; try done.
  destruct (Watch.has_changed _ _); [|done]. simpl. destruct (Watch.value _); [done|].
  unfold modify. apply IH; simpl; lia.
Qed.

(** ** What the outside world can change

    Between two steps of a task only the clocks, the schedule, the stop channel
    and the truncation flag of its record change. *)

Record outside (s s' : Run) : Prop := mk_outside {
  outside_snap : snap (record s') = snap (record s);
  outside_dir : dir (record s') = dir (record s);
  outside_disk : disk s' = disk s;
  outside_effects : effects s' = effects s;
  outside_instant : instant s ≤ instant s';
  outside_tape : ∀ e, e ∈ schedule s' → e ∈ schedule s;
  outside_stop : Watch.value (stop (record s')) = Watch.value (stop (record s)) ∨
    ∃ why, EvStop why ∈ schedule s ∧ Watch.value (stop (record s')) = Some why
}.

(** The task has not ended: it waits, or the schedule is not one of it. *)
Definition suspended (e : Stopped) : Prop := e = Blocked ∨ e = Impossible.

(** Assertions the outside world cannot break. *)
Class Stable (I : Run → Prop) : Prop := stable : ∀ s s', outside s s' → I s → I s'.

Lemma settle_tape_outside tape s :
  (∀ e, e ∈ tape → e ∈ schedule s) → outside s (settle_tape tape s).
Proof.
  revert s. induction tape as [|e tape IH]; intros s Htape.
  { split; simpl; auto; solve [lia | set_solver]. }
  assert (∀ e', e' ∈ tape → e' ∈ schedule s) as Htape' by set_solver.
  assert (e ∈ schedule s) as He by set_solver.
  destruct e; simpl; try (split; simpl; auto; solve [lia | set_solver]).
  - destruct (IH (set_record (request_stop_now why (record s)) s) Htape') as [H1 H2 H3 H4 H5 H6 H7].
    split; auto. right. destruct H7 as [H7|(w & Hw & H7)]; [by exists why|]. by exists w.
  - destruct (IH (mkRun (record s) (disk s) (seen_version s) (schedule s) now
                    (instant s + Z.max 0 elapsed) (effects s)) Htape') as [H1 H2 H3 H4 H5 H6 H7].
    split; auto. simpl in H5. lia.
  - destruct (IH (set_record (mark_truncated (record s)) s) Htape') as [H1 H2 H3 H4 H5 H6 H7].
    by split.
Qed.

Lemma await_Blocked e s s' : await s = (Err e, s') → e = Blocked.
Proof.
  unfold await, mbind, stm_bind, settle, modify, next_event.
  destruct (schedule _); [|done]. by intros [= <- _].
Qed.

(** The event that resumes a task was in its schedule. *)
Lemma await_in_schedule s e s' : await s = (Ok e, s') → e ∈ schedule s.
Proof.
  unfold await, mbind, stm_bind, settle, modify, next_event.
  pose proof (settle_tape_outside (schedule s) s (λ e He, He)) as Ho.
  destruct (schedule (settle_tape _ _)) as [|e' tape] eqn:Ht; [done|]. intros [= <- _].
  apply (outside_tape _ _ Ho). rewrite Ht. by left.
Qed.

Section stable_rules.
Context (I : Run → Prop) `{!Stable I}.

Lemma settle_rule X : triple I settle (λ _, I) X.
Proof. intros s Hs. simpl. eapply stable; [apply settle_tape_outside; auto | done]. Qed.

Lemma next_event_rule (X : Stopped → Run → Prop) :
  (∀ e s, I s → X e s) → triple I next_event (λ _, I) X.
Proof.
  intros HX s Hs. unfold next_event. destruct (schedule s) as [|e tape] eqn:Ht; [by apply HX|].
  eapply stable; [|exact Hs]. split; simpl; auto; rewrite ?Ht; solve [lia | set_solver].
Qed.

Lemma await_rule (X : Stopped → Run → Prop) :
  (∀ e s, I s → X e s) → triple I await (λ _, I) X.
Proof.
  intros HX. eapply triple_bind; [apply settle_rule|]. intros ?. by apply next_event_rule.
Qed.

Lemma await_keeps s r s' : I s → await s = (r, s') → I s'.
Proof.
  intros Hs Ha. pose proof (await_rule (λ _, I) (λ _ _ Hs, Hs) s Hs) as Hr. rewrite Ha in Hr.
  by destruct r.
Qed.

Lemma await_event_rule (X : Stopped → Run → Prop) :
  (∀ e s, I s → X e s) → triple I await (λ e s, (∃ s0, I s0 ∧ e ∈ schedule s0) ∧ I s) X.
Proof.
  intros HX s Hs. pose proof (await_rule X HX s Hs) as Hr.
  destruct (await s) as [[e|e] s'] eqn:Ha; [|done]. split; [|done]. exists s. split; [done|].
  by eapply await_in_schedule.
Qed.

Lemma fail_rule {A} e (Q : A → Run → Prop) (X : Stopped → Run → Prop) :
  (∀ e s, I s → X e s) → triple I (fail e) Q X.
Proof. intros HX s Hs. by apply HX. Qed.

Lemma call_rule context (X : Stopped → Run → Prop) :
  (∀ e s, I s → X e s) → triple I (call context) (λ _, I) X.
Proof.
  intros HX. eapply triple_bind; [by apply await_rule|].
  intros []; try by apply fail_rule. destruct err; [by apply fail_rule | by apply triple_ret].
Qed.

Lemma ignore_fail_rule {A} (m : P A) (X : Stopped → Run → Prop) :
  triple I m (λ _, I) (λ _, I) → (∀ e s, I s → X e s) → triple I (ignore_fail m) (λ _, I) X.
Proof.
  intros Hm HX s Hs. specialize (Hm s Hs). unfold ignore_fail.
  destruct (m s) as [[a|[]] s']; auto.
Qed.

Lemma child_status_rule context r (X : Stopped → Run → Prop) :
  (∀ e s, I s → X e s) → triple I (child_status context r) (λ _, I) X.
Proof. intros HX. destruct r; [by apply triple_ret | by apply fail_rule]. Qed.

Lemma child_status_exit context r (X : Stopped → Run → Prop) :
  (∀ e s, I s → X e s) → triple I (child_status context r) (λ st s, r = Ok st ∧ I s) X.
Proof. intros HX. destruct r; [by apply triple_ret | by apply fail_rule]. Qed.

Lemma wait_empty_rule (X : Stopped → Run → Prop) :
  (∀ e s, I s → X e s) → triple I wait_empty (λ _, I) X.
Proof.
  intros HX. eapply triple_bind; [by apply await_rule|].
  intros []; try by apply fail_rule. destruct err; [by apply fail_rule | by apply triple_ret].
Qed.

Lemma deadline_after_rule secs (X : Stopped → Run → Prop) :
  (∀ e s, I s → X e s) → triple I (deadline_after secs) (λ _, I) X.
Proof.
  intros HX s Hs. unfold deadline_after, mbind, stm_bind, gets.
  destruct (Instants.add_secs _ _); [done | by apply HX].
Qed.

Lemma join_readers_rule n (X : Stopped → Run → Prop) :
  (∀ e s, I s → X e s) → triple I (join_readers n) (λ _, I) X.
Proof.
  intros HX. induction n as [|n IH]; [by apply triple_ret|]. simpl.
  eapply triple_bind; [by apply await_rule|].
  intros []; try by apply fail_rule. destruct r as [[]|]; try by apply fail_rule. done.
Qed.
End stable_rules.

Section rules.
Context `{RegexLib, SnapshotJson, TimeLib, Platform}.

Lemma emit_rule e (I : Run → Prop) (Q : unit → Run → Prop) X :
  (∀ s, I s → Q tt (mkRun (record s) (disk s) (seen_version s) (schedule s) (clock s) (instant s)
                      (effects s ++ [e]))) →
  triple I (emit e) Q X.
Proof. intros HQ. by apply triple_modify. Qed.

(** What the first half of a transition does, *)
Record after_show (update : Z → TaskSnapshot → TaskSnapshot) (s s' : Run) : Prop := {
  ap_snap : snap (record s') =
    set_output_truncated (truncated (record s)) (update (clock s) (snap (record s)));
  ap_effects : effects s' = effects s ++ [Published (snap (record s'))];
  ap_schedule : schedule s' = schedule s;
  ap_instant : instant s' = instant s;
  ap_stop : stop (record s') = stop (record s);
  ap_dir : dir (record s') = dir (record s);
  ap_disk : disk s' = disk s
}.

(** and the second, whether or not the journal could be written. *)
Record after_save (s s' : Run) : Prop := {
  as_record : record s' = record s;
  as_effects : effects s' = effects s;
  as_schedule : schedule s' = schedule s;
  as_instant : instant s' = instant s;
  as_disk : disk s' = (persist (record s) (disk s)).2
}.

Lemma show_rule update (I J : Run → Prop) `{!Stable I} (X : Stopped → Run → Prop) :
  (∀ s s', I s → after_show update s s' → J s') → (∀ e s, suspended e → I s → X e s) →
  triple I (show update) (λ _, J) X.
Proof.
  intros HJ HX s0 Hs0. unfold show, mbind, stm_bind.
  destruct (await s0) as [[e|e] s] eqn:Ha;
    [|apply HX; [left; exact (await_Blocked _ _ _ Ha)|exact (await_keeps I _ _ _ Hs0 Ha)]].
  pose proof (await_keeps I _ _ _ Hs0 Ha) as Hs. unfold fail, modify.
  destruct e; try (by apply HX; [right|]).
  eapply HJ; [exact Hs|]. by split.
Qed.

Lemma save_rule (I J : Run → Prop) `{!Stable I} (X : Stopped → Run → Prop) :
  (∀ s s', I s → after_save s s' → J s') →
  (∀ msg s, J s → X (Fail msg) s) → (∀ e s, suspended e → I s → X e s) →
  triple I save (λ _, J) X.
Proof.
  intros HJ HF HX s0 Hs0. unfold save, mbind, stm_bind, gets, modify, fail.
  destruct (await s0) as [[e|e] s] eqn:Ha;
    [|apply HX; [left; exact (await_Blocked _ _ _ Ha)|exact (await_keeps I _ _ _ Hs0 Ha)]].
  pose proof (await_keeps I _ _ _ Hs0 Ha) as Hs. destruct e; try (by apply HX; [right|]).
  destruct (persist _ (disk s)) as [res w] eqn:Hp.
  assert (J (mkRun (record s) w (seen_version s) (schedule s) (clock s) (instant s) (effects s))) as Hafter.
  { eapply HJ; [exact Hs|]. split; try done. by rewrite Hp. }
  destruct res; [done|]. by apply HF.
Qed.

(** A transition: [K] holds while it is shown and not yet written. *)
Lemma publish_rule update (I K J : Run → Prop) `{!Stable I, !Stable K} (X : Stopped → Run → Prop) :
  (∀ s s', I s → after_show update s s' → K s') → (∀ s s', K s → after_save s s' → J s') →
  (∀ msg s, J s → X (Fail msg) s) → (∀ e s, suspended e → I s → X e s) →
  (∀ e s, suspended e → K s → X e s) →
  triple I (publish update) (λ _, J) X.
Proof.
  intros HK HJ HF HX HX'. eapply triple_bind; [by apply (show_rule update I K)|].
  intros ?. by apply save_rule.
Qed.

(** With nothing in between, the two halves are [Store.transition]. *)
Lemma publish_transition update tape s :
  schedule s = EvShown :: EvSaved :: tape →
  publish update s =
    let '(res, r, w) := transition (update (clock s)) (record s) (disk s) in
    (match res with Ok _ => Ok tt | Err e => Err (Fail (IoError_to_string e)) end,
     mkRun r w (seen_version s) tape (clock s) (instant s) (effects s ++ [Published (record_snapshot r)])).
Proof.
  intros Hs. unfold publish, show, save, transition, await, settle, next_event, modify, gets, mbind, stm_bind.
  rewrite Hs. simpl. by destruct (persist _ _) as [[[]|] w].
Qed.

(** ** Invariants of a running task *)

#[global] Instance stable_and (I J : Run → Prop) : Stable I → Stable J → Stable (λ s, I s ∧ J s).
Proof. intros HI HJ s s' Ho [??]. split; by eapply stable. Qed.

(** Effects of a task that is still running. *)
Definition quiet (spec : WorkerSpec) (e : Effect) : Prop :=
  match e with
  | DroppedPermits | MarkedFinished => False
  | Published sn => is_finished (status sn) = false
  | SentSpec sp => sp = spec
  | _ => True
  end.

(** An assertion every step before the permits are dropped preserves. *)
Class Ongoing (spec : WorkerSpec) (I : Run → Prop) : Prop := {
  running_stable :: Stable I;
  running_emit e s : quiet spec e → I s →
    I (mkRun (record s) (disk s) (seen_version s) (schedule s) (clock s) (instant s) (effects s ++ [e]));
  running_show update s s' : (∀ now sn, is_finished (status (update now sn)) = false) →
    I s → after_show update s s' → I s';
  running_save s s' : I s → after_save s s' → I s'
}.

Definition is_graceful (e : Effect) : bool := match e with SentGraceful => true | _ => false end.
Definition is_force (e : Effect) : bool := match e with SentForce => true | _ => false end.

(** The reported termination, and whether the tree was signalled. *)
Definition track (t : option Termination) (g f : bool) (s : Run) : Prop :=
  termination (snap (record s)) = t ∧
  existsb is_graceful (effects s) = g ∧ existsb is_force (effects s) = f.

(** The termination record tells what was done to the process tree. *)
Definition agrees (stopped : option StopReason) (s : Run) : Prop :=
  match stopped with
  | None => track None false false s
  | Some why => ∃ t, reason t = why ∧ track (Some t) (graceful_attempted t) (forced t) s ∧
      (why = RForceKilled → forced t = true)
  end.

#[global] Instance track_stable t g f : Stable (track t g f).
Proof.
  intros s s' [Hs _ _ He _ _ _] (? & ? & ?). unfold track. rewrite Hs, He. done.
Qed.

#[global] Instance agrees_stable stopped : Stable (agrees stopped).
Proof.
  destruct stopped as [why|]; intros s s' Ho Ha; [|by eapply track_stable].
  destruct Ha as (t & ? & Ht & ?). exists t. split_and!; [done| |done]. by eapply track_stable.
Qed.

Lemma track_emit t g f e s :
  track t g f s →
  track t (g || is_graceful e) (f || is_force e)
    (mkRun (record s) (disk s) (seen_version s) (schedule s) (clock s) (instant s) (effects s ++ [e])).
Proof.
  intros (? & Hg & Hf). unfold track. simpl. rewrite !existsb_app, Hg, Hf. simpl.
  by rewrite !orb_false_r.
Qed.

Lemma track_save t g f s s' : track t g f s → after_save s s' → track t g f s'.
Proof. intros (? & ? & ?) [Hr He _ _ _]. unfold track. by rewrite Hr, He. Qed.

Lemma track_show t g f update s s' :
  track t g f s → after_show update s s' →
  track (termination (update (clock s) (snap (record s)))) g f s'.
Proof.
  intros (? & Hg & Hf) [Hs He _ _ _ _ _]. unfold track. rewrite Hs, He, !existsb_app, Hg, Hf. simpl.
  rewrite !orb_false_r. split_and!; [|done|done]. by destruct (update _ _).
Qed.
End rules.

(** Steps of a running task, with the invariant [I] and the tracked facts. *)
Section running.
Context `{RegexLib, SnapshotJson, TimeLib, Platform}.
Context (spec : WorkerSpec) (I : Run → Prop) `{!Ongoing spec I}.
Context (X : Stopped → Run → Prop) (HX : ∀ e s, I s → X e s).
(** The exits of the worker that may happen, and the stops that may be asked
    for. *)
Context (exited : ExitStatus → Prop) (asked : StopReason → Prop).
Context (HE : ∀ s st, I s → EvChildExit (Ok st) ∈ schedule s → exited st).
Context (HA : ∀ s why, I s → Watch.value (stop (record s)) = Some why → asked why).

Lemma HX_and J e s : I s ∧ J s → X e s.
Proof. intros [? _]. by apply HX. Qed.

Lemma emit_step e t g f :
  quiet spec e →
  triple (λ s, I s ∧ track t g f s) (emit e)
    (λ _ s, I s ∧ track t (g || is_graceful e) (f || is_force e) s) X.
Proof.
  intros He. apply emit_rule. intros s [HI Ht].
  split; [by apply (running_emit (spec:=spec)) | by apply track_emit].
Qed.

Lemma publish_step update T t g f :
  (∀ now sn, is_finished (status (update now sn)) = false) →
  (∀ now sn, termination sn = t → termination (update now sn) = T) →
  triple (λ s, I s ∧ track t g f s) (publish update) (λ _ s, I s ∧ track T g f s) X.
Proof.
  intros Hf HT. apply (publish_rule _ _ (λ s, I s ∧ track T g f s)); [apply _|apply _| | |intros; by eapply HX_and..].
  - intros s s' [HI Ht] Ha. split; [by eapply (running_show (spec:=spec))|].
    destruct Ht as (Ht & ?). rewrite <- (HT (clock s) (snap (record s))) by done.
    eapply track_show; [by split|done].
  - intros s s' [HI Ht] Ha. split; [by eapply (running_save (spec:=spec))|by eapply track_save].
Qed.

Ltac step_event e H :=
  eapply triple_bind; [apply await_event_rule; [apply _|intros; by eapply HX_and]|]; intros e;
  apply triple_pure; intros H.

(** An exit that was awaited. *)
Lemma exit_rule context r J :
  (∃ s0, (I s0 ∧ J s0) ∧ EvChildExit r ∈ schedule s0) →
  triple (λ s, I s ∧ J s) (child_status context r) (λ st s, exited st ∧ I s ∧ J s) X.
Proof.
  intros (s0 & [HI _] & Hin) s Hs.
  destruct r as [st|msg]; simpl; [split; [by eapply HE|done]|by eapply HX_and].
Qed.

Lemma force_stop_process_rule why g worker t :
  (∀ st, worker = Some st → exited st) →
  triple (λ s, I s ∧ track t g false s) (force_stop_process why g worker)
    (λ st s, exited st ∧ I s ∧ track (Some (forced_termination why g)) g true s) X.
Proof.
  intros Hworker. unfold force_stop_process.
  eapply triple_bind; [by apply (publish_step _ (Some (forced_termination why g)))|]. intros ?.
  eapply triple_bind; [apply call_rule; [apply _|intros; by eapply HX_and]|]. intros ?.
  eapply triple_bind; [by apply emit_step|]. intros ?. simpl. rewrite !orb_false_r.
  eapply triple_bind with (Q := λ st s, exited st ∧ I s ∧ track (Some (forced_termination why g)) g true s).
  - destruct worker as [st|]; [apply triple_ret; intros s Hs; split; [by apply Hworker|done]|].
    step_event e Hin. destruct e; try (apply fail_rule; intros; by eapply HX_and). exact (exit_rule _ _ _ Hin).
  - intros st. apply triple_pure. intros Hst.
    eapply triple_bind; [apply wait_empty_rule; [apply _|intros; by eapply HX_and]|].
    intros ?. by apply triple_ret.
Qed.

(** [stop_process] returns an exit of the worker, and reports the reason it was
    given or a kill that was asked for. *)
Definition stopped_for (why : StopReason) (r : ExitStatus * StopReason) (s : Run) : Prop :=
  exited r.1 ∧ (r.2 = why ∨ r.2 = RForceKilled ∧ asked RForceKilled) ∧ I s ∧ agrees (Some r.2) s.

Lemma forced_stop why actual g worker t :
  (∀ st, worker = Some st → exited st) → actual = why ∨ actual = RForceKilled ∧ asked RForceKilled →
  triple (λ s, I s ∧ track t g false s)
    (st ← force_stop_process actual g worker; mret (st, actual)) (stopped_for why) X.
Proof.
  intros Hworker Hw. eapply triple_bind; [by apply force_stop_process_rule|]. intros st.
  apply triple_ret. intros s (Hst & HI & Ht). split_and!; [done|done|done|].
  by exists (forced_termination actual g).
Qed.

Ltac skip_call := eapply triple_bind; [apply call_rule; [apply _|intros; by eapply HX_and]|]; intros ?.
Ltac blocked := try (apply fail_rule; intros; by eapply HX_and).

(** A kill that is pending when a select looks was asked for. *)
Lemma force_pending_asked s : I s → force_pending s = true → asked RForceKilled.
Proof. intros HI Hp. unfold force_pending in Hp. breflect. by eapply HA. Qed.

Lemma grace_period_rule why grace t :
  reason t = why → graceful_attempted t = true → forced t = false → why ≠ RForceKilled →
  triple (λ s, I s ∧ track (Some t) true false s) (grace_period why grace) (stopped_for why) X.
Proof.
  intros Ht1 Ht2 Ht3 Hk.
  unfold grace_period. step_event e Hin. eapply triple_bind; [apply triple_gets_keep|]. intros s1. simpl.
  destruct e; try solve [apply triple_drop; blocked].
  - apply triple_drop. eapply triple_bind; [exact (exit_rule _ _ _ Hin)|]. intros st.
    apply triple_pure. intros Hst.
    assert (∀ st', Some st = Some st' → exited st') as Hworker by by intros ? [= <-].
    step_event e' Hin'. eapply triple_bind; [apply triple_gets_keep|]. intros s2. simpl.
    destruct e'; try solve [apply triple_drop; blocked].
    + apply triple_drop. destruct (expired_at _ _); blocked. apply forced_stop; [done|by left].
    + apply (triple_pre (λ s, I s2 ∧ I s ∧ track (Some t) true false s)); [|by intros s [-> [? ?]]].
      apply triple_pure. intros HI. destruct (force_pending s2) eqn:Hp; blocked.
      apply forced_stop; [done|right]. split; [done|by eapply force_pending_asked].
    + apply triple_drop. destruct err; blocked. apply triple_ret. intros s [HI Ht].
      split_and!; [done|by left|done|]. exists t. rewrite Ht2, Ht3. by split_and!.
  - apply triple_drop. destruct (expired_at _ _); blocked. apply forced_stop; [done|by left].
  - apply (triple_pre (λ s, I s1 ∧ I s ∧ track (Some t) true false s)); [|by intros s [-> [? ?]]].
    apply triple_pure. intros HI. destruct (force_pending s1) eqn:Hp; blocked.
    apply forced_stop; [done|right]. split; [done|by eapply force_pending_asked].
Qed.

Lemma stop_process_rule route why :
  triple (λ s, I s ∧ track None false false s) (stop_process route why) (stopped_for why) X.
Proof.
  unfold stop_process. case_bool_decide as Hk; [by apply forced_stop; auto|].
  set (T := graceful_termination why (graceful_shutdown_seconds route)).
  eapply triple_bind; [by apply (publish_step _ (Some T))|]. intros ?.
  do 2 (eapply triple_bind; [apply ignore_fail_rule;
    [apply call_rule; [apply _|by intros]|intros; by eapply HX_and]|]; intros ?).
  eapply triple_bind; [by apply emit_step|]. intros ?. simpl.
  skip_call. eapply triple_bind; [by apply emit_step|]. intros ?. simpl.
  eapply triple_bind; [apply deadline_after_rule; intros; by eapply HX_and|]. intros grace.
  by apply (grace_period_rule why grace T).
Qed.
End running.

#[global] Instance late_stable t : Stable (λ s, t ≤ instant s).
Proof. intros s s' Ho ?. pose proof (outside_instant _ _ Ho). lia. Qed.

#[global] Instance late_running `{SnapshotJson, TimeLib} spec t : Ongoing spec (λ s, t ≤ instant s).
Proof.
  split; [apply _|done|intros u s s' _ ? Ha|intros s s' ? Ha].
  - by rewrite (ap_instant _ _ _ Ha).
  - by rewrite (as_instant _ _ Ha).
Qed.

#[global] Instance running_and `{SnapshotJson, TimeLib} spec I J :
  Ongoing spec I → Ongoing spec J → Ongoing spec (λ s, I s ∧ J s).
Proof.
  intros HI HJ. split; [apply _| | |].
  - intros e s He [??]. split; by apply (running_emit (spec:=spec)).
  - intros u s s' Hu [??] Ha. split; by eapply (running_show (spec:=spec)).
  - intros s s' [??] Ha. split; by eapply (running_save (spec:=spec)).
Qed.

Section outcome.
Context `{RegexLib, SnapshotJson, TimeLib, Platform}.
Context (spec : WorkerSpec) (I : Run → Prop) `{!Ongoing spec I}.
Context (X : Stopped → Run → Prop) (HX : ∀ e s, I s → X e s).
Context (exited : ExitStatus → Prop) (asked : StopReason → Prop) (timed : Prop).
Context (HE : ∀ s st, I s → EvChildExit (Ok st) ∈ schedule s → exited st).
Context (HA : ∀ s why, I s → Watch.value (stop (record s)) = Some why → asked why).
Context (HT : ∀ s, I s → EvDeadline ∈ schedule s → timed).

Ltac blocked := try (apply fail_rule; intros ?? [? _]; by apply HX).

(** Why the task was stopped: somebody asked for it, or its timer fired when its
    time was over. *)
Definition caused (deadline : Z) (stopped : option StopReason) (s : Run) : Prop :=
  match stopped with
  | None => True
  | Some why => asked why ∨ why = RTimeout ∧ timed ∧ deadline ≤ instant s
  end.

#[global] Instance caused_stable deadline stopped : Stable (caused deadline stopped).
Proof.
  intros s s' Ho Hc. pose proof (outside_instant _ _ Ho). destruct stopped as [why|]; [|done].
  destruct Hc as [?|(? & ? & ?)]; [by left|right]. split_and!; [done|done|lia].
Qed.

(** What the main loop and the wait for the tree establish. *)
Definition outcome (deadline : Z) (stopped : option StopReason) (s : Run) : Prop :=
  I s ∧ agrees stopped s ∧ caused deadline stopped s.

#[global] Instance outcome_stable deadline stopped : Stable (outcome deadline stopped).
Proof.
  intros s s' Ho (HI & Ha & Hl). split_and!; [|by eapply agrees_stable|by eapply caused_stable].
  by eapply (running_stable (spec:=spec)).
Qed.

Lemma loop_stop route deadline why :
  asked why →
  triple (λ s, I s ∧ track None false false s)
    ('(st, actual) ← stop_process route why; mret (st, Some actual))
    (λ r s, exited r.1 ∧ outcome deadline r.2 s) X.
Proof.
  intros Hw. eapply triple_bind; [exact (stop_process_rule spec I X HX exited asked HE HA route why)|].
  intros [st actual]. apply triple_ret. intros s (He & Hr & HI & Ha). split; [exact He|].
  split_and!; [exact HI|exact Ha|]. left. simpl in *. by destruct Hr as [->|[-> ?]].
Qed.

Lemma loop_timeout route deadline :
  timed →
  triple (λ s, I s ∧ (deadline ≤ instant s) ∧ track None false false s)
    ('(st, actual) ← stop_process route RTimeout; mret (st, Some actual))
    (λ r s, exited r.1 ∧ outcome deadline r.2 s) X.
Proof.
  intros Ht.
  eapply triple_pre with (I := λ s, (I s ∧ deadline ≤ instant s) ∧ track None false false s);
    [|by intros s (? & ? & ?)].
  eapply triple_bind; [apply (stop_process_rule spec (λ s, I s ∧ deadline ≤ instant s) X) with (exited:=exited) (asked:=asked)|].
  - intros ?? [??]; by apply HX.
  - intros ?? [??] ?; by eapply HE.
  - intros ?? [??] ?; by eapply HA.
  - intros [st actual]. apply triple_ret. intros s (He & Hr & [HI Hl] & Ha).
    split; [exact He|]. split_and!; [exact HI|exact Ha|]. simpl in *. destruct Hr as [->|[-> ?]]; [by right|by left].
Qed.

Lemma main_loop_rule fuel route deadline :
  triple (λ s, I s ∧ track None false false s) (main_loop fuel route deadline)
    (λ r s, exited r.1 ∧ outcome deadline r.2 s) X.
Proof.
  induction fuel as [|fuel IH]; simpl; blocked.
  eapply triple_bind; [apply await_event_rule; [apply _|intros ?? [? _]; by apply HX]|]. intros e.
  apply triple_pure. intros Hin.
  eapply triple_bind; [apply triple_gets_keep|]. intros s1. simpl.
  destruct e; try solve [apply triple_drop; blocked].
  - apply triple_drop. eapply triple_bind; [exact (exit_rule I X HX exited HE _ _ _ Hin)|].
    intros st. apply triple_ret. intros s (He & HI & Ht). by split_and!.
  - assert timed as Hd by (destruct Hin as (s0 & [HI _] & Hin); by eapply HT).
    destruct (expired_at deadline s1) eqn:He; [|apply triple_drop; blocked].
    eapply triple_pre; [by apply loop_timeout|]. intros s [-> [HI Ht]].
    unfold expired_at in He. breflect. done.
  - destruct (Watch.has_changed _ _); [|apply triple_drop; blocked]. simpl.
    eapply triple_bind with (Q := λ _ s, (∀ why, Watch.value (stop (record s1)) = Some why → asked why) ∧
                                 I s ∧ track None false false s).
    { apply triple_modify. intros s [-> [HI Ht]]. split_and!; [intros why; by apply HA| |done].
      eapply (running_stable (spec:=spec)); [|exact HI]. by split; simpl; auto. }
    intros ?. apply triple_pure. intros Hw.
    destruct (Watch.value (stop (record s1))) as [why|]; [|exact IH].
    apply loop_stop. by apply Hw.
Qed.

Lemma settle_tree_rule deadline stopped :
  triple (outcome deadline stopped) (settle_tree deadline stopped) (outcome deadline) X.
Proof.
  assert (∀ st e s, outcome deadline st s → X e s) as HX' by (intros ??? [? _]; by apply HX).
  destruct stopped as [why|]; simpl.
  { eapply triple_bind; [apply wait_empty_rule; [apply _|apply HX']|]. intros ?. by apply triple_ret. }
  eapply triple_bind; [apply await_event_rule; [apply _|apply HX']|]. intros e. apply triple_pure. intros Hin.
  eapply triple_bind; [apply triple_gets_keep|]. intros s1. simpl.
  destruct e; try (apply triple_drop, fail_rule, HX').
  2: { apply triple_drop. by apply triple_ret. }
  assert timed as Hd by (destruct Hin as (s0 & [HI _] & Hin); by eapply HT).
  destruct (expired_at deadline s1) eqn:He; [|apply triple_drop, fail_rule, HX'].
  eapply triple_pre with (I := λ s, (I s ∧ deadline ≤ instant s) ∧ track None false false s).
  2: { intros s (-> & HI & Ht & _). unfold expired_at in He. breflect. done. }
  assert (∀ J e s, (I s ∧ deadline ≤ instant s) ∧ J s → X e s) as HX'' by (intros ??? [[? _] _]; by apply HX).
  assert (∀ e s, I s ∧ deadline ≤ instant s → X e s) as HX3 by (intros ?? [? _]; by apply HX).
  eapply triple_bind; [apply call_rule; [apply _|apply HX'']|]. intros ?.
  eapply triple_bind; [by apply (emit_step spec _)|]. intros ?. simpl.
  eapply triple_bind; [by apply (publish_step spec _ X HX3 _ (Some orphan_termination))|]. intros ?.
  eapply triple_bind; [apply wait_empty_rule; [apply _|apply HX'']|]. intros ?.
  apply triple_ret. intros s [[HI Hl] Ht]. split_and!; [done| |by right].
  by exists orphan_termination.
Qed.
End outcome.

(** ** Whole tasks *)

Section tasks.
Context `{RegexLib, SnapshotJson, TimeLib, Platform}.
Context (spec : WorkerSpec).

(** Nothing final has been shown or released. *)
Definition busy (s : Run) : Prop :=
  Forall (quiet spec) (effects s) ∧ is_finished (status (snap (record s))) = false.

(** Nobody asks for a stop with the reason reserved for the task's own timer. *)
Definition no_timeout_request (s : Run) : Prop :=
  Watch.value (stop (record s)) ≠ Some RTimeout ∧ EvStop RTimeout ∉ schedule s.

#[global] Instance busy_running : Ongoing spec busy.
Proof.
  split.
  - intros s s' [Hs _ _ He _ _ _] [??]. unfold busy. by rewrite Hs, He.
  - intros e s He [Hq ?]. split; [|done]. apply Forall_app. by repeat constructor.
  - intros u s s' Hu [Hq ?] [Hs He _ _ _ _ _].
    assert (is_finished (status (snap (record s'))) = false) as Hf.
    { rewrite Hs. specialize (Hu (clock s) (snap (record s))). by destruct (u _ _). }
    split; [|done]. rewrite He. apply Forall_app. by repeat constructor.
  - intros s s' Hb [Hr He _ _ _]. unfold busy. by rewrite Hr, He.
Qed.

#[global] Instance no_timeout_stable : Stable no_timeout_request.
Proof.
  intros s s' [_ _ _ _ _ Ht Hv] [Hn Hin]. split; [|by auto].
  destruct Hv as [->|(why & Hw & ->)]; [done|]. intros [= ->]. done.
Qed.

#[global] Instance no_timeout_running : Ongoing spec no_timeout_request.
Proof.
  split; [apply _|done| |].
  - intros u s s' _ Hn [_ _ Hs _ Hv _ _]. unfold no_timeout_request. by rewrite Hs, Hv.
  - intros s s' Hn [Hr _ Hs _ _]. unfold no_timeout_request. by rewrite Hs, Hr.
Qed.

(** A stop with this reason was published before the task started, or is in its
    schedule. *)
Definition requested (v : option StopReason) (tape : list Ev) (why : StopReason) : Prop :=
  v = Some why ∨ EvStop why ∈ tape.

(** What is still to come, and what the stop channel holds, was there at the
    start of the task. *)
Definition heard (v : option StopReason) (tape : list Ev) (s : Run) : Prop :=
  (∀ e, e ∈ schedule s → e ∈ tape) ∧
  (∀ why, Watch.value (stop (record s)) = Some why → requested v tape why).

#[global] Instance heard_stable v tape : Stable (heard v tape).
Proof.
  intros s s' [_ _ _ _ _ Ht Hv] [Hin Hw]. split; [by auto|]. intros why.
  destruct Hv as [->|(w & Hw' & ->)]; [by apply Hw|]. intros [= ->]. right. by apply Hin.
Qed.

#[global] Instance heard_running v tape : Ongoing spec (heard v tape).
Proof.
  split; [apply _|done| |].
  - intros u s s' _ Hh [_ _ Hs _ Hv _ _]. unfold heard. by rewrite Hs, Hv.
  - intros s s' Hh [Hr _ Hs _ _]. unfold heard. by rewrite Hs, Hr.
Qed.

(** The permits have been released, and nothing happened after. *)
Definition released (s : Run) : Prop :=
  ∃ pre, effects s = pre ++ [DroppedPermits] ∧ Forall (quiet spec) pre.

(** The permits were released before the final snapshot was published. *)
Definition concluded (s : Run) : Prop :=
  is_finished (status (snap (record s))) = true ∧
  ∃ pre, effects s = pre ++ [DroppedPermits; Published (snap (record s))] ∧ Forall (quiet spec) pre.

#[global] Instance released_stable : Stable released.
Proof. intros s s' [_ _ _ He _ _ _] ?. unfold released. by rewrite He. Qed.

Lemma agrees_emit stopped e s :
  is_graceful e = false → is_force e = false → agrees stopped s →
  agrees stopped (mkRun (record s) (disk s) (seen_version s) (schedule s) (clock s) (instant s)
                    (effects s ++ [e])).
Proof.
  intros Hg Hf. assert (∀ t g f, track t g f s → track t g f
    (mkRun (record s) (disk s) (seen_version s) (schedule s) (clock s) (instant s) (effects s ++ [e]))) as Ht.
  { intros t g f Ht. apply (track_emit _ _ _ e) in Ht. by rewrite Hg, Hf, !orb_false_r in Ht. }
  destruct stopped as [why|]; simpl; [|by apply Ht].
  intros (t & ? & ? & ?). exists t. split_and!; [done|by apply Ht|done].
Qed.

Lemma agrees_save stopped s s' : after_save s s' → agrees stopped s → agrees stopped s'.
Proof.
  intros Ha. destruct stopped as [why|]; simpl; [|by intros; eapply track_save].
  intros (t & ? & ? & ?). exists t. split_and!; [done|by eapply track_save|done].
Qed.

Lemma agrees_show stopped update s s' :
  (∀ now sn, termination (update now sn) = termination sn) →
  after_show update s s' → agrees stopped s → agrees stopped s'.
Proof.
  intros Hu Ha. assert (∀ t g f, track t g f s → track t g f s') as Ht.
  { intros t g f Ht. pose proof (track_show _ _ _ _ _ _ Ht Ha) as Ht'.
    destruct Ht as [Ht _]. by rewrite Hu, Ht in Ht'. }
  destruct stopped as [why|]; simpl; [|by apply Ht].
  intros (t & ? & ? & ?). exists t. split_and!; [done|by apply Ht|done].
Qed.

Lemma final_status_finished stopped st : is_finished (final_status stopped st) = true.
Proof. destruct stopped as [[]|]; simpl; [done..|]. by destruct (success st). Qed.

Lemma finish_status stopped st now sn : status (finish stopped st now sn) = final_status stopped st.
Proof. unfold finish. by destruct (_ && _), sn. Qed.

Lemma finish_termination stopped st now sn : termination (finish stopped st now sn) = termination sn.
Proof. unfold finish. by destruct (_ && _), sn. Qed.

Lemma finish_exit_code stopped st now sn : exit_code (finish stopped st now sn) = code st.
Proof. unfold finish. by destruct (_ && _), sn. Qed.

Lemma finish_finished_at stopped st now sn : is_Some (finished_at (finish stopped st now sn)).
Proof. unfold finish. destruct (_ && _), sn; by eexists. Qed.

Lemma finish_error stopped st now sn :
  final_status stopped st = Failed → is_Some (error (finish stopped st now sn)).
Proof.
  intros Hf. unfold finish. rewrite Hf. simpl. destruct sn as [? ? ? ? ? ? ? ? ? ? [e|] ?]; simpl; by eexists.
Qed.
End tasks.

Section run_task.
Context `{RegexLib, SnapshotJson, TimeLib, Platform}.
Context (route : ResolvedRoute) (args : list string) (t0 : Z) (v0 : option StopReason) (tape : list Ev).

Let spec := spec_of route args.
Let I (s : Run) : Prop := busy spec s ∧ heard v0 tape s ∧ t0 ≤ instant s.
Let exited (st : ExitStatus) : Prop := EvChildExit (Ok st) ∈ tape.
(** Before the end of [run_task] the task is busy; after it, concluded. *)
Let X (e : Stopped) (s : Run) : Prop := busy spec s ∨ concluded spec s ∨ suspended e.
Let limit : Z := t0 + max_execution_seconds route * Instants.NANOS.

Lemma I_running : Ongoing spec I.
Proof. apply _. Qed.

Lemma I_X e s : I s → X e s.
Proof. by intros [? _]; left. Qed.

Lemma I_exited s st : I s → EvChildExit (Ok st) ∈ schedule s → exited st.
Proof. intros (_ & [Hin _] & _). apply Hin. Qed.

Lemma I_asked s why : I s → Watch.value (stop (record s)) = Some why → requested v0 tape why.
Proof. intros (_ & [_ Hw] & _). apply Hw. Qed.

Lemma I_timed s : I s → EvDeadline ∈ schedule s → EvDeadline ∈ tape.
Proof. intros (_ & [Hin _] & _). apply Hin. Qed.

Lemma X_and J e s : I s ∧ J s → X e s.
Proof. by intros [[? _] _]; left. Qed.

Ltac step_call := eapply triple_bind; [apply call_rule; [apply _|apply X_and]|]; intros ?.
Ltac step_emit := eapply triple_bind; [by apply (emit_step spec)|]; intros ?; simpl.

Lemma launch_rule :
  triple (λ s, I s ∧ track None false false s) (launch route args)
    (λ deadline s, limit ≤ deadline ∧ I s ∧ track None false false s) X.
Proof.
  pose proof I_running. unfold launch. eapply triple_bind.
  { unfold spawn_worker. do 5 step_call. step_emit. do 4 step_call. step_emit. step_call.
    by apply (publish_step spec I X I_X _ None). }
  intros ?.
  intros s [HI Ht]. unfold deadline_after, mbind, stm_bind, gets.
  destruct (Instants.add_secs _ _) as [d|] eqn:Hd; [|by apply (X_and (track None false false))].
  split_and!; [|done|done]. unfold Instants.add_secs in Hd. destruct (_ <=? _); [|done].
  injection Hd as <-. destruct HI as (_ & _ & Hl). unfold limit. lia.
Qed.

(** The outcome is known, the permits are not yet released. *)
Let cause := caused (requested v0 tape) (EvDeadline ∈ tape).
Let known (d : Z) (stopped : option StopReason) : Run → Prop :=
  outcome I (requested v0 tape) (EvDeadline ∈ tape) d stopped.
(** And after they are. *)
Let known_released (d : Z) (stopped : option StopReason) (s : Run) : Prop :=
  released spec s ∧ agrees stopped s ∧ cause d stopped s.

Lemma known_X d stopped e s : known d stopped s → X e s.
Proof. intros [? _]. by apply I_X. Qed.

Lemma known_released_stable d stopped : Stable (known_released d stopped).
Proof.
  intros s s' Ho (? & ? & ?).
  split_and!; [by eapply released_stable|by eapply agrees_stable|by eapply caused_stable].
Qed.

Lemma known_emit d stopped :
  triple (known d stopped) (emit DroppedControl) (λ _, known d stopped) X.
Proof.
  pose proof I_running. apply emit_rule. intros s (HI & Ha & Hl). split_and!; [|by apply agrees_emit|done].
  by apply (running_emit (spec:=spec)).
Qed.

Lemma known_drop d stopped :
  triple (known d stopped) (emit DroppedPermits) (λ _, known_released d stopped) X.
Proof.
  apply emit_rule. intros s (HI & Ha & Hl). split_and!; [|by apply agrees_emit|done].
  destruct HI as ([Hq _] & _). by eexists.
Qed.

(** What the final snapshot says. *)
Definition reported (stopped : option StopReason) (st : ExitStatus) (s : Run) : Prop :=
  let sn := snap (record s) in
  status sn = final_status stopped st ∧ exit_code sn = code st ∧ is_Some (finished_at sn) ∧
  (status sn = Failed → is_Some (error sn)) ∧ agrees stopped s.

Lemma concluded_stable : Stable (concluded spec).
Proof. intros s s' [Hs _ _ He _ _ _] ?. unfold concluded. by rewrite Hs, He. Qed.

Lemma reported_stable stopped st : Stable (reported stopped st).
Proof.
  intros s s' Ho (? & ? & ? & ? & Ha). unfold reported. rewrite (outside_snap _ _ Ho).
  split_and!; try done. by eapply agrees_stable.
Qed.

(** The end of the task, once shown. *)
Let over (d : Z) (stopped : option StopReason) (st : ExitStatus) (s : Run) : Prop :=
  concluded spec s ∧ reported stopped st s ∧ cause d stopped s.

Lemma over_stable d stopped st : Stable (over d stopped st).
Proof.
  intros s s' Ho (? & ? & ?).
  split_and!; [by eapply concluded_stable|by eapply reported_stable|by eapply caused_stable].
Qed.

Lemma cause_instant d stopped s s' : instant s' = instant s → cause d stopped s → cause d stopped s'.
Proof. intros Hi. unfold cause, caused. by rewrite Hi. Qed.

Lemma finish_rule d stopped st :
  triple (known_released d stopped) (publish (finish stopped st)) (λ _, over d stopped st) X.
Proof.
  pose proof (known_released_stable d stopped). pose proof (over_stable d stopped st).
  apply (publish_rule _ _ (over d stopped st)); [apply _|apply _| | |by intros ?? [? _]; right; left
    |by intros ??? _; right; right..].
  - intros s s' ((pre & He & Hq) & Ha & Hl) Hp. pose proof Hp as [Hs Hes _ Hi _ _ _].
    set (u := finish stopped st (clock s) (snap (record s))) in *.
    assert (status (snap (record s')) = status u ∧ exit_code (snap (record s')) = exit_code u ∧
      finished_at (snap (record s')) = finished_at u ∧ error (snap (record s')) = error u)
      as (Hst & Hec & Hfa & Her) by (rewrite Hs; by destruct u).
    split_and!; [| |by eapply cause_instant].
    + split; [rewrite Hst; unfold u; rewrite finish_status; apply final_status_finished|].
      exists pre. rewrite Hes, He, <- app_assoc. done.
    + unfold reported. rewrite Hst, Hec, Hfa, Her. unfold u.
      rewrite finish_status, finish_exit_code. split_and!; try done.
      * apply finish_finished_at.
      * apply finish_error.
      * eapply agrees_show; [|exact Hp|done]. intros. apply finish_termination.
  - intros s s' (Hc & (? & ? & ? & ? & Ha) & Hl) Hp. pose proof Hp as [Hr He _ Hi _].
    split_and!; [| |by eapply cause_instant].
    + unfold concluded. by rewrite Hr, He.
    + unfold reported. rewrite Hr. split_and!; try done. by eapply agrees_save.
Qed.

Lemma conclude_rule d st stopped :
  triple (known d stopped) (conclude route d st stopped)
    (λ _ s, ∃ stopped, over d stopped st s) X.
Proof.
  pose proof I_running. unfold conclude.
  eapply triple_bind; [apply (settle_tree_rule spec I X I_X _ _ I_timed)|].
  intros stopped'. eapply triple_bind; [apply known_emit|]. intros ?.
  eapply triple_bind; [apply join_readers_rule; [by eapply (outcome_stable spec)|apply known_X]|]. intros ?.
  eapply triple_bind; [apply known_drop|]. intros ?.
  eapply triple_conseq; [apply finish_rule|done|]. intros ? s Hc. by exists stopped'.
Qed.

Lemma run_task_rule :
  triple (λ s, I s ∧ track None false false s) (run_task route args)
    (λ _ s, concluded spec s ∧ ∃ d stopped st, limit ≤ d ∧ exited st ∧ reported stopped st s ∧
       cause d stopped s) X.
Proof.
  pose proof I_running. unfold run_task.
  eapply triple_bind; [apply launch_rule|]. intros d. apply triple_pure. intros Hd.
  eapply triple_bind; [apply triple_gets_keep|]. intros n. apply triple_drop.
  eapply triple_bind; [apply (main_loop_rule spec I X I_X _ _ _ I_exited I_asked I_timed)|].
  intros [st stopped]. apply triple_pure. intros Hst.
  eapply triple_conseq; [apply conclude_rule|done|]. intros _ s (stopped' & Hc & Hr & Hl).
  split; [done|]. by exists d, stopped', st.
Qed.
End run_task.

Section theorems.
Context `{RegexLib, SnapshotJson, TimeLib, Platform}.

(** A task as [execute] hands it over: the log of its effects starts here. *)
Definition fresh (s : Run) : Prop :=
  effects s = [] ∧ is_finished (status (snap (record s))) = false ∧
  termination (snap (record s)) = None ∧ no_timeout_request s.

Lemma fresh_pre spec s :
  fresh s →
  (busy spec s ∧ heard (Watch.value (stop (record s))) (schedule s) s ∧ instant s ≤ instant s) ∧
  track None false false s.
Proof.
  intros (He & Hf & Ht & Hn). unfold busy, track, heard. rewrite He. split_and!; try done. by left.
Qed.

(** C9: the end of a task is reported truthfully, whatever the order of exits,
    timers and stop requests. The exit code is the one with which the worker
    exited in this run. The status is the one of what ended the task: of the
    worker's exit when nothing else did, of a reason that somebody asked for, or
    of the task's own timer, and then the timer fired and the maximal execution
    time was over. A failure has a message, and the termination record says
    whether the tree was asked to stop and whether it was killed exactly as the
    task did it. *)
Theorem run_task_outcome route args s s' :
  fresh s → run_task route args s = (Ok tt, s') →
  ∃ st stopped, EvChildExit (Ok st) ∈ schedule s ∧ reported stopped st s' ∧
    match stopped with
    | None => True
    | Some RTimeout => EvDeadline ∈ schedule s ∧
        instant s + max_execution_seconds route * Instants.NANOS ≤ instant s'
    | Some why => requested (Watch.value (stop (record s))) (schedule s) why
    end.
Proof.
  intros Hf Hr. pose proof Hf as (_ & _ & _ & Hn1 & Hn2).
  destruct (triple_Ok _ _ _ _ _ _ _ (run_task_rule route args (instant s) (Watch.value (stop (record s))) (schedule s))
    (fresh_pre (spec_of route args) s Hf) Hr) as (_ & d & stopped & st & Hd & Hst & Hrep & Hc).
  exists st, stopped. split_and!; [done|done|]. destruct stopped as [why|]; [|done].
  pose proof Hc as [Hr'|(Hw & Ht & Hl)]; [|subst why; split; [done|lia]].
  destruct why; try done. by destruct Hr'.
Qed.

(** Snapshots published as the last word on a task. *)
Definition final_publication (e : Effect) : Prop :=
  ∃ sn, e = Published sn ∧ is_finished (status sn) = true.

Lemma quiet_no_drop spec pre : Forall (quiet spec) pre → existsb is_drop pre = false.
Proof. induction 1 as [|[] ? ? ? IH]; simpl in *; try done. Qed.

Lemma abandon_finished msg now sn : is_finished (status (abandon msg now sn)) = true.
Proof. unfold abandon. destruct (is_finished (status sn)) eqn:Hf; [done|]. by destruct sn. Qed.

(** The error branch: the permits are gone, then the task is closed. *)
Lemma abandon_rule spec msg :
  triple (λ s, busy spec s ∨ concluded spec s)
    (_ ← drop_permits; ignore_fail (publish (abandon msg)))
    (λ _ s, is_finished (status (snap (record s))) = true ∧ ∃ pre post,
      effects s = pre ++ DroppedPermits :: post ∧ Forall (quiet spec) pre ∧
      Forall final_publication post ∧ post ≠ [])
    (λ e _, suspended e).
Proof.
  set (D s := ∃ pre post, effects s = pre ++ DroppedPermits :: post ∧ Forall (quiet spec) pre ∧
                Forall final_publication post).
  set (F s := is_finished (status (snap (record s))) = true ∧ ∃ pre post,
      effects s = pre ++ DroppedPermits :: post ∧ Forall (quiet spec) pre ∧
      Forall final_publication post ∧ post ≠ []).
  assert (Stable D) as HD. { intros s s' [_ _ _ He _ _ _] ?. unfold D. by rewrite He. }
  assert (Stable F) as HF. { intros s s' [Hs _ _ He _ _ _] ?. unfold F. by rewrite Hs, He. }
  apply triple_bind with (Q := λ _, D).
  - intros s Hs. unfold drop_permits. destruct Hs as [[Hq _]|[Hf (pre & He & Hq)]].
    + rewrite (quiet_no_drop spec) by done. simpl. exists (effects s), []. by split_and!.
    + rewrite He, existsb_app. simpl. rewrite orb_true_r. exists pre, [Published (snap (record s))].
      split_and!; [done|done|]. repeat constructor. by eexists.
  - intros ? s Hs. assert (triple D (publish (abandon msg)) (λ _, F) (λ e s, suspended e ∨ (∃ m, e = Fail m) ∧ F s)) as Hp.
    { apply (publish_rule _ _ F); [apply _|apply _| | |eauto|by left..]; clear s Hs.
      2: { intros s s' Hs [Hr He _ _ _]. unfold F. by rewrite Hr, He. }
      intros s s' (pre & post & He & Hq & Hp) [Hs Hes _ _ _ _ _].
      assert (is_finished (status (snap (record s'))) = true) as Hf.
      { rewrite Hs. pose proof (abandon_finished msg (clock s) (snap (record s))). by destruct (abandon _ _ _). }
      split; [done|]. exists pre, (post ++ [Published (snap (record s'))]).
      rewrite Hes, He, <- app_assoc. split_and!; [done|done| |by destruct post].
      apply Forall_app. split; [done|]. repeat constructor. by eexists. }
    specialize (Hp s Hs). unfold ignore_fail. destruct (publish _ s) as [[]s'];
      [done|]. by destruct Hp as [[->| ->]|[[? ->] ?]]; [left|right|].
Qed.

(** The order of the effects of a completed task. *)
Lemma start_task_effects route args s s' :
  fresh s → start_task route args s = (Ok tt, s') →
  is_finished (status (snap (record s'))) = true ∧
  ∃ pre post, effects s' = pre ++ [DroppedPermits] ++ post ++ [MarkedFinished] ∧
    Forall (quiet (spec_of route args)) pre ∧ Forall final_publication post ∧ post ≠ [].
Proof.
  intros Hf Hr. unfold start_task in Hr.
  match type of Hr with context [run_task _ _ ?s1] => set (s0 := s1) in * end.
  assert (fresh s0) as Hf0 by done.
  pose proof (run_task_rule route args (instant s0) _ _ s0 (fresh_pre (spec_of route args) s0 Hf0)) as Hrun.
  destruct (run_task route args s0) as [[[]|[msg| | |]] s1]; [| |done..].
  - destruct Hrun as [[Hfin (pre & He & Hq)] _]. injection Hr as <-. split; [done|].
    exists pre, [Published (snap (record s1))]. simpl. rewrite He, <- app_assoc.
    split_and!; [done|done| |done]. repeat constructor. by eexists.
  - assert (busy (spec_of route args) s1 ∨ concluded (spec_of route args) s1) as Hrun'
      by (destruct Hrun as [?|[?|[?|?]]]; [by left|by right|done..]).
    pose proof (abandon_rule (spec_of route args) msg s1 Hrun') as Ha.
    unfold mbind, stm_bind in Ha, Hr.
    destruct (drop_permits s1) as [[]s2]; [|done].
    destruct (ignore_fail _ s2) as [[]s3]; [|done]. injection Hr as <-.
    destruct Ha as (Hfin & pre & post & He & ?). split; [done|]. exists pre, post. split; [|done].
    simpl. rewrite He, <- app_assoc. done.
Qed.

(** C7: a task that runs to its end, by success or through any error, always
    ends in a finished status, and the rest of the program sees in order: the
    running task (its worker receives exactly the route's command with the
    request's arguments), the release of both concurrency permits, one or
    more final snapshots, and a single [mark_finished]. *)
Theorem start_task_order route args s s' :
  fresh s → start_task route args s = (Ok tt, s') →
  is_finished (status (snap (record s'))) = true ∧
  ∃ pre post, effects s' = pre ++ [DroppedPermits] ++ post ++ [MarkedFinished] ∧
    Forall (quiet (spec_of route args)) pre ∧ Forall final_publication post ∧ post ≠ [].
Proof. apply start_task_effects. Qed.
End theorems.

(** ** Runs that must complete

    Triples whose error part is [False]: the computation returns. *)
Section progress.
Context `{RegexLib, SnapshotJson, TimeLib, Platform}.

Let X (_ : Stopped) (_ : Run) : Prop := False.

(** The disk works and the task's directory is there. *)
Definition healthy (s : Run) : Prop :=
  faults (disk s) = [] ∧ is_Some (dirs (disk s) !! dir (record s)).

(** The rest of the schedule and the monotonic clock. *)
Definition here (tape : list Ev) (i : Z) (s : Run) : Prop := schedule s = tape ∧ instant s = i ∧ healthy s.

(** Events that resume the task, as opposed to changes around it. *)
Definition resumes (e : Ev) : bool :=
  match e with EvStop _ | EvTick _ _ | EvTruncated => false | _ => true end.

Lemma settle_resumes e tape s :
  resumes e = true → schedule s = e :: tape → settle_tape (schedule s) s = s.
Proof. intros He Ht. rewrite Ht. destruct s, e; simplify_eq/=; done. Qed.

Lemma await_go e tape i :
  resumes e = true →
  triple (here (e :: tape) i) await (λ e' s, e' = e ∧ here tape i s) X.
Proof.
  intros He s (Ht & Hs). unfold await, mbind, stm_bind, settle, modify.
  rewrite (settle_resumes e tape) by done. unfold next_event. rewrite Ht. by split_and!.
Qed.

Lemma call_go c tape i :
  triple (here (EvCall None :: tape) i) (call c) (λ _, here tape i) X.
Proof.
  eapply triple_bind; [by apply await_go|]. intros e. apply triple_pure. intros ->. by apply triple_ret.
Qed.

Lemma emit_go e tape i : triple (here tape i) (emit e) (λ _, here tape i) X.
Proof. apply emit_rule. by intros s (? & ? & ?). Qed.

Lemma persist_healthy r w :
  faults w = [] → is_Some (dirs w !! dir r) →
  ∃ w', persist r w = (Ok tt, w') ∧ faults w' = [] ∧ is_Some (dirs w' !! dir r).
Proof.
  intros Hf [d Hd]. unfold persist. io_unfold. rewrite Hf. simpl. rewrite Hd. simpl. rewrite Hf.
  eexists. split_and!; [done|done|]. simpl. rewrite lookup_insert_eq. simpl. rewrite lookup_insert_eq. by eexists.
Qed.

Lemma show_go update tape i :
  triple (here (EvShown :: tape) i) (show update)
    (λ _ s, (∃ s0, snap (record s) =
       set_output_truncated (truncated (record s0)) (update (clock s0) (snap (record s0)))) ∧
       here tape i s) X.
Proof.
  eapply triple_bind; [by apply await_go|]. intros e. apply triple_pure. intros ->.
  apply triple_modify. intros s (? & ? & ?). split; [by exists s|by split_and!].
Qed.

Lemma save_go (F : TaskSnapshot → Prop) tape i :
  triple (λ s, F (snap (record s)) ∧ here (EvSaved :: tape) i s) save
    (λ _ s, F (snap (record s)) ∧ here tape i s) X.
Proof.
  intros s [HF Hs]. unfold save, mbind, stm_bind. pose proof (await_go EvSaved tape i eq_refl s Hs) as Ha.
  assert (snap (record (await s).2) = snap (record s)) as Hsn.
  { unfold await, mbind, stm_bind, settle, modify. rewrite (settle_resumes EvSaved tape) by (done || apply Hs).
    unfold next_event. by destruct (schedule s). }
  destruct (await s) as [[e|] s1]; [|done]. destruct Ha as [-> (Ht & Hi & Hf & Hd)].
  simpl in *. unfold gets, modify.
  destruct (persist_healthy (record s1) (disk s1) Hf Hd) as (w & Hw & Hf' & Hd'). rewrite Hw. simpl.
  rewrite Hsn. split; [done|]. by split_and!.
Qed.

Lemma publish_go update tape i :
  triple (here (EvShown :: EvSaved :: tape) i) (publish update)
    (λ _ s, (∃ s0, snap (record s) =
       set_output_truncated (truncated (record s0)) (update (clock s0) (snap (record s0)))) ∧
       here tape i s) X.
Proof.
  eapply triple_bind; [apply show_go|]. intros ?.
  apply (save_go (λ sn, ∃ s0, sn = set_output_truncated (truncated (record s0)) (update (clock s0) (snap (record s0))))).
Qed.

Lemma readers_go n tape i :
  triple (here (replicate n (EvReader (Ok None)) ++ tape) i) (join_readers n) (λ _, here tape i) X.
Proof.
  induction n as [|n IH]; simpl; [by apply triple_ret|].
  eapply triple_bind; [by apply await_go|]. intros e. apply triple_pure. by intros ->.
Qed.

Ltac go_call := eapply triple_bind; [apply call_go|]; intros ?.
Ltac go_emit := eapply triple_bind; [apply emit_go|]; intros ?.
Ltac go_publish := eapply triple_bind; [apply publish_go|]; intros ?; apply triple_drop.
Ltac go_event e := eapply triple_bind; [by apply await_go|]; intros e; apply triple_pure; intros ->.

Lemma spawn_worker_go route args i :
  triple (here (replicate 10 (EvCall None) ++ [EvShown; EvSaved]) i) (spawn_worker route args)
    (λ _ s, status (snap (record s)) = Running ∧ here [] i s) X.
Proof.
  unfold spawn_worker. simpl. do 5 go_call. go_emit. do 4 go_call. go_emit. go_call.
  eapply triple_conseq; [apply publish_go|done|]. intros _ s [[s0 Hs] Hh].
  split; [|done]. rewrite Hs. by destruct (snap (record s0)).
Qed.

(** What ends a killed task, without any timer. *)
Definition prompt_end (worker : option ExitStatus) (st : ExitStatus) (n : nat) : list Ev :=
  [EvShown; EvSaved; EvCall None] ++ match worker with None => [EvChildExit (Ok st)] | Some _ => [] end ++
  [EvTreeEmpty None; EvTreeEmpty None] ++ replicate n (EvReader (Ok None)) ++ [EvShown; EvSaved].

Lemma wait_go tape i : triple (here (EvTreeEmpty None :: tape) i) wait_empty (λ _, here tape i) X.
Proof. unfold wait_empty. go_event e. by apply triple_ret. Qed.

Lemma kill_go route d worker st i :
  triple (here (prompt_end worker st (length (readers (Capture_new (route_mode route))))) i)
    (st ← force_stop_process RForceKilled true worker; conclude route d st (Some RForceKilled))
    (λ _, here [] i) X.
Proof.
  set (n := length (readers (Capture_new (route_mode route)))).
  set (rest := EvTreeEmpty None :: replicate n (EvReader (Ok None)) ++ [EvShown; EvSaved]).
  eapply triple_bind with (Q := λ _, here rest i).
  - unfold force_stop_process, prompt_end. simpl. go_publish. go_call. go_emit.
    eapply triple_bind with (Q := λ _, here (EvTreeEmpty None :: rest) i).
    + destruct worker; simpl; [by apply triple_ret|]. go_event e. by apply triple_ret.
    + intros r. eapply triple_bind; [apply wait_go|]. intros ?. by apply triple_ret.
  - intros r. unfold conclude. simpl. eapply triple_bind.
    { eapply triple_bind; [apply wait_go|]. intros ?. apply triple_ret with
        (Q := λ r s, r = Some RForceKilled ∧ here (replicate n (EvReader (Ok None)) ++ [EvShown; EvSaved]) i s).
      by split. }
    intros r'. apply triple_pure. intros ->. go_emit. eapply triple_bind; [apply readers_go|]. intros ?. go_emit.
    eapply triple_conseq; [apply publish_go|done|]. by intros ?? [_ ?].
Qed.

(** The state in which [start_task] hands the task to [run_task]. *)
Lemma subscribed_here s :
  healthy s →
  here (schedule s) (instant s)
    (mkRun (record s) (disk s) (subscribe_stop (record s)) (schedule s) (clock s) (instant s) (effects s)).
Proof. intros Hh. split; [done|]. by split; [|exact Hh]. Qed.

(** C39: a [max_execution_seconds] too large for the monotonic clock panics the
    task right after its worker was started: the task stays [Running] for
    ever, its permits are released while the script runs unsupervised, and
    [mark_finished] is never called, so the store never becomes idle. *)
Theorem deadline_overflow_abandons route args s :
  fresh s → healthy s → schedule s = replicate 10 (EvCall None) ++ [EvShown; EvSaved] →
  Instants.add_secs (instant s) (max_execution_seconds route) = None →
  ∃ s', start_task route args s = (Err Panicked, s') ∧ status (snap (record s')) = Running ∧
    DroppedPermits ∈ effects s' ∧ MarkedFinished ∉ effects s'.
Proof.
  intros Hf Hh Hs Ht. pose proof (subscribed_here s Hh) as Hhere. rewrite Hs in Hhere at 1.
  unfold start_task.
  match goal with |- context [run_task _ _ ?s0] => set (s1 := s0) in * end.
  pose proof (run_task_rule route args (instant s1) _ _ s1 (fresh_pre (spec_of route args) s1 Hf)) as Hrun.
  pose proof (spawn_worker_go route args _ s1 Hhere) as Hgo.
  assert (∃ s2, run_task route args s1 = (Err Panicked, s2) ∧ status (snap (record s2)) = Running)
    as (s2 & Hr & Hst).
  { unfold run_task, launch, mbind, stm_bind. destruct (spawn_worker _ _ s1) as [[]s2]; [|done].
    destruct Hgo as [Hst (_ & Hi & _)]. unfold deadline_after, mbind, stm_bind, gets. rewrite Hi, Ht.
    by eexists. }
  rewrite Hr in *. destruct Hrun as [[Hq _]|[[Hfin _]|[?|?]]]; [|by rewrite Hst in Hfin|done..].
  exists (drop_permits s2).2. unfold drop_permits. rewrite (quiet_no_drop (spec_of route args)) by done.
  simpl. split_and!; [done|done|set_solver|]. rewrite elem_of_app, list_elem_of_singleton.
  intros [Hin|]; [|done]. by apply (proj1 (Forall_forall _ _) Hq) in Hin.
Qed.

(** A force-kill request is not guaranteed to be honoured: when a
    cancellation arrives before the task has looked at the stop channel, the
    kill is overwritten and the task goes through the graceful shutdown. *)
Theorem cancel_replaces_kill fuel route deadline s tape :
  schedule s = EvStop RForceKilled :: EvStop RCancelled :: EvStopChanged :: tape →
  (seen_version s ≤ Watch.version (stop (record s)))%nat →
  main_loop (S fuel) route deadline s =
    ('(st, actual) ← stop_process route RCancelled; mret (st, Some actual))
      (let r := request_stop_now RCancelled (request_stop_now RForceKilled (record s)) in
       mkRun r (disk s) (Watch.version (stop r)) tape (clock s) (instant s) (effects s)).
Proof.
  intros Hs Hv. cbn [main_loop]. unfold await, mbind, stm_bind, settle, modify, next_event, gets.
  rewrite Hs. simpl. unfold Watch.has_changed. simpl.
  assert ((seen_version s <? S (S (Watch.version (stop (record s)))))%nat = true) as ->
    by (apply Nat.ltb_lt; lia). done.
Qed.
End progress.

(** ** A kill during the grace period *)

Section kill.
Context `{RegexLib, SnapshotJson, TimeLib, Platform}.

(** The select looks at the stop channel and finds a kill: while the worker is
    still there ([None]), or after it exited and before its tree was empty. *)
Definition kill_seen (worker : option ExitStatus) (s s1 : Run) : Prop :=
  match worker with
  | None => await s = (Ok EvForceSeen, s1)
  | Some st => ∃ s0, await s = (Ok (EvChildExit (Ok st)), s0) ∧ await s0 = (Ok EvForceSeen, s1)
  end ∧ force_pending s1 = true.

(** From there the task is one that is killed, whatever it was stopped for and
    whatever is left of the grace period. *)
Lemma kill_seen_forces why grace worker s s1 :
  kill_seen worker s s1 →
  grace_period why grace s = (st ← force_stop_process RForceKilled true worker; mret (st, RForceKilled)) s1.
Proof.
  intros [Hk Hp]. unfold grace_period, mbind, stm_bind, gets. destruct worker as [st|].
  - destruct Hk as (s0 & -> & Hs1). simpl. unfold mret, stm_ret. by rewrite Hs1, Hp.
  - rewrite Hk. by rewrite Hp.
Qed.

Lemma await_effects s e s' : await s = (Ok e, s') → effects s' = effects s.
Proof.
  assert (Stable (λ x, effects x = effects s)) as HS by by intros ?? [_ _ _ -> _ _ _] ?.
  intros Ha. exact (await_keeps _ s (Ok e) s' eq_refl Ha).
Qed.

Lemma kill_seen_effects worker s s1 : kill_seen worker s s1 → effects s1 = effects s.
Proof.
  intros [Hk _]. destruct worker; [destruct Hk as (s0 & H1' & H2')|]; repeat
    match goal with Ha : await _ = _ |- _ => apply await_effects in Ha end; congruence.
Qed.

Section rest.
Context (E : list Effect) (tape : list Ev).

Let T : Termination := forced_termination RForceKilled true.
Let X (_ : Stopped) (_ : Run) : Prop := True.

(** The log since the kill was seen. *)
Definition kill_log (sent : bool) (s : Run) : Prop :=
  (∀ e, e ∈ schedule s → e ∈ tape) ∧ termination (snap (record s)) = Some T ∧
  ∃ sn post, effects s = E ++ Published sn :: (if sent then SentForce :: post else []) ∧
    status sn = Stopping ∧ termination sn = Some T.

#[local] Instance kill_log_stable sent : Stable (kill_log sent).
Proof. intros s s' [Hs _ _ He _ Ht _] (? & ? & ?). unfold kill_log. rewrite Hs, He. by split_and!; auto. Qed.

Lemma kill_log_emit e : triple (kill_log true) (emit e) (λ _, kill_log true) X.
Proof.
  apply emit_rule. intros s (? & ? & sn & post & He & Hsn). split_and!; [done|done|].
  exists sn, (post ++ [e]). split; [|done]. simpl. by rewrite He, <- app_assoc.
Qed.

Lemma kill_log_save sent s s' : kill_log sent s → after_save s s' → kill_log sent s'.
Proof. intros ? [Hr He Hs _ _]. unfold kill_log. by rewrite Hr, He, Hs. Qed.

(** The statuses [force_stop_process] can return. *)
Definition exit_seen (worker : option ExitStatus) (st : ExitStatus) : Prop :=
  worker = Some st ∨ worker = None ∧ EvChildExit (Ok st) ∈ tape.

Lemma force_log worker :
  triple (λ s, (∀ e, e ∈ schedule s → e ∈ tape) ∧ effects s = E) (force_stop_process RForceKilled true worker)
    (λ st s, exit_seen worker st ∧ kill_log true s) X.
Proof.
  assert (Stable (λ s, (∀ e, e ∈ schedule s → e ∈ tape) ∧ effects s = E)) as HS.
  { intros s s' [_ _ _ He _ Ht _] [? ?]. by split; [auto|congruence]. }
  unfold force_stop_process. eapply triple_bind.
  { apply (publish_rule _ _ (kill_log false) (kill_log false)); [|apply kill_log_save|done..].
    intros s s' [Hin He] [Hs Hes Hsc _ _ _ _]. unfold kill_log. rewrite Hsc, Hes, He.
    split_and!; [done|rewrite Hs; by destruct (snap (record s))|].
    exists (snap (record s')), []. split_and!; [done|rewrite Hs; by destruct (snap (record s))..]. }
  intros ?. eapply triple_bind; [apply call_rule; [apply _|done]|]. intros ?.
  eapply triple_bind with (Q := λ _, kill_log true).
  { apply emit_rule. intros s (? & ? & sn & post & He & Hsn). split_and!; [done|done|].
    exists sn, []. split; [|done]. simpl. by rewrite He, <- app_assoc. }
  intros ?. eapply triple_bind with (Q := λ st s, exit_seen worker st ∧ kill_log true s).
  - destruct worker as [st|]; [apply triple_ret; intros s Hs; split; [by left|done]|].
    eapply triple_bind; [apply await_event_rule; [apply _|done]|]. intros e. apply triple_pure.
    intros (s0 & (Hin & _) & He). destruct e; try by apply fail_rule.
    destruct r as [st|]; [|by apply fail_rule]. apply triple_ret. intros s Hs. split; [right|done]. auto.
  - intros st. apply triple_pure. intros Hst. eapply triple_bind; [apply wait_empty_rule; [apply _|done]|].
    intros ?. by apply triple_ret.
Qed.

Lemma conclude_log route d st :
  triple (kill_log true) (conclude route d st (Some RForceKilled))
    (λ _ s, (status (snap (record s)) = Killed ∧ exit_code (snap (record s)) = code st) ∧ kill_log true s) X.
Proof.
  unfold conclude. simpl. eapply triple_bind with (Q := λ r s, r = Some RForceKilled ∧ kill_log true s).
  { eapply triple_bind; [apply wait_empty_rule; [apply _|done]|]. intros ?. by apply triple_ret. }
  intros r. apply triple_pure. intros ->. eapply triple_bind; [apply kill_log_emit|]. intros ?.
  eapply triple_bind; [apply join_readers_rule; [apply _|done]|]. intros ?.
  eapply triple_bind; [apply kill_log_emit|]. intros ?.
  set (J s := (status (snap (record s)) = Killed ∧ exit_code (snap (record s)) = code st) ∧ kill_log true s).
  assert (Stable J) as HJ.
  { intros s s' Ho [? ?]. split; [by rewrite (outside_snap _ _ Ho)|by eapply kill_log_stable]. }
  apply (publish_rule _ _ J J); [| |done..].
  - intros s s' (Hin & Ht & sn & post & He & Hsn) [Hs Hes Hsc _ _ _ _].
    pose proof (finish_status (Some RForceKilled) st (clock s) (snap (record s))) as Hst.
    pose proof (finish_exit_code (Some RForceKilled) st (clock s) (snap (record s))) as Hec.
    pose proof (finish_termination (Some RForceKilled) st (clock s) (snap (record s))) as Htm.
    unfold J, kill_log. rewrite Hsc, Hes, He, Hs. destruct (finish _ _ _ _). simpl in *.
    split; [done|]. split_and!; [done|congruence|]. eexists sn, _. split; [|done]. by rewrite <- app_assoc.
  - intros s s' [? ?] Ha. split; [by rewrite (as_record _ _ Ha)|by eapply kill_log_save].
Qed.
End rest.

(** C26: a kill that a task sees during its grace period wins over it, in both
    selects, while the worker is still there or after it exited and while its
    tree lives on, whatever the task was stopped for and whatever is left of the
    grace period. The task no longer waits for its timer: as soon as the calls
    return it has ended. And it ends as killed: the first things it does are to
    report the forced termination and to signal the tree, its final status is
    [Killed], and its exit code is the worker's, the one already seen or the one
    still to come. (A kill that is not seen because a later cancellation
    replaced it is [cancel_replaces_kill].) *)
Theorem kill_cuts_grace route why grace d worker s s1 :
  kill_seen worker s s1 →
  let rest := '(st, actual) ← grace_period why grace; conclude route d st (Some actual) in
  (∀ s', rest s = (Ok tt, s') → ∃ st sn post,
     exit_seen (schedule s1) worker st ∧
     status (snap (record s')) = Killed ∧ exit_code (snap (record s')) = code st ∧
     termination (snap (record s')) = Some (forced_termination RForceKilled true) ∧
     effects s' = effects s ++ Published sn :: SentForce :: post ∧
     status sn = Stopping ∧ termination sn = Some (forced_termination RForceKilled true)) ∧
  (∀ st, healthy s1 → schedule s1 = prompt_end worker st (length (readers (Capture_new (route_mode route)))) →
     ∃ s', rest s = (Ok tt, s')).
Proof.
  intros Hk rest. pose proof (kill_seen_forces why grace worker s s1 Hk) as Hg.
  assert (rest s = (st ← force_stop_process RForceKilled true worker; conclude route d st (Some RForceKilled)) s1)
    as Hrest.
  { unfold rest, mbind, stm_bind. rewrite Hg. unfold mbind, stm_bind.
    by destruct (force_stop_process _ _ _ s1) as [[]]. }
  rewrite Hrest. split.
  - intros s' Hs'. rewrite <- (kill_seen_effects _ _ _ Hk).
    assert (triple (λ s, (∀ e, e ∈ schedule s → e ∈ schedule s1) ∧ effects s = effects s1)
      (st ← force_stop_process RForceKilled true worker; conclude route d st (Some RForceKilled))
      (λ _ s, ∃ st, exit_seen (schedule s1) worker st ∧
         (status (snap (record s)) = Killed ∧ exit_code (snap (record s)) = code st) ∧
         kill_log (effects s1) (schedule s1) true s) (λ _ _, True)) as Ht.
    { eapply triple_bind; [apply force_log|]. intros st. apply triple_pure. intros Hst.
      eapply triple_conseq; [apply (conclude_log (effects s1) (schedule s1))|done|]. intros _ x [? ?]. by exists st. }
    destruct (triple_Ok _ _ _ _ _ _ _ Ht (conj (λ e He, He) eq_refl) Hs')
      as (st & Hst & (Hk1 & Hk2) & _ & Htm & sn & post & He & Hsn1 & Hsn2).
    by exists st, sn, post.
  - intros st Hh Hs. pose proof (kill_go route d worker st (instant s1) s1 (conj Hs (conj eq_refl Hh))) as Ht.
    revert Ht. match goal with |- context [?m s1] => destruct (m s1) as [[[]|] s'] end; [by exists s'|done].
Qed.
End kill.

(** ** Concrete runs *)
Module ProcessToy.

#[local] Existing Instances Toy.regex bit_json bit_time_lib unix.

Definition run0 (tape : list Ev) : Run :=
  mkRun StoreToy.rec1 (StoreToy.world1 []) 0 tape 5 0 [].

(** The script ends by itself with exit code 0. *)
Definition success_tape : list Ev :=
  replicate 10 (EvCall None) ++
  [EvShown; EvSaved; EvTick 8 3; EvChildExit (Ok (mkExitStatus (Some 0))); EvTreeEmpty None;
   EvReader (Ok None); EvReader (Ok None); EvShown; EvSaved].

(** The script outlives its 10 seconds and the grace period of 1 second. *)
Definition timeout_tape : list Ev :=
  replicate 10 (EvCall None) ++
  [EvShown; EvSaved; EvTick 15 (10 * Instants.NANOS); EvDeadline; EvShown; EvSaved; EvCall None; EvCall None; EvCall None;
   EvTick 16 Instants.NANOS; EvDeadline; EvShown; EvSaved; EvCall None; EvChildExit (Ok (mkExitStatus None));
   EvTreeEmpty None; EvTreeEmpty None; EvReader (Ok None); EvReader (Ok None); EvShown; EvSaved].

Lemma fresh_run0 tape : EvStop RTimeout ∉ tape → fresh (run0 tape).
Proof. intros Ht. by split_and!. Defined.

Lemma returned {A} (r : result Stopped A * Run) a : r.1 = Ok a → r = (Ok a, r.2).
Proof. destruct r. by intros [= ->]. Defined.

Lemma run_task_outcome_witness :
  let s' := (run_task Toy.resolved_route ["a"] (run0 timeout_tape)).2 in
  status (snap (record s')) = TimedOut ∧
  ∃ st stopped, EvChildExit (Ok st) ∈ timeout_tape ∧ reported stopped st s'.
Proof.
  split; [vm_compute; reflexivity|].
  destruct (run_task_outcome Toy.resolved_route ["a"] (run0 timeout_tape)
    (run_task Toy.resolved_route ["a"] (run0 timeout_tape)).2) as (st & stopped & Hst & Hr & _).
  - apply fresh_run0. set_solver.
  - apply returned. vm_compute. reflexivity.
  - exists st, stopped. split; [exact Hst|exact Hr].
Defined.

Lemma start_task_order_witness :
  let s' := (start_task Toy.resolved_route ["a"] (run0 success_tape)).2 in
  status (snap (record s')) = Succeeded ∧ is_finished (status (snap (record s'))) = true.
Proof.
  split; [vm_compute; reflexivity|].
  apply (start_task_order Toy.resolved_route ["a"] (run0 success_tape)).
  - apply fresh_run0. set_solver.
  - apply returned. vm_compute. reflexivity.
Defined.

(** In its grace period, a kill arrives after the worker has exited. *)
Definition kill_tape : list Ev :=
  [EvStop RForceKilled; EvChildExit (Ok (mkExitStatus None)); EvForceSeen] ++
  prompt_end (Some (mkExitStatus None)) (mkExitStatus None) 2.

Definition kill_state : Run := (await (await (run0 kill_tape)).2).2.

Lemma kill_cuts_grace_witness :
  ∃ s', ('(st, actual) ← grace_period RCancelled 100; conclude Toy.resolved_route 100 st (Some actual))
      (run0 kill_tape) = (Ok tt, s') ∧
    status (snap (record s')) = Killed ∧ exit_code (snap (record s')) = None.
Proof.
  destruct (kill_cuts_grace Toy.resolved_route RCancelled 100 100 (Some (mkExitStatus None))
    (run0 kill_tape) kill_state) as [Hend Hgo].
  - split; [|reflexivity]. exists (await (run0 kill_tape)).2. split; reflexivity.
  - destruct (Hgo (mkExitStatus None)) as [s' Hs'].
    + split; [reflexivity|]. by eexists.
    + reflexivity.
    + exists s'. split; [exact Hs'|].
      destruct (Hend s' Hs') as (st & _ & _ & [Hst|[Hst _]] & Hk & Hc & _); [|discriminate Hst].
      injection Hst as <-. split; [exact Hk|exact Hc].
Defined.

(** [Toy.resolved_route] with the largest [max_execution_seconds] a
    configuration can give. *)
Definition endless_route : ResolvedRoute :=
  mkResolvedRoute "/commands/run" Bash "bash" "/etc/run.sh" ["--fixed"] Toy.request_args ["node-"] "/etc" ∅
    1 U64_MAX 1 false Utf8.

Lemma deadline_overflow_abandons_witness :
  ∃ s', start_task endless_route ["a"] (run0 (replicate 10 (EvCall None) ++ [EvShown; EvSaved])) = (Err Panicked, s') ∧
    status (snap (record s')) = Running ∧ DroppedPermits ∈ effects s' ∧ MarkedFinished ∉ effects s'.
Proof.
  apply (deadline_overflow_abandons endless_route ["a"] (run0 (replicate 10 (EvCall None) ++ [EvShown; EvSaved]))).
  - apply fresh_run0. set_solver.
  - split; [reflexivity|]. by eexists.
  - reflexivity.
  - vm_compute. reflexivity.
Defined.

Lemma cancel_replaces_kill_witness :
  main_loop 1 Toy.resolved_route 100
    (run0 [EvStop RForceKilled; EvStop RCancelled; EvStopChanged]) =
  ('(st, actual) ← stop_process Toy.resolved_route RCancelled; mret (st, Some actual))
    (mkRun (request_stop_now RCancelled (request_stop_now RForceKilled StoreToy.rec1))
       (StoreToy.world1 []) 2 [] 5 0 []).
Proof. apply cancel_replaces_kill; [reflexivity|]. apply Nat.le_refl. Defined.

End ProcessToy.
