(* ===== verification/Lifecycle.v ===== *)
(** * The life of a task: a specification and its refinement

    An abstract automaton says what a client of the API may ever observe of a
    task: queued, active, being stopped for a reason, done. The code of a task
    ([Process.start_task]) publishes snapshots; a snapshot is read as a state of
    the automaton by [phase_of]. The theorems show that under every schedule, and
    with every disk failure, the published snapshots are a path of the
    automaton, that each of them is well formed, and that on a working disk a
    crash at any point loses at most the snapshot shown last: the recovery
    continues the path without it, or with it when it was already written. *)

From S2P Require Import Prelude RustStd Model Disk Journal Store Config Capture Process.
Local Open Scope string_scope.
Local Open Scope list_scope.
Local Open Scope Z_scope.

(** ** The specification *)

Inductive Phase :=
| Queued
| Active
| Ending (why : StopReason) (forced : bool)
| Done (how : TaskStatus).

Definition open_phase (p : Phase) : Prop := match p with Done _ => False | _ => True end.

#[global] Instance open_phase_dec p : Decision (open_phase p).
Proof. destruct p; simpl; apply _. Defined.

(** How a task ends that was stopped. *)
Definition ends_as (why : StopReason) : TaskStatus :=
  match why with
  | RTimeout => TimedOut
  | RCancelled => Cancelled
  | RForceKilled => Killed
  | RServerShutdown | RServerRestart | RParentExited => Interrupted
  | RLoggingFailure => Failed
  end.

Inductive advance : Phase → Phase → Prop :=
| adv_begin : advance Queued Active
| adv_exit how : how = Succeeded ∨ how = Failed → advance Active (Done how)
| adv_ask why : why ≠ RForceKilled → advance Active (Ending why false)
| adv_kill why : why = RForceKilled ∨ why = RTimeout → advance Active (Ending why true)
| adv_escalate why why' :
    why' = why ∨ why' = RForceKilled → advance (Ending why false) (Ending why' true)
| adv_stopped why f : advance (Ending why f) (Done (ends_as why))
| adv_broken p : open_phase p → advance p (Done Failed)
| adv_crashed p : open_phase p → advance p (Done Interrupted).

(** The measure of what a task may still do: every step of the automaton
    decreases it. *)
Definition remaining (p : Phase) : nat :=
  match p with
  | Queued => 4
  | Active => 3
  | Ending _ false => 2
  | Ending _ true => 1
  | Done _ => 0
  end.

Lemma advance_decreases p q : advance p q → (remaining q < remaining p)%nat.
Proof. destruct 1 as [| | | | |? []|[]|[]]; simpl in *; try lia; try done; destruct forced; lia. Qed.

(** ** Snapshots as phases *)

Definition phase_of (s : TaskSnapshot) : Phase :=
  match status s with
  | Starting => Queued
  | Running => Active
  | Stopping => match termination s with Some t => Ending (reason t) (forced t) | None => Active end
  | how => Done how
  end.

Lemma phase_open s : open_phase (phase_of s) ↔ is_finished (status s) = false.
Proof. unfold phase_of. destruct (status s); simpl; try done. by destruct (termination s). Qed.

(** The termination record of a task that ended for it. *)
Definition ended_for (s : TaskSnapshot) : Prop :=
  ∃ t, termination s = Some t ∧ ends_as (reason t) = status s ∧ (reason t = RForceKilled → forced t = true).

(** What each status promises about the other fields. *)
Definition wf_status (s : TaskSnapshot) : Prop :=
  match status s with
  | Starting => started_at s = None ∧ termination s = None ∧ error s = None
  | Running => is_Some (started_at s) ∧ termination s = None ∧ error s = None
  | Stopping => is_Some (started_at s) ∧ is_Some (termination s) ∧ error s = None
  | Succeeded => is_Some (started_at s) ∧ termination s = None ∧ error s = None ∧ exit_code s = Some 0
  | TimedOut | Cancelled | Killed => is_Some (started_at s) ∧ ended_for s ∧ error s = None
  | Failed => is_Some (error s)
  | Interrupted => is_Some (error s) ∨ is_Some (started_at s) ∧ ended_for s
  end.

Record wf_snapshot (s : TaskSnapshot) : Prop := {
  wf_by_status : wf_status s;
  wf_finished_at : is_Some (finished_at s) ↔ is_finished (status s) = true;
  wf_exit_code : is_finished (status s) = false → exit_code s = None;
  wf_kill : ∀ t, termination s = Some t → reason t = RForceKilled → forced t = true
}.

(** The fields that never change, and the start time, set at most once. *)
Record same_task (a b : TaskSnapshot) : Prop := {
  same_id : task_id b = task_id a;
  same_route : route b = route a;
  same_mode : output_mode b = output_mode a;
  same_encoding : output_encoding b = output_encoding a;
  same_created : created_at b = created_at a;
  same_started : is_Some (started_at a) → started_at b = started_at a
}.

(** One observable step: the automaton advances, or a final snapshot is
    published again (only its truncation mark may differ). *)
Definition succeeds (a b : TaskSnapshot) : Prop :=
  same_task a b ∧ wf_snapshot b ∧
  (advance (phase_of a) (phase_of b) ∨
   is_finished (status a) = true ∧ b = set_output_truncated (output_truncated b) a).

(** The snapshots [l] published after [a], up to the current one. *)
Inductive lives (a : TaskSnapshot) : list TaskSnapshot → TaskSnapshot → Prop :=
| lives_nil : lives a [] a
| lives_snoc l b c : lives a l b → succeeds b c → lives a (l ++ [c]) c.

Fixpoint published (es : list Effect) : list TaskSnapshot :=
  match es with
  | [] => []
  | Published s :: es => s :: published es
  | _ :: es => published es
  end.

Lemma published_app es fs : published (es ++ fs) = published es ++ published fs.
Proof. induction es as [|[] es IH]; simpl; rewrite ?IH; done. Qed.

(** ** Facts about the closures *)

Lemma set_truncated_phase b s : phase_of (set_output_truncated b s) = phase_of s.
Proof. by destruct s. Qed.

Lemma set_truncated_wf b s : wf_snapshot s → wf_snapshot (set_output_truncated b s).
Proof. intros []. by destruct s. Qed.

Lemma set_truncated_same a b s : same_task a s → same_task a (set_output_truncated b s).
Proof. intros []. by destruct s. Qed.

(** What a published closure has to satisfy, before the truncation mark is set. *)
Definition moves (a b : TaskSnapshot) : Prop :=
  same_task a b ∧ wf_snapshot b ∧ advance (phase_of a) (phase_of b).

Lemma moves_succeeds a b t : moves a b → succeeds a (set_output_truncated t b).
Proof.
  intros (? & ? & ?). split_and!; [by apply set_truncated_same|by apply set_truncated_wf|].
  left. by rewrite set_truncated_phase.
Qed.

Section closures.
Context `{TimeLib, Platform}.

Ltac by_fields s := destruct s; simpl in *; subst; simpl in *.

Lemma start_moves now s :
  wf_snapshot s → status s = Starting →
  moves s (set_started_at (Some (now_rfc3339 now)) (set_status Running s)).
Proof.
  intros [Hw Hf He Hk] Hs. unfold wf_status in Hw. rewrite Hs in Hw. destruct Hw as (Ha & Ht & Hr).
  by_fields s. split_and!; [|split|apply adv_begin]; simpl; try done.
  by split; simpl; try intros [].
Qed.

Lemma stopping_moves why f t s :
  wf_snapshot s → status s = Running ∨ status s = Stopping →
  reason t = why → forced t = f → (why = RForceKilled → f = true) →
  advance (phase_of s) (Ending why f) →
  moves s (set_termination (Some t) (set_status Stopping s)).
Proof.
  intros [Hw Hf He Hk] Hs <- <- Ht Ha.
  assert (is_Some (started_at s) ∧ error s = None) as [Hst Her].
  { unfold wf_status in Hw. by destruct Hs as [Hs|Hs]; rewrite Hs in Hw; destruct Hw as (?&?&?). }
  assert (is_finished (status s) = false) as Hnf by by destruct Hs as [-> | ->].
  rewrite Hnf in *. by_fields s. split_and!; [by split|split; simpl|done].
  - split_and!; [done|by eexists|done].
  - done.
  - intros _. by apply He.
  - by intros ? [= <-].
Qed.

Lemma abandon_moves msg now s :
  wf_snapshot s → is_finished (status s) = false → moves s (abandon msg now s).
Proof.
  intros [Hw Hf He Hk] Hs. unfold abandon. rewrite Hs.
  assert (open_phase (phase_of s)) as Ho by by apply phase_open.
  split_and!; [by destruct s|split|]; [..|by destruct s; apply adv_broken]; destruct s; simpl in *.
  - by eexists.
  - split; [done|by eexists].
  - done.
  - done.
Qed.

Lemma interrupt_moves now s :
  wf_snapshot s → is_finished (status s) = false → moves s (interrupt now s).
Proof.
  intros [Hw Hf He Hk] Hs. unfold interrupt. rewrite Hs.
  assert (open_phase (phase_of s)) as Ho by by apply phase_open.
  split_and!; [by destruct s|split|]; [..|by destruct s; apply adv_crashed]; destruct s; simpl in *.
  - left. by eexists.
  - split; [done|by eexists].
  - done.
  - done.
Qed.

(** The phase in which [run_task] publishes the end of the task. *)
Definition ready (stopped : option StopReason) (p : Phase) : Prop :=
  match stopped with
  | None => p = Active
  | Some why => ∃ f, p = Ending why f
  end.

Lemma finish_error_None stopped st now s :
  final_status stopped st ≠ Failed → error (finish stopped st now s) = error s.
Proof. intros Hf. unfold finish. rewrite bool_decide_eq_false_2 by done. by destruct s. Qed.

Lemma finish_same stopped st now s : same_task s (finish stopped st now s).
Proof. unfold finish. by destruct (_ && _), s. Qed.

Lemma finish_started_at stopped st now s : started_at (finish stopped st now s) = started_at s.
Proof. unfold finish. by destruct (_ && _), s. Qed.

Lemma final_status_ends why st : final_status (Some why) st = ends_as why.
Proof. by destruct why. Qed.

Lemma phase_of_finished s : is_finished (status s) = true → phase_of s = Done (status s).
Proof. unfold phase_of. by destruct (status s). Qed.

Lemma finish_advance stopped st p :
  ready stopped p → advance p (Done (final_status stopped st)).
Proof.
  destruct stopped as [why|]; simpl.
  - intros [f ->]. pose proof (final_status_ends why st) as He. simpl in He. rewrite He. apply adv_stopped.
  - intros ->. apply adv_exit. destruct (success st); auto.
Qed.

(** The stop reason a well-formed, unfinished snapshot carries. *)
Lemma ready_fields stopped s :
  wf_snapshot s → ready stopped (phase_of s) →
  is_Some (started_at s) ∧ error s = None ∧
  match stopped with
  | None => termination s = None
  | Some why => ∃ t, termination s = Some t ∧ reason t = why
  end.
Proof.
  intros [Hw _ _ _]. unfold wf_status, phase_of in *. destruct (status s), stopped; simpl;
    try (intros; naive_solver); intros Hr; destruct (termination s) as [t|] eqn:Ht; naive_solver.
Qed.

Lemma finish_wf stopped st now s :
  wf_snapshot s → ready stopped (phase_of s) → wf_snapshot (finish stopped st now s).
Proof.
  intros Hw Hr. destruct (ready_fields _ _ Hw Hr) as (Hst & Her & Ht). destruct Hw as [_ _ _ Hk].
  split.
  - unfold wf_status, ended_for. rewrite finish_status, finish_started_at, finish_termination, finish_exit_code.
    destruct (decide (final_status stopped st = Failed)) as [Hf|Hf].
    { rewrite Hf. by apply finish_error. }
    rewrite (finish_error_None _ _ _ _ Hf), Her.
    destruct stopped as [why|]; [|simpl in *; unfold success in *; case_bool_decide; [by split_and!|done]].
    rewrite final_status_ends in *. destruct Ht as (t & Ht & <-).
    assert (∃ t0, termination s = Some t0 ∧ ends_as (reason t0) = ends_as (reason t) ∧
      (reason t0 = RForceKilled → forced t0 = true)) as Hex by eauto.
    destruct (reason t); simpl in *; solve [done | by split_and! | by right].
  - rewrite finish_status, final_status_finished. split; [done|]. intros _. apply finish_finished_at.
  - by rewrite finish_status, final_status_finished.
  - rewrite finish_termination. apply Hk.
Qed.

Lemma finish_moves stopped st now s :
  wf_snapshot s → ready stopped (phase_of s) → moves s (finish stopped st now s).
Proof.
  intros Hw Hr. split_and!; [apply finish_same|by apply finish_wf|].
  rewrite (phase_of_finished (finish _ _ _ _)), finish_status by (rewrite finish_status; apply final_status_finished).
  by apply finish_advance.
Qed.
End closures.

(** ** The code of a task follows the automaton *)

Definition is_published (e : Effect) : bool := match e with Published _ => true | _ => false end.

(** An assertion [J] that every step of a task preserves, whatever it publishes,
    and [K] in its place while a snapshot is shown and not yet written. *)
Class Kept `{SnapshotJson} (J K : Run → Prop) : Prop := {
  kept_stable :: Stable J;
  kept_shown_stable :: Stable K;
  kept_emit e s : is_published e = false → J s →
    J (mkRun (record s) (disk s) (seen_version s) (schedule s) (clock s) (instant s) (effects s ++ [e]));
  kept_show u s s' : J s → after_show u s s' → K s';
  kept_save s s' : K s → after_save s s' → J s'
}.

Lemma advance_ending p why f : advance p (Ending why f) → p = Active ∨ ∃ w, p = Ending w false.
Proof. inversion 1; subst; eauto. Qed.

Lemma ending_status s why f :
  advance (phase_of s) (Ending why f) → status s = Running ∨ status s = Stopping.
Proof.
  intros Ha%advance_ending. unfold phase_of in Ha. destruct (status s); naive_solver.
Qed.

Section walk.
Context `{RegexLib, SnapshotJson, TimeLib, Platform}.
Context (s0 : TaskSnapshot) (J K : Run → Prop) `{!Kept J K}.

(** The task has lived up to here as specified and is in a phase of [p]. *)
Definition lived (A : Run → Prop) (p : Phase → Prop) (s : Run) : Prop :=
  A s ∧ lives s0 (published (effects s)) (snap (record s)) ∧
  wf_snapshot (snap (record s)) ∧ p (phase_of (snap (record s))).

Definition at_ : (Phase → Prop) → Run → Prop := lived J.

(** A task that does not go on: only one that is suspended may have shown a
    snapshot it has not written. *)
Definition somewhere (e : Stopped) (s : Run) : Prop :=
  at_ (λ _, True) s ∨ suspended e ∧ lived K (λ _, True) s.

Lemma lived_stable A p : Stable A → Stable (lived A p).
Proof.
  intros HA s s' Ho (HJ & Hl & Hw & Hp). pose proof (stable (I:=A) _ _ Ho HJ). destruct Ho as [Hs _ _ He _ _ _].
  unfold lived. by rewrite Hs, He.
Qed.

#[local] Instance at_stable p : Stable (at_ p).
Proof. apply lived_stable, kept_stable. Qed.
#[local] Instance shown_stable p : Stable (lived K p).
Proof. apply lived_stable, kept_shown_stable. Qed.

Lemma at_somewhere p e s : at_ p s → somewhere e s.
Proof. intros (? & ? & ? & ?). left. by split_and!. Qed.

Lemma shown_somewhere p e s : suspended e → lived K p s → somewhere e s.
Proof. intros He (? & ? & ? & ?). right. split; [done|]. by split_and!. Qed.

Hint Resolve at_somewhere : cmdapi.

Lemma at_weaken (p q : Phase → Prop) s : (∀ ph, p ph → q ph) → at_ p s → at_ q s.
Proof. intros Hpq (? & ? & ? & ?). by split_and!; auto. Qed.

Lemma call_at p c : triple (at_ p) (call c) (λ _, at_ p) somewhere.
Proof. apply call_rule; [apply _|eauto with cmdapi]. Qed.

Lemma await_at p : triple (at_ p) await (λ _, at_ p) somewhere.
Proof. apply await_rule; [apply _|eauto with cmdapi]. Qed.

Lemma wait_empty_at p : triple (at_ p) wait_empty (λ _, at_ p) somewhere.
Proof. apply wait_empty_rule; [apply _|eauto with cmdapi]. Qed.

Lemma child_status_at p c r : triple (at_ p) (child_status c r) (λ _, at_ p) somewhere.
Proof. apply child_status_rule. eauto with cmdapi. Qed.

Lemma blocked_at {A} p e (Q : A → Run → Prop) : triple (at_ p) (fail e) Q somewhere.
Proof. apply fail_rule. eauto with cmdapi. Qed.

Lemma deadline_at p secs : triple (at_ p) (deadline_after secs) (λ _, at_ p) somewhere.
Proof. apply deadline_after_rule. eauto with cmdapi. Qed.

Lemma join_readers_at p n : triple (at_ p) (join_readers n) (λ _, at_ p) somewhere.
Proof. apply join_readers_rule; [apply _|eauto with cmdapi]. Qed.

Lemma emit_at p e : is_published e = false → triple (at_ p) (emit e) (λ _, at_ p) somewhere.
Proof.
  intros He. apply emit_rule. intros s (HJ & Hl & Hw & Hp). split_and!; [by apply kept_emit| |done|done].
  simpl. rewrite published_app. destruct e; try done; by rewrite app_nil_r.
Qed.

(** What is shown and written: [Hu] is one step of the life. *)
Lemma publish_steps (p q : Phase → Prop) u (X : Stopped → Run → Prop) :
  (∀ now sn t, wf_snapshot sn → p (phase_of sn) →
     succeeds sn (set_output_truncated t (u now sn)) ∧ q (phase_of (u now sn))) →
  (∀ e s, suspended e → somewhere e s → X e s) → (∀ msg s, at_ q s → X (Fail msg) s) →
  triple (at_ p) (publish u) (λ _, at_ q) X.
Proof.
  intros Hu HX HF. apply (publish_rule _ _ (lived K q)); [apply _|apply _| | |exact HF|..].
  - intros s s' (HJ & Hl & Hw & Hp) Ha. pose proof (kept_show _ _ _ HJ Ha). destruct Ha as [Hs He _ _ _ _ _].
    destruct (Hu (clock s) _ (truncated (record s)) Hw Hp) as [Hsu Hq]. rewrite <- Hs in Hsu.
    split_and!; [done| | |].
    + rewrite He, published_app. simpl. by eapply lives_snoc.
    + apply Hsu.
    + by rewrite Hs, set_truncated_phase.
  - intros s s' (HK & Hl & Hw & Hp) Ha. pose proof (kept_save _ _ HK Ha). destruct Ha as [Hr He _ _ _].
    unfold at_, lived. by rewrite Hr, He.
  - intros e s He Hs. apply HX; [done|by eapply at_somewhere].
  - intros e s He Hs. apply HX; [done|by eapply shown_somewhere].
Qed.

Lemma publish_at (p q : Phase → Prop) u :
  (∀ now sn, wf_snapshot sn → p (phase_of sn) →
     moves sn (u now sn) ∧ q (phase_of (u now sn))) →
  triple (at_ p) (publish u) (λ _, at_ q) somewhere.
Proof.
  intros Hu. apply publish_steps; [|done|intros ??; apply at_somewhere].
  intros now sn t Hw Hp. destruct (Hu now sn Hw Hp) as [Hm Hq]. split; [by apply moves_succeeds|done].
Qed.

Ltac step_await e :=
  eapply triple_bind; [apply await_at|]; intros e; try exact (blocked_at _ _ _).
Ltac step_state :=
  eapply triple_bind; [apply triple_gets_keep|]; intros ?; simpl; apply triple_drop.
Ltac step_call := eapply triple_bind; [apply call_at|]; intros ?.
Ltac step_emit := eapply triple_bind; [by apply emit_at|]; intros ?.

Lemma force_stop_at why g worker :
  triple (at_ (λ ph, advance ph (Ending why true))) (force_stop_process why g worker)
    (λ _, at_ (λ ph, ph = Ending why true)) somewhere.
Proof.
  unfold force_stop_process. eapply triple_bind.
  { apply (publish_at _ (λ ph, ph = Ending why true)). intros now sn Hw Ha. split.
    - apply (stopping_moves why true); eauto using ending_status.
    - by destruct sn. }
  intros ?. step_call. step_emit. eapply triple_bind with (Q := λ _, at_ (λ ph, ph = Ending why true)).
  - destruct worker; [by apply triple_ret|]. step_await e. destruct e; try apply blocked_at.
    apply child_status_at.
  - intros st. eapply triple_bind; [apply wait_empty_at|]. intros ?. by apply triple_ret.
Qed.

(** The end of a branch of [stop_process] that forces the tree to stop. *)
Lemma forced_at p actual g worker :
  (∀ ph, p ph → advance ph (Ending actual true)) →
  triple (at_ p) (st ← force_stop_process actual g worker; mret (st, actual))
    (λ r, at_ (ready (Some r.2))) somewhere.
Proof.
  intros Hp. eapply triple_bind.
  - eapply triple_pre; [apply force_stop_at|]. intros s. by apply at_weaken.
  - intros st. apply triple_ret. intros s. apply at_weaken. intros ph ->. by exists true.
Qed.

Lemma grace_period_at why grace :
  triple (at_ (λ ph, ph = Ending why false)) (grace_period why grace) (λ r, at_ (ready (Some r.2))) somewhere.
Proof.
  unfold grace_period.
  assert (∀ g worker, triple (at_ (λ ph, ph = Ending why false))
    (st ← force_stop_process why g worker; mret (st, why)) (λ r, at_ (ready (Some r.2))) somewhere) as Hlate.
  { intros. apply forced_at. intros ph ->. apply adv_escalate. by left. }
  assert (∀ g worker, triple (at_ (λ ph, ph = Ending why false))
    (st ← force_stop_process RForceKilled g worker; mret (st, RForceKilled))
    (λ r, at_ (ready (Some r.2))) somewhere) as Hforce.
  { intros. apply forced_at. intros ph ->. apply adv_escalate. by right. }
  step_await e. step_state. destruct e; try apply blocked_at.
  - eapply triple_bind; [apply child_status_at|]. intros st.
    step_await e'. step_state. destruct e'; try apply blocked_at.
    + destruct (expired_at _ _); [apply Hlate|apply blocked_at].
    + destruct (force_pending _); [apply Hforce|apply blocked_at].
    + destruct err; [apply blocked_at|]. apply triple_ret. intros s. apply at_weaken. by exists false.
  - destruct (expired_at _ _); [apply Hlate|apply blocked_at].
  - destruct (force_pending _); [apply Hforce|apply blocked_at].
Qed.

Lemma stop_process_at route why :
  triple (at_ (λ ph, ph = Active)) (stop_process route why) (λ r, at_ (ready (Some r.2))) somewhere.
Proof.
  unfold stop_process. case_bool_decide as Hk.
  { apply forced_at. intros ph ->. apply adv_kill. by left. }
  eapply triple_bind.
  { apply (publish_at _ (λ ph, ph = Ending why false)). intros now sn Hw Ha.
    assert (advance (phase_of sn) (Ending why false)) by (rewrite Ha; by apply adv_ask).
    split; [|by destruct sn]. apply (stopping_moves why false); eauto using ending_status. }
  intros ?. do 2 (eapply triple_bind; [apply ignore_fail_rule;
    [apply call_rule; [apply _|by intros]|intros; by eapply at_somewhere]|]; intros ?).
  step_emit. step_call. step_emit. eapply triple_bind; [apply deadline_at|]. intros grace.
  apply grace_period_at.
Qed.

Lemma loop_stop_at route why :
  triple (at_ (λ ph, ph = Active)) ('(st, actual) ← stop_process route why; mret (st, Some actual))
    (λ r, at_ (ready r.2)) somewhere.
Proof.
  eapply triple_bind; [apply stop_process_at|]. intros [st actual]. by apply triple_ret.
Qed.

Lemma main_loop_at fuel route deadline :
  triple (at_ (λ ph, ph = Active)) (main_loop fuel route deadline) (λ r, at_ (ready r.2)) somewhere.
Proof.
  induction fuel as [|fuel IH]; simpl; [apply blocked_at|].
  step_await e. step_state. destruct e; try apply blocked_at.
  - eapply triple_bind; [apply child_status_at|]. intros st. by apply triple_ret.
  - destruct (expired_at _ _); [apply loop_stop_at|apply blocked_at].
  - destruct (Watch.has_changed _ _); [|apply blocked_at]. simpl.
    eapply triple_bind with (Q := λ _, at_ (λ ph, ph = Active)).
    { apply triple_modify. intros s Hs. eapply stable; [|exact Hs]. by split; simpl; auto. }
    intros ?. destruct (Watch.value _); [apply loop_stop_at|exact IH].
Qed.

Lemma settle_tree_at deadline stopped :
  triple (at_ (ready stopped)) (settle_tree deadline stopped) (λ r, at_ (ready r)) somewhere.
Proof.
  destruct stopped as [why|]; simpl.
  { eapply triple_bind; [apply wait_empty_at|]. intros ?. by apply triple_ret. }
  step_await e. step_state. destruct e; try apply blocked_at.
  2: { by apply triple_ret. }
  destruct (expired_at _ _); [|apply blocked_at]. step_call. step_emit. eapply triple_bind.
  { apply (publish_at _ (λ ph, ph = Ending RTimeout true)). intros now sn Hw Ha.
    assert (advance (phase_of sn) (Ending RTimeout true)) by (rewrite Ha; apply adv_kill; by right).
    split; [|by destruct sn]. apply (stopping_moves RTimeout true); eauto using ending_status. }
  intros ?. eapply triple_bind; [apply wait_empty_at|]. intros ?. apply triple_ret.
  intros s. apply at_weaken. by exists true.
Qed.

Lemma launch_at route args :
  triple (at_ (λ ph, ph = Queued)) (launch route args) (λ _, at_ (λ ph, ph = Active)) somewhere.
Proof.
  unfold launch. eapply triple_bind; [|intros; apply deadline_at]. unfold spawn_worker.
  do 5 step_call. step_emit. do 4 step_call. step_emit. step_call.
  apply publish_at. intros now sn Hw Ha. split; [|by destruct sn]. apply start_moves; [done|].
  unfold phase_of in Ha. destruct (status sn); try done. by destruct (termination sn).
Qed.

Lemma run_task_at route args :
  triple (at_ (λ ph, ph = Queued)) (run_task route args) (λ _, at_ (λ ph, ¬ open_phase ph)) somewhere.
Proof.
  unfold run_task, conclude. eapply triple_bind; [apply launch_at|]. intros d. step_state.
  eapply triple_bind; [apply main_loop_at|]. intros [st stopped].
  eapply triple_bind; [apply settle_tree_at|]. intros stopped'. step_emit.
  eapply triple_bind; [apply join_readers_at|]. intros ?. step_emit.
  apply publish_at. intros now sn Hw Hr. split; [by apply finish_moves|].
  rewrite phase_open, finish_status, final_status_finished. done.
Qed.

(** The transition of the error branch: it ends an open task and publishes a
    finished one again. *)
Lemma abandon_at msg :
  triple (at_ (λ _, True)) (ignore_fail (publish (abandon msg)))
    (λ _, at_ (λ ph, ¬ open_phase ph)) somewhere.
Proof.
  set (F := at_ (λ ph, ¬ open_phase ph)).
  assert (triple (at_ (λ _, True)) (publish (abandon msg)) (λ _, F)
    (λ e s, suspended e ∧ somewhere e s ∨ F s)) as Hp.
  { apply (publish_steps _ (λ ph, ¬ open_phase ph)); [|by left|by right].
    intros now sn t Hw _. split.
    - destruct (is_finished (status sn)) eqn:Hf; [|by apply moves_succeeds, abandon_moves].
      unfold abandon. rewrite Hf. split_and!; [by destruct sn|by apply set_truncated_wf|].
      right. split; [done|]. by destruct sn.
    - rewrite phase_open, abandon_finished. done. }
  intros s Hs. specialize (Hp s Hs). unfold ignore_fail.
  destruct (publish _ s) as [[]s']; [done|].
  destruct Hp as [[He Hp]|Hp]; [by destruct He as [-> | ->]|].
  destruct e; [exact Hp|by eapply at_somewhere..].
Qed.

Lemma drop_permits_at :
  triple (at_ (λ _, True)) drop_permits (λ _, at_ (λ _, True)) somewhere.
Proof.
  intros s Hs. unfold drop_permits. destruct (existsb _ _); [done|].
  by apply (emit_at (λ _, True) DroppedPermits eq_refl s).
Qed.

Lemma start_task_at route args :
  triple (at_ (λ ph, ph = Queued)) (start_task route args) (λ _, at_ (λ ph, ¬ open_phase ph)) somewhere.
Proof.
  intros s Hs. unfold start_task.
  match goal with |- context [run_task route args ?s1] => assert (at_ (λ ph, ph = Queued) s1) as Hs1 end.
  { eapply stable; [|exact Hs]. by split; simpl; auto. }
  pose proof (run_task_at route args _ Hs1) as Hr.
  destruct (run_task _ _ _) as [[u|[msg| | |]] s1].
  - by apply (emit_at (λ ph, ¬ open_phase ph) MarkedFinished eq_refl s1).
  - assert (triple (at_ (λ _, True)) (_ ← drop_permits; _ ← ignore_fail (publish (abandon msg)); emit MarkedFinished)
      (λ _, at_ (λ ph, ¬ open_phase ph)) somewhere) as Ht.
    { eapply triple_bind; [apply drop_permits_at|]. intros ?. eapply triple_bind; [apply abandon_at|].
      intros ?. by apply emit_at. }
    apply (Ht s1). by destruct Hr as [?|[[?|?] _]].
  - assert (at_ (λ _, True) s1) as Hat by by destruct Hr as [?|[[?|?] _]].
    pose proof (drop_permits_at s1 Hat) as Hd. unfold drop_permits in *. left. by destruct (existsb _ _).
  - exact Hr.
  - exact Hr.
Qed.
End walk.

(** ** Consequences of a specified life *)

Lemma lives_wf a l b : wf_snapshot a → lives a l b → Forall wf_snapshot l ∧ wf_snapshot b.
Proof.
  intros Ha. induction 1 as [|l b c Hl [IHl IHb] (_ & Hc & _)]; [done|]. split; [|done].
  by rewrite Forall_app, Forall_singleton.
Qed.

(** The measure bounds what is published before the end; a finished task stays
    in its phase. *)
Lemma lives_phases a l b :
  lives a l b →
  (length (filter (λ s, open_phase (phase_of s)) l) + 1 `max` remaining (phase_of b)
     ≤ 1 `max` remaining (phase_of a))%nat.
Proof.
  induction 1 as [|l b c Hl IH (_ & _ & Hs)]; [simpl; lia|]. rewrite filter_app, length_app.
  destruct Hs as [Ha%advance_decreases|[Hf Hc]].
  - rewrite filter_cons. destruct (decide _) as [Ho|Ho]; simpl in *; [|lia].
    destruct (phase_of c) as [| |? []|]; simpl in *; try done; lia.
  - assert (phase_of c = phase_of b) as Hp by by rewrite Hc, set_truncated_phase.
    rewrite filter_cons_False; [rewrite Hp; simpl; lia|]. rewrite Hp, phase_open. congruence.
Qed.

Lemma lives_task_id a l b : lives a l b → task_id b = task_id a.
Proof. induction 1 as [|l b c Hl IH ([Hi _ _ _ _ _] & _)]; congruence. Qed.

Section refinement.
Context `{RegexLib, SnapshotJson, TimeLib, Platform}.

(** A task as [create] hands it over, with an empty log of effects. *)
Definition queued (s : Run) : Prop :=
  effects s = [] ∧ ∃ i now rt mode enc, snap (record s) = new_snapshot i now rt mode enc.

Lemma new_snapshot_wf i now rt mode enc : wf_snapshot (new_snapshot i now rt mode enc).
Proof. split; try done. split; [by intros []|done]. Qed.

#[local] Instance kept_True : Kept (λ _, True) (λ _, True).
Proof. by split. Qed.

Lemma queued_at s J : queued s → J s → at_ (snap (record s)) J (λ ph, ph = Queued) s.
Proof.
  intros [He (i & now & rt & mode & enc & Hs)] HJ. unfold at_, lived. rewrite He, Hs.
  split_and!; [done|constructor|apply new_snapshot_wf|done].
Qed.

(** C4: whatever the schedule and the disk do to a task, and whether it runs
    to its end, panics or is still suspended, the snapshots it has published
    are a path of the automaton: the task starts once, is asked to stop once
    and for the reason it then reports, may be escalated to a kill, ends once
    with the status its stop reason prescribes, and nothing but its truncation
    mark changes afterwards. At most three snapshots precede the final one, and
    when [start_task] returns the task is done. *)
Theorem task_refines_lifecycle route args s r s' :
  queued s → start_task route args s = (r, s') →
  lives (snap (record s)) (published (effects s')) (snap (record s')) ∧
  (length (filter (λ sn, open_phase (phase_of sn)) (published (effects s'))) ≤ 3)%nat ∧
  (r = Ok tt → ∃ how, phase_of (snap (record s')) = Done how).
Proof.
  intros Hq Hr. pose proof (start_task_at (snap (record s)) (λ _, True) (λ _, True) route args s (queued_at s _ Hq I)) as Ht.
  rewrite Hr in Ht.
  assert (lives (snap (record s)) (published (effects s')) (snap (record s'))) as Hl
    by (destruct r as [[]|e]; [|destruct Ht as [Ht|[_ Ht]]]; by destruct Ht as (_ & Hl & _)).
  split_and!; [done| |].
  - apply lives_phases in Hl as Hn. destruct Hq as [_ (? & ? & ? & ? & ? & Hs)]. rewrite Hs in Hn. simpl in Hn. lia.
  - intros ->. destruct Ht as (_ & _ & _ & Hp). destruct (phase_of _); simpl in Hp; try done. eauto.
Qed.

Lemma start_task_wf route args s r s' :
  queued s → start_task route args s = (r, s') →
  Forall wf_snapshot (published (effects s')) ∧ wf_snapshot (snap (record s')).
Proof.
  intros Hq Hr. pose proof (start_task_at (snap (record s)) (λ _, True) (λ _, True) route args s (queued_at s _ Hq I)) as Ht.
  rewrite Hr in Ht. apply (lives_wf (snap (record s))).
  - destruct Hq as [_ (? & ? & ? & ? & ? & ->)]. apply new_snapshot_wf.
  - destruct r as [[]|e]; [|destruct Ht as [Ht|[_ Ht]]]; by destruct Ht as (_ & Hl & _).
Qed.

(** C19: every snapshot of a task is consistent: the time of the end is there
    exactly when the task has finished, an exit code only then, a task that was
    stopped says by whom, one that failed says why, one that succeeded returned
    0 and was not stopped, and a force kill is reported as forced. *)
Theorem snapshots_wf route args s r s' :
  queued s → start_task route args s = (r, s') →
  Forall wf_snapshot (published (effects s')) ∧ wf_snapshot (snap (record s')).
Proof. apply start_task_wf. Qed.
End refinement.

(** ** Crashes *)

Section crashes.
Context `{RegexLib, JsonLaws, TimeLib, Platform}.

(** The disk works, and the journal of the task, in [d], holds [sn] as its
    last snapshot (up to the truncation mark, which [persist] reads again). *)
Definition on_disk (d : string) (sn : TaskSnapshot) (s : Run) : Prop :=
  dir (record s) = d ∧ healthy s ∧ wf_journal (journal (disk s) d) ∧
  ∃ t, read_latest_snapshot (file_content (disk s) d "events.jsonl") = Ok (Some (set_output_truncated t sn)).

(** The journal holds what was published last, which is the task's snapshot, *)
Definition durable (s0 : TaskSnapshot) (d : string) (s : Run) : Prop :=
  on_disk d (snap (record s)) s ∧ default s0 (last (published (effects s))) = snap (record s).

(** or what was published before that. *)
Definition unsaved (s0 : TaskSnapshot) (d : string) (s : Run) : Prop :=
  ∃ l, published (effects s) = l ++ [snap (record s)] ∧ on_disk d (default s0 (last l)) s.

Lemma on_disk_stable d sn s s' : outside s s' → on_disk d sn s → on_disk d sn s'.
Proof. intros [Hs Hd Hk _ _ _ _]. unfold on_disk, healthy. by rewrite Hd, Hk. Qed.

#[local] Instance kept_durable s0 d : Kept (durable s0 d) (unsaved s0 d).
Proof.
  split.
  - intros s s' Ho [Hd Hl]. pose proof (on_disk_stable _ _ _ _ Ho Hd). destruct Ho as [Hs _ _ He _ _ _].
    unfold durable. by rewrite Hs, He.
  - intros s s' Ho (l & Hl & Hd). pose proof (on_disk_stable _ _ _ _ Ho Hd). destruct Ho as [Hs _ _ He _ _ _].
    exists l. by rewrite Hs, He.
  - intros e s He [Hd Hl]. split; [done|]. simpl. rewrite published_app. destruct e; try done; by rewrite app_nil_r.
  - intros u s s' [(Hdir & (Hhf & Hhd) & Hj & t & Ht) Hl] [_ He _ _ _ Hdir' Hk]. exists (published (effects s)).
    rewrite He, published_app, Hl. split; [done|]. unfold on_disk, healthy. rewrite Hdir', Hk.
    split_and!; [done..|]. by exists t.
  - intros s s' (l & Hl & Hdir & (Hf & Hd) & Hj & _) [Hr He _ _ Hk].
    destruct (persist_healthy (record s) (disk s) Hf Hd) as (w & Hp & Hf' & Hd').
    rewrite Hp in Hk. simpl in Hk. subst w. rewrite <- Hdir in Hj. apply persist_latest in Hp as [Hlat Hj']; [|done].
    unfold durable, on_disk, healthy. rewrite Hr, He, Hl, last_snoc, <- Hdir. split_and!; try done.
    by exists (truncated (record s)).
Qed.

Lemma refresh_healthy r w : faults w = [] → ∃ r', refresh_output_sizes r w = (Ok r', w).
Proof.
  intros Hf. unfold refresh_output_sizes, file_size, next_fault, mbind, stm_bind, gets, mret, stm_ret.
  rewrite Hf. simpl. rewrite Hf. simpl. rewrite Hf. eauto.
Qed.

(** Recovery of a directory cannot fail on a disk that works. *)
Lemma recover_healthy now d st w sn :
  faults w = [] → is_Some (dirs w !! d) →
  read_latest_snapshot (file_content w d "events.jsonl") = Ok (Some sn) →
  ∃ s', recover_directory now d (mkSys st w) = (Ok tt, s').
Proof.
  intros Hf Hd Hl. destruct (file_content w d "events.jsonl") as [c|] eqn:Hc; [|done].
  destruct (refresh_healthy (TaskRecord_new (interrupt now sn) d) w Hf) as [r Hr].
  pose proof (refresh_fields _ _ _ _ Hr) as (_ & Hdir & _).
  assert (∃ w', (if bool_decide (status (snap r) = Interrupted) then lift (persist r) else mret tt)
                  (mkSys st w) = (Ok tt, mkSys st w')) as [w' Hp].
  { case_bool_decide; [|by exists w]. destruct (persist_healthy r w Hf) as (w' & Hp & _).
    - rewrite Hdir. done.
    - exists w'. unfold lift. simpl. by rewrite Hp. }
  assert (read_journal d (mkSys st w) = (Ok (Some sn), mkSys st w)) as Hj.
  { unfold read_journal. cbn [world store]. rewrite (read_file_no_fault _ _ _ c) by done. by rewrite Hl. }
  assert (lift (refresh_output_sizes (TaskRecord_new (interrupt now sn) d)) (mkSys st w) = (Ok r, mkSys st w))
    as Hr' by (unfold lift; cbn [world store]; by rewrite Hr).
  eexists. unfold recover_directory, mbind, stm_bind. rewrite Hj, Hr', Hp. reflexivity.
Qed.

Lemma interrupt_succeeds now s : wf_snapshot s → succeeds s (interrupt now s).
Proof.
  intros Hw. destruct (is_finished (status s)) eqn:Hf.
  - rewrite interrupt_finished_id by done. split_and!; [done|done|right]. split; [done|by destruct s].
  - destruct (interrupt_moves now s Hw Hf) as (? & ? & ?). split_and!; auto.
Qed.

(** What [create] hands over: a queued task whose journal holds its snapshot. *)
Lemma created_run `{UuidLib, EncodingLib} i now rt mode enc sys r sys' v tape c t :
  create i now rt mode enc sys = (Ok r, sys') → faults (world sys') = [] →
  let s := mkRun r (world sys') v tape c t [] in queued s ∧ durable (snap r) (dir r) s.
Proof.
  intros Hc Hf s. apply create_success in Hc as (_ & -> & _ & Hl & Hj & _). split.
  - split; [done|]. by eexists _, _, _, _, _.
  - split; [|done]. split_and!; [done|split; [done|]|done|by exists false].
    unfold s. simpl in *. unfold file_content in Hl. destruct (dirs (world sys') !! _); [by eexists|done].
Qed.

(** The disk a crash of the service can leave behind: that of the task, with as
    much of a record of its snapshot appended to its journal as had reached it,
    cut between two characters, and working at the next start. *)
Definition crashed (s : Run) (w : World) : Prop :=
  let d := dir (record s) in
  faults w = [] ∧ is_Some (dirs w !! d) ∧
  ∃ n t, let rest := Str.take n (event_line (set_output_truncated t (snap (record s)))) in
    Utf8.valid rest = true ∧ journal w d = journal (disk s) d +:+ rest.

Lemma read_latest_journal w d :
  read_latest_snapshot (file_content w d "events.jsonl") = read_latest_snapshot (Some (journal w d)).
Proof. unfold journal. by destruct (file_content w d "events.jsonl"). Qed.

(** What is read after a crash: what the journal held, or the current snapshot. *)
Lemma crashed_latest d sn s w :
  on_disk d sn s → crashed s w → ∃ t,
  read_latest_snapshot (file_content w d "events.jsonl") = Ok (Some (set_output_truncated t sn)) ∨
  read_latest_snapshot (file_content w d "events.jsonl") = Ok (Some (set_output_truncated t (snap (record s)))).
Proof.
  intros (<- & _ & Hj & t & Hl) (_ & _ & n & t' & Hu & Hw). rewrite read_latest_journal in *. rewrite Hw.
  destruct (read_latest_cut _ _ _ _ Hj Hu Hl) as [->| ->]; [by exists t; left|by exists t'; right].
Qed.

Lemma lives_last a l b : lives a l b → b = default a (last l).
Proof. destruct 1 as [|l b c]; [done|]. by rewrite last_snoc. Qed.

Lemma lives_before a l c : lives a (l ++ [c]) c → lives a l (default a (last l)).
Proof.
  inversion 1 as [Hn|l' b c' Hl Hs Happ].
  - by destruct l.
  - apply app_inj_tail in Happ as [-> _]. by rewrite <- (lives_last _ _ _ Hl).
Qed.

Lemma interrupt_truncated now t s :
  interrupt now (set_output_truncated t s) = set_output_truncated t (interrupt now s).
Proof. unfold interrupt. destruct s as [? ? st]. simpl. by destruct (is_finished st). Qed.

(** Recovery continues the life it finds in the journal. *)
Lemma recovery_continues now d st w s0 l b t :
  wf_snapshot s0 → lives s0 l b → faults w = [] → is_Some (dirs w !! d) →
  read_latest_snapshot (file_content w d "events.jsonl") = Ok (Some (set_output_truncated t b)) →
  ∃ rec w', recover_directory now d (mkSys st w) =
      (Ok tt, mkSys (set_tasks (<[id rec := rec]> (tasks st)) st) w') ∧
    id rec = task_id s0 ∧ snap rec = interrupt now (set_output_truncated t b) ∧
    lives s0 (l ++ [snap rec]) (snap rec) ∧ ∃ how, phase_of (snap rec) = Done how.
Proof.
  intros Hw0 Hl Hf Hd Hlat. pose proof (lives_wf _ _ _ Hw0 Hl) as [_ Hw].
  destruct (recover_healthy now _ st _ _ Hf Hd Hlat) as [[st' w'] Hrec].
  pose proof (recover_directory_Ok _ _ _ _ _ Hrec) as [[_ Hn]|(sn & rec & Hst & Hl' & Hsn & Hid & _ & _)].
  { simpl in Hn. congruence. }
  simpl in Hst, Hl'. assert (sn = set_output_truncated t b) as -> by congruence.
  exists rec, w'. rewrite Hrec, Hst, Hid, Hsn. split_and!; try done.
  - rewrite <- (lives_task_id _ _ _ Hl). by destruct b.
  - eapply lives_snoc; [done|]. rewrite interrupt_truncated. destruct (is_finished (status b)) eqn:Hfin.
    + rewrite interrupt_finished_id by done. split_and!; [by destruct b|by apply set_truncated_wf|].
      right. split; [done|by destruct b].
    + by apply moves_succeeds, interrupt_moves.
  - rewrite phase_of_finished by apply interrupt_finished. eauto.
Qed.

(** A task stopped anywhere, on a disk that works, and its recovery. *)
Lemma crash_recovered route args d s r s' now st w :
  queued s → durable (snap (record s)) d s → start_task route args s = (r, s') → crashed s' w →
  ∃ l b t, (published (effects s') = l ∨
      (∃ e, r = Err e ∧ suspended e) ∧ published (effects s') = l ++ [snap (record s')]) ∧
    lives (snap (record s)) l b ∧
    ∃ rec w', recover_directory now d (mkSys st w) =
        (Ok tt, mkSys (set_tasks (<[id rec := rec]> (tasks st)) st) w') ∧
      id rec = task_id (snap (record s)) ∧ snap rec = interrupt now (set_output_truncated t b) ∧
      lives (snap (record s)) (l ++ [snap rec]) (snap rec) ∧ ∃ how, phase_of (snap rec) = Done how.
Proof.
  intros Hq Hd Hr Hc. set (s0 := snap (record s)) in *.
  assert (wf_snapshot s0) as Hw0.
  { unfold s0. destruct Hq as [_ (? & ? & ? & ? & ? & ->)]. apply new_snapshot_wf. }
  pose proof (start_task_at s0 (durable s0 d) (unsaved s0 d) route args s (queued_at s _ Hq Hd)) as Ht.
  rewrite Hr in Ht.
  assert (at_ s0 (durable s0 d) (λ _, True) s' ∨ (∃ e, r = Err e ∧ suspended e) ∧ lived s0 (unsaved s0 d) (λ _, True) s')
    as Hat.
  { destruct r as [u|e]; [left; by eapply at_weaken|].
    destruct Ht as [?|[? ?]]; [by left|right]. split; [by exists e|done]. }
  destruct Hat as [((Hdisk & _) & Hlife & _)|[He ((l & Hl & Hdisk) & Hlife & _)]].
  - destruct (crashed_latest _ _ _ _ Hdisk Hc) as [t Ht']. exists (published (effects s')), (snap (record s')), t.
    split; [by left|]. split; [done|]. destruct Hdisk as (<- & _). destruct Hc as (Hf & Hdir & _).
    eapply recovery_continues; try done. by destruct Ht'.
  - destruct (crashed_latest _ _ _ _ Hdisk Hc) as [t [Ht'|Ht']]; destruct Hdisk as (<- & _);
      destruct Hc as (Hf & Hdir & _).
    + exists l, (default s0 (last l)), t. rewrite Hl in Hlife. apply lives_before in Hlife.
      split; [by right|]. split; [done|]. by eapply recovery_continues.
    + exists (published (effects s')), (snap (record s')), t. split; [by left|]. split; [done|].
      by eapply recovery_continues.
Qed.

(** C10: a crash of the service at any point of a task's life, on a disk that
    works, loses at most the last snapshot the task has shown. For a task that
    [create] made and [start_task] ran for a while, with whatever a write cut
    short by the crash (between two characters) left of the next record, the
    next start finds in the journal, up to the truncation mark, the snapshot
    that was shown last; or, only when the task was suspended between showing a
    snapshot and writing it, the one shown before that. The recovery is one more
    step of the life up to there, which ends it as interrupted unless it was
    done. *)
Theorem crash_continues_life `{UuidLib, EncodingLib} route args i t0 rt mode enc sys rec0 sys' v tape c t r s' now st w :
  create i t0 rt mode enc sys = (Ok rec0, sys') → faults (world sys') = [] →
  start_task route args (mkRun rec0 (world sys') v tape c t []) = (r, s') → crashed s' w →
  ∃ l b m, (published (effects s') = l ∨
      (∃ e, r = Err e ∧ suspended e) ∧ published (effects s') = l ++ [snap (record s')]) ∧
    lives (new_snapshot i t0 rt mode enc) l b ∧
    ∃ rec w', recover_directory now (dir rec0) (mkSys st w) =
        (Ok tt, mkSys (set_tasks (<[i := rec]> (tasks st)) st) w') ∧
      snap rec = interrupt now (set_output_truncated m b) ∧
      lives (new_snapshot i t0 rt mode enc) (l ++ [snap rec]) (snap rec) ∧
      ∃ how, phase_of (snap rec) = Done how.
Proof.
  intros Hc Hf0 Hr Hcr. destruct (created_run _ _ _ _ _ _ _ _ v tape c t Hc Hf0) as [Hq Hd].
  assert (snap rec0 = new_snapshot i t0 rt mode enc) as Hs0
    by by apply create_success in Hc as (_ & -> & _).
  eapply crash_recovered in Hr as (l & b & m & Hpub & Hlife & rec & w' & Hrec & Hid & Hrest); [|done..].
  cbn [record] in *. rewrite Hs0 in *. exists l, b, m. split_and!; [done|done|]. exists rec, w'.
  change i with (task_id (new_snapshot i t0 rt mode enc)) at 1. rewrite <- Hid. done.
Qed.

(** A client can see the end of a task that a restart takes back: between
    showing the final snapshot and writing it the task is reported as finished,
    with its exit code; when the service dies there, it is recovered as
    [Interrupted]. *)
Theorem unsaved_end_lost d sn stopped st s now store w :
  on_disk d sn s → is_finished (status sn) = false → schedule s = [EvShown] → 
  faults w = [] → is_Some (dirs w !! d) → journal w d = journal (disk s) d →
  ∃ s', publish (finish stopped st) s = (Err Blocked, s') ∧
    status (record_snapshot (record s')) = final_status stopped st ∧
    exit_code (record_snapshot (record s')) = code st ∧
    disk s' = disk s ∧
    ∃ rec w', recover_directory now d (mkSys store w) =
        (Ok tt, mkSys (set_tasks (<[id rec := rec]> (tasks store)) store) w') ∧
      status (snap rec) = Interrupted ∧ exit_code (snap rec) = exit_code sn.
Proof.
  intros (Hdir & _ & _ & t & Hl) Hf Hs Hfw Hdw Hj.
  eexists. split.
  { unfold publish, show, save, await, settle, next_event, modify, mbind, stm_bind. rewrite Hs. simpl.
    reflexivity. }
  rewrite read_latest_journal, <- Hj, <- read_latest_journal in Hl.
  destruct (recover_healthy now _ store _ _ Hfw Hdw Hl) as [[st' w'] Hrec].
  pose proof (recover_directory_Ok _ _ _ _ _ Hrec) as [[_ Hn]|(sn' & rec & Hst & Hl' & Hsn & Hid & _ & _)].
  { simpl in Hn. congruence. }
  simpl in Hst, Hl'. assert (sn' = set_output_truncated t sn) as -> by congruence.
  simpl. pose proof (finish_status stopped st (clock s) (snap (record s))) as Hst'.
  pose proof (finish_exit_code stopped st (clock s) (snap (record s))) as Hec.
  split_and!; [by destruct (finish _ _ _ _)|by destruct (finish _ _ _ _)|done|].
  exists rec, w'. rewrite Hrec, Hst, Hsn. split; [done|]. unfold interrupt.
  destruct sn as [? ? sst]. simpl in *. rewrite Hf. by split.
Qed.

End crashes.

(** ** A concrete life *)
Module LifecycleToy.

#[local] Existing Instances Toy.regex bit_json bit_time_lib unix bit_json_laws StoreToy.uuids StoreToy.encodings.

Lemma run0_queued tape : queued (ProcessToy.run0 tape).
Proof. split; [done|]. by exists 7%N, 5, "/run", Separate, Utf8. Defined.

(** A timeout with escalation: running, asked to stop, killed, timed out. *)
Lemma task_refines_lifecycle_witness :
  let s := ProcessToy.run0 ProcessToy.timeout_tape in
  let s' := (start_task Toy.resolved_route ["a"] s).2 in
  (phase_of <$> published (effects s')) = [Active; Ending RTimeout false; Ending RTimeout true; Done TimedOut] ∧
  lives (snap (record s)) (published (effects s')) (snap (record s')).
Proof.
  split; [vm_compute; reflexivity|].
  apply (task_refines_lifecycle Toy.resolved_route ["a"] (ProcessToy.run0 ProcessToy.timeout_tape)
    (start_task Toy.resolved_route ["a"] (ProcessToy.run0 ProcessToy.timeout_tape)).1).
  - apply run0_queued.
  - apply surjective_pairing.
Defined.

Lemma snapshots_wf_witness :
  let s' := (start_task Toy.resolved_route ["a"] (ProcessToy.run0 ProcessToy.success_tape)).2 in
  length (published (effects s')) = 2%nat ∧ Forall wf_snapshot (published (effects s')).
Proof.
  split; [vm_compute; reflexivity|].
  apply (snapshots_wf Toy.resolved_route ["a"] (ProcessToy.run0 ProcessToy.success_tape)
    (start_task Toy.resolved_route ["a"] (ProcessToy.run0 ProcessToy.success_tape)).1).
  - apply run0_queued.
  - apply surjective_pairing.
Defined.

(** The service dies while the script runs. *)
Definition cut_tape : list Ev := replicate 10 (EvCall None) ++ [EvShown; EvSaved].
Definition cut_run : result Stopped unit * Run :=
  start_task Toy.resolved_route ["a"] (mkRun StoreToy.rec1 (world StoreToy.sys1) 0 cut_tape 5 0 []).

Lemma created_toy : create 7%N 5 "/run" Separate Utf8 StoreToy.sys0 = (Ok StoreToy.rec1, StoreToy.sys1).
Proof. rewrite (surjective_pairing (create _ _ _ _ _ _)). by f_equal. Defined.

Lemma crash_continues_life_witness :
  status (snap (record cut_run.2)) = Running ∧
  ∃ l b m, (published (effects cut_run.2) = l ∨
      (∃ e, cut_run.1 = Err e ∧ suspended e) ∧ published (effects cut_run.2) = l ++ [snap (record cut_run.2)]) ∧
    lives (new_snapshot 7%N 5 "/run" Separate Utf8) l b ∧
    ∃ rec w', recover_directory 9 (dir StoreToy.rec1) (mkSys StoreToy.empty_store (disk cut_run.2)) =
        (Ok tt, mkSys (set_tasks (<[7%N := rec]> (tasks StoreToy.empty_store)) StoreToy.empty_store) w') ∧
      snap rec = interrupt 9 (set_output_truncated m b) ∧
      lives (new_snapshot 7%N 5 "/run" Separate Utf8) (l ++ [snap rec]) (snap rec) ∧
      ∃ how, phase_of (snap rec) = Done how.
Proof.
  split; [vm_compute; reflexivity|].
  apply (crash_continues_life Toy.resolved_route ["a"] 7%N 5 "/run" Separate Utf8 StoreToy.sys0 StoreToy.rec1
    StoreToy.sys1 0 cut_tape 5 0 cut_run.1 cut_run.2 9 StoreToy.empty_store (disk cut_run.2)).
  - apply created_toy.
  - vm_compute. reflexivity.
  - unfold cut_run. apply surjective_pairing.
  - split; [vm_compute; reflexivity|]. split.
    + eapply bool_decide_eq_true_1. vm_compute. reflexivity.
    + exists 0%nat, false. split; [reflexivity|]. rewrite Str.take_0, Str.app_nil_r. reflexivity.
Defined.

(** A queued task on the disk that [create] left, which shows its end. *)
Definition ending_run : Run := mkRun StoreToy.rec1 (world StoreToy.sys1) 0 [EvShown] 5 0 [].

Lemma unsaved_end_lost_witness :
  ∃ s', publish (finish None (mkExitStatus (Some 0))) ending_run = (Err Blocked, s') ∧
    status (record_snapshot (record s')) = Succeeded ∧
    ∃ rec w', recover_directory 9 (dir StoreToy.rec1) (mkSys StoreToy.empty_store (world StoreToy.sys1)) =
        (Ok tt, mkSys (set_tasks (<[id rec := rec]> (tasks StoreToy.empty_store)) StoreToy.empty_store) w') ∧
      status (snap rec) = Interrupted.
Proof.
  assert (faults (world StoreToy.sys1) = []) as Hf by (vm_compute; reflexivity).
  assert (is_Some (dirs (world StoreToy.sys1) !! dir StoreToy.rec1)) as Hd
    by (eapply bool_decide_eq_true_1; vm_compute; reflexivity).
  destruct (created_run 7%N 5 "/run" Separate Utf8 StoreToy.sys0 StoreToy.rec1 StoreToy.sys1 0 [EvShown] 5 0
    created_toy Hf) as [_ [Hdisk _]].
  destruct (unsaved_end_lost (dir StoreToy.rec1) (snap StoreToy.rec1) None (mkExitStatus (Some 0)) ending_run 9
    StoreToy.empty_store (world StoreToy.sys1) Hdisk eq_refl eq_refl Hf Hd eq_refl)
    as (s' & Hs' & Hst & _ & _ & rec & w' & Hrec & Hint & _).
  exists s'. split; [exact Hs'|]. split; [exact Hst|]. exists rec, w'. split; [exact Hrec|exact Hint].
Defined.

End LifecycleToy.
