(* ===== verification/Progress.v ===== *)
(** * A task is never stuck (src/src/process/mod.rs)

    [Process] runs a task on a schedule; when the schedule ends the task waits.
    Here: from wherever a task waits, finitely many ordinary events bring it to
    its end, with [mark_finished] and its permits released. Ordinary events are
    the answers the task is owed: calls that return, transitions that are
    shown and written, a worker that exits, a process tree that becomes empty, readers
    that end. No timer, stop request or second chance is needed.

    The proof is compositional: [good] says of a computation at a state that
    more ordinary events do not change what it has done, and that they finish
    what it waits for; it is closed under bind. *)

From S2P Require Import Prelude RustStd Model Disk Journal Store Config Capture Process.
Local Open Scope string_scope.
Local Open Scope list_scope.
Local Open Scope Z_scope.

(** ** Ordinary events *)

Definition ordinary (e : Ev) : Prop :=
  match e with
  | EvCall None | EvShown | EvSaved | EvChildExit (Ok _) | EvTreeEmpty None | EvReader (Ok None) => True
  | _ => False
  end.

(** The same run, with more to come. *)
Definition more (t : list Ev) (s : Run) : Run :=
  mkRun (record s) (disk s) (seen_version s) (schedule s ++ t) (clock s) (instant s) (effects s).

Lemma more_nil s : more [] s = s.
Proof. destruct s. unfold more. simpl. by rewrite app_nil_r. Qed.

Lemma more_app t u s : more u (more t s) = more (t ++ u) s.
Proof. unfold more. simpl. by rewrite app_assoc. Qed.

Lemma settle_more tape t s :
  Forall ordinary t → settle_tape (tape ++ t) (more t s) = more t (settle_tape tape s).
Proof.
  intros Ht. revert s. induction tape as [|e tape IH]; intros s.
  - destruct Ht as [|[] t He Ht]; done.
  - destruct e; try done; simpl; by rewrite <- IH.
Qed.

(** Waiting for the next event, with ordinary ones to come. *)
Lemma await_more s r s' t :
  Forall ordinary t → await s = (r, s') →
  match r with
  | Ok e => await (more t s) = (Ok e, more t s')
  | Err _ => schedule s' = [] ∧ ∀ e u, t = e :: u → await (more t s) = (Ok e, more u s')
  end.
Proof.
  intros Ht. unfold await, mbind, stm_bind, settle, modify, next_event. cbn [schedule more].
  rewrite settle_more by done. destruct (settle_tape (schedule s) s) as [rc dk v [|e tape] c i es]; simpl.
  - intros [= <- <-]. split; [done|]. intros e u ->. done.
  - intros [= <- <-]. done.
Qed.

Section progress.
Context `{RegexLib, SnapshotJson, TimeLib, Platform}.
Context (route : ResolvedRoute).

(** A panic is the overflow of one of the two deadlines. *)
Definition overflow (s : Run) : Prop :=
  Instants.add_secs (instant s) (max_execution_seconds route) = None ∨
  Instants.add_secs (instant s) (graceful_shutdown_seconds route) = None.

(** The computation has ended with [r]. *)
Definition ended {A} (r : result Stopped A) (s : Run) : Prop :=
  match r with
  | Ok _ | Err (Fail _) => True
  | Err Panicked => overflow s
  | Err Blocked | Err Impossible => False
  end.

(** At [s], ordinary events change nothing of what [m] has done, and at most [n]
    of them end it when it waits. *)
Definition good {A} (n : nat) (m : P A) (s : Run) : Prop :=
  let '(r, s') := m s in
  match r with
  | Err Impossible => True
  | Err Blocked => ∃ t r s', Forall ordinary t ∧ (length t ≤ n)%nat ∧ m (more t s) = (r, s') ∧
      ended r s' ∧ schedule s' = []
  | _ => ended r s' ∧ (∀ t, Forall ordinary t → m (more t s) = (r, more t s')) ∧
      (schedule s = [] → schedule s' = [])
  end.

(** Without events [m] waits or ends. *)
Definition clean {A} (m : P A) : Prop := ∀ s, schedule s = [] → (m s).1 ≠ Err Impossible.

(** ** Closure under bind *)

Lemma good_weaken {A} n k (m : P A) s : (n ≤ k)%nat → good n m s → good k m s.
Proof.
  unfold good. intros Hk. destruct (m s) as [[a|[| | |]] s']; try done.
  intros (t & r & s2 & ? & ? & ?). exists t, r, s2. split_and!; [done|lia|naive_solver..].
Qed.

Lemma good_bind {A B} n k (m : P A) (f : A → P B) s :
  (∀ s, good n m s) → (∀ a s, good k (f a) s) → (∀ a, clean (f a)) → good (n + k) (m ≫= f) s.
Proof.
  intros Hm Hf Hc. pose proof (Hm s) as Hs. unfold good, mbind, stm_bind in *.
  destruct (m s) as [[a|[msg| | |]] s1] eqn:Hms; try done.
  - destruct Hs as (_ & Hmore & Hnil). specialize (Hf a s1).
    destruct (f a s1) as [[b|[msg| | |]] s2] eqn:Hfs; try done;
      try (destruct Hf as (He & Hm2 & Hn2); split_and!; [done| |by auto]; intros t Ht; rewrite Hmore by done; by apply Hm2).
    destruct Hf as (t & r & s3 & Ht & Hlen & Hr & He & Hn3). exists t, r, s3. rewrite Hmore by done.
    split_and!; [done|lia|done..].
  - destruct Hs as (He & Hmore & Hnil). split_and!; [done| |done]. intros t Ht. by rewrite Hmore.
  - destruct Hs as (He & Hmore & Hnil). split_and!; [done| |done]. intros t Ht. by rewrite Hmore.
  - destruct Hs as (t & r & s2 & Ht & Hlen & Hr & He & Hn). destruct r as [a|e].
    2: { exists t, (Err e), s2. rewrite Hr. split_and!; [done|lia|done..]. }
    specialize (Hm (more t s)). rewrite Hr in Hm. destruct Hm as (_ & Hmore & _).
    specialize (Hf a s2). specialize (Hc a s2 Hn).
    destruct (f a s2) as [[b|[msg| | |]] s3] eqn:Hfs; try done;
      try (destruct Hf as (Hf & _ & Hn3); eexists t, _, s3; rewrite Hr; split_and!; [done|lia|exact Hfs|done|by auto]).
    destruct Hf as (u & r & s4 & Hu & Hlen' & Hr' & He' & Hn'). exists (t ++ u), r, s4.
    rewrite <- more_app, Hmore by done.
    split_and!; [by apply Forall_app|rewrite length_app; lia|done..].
Qed.

Lemma clean_bind {A B} n (m : P A) (f : A → P B) :
  clean m → (∀ s, good n m s) → (∀ a, clean (f a)) → clean (m ≫= f).
Proof.
  intros Hm Hg Hf s Hs. specialize (Hm s Hs). specialize (Hg s). unfold good, mbind, stm_bind in *.
  destruct (m s) as [[a|[msg| | |]] s1]; try done. apply Hf. by apply Hg.
Qed.

(** A suspension point: [e0] is the event the task is owed. *)
Lemma good_await {A} n k (f : Ev → P A) e0 s :
  ordinary e0 → (∀ e s', (length (schedule s') < length (schedule s))%nat → good n (f e) s') →
  (∀ s', good k (f e0) s') → clean (f e0) → (S k ≤ n)%nat → good n (await ≫= f) s.
Proof.
  intros Ho Hf Hk0 Hc Hk. unfold good, mbind, stm_bind in *.
  destruct (await s) as [[e|e] s1] eqn:Ha.
  - specialize (Hf e s1 (await_shrinks _ _ _ Ha)).
    pose proof (λ t Ht, await_more s _ _ t Ht Ha) as Hmore. simpl in Hmore.
    assert (schedule s ≠ []) as Hne by (intros Hn; apply await_shrinks in Ha; rewrite Hn in Ha; simpl in Ha; lia).
    destruct (f e s1) as [[b|[msg| | |]] s2] eqn:Hfs; try done;
      try (destruct Hf as (He & Hm2 & _); split_and!; [done| |done]; intros t Ht; rewrite Hmore by done; by apply Hm2).
    destruct Hf as (t & r & s3 & Ht & Hrest). exists t, r, s3. by rewrite Hmore by done.
  - rewrite (await_Blocked _ _ _ Ha). destruct (await_more s _ _ [] (Forall_nil_2 _) Ha) as [Hn _].
    specialize (Hk0 s1). specialize (Hc s1 Hn).
    assert (∀ u, Forall ordinary u → await (more (e0 :: u) s) = (Ok e0, more u s1)) as Hgo.
    { intros u Hu. by apply (await_more s _ _ (e0 :: u) (Forall_cons_2 _ _ _ Ho Hu) Ha). }
    destruct (f e0 s1) as [[b|[msg| | |]] s2] eqn:Hfs; try done.
    1-3: destruct Hk0 as (He & _ & Hn2); eexists [e0], _, s2; rewrite Hgo, more_nil by done;
         split_and!; [by repeat constructor|simpl; lia|exact Hfs|done|by auto].
    destruct Hk0 as (u & r & s3 & Hu & Hlen & Hr & He & Hn3). exists (e0 :: u), r, s3. rewrite Hgo by done.
    split_and!; [by constructor|simpl; lia|done..].
Qed.

Lemma clean_await {A} (f : Ev → P A) : clean (await ≫= f).
Proof.
  intros s Hs. unfold await, mbind, stm_bind, settle, modify, next_event. rewrite Hs. done.
Qed.

(** Steps that do not touch the schedule. *)
Definition still {A} (m : P A) : Prop := ∀ s,
  let '(r, s') := m s in
  ended r s' ∧ schedule s' = schedule s ∧ ∀ t, m (more t s) = (r, more t s').

Lemma still_good {A} n (m : P A) s : still m → good n m s.
Proof.
  intros Hm. specialize (Hm s). unfold good. destruct (m s) as [[a|[msg| | |]] s'];
    destruct Hm as (He & Hs & Hmore); try done; (split_and!; [done|by auto|by rewrite Hs]).
Qed.

Lemma still_clean {A} (m : P A) : still m → clean m.
Proof. intros Hm s _. specialize (Hm s). destruct (m s) as [[a|[]] s']; by destruct Hm. Qed.

Lemma fail_good {A} n s : good n (fail (A:=A) Impossible) s.
Proof. done. Qed.

(** Reading the state, but not the schedule. *)
Lemma good_gets {A} n (f : Run → P A) s :
  (∀ x t, f (more t x) = f x) → (∀ x, good n (f x) s) → good n (gets (λ s, s) ≫= f) s.
Proof.
  intros Hx Hf. specialize (Hf s). unfold good, gets, mbind, stm_bind in *. destruct (f s s) as [[a|[msg| | |]] s'] eqn:Hfs; try done.
  1-3: destruct Hf as (He & Hm & Hn); split_and!; [done| |done]; intros t Ht; rewrite Hx; by apply Hm.
  destruct Hf as (t & r & s2 & Ht & Hlen & Hr & Hrest). exists t, r, s2. rewrite Hx. done.
Qed.

Lemma clean_gets {A} (f : Run → P A) : (∀ x, clean (f x)) → clean (gets (λ s, s) ≫= f).
Proof. intros Hf s Hs. by apply Hf. Qed.

(** ** The steps of a task *)

Lemma still_ret {A} (a : A) : still (mret a).
Proof. by intros s. Qed.

Lemma still_fail {A} msg : still (fail (A:=A) (Fail msg)).
Proof. by intros s. Qed.

Lemma still_emit e : still (emit e).
Proof. by intros s. Qed.

Lemma still_deadline secs :
  secs = max_execution_seconds route ∨ secs = graceful_shutdown_seconds route → still (deadline_after secs).
Proof.
  intros Hs s. unfold deadline_after, mbind, stm_bind, gets. simpl.
  destruct (Instants.add_secs (instant s) secs) as [d|] eqn:Hd; [done|].
  split_and!; [|done|done]. destruct Hs as [-> | ->]; [by left|by right].
Qed.

Lemma still_child_status c r : still (child_status c r).
Proof. destruct r; [apply still_ret|apply still_fail]. Qed.

Lemma still_drop_permits : still drop_permits.
Proof. intros s. unfold drop_permits. simpl. by destruct (existsb _ _). Qed.

Hint Resolve still_ret still_fail still_emit still_child_status still_drop_permits : cmdapi.
Hint Resolve still_good still_clean fail_good : cmdapi.
Hint Resolve clean_await : cmdapi.

Lemma call_good c s : good 1 (call c) s.
Proof.
  apply (good_await 1 0 _ (EvCall None)); [done| |eauto with cmdapi..|done].
  intros [] s' _; eauto with cmdapi. destruct err; eauto with cmdapi.
Qed.

Lemma wait_empty_good s : good 1 wait_empty s.
Proof.
  apply (good_await 1 0 _ (EvTreeEmpty None)); [done| |eauto with cmdapi..|done].
  intros [] s' _; eauto with cmdapi. destruct err; eauto with cmdapi.
Qed.

Lemma ignore_fail_good {A} n (m : P A) s : good n m s → good n (ignore_fail m) s.
Proof.
  unfold good, ignore_fail. destruct (m s) as [[a|[msg| | |]] s'] eqn:Hm; try done.
  - intros (He & Hmore & Hn). split_and!; [done| |done]. intros t Ht. by rewrite Hmore.
  - intros (He & Hmore & Hn). split_and!; [done| |done]. intros t Ht. by rewrite Hmore.
  - intros (He & Hmore & Hn). split_and!; [done| |done]. intros t Ht. by rewrite Hmore.
  - intros (t & r & s2 & Ht & Hlen & Hr & He & Hn). destruct r as [a|[msg| | |]]; try done.
    + exists t, (Ok tt), s2. by rewrite Hr.
    + exists t, (Ok tt), s2. by rewrite Hr.
    + exists t, (Err Panicked), s2. by rewrite Hr.
Qed.

Lemma ignore_fail_clean {A} (m : P A) : clean m → clean (ignore_fail m).
Proof. intros Hm s Hs. specialize (Hm s Hs). unfold ignore_fail. by destruct (m s) as [[a|[msg| | |]] s']. Qed.

Lemma show_still update : still (modify (λ s,
  let r := shown (update (clock s)) (record s) in
  mkRun r (disk s) (seen_version s) (schedule s) (clock s) (instant s)
    (effects s ++ [Published (record_snapshot r)]))).
Proof. by intros s. Qed.

Lemma save_still : still (
  s ← gets (λ s, s);
  let '(res, w) := persist (record s) (disk s) in
  _ ← modify (λ s, mkRun (record s) w (seen_version s) (schedule s) (clock s) (instant s) (effects s));
  match res with
  | Ok _ => mret tt
  | Err e => fail (Fail (IoError_to_string e))
  end).
Proof.
  intros s. unfold mbind, stm_bind, gets, modify. simpl.
  by destruct (persist _ _) as [[|] w].
Qed.

Lemma show_good update s : good 1 (show update) s.
Proof.
  apply (good_await 1 0 _ EvShown); [done| | | |done].
  - intros [] s' _; try exact I. exact (still_good 1 _ s' (show_still update)).
  - intros s'. exact (still_good 0 _ s' (show_still update)).
  - exact (still_clean _ (show_still update)).
Qed.

Lemma save_good s : good 1 save s.
Proof.
  apply (good_await 1 0 _ EvSaved); [done| | | |done].
  - intros [] s' _; try exact I. exact (still_good 1 _ s' save_still).
  - intros s'. exact (still_good 0 _ s' save_still).
  - exact (still_clean _ save_still).
Qed.

Lemma publish_good update s : good 2 (publish update) s.
Proof.
  apply (good_bind 1 1); [apply show_good|intros ?; apply save_good|intros ?; apply clean_await].
Qed.

Lemma join_readers_good n s : good n (join_readers n) s.
Proof.
  revert s. induction n as [|n IH]; intros s; [apply still_good; apply still_ret|].
  apply (good_await (S n) n _ (EvReader (Ok None))); [done| |exact IH| |done].
  - intros [] s' _; eauto with cmdapi. destruct r as [[]|]; eauto with cmdapi. by eapply good_weaken, IH; lia.
  - destruct n; [apply still_clean; apply still_ret|apply clean_await].
Qed.

Lemma good_step {A B} n k N (m : P A) (f : A → P B) s :
  (∀ s, good n m s) → (∀ a s, good k (f a) s) → (∀ a, clean (f a)) → (n + k ≤ N)%nat → good N (m ≫= f) s.
Proof. intros Hm Hf Hc Hn. eapply good_weaken; [exact Hn|]. by apply good_bind. Qed.

Lemma clean_call c : clean (call c).
Proof. apply clean_await. Qed.
Lemma clean_publish update : clean (publish update).
Proof. apply (clean_bind 1); [apply clean_await|apply show_good|intros ?; apply clean_await]. Qed.
Lemma clean_wait_empty : clean wait_empty.
Proof. apply clean_await. Qed.
Lemma clean_join_readers n : clean (join_readers n).
Proof. destruct n; [apply still_clean; apply still_ret|apply clean_await]. Qed.

Hint Resolve call_good publish_good wait_empty_good join_readers_good : cmdapi.
Hint Resolve clean_call clean_publish clean_wait_empty clean_join_readers : cmdapi.

(** Close the goals a step of a computation leaves. *)
Ltac clean_tac :=
  intros; first
    [ solve [eauto with cmdapi]
    | apply (clean_bind 1); [clean_tac|solve [intros; eauto with cmdapi]|clean_tac]
    | apply (clean_bind 2); [clean_tac|solve [intros; eauto with cmdapi]|clean_tac]
    | apply (clean_bind 5); [clean_tac|solve [intros; eauto with cmdapi]|clean_tac]
    | apply (clean_bind 4); [clean_tac|solve [intros; eauto with cmdapi]|clean_tac]
    | eapply clean_bind; [clean_tac|intros; apply join_readers_good|clean_tac]
    | apply clean_gets; clean_tac
    | case_match; clean_tac ].
Ltac step n k := apply (good_step n k); [solve [intros; eauto with cmdapi]| |clean_tac|lia]; intros ? ?.

Lemma exit_good c s :
  good 1 (e ← await; match e with EvChildExit r => child_status c r | _ => fail Impossible end) s.
Proof.
  apply (good_await 1 0 _ (EvChildExit (Ok (mkExitStatus None)))); [done| |eauto with cmdapi..|done].
  intros [] ? _; eauto with cmdapi.
Qed.
Hint Resolve exit_good : cmdapi.

Lemma force_stop_good why g worker s : good 5 (force_stop_process why g worker) s.
Proof.
  unfold force_stop_process. destruct worker.
  all: step 2%nat 3%nat; step 1%nat 2%nat; step 0%nat 2%nat; step 1%nat 1%nat; step 1%nat 0%nat; eauto with cmdapi.
Qed.

Lemma clean_force_stop why g worker : clean (force_stop_process why g worker).
Proof. unfold force_stop_process. clean_tac. Qed.

Lemma force_then_good {A} n why g worker (f : ExitStatus → A) s :
  (5 ≤ n)%nat → good n (st ← force_stop_process why g worker; mret (f st)) s.
Proof.
  intros Hn. apply (good_step 5 0); [apply force_stop_good| |clean_tac|lia]. intros. eauto with cmdapi.
Qed.
Hint Resolve force_stop_good clean_force_stop : cmdapi.

(** A select inside [stop_process], where a guard of the state decides. *)
Ltac select_tac :=
  first [exact I | apply good_gets; [done|]; intros ?; try case_match; first [exact I | apply force_then_good; lia | solve [eauto with cmdapi]]].

Lemma stop_tree_good why grace_deadline st s :
  good 5 (e ← await;
        s ← gets (λ s, s);
        match e with
        | EvTreeEmpty None => mret (st, why)
        | EvTreeEmpty (Some msg) => fail (Fail msg)
        | EvForceSeen =>
            if force_pending s then
              st ← force_stop_process RForceKilled true (Some st);
              mret (st, RForceKilled)
            else fail Impossible
        | EvDeadline =>
            if expired_at grace_deadline s then
              st ← force_stop_process why true (Some st);
              mret (st, why)
            else fail Impossible
        | _ => fail Impossible
        end) s.
Proof.
  apply (good_await 5 0 _ (EvTreeEmpty None)); [done| | |apply clean_gets; clean_tac|lia].
  - intros [] ? _; select_tac.
  - intros ?. select_tac.
Qed.

Lemma still_deadline_max : still (deadline_after (max_execution_seconds route)).
Proof. apply still_deadline. by left. Qed.
Lemma still_deadline_grace : still (deadline_after (graceful_shutdown_seconds route)).
Proof. apply still_deadline. by right. Qed.
Lemma ignore_call_good c s : good 1 (ignore_fail (call c)) s.
Proof. apply ignore_fail_good, call_good. Qed.
Lemma clean_ignore_call c : clean (ignore_fail (call c)).
Proof. apply ignore_fail_clean, clean_call. Qed.
Hint Resolve still_deadline_max still_deadline_grace ignore_call_good clean_ignore_call stop_tree_good : cmdapi.

Lemma grace_period_good why grace s : good 6 (grace_period why grace) s.
Proof.
  unfold grace_period.
  apply (good_await 6 5 _ (EvChildExit (Ok (mkExitStatus None)))); [done| | |apply clean_gets; clean_tac|lia].
  - intros [] ? _; try select_tac. apply good_gets; [done|]. intros ?.
    step 0%nat 6%nat. eapply good_weaken, stop_tree_good. lia.
  - intros ?. apply good_gets; [done|]. intros ?. step 0%nat 5%nat. apply stop_tree_good.
Qed.

Lemma clean_grace_period why grace : clean (grace_period why grace).
Proof. apply clean_await. Qed.
Hint Resolve grace_period_good clean_grace_period : cmdapi.

Lemma stop_process_good why s : good 11 (stop_process route why) s.
Proof.
  unfold stop_process. case_bool_decide; [apply force_then_good; lia|].
  step 2%nat 9%nat. step 1%nat 8%nat. step 1%nat 7%nat. step 0%nat 7%nat. step 1%nat 6%nat.
  step 0%nat 6%nat. step 0%nat 6%nat. apply grace_period_good.
Qed.

Lemma clean_stop_process why : clean (stop_process route why).
Proof. unfold stop_process. case_bool_decide; clean_tac. Qed.

(** ** The main loop *)

Lemma good_ext {A} n (m m' : P A) s : (∀ s, m s = m' s) → good n m' s → good n m s.
Proof.
  intros Heq. unfold good. rewrite <- (Heq s). destruct (m s) as [[a|[msg| | |]] s']; try done; setoid_rewrite <- Heq; done.
Qed.

(** A change of the state that does not read the schedule, here and in what
    follows. *)
Lemma good_modify {A} n g (m : P A) s :
  (∀ t x, g (more t x) = more t (g x)) → schedule (g s) = schedule s →
  good n m (g s) → good n (modify g ≫= λ _, m) s.
Proof.
  intros Hg Hs. unfold good, modify, mbind, stm_bind.
  destruct (m (g s)) as [[a|[msg| | |]] s'] eqn:Hm; try done; rewrite ?Hs; setoid_rewrite Hg; done.
Qed.

Section loop.
Context (deadline : Z).

Definition loop : P (ExitStatus * option StopReason) := λ s,
  main_loop (S (length (schedule s))) route deadline s.

Definition stop_for (why : StopReason) : P (ExitStatus * option StopReason) :=
  '(st, actual) ← stop_process route why; mret (st, Some actual).

Definition iteration (e : Ev) : P (ExitStatus * option StopReason) :=
  s ← gets (λ s, s);
  match e with
  | EvChildExit r => st ← child_status "等待 Worker 退出失败: " r; mret (st, None)
  | EvDeadline => if expired_at deadline s then stop_for RTimeout else fail Impossible
  | EvStopChanged =>
      if Watch.has_changed (stop (record s)) (seen_version s) then
        let '(value, version) := Watch.borrow_and_update (stop (record s)) in
        _ ← modify (λ s, mkRun (record s) (disk s) version (schedule s) (clock s) (instant s) (effects s));
        match value with Some why => stop_for why | None => loop end
      else fail Impossible
  | _ => fail Impossible
  end.

Lemma loop_eq s : loop s = (await ≫= iteration) s.
Proof.
  unfold loop, iteration, stop_for. cbn [main_loop]. unfold mbind, stm_bind, gets.
  destruct (await s) as [[e|e] s1] eqn:Ha; [|done]. apply await_shrinks in Ha.
  destruct e; try done. destruct (Watch.has_changed _ _); [|done]. simpl.
  destruct (Watch.value _); [done|]. unfold modify, loop. apply main_loop_fuel; simpl; lia.
Qed.

Lemma stop_for_good n why s : (11 ≤ n)%nat → good n (stop_for why) s.
Proof.
  intros Hn. apply (good_step 11 0); [apply stop_process_good| |clean_tac|lia]. intros [] ?. eauto with cmdapi.
Qed.

Lemma loop_good s : good 11 loop s.
Proof.
  remember (length (schedule s)) as n eqn:Hn. revert s Hn. induction n as [n IH] using lt_wf_ind. intros s ->.
  apply (good_ext _ _ (await ≫= iteration)); [apply loop_eq|].
  apply (good_await 11 0 _ (EvChildExit (Ok (mkExitStatus None)))); [done| |..|apply clean_gets; clean_tac|lia].
  - intros e s' Hlt. unfold iteration. apply good_gets; [by destruct e|]. intros x.
    destruct e; try exact I.
    + step 0%nat 0%nat. eauto with cmdapi.
    + case_match; [apply stop_for_good; lia|exact I].
    + case_match; [|exact I]. simpl. apply good_modify; [done|done|].
      destruct (Watch.value _); [apply stop_for_good; lia|]. eapply IH; [exact Hlt|done].
  - intros s'. apply good_gets; [done|]. intros ?. step 0%nat 0%nat. eauto with cmdapi.
Qed.

Lemma clean_loop : clean loop.
Proof. intros s Hs. rewrite loop_eq. by apply clean_await. Qed.
End loop.

(** ** The whole task *)

Lemma settle_tree_good deadline stopped s : good 4 (settle_tree deadline stopped) s.
Proof.
  unfold settle_tree. destruct stopped.
  - step 1%nat 0%nat. eauto with cmdapi.
  - apply (good_await 4 0 _ (EvTreeEmpty None)); [done| | |apply clean_gets; clean_tac|lia].
    + intros [] ? _; try exact I; (apply good_gets; [done|]; intros ?); [|eauto with cmdapi].
      case_match; [|exact I]. step 1%nat 3%nat. step 0%nat 3%nat. step 2%nat 1%nat. step 1%nat 0%nat. eauto with cmdapi.
    + intros ?. apply good_gets; [done|]. eauto with cmdapi.
Qed.

Lemma clean_settle_tree deadline stopped : clean (settle_tree deadline stopped).
Proof. destruct stopped; simpl; clean_tac. Qed.

Lemma spawn_worker_good args s : good 12 (spawn_worker route args) s.
Proof.
  unfold spawn_worker. step 1%nat 11%nat. step 1%nat 10%nat. step 1%nat 9%nat. step 1%nat 8%nat. step 1%nat 7%nat.
  step 0%nat 7%nat. step 1%nat 6%nat. step 1%nat 5%nat. step 1%nat 4%nat. step 1%nat 3%nat. step 0%nat 3%nat.
  step 1%nat 2%nat. eauto with cmdapi.
Qed.

Hint Resolve settle_tree_good clean_settle_tree spawn_worker_good loop_good clean_loop : cmdapi.

Lemma launch_good args s : good 12 (launch route args) s.
Proof. unfold launch. step 12%nat 0%nat. eauto with cmdapi. Qed.

Lemma conclude_good deadline st stopped s : good 8 (conclude route deadline st stopped) s.
Proof.
  unfold conclude. apply (good_step 4 4); [intros; apply settle_tree_good| |clean_tac|lia]. intros ? ?.
  step 0%nat 4%nat. apply (good_step 2 2); [| |clean_tac|lia].
  - intros ?. eapply good_weaken, join_readers_good. destruct (route_mode route); simpl; lia.
  - intros ? ?. step 0%nat 2%nat. eauto with cmdapi.
Qed.

Lemma clean_conclude deadline st stopped : clean (conclude route deadline st stopped).
Proof.
  unfold conclude. apply (clean_bind 4); [apply clean_settle_tree|apply settle_tree_good|]. intros ?. clean_tac.
Qed.
Hint Resolve clean_conclude : cmdapi.

(** What follows the launch, with the fuel chosen at the loop. *)
Definition supervise (deadline : Z) : P unit :=
  '(st, stopped) ← loop deadline; conclude route deadline st stopped.

Lemma supervise_good deadline s : good 19 (supervise deadline) s.
Proof.
  unfold supervise. apply (good_step 11 8); [intros; apply loop_good| |intros []; apply clean_conclude|lia].
  intros [st stopped] ?. apply conclude_good.
Qed.

Lemma run_task_good args s : good 31 (run_task route args) s.
Proof.
  apply (good_ext _ _ (launch route args ≫= supervise)); [done|].
  apply (good_step 12 19); [apply launch_good|apply supervise_good| |lia].
  intros d. unfold supervise. apply (clean_bind 11); [apply clean_loop|apply loop_good|].
  intros []. apply clean_conclude.
Qed.

(** [start_task] as a handler around [run_task]. *)
Definition caught {A} (m : P A) : P (result string A) := λ s,
  match m s with
  | (Ok a, s) => (Ok (Ok a), s)
  | (Err (Fail msg), s) => (Ok (Err msg), s)
  | (Err Panicked, s) => (Err Panicked, (drop_permits s).2)
  | (Err e, s) => (Err e, s)
  end.

Lemma caught_good {A} n (m : P A) s : good n m s → good n (caught m) s.
Proof.
  assert (∀ x, overflow x → overflow (drop_permits x).2) as Hov
    by (intros x; unfold drop_permits; by destruct (existsb _ _)).
  assert (∀ x, schedule (drop_permits x).2 = schedule x) as Hsch
    by (intros x; unfold drop_permits; by destruct (existsb _ _)).
  assert (∀ t x, (drop_permits (more t x)).2 = more t (drop_permits x).2) as Hmr
    by (intros t x; unfold drop_permits; simpl; by destruct (existsb _ _)).
  unfold good, caught. destruct (m s) as [[a|[msg| | |]] s'] eqn:Hm; try done.
  1-2: intros (He & Hmore & Hn); split_and!; [done| |done]; intros t Ht; by rewrite Hmore.
  - intros (He & Hmore & Hn). split_and!; [by apply Hov| |by rewrite Hsch]. intros t Ht. by rewrite Hmore, Hmr.
  - intros (t & r & s2 & Ht & Hlen & Hr & He & Hn). destruct r as [a|[msg| | |]]; try done.
    + exists t, (Ok (Ok a)), s2. by rewrite Hr.
    + exists t, (Ok (Err msg)), s2. by rewrite Hr.
    + exists t, (Err Panicked), (drop_permits s2).2. rewrite Hr, Hsch. split_and!; auto. by apply Hov.
Qed.

Definition close (r : result string unit) : P unit :=
  match r with
  | Ok _ => emit MarkedFinished
  | Err msg => _ ← drop_permits; _ ← ignore_fail (publish (abandon msg)); emit MarkedFinished
  end.

Lemma ignore_publish_good update s : good 2 (ignore_fail (publish update)) s.
Proof. apply ignore_fail_good, publish_good. Qed.
Lemma clean_ignore_publish update : clean (ignore_fail (publish update)).
Proof. apply ignore_fail_clean, clean_publish. Qed.
Hint Resolve ignore_publish_good clean_ignore_publish : cmdapi.

Lemma close_good r s : good 2 (close r) s.
Proof.
  destruct r; simpl; [eauto with cmdapi|]. step 0%nat 2%nat. step 2%nat 0%nat. eauto with cmdapi.
Qed.

Lemma clean_close r : clean (close r).
Proof. destruct r; simpl; clean_tac. Qed.

Lemma start_task_good args s : good 33 (start_task route args) s.
Proof.
  set (g := λ s, mkRun (record s) (disk s) (subscribe_stop (record s)) (schedule s) (clock s) (instant s) (effects s)).
  apply (good_ext _ _ (modify g ≫= λ _, caught (run_task route args) ≫= close)).
  { intros x. unfold start_task, caught, close, modify, mbind, stm_bind, g.
    destruct (run_task _ _ _) as [[a|[msg| | |]] s']; try done. }
  apply good_modify; [done|done|].
  apply (good_step 31 2); [intros; apply caught_good, run_task_good|apply close_good|apply clean_close|lia].
Qed.
End progress.

(** C8: a task is never stuck: wherever a schedule leaves it waiting, be it in
    a system call, between its selects, during a grace period or while it reads
    the rest of the output, at most 33 ordinary events (calls that return, a
    worker that exits, an empty tree, readers at their end, snapshots that are
    shown, records that are written or fail to be) bring [start_task] to its end, whatever the disk does;
    only a deadline the clock cannot represent can stop it short. *)
Theorem task_never_stuck `{RegexLib, SnapshotJson, TimeLib, Platform} route args s :
  (start_task route args s).1 ≠ Err Impossible →
  ∃ t r s', Forall ordinary t ∧ (length t ≤ 33)%nat ∧ start_task route args (more t s) = (r, s') ∧
    (r = Ok tt ∨ r = Err Panicked ∧ overflow route s').
Proof.
  intros Hi. pose proof (start_task_good route args s) as Hg. unfold good in Hg.
  assert (∀ x m y, start_task route args x ≠ (Err (Fail m), y)) as Hnf.
  { intros x m y. unfold start_task. destruct (run_task _ _ _) as [[u|[msg| | |]] x1]; try done.
    unfold mbind, stm_bind. destruct (drop_permits x1) as [[u|e] x2] eqn:Hd.
    - unfold ignore_fail. by destruct (publish _ x2) as [[v|[]] x3].
    - unfold drop_permits in Hd. by destruct (existsb _ _). }
  destruct (start_task route args s) as [[[]|[msg| | |]] s'] eqn:Hs; try done.
  - exists [], (Ok tt), s'. rewrite more_nil. split_and!; [done|simpl; lia|done|by left].
  - by destruct (Hnf s msg s').
  - exists [], (Err Panicked), s'. rewrite more_nil. split_and!; [done|simpl; lia|done|]. right. by destruct Hg.
  - destruct Hg as (t & r & s2 & Ht & Hlen & Hr & He & _). exists t, r, s2. split_and!; [done|done|done|].
    destruct r as [[]|[msg| | |]]; try done; [by left|by destruct (Hnf _ _ _ Hr)|by right].
Qed.

(** ** Output that stays open *)

Section unread.
Context `{RegexLib, SnapshotJson, TimeLib, Platform}.
Context (route : ResolvedRoute) (args : list string).

(** No reader of the task ever ends. *)
Definition unread (s : Run) : Prop := ∀ r, EvReader r ∉ schedule s.

#[local] Instance unread_running spec : Ongoing spec unread.
Proof.
  split.
  - intros s s' Ho Hu r Hin. by apply (Hu r), (outside_tape _ _ Ho).
  - done.
  - intros u s s' _ Hu Ha r. rewrite (ap_schedule _ _ _ Ha). apply Hu.
  - intros s s' Hu Ha r. rewrite (as_schedule _ _ Ha). apply Hu.
Qed.

Lemma join_unread n I X :
  Stable I → (∀ s, I s → unread s) → (∀ e s, I s → X e s) → triple I (join_readers (S n)) (λ _ _, False) X.
Proof.
  intros HI Hu HX s Hs. simpl. unfold mbind, stm_bind.
  destruct (await s) as [[e|e] s1] eqn:Ha; [|apply HX; by eapply await_keeps].
  pose proof (await_keeps I _ _ _ Hs Ha) as Hs1. pose proof (Hu s Hs) as Hno.
  pose proof (await_in_schedule _ _ _ Ha) as Hin.
  destruct e; try (by apply HX). by apply Hno in Hin.
Qed.

(** A task whose output stays open never ends, killed or not: when no
    reader reaches the end of its pipe, [run_task] does not return [Ok] whatever
    else happens, the permits of the task are not released and no final status
    is published; only another failure can end it. *)
Theorem unread_output_holds_task s r s' :
  fresh s → unread s → run_task route args s = (r, s') →
  r ≠ Ok tt ∧ (DroppedPermits ∉ effects s') ∧ is_finished (status (snap (record s'))) = false.
Proof.
  intros Hf Hu Hr. set (spec := spec_of route args).
  set (I := λ s, (busy spec s ∧ no_timeout_request s) ∧ unread s).
  set (X := λ (_ : Stopped) s, busy spec s).
  assert (Ongoing spec I) as HI by apply _.
  assert (Stable I) as HS by exact (running_stable (spec:=spec)).
  assert (Stable (λ s, I s ∧ track None false false s)) as HST by exact (stable_and I _ HS (track_stable _ _ _)).
  assert (∀ e s, I s → X e s) as HX by by intros ?? [[? _] _].
  assert (∀ J e s, I s ∧ J s → X e s) as HXJ by by intros ??? [[[? _] _] _].
  assert (triple (λ s, I s ∧ track None false false s) (run_task route args) (λ _ _, False) X) as Ht.
  { unfold run_task. eapply triple_bind with (Q := λ _ s, I s ∧ track None false false s).
    { unfold launch. eapply triple_bind with (Q := λ _ s, I s ∧ track None false false s);
        [|intros ?; apply deadline_after_rule; intros; by eapply HXJ].
      unfold spawn_worker.
      do 5 (eapply triple_bind; [apply call_rule; [exact HST|intros; by eapply HXJ]|]; intros ?).
      eapply triple_bind; [by apply (emit_step spec)|]; intros ?; simpl.
      do 4 (eapply triple_bind; [apply call_rule; [exact HST|intros; by eapply HXJ]|]; intros ?).
      eapply triple_bind; [by apply (emit_step spec)|]; intros ?; simpl.
      eapply triple_bind; [apply call_rule; [exact HST|intros; by eapply HXJ]|]; intros ?.
      by apply (publish_step spec I X HX _ None). }
    intros d. eapply triple_bind; [apply triple_gets_keep|]. intros n. apply triple_drop.
    set (asked := λ why, why ≠ RTimeout).
    assert (∀ s why, I s → Watch.value (stop (record s)) = Some why → asked why) as HA
      by (intros x why [[_ [Hn _]] _] Hw ->; done).
    eapply triple_bind; [apply (main_loop_rule spec I X HX (λ _, True) asked True (λ _ _ _ _, Logic.I) HA (λ _ _ _, Logic.I))|].
    intros [st stopped]. apply triple_drop. unfold conclude.
    eapply triple_bind; [apply (settle_tree_rule spec I X HX asked True (λ _ _ _, Logic.I))|].
    intros stopped'. eapply triple_bind with (Q := λ _, I).
    { apply emit_rule. intros x [HIx _]. by apply (running_emit (spec:=spec)). }
    intros ?. eapply triple_bind with (Q := λ _ _, False); [|by intros ? ? []].
    destruct (route_mode route); simpl readers; apply join_unread; try done; by intros ? [_ ?]. }
  destruct Hf as (He & Hfin & Hterm & Hnt).
  assert (I s ∧ track None false false s) as Hpre.
  { split; [|unfold track; by rewrite He]. split; [|done]. split; [|done]. unfold busy. by rewrite He. }
  specialize (Ht s Hpre). rewrite Hr in Ht. destruct r as [[]|e]; [done|].
  destruct Ht as [Hq Hnf]. split_and!; [done| |done]. intros Hin.
  by apply (proj1 (Forall_forall _ _) Hq) in Hin.
Qed.
End unread.

(** ** A task that waits in its grace period *)
Module ProgressToy.

#[local] Existing Instances Toy.regex bit_json bit_time_lib unix.

(** The worker runs, the task is cancelled and has just told it to stop. *)
Definition cancelled_tape : list Ev :=
  replicate 10 (EvCall None) ++
  [EvShown; EvSaved; EvTick 8 3; EvStop RCancelled; EvStopChanged; EvShown; EvSaved; EvCall None; EvCall None; EvCall None].

Example waits :
  (start_task Toy.resolved_route ["a"] (ProcessToy.run0 cancelled_tape)).1 = Err Blocked.
Proof. vm_compute. reflexivity. Qed.

Lemma task_never_stuck_witness :
  ∃ t r s', Forall ordinary t ∧ (length t ≤ 33)%nat ∧
    start_task Toy.resolved_route ["a"] (more t (ProcessToy.run0 cancelled_tape)) = (r, s') ∧
    (r = Ok tt ∨ r = Err Panicked ∧ overflow Toy.resolved_route s').
Proof.
  apply (task_never_stuck Toy.resolved_route ["a"] (ProcessToy.run0 cancelled_tape)). vm_compute. discriminate.
Defined.

(** The task is killed: the group is gone, the worker is reaped, but a process
    outside the group keeps the pipes open. *)
Definition killed_tape : list Ev :=
  replicate 10 (EvCall None) ++
  [EvShown; EvSaved; EvStop RForceKilled; EvStopChanged; EvShown; EvSaved; EvCall None; EvChildExit (Ok (mkExitStatus None));
   EvTreeEmpty None; EvTreeEmpty None].

Definition held : Run := (run_task Toy.resolved_route ["a"] (ProcessToy.run0 killed_tape)).2.

Example held_stopping : status (snap (record held)) = Stopping.
Proof. vm_compute. reflexivity. Qed.

Lemma unread_output_holds_task_witness :
  (run_task Toy.resolved_route ["a"] (ProcessToy.run0 killed_tape)).1 ≠ Ok tt ∧
  (DroppedPermits ∉ effects held) ∧ is_finished (status (snap (record held))) = false.
Proof.
  apply (unread_output_holds_task Toy.resolved_route ["a"] (ProcessToy.run0 killed_tape)).
  - apply ProcessToy.fresh_run0. unfold killed_tape. set_solver.
  - intros x. unfold killed_tape. set_solver.
  - apply surjective_pairing.
Defined.

(** The worker exits with 7, its tree is empty, both readers end, the end is
    written. *)
Example goes_on :
  let t := [EvChildExit (Ok (mkExitStatus (Some 7))); EvTreeEmpty None; EvTreeEmpty None;
            EvReader (Ok None); EvReader (Ok None); EvShown; EvSaved] in
  let '(r, s') := start_task Toy.resolved_route ["a"] (more t (ProcessToy.run0 cancelled_tape)) in
  r = Ok tt ∧ status (snap (record s')) = Cancelled ∧ exit_code (snap (record s')) = Some 7.
Proof. vm_compute. done. Qed.

End ProgressToy.
