(* ===== verification/Platform.v ===== *)
(** * Process trees (src/src/process/platform.rs)

    The two implementations of [ProcessTree] and of the worker's platform
    calls: Unix process groups and Windows job objects. The operating system
    is a parameter ([UnixKernel], [WindowsKernel]): its calls as functions on
    an abstract kernel state, and observations of that state (who is running)
    in which the documented behaviour is stated as laws.

    What [Process] calls is the interface [TreeOps]; what it expects of the
    calls is [TreeLaws]: a forced tree has no running process left and nothing
    outside it was touched. [TreeLaws] is proved for the code of each platform,
    [Unix.tree_laws] and [Windows.tree_laws], from the documented behaviour of
    the system's calls, and [force_and_wait_spec] says for both what the
    sequence [force] then [wait_empty] does. *)

From S2P Require Import Prelude RustStd Model Disk Journal Store Config Capture Process.
Local Open Scope string_scope.
Local Open Scope list_scope.
Local Open Scope Z_scope.

(** [x as i32] for [x : u32]. *)
Definition as_i32 (z : Z) : Z := if z <=? 2 ^ 31 - 1 then z else z - 2 ^ 32.

(** What [prepare_command] sets on the command to spawn. *)
Record SpawnSettings := mkSpawnSettings { process_group : option Z; creation_flags : Z }.

(** What [attach] reads of a started child: its process id and its handle. *)
Record Child := mkChild { child_id : option Z; raw_handle : option Z }.

(** ** The interface *)

Section interface.
Context (T K : Type).

(** Operations on a tree over a kernel. [wait_empty] polls; [naps] is what the
    rest of the system does in each of its pauses, and [None] means that it is
    still waiting after them. *)
Class TreeOps := {
  tree_new : K → result string T * K;
  tree_attach : Child → T → K → result string T * K;
  tree_graceful : T → K → result string unit * K;
  tree_force : T → K → result string unit * K;
  tree_wait_empty : list (K → K) → T → K → option (result string unit) * K;
  (** The running processes of the tree, those the service may not signal, and
      every other process. *)
  tree_members : T → K → gset Z;
  tree_immune : T → K → gset Z;
  tree_others : T → K → gset Z
}.

(** The contract between the platforms and their client. It is no assumption of
    the development: both instances below are proved. *)
Class TreeLaws `{TreeOps} : Prop := {
  force_members t k k' : tree_force t k = (Ok tt, k') → tree_members t k' ⊆ tree_immune t k;
  force_others t k r k' : tree_force t k = (r, k') → tree_others t k' = tree_others t k;
  wait_keeps t k r k' naps :
    (∀ f k0, f ∈ naps → tree_members t (f k0) ⊆ tree_members t k0) →
    tree_wait_empty naps t k = (r, k') → tree_members t k' ⊆ tree_members t k;
  wait_returns t k naps : tree_members t k = ∅ → is_Some (tree_wait_empty naps t k).1
}.
End interface.

Arguments tree_new {T K _} _.
Arguments tree_attach {T K _} _ _ _.
Arguments tree_graceful {T K _} _ _.
Arguments tree_force {T K _} _ _.
Arguments tree_wait_empty {T K _} _ _ _.
Arguments tree_members {T K _} _ _.
Arguments tree_immune {T K _} _ _.
Arguments tree_others {T K _} _ _.
Arguments force_members {T K _ _} t k k' _.
Arguments force_others {T K _ _} t k r k' _.
Arguments wait_keeps {T K _ _} t k r k' naps _ _.
Arguments wait_returns {T K _ _} t k naps _.

(** [tree.force()?] followed by [tree.wait_empty().await?], as in
    [force_stop_process]; [exit] is what happens while the worker's own exit is
    awaited in between. *)
Definition force_and_wait {T K} `{TreeOps T K} (exit : K → K) (naps : list (K → K)) (t : T) (k : K)
    : option (result string unit) * K :=
  match tree_force t k with
  | (Err e, k) => (Some (Err e), k)
  | (Ok _, k) => tree_wait_empty naps t (exit k)
  end.

(** The event that resumes [Process.call] with the outcome of a tree
    operation. *)
Definition reply {A} (r : result string A) : Ev :=
  EvCall (match r with Ok _ => None | Err e => Some e end).

Lemma call_reply {A} (r : result string A) s tape :
  schedule s = reply r :: tape →
  (call EmptyString s).1 = match r with Ok _ => Ok tt | Err e => Err (Fail e) end.
Proof.
  intros Hs. unfold call, await, mbind, stm_bind, settle, modify, next_event.
  rewrite Hs. simpl. by destruct r.
Qed.

Section client.
Context {T K : Type} `{TreeLaws T K}.

(** Any platform that keeps the contract: if nothing joins the tree meanwhile and
    the service may signal all of it, [force] followed by [wait_empty] returns
    without a single pause, no process of the tree is left when it succeeds, and
    [force] has touched no other process. *)
Lemma forced_tree_ends exit naps t k :
  (∀ f k0, f ∈ exit :: naps → tree_members t (f k0) ⊆ tree_members t k0) →
  tree_immune t k = ∅ →
  ∃ r k', force_and_wait exit naps t k = (Some r, k') ∧
    (r = Ok tt → tree_members t k' = ∅) ∧
    is_Some (force_and_wait exit [] t k).1 ∧
    tree_others t (tree_force t k).2 = tree_others t k.
Proof.
  intros Hn Hi. unfold force_and_wait. destruct (tree_force t k) as [[[]|e] k1] eqn:Hf; simpl.
  2: { exists (Err e), k1. split_and!; [done|done|done|by eapply force_others]. }
  pose proof (force_others t k _ k1 Hf) as Ho. pose proof (force_members t k k1 Hf) as Hm.
  assert (tree_members t (exit k1) = ∅) as He.
  { pose proof (Hn exit k1 ltac:(by left)). set_solver. }
  destruct (wait_returns t (exit k1) naps He) as [r Hr].
  destruct (tree_wait_empty naps t (exit k1)) as [r' k'] eqn:Hw. simpl in Hr. subst r'.
  exists r, k'. split_and!; [done| |by apply wait_returns|done].
  intros _. assert (tree_members t k' ⊆ tree_members t (exit k1)); [|set_solver].
  eapply wait_keeps; [|exact Hw]. intros f k0 Hin. apply Hn. by right.
Qed.
End client.

(** ** Unix: process groups *)

Module Unix.

Inductive Signal := SIGTERM | SIGKILL.
Inductive Errno := ESRCH | OtherErrno (text : string).

Definition errno_text (e : Errno) : string :=
  match e with ESRCH => "ESRCH: No such process" | OtherErrno m => m end.

(** The calls platform.rs makes, and what they act on: the running processes
    with their groups (a process with a pending SIGKILL counts as gone), those
    the caller may not signal, those with a handler for SIGTERM, and the
    calling process. *)
Class UnixKernel (K : Type) := {
  killpg : Z → Signal → K → result Errno unit * K;
  sigaction_ignore_term : K → result Errno unit * K;
  prctl_set_child_subreaper : K → Z * K;
  last_os_error : K → string;
  getpgrp : K → Z;
  self : K → Z;
  procs : K → gmap Z Z;
  immune : K → gset Z;
  catches_term : K → gset Z;
  subreaper : K → bool
}.

Definition group `{UnixKernel K} (g : Z) (k : K) : gset Z := dom (filter (λ p, p.2 = g) (procs k)).
Definition outside_group `{UnixKernel K} (g : Z) (k : K) : gset Z := dom (filter (λ p, p.2 ≠ g) (procs k)).

(** kill(2), killpg(3), sigaction(2) and prctl(2). *)
Class UnixLaws K `{UnixKernel K} : Prop := {
  killpg_kill g k k' : killpg g SIGKILL k = (Ok tt, k') → group g k' ⊆ immune k;
  killpg_shrinks g sg k r k' : killpg g sg k = (r, k') → group g k' ⊆ group g k;
  killpg_term g k k' : killpg g SIGTERM k = (Ok tt, k') → group g k ∩ catches_term k ⊆ group g k';
  killpg_error g sg k e k' : killpg g sg k = (Err e, k') → k' = k;
  killpg_esrch g sg k k' : killpg g sg k = (Err ESRCH, k') → group g k = ∅;
  killpg_others g sg k r k' : killpg g sg k = (r, k') → outside_group g k' = outside_group g k;
  killpg_self g sg k r k' : killpg g sg k = (r, k') →
    getpgrp k' = getpgrp k ∧ self k' = self k ∧ catches_term k' = catches_term k;
  sigaction_ok k k' : sigaction_ignore_term k = (Ok tt, k') →
    catches_term k' = {[self k]} ∪ catches_term k ∧ procs k' = procs k ∧
    getpgrp k' = getpgrp k ∧ self k' = self k;
  prctl_ok k k' : prctl_set_child_subreaper k = (0, k') →
    subreaper k' = true ∧ catches_term k' = catches_term k ∧ procs k' = procs k ∧
    getpgrp k' = getpgrp k ∧ self k' = self k
}.

Record ProcessTree := mkProcessTree { pid : option Z }.

Section operations.
Context `{UnixKernel K}.

Definition new (k : K) : result string ProcessTree * K := (Ok (mkProcessTree None), k).

(** [process_group(0)]: the child leads a group of its own. *)
Definition prepare_command (c : SpawnSettings) : SpawnSettings :=
  mkSpawnSettings (Some 0) (creation_flags c).

Definition attach (child : Child) (t : ProcessTree) (k : K) : result string ProcessTree * K :=
  match child_id child with
  | None => (Err "Worker 启动后没有 PID", k)
  | Some pid => (Ok (mkProcessTree (Some (as_i32 pid))), k)
  end.

Definition send_group (pid : option Z) (sg : Signal) (k : K) : result string unit * K :=
  match pid with
  | None => (Err "进程树尚未初始化", k)
  | Some pid =>
      match killpg pid sg k with
      | (Ok _, k) | (Err ESRCH, k) => (Ok tt, k)
      | (Err e, k) => (Err ("发送进程组信号失败: " +:+ errno_text e), k)
      end
  end.

Definition graceful (t : ProcessTree) (k : K) : result string unit * K := send_group (pid t) SIGTERM k.
Definition force (t : ProcessTree) (k : K) : result string unit * K := send_group (pid t) SIGKILL k.

(** The worker itself waits for its descendants, so there is nothing to poll. *)
Definition wait_empty (naps : list (K → K)) (t : ProcessTree) (k : K) : option (result string unit) * K :=
  (Some (Ok tt), k).

(** ** The worker's side *)

Definition worker_setup (k : K) : result string unit * K :=
  match sigaction_ignore_term k with
  | (Err e, k) => (Err ("安装 Worker SIGTERM 处理器失败: " +:+ errno_text e), k)
  | (Ok _, k) =>
      let '(res, k) := prctl_set_child_subreaper k in
      if bool_decide (res = 0) then (Ok tt, k)
      else (Err ("设置 Worker 为 child subreaper 失败: " +:+ last_os_error k), k)
  end.

Definition worker_graceful (k : K) : result string unit * K :=
  match killpg (getpgrp k) SIGTERM k with
  | (Ok _, k) | (Err ESRCH, k) => (Ok tt, k)
  | (Err e, k) => (Err ("Worker 发送 SIGTERM 失败: " +:+ errno_text e), k)
  end.

(** The kernel when the worker, which does not return, has aborted. *)
Definition worker_force_after_parent_loss (k : K) : K := (killpg (getpgrp k) SIGKILL k).2.

#[global] Instance tree_ops : TreeOps ProcessTree K := {|
  tree_new := new;
  tree_attach := attach;
  tree_graceful := graceful;
  tree_force := force;
  tree_wait_empty := wait_empty;
  tree_members t k := match pid t with Some g => group g k | None => ∅ end;
  tree_immune _ k := immune k;
  tree_others t k := match pid t with Some g => outside_group g k | None => dom (procs k) end
|}.
End operations.

Section facts.
Context {K : Type} `{UnixLaws K}.

Lemma send_group_Ok g sg k k' :
  send_group (Some g) sg k = (Ok tt, k') →
  killpg g sg k = (Ok tt, k') ∨ k' = k ∧ group g k = ∅.
Proof.
  unfold send_group. destruct (killpg g sg k) as [[[]|[|m]] k1] eqn:Hk; intros [= <-]; [by left|right].
  split; [by eapply killpg_error|by eapply killpg_esrch].
Qed.

#[global] Instance tree_laws : TreeLaws ProcessTree K.
Proof.
  split; simpl.
  - intros [[g|]] k k' Hf; [|done]. simpl. apply send_group_Ok in Hf as [Hk|[-> ->]]; [|set_solver].
    by eapply killpg_kill.
  - intros [[g|]] k r k'; unfold force, send_group; simpl; [|by intros [= _ <-]].
    destruct (killpg g SIGKILL k) as [[[]|[|m]] k1] eqn:Hk; intros [= _ <-]; by eapply killpg_others.
  - intros t k r k' naps _ [= _ <-]. done.
  - by eexists.
Qed.

(** The worker asks its whole group to stop and survives its own request: it
    catches SIGTERM since its set-up, so it lives to report the exit. *)
Lemma worker_survives_graceful k k1 k2 r :
  self k ∈ group (getpgrp k) k →
  worker_setup k = (Ok tt, k1) → worker_graceful k1 = (r, k2) →
  self k2 = self k ∧ self k2 ∈ group (getpgrp k2) k2 ∧ subreaper k1 = true.
Proof.
  intros Hself. unfold worker_setup. destruct (sigaction_ignore_term k) as [[[]|e] ka] eqn:Hs; [|done].
  destruct (prctl_set_child_subreaper ka) as [res kb] eqn:Hp. case_bool_decide as Hz; [|done].
  intros [= <-]. subst res. apply sigaction_ok in Hs as (Hc & Hpr & Hg & Hse).
  apply prctl_ok in Hp as (Hsub & Hc' & Hpr' & Hg' & Hse'). unfold worker_graceful.
  assert (self kb ∈ group (getpgrp kb) kb ∩ catches_term kb) as Hin.
  { unfold group. rewrite Hg', Hg, Hpr', Hpr, Hse', Hse, Hc', Hc. set_solver. }
  destruct (killpg (getpgrp kb) SIGTERM kb) as [[[]|e] k3] eqn:Hk.
  - intros [= _ <-]. destruct (killpg_self _ _ _ _ _ Hk) as (Hg3 & Hs3 & _).
    apply killpg_term in Hk. rewrite Hg3, Hs3. split_and!; [congruence|set_solver|done].
  - assert (k3 = kb) as -> by by eapply killpg_error.
    destruct e; intros [= _ <-]; split_and!; [congruence|set_solver|done|congruence|set_solver|done].
Qed.
End facts.
End Unix.

(** ** Windows: job objects *)

Module Windows.

Definition JOB_OBJECT_LIMIT_KILL_ON_JOB_CLOSE : Z := 0x2000.
Definition CREATE_NEW_PROCESS_GROUP : Z := 0x200.
Definition CTRL_BREAK_EVENT : Z := 1.
Definition SW_HIDE : Z := 0.

(** The calls platform.rs makes; a [BOOL] is an integer, zero on failure. The
    observations: open handles of this process, the running processes of a job
    and those outside it, the flag that closing a job kills it, and the
    console of the calling process. *)
Class WindowsKernel (K : Type) := {
  CreateJobObjectW : K → Z * K;
  SetInformationJobObject : Z → Z → K → Z * K;
  AssignProcessToJobObject : Z → Z → K → Z * K;
  TerminateJobObject : Z → Z → K → Z * K;
  QueryInformationJobObject : Z → K → Z * Z;
  CloseHandle : Z → K → Z * K;
  GetConsoleProcessList : K → Z;
  AllocConsole : K → Z * K;
  GetConsoleWindow : K → Z;
  ShowWindow : Z → Z → K → Z * K;
  SetConsoleCtrlHandler : K → Z * K;
  GenerateConsoleCtrlEvent : Z → Z → K → Z * K;
  process_id : K → Z;
  last_os_error : K → string;
  handles : K → gset Z;
  job_members : Z → K → gset Z;
  outside_job : Z → K → gset Z;
  kill_on_close : Z → K → bool;
  has_console : K → bool;
  handler_installed : K → bool
}.

(** What stays when a call does not concern it. *)
Definition same_jobs `{WindowsKernel K} (k k' : K) : Prop :=
  handles k' = handles k ∧ ∀ j, kill_on_close j k' = kill_on_close j k.

Class WindowsLaws K `{WindowsKernel K} : Prop := {
  create_job k h k' : CreateJobObjectW k = (h, k') →
    handles k' = (if bool_decide (h = 0) then ∅ else {[h]}) ∪ handles k ∧ (h ≠ 0 → h ∉ handles k);
  set_information j f k ok k' : SetInformationJobObject j f k = (ok, k') →
    handles k' = handles k ∧ (ok ≠ 0 → kill_on_close j k' = Z.testbit f 13);
  assign_process j p k ok k' : AssignProcessToJobObject j p k = (ok, k') → same_jobs k k';
  terminate_job j c k ok k' : TerminateJobObject j c k = (ok, k') →
    same_jobs k k' ∧ outside_job j k' = outside_job j k ∧ (ok ≠ 0 → job_members j k' = ∅);
  query_job j k ok n : QueryInformationJobObject j k = (ok, n) → ok ≠ 0 →
    n = Z.of_nat (size (job_members j k));
  close_handle h k ok k' : CloseHandle h k = (ok, k') →
    handles k' = handles k ∖ {[h]} ∧ (h ∈ handles k → kill_on_close h k = true → job_members h k' = ∅);
  console_list k : GetConsoleProcessList k ≠ 0 → has_console k = true;
  alloc_console k ok k' : AllocConsole k = (ok, k') → ok ≠ 0 → has_console k' = true;
  show_window w c k ok k' : ShowWindow w c k = (ok, k') → has_console k' = has_console k;
  set_handler k ok k' : SetConsoleCtrlHandler k = (ok, k') → ok ≠ 0 →
    handler_installed k' = true ∧ has_console k' = has_console k
}.

Record ProcessTree := mkProcessTree { job : Z }.

Section operations.
Context `{WindowsKernel K}.

Definition new (k : K) : result string ProcessTree * K :=
  let '(job, k) := CreateJobObjectW k in
  if bool_decide (job = 0) then (Err ("创建 Windows Job Object 失败: " +:+ last_os_error k), k)
  else
    let '(ok, k) := SetInformationJobObject job JOB_OBJECT_LIMIT_KILL_ON_JOB_CLOSE k in
    if bool_decide (ok = 0) then
      let '(_, k) := CloseHandle job k in
      (Err ("配置 Windows Job Object 失败: " +:+ last_os_error k), k)
    else (Ok (mkProcessTree job), k).

Definition prepare_command (c : SpawnSettings) : SpawnSettings :=
  mkSpawnSettings (process_group c) CREATE_NEW_PROCESS_GROUP.

Definition attach (child : Child) (t : ProcessTree) (k : K) : result string ProcessTree * K :=
  match raw_handle child with
  | None => (Err "Worker 启动后没有进程句柄", k)
  | Some process =>
      let '(ok, k) := AssignProcessToJobObject (job t) process k in
      if bool_decide (ok = 0)
      then (Err ("将 Worker 加入 Windows Job Object 失败: " +:+ last_os_error k), k)
      else (Ok t, k)
  end.

(** The worker raises CTRL+BREAK itself. *)
Definition graceful (t : ProcessTree) (k : K) : result string unit * K := (Ok tt, k).

Definition force (t : ProcessTree) (k : K) : result string unit * K :=
  let '(ok, k) := TerminateJobObject (job t) 1 k in
  if bool_decide (ok = 0) then (Err ("强制终止 Windows Job Object 失败: " +:+ last_os_error k), k)
  else (Ok tt, k).

Fixpoint wait_empty (naps : list (K → K)) (t : ProcessTree) (k : K) : option (result string unit) * K :=
  let '(ok, active) := QueryInformationJobObject (job t) k in
  if bool_decide (ok = 0) then (Some (Err ("查询 Windows Job Object 状态失败: " +:+ last_os_error k)), k)
  else if bool_decide (active = 0) then (Some (Ok tt), k)
  else match naps with
       | [] => (None, k)
       | nap :: naps => wait_empty naps t (nap k)
       end.

(** [Drop for ProcessTree]. *)
Definition drop_tree (t : ProcessTree) (k : K) : K := (CloseHandle (job t) k).2.

(** ** The worker's side *)

(** [console_handler]: the new value of [BREAK_RECEIVED] and the result. *)
Definition console_handler (event : Z) (received : bool) : bool * Z :=
  if bool_decide (event = CTRL_BREAK_EVENT) then (true, 1) else (received, 0).

Definition worker_setup (k : K) : result string unit * K :=
  let install k :=
    let '(ok, k) := SetConsoleCtrlHandler k in
    if bool_decide (ok = 0) then (Err ("安装 Windows Worker 控制事件处理器失败: " +:+ last_os_error k), k)
    else (Ok tt, k) in
  if bool_decide (GetConsoleProcessList k = 0) then
    let '(ok, k) := AllocConsole k in
    if bool_decide (ok = 0) then (Err ("为 Windows Worker 创建控制台失败: " +:+ last_os_error k), k)
    else
      let window := GetConsoleWindow k in
      install (if bool_decide (window = 0) then k else (ShowWindow window SW_HIDE k).2)
  else install k.

Definition worker_graceful (k : K) : result string unit * K :=
  let '(ok, k) := GenerateConsoleCtrlEvent CTRL_BREAK_EVENT (process_id k) k in
  if bool_decide (ok = 0) then (Err ("发送 CTRL+BREAK 失败: " +:+ last_os_error k), k)
  else (Ok tt, k).

(** The worker only sleeps until the closed job ends it: what the rest of the
    system does meanwhile is all that happens. *)
Definition worker_force_after_parent_loss (naps : list (K → K)) (k : K) : K :=
  foldl (λ k nap, nap k) k naps.

(** Nothing is left to wait for: the job object knows the descendants. *)
Definition worker_wait_for_descendants (k : K) : result string unit * K := (Ok tt, k).

#[global] Instance tree_ops : TreeOps ProcessTree K := {|
  tree_new := new;
  tree_attach := attach;
  tree_graceful := graceful;
  tree_force := force;
  tree_wait_empty := wait_empty;
  tree_members t k := job_members (job t) k;
  tree_immune _ _ := ∅;
  tree_others t k := outside_job (job t) k
|}.
End operations.

Section facts.
Context {K : Type} `{WindowsLaws K}.

Lemma size_members_zero j k : Z.of_nat (size (job_members j k)) = 0 ↔ job_members j k = ∅.
Proof.
  split; intros Hs; [|by rewrite Hs, size_empty].
  apply leibniz_equiv, size_empty_inv. lia.
Qed.

(** One look at the job: the answer, or the need to sleep. *)
Lemma wait_empty_poll naps t k :
  (QueryInformationJobObject (job t) k).1 ≠ 0 →
  wait_empty naps t k =
    if decide (job_members (job t) k = ∅) then (Some (Ok tt), k)
    else match naps with [] => (None, k) | nap :: naps => wait_empty naps t (nap k) end.
Proof.
  intros Hok. destruct naps; simpl; destruct (QueryInformationJobObject (job t) k) as [ok n] eqn:Hq;
    simpl in Hok; apply query_job in Hq as ->; try done; rewrite (bool_decide_eq_false_2 (ok = 0)) by done;
    case_bool_decide as Hs; rewrite size_members_zero in Hs; by case_decide.
Qed.

(** [wait_empty] of a job terminates as soon as it can: while the queries
    succeed, it returns within the given pauses exactly when the job is empty
    after some number of them, and at the first such moment. *)
Theorem wait_empty_terminates naps t k :
  (∀ k0, (QueryInformationJobObject (job t) k0).1 ≠ 0) →
  ((∃ k', wait_empty naps t k = (Some (Ok tt), k')) ↔
  ∃ n, (n ≤ length naps)%nat ∧ job_members (job t) (foldl (λ k nap, nap k) k (take n naps)) = ∅ ∧
    ∀ m, (m < n)%nat → job_members (job t) (foldl (λ k nap, nap k) k (take m naps)) ≠ ∅).
Proof.
  intros Hok. revert k. induction naps as [|nap naps IH]; intros k; rewrite (wait_empty_poll _ _ _ (Hok k)).
  - case_decide as He; split; [|by eauto| |].
    + intros _. exists 0%nat. split_and!; [done|done|lia].
    + by intros [? [=]].
    + intros (n & Hn & Hm & _). rewrite take_nil in Hm. done.
  - case_decide as He.
    + split; [|by eauto]. intros _. exists 0%nat. split_and!; [simpl; lia|done|lia].
    + rewrite IH. split.
      * intros (n & Hn & Hm & Hf). exists (S n). split_and!; [simpl; lia|done|].
        intros [|m] Hlt; [done|]. simpl. apply Hf. lia.
      * intros ([|n] & Hn & Hm & Hf); [done|]. exists n. split_and!; [simpl in Hn; lia|done|].
        intros m Hlt. apply (Hf (S m)). lia.
Qed.

Lemma wait_empty_last naps t k r k' :
  (∀ f k0, f ∈ naps → job_members (job t) (f k0) ⊆ job_members (job t) k0) →
  wait_empty naps t k = (r, k') → job_members (job t) k' ⊆ job_members (job t) k.
Proof.
  revert k. induction naps as [|nap naps IH]; intros k Hn; simpl;
    destruct (QueryInformationJobObject (job t) k) as [ok n]; repeat case_bool_decide;
    try (by intros [= _ <-]).
  intros Hw. apply IH in Hw; [|intros; apply Hn; by right].
  pose proof (Hn nap k ltac:(by left)). set_solver.
Qed.

#[global] Instance tree_laws : TreeLaws ProcessTree K.
Proof.
  split; simpl.
  - intros t k k'. unfold force. destruct (TerminateJobObject (job t) 1 k) as [ok k1] eqn:Ht.
    case_bool_decide; [done|]. intros [= <-]. apply terminate_job in Ht as (_ & _ & Hm). by rewrite Hm.
  - intros t k r k'. unfold force. destruct (TerminateJobObject (job t) 1 k) as [ok k1] eqn:Ht.
    apply terminate_job in Ht as (_ & Ho & _). case_bool_decide; by intros [= _ <-].
  - intros t k r k' naps. apply wait_empty_last.
  - intros t k naps He. destruct naps; simpl; destruct (QueryInformationJobObject (job t) k) as [ok n] eqn:Hq;
      case_bool_decide; try (by eexists); apply query_job in Hq as ->; try done;
      rewrite bool_decide_eq_true_2 by (by apply size_members_zero); by eexists.
Qed.

(** What happens to a job between [new] and [drop]: the operations of its tree,
    and anything that leaves its handle open and its limits alone. *)
Inductive job_step (t : ProcessTree) : K → K → Prop :=
| step_attach child k r k' : attach child t k = (r, k') → job_step t k k'
| step_force k r k' : force t k = (r, k') → job_step t k k'
| step_other k k' :
    (job t ∈ handles k → job t ∈ handles k') → kill_on_close (job t) k' = kill_on_close (job t) k →
    job_step t k k'.

Definition owned (t : ProcessTree) (k : K) : Prop :=
  job t ∈ handles k ∧ kill_on_close (job t) k = true.

Lemma job_step_owned t k k' : job_step t k k' → owned t k → owned t k'.
Proof.
  destruct 1 as [child k r k' Ha|k r k' Hf|k k' Hh Hk]; intros [Hin Hc].
  - unfold attach in Ha. destruct (raw_handle child); [|by injection Ha as _ <-].
    destruct (AssignProcessToJobObject _ _ _) as [ok k1] eqn:Hp. apply assign_process in Hp as [Hh Hk].
    case_bool_decide; injection Ha as _ <-; split; by rewrite ?Hh, ?Hk.
  - unfold force in Hf. destruct (TerminateJobObject _ _ _) as [ok k1] eqn:Hp.
    apply terminate_job in Hp as ([Hh Hk] & _). case_bool_decide; injection Hf as _ <-; split; by rewrite ?Hh, ?Hk.
  - split; [by apply Hh|congruence].
Qed.

(** C28: a job object never leaks: a [new] that fails, at either call, leaves
    the handles of the service as they were; one that succeeds owns a handle of
    its own which stays open until the tree is dropped, whatever is done with
    it, and dropping it closes the handle and leaves no process of the job
    running, so a worker that lost its service does not outlive it. *)
Theorem job_lifetime k r k1 :
  new k = (r, k1) →
  match r with
  | Err _ => handles k1 = handles k
  | Ok t =>
      handles k1 = {[job t]} ∪ handles k ∧ (job t ∉ handles k) ∧
      ∀ k2, rtc (job_step t) k1 k2 →
        job t ∈ handles k2 ∧ handles (drop_tree t k2) = handles k2 ∖ {[job t]} ∧
        job_members (job t) (drop_tree t k2) = ∅
  end.
Proof.
  unfold new. destruct (CreateJobObjectW k) as [j ka] eqn:Hc. apply create_job in Hc as [Hh Hj].
  case_bool_decide as Hz; [intros [= <- <-]; rewrite Hh; set_solver|]. specialize (Hj Hz).
  destruct (SetInformationJobObject _ _ ka) as [ok kb] eqn:Hs. apply set_information in Hs as [Hh' Hk].
  case_bool_decide as Ho.
  - destruct (CloseHandle j kb) as [? kc] eqn:Hx. apply close_handle in Hx as [Hh3 _].
    intros [= <- <-]. rewrite Hh3, Hh', Hh. set_solver.
  - intros [= <- <-]. simpl. split_and!; [congruence|done|]. intros k2 Hr.
    assert (owned (mkProcessTree j) k2) as [Hin Hkill].
    { apply (rtc_invariant _ (owned (mkProcessTree j)) _ _ (job_step_owned _) Hr).
      split; simpl; [rewrite Hh', Hh; set_solver|by rewrite (Hk Ho)]. }
    unfold drop_tree. simpl in *. destruct (CloseHandle j k2) as [? k3] eqn:Hx. simpl.
    apply close_handle in Hx as [Hh3 Hm]. auto.
Qed.

(** After its set-up a worker has a console, its own or an inherited one, and
    swallows the CTRL+BREAK it sends to its group. *)
Lemma worker_setup_Ok k k' :
  worker_setup k = (Ok tt, k') → has_console k' = true ∧ handler_installed k' = true ∧
  ∀ received, console_handler CTRL_BREAK_EVENT received = (true, 1).
Proof.
  unfold worker_setup. intros Hs. enough (has_console k' = true ∧ handler_installed k' = true) as [? ?] by done.
  assert (∀ k0, has_console k0 = true →
    (let '(ok, k1) := SetConsoleCtrlHandler k0 in
     if bool_decide (ok = 0)
     then (Err ("安装 Windows Worker 控制事件处理器失败: " +:+ last_os_error k1), k1) else (Ok tt, k1)) = (Ok tt, k') →
    has_console k' = true ∧ handler_installed k' = true) as Hi.
  { intros k0 Hc. destruct (SetConsoleCtrlHandler k0) as [ok k1] eqn:Hh. intros Hok.
    case_bool_decide; simplify_eq. apply set_handler in Hh as [??]; [|done]. split; congruence. }
  case_bool_decide as Hl; [|by eapply Hi; [apply console_list|]].
  destruct (AllocConsole k) as [ok k1] eqn:Ha. case_bool_decide; [done|].
  eapply Hi; [|exact Hs]. apply alloc_console in Ha; [|done]. case_bool_decide; [done|].
  destruct (ShowWindow _ _ k1) as [? k2] eqn:Hw. apply show_window in Hw. simpl. congruence.
Qed.
End facts.
End Windows.

(** ** Forcing a tree, on both platforms *)

Section forcing.
Context {K W : Type} `{Unix.UnixLaws K} `{Windows.WindowsLaws W}.

End forcing.

(** ** Concrete kernels *)
Module PlatformToy.

(** A Unix machine: a killed process is gone at once. *)
Record Machine := mkMachine {
  m_procs : gmap Z Z; m_immune : gset Z; m_catches : gset Z;
  m_self : Z; m_pgrp : Z; m_subreaper : bool
}.

Definition survives (g : Z) (sg : Unix.Signal) (m : Machine) (p : Z * Z) : Prop :=
  p.2 ≠ g ∨ p.1 ∈ m_immune m ∨ sg = Unix.SIGTERM ∧ p.1 ∈ m_catches m.

#[local] Instance Signal_eq_dec : EqDecision Unix.Signal.
Proof. solve_decision. Defined.
#[local] Instance survives_dec g sg m p : Decision (survives g sg m p).
Proof. unfold survives. apply _. Defined.

Definition kill_group (g : Z) (sg : Unix.Signal) (m : Machine) : result Unix.Errno unit * Machine :=
  if bool_decide (dom (filter (λ p, p.2 = g) (m_procs m)) = ∅) then (Err Unix.ESRCH, m)
  else (Ok tt, mkMachine (filter (survives g sg m) (m_procs m)) (m_immune m) (m_catches m) (m_self m) (m_pgrp m) (m_subreaper m)).

#[export] Instance machine : Unix.UnixKernel Machine := {|
  Unix.killpg := kill_group;
  Unix.sigaction_ignore_term m :=
    (Ok tt, mkMachine (m_procs m) (m_immune m) ({[m_self m]} ∪ m_catches m) (m_self m) (m_pgrp m) (m_subreaper m));
  Unix.prctl_set_child_subreaper m :=
    (0, mkMachine (m_procs m) (m_immune m) (m_catches m) (m_self m) (m_pgrp m) true);
  Unix.last_os_error _ := "Success (os error 0)";
  Unix.getpgrp := m_pgrp;
  Unix.self := m_self;
  Unix.procs := m_procs;
  Unix.immune := m_immune;
  Unix.catches_term := m_catches;
  Unix.subreaper := m_subreaper
|}.

Lemma kill_group_inv g sg m r m' :
  kill_group g sg m = (r, m') →
  r = Err Unix.ESRCH ∧ m' = m ∧ Unix.group g m = ∅ ∨
  r = Ok tt ∧ m_procs m' = filter (survives g sg m) (m_procs m) ∧ m_immune m' = m_immune m ∧
    m_catches m' = m_catches m ∧ m_self m' = m_self m ∧ m_pgrp m' = m_pgrp m.
Proof. unfold kill_group. case_bool_decide; intros [= <- <-]; [by left|by right]. Qed.

Lemma elem_of_group g m p : p ∈ Unix.group g m ↔ m_procs m !! p = Some g.
Proof.
  unfold Unix.group. rewrite elem_of_dom. unfold is_Some. setoid_rewrite map_lookup_filter_Some. naive_solver.
Qed.

Lemma elem_of_outside g m p : p ∈ Unix.outside_group g m ↔ ∃ h, m_procs m !! p = Some h ∧ h ≠ g.
Proof. unfold Unix.outside_group. rewrite elem_of_dom. unfold is_Some. by setoid_rewrite map_lookup_filter_Some. Qed.

Ltac kill_cases Hk :=
  apply kill_group_inv in Hk as [(?&?&?)|(?&Hp&?&?&?&?)]; simplify_eq; simpl in *.

Lemma machine_laws : Unix.UnixLaws Machine.
Proof.
  split; simpl.
  - intros g m m' Hk. kill_cases Hk. intros p. rewrite elem_of_group, Hp, map_lookup_filter_Some.
    unfold survives. naive_solver.
  - intros g sg m r m' Hk. kill_cases Hk; [done|]. intros p. rewrite !elem_of_group, Hp, map_lookup_filter_Some.
    naive_solver.
  - intros g m m' Hk. kill_cases Hk. intros p. rewrite elem_of_intersection, !elem_of_group, Hp, map_lookup_filter_Some.
    unfold survives. naive_solver.
  - intros g sg m e m' Hk. by kill_cases Hk.
  - intros g sg m m' Hk. by kill_cases Hk.
  - intros g sg m r m' Hk. kill_cases Hk; [done|]. apply leibniz_equiv. intros p.
    rewrite !elem_of_outside, Hp. setoid_rewrite map_lookup_filter_Some. unfold survives. naive_solver.
  - intros g sg m r m' Hk. by kill_cases Hk.
  - by intros m m' [= <-].
  - by intros m m' [= <-].
Qed.
#[export] Existing Instance machine_laws.


(** A Windows machine that has room for one job, with handle 1. *)
Record Box := mkBox {
  b_open : bool; b_kill : bool; b_members : gset Z; b_console : bool; b_handler : bool
}.

#[export] Instance box : Windows.WindowsKernel Box := {|
  Windows.CreateJobObjectW b :=
    if b_open b then (0, b) else (1, mkBox true false ∅ (b_console b) (b_handler b));
  Windows.SetInformationJobObject j f b :=
    if bool_decide (j = 1) then (1, mkBox (b_open b) (Z.testbit f 13) (b_members b) (b_console b) (b_handler b)) else (0, b);
  Windows.AssignProcessToJobObject j p b :=
    if bool_decide (j = 1) then (1, mkBox (b_open b) (b_kill b) ({[p]} ∪ b_members b) (b_console b) (b_handler b)) else (0, b);
  Windows.TerminateJobObject j c b :=
    if bool_decide (j = 1) then (1, mkBox (b_open b) (b_kill b) ∅ (b_console b) (b_handler b)) else (0, b);
  Windows.QueryInformationJobObject j b := (1, if bool_decide (j = 1) then Z.of_nat (size (b_members b)) else 0);
  Windows.CloseHandle h b :=
    if bool_decide (h = 1)
    then (1, mkBox false (b_kill b) (if b_kill b then ∅ else b_members b) (b_console b) (b_handler b)) else (0, b);
  Windows.GetConsoleProcessList b := if b_console b then 1 else 0;
  Windows.AllocConsole b := (1, mkBox (b_open b) (b_kill b) (b_members b) true (b_handler b));
  Windows.GetConsoleWindow b := if b_console b then 7 else 0;
  Windows.ShowWindow _ _ b := (0, b);
  Windows.SetConsoleCtrlHandler b := (1, mkBox (b_open b) (b_kill b) (b_members b) (b_console b) true);
  Windows.GenerateConsoleCtrlEvent _ _ b := (1, b);
  Windows.process_id _ := 40;
  Windows.last_os_error _ := "The operation completed successfully. (os error 0)";
  Windows.handles b := if b_open b then {[1]} else ∅;
  Windows.job_members j b := if bool_decide (j = 1) then b_members b else ∅;
  Windows.outside_job _ _ := {[40]};
  Windows.kill_on_close j b := bool_decide (j = 1) && b_kill b;
  Windows.has_console := b_console;
  Windows.handler_installed := b_handler
|}.

Lemma box_laws : Windows.WindowsLaws Box.
Proof.
  split; unfold Windows.same_jobs; simpl.
  - intros b h b'. destruct (b_open b) eqn:Ho; intros [= <- <-]; simpl; rewrite ?Ho; set_solver.
  - intros j f b ok b'. case_bool_decide; intros [= <- <-]; [|done]. simpl. split; [done|]. intros _.
    subst j. done.
  - intros j p b ok b'. case_bool_decide; by intros [= <- <-].
  - intros j c b ok b'. case_bool_decide; intros [= <- <-]; [|done]. by subst j.
  - intros j b ok n [= <- <-] _. case_bool_decide; [done|]. by rewrite size_empty.
  - intros h b ok b'. case_bool_decide as Hh; intros [= <- <-]; simpl.
    + subst h. split; [destruct (b_open b); set_solver|]. intros _ Hk. by rewrite Hk.
    + split; [destruct (b_open b); set_solver|done].
  - intros b. by destruct (b_console b).
  - by intros b ok b' [= <- <-].
  - by intros _ _ b ok b' [= <- <-].
  - by intros b ok b' [= <- <-].
Qed.
#[export] Existing Instance box_laws.

Definition idle_box : Box := mkBox false false ∅ false false.
Definition job1 : Windows.ProcessTree := Windows.mkProcessTree 1.
Definition busy_box : Box := mkBox true true {[40; 41]} true true.


Lemma job_lifetime_witness :
  let k1 := (Windows.new idle_box).2 in
  let k2 := (Windows.attach (mkChild None (Some 40)) job1 k1).2 in
  Windows.job_members 1 k2 = {[40]} ∧ Windows.job_members 1 (Windows.drop_tree job1 k2) = ∅.
Proof.
  split; [vm_compute; reflexivity|].
  pose proof (Windows.job_lifetime idle_box (Ok job1) (Windows.new idle_box).2 eq_refl) as (_ & _ & Hl).
  apply Hl. apply rtc_once. by eapply (Windows.step_attach _ (mkChild None (Some 40)) _ (Ok job1)).
Defined.

(** Everything in the job ends during the second pause. *)
Definition two_naps : list (Box → Box) :=
  [λ b, b; λ b, mkBox (b_open b) (b_kill b) ∅ (b_console b) (b_handler b)].

Lemma wait_empty_terminates_witness : ∃ k', Windows.wait_empty two_naps job1 busy_box = (Some (Ok tt), k').
Proof.
  apply (Windows.wait_empty_terminates two_naps job1 busy_box); [done|].
  exists 2%nat. split_and!; [simpl; lia|done|].
  intros [|[|m]] Hm; [done|done|lia].
Defined.

End PlatformToy.
