(* ===== verification/Worker.v ===== *)
(** * The worker process (src/src/process/mod.rs [worker_main], [run_worker];
      src/src/process/platform.rs [worker_wait_for_descendants]; the exit code
      of src/src/main.rs)

    The server starts itself again as a worker, sends the [WorkerSpec] as one
    JSON line on the control pipe and keeps the pipe open. The worker starts the
    script, polls it, passes on a stop request, and turns the script's status
    into its own exit code, which is what [run_task] sees. *)

From S2P Require Import Prelude RustStd Model Secret Disk Journal Store Config Capture Process.
Local Open Scope string_scope.
Local Open Scope list_scope.
Local Open Scope Z_scope.

(** ** Lines *)

Definition newline : ascii := "010".

(** [BufRead::read_line]: up to and including the first newline, and the rest. *)
Fixpoint read_line (s : string) : string * string :=
  match s with
  | EmptyString => (EmptyString, EmptyString)
  | String c s =>
      if bool_decide (c = newline) then (String c EmptyString, s)
      else let '(l, r) := read_line s in (String c l, r)
  end.

(** ** The initial message *)

(** [serde_json] on [WorkerSpec]. *)
Class SpecJson := {
  spec_to_json : WorkerSpec → string;
  spec_from_json : string → option WorkerSpec
}.

(** A compact JSON object: it round-trips, escapes control characters and ends
    with a brace. *)
Class SpecJsonLaws `{SpecJson} : Prop := {
  spec_roundtrip : ∀ sp, spec_from_json (spec_to_json sp) = Some sp;
  spec_one_line : ∀ sp, Str.contains [newline] (spec_to_json sp) = false;
  spec_brace : ∀ sp, ∃ t, spec_to_json sp = t +:+ "}"
}.

(** What [run_task] writes to the control pipe first. *)
Definition initial_message `{SpecJson} (sp : WorkerSpec) : string :=
  spec_to_json sp +:+ String newline EmptyString.

(** What the worker makes of its standard input; the rest is read by the
    control thread. *)
Definition read_spec `{SpecJson} (input : string) : result string (WorkerSpec * string) :=
  let '(initial, rest) := read_line input in
  guard! Str.is_empty initial else "未收到 Worker 初始化消息";
  sp ← ok_or "Worker 初始化消息无效" (spec_from_json (Utf8.trim_end initial));
  Ok (sp, rest).

(** ** The control thread *)

Inductive ReadLine := Line (s : string) | Eof | ReadError.

(** Whether the thread sets [stop_requested] on these reads. *)
Fixpoint control_thread (reads : list ReadLine) : bool :=
  match reads with
  | [] => false
  | (Eof | ReadError) :: _ => true
  | Line l :: reads => if bool_decide (Utf8.trim l = "terminate") then true else control_thread reads
  end.

(** ** Polling the script *)

(** One iteration of the loop: what it observes. *)
Record Poll := mkPoll {
  stop_seen : bool;
  graceful_result : option string;             (* [worker_graceful]'s error *)
  try_wait : result string (option ExitStatus);
  now : Z;                                      (* when the signal is sent *)
  later : Z                                     (* when [elapsed] is evaluated *)
}.

(** [Force]: [worker_force_after_parent_loss] is called. It does not return: on
    Unix the worker kills its own process group
    ([Platform.Unix.worker_force_after_parent_loss]), on Windows it sleeps until
    its job object ends it ([Platform.Windows.worker_force_after_parent_loss]). *)
Inductive Action := Graceful (at_ : Z) | Force (at_ : Z).

Inductive End :=
| Exited (st : ExitStatus)
| Failed_ (msg : string)
| Forced                                        (* in that call *)
| Polling.                                      (* still in the loop *)

(** The loop of [run_worker], with the instant [worker_graceful] was called. *)
Fixpoint poll_loop (grace : Z) (sent : option Z) (polls : list Poll) : End * list Action :=
  match polls with
  | [] => (Polling, [])
  | p :: polls =>
      let signal := stop_seen p && bool_decide (sent = None) in
      match (if signal then graceful_result p else None) with
      | Some msg => (Failed_ msg, [])
      | None =>
          let sent := if signal then Some (now p) else sent in
          let done_ := if signal then [Graceful (now p)] else [] in
          match try_wait p with
          | Err msg => (Failed_ msg, done_)
          | Ok (Some st) => (Exited st, done_)
          | Ok None =>
              match sent with
              | Some started =>
                  if grace * Instants.NANOS <=? later p - started then (Forced, done_ ++ [Force (later p)])
                  else let '(e, acts) := poll_loop grace sent polls in (e, done_ ++ acts)
              | None => let '(e, acts) := poll_loop grace sent polls in (e, done_ ++ acts)
              end
          end
      end
  end.

(** [waitpid(-1, WNOHANG)] in [worker_wait_for_descendants] on Unix; on Windows
    there is nothing to wait for. *)
Inductive WaitPid := StillAlive | Reaped | ECHILD | EINTR | OtherErrno (msg : string).

Fixpoint reap (waits : list WaitPid) : option (result string unit) :=
  match waits with
  | [] => None
  | (StillAlive | Reaped | EINTR) :: waits => reap waits
  | ECHILD :: _ => Some (Ok tt)
  | OtherErrno msg :: _ => Some (Err msg)
  end.

Definition worker_wait_for_descendants (windows : bool) (waits : list WaitPid) : option (result string unit) :=
  if windows then Some (Ok tt) else reap waits.

(** ** The worker's exit code *)

(** What the worker meets: [worker_setup], its input, [spawn], the polls and
    the waits. *)
Record WorkerRun := mkWorkerRun {
  setup : option string;
  input : string;
  spawned : option string;
  polls : list Poll;
  waits : list WaitPid
}.

(** [run_worker]; [None] while it is still running or when it called
    [worker_force_after_parent_loss]. *)
Definition run_worker `{SpecJson} (windows : bool) (w : WorkerRun) : option (result string Z) :=
  match setup w with
  | Some msg => Some (Err msg)
  | None =>
      match read_spec (input w) with
      | Err msg => Some (Err msg)
      | Ok (sp, _) =>
          match spawned w with
          | Some msg => Some (Err msg)
          | None =>
              match (poll_loop (w_graceful_shutdown_seconds sp) None (polls w)).1 with
              | Failed_ msg => Some (Err msg)
              | Forced | Polling => None
              | Exited st =>
                  match worker_wait_for_descendants windows (waits w) with
                  | None => None
                  | Some (Err msg) => Some (Err msg)
                  | Some (Ok _) => Some (Ok (default 1 (code st)))
                  end
              end
          end
      end
  end.

Definition worker_main (r : result string Z) : Z := match r with Ok c => c | Err _ => 127 end.

(** [ExitCode::from(code.clamp(0, 255) as u8)]. *)
Definition worker_exit_code (c : Z) : Z := Z.max 0 (Z.min c 255).

(** The status [run_task] reads from the worker, if it exits by itself. *)
Definition worker_status `{SpecJson} (windows : bool) (w : WorkerRun) : option ExitStatus :=
  r ← run_worker windows w; Some (mkExitStatus (Some (worker_exit_code (worker_main r)))).

(** ** Theorems *)

(** White space contains no brace. *)
Lemma ws_first_brace s w :
  Utf8.ws_first s = Some w → Str.contains ["}"%char] (Str.drop w s) = Str.contains ["}"%char] s.
Proof.
  unfold Utf8.ws_first, Utf8.between. intros Hs. repeat case_match; simplify_eq/=;
    repeat (rewrite bool_decide_eq_false_2;
      [simpl|intros ->%list_elem_of_singleton; change (Utf8.byte "}") with 125 in *; simpl in *;
             rewrite ?andb_false_r in *; simpl in *; discriminate]); done.
Qed.

Lemma white_brace s : Utf8.all_whitespace s = true → Str.contains ["}"%char] s = false.
Proof.
  unfold Utf8.all_whitespace, Utf8.trim_start, Str.is_empty. generalize (String.length s) as n. intros n.
  revert s. induction n as [|n IH]; intros s; simpl; [intros ?; breflect; by subst|].
  destruct (Utf8.ws_first s) as [w|] eqn:Hw; [|intros ?; breflect; by subst].
  intros Hs. rewrite <- (ws_first_brace s w) by done. by apply IH.
Qed.

Lemma trim_end_line t :
  Utf8.trim_end ((t +:+ "}") +:+ String newline EmptyString) = t +:+ "}".
Proof.
  rewrite Str.app_assoc. induction t as [|c t IH]; [done|]. rewrite !Str.app_cons.
  set (u := t +:+ _) in *. cbn [Utf8.trim_end].
  destruct (Utf8.all_whitespace (String c u)) eqn:Hw; [|by rewrite IH].
  apply white_brace in Hw. simpl in Hw. breflect.
  match goal with Hc : Str.contains _ u = false |- _ => unfold u in Hc; rewrite Str.contains_app in Hc; breflect end.
  done.
Qed.

Lemma read_line_app l r :
  Str.contains [newline] l = false →
  read_line ((l +:+ String newline EmptyString) +:+ r) = (l +:+ String newline EmptyString, r).
Proof.
  induction l as [|c l IH]; [done|]. rewrite !Str.app_cons. simpl. intros Hc. breflect.
  rewrite bool_decide_eq_false_2 by set_solver. by rewrite IH.
Qed.

Section worker_facts.
Context `{RegexLib, SpecJsonLaws}.

(** C12: the worker runs exactly what the server decided: from the control
    pipe it reads back the specification that was sent, field by field, with the
    grace period, leaving what follows for its control thread, and the process
    it starts has the route's program, the launcher's options, the script, the
    fixed arguments and then the request's arguments, each as one element of the
    argument vector, with the route's directory and environment. *)
Theorem worker_runs_request route args rest :
  let sp := mkWorkerSpec (executor route) (program route) (script route) (fixed_args route) args
              (working_directory route) (env route) (graceful_shutdown_seconds route) in
  read_spec (initial_message (spec_of route args) +:+ rest) = Ok (sp, rest) ∧
  build_script_command sp =
    mkScriptCommand (program route)
      (launcher_args (executor route) ++ script route :: fixed_args route ++ args)
      (working_directory route) (env route).
Proof.
  split; [|done]. change (mkWorkerSpec _ _ _ _ _ _ _ _) with (spec_of route args).
  unfold read_spec, initial_message.
  rewrite read_line_app by apply spec_one_line.
  destruct (spec_brace (spec_of route args)) as [t Ht].
  assert (Str.is_empty (spec_to_json (spec_of route args) +:+ String newline EmptyString) = false) as ->.
  { apply bool_decide_eq_false_2. rewrite Ht. by destruct t. }
  assert (Utf8.trim_end (spec_to_json (spec_of route args) +:+ String newline EmptyString)
    = spec_to_json (spec_of route args)) as -> by by rewrite Ht, trim_end_line.
  by rewrite spec_roundtrip.
Qed.
End worker_facts.

(** The worker stops its script when the server asks for it and when the
      server is gone: a [terminate] line and the end (or an error) of the
      control pipe each set the stop flag, whatever lines came before. *)
Theorem control_thread_stops reads r :
  r = Eof ∨ r = ReadError ∨ r = Line ("terminate" +:+ String newline EmptyString) →
  control_thread (reads ++ [r]) = true.
Proof.
  intros Hr. induction reads as [|[l| |] reads IH]; simpl; [|by destruct (bool_decide _)|done|done].
  by destruct Hr as [->|[->| ->]].
Qed.

(** The actions of a worker: nothing, one polite request, or one followed by
    the kill no earlier than the grace period allows. *)
Definition disciplined (grace : Z) (acts : list Action) : Prop :=
  acts = [] ∨ (∃ t0, acts = [Graceful t0]) ∨
  ∃ t0 t, acts = [Graceful t0; Force t] ∧ t0 + grace * Instants.NANOS ≤ t.

Lemma poll_loop_sent grace t0 ps :
  (poll_loop grace (Some t0) ps).2 = [] ∨
  ∃ t, (poll_loop grace (Some t0) ps).2 = [Force t] ∧ t0 + grace * Instants.NANOS ≤ t.
Proof.
  induction ps as [|p ps IH]; simpl; [by left|]. rewrite andb_false_r.
  destruct (try_wait p) as [[st|]|msg]; [by left| |by left].
  destruct (_ <=? _) eqn:He; breflect.
  - right. exists (later p). split; [done|lia].
  - by destruct (poll_loop grace (Some t0) ps).
Qed.

(** A worker asks its process group to stop at most once, and gives up on it
    only afterwards and only when the script is still there the whole grace
    period later. *)
Theorem poll_loop_disciplined grace ps : disciplined grace (poll_loop grace None ps).2.
Proof.
  induction ps as [|p ps IH]; simpl; [by left|]. rewrite andb_true_r. destruct (stop_seen p).
  - destruct (graceful_result p); [by left|]. destruct (try_wait p) as [[st|]|msg];
      [by right; left; eexists| |by right; left; eexists].
    destruct (_ <=? _) eqn:He; breflect.
    + right; right. exists (now p), (later p). split; [done|lia].
    + pose proof (poll_loop_sent grace (now p) ps) as Hs. destruct (poll_loop grace (Some (now p)) ps) as [e acts].
      simpl in *. destruct Hs as [->|(t & -> & ?)]; [by right; left; eexists|right; right; eauto].
  - destruct (try_wait p) as [[st|]|msg]; [by left| |by left].
    by destruct (poll_loop grace None ps).
Qed.

(** The pause between two polls. *)
Definition NAP : Z := 50 * 10 ^ 6.

(** The polls happen in order, at least a pause apart. *)
Fixpoint spaced (t : Z) (ps : list Poll) : Prop :=
  match ps with
  | [] => True
  | p :: ps => t ≤ now p ≤ later p ∧ spaced (later p + NAP) ps
  end.

Lemma nap_per_second : Instants.NANOS = 20 * NAP.
Proof. reflexivity. Qed.

(** While the worker still polls, its grace period has not passed. *)
Lemma poll_loop_within grace t0 t ps :
  spaced t ps → ps ≠ [] → (poll_loop grace (Some t0) ps).1 = Polling →
  t + NAP * (Z.of_nat (length ps) - 1) < t0 + grace * Instants.NANOS.
Proof.
  revert t. induction ps as [|p ps IH]; intros t Hsp Hne Hp; [done|]. clear Hne. destruct Hsp as [Ht Hs].
  cbn [poll_loop] in Hp. rewrite andb_false_r in Hp.
  destruct (try_wait p) as [[st|]|msg]; [done| |done].
  destruct (_ <=? _) eqn:He; breflect; [done|].
  destruct ps as [|q ps]; [cbn [length]; lia|].
  specialize (IH (later p + NAP) Hs). destruct (poll_loop grace (Some t0) (q :: ps)) as [e acts].
  simpl in Hp. specialize (IH ltac:(done) Hp). cbn [length] in *. lia.
Qed.

(** C29: a worker that was told to stop ends: with its polls at least 50 ms
    apart, at most twenty polls per second of grace after the request was seen
    it has left its loop: the script exited, a call failed, or the worker gave
    up and called [worker_force_after_parent_loss], which on Unix kills its
    process group and on Windows leaves the end to the job object. *)
Theorem worker_stop_terminates grace t pre p post :
  spaced t (pre ++ p :: post) → stop_seen p = true → 20 * grace ≤ Z.of_nat (length post) →
  (poll_loop grace None (pre ++ p :: post)).1 ≠ Polling.
Proof.
  assert (∀ q rest, now q ≤ later q → spaced (later q + NAP) rest → 20 * grace ≤ Z.of_nat (length rest) →
    (poll_loop grace (Some (now q)) rest).1 = Polling → rest ≠ [] → False) as Hlate.
  { intros q rest Hq Hs Hlen Hp Hne. pose proof (poll_loop_within _ _ _ _ Hs Hne Hp) as Hb.
    rewrite nap_per_second in Hb. unfold NAP in *. lia. }
  intros Hs Hstop Hlen Hp. revert t Hs Hp. induction pre as [|q pre IH]; intros t [Hq Hs] Hp; cbn [app poll_loop] in *.
  - rewrite Hstop in Hp. simpl in Hp. destruct (graceful_result p); [done|].
    destruct (try_wait p) as [[st|]|msg]; [done| |done].
    destruct (_ <=? _) eqn:He; breflect; [done|].
    destruct (poll_loop grace (Some (now p)) post) as [e acts] eqn:Hl. simpl in Hp. subst e.
    apply (Hlate p post); [lia|done|done|by rewrite Hl|]. intros ->. simpl in Hlen.
    rewrite nap_per_second in He. unfold NAP in He. lia.
  - destruct (stop_seen q); simpl in Hp.
    + destruct (graceful_result q); [done|]. destruct (try_wait q) as [[st|]|msg]; [done| |done].
      destruct (_ <=? _) eqn:He; breflect; [done|].
      destruct (poll_loop grace (Some (now q)) (pre ++ p :: post)) as [e acts] eqn:Hl. simpl in Hp. subst e.
      apply (Hlate q (pre ++ p :: post)); [lia|done| |by rewrite Hl|by destruct pre].
      rewrite length_app. simpl. lia.
    + destruct (try_wait q) as [[st|]|msg]; [done| |done].
      destruct (poll_loop grace None (pre ++ p :: post)) as [e acts] eqn:Hl. simpl in Hp. subst e.
      exact (IH _ Hs eq_refl).
Qed.

Section exit_codes.
Context `{SpecJson} (windows : bool).

(** The worker starts its script, which ends with [st], and reaps the rest. *)
Definition completes (w : WorkerRun) (st : ExitStatus) : Prop :=
  setup w = None ∧ spawned w = None ∧
  (∃ sp rest, read_spec (input w) = Ok (sp, rest) ∧
     (poll_loop (w_graceful_shutdown_seconds sp) None (polls w)).1 = Exited st) ∧
  worker_wait_for_descendants windows (waits w) = Some (Ok tt).

Lemma completes_status w st :
  completes w st →
  worker_status windows w = Some (mkExitStatus (Some (worker_exit_code (default 1 (code st))))).
Proof.
  intros (Hs & Hsp & (sp & rest & Hr & Hp) & Hw). unfold worker_status, run_worker.
  by rewrite Hs, Hr, Hsp, Hp, Hw.
Qed.

(** C34: the exit code of a script that ends with a code from 0 to 255 is the
    one the task reports, so the task succeeds exactly when the script
    returned 0; a script killed by a signal is reported as failed. *)
Theorem script_exit_reported w st :
  completes w st → (∀ c, code st = Some c → 0 ≤ c ≤ 255) →
  ∃ ws, worker_status windows w = Some ws ∧
    code ws = Some (default 1 (code st)) ∧
    (final_status None ws = Succeeded ↔ code st = Some 0).
Proof.
  intros Hc Hr. rewrite (completes_status w st Hc). eexists. split; [done|].
  unfold final_status, success, worker_exit_code. simpl. destruct (code st) as [c|]; simpl.
  - specialize (Hr c eq_refl). rewrite Z.min_l, Z.max_r by lia. split; [done|]. case_bool_decide; naive_solver.
  - by split.
Qed.

(** C38: a negative exit code, which is how Windows reports a crash, is
    clamped to 0 on its way out of the worker, so a crashed script is
    reported as succeeded. *)
Theorem negative_exit_succeeds w st c :
  completes w st → code st = Some c → c < 0 →
  ∃ ws, worker_status windows w = Some ws ∧ final_status None ws = Succeeded.
Proof.
  intros Hc Hs Hn. rewrite (completes_status w st Hc), Hs. eexists. split; [done|].
  unfold final_status, success, worker_exit_code. simpl. by rewrite Z.min_l, Z.max_l by lia.
Qed.
End exit_codes.

(** ** Concrete workers *)
Module WorkerToy.

#[local] Instance Executor_countable : Countable Executor.
Proof.
  refine (inj_countable
    (λ e, match e with Sh => 0 | Bash => 1 | Zsh => 2 | Pwsh => 3 | Powershell => 4 | Cmd => 5 end)
    (λ n, match n with 0 => Some Sh | 1 => Some Bash | 2 => Some Zsh | 3 => Some Pwsh
          | 4 => Some Powershell | 5 => Some Cmd | _ => None end) _).
  by intros [].
Defined.
#[local] Instance WorkerSpec_eq_dec : EqDecision WorkerSpec.
Proof. solve_decision. Defined.
#[local] Instance WorkerSpec_countable : Countable WorkerSpec.
Proof.
  refine (inj_countable'
    (λ s, ((w_executor s, w_program s, w_script s, w_fixed_args s),
           (w_request_args s, w_working_directory s, w_env s, w_graceful_shutdown_seconds s)))
    (λ '((a, b, c, d), (e, f, g, h)), mkWorkerSpec a b c d e f g h) _).
  by intros [].
Defined.

#[local] Instance bit_spec_json : SpecJson := {|
  spec_to_json sp := BitText.encode sp +:+ "}";
  spec_from_json s := BitText.decode (Str.take (String.length s - 1) s)
|}.

Lemma bit_spec_laws : SpecJsonLaws.
Proof.
  split; simpl.
  - intros sp. rewrite Str.length_app. simpl.
    replace (String.length (BitText.encode sp) + 1 - 1)%nat with (String.length (BitText.encode sp)) by lia.
    rewrite Str.take_app. apply BitText.decode_encode.
  - intros sp. rewrite Str.contains_app. unfold BitText.encode.
    rewrite BitText.of_pos_contains by (intros Hin; set_solver). done.
  - eauto.
Qed.
#[local] Existing Instances bit_spec_laws Toy.regex.

Lemma worker_runs_request_witness :
  ∃ sp, read_spec (initial_message (spec_of Toy.resolved_route ["two words"]) +:+ "terminate") = Ok (sp, "terminate") ∧
    cmd_args (build_script_command sp) = ["/etc/run.sh"; "--fixed"; "two words"].
Proof.
  destruct (worker_runs_request Toy.resolved_route ["two words"] "terminate") as (Hr & Hc).
  eexists. split; [exact Hr|]. by rewrite Hc.
Defined.

(** A script that is polled once while it runs and then ends with [st]. *)
Definition worker_with (st : ExitStatus) : WorkerRun :=
  mkWorkerRun None (initial_message (spec_of Toy.resolved_route [])) None
    [mkPoll false None (Ok None) 0 0; mkPoll false None (Ok (Some st)) 5 5] [EINTR; StillAlive; Reaped; ECHILD].

Lemma worker_with_completes windows st : completes windows (worker_with st) st.
Proof.
  split_and!; try done; [|by destruct windows]. eexists _, EmptyString. split; [vm_compute; reflexivity|done].
Defined.

Lemma script_exit_reported_witness :
  ∃ ws, worker_status false (worker_with (mkExitStatus (Some 3))) = Some ws ∧ code ws = Some 3.
Proof.
  destruct (script_exit_reported false (worker_with (mkExitStatus (Some 3))) (mkExitStatus (Some 3))) as (ws & Hs & Hc & _);
    [apply worker_with_completes|by intros c [= <-]|]. exists ws. by split.
Defined.

(** A script that ignores its request to stop for the whole grace period. *)
Lemma worker_stop_terminates_witness :
  (poll_loop 1 None ([mkPoll false None (Ok None) 0 0] ++ mkPoll true None (Ok None) NAP NAP ::
     ((λ i, mkPoll true None (Ok None) (Z.of_nat i * NAP) (Z.of_nat i * NAP)) <$> seq 2 20))).1 ≠ Polling.
Proof.
  apply (worker_stop_terminates 1 0); [|reflexivity|simpl; lia].
  cbv [spaced app fmap list_fmap seq now later NAP]. repeat split; lia.
Defined.

(** STATUS_ACCESS_VIOLATION, 0xC0000005 as an [i32]. *)
Lemma negative_exit_succeeds_witness :
  ∃ ws, worker_status true (worker_with (mkExitStatus (Some (-1073741819)))) = Some ws ∧
    final_status None ws = Succeeded.
Proof.
  apply (negative_exit_succeeds true _ (mkExitStatus (Some (-1073741819))) (-1073741819));
    [apply worker_with_completes|reflexivity|reflexivity].
Defined.

End WorkerToy.
