(* ===== verification/App.v ===== *)
(** * The HTTP application (src/src/app.rs)

    [AppState] with the semaphores, the table of failed authentications, the
    management channel and the task store; the authentication middleware; one
    function per handler. The router, the extractors and the JSON layer belong
    to axum: a handler starts from the values they hand over.

    A handler runs on a multi-threaded runtime, so [execute] is also cut at its
    semaphore operations and the whole application is a transition system
    ([app_step]): permits of requests in flight and of running tasks are
    accounted for under every interleaving. *)

From S2P Require Import Prelude RustStd Model Secret Disk Journal Store Config Capture Process.
Local Open Scope string_scope.
Local Open Scope list_scope.
Local Open Scope Z_scope.

(** [std::collections::HashMap] iterates in an unspecified order. *)
Class MapOrder := map_iter : gmap Net.IpAddr Z → list (Net.IpAddr * Z).
Class MapOrderLaws `{MapOrder} : Prop :=
  map_iter_perm : ∀ m, map_iter m ≡ₚ map_to_list m.

(** The text of a configuration error chain ([{error:#}]), which includes
    operating system texts. *)
Class ErrorText := describe : ConfigError → string.

(** ** Counting semaphores: the available permits *)

Definition MAX_PERMITS : Z := Z.shiftr U64_MAX 3.

(** [Semaphore::new] panics beyond [MAX_PERMITS]. *)
Definition Semaphore_new (n : Z) : option Z := if n <=? MAX_PERMITS then Some n else None.

Definition try_acquire (available : Z) : option Z := if 0 <? available then Some (available - 1) else None.
Definition release (available : Z) : Z := available + 1.

Section state.
Context `{RegexLib, IpNetLib, HostLib}.

Inductive ManagementAction := AStop | ARestart (config : ResolvedConfig).

(** The sender's view of [mpsc::channel(1)]. *)
Record Channel := mkChannel { queue : list ManagementAction; receiver_open : bool }.

Definition try_send (a : ManagementAction) (c : Channel) : option Channel :=
  if receiver_open c && (length (queue c) <? 1)%nat then Some (mkChannel (queue c ++ [a]) true) else None.

Record RouteRuntime := mkRouteRuntime { config : ResolvedRoute; limit : Z }.

Record AppState := mkAppState {
  token : TokenVerifier;
  app_cidrs : list IpNet;
  app_cooldown : TokenFailureCooldownConfig;
  auth_failures : gmap Net.IpAddr Z;
  global_limit : Z;
  app_routes : gmap string RouteRuntime;
  management : Channel;
  lifecycle_state : Z;
  config_path : string;
  logging_directory : string;
  app_host : host;
  app_sys : Sys
}.

Definition set_token v (s : AppState) : AppState :=
  mkAppState v (app_cidrs s) (app_cooldown s) (auth_failures s) (global_limit s) (app_routes s)
    (management s) (lifecycle_state s) (config_path s) (logging_directory s) (app_host s) (app_sys s).
Definition set_failures v (s : AppState) : AppState :=
  mkAppState (token s) (app_cidrs s) (app_cooldown s) v (global_limit s) (app_routes s)
    (management s) (lifecycle_state s) (config_path s) (logging_directory s) (app_host s) (app_sys s).
Definition set_limits g rs (s : AppState) : AppState :=
  mkAppState (token s) (app_cidrs s) (app_cooldown s) (auth_failures s) g rs
    (management s) (lifecycle_state s) (config_path s) (logging_directory s) (app_host s) (app_sys s).
Definition set_lifecycle m l (s : AppState) : AppState :=
  mkAppState (token s) (app_cidrs s) (app_cooldown s) (auth_failures s) (global_limit s) (app_routes s)
    m l (config_path s) (logging_directory s) (app_host s) (app_sys s).
Definition set_host h (s : AppState) : AppState :=
  mkAppState (token s) (app_cidrs s) (app_cooldown s) (auth_failures s) (global_limit s) (app_routes s)
    (management s) (lifecycle_state s) (config_path s) (logging_directory s) h (app_sys s).
Definition set_sys v (s : AppState) : AppState :=
  mkAppState (token s) (app_cidrs s) (app_cooldown s) (auth_failures s) (global_limit s) (app_routes s)
    (management s) (lifecycle_state s) (config_path s) (logging_directory s) (app_host s) v.

(** ** [build] *)

Fixpoint build_routes (rs : list ResolvedRoute) (m : gmap string RouteRuntime)
    : option (gmap string RouteRuntime) :=
  match rs with
  | [] => Some m
  | r :: rs =>
      l ← Semaphore_new (max_concurrency r);
      build_routes rs (<[path r := mkRouteRuntime r l]> m)
  end.

(** The state of the application, [None] for a panic. *)
Definition build_state (c : ResolvedConfig) (h : host) (sys : Sys) : option AppState :=
  rs ← build_routes (routes c) ∅;
  g ← Semaphore_new (max_total_concurrency (execution c));
  Some (mkAppState (auth_token c) (allowed_cidrs (access c)) (token_failure_cooldown (access c)) ∅ g rs
          (mkChannel [] true) 0 (source_path c) (directory (logging c)) h sys).

Inductive Method := GET | POST.

Definition system_routes : list (Method * string) :=
  [(GET, "/"); (GET, "/healthz"); (GET, "/tasks/{task_id}"); (GET, "/tasks/{task_id}/output");
   (POST, "/tasks/{task_id}/cancel"); (POST, "/tasks/{task_id}/kill");
   (POST, "/system/stop"); (POST, "/system/restart")].

(** The routes registered with the router. *)
Definition route_table (s : AppState) : list (Method * string) :=
  system_routes ++ ((λ r, (POST, path (config r.2))) <$> map_to_list (app_routes s)).
End state.

(** ** Authentication *)

Section authentication.
Context `{RegexLib, IpNetLib, HostLib, CryptoLib, MapOrder}.

(** What the middleware reads of a request: the peer of the TCP connection
    and the [Authorization] header, when it is printable text. *)
Record Request := mkRequest { peer : option Net.IpAddr; authorization : option string }.

(** A handler answers or panics. *)
Inductive Answer := Reply (r : Response) | Panic.

Definition bearer (req : Request) : option string := authorization req ≫= Str.strip_prefix "Bearer ".

(** The remaining seconds, rounded up. *)
Definition ceil_secs (remaining : Z) : Z :=
  remaining / Instants.NANOS + (if 0 <? remaining mod Instants.NANOS then 1 else 0).

Definition cooldown_remaining (now : Z) (ip : Net.IpAddr) (s : AppState) : option Z * AppState :=
  if negb (enabled (app_cooldown s)) then (None, s)
  else match auth_failures s !! ip with
       | Some until =>
           if now <? until then (Some (ceil_secs (until - now)), s)
           else (None, set_failures (delete ip (auth_failures s)) s)
       | None => (None, s)
       end.

(** [Iterator::min_by_key]: the first of the least. *)
Fixpoint min_by_key (l : list (Net.IpAddr * Z)) : option (Net.IpAddr * Z) :=
  match l with
  | [] => None
  | e :: l =>
      match min_by_key l with
      | None => Some e
      | Some e' => if e.2 <=? e'.2 then Some e else Some e'
      end
  end.

(** Make room for one more address. *)
Definition evict (max : Z) (failures : gmap Net.IpAddr Z) : gmap Net.IpAddr Z :=
  if max <=? Z.of_nat (size failures) then
    match min_by_key (map_iter failures) with
    | Some (oldest, _) => delete oldest failures
    | None => failures
    end
  else failures.

(** [false]: the instant overflows and the thread panics, after the table
    has been pruned. *)
Definition record_auth_failure (now : Z) (ip : Net.IpAddr) (s : AppState) : bool * AppState :=
  if negb (enabled (app_cooldown s)) then (true, s)
  else
    let live := filter (λ e : Net.IpAddr * Z, now < e.2) (auth_failures s) in
    let kept := evict (max_tracked_ips (app_cooldown s)) live in
    match Instants.add_secs now (seconds (app_cooldown s)) with
    | Some until => (true, set_failures (<[ip := until]> kept) s)
    | None => (false, set_failures kept s)
    end.

Definition no_source : Response :=
  into_response (ApiError_new FORBIDDEN "source_ip_unavailable" "无法确定可信 TCP 来源地址").
Definition source_denied : Response :=
  into_response (ApiError_new FORBIDDEN "source_ip_denied" "来源 IP 不在允许的 CIDR 中").

Definition with_header (k v : string) (r : Response) : Response :=
  mkResponse (r_status r) (r_headers r ++ [(k, v)]) (r_body r).

Definition cooling_down (retry_after : Z) : Response :=
  with_header "retry-after" (pretty retry_after)
    (into_response (ApiError_new TOO_MANY_REQUESTS "token_failure_cooldown" "该来源 IP 在 Token 校验失败冷却期内")).
Definition unauthorized : Response :=
  with_header "www-authenticate" "Bearer"
    (into_response (ApiError_new UNAUTHORIZED "unauthorized" "缺少或使用了无效的 Bearer Token")).

(** [state.token.verify(&token).await], [false] without a token. *)
Definition authorized (req : Request) (s : AppState) : bool * AppState :=
  match bearer req with
  | Some t => let '(b, v) := verify (token s) t in (b, set_token v s)
  | None => (false, s)
  end.

(** The middleware around every endpoint; [later] is the instant at which a
    failed verification is recorded. *)
Definition authenticate (now later : Z) (req : Request) (next : AppState → Answer * AppState) (s : AppState)
    : Answer * AppState :=
  match normalize_ip <$> peer req with
  | None => (Reply no_source, s)
  | Some ip =>
      if negb (existsb (λ cidr, net_contains cidr ip) (app_cidrs s)) then (Reply source_denied, s)
      else match cooldown_remaining now ip s with
           | (Some retry_after, s) => (Reply (cooling_down retry_after), s)
           | (None, s) =>
               match authorized req s with
               | (true, s) => next s
               | (false, s) =>
                   let '(fine, s) := record_auth_failure later ip s in
                   (if fine then Reply unauthorized else Panic, s)
               end
           end
  end.
End authentication.

(** ** Handlers *)

Section handlers.
Context `{RegexLib, IpNetLib, HostLib, CryptoLib, DpapiLib, SnapshotJson, TimeLib, UuidLib, EncodingLib, ErrorText}.

Definition message (status : Z) (text : string) : Response := mkResponse status [] (BMessage true text).

Definition index : Response :=
  mkResponse OK [] (BIndex true (mkIndexData "command-api" "通过受控 HTTP API 异步执行预配置脚本"
    "https://github.com/loveyu/command-api")).
Definition healthz : Response := message OK "ok".
Definition not_found : ApiError := ApiError_new NOT_FOUND "not_found" "接口不存在".
Definition fallback : Response := into_response not_found.

(** A handler's [Result] as a response. *)
Definition respond {A} (f : A → Response) (r : result ApiError A) : Response :=
  match r with Ok a => f a | Err e => into_response e end.

(** *** [execute] *)

Definition invalid_arguments (e : ArgsError) : ApiError :=
  ApiError_new BAD_REQUEST "invalid_arguments" (ArgsError_to_string e).
Definition global_limit_reached : ApiError :=
  ApiError_new TOO_MANY_REQUESTS "global_concurrency_limit" "已达到全局并发上限".
Definition route_limit_reached (r : ResolvedRoute) : ApiError :=
  ApiError_new TOO_MANY_REQUESTS "route_concurrency_limit"
    ("路由 " +:+ path r +:+ " 已达到并发上限 " +:+ pretty (max_concurrency r)).
Definition create_failed (e : StoreError) : ApiError :=
  ApiError_new INTERNAL_SERVER_ERROR "task_create_failed" (StoreError_to_string e).

(** [state.global_limit.clone().try_acquire_owned()]. *)
Definition acquire_global (s : AppState) : result ApiError AppState :=
  match try_acquire (global_limit s) with
  | Some g => Ok (set_limits g (app_routes s) s)
  | None => Err global_limit_reached
  end.

Definition release_global (s : AppState) : AppState :=
  set_limits (release (global_limit s)) (app_routes s) s.

(** [route.limit.clone().try_acquire_owned()], on the route registered at [p]. *)
Definition acquire_route (p : string) (s : AppState) : result ApiError AppState :=
  match app_routes s !! p with
  | None => Err not_found
  | Some rt =>
      match try_acquire (limit rt) with
      | Some l => Ok (set_limits (global_limit s) (<[p := mkRouteRuntime (config rt) l]> (app_routes s)) s)
      | None => Err (route_limit_reached (config rt))
      end
  end.

Definition release_route (p : string) (s : AppState) : AppState :=
  set_limits (global_limit s)
    (alter (λ rt, mkRouteRuntime (config rt) (release (limit rt))) p (app_routes s)) s.

Definition accepted (i : Uuid) : AcceptedTask :=
  mkAcceptedTask true i Starting ("/tasks/" +:+ uuid_to_string i).

(** The part of [execute] after both permits are held. The task keeps them
    when it is created ([start_task] gets them), an error drops them. *)
Definition create_task (i : Uuid) (now : Z) (p : string) (r : ResolvedRoute) (s : AppState)
    : result ApiError AcceptedTask * AppState :=
  match create i now (path r) (route_mode r) (r_output_encoding r) (app_sys s) with
  | (Ok _, sys) => (Ok (accepted i), set_sys sys s)
  | (Err e, sys) => (Err (create_failed e), release_global (release_route p (set_sys sys s)))
  end.

(** [execute] without interleaving, for the route registered at [p]; the new
    task's identifier and the time are given. [Ok] means that [start_task]
    was called with [args]. A path that is not registered never gets here:
    the router answers with [fallback]. *)
Definition execute (i : Uuid) (now : Z) (p : string) (args : list string)
    (s : AppState) : result ApiError AcceptedTask * AppState :=
  match app_routes s !! p with
  | None => (Err not_found, s)
  | Some rt =>
      match validate_request_args (config rt) args with
      | Err e => (Err (invalid_arguments e), s)
      | Ok _ =>
          match acquire_global s with
          | Err e => (Err e, s)
          | Ok s =>
              match acquire_route p s with
              | Err e => (Err e, release_global s)
              | Ok s => create_task i now p (config rt) s
              end
          end
      end
  end.

Definition execute_response (r : result ApiError AcceptedTask) : Response :=
  respond (λ a, mkResponse ACCEPTED [] (BAccepted a)) r.

(** *** Tasks *)

Definition task_not_found : ApiError := ApiError_new NOT_FOUND "task_not_found" "任务不存在或已经过期".

Definition get_task (now : Z) (i : Uuid) (s : AppState) : result ApiError TaskView :=
  ok_or task_not_found (view now i (store (app_sys s))).

Definition get_output (i : Uuid) (q : OutputQuery) (s : AppState) : result ApiError OutputChunk * AppState :=
  match get i (store (app_sys s)) with
  | None => (Err task_not_found, s)
  | Some _ =>
      let '(r, sys) := output_chunk i (q_stream q) (q_offset q) (q_limit q) (app_sys s) in
      (map_err (λ e, ApiError_new BAD_REQUEST "invalid_output_query" (StoreError_to_string e)) r,
       set_sys sys s)
  end.

(** [cancel_task] and [kill_task] differ in the reason and the texts. *)
Definition stop_task (why : StopReason) (finished accepted : string) (i : Uuid) (s : AppState)
    : result ApiError string * AppState :=
  match get i (store (app_sys s)) with
  | None => (Err task_not_found, s)
  | Some _ =>
      let '(stopping, st) := request_stop i why (store (app_sys s)) in
      let s := set_sys (mkSys st (world (app_sys s))) s in
      if stopping then (Ok accepted, s) else (Err (ApiError_new CONFLICT "task_finished" finished), s)
  end.

Definition cancel_task : Uuid → AppState → result ApiError string * AppState :=
  stop_task RCancelled "任务已经结束，无法取消" "已请求任务平滑退出".
Definition kill_task : Uuid → AppState → result ApiError string * AppState :=
  stop_task RForceKilled "任务已经结束，无法强制终止" "已请求立即强制终止整个任务进程树".

(** *** Management *)

Definition transition_in_progress : ApiError :=
  ApiError_new CONFLICT "service_transition_in_progress" "服务停止或重启操作已经开始".
Definition control_unavailable : ApiError :=
  ApiError_new SERVICE_UNAVAILABLE "service_control_unavailable" "服务管理通道不可用".

Definition request_management_action (a : ManagementAction) (s : AppState) : result ApiError unit * AppState :=
  if bool_decide (lifecycle_state s = 0) then
    match try_send a (management s) with
    | Some ch => (Ok tt, set_lifecycle ch 1 s)
    | None => (Err control_unavailable, set_lifecycle (management s) 0 s)
    end
  else (Err transition_in_progress, s).

Definition stop_service (s : AppState) : result ApiError string * AppState :=
  let '(r, s) := request_management_action AStop s in
  (_ ← r; Ok "已接受服务停止请求", s).

Definition restart_config_invalid (e : ConfigError) : ApiError :=
  ApiError_new CONFLICT "restart_config_invalid" ("重新加载配置失败，服务保持运行: " +:+ describe e).
Definition log_directory_changed : ApiError :=
  ApiError_new CONFLICT "restart_log_directory_changed"
    "运行时重启不允许修改 logging.directory；请先停止服务，再通过外部管理器启动".

Definition restart_service (windows : bool) (from_yaml : string → option Config) (s : AppState)
    : result ApiError string * AppState :=
  let '(loaded, h) := load windows from_yaml (app_host s) (config_path s) in
  let s := set_host h s in
  match loaded with
  | Err e => (Err (restart_config_invalid e), s)
  | Ok c =>
      if negb (bool_decide (directory (logging c) = logging_directory s)) then
        (Err log_directory_changed, s)
      else
        let '(r, s) := request_management_action (ARestart c) s in
        (_ ← r; Ok "已接受服务重启请求，将使用重新加载的配置恢复服务", s)
  end.
End handlers.

(** ** The authentication theorems *)

Section authentication_facts.
Context `{RegexLib, IpNetLib, HostLib, CryptoLib, MapOrder}.

(** Everything but the token cache and the table of failures is the same. *)
Definition same_service (s s' : AppState) : Prop :=
  s' = set_token (token s') (set_failures (auth_failures s') s).

Lemma cooldown_remaining_same now ip s r s' :
  cooldown_remaining now ip s = (r, s') → token s' = token s ∧ same_service s s'.
Proof.
  unfold cooldown_remaining. intros Hc. destruct s, enabled; simplify_eq/=; [|done].
  destruct (auth_failures0 !! ip); [|by simplify_eq]. destruct (_ <? _); by simplify_eq.
Qed.

Lemma same_service_trans s1 s2 s3 : same_service s1 s2 → same_service s2 s3 → same_service s1 s3.
Proof. unfold same_service. intros H12 H23. rewrite H23, H12. done. Qed.

Lemma same_service_refl s : same_service s s.
Proof. by destruct s. Qed.

Lemma authorized_same req s b s' : authorized req s = (b, s') → same_service s s'.
Proof.
  unfold authorized. destruct (bearer req); [|intros; simplify_eq; apply same_service_refl].
  destruct (verify _ _). intros; simplify_eq. by destruct s.
Qed.

Lemma record_auth_failure_same now ip s b s' :
  record_auth_failure now ip s = (b, s') → same_service s s'.
Proof.
  unfold record_auth_failure. destruct (negb _); [intros; simplify_eq; apply same_service_refl|].
  destruct (Instants.add_secs _ _); intros; simplify_eq; by destruct s.
Qed.

(** A request the middleware lets through. *)
Definition admitted (now : Z) (req : Request) (s : AppState) : Prop :=
  ∃ ip t, normalize_ip <$> peer req = Some ip ∧
    existsb (λ cidr, net_contains cidr ip) (app_cidrs s) = true ∧
    (enabled (app_cooldown s) = true → ∀ until, auth_failures s !! ip = Some until → until ≤ now) ∧
    bearer req = Some t ∧ (verify (token s) t).1 = true.

Lemma cooldown_remaining_None now ip s s' :
  cooldown_remaining now ip s = (None, s') ↔
  (s' = set_failures (auth_failures s') s ∧
   (enabled (app_cooldown s) = true → ∀ until, auth_failures s !! ip = Some until → until ≤ now) ∧
   auth_failures s' = if enabled (app_cooldown s) then
     match auth_failures s !! ip with Some _ => delete ip (auth_failures s) | None => auth_failures s end
     else auth_failures s).
Proof.
  unfold cooldown_remaining. destruct (enabled (app_cooldown s)) eqn:He; simpl.
  - destruct (auth_failures s !! ip) as [until|] eqn:Hl.
    + destruct (now <? until) eqn:Hn; breflect.
      * split; [done|]. intros (_ & Hu & _). specialize (Hu eq_refl _ eq_refl). lia.
      * split; [intros [= <-]; split_and!; [done|by intros _ ? [= <-]|done]|].
        intros (Hs & _ & Ha). by rewrite Hs, Ha.
    + split; [intros [= <-]; split_and!; [by destruct s|done|done]|].
      intros (Hs & _ & Ha). rewrite Hs, Ha. by destruct s.
  - split; [intros [= <-]; split_and!; [by destruct s|done|done]|].
    intros (Hs & _ & Ha). rewrite Hs, Ha. by destruct s.
Qed.

Lemma authorized_spec req s :
  (authorized req s).1 = true ↔ ∃ t, bearer req = Some t ∧ (verify (token s) t).1 = true.
Proof.
  unfold authorized. destruct (bearer req) as [t|]; [|naive_solver].
  destruct (verify (token s) t) as [b v] eqn:Hv. simpl. split; [intros ->; exists t; by rewrite Hv|].
  intros (t' & [= <-] & Ht). by rewrite Hv in Ht.
Qed.

Definition refused (a : Answer) : Prop :=
  a = Panic ∨ ∃ r, a = Reply r ∧ r_status r ∈ [UNAUTHORIZED; FORBIDDEN; TOO_MANY_REQUESTS].

(** C1: the middleware guards every endpoint. A request reaches its handler
    exactly when its peer address, normalised, is in an allowed network, is
    not cooling down after a failure, and it carries a bearer token the
    verifier accepts. Any other request is answered with 401, 403 or 429 (or
    dies in a panic) whatever the handler is, and changes nothing but the
    verifier's cache and the table of failures: no permit, task, route or
    management state. *)
Theorem authenticate_gate now later req next s :
  (admitted now req s ∧ ∃ s1, same_service s s1 ∧ authenticate now later req next s = next s1) ∨
  (¬ admitted now req s ∧
   (∀ next', authenticate now later req next' s = authenticate now later req next s) ∧
   refused (authenticate now later req next s).1 ∧ same_service s (authenticate now later req next s).2).
Proof.
  unfold authenticate. destruct (normalize_ip <$> peer req) as [ip|] eqn:Hip.
  2: { right. split_and!; [by intros (? & ? & ? & _); simplify_eq|done| |apply same_service_refl].
       right. eexists. split; [done|]. set_solver. }
  destruct (existsb _ (app_cidrs s)) eqn:Hc; simpl.
  2: { right. split_and!; [intros (? & ? & ? & ? & _); simplify_eq; congruence|done| |apply same_service_refl].
       right. eexists. split; [done|]. set_solver. }
  destruct (cooldown_remaining now ip s) as [[n|] s1] eqn:Hr.
  { right. pose proof (cooldown_remaining_same _ _ _ _ _ Hr) as [_ ?].
    split_and!; [|done|right; eexists; split; [done|]; set_solver|done].
    intros (ip' & t & ? & _ & Hu & _). simplify_eq.
    unfold cooldown_remaining in Hr. destruct (enabled (app_cooldown s)); [|done].
    destruct (auth_failures s !! ip) as [u|]; [|done]. specialize (Hu eq_refl _ eq_refl).
    destruct (now <? u) eqn:Hn; breflect; [lia|done]. }
  pose proof (cooldown_remaining_same _ _ _ _ _ Hr) as [Ht Hs1].
  apply cooldown_remaining_None in Hr as (_ & Hu & _).
  pose proof (authorized_spec req s1) as Ha. rewrite Ht in Ha.
  destruct (authorized req s1) as [b s2] eqn:Haz. pose proof (authorized_same _ _ _ _ Haz) as Hs2.
  pose proof (same_service_trans _ _ _ Hs1 Hs2) as H12. destruct b; simpl in *.
  - left. split; [|by exists s2]. destruct (proj1 Ha eq_refl) as (t & ? & ?). by exists ip, t.
  - right. destruct (record_auth_failure later ip s2) as [fine s3] eqn:Hf. split_and!.
    + intros (ip' & t & ? & _ & _ & ? & ?). assert (false = true); [|done]. apply Ha. eauto.
    + done.
    + destruct fine; [right|by left]. eexists. split; [done|]. set_solver.
    + eapply same_service_trans; [exact H12|]. by eapply record_auth_failure_same.
Qed.

Lemma ceil_secs_spec r n : 0 < r ≤ n * Instants.NANOS →
  1 ≤ ceil_secs r ≤ n ∧ (ceil_secs r - 1) * Instants.NANOS < r ≤ ceil_secs r * Instants.NANOS.
Proof.
  unfold ceil_secs, Instants.NANOS. intros Hr.
  pose proof (Z.div_mod r 1000000000). pose proof (Z.mod_pos_bound r 1000000000).
  destruct (0 <? r mod 1000000000) eqn:Hm; breflect; lia.
Qed.

(** After a failed verification, every request from the same address
    within the cooldown is answered with 429, its token is not even looked at
    and no state changes; [Retry-After] is the remaining time rounded up to
    whole seconds, at least 1 and at most the configured cooldown. *)
Theorem cooldown_enforced t0 t later req ip next s s1 :
  enabled (app_cooldown s) = true →
  normalize_ip <$> peer req = Some ip →
  existsb (λ cidr, net_contains cidr ip) (app_cidrs s) = true →
  record_auth_failure t0 ip s = (true, s1) →
  t0 ≤ t < t0 + seconds (app_cooldown s) * Instants.NANOS →
  ∃ n, authenticate t later req next s1 = (Reply (cooling_down n), s1) ∧
    1 ≤ n ≤ seconds (app_cooldown s) ∧
    (n - 1) * Instants.NANOS < t0 + seconds (app_cooldown s) * Instants.NANOS - t ≤ n * Instants.NANOS.
Proof.
  intros He Hip Hc Hr Ht. unfold record_auth_failure in Hr. rewrite He in Hr. simpl in Hr.
  destruct (Instants.add_secs t0 _) as [u|] eqn:Hu; [|done]. simplify_eq.
  unfold Instants.add_secs in Hu. destruct (_ <=? _); [|done]. injection Hu as <-.
  eexists. split; [|apply ceil_secs_spec; lia].
  unfold authenticate. rewrite Hip. simpl. rewrite Hc. simpl.
  unfold cooldown_remaining. simpl. rewrite He. simpl. rewrite lookup_insert_eq.
  by rewrite (proj2 (Z.ltb_lt t _)) by lia.
Qed.

(** A cooldown too long for the monotonic clock makes every failed
    request panic before its failure is recorded: the limit on guessing is
    then not in force at all. *)
Theorem cooldown_overflow_unrecorded now later req next s s2 ip t :
  enabled (app_cooldown s) = true →
  normalize_ip <$> peer req = Some ip →
  existsb (λ cidr, net_contains cidr ip) (app_cidrs s) = true →
  auth_failures s = ∅ → bearer req = Some t → verify (token s) t = (false, s2) →
  Instants.add_secs later (seconds (app_cooldown s)) = None →
  (authenticate now later req next s).1 = Panic ∧
  auth_failures (authenticate now later req next s).2 = ∅.
Proof.
  intros He Hip Hc Hf Hb Hv Ha. unfold authenticate. rewrite Hip, Hc. simpl.
  unfold cooldown_remaining. rewrite He, Hf, lookup_empty. simpl.
  unfold authorized. rewrite Hb, Hv. unfold record_auth_failure. simpl. rewrite He, Hf. simpl. rewrite Ha.
  split; [done|]. simpl. rewrite map_filter_empty. unfold evict.
  destruct (_ <=? _); [|done]. destruct (min_by_key _) as [[k v]|]; [|done]. apply delete_empty.
Qed.
End authentication_facts.

(** ** The table of failures *)

Section failure_table.
Context `{RegexLib, IpNetLib, HostLib, CryptoLib, MapOrderLaws}.

Lemma min_by_key_spec l e : min_by_key l = Some e → e ∈ l ∧ ∀ e', e' ∈ l → e.2 ≤ e'.2.
Proof.
  revert e. induction l as [|a l IH]; intros e; simpl; [done|].
  destruct (min_by_key l) as [b|] eqn:Hm.
  - destruct (IH b eq_refl) as [Hb Hl]. destruct (a.2 <=? b.2) eqn:Hab; breflect; intros [= <-].
    + split; [by left|]. intros e' [->|He']%elem_of_cons; [lia|]. specialize (Hl _ He'). lia.
    + split; [by right|]. intros e' [->|He']%elem_of_cons; [lia|by apply Hl].
  - intros [= <-]. destruct l as [|c l]; simpl in Hm; [|by destruct (min_by_key l); [destruct (_ <=? _)|]].
    split; [by left|]. by intros e' ->%list_elem_of_singleton.
Qed.

Lemma min_by_key_None l : min_by_key l = None → l = [].
Proof. destruct l; [done|]. simpl. by destruct (min_by_key l); [destruct (_ <=? _)|]. Qed.

(** Room for one more, at the cost of at most one entry: the oldest. *)
Lemma evict_spec max m :
  1 ≤ max → Z.of_nat (size m) ≤ max →
  Z.of_nat (size (evict max m)) < max ∧ evict max m ⊆ m ∧
  ∀ ip u, m !! ip = Some u → evict max m !! ip = None →
    max ≤ Z.of_nat (size m) ∧ ∀ ip' u', m !! ip' = Some u' → u ≤ u'.
Proof.
  intros Hmax Hsize. unfold evict. destruct (max <=? Z.of_nat (size m)) eqn:Hfull; breflect.
  2: { split_and!; [done|done|]. intros ip u Hm Hn. congruence. }
  destruct (min_by_key (map_iter m)) as [[old v]|] eqn:Hmin.
  - apply min_by_key_spec in Hmin as [Hin Hle]. setoid_rewrite map_iter_perm in Hin.
    setoid_rewrite map_iter_perm in Hle. apply elem_of_map_to_list in Hin. split_and!.
    + rewrite map_size_delete_Some by (by eexists). lia.
    + apply delete_subseteq.
    + intros ip u Hm Hn. split; [done|]. intros ip' u' Hm'.
      destruct (decide (ip = old)) as [->|]; [|rewrite lookup_delete_ne in Hn by done; congruence].
      simplify_eq. apply (Hle (ip', u')). by apply elem_of_map_to_list.
  - apply min_by_key_None in Hmin. pose proof (map_iter_perm m) as Hp. rewrite Hmin in Hp.
    apply Permutation_nil_l, symmetry, map_to_list_empty_iff in Hp. subst. rewrite map_size_empty in Hfull. lia.
Qed.

(** Recording a failure keeps the table within [max_tracked_ips], starts
    the cooldown of the offending address, and loses no other running
    cooldown except, when the table is full, one that ends first. *)
Theorem record_auth_failure_spec now ip s s' :
  enabled (app_cooldown s) = true → 1 ≤ max_tracked_ips (app_cooldown s) →
  Z.of_nat (size (auth_failures s)) ≤ max_tracked_ips (app_cooldown s) →
  record_auth_failure now ip s = (true, s') →
  Z.of_nat (size (auth_failures s')) ≤ max_tracked_ips (app_cooldown s) ∧
  auth_failures s' !! ip = Some (now + seconds (app_cooldown s) * Instants.NANOS) ∧
  ∀ ip' u, ip' ≠ ip → auth_failures s !! ip' = Some u → now < u →
    auth_failures s' !! ip' = Some u ∨
    (max_tracked_ips (app_cooldown s) ≤ Z.of_nat (size (auth_failures s)) ∧
     ∀ ip'' u', auth_failures s !! ip'' = Some u' → now < u' → u ≤ u').
Proof.
  intros He Hmax Hsize Hr. unfold record_auth_failure in Hr. rewrite He in Hr. simpl in Hr.
  destruct (Instants.add_secs now _) as [t|] eqn:Ht; [|done]. simplify_eq. simpl.
  unfold Instants.add_secs in Ht. destruct (_ <=? _); [|done]. injection Ht as <-.
  set (live := filter _ (auth_failures s)).
  assert (size live ≤ size (auth_failures s))%nat as Hlive by apply map_subseteq_size, map_filter_subseteq.
  destruct (evict_spec (max_tracked_ips (app_cooldown s)) live) as (Hsz & Hsub & Hev); [done|lia|].
  split_and!.
  - rewrite map_size_insert. destruct (evict _ live !! ip); unfold Datatypes.id; lia.
  - apply lookup_insert_eq.
  - intros ip' u Hne Hl Hu. rewrite lookup_insert_ne by done.
    assert (live !! ip' = Some u) as Hin by by apply map_lookup_filter_Some.
    destruct (evict _ live !! ip') as [u'|] eqn:Hk.
    + left. pose proof (lookup_weaken _ _ _ _ Hk Hsub). congruence.
    + right. destruct (Hev _ _ Hin Hk) as [Hf Hmin]. split; [lia|]. intros ip'' u' Hl' Hu'.
      apply (Hmin ip''). by apply map_lookup_filter_Some.
Qed.
End failure_table.

(** ** Concurrent requests and the permits *)

Section concurrency.
Context `{RegexLib, IpNetLib, HostLib, CryptoLib, SnapshotJson, TimeLib, UuidLib}.

(** An [execute] in flight, by the permits it holds. *)
Inductive Flight :=
| GotGlobal (p : string) (args : list string)
| GotBoth (p : string) (args : list string).

(** A task that holds its permits: identifier, route and arguments. *)
Record Task := mkTask { t_id : Uuid; t_path : string; t_args : list string }.

Record App := mkApp { state : AppState; flights : list Flight; running : list Task }.

(** One step of any request or task. *)
Inductive app_step : App → App → Prop :=
| step_begin s s' fs ts p rt args :
    app_routes s !! p = Some rt → validate_request_args (config rt) args = Ok tt →
    acquire_global s = Ok s' →
    app_step (mkApp s fs ts) (mkApp s' (GotGlobal p args :: fs) ts)
| step_route_ok s s' f1 f2 ts p args :
    acquire_route p s = Ok s' →
    app_step (mkApp s (f1 ++ GotGlobal p args :: f2) ts) (mkApp s' (f1 ++ GotBoth p args :: f2) ts)
| step_route_full s e f1 f2 ts p args :
    acquire_route p s = Err e →
    app_step (mkApp s (f1 ++ GotGlobal p args :: f2) ts) (mkApp (release_global s) (f1 ++ f2) ts)
| step_created s s' f1 f2 ts p rt args i now a :
    app_routes s !! p = Some rt → create_task i now p (config rt) s = (Ok a, s') →
    app_step (mkApp s (f1 ++ GotBoth p args :: f2) ts) (mkApp s' (f1 ++ f2) (mkTask i p args :: ts))
| step_create_failed s s' f1 f2 ts p rt args i now e :
    app_routes s !! p = Some rt → create_task i now p (config rt) s = (Err e, s') →
    app_step (mkApp s (f1 ++ GotBoth p args :: f2) ts) (mkApp s' (f1 ++ f2) ts)
| step_drop_permits s fs t1 t2 t :
    app_step (mkApp s fs (t1 ++ t :: t2))
      (mkApp (release_global (release_route (t_path t) s)) fs (t1 ++ t2))
| step_other s s' fs ts :
    global_limit s' = global_limit s → app_routes s' = app_routes s →
    app_step (mkApp s fs ts) (mkApp s' fs ts).

(** Permits of the route [p]. *)
Definition flight_on (p : string) (f : Flight) : nat :=
  match f with GotBoth q _ => if decide (q = p) then 1 else 0 | GotGlobal _ _ => 0 end.
Definition task_on (p : string) (t : Task) : nat := if decide (t_path t = p) then 1 else 0.
Definition tasks_on (p : string) (ts : list Task) : nat := sum_list_with (task_on p) ts.

(** The request behind a flight or task passed the argument check of its route. *)
Definition vetted (routes : gmap string RouteRuntime) (p : string) (args : list string) : Prop :=
  ∃ rt, routes !! p = Some rt ∧ validate_request_args (config rt) args = Ok tt.
Definition flight_vetted (routes : gmap string RouteRuntime) (f : Flight) : Prop :=
  match f with GotGlobal p args | GotBoth p args => vetted routes p args end.

(** Every permit is available or held by exactly one holder. *)
Definition balanced (total : Z) (s : AppState) (fs : list Flight) (ts : list Task) : Prop :=
  0 ≤ global_limit s ∧ global_limit s + Z.of_nat (length fs) + Z.of_nat (length ts) = total ∧
  ∀ p rt, app_routes s !! p = Some rt →
    0 ≤ limit rt ∧
    limit rt + Z.of_nat (sum_list_with (flight_on p) fs) + Z.of_nat (tasks_on p ts)
      = max_concurrency (config rt).

Definition app_inv (total : Z) (cfg : gmap string ResolvedRoute) (a : App) : Prop :=
  config <$> app_routes (state a) = cfg ∧
  balanced total (state a) (flights a) (running a) ∧
  Forall (flight_vetted (app_routes (state a))) (flights a) ∧
  Forall (λ t, vetted (app_routes (state a)) (t_path t) (t_args t)) (running a).

Lemma vetted_configs rs rs' p args :
  config <$> rs = config <$> rs' → vetted rs p args → vetted rs' p args.
Proof.
  intros He (rt & Hl & Hv). assert ((config <$> rs) !! p = Some (config rt)) as Hc by by rewrite lookup_fmap, Hl.
  rewrite He, lookup_fmap_Some in Hc. destruct Hc as (rt' & Hc & Hl'). exists rt'. by rewrite Hc.
Qed.

(** The parts of the invariant that depend on the configurations only. *)
Lemma app_inv_intro total cfg s s' fs fs' ts ts' :
  app_inv total cfg (mkApp s fs ts) →
  config <$> app_routes s' = config <$> app_routes s →
  balanced total s' fs' ts' →
  Forall (flight_vetted (app_routes s)) fs' →
  Forall (λ t, vetted (app_routes s) (t_path t) (t_args t)) ts' →
  app_inv total cfg (mkApp s' fs' ts').
Proof.
  intros (Hc & _) He Hb Hf Ht. simpl in *. split_and!; simpl; [by rewrite He|done| |].
  - eapply Forall_impl; [exact Hf|]. intros []; simpl; by apply vetted_configs.
  - eapply Forall_impl; [exact Ht|]. intros t. by apply vetted_configs.
Qed.

Lemma sum_list_with_middle {A} (f : A → nat) l1 x l2 :
  sum_list_with f (l1 ++ x :: l2) = (sum_list_with f (l1 ++ l2) + f x)%nat.
Proof. rewrite !sum_list_with_app. simpl. lia. Qed.

Lemma config_alter (f : RouteRuntime → RouteRuntime) p (rs : gmap string RouteRuntime) :
  (∀ rt, config (f rt) = config rt) → config <$> alter f p rs = config <$> rs.
Proof.
  intros Hf. apply map_eq. intros q. rewrite !lookup_fmap.
  destruct (decide (q = p)) as [->|]; [|by rewrite lookup_alter_ne].
  rewrite lookup_alter_eq. destruct (rs !! p); simpl; [|done]. by rewrite Hf.
Qed.

Lemma config_insert p rt rt' (rs : gmap string RouteRuntime) :
  rs !! p = Some rt → config rt' = config rt → config <$> <[p := rt']> rs = config <$> rs.
Proof.
  intros Hl Hc. apply map_eq. intros q. rewrite !lookup_fmap.
  destruct (decide (q = p)) as [->|]; [|by rewrite lookup_insert_ne].
  rewrite lookup_insert_eq, Hl. simpl. by rewrite Hc.
Qed.

Lemma acquire_global_Ok s s' :
  acquire_global s = Ok s' →
  0 < global_limit s ∧ s' = set_limits (global_limit s - 1) (app_routes s) s.
Proof.
  unfold acquire_global, try_acquire. destruct (0 <? global_limit s) eqn:Hg; [|done].
  breflect. by intros [= <-].
Qed.

Lemma acquire_route_Ok p s s' :
  acquire_route p s = Ok s' →
  ∃ rt, app_routes s !! p = Some rt ∧ 0 < limit rt ∧
    s' = set_limits (global_limit s) (<[p := mkRouteRuntime (config rt) (limit rt - 1)]> (app_routes s)) s.
Proof.
  unfold acquire_route, try_acquire. destruct (app_routes s !! p) as [rt|]; [|done].
  destruct (0 <? limit rt) eqn:Hl; [|done]. breflect. intros [= <-]. eauto.
Qed.

(** The two permits of a holder of [p] return. *)
Lemma release_both_balanced total p s fs ts fs' ts' :
  balanced total s fs ts →
  (length fs + length ts = S (length fs' + length ts'))%nat →
  (∀ q, sum_list_with (flight_on q) fs + tasks_on q ts
        = sum_list_with (flight_on q) fs' + tasks_on q ts' + (if decide (p = q) then 1 else 0))%nat →
  balanced total (release_global (release_route p s)) fs' ts'.
Proof.
  intros (Hg & Ht & Hr) Hlen Hsum. split_and!; simpl; unfold release; [lia|lia|].
  intros q rt Hq. specialize (Hsum q). destruct (decide (p = q)) as [->|Hne].
  - rewrite lookup_alter_eq in Hq. destruct (app_routes s !! q) as [rt0|] eqn:Hq0; [|done].
    simpl in Hq. simplify_eq/=. destruct (Hr _ _ Hq0). lia.
  - rewrite lookup_alter_ne in Hq by done. destruct (Hr _ _ Hq). lia.
Qed.

Lemma balanced_ext total s s' fs ts :
  global_limit s' = global_limit s → app_routes s' = app_routes s →
  balanced total s fs ts → balanced total s' fs ts.
Proof. unfold balanced. by intros -> ->. Qed.

Lemma Forall_remove {A} (Q : A → Prop) l1 x l2 : Forall Q (l1 ++ x :: l2) → Forall Q (l1 ++ l2) ∧ Q x.
Proof. rewrite !Forall_app, Forall_cons. naive_solver. Qed.

Lemma Forall_replace {A} (Q : A → Prop) l1 x y l2 :
  (Q x → Q y) → Forall Q (l1 ++ x :: l2) → Forall Q (l1 ++ y :: l2).
Proof. rewrite !Forall_app, !Forall_cons. naive_solver. Qed.

Lemma begin_balanced total s p args fs ts :
  0 < global_limit s → balanced total s fs ts →
  balanced total (set_limits (global_limit s - 1) (app_routes s) s) (GotGlobal p args :: fs) ts.
Proof.
  intros Hg (_ & Ht & Hr). split_and!; simpl; [lia|lia|]. intros q rt Hq. by apply Hr.
Qed.

Lemma route_ok_balanced total s p rt args f1 f2 ts :
  app_routes s !! p = Some rt → 0 < limit rt →
  balanced total s (f1 ++ GotGlobal p args :: f2) ts →
  balanced total
    (set_limits (global_limit s) (<[p := mkRouteRuntime (config rt) (limit rt - 1)]> (app_routes s)) s)
    (f1 ++ GotBoth p args :: f2) ts.
Proof.
  intros Hp Hl (Hg & Ht & Hr). rewrite length_app in Ht. simpl in Ht. split_and!; simpl; [lia| |].
  { rewrite length_app. simpl. lia. }
  intros q rt' Hq. rewrite sum_list_with_middle. simpl. destruct (decide (p = q)) as [->|Hne].
  - rewrite lookup_insert_eq in Hq. simplify_eq/=. destruct (Hr _ _ Hp) as [_ Hs].
    rewrite sum_list_with_middle in Hs. simpl in Hs. lia.
  - rewrite lookup_insert_ne in Hq by done. destruct (Hr _ _ Hq) as [? Hs].
    rewrite sum_list_with_middle in Hs. simpl in Hs. lia.
Qed.

Lemma route_full_balanced total s p args f1 f2 ts :
  balanced total s (f1 ++ GotGlobal p args :: f2) ts → balanced total (release_global s) (f1 ++ f2) ts.
Proof.
  intros (Hg & Ht & Hr). rewrite length_app in Ht. simpl in Ht. split_and!; simpl; unfold release; [lia| |].
  { rewrite length_app. lia. }
  intros q rt Hq. destruct (Hr _ _ Hq) as [? Hs]. rewrite sum_list_with_middle in Hs. simpl in Hs. lia.
Qed.

Lemma created_balanced total s s' p args i f1 f2 ts :
  global_limit s' = global_limit s → app_routes s' = app_routes s →
  balanced total s (f1 ++ GotBoth p args :: f2) ts →
  balanced total s' (f1 ++ f2) (mkTask i p args :: ts).
Proof.
  intros Eg Er (Hg & Ht & Hr). rewrite length_app in Ht. simpl in Ht. unfold balanced. rewrite Eg, Er.
  split_and!; [done| |].
  { rewrite length_app. simpl. lia. }
  intros q rt Hq. destruct (Hr _ _ Hq) as [? Hs]. rewrite sum_list_with_middle in Hs. simpl in *.
  unfold task_on at 1. simpl. lia.
Qed.

Lemma create_task_Ok i now p r s a s' :
  create_task i now p r s = (Ok a, s') → ∃ sys, s' = set_sys sys s.
Proof. unfold create_task. destruct (create _ _ _ _ _ _) as [[]sys]; intros; simplify_eq; eauto. Qed.

Lemma create_task_Err i now p r s e s' :
  create_task i now p r s = (Err e, s') → ∃ sys, s' = release_global (release_route p (set_sys sys s)).
Proof. unfold create_task. destruct (create _ _ _ _ _ _) as [[]sys]; intros; simplify_eq; eauto. Qed.

Lemma app_step_inv total cfg a b : app_step a b → app_inv total cfg a → app_inv total cfg b.
Proof.
  intros Hstep Hinv. pose proof Hinv as (_ & Hb & Hf & Ht).
  destruct Hstep as [s s' fs ts p rt args Hp Hv Ha|s s' f1 f2 ts p args Ha|s e f1 f2 ts p args Ha
    |s s' f1 f2 ts p rt args i now r Hp Hc|s s' f1 f2 ts p rt args i now e Hp Hc|s fs t1 t2 t
    |s s' fs ts Eg Er]; simpl in *; (eapply app_inv_intro; [exact Hinv|..]).
  - by apply acquire_global_Ok in Ha as [_ ->].
  - apply acquire_global_Ok in Ha as [? ->]. by apply begin_balanced.
  - constructor; [|done]. by exists rt.
  - done.
  - apply acquire_route_Ok in Ha as (rt & Hl & _ & ->). by eapply config_insert.
  - apply acquire_route_Ok in Ha as (rt & Hl & ? & ->). by eapply route_ok_balanced.
  - by eapply Forall_replace; [|exact Hf].
  - done.
  - done.
  - by eapply route_full_balanced.
  - by apply Forall_remove in Hf as [? _].
  - done.
  - by apply create_task_Ok in Hc as [sys ->].
  - apply create_task_Ok in Hc as [sys ->]. by eapply created_balanced; [..|exact Hb].
  - by apply Forall_remove in Hf as [? _].
  - apply Forall_remove in Hf as [_ ?]. by constructor.
  - apply create_task_Err in Hc as [sys ->]. simpl. by apply config_alter.
  - apply create_task_Err in Hc as [sys ->].
    eapply (release_both_balanced _ p _ (f1 ++ GotBoth p args :: f2) ts);
      [by eapply balanced_ext; [..|exact Hb]|rewrite !length_app; simpl; lia|].
    intros q. rewrite sum_list_with_middle. simpl. lia.
  - by apply Forall_remove in Hf as [? _].
  - done.
  - by apply config_alter.
  - eapply release_both_balanced; [exact Hb|rewrite !length_app; simpl; lia|].
    intros q. unfold tasks_on. rewrite sum_list_with_middle. unfold task_on at 2. lia.
  - done.
  - by apply Forall_remove in Ht as [? _].
  - by rewrite Er.
  - by eapply balanced_ext; [..|exact Hb].
  - done.
  - done.
Qed.

Lemma build_routes_spec rs m m' :
  build_routes rs m = Some m' →
  ∀ p rt, m' !! p = Some rt →
    m !! p = Some rt ∨ (config rt ∈ rs ∧ path (config rt) = p ∧ limit rt = max_concurrency (config rt)).
Proof.
  revert m. induction rs as [|r rs IH]; intros m Hb p rt Hl; simpl in Hb; [simplify_eq; by left|].
  unfold Semaphore_new in Hb. destruct (_ <=? _); [|done]. simpl in Hb.
  destruct (IH _ Hb p rt Hl) as [Hm|(? & ? & ?)]; [|right; split_and!; [by right|done|done]].
  destruct (decide (p = path r)) as [->|]; [|rewrite lookup_insert_ne in Hm by done; by left].
  rewrite lookup_insert_eq in Hm. simplify_eq. right. split_and!; [by left|done|done].
Qed.

Lemma build_inv c h sys s :
  0 ≤ max_total_concurrency (execution c) → Forall (λ r, 0 ≤ max_concurrency r) (routes c) →
  build_state c h sys = Some s →
  app_inv (max_total_concurrency (execution c)) (config <$> app_routes s) (mkApp s [] []).
Proof.
  intros Hg Hr Hb. unfold build_state in Hb.
  destruct (build_routes _ _) as [m|] eqn:Hm; [|done]. simpl in Hb.
  unfold Semaphore_new in Hb. destruct (_ <=? _); [|done]. simplify_eq/=.
  split_and!; simpl; [done| |done|done]. split_and!; simpl; [done|lia|].
  intros p rt Hl. destruct (build_routes_spec _ _ _ Hm p rt Hl) as [?|(Hin & _ & ->)]; [done|].
  rewrite Forall_forall in Hr. specialize (Hr _ Hin). unfold tasks_on. simpl. lia.
Qed.

(** C20: the concurrency limits hold under every interleaving of requests and
    of ending tasks. The permits available, those of requests in flight and
    those of running tasks always add up to the configured number, so no
    error path leaks or duplicates one; at most [max_total_concurrency] tasks
    run, at most [max_concurrency] on each route, and every running task has
    arguments its configured route accepts. *)
Theorem concurrency_limits c h sys s a :
  0 ≤ max_total_concurrency (execution c) → Forall (λ r, 0 ≤ max_concurrency r) (routes c) →
  build_state c h sys = Some s → rtc app_step (mkApp s [] []) a →
  global_limit (state a) + Z.of_nat (length (flights a)) + Z.of_nat (length (running a))
    = max_total_concurrency (execution c) ∧
  Z.of_nat (length (running a)) ≤ max_total_concurrency (execution c) ∧
  (∀ p rt, app_routes (state a) !! p = Some rt →
     Z.of_nat (tasks_on p (running a)) ≤ max_concurrency (config rt)) ∧
  ∀ t, t ∈ running a → ∃ r, r ∈ routes c ∧ path r = t_path t ∧
    validate_request_args r (t_args t) = Ok tt.
Proof.
  intros Hg Hr Hb Hrun. pose proof (build_inv _ _ _ _ Hg Hr Hb) as Hinv.
  destruct (rtc_invariant app_step (app_inv _ _) _ _ (λ x y, app_step_inv _ _ x y) Hrun Hinv)
    as (Hc & (? & ? & Hl) & _ & Ht).
  split_and!; [done|lia| |].
  - intros p rt Hp. destruct (Hl _ _ Hp). lia.
  - intros t Hin. rewrite Forall_forall in Ht. destruct (Ht _ Hin) as (rt & Hrt & Hv).
    assert ((config <$> app_routes s) !! t_path t = Some (config rt)) as Hcfg
      by by rewrite <- Hc, lookup_fmap, Hrt.
    rewrite lookup_fmap_Some in Hcfg. destruct Hcfg as (rt0 & He & Hrt0).
    unfold build_state in Hb. destruct (build_routes _ _) as [m|] eqn:Hm; [|done]. simpl in Hb.
    destruct (Semaphore_new _); [|done]. simplify_eq/=.
    destruct (build_routes_spec _ _ _ Hm _ _ Hrt0) as [?|(Hi & Hpath & _)]; [done|].
    exists (config rt0). rewrite He in *. done.
Qed.
End concurrency.

(** ** [execute], branch by branch *)

Section execute_facts.
Context `{RegexLib, IpNetLib, HostLib, CryptoLib, JsonLaws, TimeLib, UuidLib}.

Lemma alter_insert_release p rt (rs : gmap string RouteRuntime) :
  rs !! p = Some rt →
  alter (λ rt, mkRouteRuntime (config rt) (release (limit rt))) p
    (<[p := mkRouteRuntime (config rt) (limit rt - 1)]> rs) = rs.
Proof.
  intros Hl. apply map_eq. intros q. destruct (decide (q = p)) as [->|].
  - rewrite lookup_alter_eq, lookup_insert_eq, Hl. simpl. unfold release.
    destruct rt as [cfg l]. simpl. do 2 f_equal. lia.
  - rewrite lookup_alter_ne, lookup_insert_ne by done. done.
Qed.

(** Why [execute] refuses a request. *)
Inductive refusal (p : string) (args : list string) (s : AppState) : ApiError → Prop :=
| refuse_unknown : app_routes s !! p = None → refusal p args s not_found
| refuse_args rt e :
    app_routes s !! p = Some rt → validate_request_args (config rt) args = Err e →
    refusal p args s (invalid_arguments e)
| refuse_global rt :
    app_routes s !! p = Some rt → validate_request_args (config rt) args = Ok tt →
    global_limit s ≤ 0 → refusal p args s global_limit_reached
| refuse_route rt :
    app_routes s !! p = Some rt → validate_request_args (config rt) args = Ok tt →
    0 < global_limit s → limit rt ≤ 0 → refusal p args s (route_limit_reached (config rt))
| refuse_create rt e :
    app_routes s !! p = Some rt → validate_request_args (config rt) args = Ok tt →
    0 < global_limit s → 0 < limit rt → refusal p args s (create_failed e).

(** The two outcomes of [execute]. *)
Lemma execute_cases i now p args s :
  match execute i now p args s with
  | (Err e, s') =>
      refusal p args s e ∧ global_limit s' = global_limit s ∧ app_routes s' = app_routes s ∧
      store (app_sys s') = store (app_sys s)
  | (Ok a, s') =>
      ∃ rt, app_routes s !! p = Some rt ∧ validate_request_args (config rt) args = Ok tt ∧
        0 < global_limit s ∧ 0 < limit rt ∧ a = accepted i ∧
        global_limit s' = global_limit s - 1 ∧
        app_routes s' = <[p := mkRouteRuntime (config rt) (limit rt - 1)]> (app_routes s) ∧
        let sn := new_snapshot i now (path (config rt)) (route_mode (config rt))
                    (r_output_encoding (config rt)) in
        let d := task_directory (root (store (app_sys s))) i in
        tasks (store (app_sys s')) = <[i := TaskRecord_new sn d]> (tasks (store (app_sys s))) ∧
        active_count (store (app_sys s')) = wrapping_add (active_count (store (app_sys s))) 1 ∧
        read_latest_snapshot (file_content (world (app_sys s')) d "events.jsonl") = Ok (Some sn)
  end.
Proof.
  unfold execute. destruct (app_routes s !! p) as [rt|] eqn:Hp; [|by split; [constructor|]].
  destruct (validate_request_args (config rt) args) as [[]|e] eqn:Hv; [|by split; [econstructor|]].
  destruct (acquire_global s) as [s1|e] eqn:Hg.
  2: { unfold acquire_global, try_acquire in Hg. destruct (0 <? global_limit s) eqn:Hl; [done|].
       injection Hg as <-. breflect. by split; [econstructor|]. }
  apply acquire_global_Ok in Hg as [Hg ->].
  unfold acquire_route, try_acquire. simpl. rewrite Hp. destruct (0 <? limit rt) eqn:Hl; breflect.
  2: { split; [by eapply refuse_route|]. simpl. split_and!; [|done|done]. unfold release. lia. }
  unfold create_task. simpl.
  destruct (create _ _ _ _ _ _) as [[r|e] sys] eqn:Hc.
  - apply create_success in Hc as (_ & -> & Hst & Hj & _). exists rt. simpl. rewrite Hst. by split_and!.
  - apply create_failure in Hc. split; [by eapply refuse_create|]. simpl. split_and!; [|by apply alter_insert_release|done].
    unfold release. lia.
Qed.

(** C6: [execute] on every branch. A refused request leaves both semaphores
    and the task store as they were, and its error tells the first check that
    failed, in the order arguments, global limit, route limit, creation. An
    accepted one holds one permit of each semaphore, and its task is in the
    store in state [Starting], counted as active, and already durable. *)
Theorem execute_spec i now p args s :
  match execute i now p args s with
  | (Err e, s') =>
      refusal p args s e ∧ global_limit s' = global_limit s ∧ app_routes s' = app_routes s ∧
      store (app_sys s') = store (app_sys s)
  | (Ok a, s') =>
      ∃ rt, app_routes s !! p = Some rt ∧ validate_request_args (config rt) args = Ok tt ∧
        0 < global_limit s ∧ 0 < limit rt ∧ a = accepted i ∧
        global_limit s' = global_limit s - 1 ∧
        app_routes s' = <[p := mkRouteRuntime (config rt) (limit rt - 1)]> (app_routes s) ∧
        let sn := new_snapshot i now (path (config rt)) (route_mode (config rt))
                    (r_output_encoding (config rt)) in
        let d := task_directory (root (store (app_sys s))) i in
        tasks (store (app_sys s')) = <[i := TaskRecord_new sn d]> (tasks (store (app_sys s))) ∧
        active_count (store (app_sys s')) = wrapping_add (active_count (store (app_sys s))) 1 ∧
        read_latest_snapshot (file_content (world (app_sys s')) d "events.jsonl") = Ok (Some sn)
  end.
Proof. apply execute_cases. Qed.
End execute_facts.

(** ** Stopping tasks and the service *)

Section control_facts.
Context `{RegexLib, IpNetLib, HostLib, CryptoLib, DpapiLib, TimeLib, UuidLib, ErrorText}.

(** Cancelling or killing a task is answered with 404 when it is not in
    the store, with 409 when it has finished, and is accepted otherwise; then
    and only then its stop channel holds the reason, as a change every
    subscriber made before still has to see. Nothing else changes. *)
Theorem stop_task_spec why fin acc i s :
  match tasks (store (app_sys s)) !! i with
  | None => stop_task why fin acc i s = (Err task_not_found, s)
  | Some r =>
      if is_finished (status (snap r))
      then stop_task why fin acc i s = (Err (ApiError_new CONFLICT "task_finished" fin), s)
      else ∃ r', stop_task why fin acc i s =
             (Ok acc, set_sys (mkSys (set_tasks (<[i := r']> (tasks (store (app_sys s)))) (store (app_sys s)))
                                (world (app_sys s))) s) ∧
           Watch.value (stop r') = Some why ∧ snap r' = snap r ∧
           ∀ seen, (seen ≤ subscribe_stop r)%nat → Watch.has_changed (stop r') seen = true
  end.
Proof.
  unfold stop_task, request_stop, get. destruct (tasks _ !! i) as [r|] eqn:Hi; [|done].
  unfold record_snapshot. assert (status (set_output_truncated (truncated r) (snap r)) = status (snap r))
    as -> by by destruct (snap r).
  destruct (is_finished _).
  - by destruct s as [? ? ? ? ? ? ? ? ? ? ? []].
  - exists (request_stop_now why r). split_and!; try done. intros seen Hs. simpl.
    unfold Watch.has_changed. apply Nat.ltb_lt. unfold subscribe_stop, Watch.subscribe in Hs. simpl. lia.
Qed.

(** Management requests, one after the other. *)
Fixpoint request_all (acts : list ManagementAction) (s : AppState) : list (result ApiError unit) * AppState :=
  match acts with
  | [] => ([], s)
  | a :: acts =>
      let '(r, s) := request_management_action a s in
      let '(rs, s) := request_all acts s in (r :: rs, s)
  end.

Lemma request_all_busy acts s :
  lifecycle_state s ≠ 0 → request_all acts s = (replicate (length acts) (Err transition_in_progress), s).
Proof.
  intros Hl. induction acts as [|a acts IH]; simpl; [done|].
  unfold request_management_action. rewrite bool_decide_eq_false_2 by done. by rewrite IH.
Qed.

(** A service stops or restarts once. Of any sequence of management
    requests to a fresh service the first is accepted and is the only one its
    control task can receive; every later one is refused with 409. *)
Theorem management_once a acts s :
  lifecycle_state s = 0 → management s = mkChannel [] true →
  ∃ s', request_all (a :: acts) s = (Ok tt :: replicate (length acts) (Err transition_in_progress), s') ∧
    management s' = mkChannel [a] true ∧ lifecycle_state s' = 1.
Proof.
  intros Hl Hm. simpl. unfold request_management_action. rewrite bool_decide_eq_true_2, Hm by done. simpl.
  rewrite request_all_busy by done. eauto.
Qed.

(** A restart is accepted only for a configuration that loads and keeps
    the log directory, and exactly that configuration is handed to the
    control task; a refused restart leaves the service running as it was. *)
Theorem restart_service_spec windows from_yaml s :
  (lifecycle_state s = 0 ∨ lifecycle_state s = 1) →
  match restart_service windows from_yaml s with
  | (Ok _, s') =>
      ∃ c h, load windows from_yaml (app_host s) (config_path s) = (Ok c, h) ∧
        directory (logging c) = logging_directory s ∧ lifecycle_state s = 0 ∧
        lifecycle_state s' = 1 ∧ queue (management s') = queue (management s) ++ [ARestart c]
  | (Err e, s') => e_status e ∈ [CONFLICT; SERVICE_UNAVAILABLE] ∧ s' = set_host (app_host s') s
  end.
Proof.
  intros Hl. unfold restart_service.
  destruct (load _ _ _ _) as [[c|e] h]; [|by split; [set_solver|]].
  case_bool_decide as Hd; simpl; [|by split; [set_solver|]].
  unfold request_management_action. simpl. case_bool_decide as Hz.
  - unfold try_send. destruct (_ && _); simpl; [eauto 10|].
    split; [set_solver|]. rewrite <- Hz. by destruct s.
  - by split; [set_solver|].
Qed.

Lemma system_routes_reserved m p : (m, p) ∈ system_routes → reserved_path p = true.
Proof. unfold system_routes. rewrite !elem_of_cons, elem_of_nil. intros Hin. naive_solver. Qed.

(** No two endpoints share a path: the system endpoints and the routes of
    a resolved configuration are registered under distinct paths, so no
    configuration can replace or shadow the stop, kill or health endpoints by
    an equal path. *)
Theorem route_table_unique c h sys s :
  wf_resolved h c → build_state c h sys = Some s → NoDup (route_table s).*2.
Proof.
  intros Hwf Hb. destruct Hwf as (_ & _ & _ & _ & _ & _ & _ & _ & _ & _ & Hroutes).
  unfold build_state in Hb. destruct (build_routes _ _) as [m|] eqn:Hm; [|done]. simpl in Hb.
  destruct (Semaphore_new _); [|done]. injection Hb as <-. unfold route_table. rewrite fmap_app. cbn [app_routes].
  assert (∀ k v, (k, v) ∈ map_to_list m → path (config v) = k ∧ config v ∈ routes c) as Hk.
  { intros k v Hin%elem_of_map_to_list.
    destruct (build_routes_spec _ _ _ Hm _ _ Hin) as [?|(? & ? & _)]; [done|done]. }
  assert (((λ r : string * RouteRuntime, (POST, path (config r.2))) <$> map_to_list m).*2 = (map_to_list m).*1)
    as Hpaths.
  { rewrite <- list_fmap_compose. apply list_fmap_ext. intros j [k v] Hj. simpl.
    apply Hk. by eapply list_elem_of_lookup_2. }
  apply NoDup_app. rewrite Hpaths. split_and!; [by apply (bool_decide_eq_true_1 (NoDup system_routes.*2))| |apply NoDup_fst_map_to_list].
  intros p Hp Hin. apply list_elem_of_fmap in Hp as ([meth p'] & -> & Hsys).
  apply system_routes_reserved in Hsys. simpl in *.
  apply list_elem_of_fmap in Hin as ([k v] & -> & Hin). destruct (Hk _ _ Hin) as [<- Hc].
  rewrite Forall_forall in Hroutes. destruct (Hroutes _ Hc) as (_ & _ & _ & _ & _ & Hres & _).
  simpl in *. congruence.
Qed.
End control_facts.

(** ** A concrete application *)
Module AppToy.

#[local] Existing Instances Toy.regex Toy.ipnet Toy.hostlib toy_crypto toy_dpapi bit_json bit_time_lib
  StoreToy.uuids StoreToy.encodings.

Definition order : MapOrder := map_to_list.
Lemma order_laws : @MapOrderLaws order.
Proof. intros m. reflexivity. Qed.
#[local] Existing Instances order order_laws bit_json_laws.

Definition texts : ErrorText := λ _, "invalid".
#[local] Existing Instance texts.

(** The application of [Toy.resolved], with the cooldown enabled. *)
Definition cooldown (secs tracked : Z) : TokenFailureCooldownConfig := mkCooldown true secs tracked.
Definition config_with (cd : TokenFailureCooldownConfig) : ResolvedConfig :=
  mkResolved (source_path Toy.resolved) (server_listeners Toy.resolved)
    (mkAccess (allowed_cidrs (access Toy.resolved)) cd) None (auth_token Toy.resolved)
    (logging Toy.resolved) (execution Toy.resolved) (windows_service Toy.resolved) (routes Toy.resolved).

Definition app_with (cd : TokenFailureCooldownConfig) : AppState :=
  mkAppState (auth_token Toy.resolved) (allowed_cidrs (access Toy.resolved)) cd ∅ 16
    {["/commands/run" := mkRouteRuntime Toy.resolved_route 1]}
    (mkChannel [] true) 0 "/etc/config.yaml" "/etc/logs" Toy.fs StoreToy.sys0.

Example app_built : build_state (config_with (cooldown 10 2)) Toy.fs StoreToy.sys0 = Some (app_with (cooldown 10 2)).
Proof. reflexivity. Qed.

Definition localhost : Net.IpAddr := Net.V4 2130706433.
Definition good : Request := mkRequest (Some localhost) (Some ("Bearer " +:+ token32)).
Definition bad : Request := mkRequest (Some localhost) (Some "Bearer wrong").

Definition ping (s : AppState) : Answer * AppState := (Reply healthz, s).

(** The requests of the repository's endpoint test: no token, then the right
    token during the cooldown, then from a network that is not allowed. *)
Example endpoint_test :
  let s0 := app_with (cooldown 10 2) in
  let '(a1, s1) := authenticate 0 0 (mkRequest (Some localhost) None) ping s0 in
  let '(a2, s2) := authenticate 5 5 good ping s1 in
  let '(a3, _) := authenticate 6 6 (mkRequest (Some (Net.V4 167772161)) (Some ("Bearer " +:+ token32))) ping s2 in
  let '(a4, _) := authenticate (10 * Instants.NANOS) 0 good ping s2 in
  a1 = Reply unauthorized ∧ a2 = Reply (cooling_down 10) ∧ a3 = Reply source_denied ∧ a4 = Reply healthz.
Proof. vm_compute. done. Qed.

Lemma pair_eta {A B} (r : A * B) a : r.1 = a → r = (a, r.2).
Proof. destruct r. by intros [= ->]. Defined.

Lemma cooldown_enforced_witness :
  ∃ n, authenticate 5 5 good ping (record_auth_failure 0 localhost (app_with (cooldown 10 2))).2
       = (Reply (cooling_down n), (record_auth_failure 0 localhost (app_with (cooldown 10 2))).2) ∧ 1 ≤ n ≤ 10.
Proof.
  destruct (cooldown_enforced 0 5 5 good localhost ping (app_with (cooldown 10 2))
    (record_auth_failure 0 localhost (app_with (cooldown 10 2))).2) as (n & Ha & Hn & _);
    [reflexivity|reflexivity|reflexivity|reflexivity|vm_compute; split; congruence|].
  exists n. by split.
Defined.

Lemma cooldown_overflow_unrecorded_witness :
  (authenticate 0 1 bad ping (app_with (cooldown U64_MAX 2))).1 = Panic ∧
  auth_failures (authenticate 0 1 bad ping (app_with (cooldown U64_MAX 2))).2 = ∅.
Proof.
  apply (cooldown_overflow_unrecorded 0 1 bad ping (app_with (cooldown U64_MAX 2))
    (auth_token Toy.resolved) localhost "wrong"); vm_compute; reflexivity.
Defined.

(** Two tracked addresses, both cooling down, and a third failure. *)
Definition full_table : AppState :=
  set_failures {[Net.V4 1 := 100; Net.V4 2 := 200]} (app_with (cooldown 10 2)).

Lemma record_auth_failure_spec_witness :
  auth_failures (record_auth_failure 50 localhost full_table).2 !! localhost = Some (50 + 10 * Instants.NANOS) ∧
  Z.of_nat (size (auth_failures (record_auth_failure 50 localhost full_table).2)) ≤ 2.
Proof.
  destruct (record_auth_failure_spec 50 localhost full_table (record_auth_failure 50 localhost full_table).2)
    as (Hs & Hl & _); [reflexivity|vm_compute; congruence|vm_compute; congruence|apply pair_eta; vm_compute; reflexivity|].
  by split.
Defined.

Example eviction : auth_failures (record_auth_failure 50 localhost full_table).2 !! Net.V4 1 = None.
Proof. vm_compute. reflexivity. Qed.

Lemma concurrency_limits_witness :
  let s := app_with (cooldown 10 2) in
  let a := mkApp (set_limits 15 (app_routes s) s) [GotGlobal "/commands/run" []] [] in
  global_limit (state a) + 1 + 0 = 16.
Proof.
  intros s a.
  destruct (concurrency_limits (config_with (cooldown 10 2)) Toy.fs StoreToy.sys0 s a) as (Hsum & _);
    [vm_compute; congruence|by repeat constructor|reflexivity| |exact Hsum].
  apply rtc_once. by eapply (step_begin s (set_limits 15 (app_routes s) s) [] []).
Defined.

Lemma execute_spec_witness :
  let s := app_with (cooldown 10 2) in
  global_limit (execute 7%N 5 "/commands/run" ["status"] s).2 = 15 ∧
  store (app_sys (execute 7%N 5 "/commands/run" ["forbidden"] s).2) = StoreToy.empty_store.
Proof.
  intros s.
  assert (is_ok (execute 7%N 5 "/commands/run" ["status"] s).1 = true) as H1 by (vm_compute; reflexivity).
  assert (is_ok (execute 7%N 5 "/commands/run" ["forbidden"] s).1 = false) as H2 by (vm_compute; reflexivity).
  pose proof (execute_spec 7%N 5 "/commands/run" ["status"] s) as X1.
  pose proof (execute_spec 7%N 5 "/commands/run" ["forbidden"] s) as X2.
  split.
  - revert H1 X1. generalize (execute 7%N 5 "/commands/run" ["status"] s). intros [[a|e] s'] H1 X1; [|done].
    by destruct X1 as (rt & _ & _ & _ & _ & _ & Hg & _).
  - revert H2 X2. generalize (execute 7%N 5 "/commands/run" ["forbidden"] s). intros [[a|e] s'] H2 X2; [done|].
    by destruct X2 as (_ & _ & _ & Hs).
Defined.

Lemma management_once_witness :
  ∃ s', request_all [AStop; ARestart Toy.resolved; AStop] (app_with (cooldown 10 2)) =
    ([Ok tt; Err transition_in_progress; Err transition_in_progress], s') ∧
    management s' = mkChannel [AStop] true ∧ lifecycle_state s' = 1.
Proof. apply (management_once AStop [ARestart Toy.resolved; AStop] (app_with (cooldown 10 2))); reflexivity. Defined.

Lemma restart_service_spec_witness :
  let s := app_with (cooldown 10 2) in
  (restart_service false (λ _, None) s).2 = set_host (app_host (restart_service false (λ _, None) s).2) s.
Proof.
  intros s.
  assert (is_ok (restart_service false (λ _, None) s).1 = false) as H1 by (vm_compute; reflexivity).
  pose proof (restart_service_spec false (λ _, None) s (or_introl eq_refl)) as Hr.
  revert H1 Hr. generalize (restart_service false (λ _, None) s). intros [[m|e] s'] H1 Hr; [done|].
  by destruct Hr.
Defined.

Definition host1 : host := (Toy.fs.1, {["/etc/logs/tasks"]} ∪ Toy.fs.2).

Lemma resolved_wf : wf_resolved host1 Toy.resolved.
Proof.
  split_and!; try done; [apply NoDup_singleton..|]. apply Forall_singleton.
  split_and!; try done; [by apply (bool_decide_eq_true_1 (".." ∉ _))|by repeat constructor..].
Defined.

Lemma route_table_unique_witness : 
  NoDup (route_table (set_host host1 (app_with TokenFailureCooldownConfig_default))).*2.
Proof.
  apply (route_table_unique Toy.resolved host1 StoreToy.sys0); [apply resolved_wf|reflexivity].
Defined.

(** A path with an unbalanced brace passes the configuration checks and is
    registered with the router, whose pattern syntax it violates. *)
Definition brace_route : RouteConfig :=
  mkRouteConfig "/run/{" Bash None "run.sh" [] Toy.request_args None ∅ 1 10 1 false Utf8.

Example brace_path_accepted : validate_route false brace_route = Ok tt.
Proof. vm_compute. reflexivity. Qed.

End AppToy.
