(* ===== verification/Gate.v ===== *)
(** * Concurrent authentication (src/src/app.rs, src/src/secret.rs)

    [App.authenticate] is the middleware when nothing else runs. Here it is
    cut where the executor can switch to another request: after the clock has
    been read and before the mutex of the failure table is held (in
    [cooldown_remaining] and in [record_auth_failure]), between the check and
    the verification, and while PBKDF2 runs on a blocking thread. The requests
    in flight share one [AppState] and one clock. *)

From S2P Require Import Prelude RustStd Model Secret Config Disk Journal Store Capture Process App.
Local Open Scope string_scope.
Local Open Scope list_scope.
Local Open Scope Z_scope.

Section gate.
Context `{RegexLib, IpNetLib, HostLib, CryptoLib, MapOrder}.

(** Where a request stands in the middleware. *)
Inductive Stage :=
| Arrived
| Clocked (ip : Net.IpAddr) (now : Z)     (* [cooldown_remaining] waits for the mutex *)
| Passed (ip : Net.IpAddr)                (* not cooling down *)
| Verifying (ip : Net.IpAddr) (t : string) (* PBKDF2 is running *)
| Rejected (ip : Net.IpAddr)
| Failing (ip : Net.IpAddr) (now : Z)     (* [record_auth_failure] waits for the mutex *)
| Entered                                 (* [next.run(request)] *)
| Answered (a : Answer).

(** One uninterrupted piece of the middleware at the instant [clock]. The
    blocking computation can be lost ([joined] is [false]): [unwrap_or(false)]. *)
Definition advance (clock : Z) (joined : bool) (req : Request) (st : Stage) (s : AppState) : Stage * AppState :=
  match st with
  | Arrived =>
      match normalize_ip <$> peer req with
      | None => (Answered (Reply no_source), s)
      | Some ip =>
          if negb (existsb (λ cidr, net_contains cidr ip) (app_cidrs s)) then (Answered (Reply source_denied), s)
          else (Clocked ip clock, s)
      end
  | Clocked ip now =>
      match cooldown_remaining now ip s with
      | (Some retry_after, s) => (Answered (Reply (cooling_down retry_after)), s)
      | (None, s) => (Passed ip, s)
      end
  | Passed ip =>
      match bearer req with
      | None => (Rejected ip, s)
      | Some t =>
          match verify_begin (token s) t with
          | Some true => (Entered, s)
          | Some false => (Rejected ip, s)
          | None => (Verifying ip t, s)
          end
      end
  | Verifying ip t =>
      if joined then
        let '(b, v) := verify_finish (token s) t in
        (if b then Entered else Rejected ip, set_token v s)
      else (Rejected ip, s)
  | Rejected ip => (Failing ip clock, s)
  | Failing ip now =>
      let '(fine, s) := record_auth_failure now ip s in
      (Answered (if fine then Reply unauthorized else Panic), s)
  | Entered | Answered _ => (st, s)
  end.

(** The requests in flight. [last] records, for the statements only, the
    instant of the last failure entered in the table for an address. *)
Record Gate := mkGate {
  app : AppState;
  clock : Z;
  requests : list (Request * Stage);
  last : gmap Net.IpAddr Z
}.

(** The failure a piece of the middleware enters. *)
Definition entered_failure (st st' : Stage) (l : gmap Net.IpAddr Z) : gmap Net.IpAddr Z :=
  match st, st' with
  | Failing ip now, Answered (Reply _) => <[ip := now]> l
  | _, _ => l
  end.

(** What handlers, tasks and the service loop leave alone. *)
Definition same_gate (s s' : AppState) : Prop :=
  token s' = token s ∧ app_cidrs s' = app_cidrs s ∧ app_cooldown s' = app_cooldown s ∧
  auth_failures s' = auth_failures s.

Inductive gate_step : Gate → Gate → Prop :=
| gate_arrive s c rs l req :
    gate_step (mkGate s c rs l) (mkGate s c (rs ++ [(req, Arrived)]) l)
| gate_tick s c c' rs l :
    c ≤ c' → gate_step (mkGate s c rs l) (mkGate s c' rs l)
| gate_advance s s' c rs l i req st st' joined :
    rs !! i = Some (req, st) →
    advance c joined req st s = (st', s') →
    gate_step (mkGate s c rs l) (mkGate s' c (<[i := (req, st')]> rs) (entered_failure st st' l))
| gate_handled s s' c rs l i req a :
    rs !! i = Some (req, Entered) → same_gate s s' →
    gate_step (mkGate s c rs l) (mkGate s' c (<[i := (req, Answered a)]> rs) l)
| gate_rest s s' c rs l :
    same_gate s s' → gate_step (mkGate s c rs l) (mkGate s' c rs l).

(** ** The cut middleware is the middleware *)

(** The pieces of one request with nothing in between; the clock is read at
    [now] for the check and at [later] for the record. *)
Definition alone (now later : Z) (req : Request) (s : AppState) : Stage * AppState :=
  let '(st, s) := advance now true req Arrived s in
  let '(st, s) := advance now true req st s in
  let '(st, s) := advance later true req st s in
  let '(st, s) := advance later true req st s in
  let '(st, s) := advance later true req st s in
  advance later true req st s.

Definition continue (next : AppState → Answer * AppState) (r : Stage * AppState) : option (Answer * AppState) :=
  match r with
  | (Entered, s) => Some (next s)
  | (Answered a, s) => Some (a, s)
  | _ => None
  end.

Lemma set_token_same s : set_token (token s) s = s.
Proof. by destruct s. Qed.

(** Running the pieces of the middleware one after the other is
    [authenticate]: a request alone always ends, in the handler or in an
    answer, with the same answer and the same state. *)
Lemma pieces_are_authenticate now later req next s :
  continue next (alone now later req s) = Some (authenticate now later req next s).
Proof.
  unfold alone, authenticate. cbn [advance]. destruct (normalize_ip <$> peer req) as [ip|]; [|done].
  destruct (negb _); [done|]. cbn [advance].
  destruct (cooldown_remaining now ip s) as [[n|] s1]; [done|]. cbn [advance]. unfold authorized.
  destruct (bearer req) as [t|].
  2: { cbn [advance]. by destruct (record_auth_failure later ip s1). }
  unfold verify. destruct (verify_begin (token s1) t) as [[]|]; cbn [advance]; rewrite ?set_token_same.
  - done.
  - by destruct (record_auth_failure later ip s1).
  - destruct (verify_finish (token s1) t) as [[] v]; cbn [advance]; [done|].
    by destruct (record_auth_failure later ip (set_token v s1)).
Qed.

(** ** Only acceptable requests enter *)

(** What a verifier promises: the token, or one with its fingerprint that
    PBKDF2 verifies. *)
Definition accepts (v : TokenVerifier) (t : string) : Prop :=
  match v with
  | Sha256 expected => malformed t = false ∧ token_fingerprint t = expected
  | Pbkdf2Sha256 phc _ => acceptable phc t
  end.

(** The verifier after any number of verifications that started from [v0]. *)
Definition grown (v0 v : TokenVerifier) : Prop :=
  match v0 with
  | Sha256 _ => v = v0
  | Pbkdf2Sha256 phc _ => cache_ok phc v
  end.

Definition allowed_from (cidrs : list IpNet) (req : Request) (ip : Net.IpAddr) : Prop :=
  normalize_ip <$> peer req = Some ip ∧ existsb (λ cidr, net_contains cidr ip) cidrs = true.

Definition stage_ok (v0 : TokenVerifier) (cidrs : list IpNet) (r : Request * Stage) : Prop :=
  match r.2 with
  | Arrived | Answered _ => True
  | Clocked ip _ | Passed ip | Rejected ip | Failing ip _ => allowed_from cidrs r.1 ip
  | Verifying ip t => allowed_from cidrs r.1 ip ∧ bearer r.1 = Some t ∧ malformed t = false
  | Entered => ∃ ip t, allowed_from cidrs r.1 ip ∧ bearer r.1 = Some t ∧ accepts v0 t
  end.

Lemma grown_begin v0 v t : grown v0 v → verify_begin v t = Some true → accepts v0 t.
Proof.
  destruct v0 as [fp|phc cache]; simpl; [|apply verify_begin_sound].
  intros ->. unfold verify_begin. destruct (malformed t); [done|]. intros [= ?]. by breflect.
Qed.

Lemma grown_finish v0 v t b v' :
  grown v0 v → malformed t = false → verify_finish v t = (b, v') → grown v0 v' ∧ (b = true → accepts v0 t).
Proof.
  destruct v0 as [fp|phc cache]; simpl; [|apply verify_finish_sound].
  intros -> _ [= <- <-]. by split.
Qed.

Lemma same_service_cidrs s s' : same_service s s' → app_cidrs s' = app_cidrs s ∧ app_cooldown s' = app_cooldown s.
Proof. intros Hs. by rewrite Hs. Qed.

Lemma record_auth_failure_token now ip s : token (record_auth_failure now ip s).2 = token s.
Proof. unfold record_auth_failure. repeat case_match; by simplify_eq/=. Qed.

Lemma advance_same c joined req st s st' s' : advance c joined req st s = (st', s') → same_service s s'.
Proof.
  destruct st; simpl; intros Ha.
  - destruct (_ <$> peer req); [destruct (negb _)|]; simplify_eq; apply same_service_refl.
  - destruct (cooldown_remaining now ip s) as [[n|] s1] eqn:Hc; simplify_eq; by eapply cooldown_remaining_same.
  - repeat case_match; simplify_eq; apply same_service_refl.
  - destruct joined; [|simplify_eq; apply same_service_refl].
    destruct (verify_finish _ _) as [b v]. simplify_eq. by destruct s.
  - simplify_eq. apply same_service_refl.
  - destruct (record_auth_failure now ip s) as [fine s1] eqn:Hr. simplify_eq. by eapply record_auth_failure_same.
  - simplify_eq. apply same_service_refl.
  - simplify_eq. apply same_service_refl.
Qed.

(** One piece keeps the promise of its request and of the verifier. *)
Lemma advance_ok v0 c joined req st s st' s' :
  grown v0 (token s) → stage_ok v0 (app_cidrs s) (req, st) → advance c joined req st s = (st', s') →
  grown v0 (token s') ∧ stage_ok v0 (app_cidrs s) (req, st').
Proof.
  intros Hg Hst Ha. destruct st; simpl in *; unfold stage_ok; simpl.
  - destruct (_ <$> peer req) as [ip|] eqn:Hip; [|by simplify_eq].
    destruct (negb _) eqn:Hn; simplify_eq; [done|]. split; [done|]. simpl. split; [done|].
    by destruct (existsb _ _).
  - destruct (cooldown_remaining now ip s) as [[n|] s1] eqn:Hc; simplify_eq;
      by destruct (cooldown_remaining_same _ _ _ _ _ Hc) as [-> _].
  - destruct (bearer req) as [t|] eqn:Hb; [|by simplify_eq].
    destruct (verify_begin (token s) t) as [[]|] eqn:Hv; simplify_eq.
    + split; [done|]. exists ip, t. eauto using grown_begin.
    + done.
    + eauto using verify_begin_suspends.
  - destruct Hst as (Hal & Hb & Hm). destruct joined; [|by simplify_eq].
    destruct (verify_finish (token s) t) as [b v] eqn:Hv. simplify_eq. simpl.
    destruct (grown_finish _ _ _ _ _ Hg Hm Hv) as [? Hacc]. split; [done|].
    destruct b; [|done]. exists ip, t. eauto.
  - by simplify_eq.
  - pose proof (record_auth_failure_token now ip s) as Ht.
    destruct (record_auth_failure now ip s) as [fine s1]. simplify_eq/=. by rewrite Ht.
  - by simplify_eq.
  - by simplify_eq.
Qed.

Definition gate_inv (v0 : TokenVerifier) (cidrs : list IpNet) (g : Gate) : Prop :=
  app_cidrs (app g) = cidrs ∧ grown v0 (token (app g)) ∧ Forall (stage_ok v0 cidrs) (requests g).

Lemma gate_step_inv v0 cidrs g g' : gate_step g g' → gate_inv v0 cidrs g → gate_inv v0 cidrs g'.
Proof.
  intros Hs (Hc & Hg & Hr). destruct Hs as [s c rs l req|s c c' rs l Hc'|s s' c rs l i req st st' joined Hi Ha|
    s s' c rs l i req a Hi (Ht & Hn & _)|s s' c rs l (Ht & Hn & _)]; simpl in *; subst.
  - split_and!; [done..|]. simpl. apply Forall_app. split; [done|]. by repeat constructor.
  - done.
  - destruct (same_service_cidrs _ _ (advance_same _ _ _ _ _ _ _ Ha)) as [Hcidr _].
    pose proof (Forall_lookup_1 _ _ _ _ Hr Hi) as Hst.
    destruct (advance_ok _ _ _ _ _ _ _ _ Hg Hst Ha). split_and!; simpl; [done..|]. by apply Forall_insert.
  - split_and!; simpl; [done|by rewrite Ht|by apply Forall_insert].
  - split_and!; simpl; [done|by rewrite Ht|done].
Qed.

Lemma gate_steps_inv v0 cidrs g g' : rtc gate_step g g' → gate_inv v0 cidrs g → gate_inv v0 cidrs g'.
Proof. induction 1; eauto using gate_step_inv. Qed.

(** A verifier as the configuration makes it: nothing is cached. *)
Definition pristine (v : TokenVerifier) : Prop :=
  match v with Sha256 _ => True | Pbkdf2Sha256 _ cache => cache = None end.

Lemma pristine_grown v : pristine v → grown v v.
Proof. destruct v as [|phc cache]; simpl; [done|]. intros ->. by exists None. Qed.

(** C5: however the requests in flight are interleaved with each other and
    with everything else the service does, a request reaches its handler only
    if its peer is in an allowed network and it carries a bearer token the
    configured verifier accepts: the token itself, or one with the SHA-256
    fingerprint of a token that PBKDF2 verifies. *)
Theorem gate_interleaved s c g i req :
  pristine (token s) →
  rtc gate_step (mkGate s c [] ∅) g →
  requests g !! i = Some (req, Entered) →
  ∃ ip t, allowed_from (app_cidrs s) req ip ∧ bearer req = Some t ∧ accepts (token s) t.
Proof.
  intros Hp Hs Hi. destruct (gate_steps_inv (token s) (app_cidrs s) _ _ Hs) as (_ & _ & Hr).
  - split_and!; simpl; [done|by apply pristine_grown|constructor].
  - apply (Forall_lookup_1 _ _ _ _ Hr Hi).
Qed.

(** ** The cooldown under concurrency *)

Definition addresses (rs : list (Request * Stage)) : gset Net.IpAddr :=
  list_to_set (omap (λ r, normalize_ip <$> peer r.1) rs).

Definition pause (s : AppState) : Z := seconds (app_cooldown s) * Instants.NANOS.

(** A stage read the clock in the past, and works on its own address. *)
Definition stage_timed (c : Z) (r : Request * Stage) : Prop :=
  match r.2 with
  | Clocked ip now | Failing ip now => now ≤ c ∧ normalize_ip <$> peer r.1 = Some ip
  | Passed ip | Verifying ip _ | Rejected ip => normalize_ip <$> peer r.1 = Some ip
  | _ => True
  end.

(** Every failure entered is in the table, or its cooldown is over. *)
Definition table_ok (s : AppState) (c : Z) (l : gmap Net.IpAddr Z) : Prop :=
  ∀ ip t, l !! ip = Some t → auth_failures s !! ip = Some (t + pause s) ∨ t + pause s ≤ c.

Definition timed (g : Gate) : Prop :=
  enabled (app_cooldown (app g)) = true ∧
  dom (auth_failures (app g)) ⊆ addresses (requests g) ∧
  Forall (stage_timed (clock g)) (requests g) ∧
  table_ok (app g) (clock g) (last g).

(** The table has room for every address seen. *)
Definition roomy (g : Gate) : Prop :=
  Z.of_nat (size (addresses (requests g))) < max_tracked_ips (app_cooldown (app g)).

Lemma evict_room max m : Z.of_nat (size m) < max → evict max m = m.
Proof. intros Hm. unfold evict. by rewrite (proj2 (Z.leb_gt _ _) Hm). Qed.

Lemma cooldown_remaining_table now ip s r s' c l :
  cooldown_remaining now ip s = (r, s') → now ≤ c → table_ok s c l →
  table_ok s' c l ∧ dom (auth_failures s') ⊆ dom (auth_failures s).
Proof.
  intros Hc Hn Ht. unfold cooldown_remaining in Hc. destruct (negb _); [by simplify_eq|].
  destruct (auth_failures s !! ip) as [u|] eqn:Hl; [|by simplify_eq].
  destruct (now <? u) eqn:Hu; breflect; simplify_eq; [done|]. simpl. split; [|set_solver].
  intros ip' t Hl'. specialize (Ht ip' t Hl'). unfold pause in *. simpl in *.
  destruct (decide (ip' = ip)) as [->|]; [|by rewrite lookup_delete_ne].
  right. rewrite Hl in Ht. destruct Ht; simplify_eq; lia.
Qed.

(** Entering a failure with room in the table loses no cooldown. *)
Lemma record_auth_failure_table now ip s fine s' c l :
  record_auth_failure now ip s = (fine, s') → enabled (app_cooldown s) = true → now ≤ c →
  Z.of_nat (size (auth_failures s)) < max_tracked_ips (app_cooldown s) → table_ok s c l →
  table_ok s' c (if fine then <[ip := now]> l else l) ∧
  dom (auth_failures s') ⊆ {[ip]} ∪ dom (auth_failures s).
Proof.
  intros Hr He Hn Hroom Ht. unfold record_auth_failure in Hr. rewrite He in Hr. simpl in Hr.
  set (live := filter _ _) in Hr.
  assert (live ⊆ auth_failures s) as Hsub by apply map_filter_subseteq.
  rewrite evict_room in Hr by (apply map_subseteq_size in Hsub; lia).
  assert (∀ ip' t, l !! ip' = Some t → live !! ip' = Some (t + pause s) ∨ t + pause s ≤ c) as Hlive.
  { intros ip' t [Hl|?]%Ht; [|by right]. destruct (decide (now < t + pause s)); [left|right; lia].
    unfold live. by apply map_lookup_filter_Some. }
  apply subseteq_dom in Hsub. unfold Instants.add_secs in Hr.
  destruct (_ <=? _); simplify_eq; (split; [|simpl; set_solver]); [|done].
  intros ip' t Hl. destruct (decide (ip' = ip)) as [->|]; simpl.
  - rewrite lookup_insert_eq in Hl. simplify_eq. left. by rewrite lookup_insert_eq.
  - rewrite lookup_insert_ne in Hl by done. rewrite lookup_insert_ne by done. by apply Hlive.
Qed.

Lemma addresses_elem rs i req st ip :
  rs !! i = Some (req, st) → normalize_ip <$> peer req = Some ip → ip ∈ addresses rs.
Proof.
  intros Hi Hip. unfold addresses. apply elem_of_list_to_set, list_elem_of_omap.
  exists (req, st). split; [by eapply list_elem_of_lookup_2|done].
Qed.

Lemma addresses_insert rs i req st st' :
  rs !! i = Some (req, st) → addresses (<[i := (req, st')]> rs) = addresses rs.
Proof.
  intros Hi. unfold addresses. f_equal. revert i Hi.
  induction rs as [|r rs IH]; intros [|i] Hi; simplify_eq/=; [done|].
  by rewrite (IH i).
Qed.

Lemma stage_timed_mono c c' r : c ≤ c' → stage_timed c r → stage_timed c' r.
Proof. intros Hc. unfold stage_timed. destruct r.2; naive_solver lia. Qed.

(** One piece of a request keeps the table in order. *)
Lemma advance_table c joined req st s st' s' l (A : gset Net.IpAddr) :
  advance c joined req st s = (st', s') → enabled (app_cooldown s) = true → stage_timed c (req, st) →
  (∀ ip, normalize_ip <$> peer req = Some ip → ip ∈ A) →
  dom (auth_failures s) ⊆ A → Z.of_nat (size A) < max_tracked_ips (app_cooldown s) → table_ok s c l →
  stage_timed c (req, st') ∧ dom (auth_failures s') ⊆ A ∧ table_ok s' c (entered_failure st st' l).
Proof.
  intros Ha He Hst HA Hdom Hroom Ht. destruct st; unfold stage_timed in *; simpl in *.
  - destruct (_ <$> peer req) as [ip|]; [destruct (negb _)|]; simplify_eq; by split_and!.
  - destruct Hst as [Hn Hip]. destruct (cooldown_remaining now ip s) as [r s1] eqn:Hc.
    destruct (cooldown_remaining_table _ _ _ _ _ _ _ Hc Hn Ht). destruct r; simplify_eq; split_and!; set_solver.
  - repeat case_match; by simplify_eq.
  - destruct joined; [|by simplify_eq]. destruct (verify_finish _ _) as [[] v]; by simplify_eq.
  - by simplify_eq.
  - destruct Hst as [Hn Hip]. destruct (record_auth_failure now ip s) as [fine s1] eqn:Hr.
    assert (Z.of_nat (size (auth_failures s)) < max_tracked_ips (app_cooldown s)).
    { apply subseteq_size in Hdom. rewrite size_dom in Hdom. lia. }
    destruct (record_auth_failure_table _ _ _ _ _ _ l Hr He Hn) as [Htab Hd]; [done..|]. specialize (HA _ Hip).
    simplify_eq. split_and!; [done|set_solver|]. by destruct fine.
  - by simplify_eq.
  - by simplify_eq.
Qed.

Lemma gate_step_roomy g g' : gate_step g g' → roomy g' → roomy g.
Proof.
  intros Hs. destruct Hs as [s c rs l req|s c c' rs l Hc'|s s' c rs l i req st st' joined Hi Ha|
    s s' c rs l i req a Hi (_ & _ & Hcd & _)|s s' c rs l (_ & _ & Hcd & _)]; unfold roomy; simpl;
    [|done| |by rewrite Hcd, (addresses_insert _ _ _ _ (Answered a) Hi)|by rewrite Hcd].
  - intros Hroom. eapply Z.le_lt_trans; [|exact Hroom]. apply inj_le, subseteq_size.
    unfold addresses. rewrite omap_app, list_to_set_app_L. set_solver.
  - destruct (same_service_cidrs _ _ (advance_same _ _ _ _ _ _ _ Ha)) as [_ ->].
    by rewrite (addresses_insert _ _ _ _ st' Hi).
Qed.

Lemma gate_step_timed g g' : gate_step g g' → roomy g' → timed g → timed g'.
Proof.
  intros Hs Hroom%(gate_step_roomy _ _ Hs) (He & Hd & Hr & Ht). unfold roomy in Hroom.
  destruct Hs as [s c rs l req|s c c' rs l Hc'|s s' c rs l i req st st' joined Hi Ha|
    s s' c rs l i req a Hi (_ & _ & Hcd & Hf)|s s' c rs l (_ & _ & Hcd & Hf)]; simpl in *.
  - split_and!; simpl; [done| | |done].
    + unfold addresses. rewrite omap_app, list_to_set_app_L. set_solver.
    + apply Forall_app. split; [done|]. by repeat constructor.
  - split_and!; simpl; [done..| |].
    + eapply Forall_impl; [exact Hr|]. intros r. by apply stage_timed_mono.
    + intros ip t [?|?]%Ht; [by left|right; lia].
  - destruct (same_service_cidrs _ _ (advance_same _ _ _ _ _ _ _ Ha)) as [_ Hcd].
    destruct (advance_table _ _ _ _ _ _ _ l (addresses rs) Ha) as (Hst & Hd' & Ht'); [done|by eapply Forall_lookup_1| |done..|].
    { intros ip Hip. by eapply addresses_elem. }
    split_and!; simpl; [by rewrite Hcd|by rewrite (addresses_insert _ _ _ _ st' Hi)|by apply Forall_insert|done].
  - split_and!; simpl; [by rewrite Hcd|by rewrite (addresses_insert _ _ _ _ (Answered a) Hi), Hf|by apply Forall_insert|].
    intros ip t Hl. unfold pause. rewrite Hf, Hcd. by apply Ht.
  - split_and!; simpl; [by rewrite Hcd|by rewrite Hf|done|].
    intros ip t Hl. unfold pause. rewrite Hf, Hcd. by apply Ht.
Qed.

Lemma gate_steps_timed g g' : rtc gate_step g g' → timed g → roomy g' → timed g'.
Proof.
  intros Hs Hg. revert g' Hs. refine (rtc_ind_r (λ g', roomy g' → timed g') g _ _); [done|].
  intros g1 g2 _ Hstep IH Hroom. apply (gate_step_timed _ _ Hstep); [done|]. apply IH. by eapply gate_step_roomy.
Qed.

Lemma gate_steps_cooldown g g' : rtc gate_step g g' → app_cooldown (app g') = app_cooldown (app g).
Proof.
  induction 1 as [|g1 g2 g3 Hs _ IH]; [done|]. rewrite IH.
  destruct Hs as [| |????????? joined ? Ha|???????? _ (_ & _ & Hc & _)|????? (_ & _ & Hc & _)]; simpl; [done..| |done|done].
  by apply (same_service_cidrs _ _ (advance_same _ _ _ _ _ _ _ Ha)).
Qed.

(** C18: the cooldown holds under every interleaving. Take any moment of any
    run in which fewer addresses than [max_tracked_ips] have been seen: if the
    last failure entered for an address was at [t] and the cooldown that
    follows it is not over, a request of that address that gets the mutex is
    answered with 429 and a positive [Retry-After]; its token is not verified
    and the state does not change. A failure entered, expired entries removed
    or another request's clock reading cannot open a gap. *)
Theorem cooldown_interleaved s c g i req ip now t joined :
  enabled (app_cooldown s) = true → auth_failures s = ∅ →
  rtc gate_step (mkGate s c [] ∅) g →
  Z.of_nat (size (addresses (requests g))) < max_tracked_ips (app_cooldown s) →
  requests g !! i = Some (req, Clocked ip now) →
  last g !! ip = Some t → clock g < t + seconds (app_cooldown s) * Instants.NANOS →
  ∃ n, 1 ≤ n ∧
    advance (clock g) joined req (Clocked ip now) (app g) = (Answered (Reply (cooling_down n)), app g).
Proof.
  intros He Hf Hs Hroom Hi Hl Ht. pose proof (gate_steps_cooldown _ _ Hs) as Hcd. simpl in Hcd.
  destruct (gate_steps_timed _ _ Hs) as (He' & _ & Hr & Htab).
  { split_and!; simpl; [done|by rewrite Hf, dom_empty_L|done|]. intros ip' t' Hl'. by rewrite lookup_empty in Hl'. }
  { unfold roomy. by rewrite Hcd. }
  pose proof (Forall_lookup_1 _ _ _ _ Hr Hi) as [Hn _].
  destruct (Htab _ _ Hl) as [Hentry|Hover]; unfold pause in *; rewrite Hcd in *; [|lia].
  simpl. unfold cooldown_remaining. rewrite Hcd, He, Hentry. simpl.
  rewrite (proj2 (Z.ltb_lt now _)) by lia. eexists. split; [|done].
  set (r := _ - now). destruct (ceil_secs_spec r r); unfold r, Instants.NANOS in *; lia.
Qed.

(** ** Guesses made at once *)

(** All the requests of a list move from one stage to the next. *)
Lemma advance_all s c l st (f : Request → Stage) pre reqs :
  (∀ req, req ∈ reqs → advance c true req st s = (f req, s) ∧ entered_failure st (f req) l = l) →
  rtc gate_step (mkGate s c (pre ++ ((λ r, (r, st)) <$> reqs)) l)
                (mkGate s c (pre ++ ((λ r, (r, f r)) <$> reqs)) l).
Proof.
  revert pre. induction reqs as [|req reqs IH]; intros pre Hf; [done|]. simpl.
  destruct (Hf req) as [Ha Hl]; [left|].
  eapply rtc_l; [eapply (gate_advance _ _ _ _ _ (length pre)); [by apply list_lookup_middle|exact Ha]|].
  rewrite Hl, insert_app_r_alt by lia. rewrite Nat.sub_diag. simpl.
  specialize (IH (pre ++ [(req, f req)])).
  rewrite <- !app_assoc in IH. apply IH. intros ??. apply Hf. by right.
Qed.

Lemma arrive_all s c l reqs rs :
  rtc gate_step (mkGate s c rs l) (mkGate s c (rs ++ ((λ r, (r, Arrived)) <$> reqs)) l).
Proof.
  revert rs. induction reqs as [|req reqs IH]; intros rs; simpl; [by rewrite app_nil_r|].
  eapply rtc_l; [apply gate_arrive|].
  specialize (IH (rs ++ [(req, Arrived)])). by rewrite <- app_assoc in IH.
Qed.

(** The verdict on a token that is decided without PBKDF2. *)
Definition verdict (s : AppState) (ip : Net.IpAddr) (req : Request) : Stage :=
  match bearer req with
  | Some t => if bool_decide (verify_begin (token s) t = Some true) then Entered else Rejected ip
  | None => Rejected ip
  end.

Definition decided (v : TokenVerifier) (req : Request) : Prop :=
  ∀ t, bearer req = Some t → verify_begin v t ≠ None.

Lemma advance_verdict s s' c ip req :
  token s' = token s → decided (token s) req →
  advance c true req (Passed ip) s' = (verdict s ip req, s').
Proof.
  intros Ht Hd. simpl. unfold verdict, decided in *. destruct (bearer req) as [t|]; [|done].
  rewrite Ht. specialize (Hd t eq_refl).
  destruct (verify_begin (token s) t) as [[]|]; [by rewrite bool_decide_true|by rewrite bool_decide_false|done].
Qed.

(** While no failure is in the table, any number of requests passes the check. *)
Lemma pass_all s c ip reqs l :
  auth_failures s = ∅ → (∀ req, req ∈ reqs → allowed_from (app_cidrs s) req ip) →
  rtc gate_step (mkGate s c [] l) (mkGate s c ((λ r, (r, Passed ip)) <$> reqs) l).
Proof.
  intros Hf Hal. etrans; [apply (arrive_all s c l reqs [])|]. simpl app.
  etrans; [apply (advance_all s c l Arrived (λ _, Clocked ip c) [] reqs)|simpl app].
  { intros req [Hip Hc]%Hal. simpl. by rewrite Hip, Hc. }
  apply (advance_all s c l (Clocked ip c) (λ _, Passed ip) [] reqs).
  intros req _. simpl. unfold cooldown_remaining. rewrite Hf, lookup_empty. by destruct (negb _).
Qed.

(** A request with a wrong token that has passed is answered with 401. *)
Lemma fail_first s s1 c ip first rest l :
  decided (token s) first → verdict s ip first = Rejected ip → record_auth_failure c ip s = (true, s1) →
  rtc gate_step (mkGate s c ((first, Passed ip) :: rest) l)
    (mkGate s1 c ((first, Answered (Reply unauthorized)) :: rest) (<[ip := c]> l)).
Proof.
  intros Hd Hbad Hrec. pose proof (advance_verdict s s c ip first eq_refl Hd) as Ha. rewrite Hbad in Ha.
  eapply rtc_l; [by eapply (gate_advance _ _ _ _ _ 0 first _ _ true)|]. simpl.
  eapply rtc_l; [by eapply (gate_advance _ _ _ _ _ 0 first _ _ true)|]. simpl.
  eapply rtc_l; [eapply (gate_advance _ _ _ _ _ 0 first _ _ true); [done|simpl; by rewrite Hrec]|]. done.
Qed.

(** C40: the cooldown does not limit guesses made at once. Any number of
    requests of one address can pass its check before the first failure is
    entered: there is a run, in which no time passes, whose first request has
    been answered with 401 and its failure entered, and in which the token of
    every other request is then verified all the same, a right one letting its
    request in. *)
Theorem parallel_guesses s c ip first reqs s1 :
  auth_failures s = ∅ →
  (∀ req, req ∈ first :: reqs → allowed_from (app_cidrs s) req ip ∧ decided (token s) req) →
  verdict s ip first = Rejected ip →
  record_auth_failure c ip s = (true, s1) →
  rtc gate_step (mkGate s c [] ∅)
    (mkGate s1 c ((first, Answered (Reply unauthorized)) :: ((λ r, (r, Passed ip)) <$> reqs)) {[ip := c]}) ∧
  rtc gate_step
    (mkGate s1 c ((first, Answered (Reply unauthorized)) :: ((λ r, (r, Passed ip)) <$> reqs)) {[ip := c]})
    (mkGate s1 c ((first, Answered (Reply unauthorized)) :: ((λ r, (r, verdict s ip r)) <$> reqs)) {[ip := c]}).
Proof.
  intros Hf Hal Hbad Hrec. split.
  - etrans; [apply (pass_all s c ip (first :: reqs)); [done|intros req Hin; by apply Hal]|].
    apply fail_first; [apply Hal; left|done..].
  - apply (advance_all s1 c _ (Passed ip) (verdict s ip) [_] reqs). intros req Hin. split.
    + apply advance_verdict; [by rewrite <- (record_auth_failure_token c ip s), Hrec|apply Hal; by right].
    + unfold verdict. by repeat case_match.
Qed.
End gate.

(** ** Concrete runs *)
Module GateToy.
#[local] Existing Instances Toy.regex Toy.ipnet Toy.hostlib toy_crypto AppToy.order.

Definition start : AppState := AppToy.app_with (AppToy.cooldown 10 2).
Definition failed : AppState := (record_auth_failure 0 AppToy.localhost start).2.

Lemma failed_eq : record_auth_failure 0 AppToy.localhost start = (true, failed).
Proof. apply AppToy.pair_eta. vm_compute. reflexivity. Defined.

Lemma all_allowed req :
  req ∈ [AppToy.bad; AppToy.good] →
  allowed_from (app_cidrs start) req AppToy.localhost ∧ decided (token start) req.
Proof.
  rewrite !elem_of_cons, elem_of_nil. intros [->|[->|[]]];
    (split; [split; vm_compute; reflexivity|]); intros t Ht; vm_compute in Ht; injection Ht as <-; vm_compute; discriminate.
Qed.

Lemma gate_interleaved_witness :
  ∃ ip t, allowed_from (app_cidrs start) AppToy.good ip ∧ bearer AppToy.good = Some t ∧ accepts (token start) t.
Proof.
  apply (gate_interleaved start 0 (mkGate start 0 [(AppToy.good, Entered)] ∅) 0); [exact I| |reflexivity].
  etrans; [apply (pass_all start 0 AppToy.localhost [AppToy.good]); [reflexivity|]|].
  { intros req ->%list_elem_of_singleton. apply all_allowed. right. left. }
  eapply rtc_l; [|apply rtc_refl]. apply (gate_advance start start 0 [(AppToy.good, Passed AppToy.localhost)] ∅ 0
    AppToy.good (Passed AppToy.localhost) Entered true); [reflexivity|].
  etrans; [apply (advance_verdict start start); [reflexivity|apply all_allowed; right; left]|].
  reflexivity.
Defined.

Lemma cooldown_interleaved_witness :
  ∃ n, 1 ≤ n ∧ advance 5 true AppToy.good (Clocked AppToy.localhost 5) failed
    = (Answered (Reply (cooling_down n)), failed).
Proof.
  apply (cooldown_interleaved start 0
    (mkGate failed 5 [(AppToy.bad, Answered (Reply unauthorized)); (AppToy.good, Clocked AppToy.localhost 5)]
      (<[AppToy.localhost := 0]> ∅)) 1 AppToy.good AppToy.localhost 5 0 true);
    [reflexivity|reflexivity| |vm_compute; reflexivity|reflexivity|apply lookup_insert_eq|vm_compute; reflexivity].
  etrans; [apply (pass_all start 0 AppToy.localhost [AppToy.bad]); [reflexivity|]|].
  { intros req ->%list_elem_of_singleton. apply all_allowed. left. }
  etrans; [apply (fail_first start failed); [apply all_allowed; left|vm_compute; reflexivity|apply failed_eq]|].
  eapply rtc_l; [apply (gate_tick _ 0 5); lia|]. eapply rtc_l; [apply (gate_arrive _ _ _ _ AppToy.good)|].
  pose proof (gate_advance failed failed 5 [(AppToy.bad, Answered (Reply unauthorized)); (AppToy.good, Arrived)]
    (<[AppToy.localhost := 0]> ∅) 1 AppToy.good Arrived (Clocked AppToy.localhost 5) true) as Hstep.
  simpl in Hstep. eapply rtc_l; [|apply rtc_refl]. apply Hstep; reflexivity.
Defined.

Lemma parallel_guesses_witness :
  rtc gate_step (mkGate start 0 [] ∅)
    (mkGate failed 0 [(AppToy.bad, Answered (Reply unauthorized)); (AppToy.good, Entered)] {[AppToy.localhost := 0]}).
Proof.
  destruct (parallel_guesses start 0 AppToy.localhost AppToy.bad [AppToy.good] failed) as [H1 H2];
    [reflexivity|exact all_allowed|vm_compute; reflexivity|exact failed_eq|].
  assert (verdict start AppToy.localhost AppToy.good = Entered) as He by (vm_compute; reflexivity).
  etrans; [exact H1|]. simpl in H2. rewrite He in H2. exact H2.
Defined.
End GateToy.
