(* ===== verification/System.v ===== *)
(** * The application and its tasks together

    [App] accepts requests and [Process] runs tasks; they meet in the shared
    state: the two semaphores, the table of the store and its counter of active
    tasks. Here the effects of any number of tasks, each computed by
    [Process.start_task] under a schedule of its own, are interleaved one by one
    with the requests of the application. The theorems say what a client and
    the shutdown sequence may conclude from what they see of the shared state. *)

From S2P Require Import Prelude RustStd Model Secret Disk Journal Store Config Capture Process Lifecycle App.
Local Open Scope string_scope.
Local Open Scope list_scope.
Local Open Scope Z_scope.

(** A task in progress: the effects it still has to produce. *)
Record Live := mkLive { l_id : Uuid; l_path : string; l_todo : list Effect }.

Section system.
Context `{RegexLib, IpNetLib, HostLib, CryptoLib, JsonLaws, TimeLib, UuidLib, Platform, MapOrder}.

Record System := mkSystem { app : AppState; live : list Live }.

Definition set_store (st : TaskStore) (s : AppState) : AppState :=
  set_sys (mkSys st (world (app_sys s))) s.

(** What an effect of the task [i] of route [p] does to the shared state: a
    published snapshot is in its record, dropped permits return to their
    semaphores, [mark_finished] decrements the counter. *)
Definition apply_effect (i : Uuid) (p : string) (e : Effect) (s : AppState) : AppState :=
  match e with
  | Published sn => set_store (set_tasks (alter (set_snap sn) i (tasks (store (app_sys s)))) (store (app_sys s))) s
  | DroppedPermits => release_global (release_route p s)
  | MarkedFinished => set_store (mark_finished (store (app_sys s))) s
  | _ => s
  end.

(** [trace] is what the task with record [r] does when it runs to its end. *)
Definition completes_as (route : ResolvedRoute) (args : list string) (r : TaskRecord) (trace : list Effect) : Prop :=
  ∃ s s', record s = r ∧ fresh s ∧ queued s ∧ start_task route args s = (Ok tt, s') ∧ trace = effects s'.

(** What else changes the shared state: refused executions, stop requests of
    clients and of the shutdown, cleanup, management requests with the reload of
    the configuration, reads of output, and the token cache and failure table of
    the authentication, whose verification may be resumed later. *)
Inductive request_step : AppState → AppState → Prop :=
| req_refused i now p args s e s' : execute i now p args s = (Err e, s') → request_step s s'
| req_stop why fin acc i s : request_step s (stop_task why fin acc i s).2
| req_cancel_all why s : request_step s (set_store (cancel_all why (store (app_sys s))) s)
| req_cleanup now s : request_step s (set_sys (cleanup_expired now (app_sys s)).2 s)
| req_management act s : request_step s (request_management_action act s).2
| req_authorized req s : request_step s (authorized req s).2
| req_verified t s : request_step s (set_token (verify_finish (token s) t).2 s)
| req_output w s : request_step s (set_sys (mkSys (store (app_sys s)) w) s)  (* reading uses the disk *)
| req_reload h s : request_step s (set_host h s)
| req_cooldown now ip s : request_step s (cooldown_remaining now ip s).2
| req_failed now ip s : request_step s (record_auth_failure now ip s).2.

(** An accepted request is one step here. In app.rs [store.create] is awaited
    after the permits are taken and before the task is in the table, so other
    steps can fall in between: that window, with the permits of the requests in
    flight, is the subject of [App.app_step] and not repeated here. Nothing of
    the task itself happens in it, since it is spawned afterwards. *)
Inductive sys_step : System → System → Prop :=
| sys_execute s s' ls i now p args rt r a trace :
    app_routes s !! p = Some rt → execute i now p args s = (Ok a, s') →
    (∀ l, l ∈ ls → l_id l ≠ i) →                 (* UUIDs are not drawn twice *)
    tasks (store (app_sys s')) !! i = Some r → completes_as (config rt) args r trace →
    sys_step (mkSystem s ls) (mkSystem s' (mkLive i p trace :: ls))
| sys_effect s l1 i p e es l2 :
    sys_step (mkSystem s (l1 ++ mkLive i p (e :: es) :: l2))
      (mkSystem (apply_effect i p e s) (l1 ++ mkLive i p es :: l2))
| sys_request s s' ls : request_step s s' → sys_step (mkSystem s ls) (mkSystem s' ls).

(** What they have in common: permits, counter and snapshots stay, and only
    finished tasks leave the table. *)
Record quiet_change (s s' : AppState) : Prop := {
  qc_global : global_limit s' = global_limit s;
  qc_routes : app_routes s' = app_routes s;
  qc_active : active_count (store (app_sys s')) = active_count (store (app_sys s));
  qc_kept i r : tasks (store (app_sys s)) !! i = Some r → is_finished (status (snap r)) = false →
    ∃ r', tasks (store (app_sys s')) !! i = Some r' ∧ snap r' = snap r;
  qc_old i r' : tasks (store (app_sys s')) !! i = Some r' →
    ∃ r, tasks (store (app_sys s)) !! i = Some r ∧ snap r' = snap r ∧ id r' = id r
}.

(** ** Counting *)

Definition is_mark (e : Effect) : bool := match e with MarkedFinished => true | _ => false end.

(** A task holds its permits until it drops them, and counts as active until it
    is marked. *)
Definition holding (l : Live) : bool := existsb is_drop (l_todo l).
Definition active (l : Live) : bool := existsb is_mark (l_todo l).

Definition b2n (b : bool) : nat := if b then 1 else 0.
Definition holders (ls : list Live) : nat := sum_list_with (λ l, b2n (holding l)) ls.
Definition holders_on (p : string) (ls : list Live) : nat :=
  sum_list_with (λ l, b2n (holding l && bool_decide (l_path l = p))) ls.
Definition actives (ls : list Live) : nat := sum_list_with (λ l, b2n (active l)) ls.

(** Where the task stands: still working and not finished in the store, or
    past the release of its permits. *)
Definition unfinished (i : Uuid) (s : AppState) : Prop :=
  ∃ r, tasks (store (app_sys s)) !! i = Some r ∧ is_finished (status (snap r)) = false.

Definition shown_finished (i : Uuid) (s : AppState) : Prop :=
  ∀ r, tasks (store (app_sys s)) !! i = Some r → is_finished (status (snap r)) = true.

Definition working (es : list Effect) : Prop :=
  ∃ spec pre post, es = pre ++ [DroppedPermits] ++ post ++ [MarkedFinished] ∧
    Forall (quiet spec) pre ∧ Forall final_publication post ∧ post ≠ [].

Definition closing (es : list Effect) : Prop :=
  ∃ post, es = post ++ [MarkedFinished] ∧ Forall final_publication post ∧ post ≠ [].

Definition closed (es : list Effect) : Prop :=
  es = [] ∨ ∃ post, es = post ++ [MarkedFinished] ∧ Forall final_publication post.

Definition stage (s : AppState) (l : Live) : Prop :=
  (working (l_todo l) ∨ closing (l_todo l)) ∧ unfinished (l_id l) s ∨
  closed (l_todo l) ∧ shown_finished (l_id l) s.

(** Records are filed under their UUID and only finished ones have an end. *)
Definition store_ok (st : TaskStore) : Prop :=
  map_Forall (λ i r, id r = i ∧ (is_finished (status (snap r)) = false → finished_at (snap r) = None)) (tasks st).

Record sys_inv (total : Z) (cfg : gmap string ResolvedRoute) (a : System) : Prop := {
  si_config : config <$> app_routes (app a) = cfg;
  si_global : global_limit (app a) + Z.of_nat (holders (live a)) = total;
  si_routes p rt : app_routes (app a) !! p = Some rt →
    limit rt + Z.of_nat (holders_on p (live a)) = max_concurrency (config rt);
  si_active : active_count (store (app_sys (app a))) = Z.of_nat (actives (live a)) mod 2 ^ 64;
  si_ids : NoDup (l_id <$> live a);
  si_stage : Forall (stage (app a)) (live a);
  si_store : store_ok (store (app_sys (app a)));
  si_published : Forall (λ l, Forall wf_snapshot (published (l_todo l))) (live a)
}.

(** ** One effect *)

Lemma quiet_existsb spec pre :
  Forall (quiet spec) pre → existsb is_drop pre = false ∧ existsb is_mark pre = false.
Proof. induction 1 as [|[] ? ? ? [IH1 IH2]]; simpl in *; try done. Qed.

Lemma final_existsb post :
  Forall final_publication post → existsb is_drop post = false ∧ existsb is_mark post = false.
Proof. induction 1 as [|? ? [sn [-> _]] ? [IH1 IH2]]; simpl; done. Qed.

Lemma working_flags es : working es → existsb is_drop es = true ∧ existsb is_mark es = true.
Proof.
  intros (spec & pre & post & -> & _ & _ & _).
  split; rewrite !existsb_app; simpl; by rewrite ?orb_true_r.
Qed.

Lemma closing_flags es : closing es → existsb is_drop es = false ∧ existsb is_mark es = true.
Proof.
  intros (post & -> & Hf & _). apply final_existsb in Hf as [Hd Hm]. rewrite !existsb_app, Hd, Hm. done.
Qed.

Lemma closed_flags es : closed es → existsb is_drop es = false ∧ existsb is_mark es = negb (bool_decide (es = [])).
Proof.
  intros [->|(post & -> & Hf)]; [done|]. apply final_existsb in Hf as [Hd Hm].
  rewrite !existsb_app, Hd, Hm, bool_decide_eq_false_2 by (by destruct post). done.
Qed.

(** The next effect of a task, by its stage. *)
Inductive next_effect (e : Effect) (es : list Effect) : Prop :=
| next_quiet : is_drop e = false → is_mark e = false →
    (∀ sn, e = Published sn → is_finished (status sn) = false) → working es → next_effect e es
| next_drop : e = DroppedPermits → closing es → next_effect e es
| next_final sn : e = Published sn → is_finished (status sn) = true → closed es → next_effect e es
| next_mark : e = MarkedFinished → es = [] → next_effect e es.

Lemma working_next e es : working (e :: es) → next_effect e es.
Proof.
  intros (spec & [|e' pre] & post & He & Hq & Hf & Hne); simplify_eq/=.
  - apply next_drop; [done|]. by exists post.
  - apply Forall_cons in Hq as [Hq Hp]. apply next_quiet; [by destruct e'|by destruct e'|by intros ? ->|].
    by exists spec, pre, post.
Qed.

Lemma final_next e post es :
  e :: es = post ++ [MarkedFinished] → Forall final_publication post → next_effect e es.
Proof.
  destruct post as [|e' post]; intros He Hf; simplify_eq/=; [by apply next_mark|].
  apply Forall_cons in Hf as [[sn [-> Hs]] Hf]. apply (next_final _ _ sn); [done|done|]. right. eauto.
Qed.

Lemma stage_next s l e es : l_todo l = e :: es → stage s l → next_effect e es.
Proof.
  intros Ht. unfold stage. rewrite Ht. intros [[[Hw|(post & He & Hf & _)] _]|[[?|(post & He & Hf)] _]].
  - by apply working_next.
  - by eapply final_next.
  - done.
  - by eapply final_next.
Qed.

(** How an effect changes what the task holds. *)
Lemma next_effect_flags e es :
  next_effect e es →
  b2n (existsb is_drop (e :: es)) = (b2n (existsb is_drop es) + b2n (is_drop e))%nat ∧
  b2n (existsb is_mark (e :: es)) = (b2n (existsb is_mark es) + b2n (is_mark e))%nat.
Proof.
  intros Hn. cbn [existsb]. destruct Hn as [Hd Hm _ _| -> Hc|sn -> _ _| -> ->]; [by rewrite Hd, Hm; simpl; rewrite !Nat.add_0_r| | |done].
  - apply closing_flags in Hc as [-> ->]. done.
  - simpl. by rewrite !Nat.add_0_r.
Qed.

Lemma apply_effect_other i p e s j :
  j ≠ i → tasks (store (app_sys (apply_effect i p e s))) !! j = tasks (store (app_sys s)) !! j.
Proof. intros Hj. destruct e; try done. simpl. by rewrite lookup_alter_ne. Qed.

Lemma apply_effect_quiet i p e s :
  (∀ sn, e ≠ Published sn) → tasks (store (app_sys (apply_effect i p e s))) = tasks (store (app_sys s)).
Proof. intros He. destruct e; try done. by destruct (He s0). Qed.

Lemma stage_effect s i p e es :
  stage s (mkLive i p (e :: es)) → stage (apply_effect i p e s) (mkLive i p es).
Proof.
  intros Hst. pose proof (stage_next s (mkLive i p (e :: es)) e es eq_refl Hst) as Hn. unfold stage in *. simpl in *.
  assert (∀ sn, e = Published sn → ∀ r, tasks (store (app_sys (apply_effect i p e s))) !! i = Some r → snap r = sn) as Hp.
  { intros sn -> r. simpl. rewrite lookup_alter_eq. destruct (_ !! i); [|done]. by intros [= <-]. }
  destruct Hn as [Hd Hm Hsn Hw| -> Hc|sn -> Hs Hc| -> ->].
  - left. split; [by left|]. destruct Hst as [[_ Hu]|[Hcl _]].
    2: { apply closed_flags in Hcl as [Hx _]. simpl in Hx. rewrite (proj1 (working_flags _ Hw)), orb_true_r in Hx. done. }
    destruct Hu as (r & Hr & Hf). destruct e; try (by exists r).
    exists (set_snap s0 r). simpl. rewrite lookup_alter_eq, Hr. split; [done|]. by apply Hsn.
  - left. split; [by right|]. destruct Hst as [[_ Hu]|[Hcl _]]; [done|].
    apply closed_flags in Hcl as [Hx _]. done.
  - right. split; [done|]. intros r Hr. by rewrite (Hp sn eq_refl r Hr).
  - right. split; [by left|]. destruct Hst as [[[Hw|Hc] _]|[_ Hf]]; [| |done].
    + apply working_flags in Hw as [? _]. done.
    + by destruct Hc as ([|? []] & He & Hf & ?); simplify_eq/=.
Qed.

(** ** The invariant *)

Lemma apply_effect_limits i p e s :
  global_limit (apply_effect i p e s) = global_limit s + Z.of_nat (b2n (is_drop e)) ∧
  config <$> app_routes (apply_effect i p e s) = config <$> app_routes s ∧
  (∀ q rt', app_routes (apply_effect i p e s) !! q = Some rt' →
     ∃ rt, app_routes s !! q = Some rt ∧ config rt' = config rt ∧
       limit rt' = limit rt + Z.of_nat (b2n (is_drop e && bool_decide (p = q)))).
Proof.
  assert (∀ q rt', app_routes s !! q = Some rt' → ∃ rt, app_routes s !! q = Some rt ∧ config rt' = config rt ∧
    limit rt' = limit rt + Z.of_nat 0) as Hsame.
  { intros q rt' Hq. exists rt'. split_and!; [done|done|lia]. }
  destruct e; simpl; rewrite ?Z.add_0_r; try done.
  split_and!; [done|by apply config_alter|]. intros q rt' Hq. destruct (decide (p = q)) as [->|Hne].
  - rewrite lookup_alter_eq in Hq. rewrite bool_decide_eq_true_2 by done.
    destruct (app_routes s !! q) as [rt|]; [|done]. injection Hq as <-. by exists rt.
  - rewrite lookup_alter_ne in Hq by done. rewrite bool_decide_eq_false_2 by done. by apply Hsame.
Qed.

Lemma apply_effect_active i p e s :
  active_count (store (app_sys (apply_effect i p e s))) =
    if is_mark e then wrapping_sub (active_count (store (app_sys s))) 1 else active_count (store (app_sys s)).
Proof. by destruct e. Qed.

Lemma stage_other s i p e l : l_id l ≠ i → stage s l → stage (apply_effect i p e s) l.
Proof.
  intros Hi. unfold stage, unfinished, shown_finished. by setoid_rewrite (apply_effect_other i p e s (l_id l) Hi).
Qed.

Lemma stages_other s i p e ls :
  i ∉ l_id <$> ls → Forall (stage s) ls → Forall (stage (apply_effect i p e s)) ls.
Proof.
  intros Hi Hs. apply Forall_forall. intros l Hl. rewrite Forall_forall in Hs. apply stage_other; [|by apply Hs].
  intros <-. apply Hi. by apply list_elem_of_fmap_2.
Qed.

Lemma apply_effect_store i p e es s :
  Forall wf_snapshot (published (e :: es)) → store_ok (store (app_sys s)) →
  store_ok (store (app_sys (apply_effect i p e s))).
Proof.
  intros Hwf Hst. destruct e; try done. simpl in *. apply Forall_cons in Hwf as [[_ Hfin _ _] _].
  intros j r. simpl. rewrite lookup_alter. case_decide as Hj; [|apply Hst].
  subst j. destruct (tasks (store (app_sys s)) !! i) as [r0|] eqn:Hr; [|done]. intros [= <-]. simpl. split; [by apply (Hst i)|].
  intros Hf. apply eq_None_not_Some. intros Hx%Hfin. congruence.
Qed.

Lemma effect_inv total cfg s l1 i p e es l2 :
  sys_inv total cfg (mkSystem s (l1 ++ mkLive i p (e :: es) :: l2)) →
  sys_inv total cfg (mkSystem (apply_effect i p e s) (l1 ++ mkLive i p es :: l2)).
Proof.
  intros [Hc Hg Hr Ha Hi Hs Hst Hpub]. simpl in *.
  assert (Forall wf_snapshot (published (e :: es))) as Hwf
    by (rewrite Forall_forall in Hpub; apply (Hpub (mkLive i p (e :: es))); set_solver).
  assert (stage s (mkLive i p (e :: es))) as Hnow by (rewrite Forall_forall in Hs; apply Hs; set_solver).
  pose proof (stage_next s (mkLive i p (e :: es)) e es eq_refl Hnow) as Hn.
  apply next_effect_flags in Hn as [Hdrop Hmark].
  destruct (apply_effect_limits i p e s) as (Hg' & Hc' & Hr').
  unfold holders, actives in *. rewrite sum_list_with_middle in Hg, Ha.
  change (holding (mkLive i p (e :: es))) with (existsb is_drop (e :: es)) in *.
  change (active (mkLive i p (e :: es))) with (existsb is_mark (e :: es)) in *.
  rewrite Hdrop in Hg. rewrite Hmark in Ha.
  split; simpl; unfold holders, actives; rewrite ?sum_list_with_middle.
  - congruence.
  - rewrite Hg'. change (holding (mkLive i p es)) with (existsb is_drop es). lia.
  - intros q rt' Hq. destruct (Hr' q rt' Hq) as (rt & Hrt & Hcf & Hl). rewrite Hcf, Hl, <- (Hr q rt Hrt).
    unfold holders_on. rewrite !sum_list_with_middle. cbn [l_path].
    change (holding (mkLive i p (e :: es))) with (existsb is_drop (e :: es)).
    change (holding (mkLive i p es)) with (existsb is_drop es).
    case_bool_decide; rewrite ?andb_true_r, ?andb_false_r; [rewrite Hdrop|simpl]; lia.
  - rewrite apply_effect_active, Ha. change (active (mkLive i p es)) with (existsb is_mark es). destruct (is_mark e); simpl.
    + unfold wrapping_sub. rewrite Zminus_mod_idemp_l. f_equal. lia.
    + f_equal. lia.
  - by rewrite fmap_app in *.
  - rewrite fmap_app in Hi. simpl in Hi. apply NoDup_app in Hi as (_ & Hi1 & Hi2%NoDup_cons).
    apply Forall_app in Hs as [Hs1 [_ Hs2]%Forall_cons]. apply Forall_app. split; [|constructor].
    + apply stages_other; [|done]. intros Hin. apply (Hi1 i Hin). by left.
    + by apply stage_effect.
    + apply stages_other; [|done]. by destruct Hi2.
  - by apply (apply_effect_store i p e es).
  - apply Forall_app in Hpub as [? [_ ?]%Forall_cons]. apply Forall_app. split; [done|]. constructor; [|done].
    destruct e; simpl in *; try done. by apply Forall_cons in Hwf as [_ ?].
Qed.

Lemma execute_inv total cfg s s' ls i now p args rt r a trace :
  app_routes s !! p = Some rt → execute i now p args s = (Ok a, s') → (∀ l, l ∈ ls → l_id l ≠ i) →
  tasks (store (app_sys s')) !! i = Some r → completes_as (config rt) args r trace →
  sys_inv total cfg (mkSystem s ls) → sys_inv total cfg (mkSystem s' (mkLive i p trace :: ls)).
Proof.
  intros Hp He Hids Htask (s0 & s1 & _ & Hf & Hqd & Ht & ->) [Hc Hg Hr Ha Hi Hs Hst Hpub]. simpl in *.
  pose proof (start_task_wf _ _ _ _ _ Hqd Ht) as [Hwf _].
  apply start_task_effects in Ht as (_ & pre & post & Htr & Hq & Hfin & Hne); [|done].
  pose proof (execute_cases i now p args s) as Hx. rewrite He in Hx.
  destruct Hx as (rt' & Hp' & _ & Hg0 & Hl0 & _ & Hg' & Hr' & Htasks & Ha' & _). simplify_eq.
  assert (working (effects s1)) as Hw by (rewrite Htr; by exists (spec_of (config rt) args), pre, post).
  pose proof (working_flags _ Hw) as [Hd Hm].
  assert (∀ j, j ≠ i → tasks (store (app_sys s')) !! j = tasks (store (app_sys s)) !! j) as Hother
    by (intros j Hj; by rewrite Htasks, lookup_insert_ne).
  split; simpl; unfold holders, actives, holders_on, holding, active in *; simpl.
  - rewrite Hr', fmap_insert, insert_id; [done|]. by rewrite lookup_fmap, Hp.
  - rewrite Hd, Hg'. simpl. lia.
  - intros q rq. rewrite Hr', Hd. simpl. destruct (decide (p = q)) as [->|Hpq].
    + rewrite lookup_insert_eq. intros [= <-]. simpl. rewrite bool_decide_eq_true_2, <- (Hr q rt Hp) by done.
      simpl. lia.
    + rewrite lookup_insert_ne, bool_decide_eq_false_2 by done. intros Hrq. rewrite <- (Hr q rq Hrq). simpl. lia.
  - rewrite Ha', Hm, Ha. unfold wrapping_add. rewrite Zplus_mod_idemp_l. f_equal. simpl. lia.
  - constructor; [|done]. intros (l & -> & Hl)%list_elem_of_fmap. by apply (Hids l Hl).
  - constructor.
    + left. split; [by left|]. eexists. rewrite Htasks. simpl. by rewrite lookup_insert_eq.
    + apply Forall_forall. intros l Hl. rewrite Forall_forall in Hs. specialize (Hs l Hl).
      unfold stage, unfinished, shown_finished in *. by rewrite (Hother (l_id l) (Hids l Hl)).
  - unfold store_ok. rewrite Htasks. by apply map_Forall_insert_2.
  - by constructor.
Qed.

Lemma quiet_store s s' :
  quiet_change s s' → store_ok (store (app_sys s)) → store_ok (store (app_sys s')).
Proof.
  intros Hq Hst i r' Hr. destruct (qc_old _ _ Hq i r' Hr) as (r & Hr0 & -> & ->). by apply Hst.
Qed.

Lemma other_inv total cfg s s' ls :
  quiet_change s s' → sys_inv total cfg (mkSystem s ls) → sys_inv total cfg (mkSystem s' ls).
Proof.
  intros Hq [Hc Hg Hr Ha Hi Hs Hst Hpub]. pose proof (quiet_store _ _ Hq Hst) as Hst'.
  destruct Hq as [Qg Qr Qa Qk Qo]. simpl in *.
  split; simpl; rewrite ?Qg, ?Qr, ?Qa; try done.
  apply Forall_forall. intros l Hl. rewrite Forall_forall in Hs. destruct (Hs l Hl) as [[Ht (r & Hx & Hf)]|[Ht Hf]].
  - left. split; [done|]. destruct (Qk _ _ Hx Hf) as (r' & ? & Hsn). exists r'. by rewrite Hsn.
  - right. split; [done|]. intros r' Hx. destruct (Qo _ _ Hx) as (r & Hr0 & -> & _). by apply Hf.
Qed.

(** ** The requests that only make quiet changes *)

(** A change of the stop channels alone. *)
Lemma quiet_tasks s s' :
  global_limit s' = global_limit s → app_routes s' = app_routes s →
  active_count (store (app_sys s')) = active_count (store (app_sys s)) →
  (∀ i, (λ r, (id r, snap r)) <$> tasks (store (app_sys s')) !! i =
        (λ r, (id r, snap r)) <$> tasks (store (app_sys s)) !! i) →
  quiet_change s s'.
Proof.
  intros Hg Hr Ha Hf. split; try done.
  - intros i r Hl _. specialize (Hf i). rewrite Hl in Hf. apply fmap_Some in Hf as (r' & ? & [= ? ?]). eauto.
  - intros i r' Hl. specialize (Hf i). rewrite Hl in Hf. symmetry in Hf. apply fmap_Some in Hf as (r & ? & [= ? ?]). eauto.
Qed.

(** Requests that leave the store as it is. *)
Lemma quiet_same_store s s' :
  global_limit s' = global_limit s → app_routes s' = app_routes s → store (app_sys s') = store (app_sys s) →
  quiet_change s s'.
Proof. intros Hg Hr Hs. apply quiet_tasks; rewrite ?Hs; done. Qed.

Lemma stop_task_quiet why fin acc i s : quiet_change s (stop_task why fin acc i s).2.
Proof.
  unfold stop_task, request_stop, get. destruct (tasks _ !! i) as [r|] eqn:Hi; [|by apply quiet_same_store].
  destruct (is_finished _); [by apply quiet_same_store|].
  apply quiet_tasks; try done. intros j. simpl. rewrite lookup_insert. case_decide; [subst; by rewrite Hi|done].
Qed.

Lemma cancel_all_quiet why s : quiet_change s (set_store (cancel_all why (store (app_sys s))) s).
Proof.
  apply quiet_tasks; try done. intros i. simpl. rewrite lookup_fmap. destruct (tasks _ !! i) as [r|]; [|done].
  simpl. unfold cancel_record. by destruct (is_finished _).
Qed.

(** Cleanup removes only tasks with a recorded end. *)
Lemma cleanup_quiet now s :
  store_ok (store (app_sys s)) → quiet_change s (set_sys (cleanup_expired now (app_sys s)).2 s).
Proof.
  intros Hok. destruct (cleanup_expired_tasks now (app_sys s)) as (x & -> & Ha & _ & Hl); [by intros i r []%Hok|].
  split; try done; simpl.
  - intros i r Hr Hf. rewrite Hl, Hr. unfold expired. rewrite (proj2 (Hok i r Hr) Hf). eauto.
  - intros i r'. rewrite Hl. destruct (tasks _ !! i) as [r|]; [|done].
    destruct (expired _ _ _); [done|]. intros [= <-]. eauto.
Qed.

Lemma authentication_quiet s :
  (∀ req, quiet_change s (authorized req s).2) ∧ (∀ t, quiet_change s (set_token (verify_finish (token s) t).2 s)) ∧
  (∀ now ip, quiet_change s (cooldown_remaining now ip s).2) ∧
  (∀ now ip, quiet_change s (record_auth_failure now ip s).2).
Proof.
  split_and!; intros; apply quiet_same_store;
    unfold authorized, cooldown_remaining, record_auth_failure; repeat case_match; simplify_eq/=; done.
Qed.

Lemma request_quiet s s' : store_ok (store (app_sys s)) → request_step s s' → quiet_change s s'.
Proof.
  intros Hok Hr. destruct (authentication_quiet s) as (Q1 & Qv & Q2 & Q3).
  destruct Hr as [i now p args s e s' He| | | |act s| | | | | |]; try done.
  - pose proof (execute_cases i now p args s) as Hx. rewrite He in Hx. destruct Hx as (_ & ? & ? & ?).
    by apply quiet_same_store.
  - apply stop_task_quiet.
  - apply cancel_all_quiet.
  - by apply cleanup_quiet.
  - unfold request_management_action. case_bool_decide; [destruct (try_send _ _)|]; by apply quiet_same_store.
  - by apply quiet_same_store.
  - by apply quiet_same_store.
Qed.

Lemma sys_step_inv total cfg a b : sys_step a b → sys_inv total cfg a → sys_inv total cfg b.
Proof.
  intros Hstep Hinv. destruct Hstep as [|s l1 i p e es l2|s s' ls Hr].
  - by eapply execute_inv.
  - by apply effect_inv.
  - eapply other_inv; [|exact Hinv]. apply request_quiet; [apply Hinv|done].
Qed.

(** A service is started on a store that [TaskStore::open] returned. *)
Definition started (c : ResolvedConfig) (h : host) (sys : Sys) (s : AppState) : Prop :=
  build_state c h sys = Some s ∧
  ∃ mk lf lk entries now1 now2 w,
    open_store (directory (logging c)) (retention_seconds (logging c)) (max_output_bytes_per_task (logging c))
      mk lf lk entries now1 now2 w = (Ok tt, sys).

Lemma sys_start_inv c h sys s :
  0 ≤ max_total_concurrency (execution c) → Forall (λ r, 0 ≤ max_concurrency r) (routes c) →
  started c h sys s →
  sys_inv (max_total_concurrency (execution c)) (config <$> app_routes s) (mkSystem s []).
Proof.
  intros Hg Hr [Hb (mk & lf & lk & entries & now1 & now2 & w & Ho)].
  apply open_store_inv in Ho as (Hfin & Hk & Ha).
  pose proof (build_inv _ _ _ _ Hg Hr Hb) as (_ & (_ & Hgl & Hrt) & _).
  assert (app_sys s = sys) as Hsys.
  { unfold build_state in Hb. destruct (build_routes _ _); [|done]. simpl in Hb. destruct (Semaphore_new _); [|done].
    by simplify_eq/=. }
  simpl in *. split; simpl; try done; rewrite ?Hsys; try done.
  - lia.
  - intros p rt Hp. destruct (Hrt p rt Hp) as [_ Hl]. unfold holders_on, tasks_on in *. simpl in *. lia.
  - constructor.
  - intros i r Hi. split; [by apply (Hk i)|]. rewrite (Hfin i r Hi). done.
Qed.

Lemma sys_run_inv c h sys s a :
  0 ≤ max_total_concurrency (execution c) → Forall (λ r, 0 ≤ max_concurrency r) (routes c) →
  started c h sys s → rtc sys_step (mkSystem s []) a →
  sys_inv (max_total_concurrency (execution c)) (config <$> app_routes s) a.
Proof.
  intros Hg Hr Hb Hrun. eapply (rtc_invariant sys_step (sys_inv _ _)); [|exact Hrun|by eapply sys_start_inv].
  intros x y. apply sys_step_inv.
Qed.

(** A live task may always produce its next effect, so it can run to its end
    whatever the other tasks do. *)
Lemma task_completes s l1 i p es l2 :
  rtc sys_step (mkSystem s (l1 ++ mkLive i p es :: l2))
    (mkSystem (fold_left (λ s e, apply_effect i p e s) es s) (l1 ++ mkLive i p [] :: l2)).
Proof.
  revert s. induction es as [|e es IH]; intros s; simpl; [done|].
  eapply rtc_l; [apply sys_effect|apply IH].
Qed.

(** ** What may be concluded from the shared state *)

(** C3: whatever tasks run and however their effects interleave with each other
    and with requests, a task that the store shows as finished has already
    returned both of its permits, so that a client which sees the end of a task
    can start the next one in its place. In every state the free permits and
    the tasks still holding one add up to the configured limits, in total and
    for each route. *)
Theorem finished_tasks_hold_nothing c h sys s a :
  0 ≤ max_total_concurrency (execution c) → Forall (λ r, 0 ≤ max_concurrency r) (routes c) →
  started c h sys s → rtc sys_step (mkSystem s []) a →
  (∀ l r, l ∈ live a → tasks (store (app_sys (app a))) !! l_id l = Some r →
     is_finished (status (snap r)) = true → holding l = false) ∧
  global_limit (app a) + Z.of_nat (holders (live a)) = max_total_concurrency (execution c) ∧
  (∀ p rt, app_routes (app a) !! p = Some rt →
     limit rt + Z.of_nat (holders_on p (live a)) = max_concurrency (config rt)).
Proof.
  intros Hg Hr Hb Hrun. destruct (sys_run_inv _ _ _ _ _ Hg Hr Hb Hrun) as [_ Hgl Hrt _ _ Hst _ _].
  split_and!; [|done|done]. intros l r Hl Htask Hf. rewrite Forall_forall in Hst.
  destruct (Hst l Hl) as [[_ (r' & Hr' & Hf')]|[Hc _]]; [congruence|]. by apply closed_flags in Hc as [? _].
Qed.

Lemma sum_list_with_zero {A} (f : A → nat) l : sum_list_with f l = O → Forall (λ x, f x = O) l.
Proof. induction l as [|x l IH]; simpl; intros Hs; constructor; [lia|]. apply IH. lia. Qed.

Lemma actives_length ls : (actives ls ≤ length ls)%nat.
Proof. induction ls as [|l ls IH]; simpl; [done|]. unfold actives in *. simpl. destruct (active l); simpl; lia. Qed.

(** An idle counter means that no task has anything left to do, *)
Lemma idle_todo total cfg a :
  sys_inv total cfg a → active_count (store (app_sys (app a))) = 0 → Z.of_nat (length (live a)) < 2 ^ 64 →
  Forall (λ l, l_todo l = []) (live a).
Proof.
  intros [_ _ _ Hact _ Hst _ _] Hidle Hlen. pose proof (actives_length (live a)).
  rewrite Hidle, Z.mod_small in Hact by lia.
  assert (actives (live a) = O) as Hz by lia. apply sum_list_with_zero in Hz.
  apply Forall_forall. intros l Hl. rewrite Forall_forall in Hz, Hst. specialize (Hz l Hl). unfold active in Hz.
  destruct (Hst l Hl) as [[[Hw|Hc] _]|[Hc Hs]].
  - apply working_flags in Hw as [_ Hm]. by rewrite Hm in Hz.
  - apply closing_flags in Hc as [_ Hm]. by rewrite Hm in Hz.
  - apply closed_flags in Hc as [_ Hm]. rewrite Hm in Hz. by case_bool_decide.
Qed.

(** and then all of them are over. *)
Definition all_over (total : Z) (a : System) : Prop :=
  Forall (λ l, l_todo l = [] ∧ shown_finished (l_id l) (app a)) (live a) ∧
  global_limit (app a) = total ∧
  (∀ p rt, app_routes (app a) !! p = Some rt → limit rt = max_concurrency (config rt)).

Lemma todo_all_over total cfg a :
  sys_inv total cfg a → Forall (λ l, l_todo l = []) (live a) → all_over total a.
Proof.
  intros [_ Hgl Hrt _ _ Hst _ _] Htodo.
  assert (Forall (λ l, holding l = false) (live a)) as Hhold
    by (eapply Forall_impl; [exact Htodo|]; intros l Ht; unfold holding; by rewrite Ht).
  assert (∀ p, holders_on p (live a) = O) as Hon
    by (intros p; unfold holders_on; clear -Hhold; induction Hhold as [|l ls Hl _ IH]; simpl; [done|]; by rewrite Hl).
  assert (holders (live a) = O) as Hall
    by (unfold holders; clear -Hhold; induction Hhold as [|l ls Hl _ IH]; simpl; [done|]; by rewrite Hl).
  split_and!; [|lia|].
  - apply Forall_forall. intros l Hl. rewrite Forall_forall in Htodo, Hst. specialize (Htodo l Hl). split; [done|].
    destruct (Hst l Hl) as [[[Hw|Hc] _]|[_ Hs]]; [| |done]; rewrite Htodo in *.
    + by apply working_flags in Hw as [].
    + by apply closing_flags in Hc as [].
  - intros p rt Hp. rewrite <- (Hrt p rt Hp), Hon. lia.
Qed.

(** When the counter of active tasks, which [wait_until_idle] watches, reads
    zero, then every task started so far is over: it has released its permits,
    what the store shows of it is final, it will change nothing more, and all
    permits are back. The counter is kept modulo 2^64, so this needs fewer than
    2^64 tasks. *)
Theorem idle_means_done c h sys s a :
  0 ≤ max_total_concurrency (execution c) → Forall (λ r, 0 ≤ max_concurrency r) (routes c) →
  started c h sys s → rtc sys_step (mkSystem s []) a →
  active_count (store (app_sys (app a))) = 0 → Z.of_nat (length (live a)) < 2 ^ 64 →
  all_over (max_total_concurrency (execution c)) a.
Proof.
  intros Hg Hr Hb Hrun Hidle Hlen. pose proof (sys_run_inv _ _ _ _ _ Hg Hr Hb Hrun) as Hinv.
  eapply todo_all_over; [done|]. by eapply idle_todo.
Qed.
End system.

(** ** One task, from its request to its end *)

Module SystemToy.

#[local] Existing Instances Toy.regex Toy.ipnet Toy.hostlib toy_crypto bit_json bit_json_laws bit_time_lib
  StoreToy.uuids unix AppToy.order.

Definition cfg : ResolvedConfig := AppToy.config_with (AppToy.cooldown 10 2).

Definition opened : Sys :=
  (open_store (directory (logging cfg)) (retention_seconds (logging cfg)) (max_output_bytes_per_task (logging cfg))
     true true true [] 1 2 (mkWorld ∅ [])).2.

Definition ready : AppState :=
  set_sys opened (AppToy.app_with (AppToy.cooldown 10 2)).

Lemma ready_started : started cfg Toy.fs opened ready.
Proof.
  split; [reflexivity|]. exists true, true, true, [], 1, 2, (mkWorld ∅ []). reflexivity.
Defined.

Definition accepted_state : AppState := (execute 7%N 5 "/commands/run" ["status"] ready).2.

Definition task : TaskRecord :=
  TaskRecord_new (new_snapshot 7%N 5 "/commands/run" (route_mode Toy.resolved_route) Utf8)
    (task_directory (directory (logging cfg)) 7%N).

Definition begun : Run := mkRun task (world (app_sys accepted_state)) 0 ProcessToy.success_tape 5 0 [].
Definition trace : list Effect := effects (start_task Toy.resolved_route ["status"] begun).2.

Definition over : System :=
  mkSystem (fold_left (λ s e, apply_effect 7%N "/commands/run" e s) trace accepted_state)
    ([] ++ mkLive 7%N "/commands/run" [] :: []).

Lemma task_accepted : tasks (store (app_sys accepted_state)) !! 7%N = Some task.
Proof. vm_compute. reflexivity. Qed.

Lemma task_trace : completes_as Toy.resolved_route ["status"] task trace.
Proof.
  exists begun, (start_task Toy.resolved_route ["status"] begun).2. split; [reflexivity|]. split; [|split; [|split]].
  - repeat split; [discriminate|]. unfold begun, ProcessToy.success_tape. set_solver.
  - split; [reflexivity|]. eexists 7%N, 5, "/commands/run", _, Utf8. reflexivity.
  - apply ProcessToy.returned. vm_compute. reflexivity.
  - reflexivity.
Qed.

Lemma run_over : rtc sys_step (mkSystem ready []) over.
Proof.
  eapply rtc_l; [|apply (task_completes accepted_state [] 7%N "/commands/run" trace [])].
  eapply (sys_execute ready accepted_state [] 7%N 5 "/commands/run" ["status"] (mkRouteRuntime Toy.resolved_route 1) task);
    [reflexivity|apply (AppToy.pair_eta _ (Ok (accepted 7%N))); vm_compute; reflexivity|set_solver|apply task_accepted|apply task_trace].
Qed.

(** The task is in the store as succeeded, and its permits are back. *)
Lemma finished_tasks_hold_nothing_witness :
  status <$> (snap <$> tasks (store (app_sys (app over))) !! 7%N) = Some Succeeded ∧
  holding (mkLive 7%N "/commands/run" []) = false ∧ global_limit (app over) + 0 = 16.
Proof.
  destruct (finished_tasks_hold_nothing cfg Toy.fs opened ready over) as (Hheld & Hg & _);
    [vm_compute; congruence|by repeat constructor|exact ready_started|exact run_over|].
  assert (status <$> (snap <$> tasks (store (app_sys (app over))) !! 7%N) = Some Succeeded) as Hs
    by (vm_compute; reflexivity).
  split; [exact Hs|]. split; [|exact Hg].
  destruct (tasks (store (app_sys (app over))) !! 7%N) as [r|] eqn:Hr; [|discriminate Hs].
  apply (Hheld (mkLive 7%N "/commands/run" []) r).
  - left.
  - exact Hr.
  - simpl in Hs. injection Hs as ->. reflexivity.
Defined.

Lemma idle_means_done_witness :
  shown_finished 7%N (app over) ∧ global_limit (app over) = 16.
Proof.
  destruct (idle_means_done cfg Toy.fs opened ready over) as (Hdone & Hg & _);
    [vm_compute; congruence|by repeat constructor|exact ready_started|exact run_over|vm_compute; reflexivity
    |vm_compute; reflexivity|].
  split; [|exact Hg]. apply Forall_cons in Hdone as [[_ Hs] _]. exact Hs.
Defined.

End SystemToy.
