(* ===== verification/Front.v ===== *)
(** * The whole service, from a connection to a task

    [Gate] says which requests get to a handler, [System] what handlers and
    tasks do to the shared state. Here they run together: every handler call of
    [System] belongs to a request of [Gate] that has entered, and the pieces of
    the authentication of other requests, the effects of the tasks, cleanup and
    the shutdown come in between at will. *)

From S2P Require Import Prelude RustStd Model Secret Config Disk Journal Store Capture Process Lifecycle App Gate System.
Local Open Scope string_scope.
Local Open Scope list_scope.
Local Open Scope Z_scope.

Section front.
Context `{RegexLib, IpNetLib, HostLib, CryptoLib, DpapiLib, JsonLaws, TimeLib, UuidLib, EncodingLib, ErrorText, Platform, MapOrder}.

(** ** The endpoints *)

(** What the router makes of a request that has entered: a handler with the
    values extracted for it. *)
Inductive Call :=
| CallIndex
| CallHealthz
| CallTask (i : Uuid)
| CallOutput (i : Uuid) (q : OutputQuery)
| CallCancel (i : Uuid)
| CallKill (i : Uuid)
| CallStop
| CallRestart
| CallExecute (p : string) (args : list string)
| CallNone.

Context (windows : bool) (from_yaml : string → option Config).

(** Every handler but [execute], at the instant [now]. *)
Definition handle (now : Z) (call : Call) (s : AppState) : Response * AppState :=
  match call with
  | CallIndex => (index, s)
  | CallHealthz => (healthz, s)
  | CallTask i => (respond (λ v, mkResponse OK [] (BTask v)) (get_task now i s), s)
  | CallOutput i q => let '(r, s) := get_output i q s in (respond (λ c, mkResponse OK [] (BChunk c)) r, s)
  | CallCancel i => let '(r, s) := cancel_task i s in (respond (message ACCEPTED) r, s)
  | CallKill i => let '(r, s) := kill_task i s in (respond (message ACCEPTED) r, s)
  | CallStop => let '(r, s) := stop_service s in (respond (message ACCEPTED) r, s)
  | CallRestart => let '(r, s) := restart_service windows from_yaml s in (respond (message ACCEPTED) r, s)
  | CallExecute _ _ | CallNone => (fallback, s)
  end.

Definition is_execute (call : Call) : bool := match call with CallExecute _ _ => true | _ => false end.

(** ** The service *)

(** [origin] records, for the statements only, the request and the arguments a
    task was created with, and [failed] is the [last] of [Gate]. *)
Record Front := mkFront {
  sys : System;
  now : Z;
  inflight : list (Request * Call * Stage);
  failed : gmap Net.IpAddr Z;
  origin : gmap Uuid (Request * list string)
}.

Inductive front_step : Front → Front → Prop :=
| front_arrive a c fl l o req call :
    front_step (mkFront a c fl l o) (mkFront a c (fl ++ [(req, call, Arrived)]) l o)
| front_tick a c c' fl l o :
    c ≤ c' → front_step (mkFront a c fl l o) (mkFront a c' fl l o)
| front_advance s s' ls c fl l o k req call st st' joined :
    fl !! k = Some (req, call, st) → advance c joined req st s = (st', s') →
    front_step (mkFront (mkSystem s ls) c fl l o)
      (mkFront (mkSystem s' ls) c (<[k := (req, call, st')]> fl) (entered_failure st st' l) o)
| front_handle s s' ls c fl l o k req call r :
    fl !! k = Some (req, call, Entered) → is_execute call = false → handle c call s = (r, s') →
    front_step (mkFront (mkSystem s ls) c fl l o)
      (mkFront (mkSystem s' ls) c (<[k := (req, call, Answered (Reply r))]> fl) l o)
| front_refuse s s' ls c fl l o k req p args i e :
    fl !! k = Some (req, CallExecute p args, Entered) → execute i c p args s = (Err e, s') →
    front_step (mkFront (mkSystem s ls) c fl l o)
      (mkFront (mkSystem s' ls) c
         (<[k := (req, CallExecute p args, Answered (Reply (execute_response (Err e))))]> fl) l o)
| front_accept s s' ls c fl l o k req p args i rt r a trace :
    fl !! k = Some (req, CallExecute p args, Entered) →
    app_routes s !! p = Some rt → execute i c p args s = (Ok a, s') →
    (∀ x, x ∈ ls → l_id x ≠ i) →                 (* UUIDs are not drawn twice *)
    tasks (store (app_sys s')) !! i = Some r → completes_as (App.config rt) args r trace →
    front_step (mkFront (mkSystem s ls) c fl l o)
      (mkFront (mkSystem s' (mkLive i p trace :: ls)) c
         (<[k := (req, CallExecute p args, Answered (Reply (execute_response (Ok a))))]> fl) l (<[i := (req, args)]> o))
| front_effect s l1 i p e es l2 c fl l o :
    front_step (mkFront (mkSystem s (l1 ++ mkLive i p (e :: es) :: l2)) c fl l o)
      (mkFront (mkSystem (apply_effect i p e s) (l1 ++ mkLive i p es :: l2)) c fl l o)
| front_cleanup s ls c fl l o :
    front_step (mkFront (mkSystem s ls) c fl l o)
      (mkFront (mkSystem (set_sys (cleanup_expired c (app_sys s)).2 s) ls) c fl l o)
| front_cancel_all why s ls c fl l o :
    front_step (mkFront (mkSystem s ls) c fl l o)
      (mkFront (mkSystem (set_store (cancel_all why (store (app_sys s))) s) ls) c fl l o).

(** ** It refines its two halves *)

Lemma advance_request c joined req st s st' s' :
  advance c joined req st s = (st', s') → s' = s ∨ request_step s s'.
Proof.
  destruct st; simpl; intros Ha.
  - left. repeat case_match; by simplify_eq.
  - right. pose proof (req_cooldown now0 ip s) as Hr. destruct (cooldown_remaining _ _ _) as [[]]; by simplify_eq.
  - left. repeat case_match; by simplify_eq.
  - destruct joined; [|left; by simplify_eq]. right. pose proof (req_verified t s) as Hr.
    destruct (verify_finish _ _). by simplify_eq.
  - left. by simplify_eq.
  - right. pose proof (req_failed now0 ip s) as Hr. destruct (record_auth_failure _ _ _). by simplify_eq.
  - left. by simplify_eq.
  - left. by simplify_eq.
Qed.

Lemma output_chunk_store i stream offset limit x :
  store (output_chunk i stream offset limit x).2 = store x.
Proof.
  unfold output_chunk, mbind, stm_bind, pure_result, gets, lift, with_err. 
  repeat (case_match; simplify_eq/=; try done).
Qed.

Lemma set_sys_same s : set_sys (app_sys s) s = s.
Proof. by destruct s. Qed.

Lemma output_request i q s : rtc request_step s (get_output i q s).2.
Proof.
  unfold get_output. destruct (get i _); [|done]. pose proof (output_chunk_store i (q_stream q) (q_offset q) (q_limit q) (app_sys s)) as Hs.
  destruct (output_chunk _ _ _ _ _) as [r [st w]]. simpl in *. subst st. apply rtc_once, (req_output w s).
Qed.

Lemma management_request act s r s' : request_management_action act s = (r, s') → request_step s s'.
Proof. intros Ha. pose proof (req_management act s) as Hr. by rewrite Ha in Hr. Qed.

Lemma restart_request s : rtc request_step s (restart_service windows from_yaml s).2.
Proof.
  unfold restart_service. destruct (load _ _ _ _) as [[c|e] h]; [|apply rtc_once, (req_reload h s)].
  destruct (negb _); [apply rtc_once, (req_reload h s)|].
  destruct (request_management_action _ _) as [r s'] eqn:Hm.
  eapply rtc_l; [apply (req_reload h s)|]. by apply rtc_once, (management_request _ _ _ _ Hm).
Qed.

Lemma handle_request c call s r s' : is_execute call = false → handle c call s = (r, s') → rtc request_step s s'.
Proof.
  intros Hx Hh. destruct call; simpl in *; try (simplify_eq; apply rtc_refl); try done.
  - pose proof (output_request i q s) as Ho. destruct (get_output i q s). by simplify_eq.
  - pose proof (req_stop RCancelled "任务已经结束，无法取消" "已请求任务平滑退出" i s) as Hr. unfold cancel_task in Hh.
    destruct (stop_task _ _ _ _ _). simplify_eq. by apply rtc_once.
  - pose proof (req_stop RForceKilled "任务已经结束，无法强制终止" "已请求立即强制终止整个任务进程树" i s) as Hr.
    unfold kill_task in Hh. destruct (stop_task _ _ _ _ _). simplify_eq. by apply rtc_once.
  - unfold stop_service in Hh. destruct (request_management_action AStop s) as [x s1] eqn:Hm. simplify_eq.
    by eapply rtc_once, management_request.
  - pose proof (restart_request s) as Hr. destruct (restart_service _ _ s). by simplify_eq.
Qed.

Lemma requests_sys s s' ls : rtc request_step s s' → rtc sys_step (mkSystem s ls) (mkSystem s' ls).
Proof. induction 1; [apply rtc_refl|]. eapply rtc_l; [by apply sys_request|done]. Qed.

(** What the service does is a run of [System], *)
Lemma front_sys f f' : front_step f f' → rtc sys_step (sys f) (sys f').
Proof.
  destruct 1; simpl; try apply rtc_refl.
  - destruct (advance_request _ _ _ _ _ _ _ ltac:(eassumption)) as [->|Hr]; [apply rtc_refl|by apply rtc_once, sys_request].
  - by eapply requests_sys, handle_request.
  - by eapply rtc_once, sys_request, req_refused.
  - by eapply rtc_once, sys_execute.
  - apply rtc_once, sys_effect.
  - apply rtc_once, sys_request, req_cleanup.
  - apply rtc_once, sys_request, req_cancel_all.
Qed.

(** and a run of [Gate]. *)
Definition gate_of (f : Front) : Gate :=
  mkGate (System.app (sys f)) (now f) ((λ x, (x.1.1, x.2)) <$> inflight f) (failed f).

Lemma management_gate act s : same_gate s (request_management_action act s).2.
Proof. unfold request_management_action. case_bool_decide; [destruct (try_send _ _)|]; done. Qed.

Lemma stop_gate why fin acc i s : same_gate s (stop_task why fin acc i s).2.
Proof. unfold stop_task. destruct (get _ _); [|done]. by destruct (request_stop _ _ _) as [[] ?]. Qed.

Lemma handle_gate c call s : same_gate s (handle c call s).2.
Proof.
  destruct call; simpl; try done.
  - unfold get_output. destruct (get _ _); [|done]. by destruct (output_chunk _ _ _ _ _).
  - pose proof (stop_gate RCancelled "任务已经结束，无法取消" "已请求任务平滑退出" i s). unfold cancel_task.
    by destruct (stop_task _ _ _ _ _).
  - pose proof (stop_gate RForceKilled "任务已经结束，无法强制终止" "已请求立即强制终止整个任务进程树" i s). unfold kill_task.
    by destruct (stop_task _ _ _ _ _).
  - pose proof (management_gate AStop s). unfold stop_service. by destruct (request_management_action _ _).
  - unfold restart_service. destruct (load _ _ _ _) as [[x|e] h]; [|done]. destruct (negb _); [done|].
    pose proof (management_gate (ARestart x) (set_host h s)). by destruct (request_management_action _ _).
Qed.

Lemma execute_gate i c p args s : same_gate s (execute i c p args s).2.
Proof.
  unfold execute. destruct (app_routes s !! p) as [rt|]; [|done]. destruct (validate_request_args _ _); [|done].
  unfold acquire_global. destruct (try_acquire _); [|done].
  unfold acquire_route. destruct (_ !! p) as [rt'|]; [|done]. destruct (try_acquire _); [|done].
  unfold create_task. by destruct (create _ _ _ _ _ _) as [[]].
Qed.

Lemma effect_gate i p e s : same_gate s (apply_effect i p e s).
Proof. by destruct e. Qed.

Lemma inflight_lookup (fl : list (Request * Call * Stage)) k req call st :
  fl !! k = Some (req, call, st) → ((λ x, (x.1.1, x.2)) <$> fl) !! k = Some (req, st).
Proof. intros Hk. by rewrite list_lookup_fmap, Hk. Qed.

Lemma front_gate f f' : front_step f f' → rtc gate_step (gate_of f) (gate_of f').
Proof.
  destruct 1; unfold gate_of; simpl; try apply rtc_refl; apply rtc_once; rewrite ?list_fmap_insert, ?fmap_app.
  - apply gate_arrive.
  - by apply gate_tick.
  - eapply gate_advance; [by eapply inflight_lookup|eassumption].
  - eapply gate_handled; [by eapply inflight_lookup|].
    match goal with Hh : handle ?c ?call ?s = _ |- _ => pose proof (handle_gate c call s) as Hg; by rewrite Hh in Hg end.
  - eapply gate_handled; [by eapply inflight_lookup|].
    match goal with Hh : execute ?i ?c ?p ?args ?s = _ |- _ => pose proof (execute_gate i c p args s) as Hg; by rewrite Hh in Hg end.
  - eapply gate_handled; [by eapply inflight_lookup|].
    match goal with Hh : execute ?i ?c ?p ?args ?s = _ |- _ => pose proof (execute_gate i c p args s) as Hg; by rewrite Hh in Hg end.
  - apply gate_rest, effect_gate.
  - by apply gate_rest.
  - by apply gate_rest.
Qed.

Lemma front_runs f f' :
  rtc front_step f f' → rtc sys_step (sys f) (sys f') ∧ rtc gate_step (gate_of f) (gate_of f').
Proof.
  induction 1 as [|x y z Hs _ [IHs IHg]]; [done|].
  split; (etrans; [|eassumption]); [by apply front_sys|by apply front_gate].
Qed.

(** ** Where tasks come from *)

(** The effects of a task of route [rt] with [args] start nothing but the
    route's command. *)
Definition only_command (rt : ResolvedRoute) (args : list string) (es : list Effect) : Prop :=
  Forall (λ e, ∀ sp, e = SentSpec sp → sp = spec_of rt args) es.

Lemma completes_only_command rt args r trace : completes_as rt args r trace → only_command rt args trace.
Proof.
  intros (s & s' & _ & Hf & _ & Ht & ->). apply start_task_effects in Ht as (_ & pre & post & -> & Hq & Hp & _); [|done].
  unfold only_command. rewrite !Forall_app. split_and!.
  - eapply Forall_impl; [exact Hq|]. intros e He sp ->. exact He.
  - by repeat constructor.
  - eapply Forall_impl; [exact Hp|]. intros e (sn & -> & _) sp [=].
  - by repeat constructor.
Qed.

(** The task [l] was created by a request that entered. *)
Definition requested (v0 : TokenVerifier) (cidrs : list IpNet) (cfg : gmap string ResolvedRoute)
    (o : gmap Uuid (Request * list string)) (l : Live) : Prop :=
  ∃ req args rt, o !! l_id l = Some (req, args) ∧ cfg !! l_path l = Some rt ∧
    stage_ok v0 cidrs (req, Entered) ∧ validate_request_args rt args = Ok tt ∧ only_command rt args (l_todo l).

Definition front_inv (total : Z) (v0 : TokenVerifier) (cidrs : list IpNet) (cfg : gmap string ResolvedRoute) (f : Front) : Prop :=
  sys_inv total cfg (sys f) ∧ gate_inv v0 cidrs (gate_of f) ∧ Forall (requested v0 cidrs cfg (origin f)) (live (sys f)).

Lemma requested_other v0 cidrs cfg o i x l :
  l_id l ≠ i → requested v0 cidrs cfg o l → requested v0 cidrs cfg (<[i := x]> o) l.
Proof. intros Hi (req & args & rt & Ho & ?). exists req, args, rt. by rewrite lookup_insert_ne. Qed.

Lemma front_step_requested total v0 cidrs cfg f f' :
  front_step f f' → front_inv total v0 cidrs cfg f → Forall (requested v0 cidrs cfg (origin f')) (live (sys f')).
Proof.
  intros Hs (Hsys & (_ & _ & Hg) & Hr). destruct Hs as [| | | | |s s' ls c fl l o k req p args i rt r a trace Hk Hp He Hi Ht Hc|
    s l1 i p e es l2 c fl l o| |]; simpl in *; try exact Hr.
  - constructor.
    + pose proof (execute_cases i c p args s) as Hx. rewrite He in Hx. destruct Hx as (rt' & Hp' & Hv & _).
      rewrite Hp in Hp'. injection Hp' as <-. exists req, args, (App.config rt). simpl. rewrite lookup_insert_eq.
      split_and!; [done| |by apply (Forall_lookup_1 _ _ _ _ Hg (inflight_lookup _ _ _ _ _ Hk))|done|by eapply completes_only_command].
      rewrite <- (si_config _ _ _ Hsys). simpl. by rewrite lookup_fmap, Hp.
    + apply Forall_forall. intros x Hx. rewrite Forall_forall in Hr. apply requested_other; [by apply Hi|by apply Hr].
  - apply Forall_app in Hr as [Hr1 [(req & args & rt & Ho & Hc & Hst & Hv & Hcmd) Hr2]%Forall_cons].
    apply Forall_app. split; [done|]. constructor; [|done]. exists req, args, rt. split_and!; [done..|].
    simpl in *. by apply Forall_cons in Hcmd as [_ ?].
Qed.

Lemma front_inv_step total v0 cidrs cfg f f' :
  front_step f f' → front_inv total v0 cidrs cfg f → front_inv total v0 cidrs cfg f'.
Proof.
  intros Hs Hinv. split_and!; [| |by eapply front_step_requested]; destruct Hinv as (Hsys & Hg & _).
  - apply (rtc_invariant sys_step (sys_inv total cfg) (sys f)); [intros ??; apply sys_step_inv|by apply front_sys|done].
  - by apply (gate_steps_inv v0 cidrs (gate_of f)); [apply front_gate|].
Qed.

Lemma build_state_fields c h sy s :
  build_state c h sy = Some s →
  token s = auth_token c ∧ app_cidrs s = allowed_cidrs (access c) ∧
  ∀ p rt, config <$> app_routes s !! p = Some rt → rt ∈ routes c ∧ path rt = p.
Proof.
  unfold build_state. intros Hb. destruct (build_routes _ _) as [m|] eqn:Hm; [|done]. simpl in Hb.
  destruct (Semaphore_new _); [|done]. injection Hb as <-. split_and!; [done..|]. simpl. intros p rt.
  destruct (m !! p) as [v|] eqn:Hv; [|done]. intros [= <-].
  destruct (build_routes_spec _ _ _ Hm _ _ Hv) as [?|(? & ? & _)]; [done|by split].
Qed.

(** C2: no command runs that was not asked for by someone entitled to. In every
    run of the service, each of its tasks was created by a request from an
    allowed network that carried a bearer token the configured verifier
    accepts, for a route of the configuration and with arguments that its rules
    allow; and all its worker is ever given to start is exactly that route's
    command: the program, launcher options, script, fixed arguments, then the
    request's arguments, in the route's directory and environment. *)
Theorem every_task_requested c h sy s t0 f l :
  0 ≤ max_total_concurrency (execution c) → Forall (λ r, 0 ≤ max_concurrency r) (routes c) →
  started c h sy s → pristine (auth_token c) →
  rtc front_step (mkFront (mkSystem s []) t0 [] ∅ ∅) f → l ∈ live (sys f) →
  ∃ req args rt ip t,
    origin f !! l_id l = Some (req, args) ∧ rt ∈ routes c ∧ path rt = l_path l ∧
    allowed_from (allowed_cidrs (access c)) req ip ∧ bearer req = Some t ∧ accepts (auth_token c) t ∧
    args_allowed rt args ∧
    ∀ sp, SentSpec sp ∈ l_todo l →
      build_script_command sp =
        mkScriptCommand (program rt) (launcher_args (executor rt) ++ [script rt] ++ fixed_args rt ++ args)
          (working_directory rt) (env rt).
Proof.
  intros Hg Hr Hst Hp Hrun Hl. destruct (build_state_fields _ _ _ _ (proj1 Hst)) as (Ht & Hn & Hrt).
  destruct (rtc_invariant front_step (front_inv (max_total_concurrency (execution c)) (token s) (app_cidrs s) (config <$> app_routes s))
    _ _ (λ x y, front_inv_step _ _ _ _ x y) Hrun) as (_ & _ & Hreq).
  { split_and!; simpl; [by eapply sys_start_inv| |constructor].
    split_and!; simpl; [done|apply pristine_grown; by rewrite Ht|constructor]. }
  rewrite Forall_forall in Hreq. destruct (Hreq l Hl) as (req & args & rt & Ho & Hc & (ip & t & Ha & Hb & Hacc) & Hv & Hcmd).
  rewrite lookup_fmap in Hc. apply Hrt in Hc as [Hin Hpath]. rewrite Ht, Hn in *.
  exists req, args, rt, ip, t. split_and!; [done..|by apply validate_request_args_Ok|].
  intros sp Hsp. unfold only_command in Hcmd. rewrite Forall_forall in Hcmd. by rewrite (Hcmd _ Hsp sp eq_refl).
Qed.
End front.

(** ** One request and its task *)
Module FrontToy.
#[local] Existing Instances Toy.regex Toy.ipnet Toy.hostlib toy_crypto toy_dpapi bit_json bit_json_laws bit_time_lib
  StoreToy.uuids StoreToy.encodings AppToy.texts unix AppToy.order.

Import SystemToy.

Definition no_yaml (_ : string) : option Config := None.
Definition call : Call := CallExecute "/commands/run" ["status"].
Definition fresh_front : Front := mkFront (mkSystem ready []) 5 [] ∅ ∅.
Definition at_stage (st : Stage) : Front := mkFront (mkSystem ready []) 5 [(AppToy.good, call, st)] ∅ ∅.
Definition running : Front :=
  mkFront (mkSystem accepted_state [mkLive 7%N "/commands/run" trace]) 5
    [(AppToy.good, call, Answered (Reply (execute_response (Ok (accepted 7%N)))))] ∅ {[7%N := (AppToy.good, ["status"])]}.

Lemma moves st st' : advance 5 true AppToy.good st ready = (st', ready) → entered_failure st st' ∅ = ∅ →
  front_step false no_yaml (at_stage st) (at_stage st').
Proof.
  intros Ha He. pose proof (front_advance false no_yaml ready ready [] 5 [(AppToy.good, call, st)] ∅ ∅ 0 AppToy.good call st st' true
    eq_refl Ha) as Hs. rewrite He in Hs. exact Hs.
Qed.

Lemma run_running : rtc (front_step false no_yaml) fresh_front running.
Proof.
  eapply rtc_l; [apply (front_arrive false no_yaml (mkSystem ready []) 5 [] ∅ ∅ AppToy.good call)|].
  eapply rtc_l; [apply (moves Arrived (Clocked AppToy.localhost 5)); reflexivity|].
  eapply rtc_l; [apply (moves _ (Passed AppToy.localhost)); reflexivity|].
  eapply rtc_l; [apply (moves _ Entered); [|reflexivity]|].
  { etrans; [apply (advance_verdict ready ready); [reflexivity|]|reflexivity].
    apply GateToy.all_allowed. right. left. }
  eapply rtc_l; [|apply rtc_refl].
  apply (front_accept false no_yaml ready accepted_state [] 5 [(AppToy.good, call, Entered)] ∅ ∅ 0 AppToy.good "/commands/run" ["status"] 7%N
    (mkRouteRuntime Toy.resolved_route 1) task (accepted 7%N) trace);
    [reflexivity|reflexivity|apply (AppToy.pair_eta _ (Ok (accepted 7%N))); vm_compute; reflexivity|set_solver|apply task_accepted|apply task_trace].
Qed.

Lemma every_task_requested_witness :
  ∃ req args rt, origin running !! 7%N = Some (req, args) ∧ rt ∈ routes cfg ∧ args_allowed rt args.
Proof.
  destruct (every_task_requested false no_yaml cfg Toy.fs opened ready 5 running (mkLive 7%N "/commands/run" trace))
    as (req & args & rt & ip & t & Ho & Hr & _ & _ & _ & _ & Ha & _);
    [vm_compute; congruence|by repeat constructor|exact ready_started|exact I|exact run_running|left|].
  exists req, args, rt. split; [exact Ho|]. split; [exact Hr|exact Ha].
Defined.
End FrontToy.
