(* ===== verification/Tls.v ===== *)
(** * TLS and logging set-up (src/src/runtime.rs [load_tls_config],
      [init_logging])

    The mutual-TLS configuration of the listeners: server certificate, private
    key and the authorities of the clients, each read from a PEM file. PEM
    parsing and rustls are an interface ([TlsLib]); certificates and keys are
    their DER bytes. *)

From S2P Require Import Prelude RustStd Model Secret Config.
Local Open Scope string_scope.
Local Open Scope list_scope.
Local Open Scope Z_scope.

(** [rustls_pemfile] and the checks of rustls. *)
Class TlsLib := {
  pem_certs : string → list (result string string);
  pem_private_key : string → result string (option string);
  (** [RootCertStore::add] accepts the certificate as a trust anchor. *)
  root_add : string → result string unit;
  (** [WebPkiClientVerifier::builder(roots).build()]. *)
  verifier_build : list string → result string unit;
  (** [with_single_cert(chain, key)]. *)
  single_cert : list string → string → result string unit
}.

Inductive TlsError :=
| CertUnreadable (path : string)
| CertInvalid (cause : string)
| CertEmpty
| KeyUnreadable (path : string)
| KeyInvalid (cause : string)
| KeyEmpty
| CaUnreadable (path : string)
| CaInvalid (cause : string)
| CaRejected (cause : string)
| CaEmpty
| VerifierInvalid (cause : string)
| PairMismatch (cause : string).

(** The rendered error, with its cause where the code adds a context. *)
Definition TlsError_to_string (e : TlsError) : string :=
  match e with
  | CertUnreadable p => "无法读取 TLS 服务器证书 " +:+ p
  | CertInvalid c => "无法解析 TLS 服务器证书: " +:+ c
  | CertEmpty => "TLS 服务器证书为空"
  | KeyUnreadable p => "无法读取 TLS 服务器私钥 " +:+ p
  | KeyInvalid c => "无法解析 TLS 服务器私钥: " +:+ c
  | KeyEmpty => "TLS 服务器私钥为空"
  | CaUnreadable p => "无法读取 TLS 客户端 CA " +:+ p
  | CaInvalid c => "无法解析 TLS 客户端 CA: " +:+ c
  | CaRejected c => c
  | CaEmpty => "TLS 客户端 CA 证书为空"
  | VerifierInvalid c => c
  | PairMismatch c => "TLS 服务器证书与私钥不匹配: " +:+ c
  end.

(** What the listeners are configured with: every client must present a
    certificate that chains to [client_roots]. *)
Record RustlsConfig := mkRustlsConfig {
  client_roots : list string;
  chain : list string;
  server_key : string;
  alpn_protocols : list string
}.

Section tls.
Context `{TlsLib}.

(** The loop that fills the store of client authorities. *)
Fixpoint add_roots (items : list (result string string)) (roots : list string) : result TlsError (list string) :=
  match items with
  | [] => Ok roots
  | item :: items =>
      certificate ← map_err CaInvalid item;
      _ ← map_err CaRejected (root_add certificate);
      add_roots items (roots ++ [certificate])
  end.

(** [files] gives the content of a file that can be opened. *)
Definition load_tls_config (files : string → option string) (config : TlsConfig) : result TlsError RustlsConfig :=
  certificate_reader ← ok_or (CertUnreadable (certificate config)) (files (certificate config));
  certificates ← map_err CertInvalid (collect (λ c, c) (pem_certs certificate_reader));
  guard! bool_decide (certificates = []) else CertEmpty;
  private_key_reader ← ok_or (KeyUnreadable (private_key config)) (files (private_key config));
  key ← map_err KeyInvalid (pem_private_key private_key_reader);
  key ← ok_or KeyEmpty key;
  client_ca_reader ← ok_or (CaUnreadable (client_ca_certificate config)) (files (client_ca_certificate config));
  roots ← add_roots (pem_certs client_ca_reader) [];
  guard! bool_decide (roots = []) else CaEmpty;
  _ ← map_err VerifierInvalid (verifier_build roots);
  _ ← map_err PairMismatch (single_cert certificates key);
  Ok (mkRustlsConfig roots certificates key ["h2"; "http/1.1"]).

Lemma collect_all_Ok (l : list (result string string)) certs :
  collect (λ c, c) l = Ok certs ↔ l = Ok <$> certs.
Proof.
  rewrite collect_Ok. split.
  - induction 1 as [|? ? ? ? -> _ IH]; [done|]. simpl. by rewrite IH.
  - intros ->. induction certs; by constructor.
Qed.

Lemma add_roots_Ok items roots r :
  add_roots items roots = Ok r ↔
  ∃ certs, items = Ok <$> certs ∧ Forall (λ c, root_add c = Ok tt) certs ∧ r = roots ++ certs.
Proof.
  revert roots. induction items as [|item items IH]; intros roots; simpl.
  - split; [intros [= <-]; exists []; rewrite app_nil_r; by split_and!|].
    intros ([|] & Hc & _ & ->); [|done]. by rewrite app_nil_r.
  - rewrite bind_Ok. setoid_rewrite bind_Ok. setoid_rewrite IH. setoid_rewrite map_err_Ok. split.
    + intros (c & -> & [] & Hr & certs & -> & Hf & ->). exists (c :: certs).
      split_and!; [done|by constructor|]. by rewrite <- app_assoc.
    + intros ([|c certs] & Hc & Hf & ->); [done|]. injection Hc as -> ->.
      apply Forall_cons in Hf as [Hc Hf]. exists c. split; [done|]. exists tt. split; [done|].
      exists certs. split_and!; [done|done|]. by rewrite <- app_assoc.
Qed.

Lemma load_tls_config_roots files config tls : load_tls_config files config = Ok tls → client_roots tls ≠ [].
Proof. unfold load_tls_config. intros Hl. inv_ok. by breflect. Qed.

(** C30: the listeners get a TLS configuration exactly when all three files
    are readable and every PEM section of them is valid: then the server shows
    the whole chain of its file with a key that fits it, and a client needs a
    certificate of one of the authorities in the client file, all of them and
    no others, at least one; there is no configuration without client
    authentication. *)
Theorem load_tls_config_spec files config tls :
  load_tls_config files config = Ok tls ↔
  ∃ cert_pem key_pem ca_pem,
    files (certificate config) = Some cert_pem ∧ files (private_key config) = Some key_pem ∧
    files (client_ca_certificate config) = Some ca_pem ∧
    pem_certs cert_pem = Ok <$> chain tls ∧ chain tls ≠ [] ∧
    pem_private_key key_pem = Ok (Some (server_key tls)) ∧
    pem_certs ca_pem = Ok <$> client_roots tls ∧ client_roots tls ≠ [] ∧
    Forall (λ c, root_add c = Ok tt) (client_roots tls) ∧
    verifier_build (client_roots tls) = Ok tt ∧ single_cert (chain tls) (server_key tls) = Ok tt ∧
    alpn_protocols tls = ["h2"; "http/1.1"].
Proof.
  unfold load_tls_config. split.
  - intros Hl. inv_ok. breflect.
    repeat match goal with
    | Hc : collect _ _ = Ok _ |- _ => apply collect_all_Ok in Hc
    | Ha : add_roots _ _ = Ok _ |- _ => apply add_roots_Ok in Ha as (? & ? & ? & ->)
    end. simpl in *. subst. eauto 20.
  - intros (c & k & a & -> & -> & -> & Hc & Hne & Hk & Ha & Hre & Hf & Hv & Hs & Hp). simpl.
    rewrite (proj2 (collect_all_Ok _ _) Hc). simpl. rewrite bool_decide_eq_false_2 by done. simpl.
    rewrite Hk. simpl. rewrite (proj2 (add_roots_Ok _ [] (client_roots tls))) by eauto. simpl.
    rewrite bool_decide_eq_false_2 by done. simpl. rewrite Hv, Hs. simpl. rewrite <- Hp. by destruct tls.
Qed.
End tls.

(** ** Logging *)

Definition DEFAULT_FILTER : string := "command_api=info,tower_http=info".

Record LogSetup := mkLogSetup {
  log_directory : string;
  log_prefix : string;
  log_filter : string;
  log_stderr : bool;
  log_ansi : bool
}.

(** [init_logging]: [env_filter] is the filter of the environment, [None] when it
    is missing or invalid; [try_init] says whether the global subscriber could
    be set. *)
Definition init_logging (env_filter : option string) (try_init : result string unit)
    (directory : string) (log_to_console : bool) : result string LogSetup :=
  let filter := default DEFAULT_FILTER env_filter in
  _ ← map_err (λ e, "无法初始化日志系统: " +:+ e) try_init;
  Ok (mkLogSetup directory "command-api.log" filter log_to_console false).

(** ** A concrete library: a file holds at most one certificate or key *)
Module TlsToy.

#[export] Instance lib : TlsLib | 100 := {|
  pem_certs s := if Str.is_empty s then [] else [Ok s];
  pem_private_key s := Ok (if Str.is_empty s then None else Some s);
  root_add _ := Ok tt;
  verifier_build _ := Ok tt;
  single_cert chain key := if bool_decide (chain = [key]) then Ok tt else Err "mismatch"
|}.

Definition files (p : string) : option string :=
  if bool_decide (p = "/etc/empty.pem") then Some EmptyString
  else if bool_decide (p = "/etc/gone.pem") then None else Some "pair".

Example good_files :
  load_tls_config files (mkTls "/etc/s.pem" "/etc/k.pem" "/etc/ca.pem") =
    Ok (mkRustlsConfig ["pair"] ["pair"] "pair" ["h2"; "http/1.1"]).
Proof. reflexivity. Qed.

Example empty_ca : load_tls_config files (mkTls "/etc/s.pem" "/etc/k.pem" "/etc/empty.pem") = Err CaEmpty.
Proof. reflexivity. Qed.

Example missing_key :
  load_tls_config files (mkTls "/etc/s.pem" "/etc/gone.pem" "/etc/ca.pem") = Err (KeyUnreadable "/etc/gone.pem").
Proof. reflexivity. Qed.

End TlsToy.
