(* ===== verification/Runtime.v ===== *)
(** * The service loop (src/src/runtime.rs [run]) and its wait for idle tasks
      (src/src/store.rs [wait_until_idle], [mark_finished])

    [wait_until_idle] and the [mark_finished] calls of ending tasks run on
    different threads: a transition system with one step per atomic access and
    per operation on the [Notify]. The loop of [run] is a function of what
    each generation of the service meets: the store it opens, the TLS files, how
    its listeners end, the management action, the outcome of the two waits. *)

From S2P Require Import Prelude RustStd Model Secret Disk Journal Store Config Capture Process App Tls.
Local Open Scope string_scope.
Local Open Scope list_scope.
Local Open Scope Z_scope.

(** ** Waiting for the tasks *)

Module Idle.

(** Where [wait_until_idle] stands. [Waiting] holds a [Notified] future, which
    receives every [notify_waiters] after its creation. *)
Inductive pc :=
| Load                       (* about to load [active_count] *)
| Subscribe                  (* loaded a non-zero count, about to call [notified()] *)
| Waiting (woken : bool)
| Returned (idle : bool).

Record state := mk {
  active : Z;
  unnotified : nat;          (* tasks between [fetch_sub] and [notify_waiters] *)
  waiter : pc
}.

Definition notify (p : pc) : pc := match p with Waiting _ => Waiting true | p => p end.

Inductive step : state → state → Prop :=
| wait_load a u :
    step (mk a u Load) (mk a u (if a =? 0 then Returned true else Subscribe))
| wait_subscribe a u : step (mk a u Subscribe) (mk a u (Waiting false))
| wait_wake a u : step (mk a u (Waiting true)) (mk a u Load)
| wait_timeout a u : step (mk a u (Waiting false)) (mk a u (Returned false))
| finish_sub a u p : 0 < a → step (mk a u p) (mk (wrapping_sub a 1) (S u) p)
| finish_notify a u p : step (mk a (S u) p) (mk a u (notify p)).

Definition start (n : Z) : state := mk n 0 Load.

Definition inv (s : state) : Prop :=
  is_u64 (active s) ∧ (waiter s = Returned true → active s = 0).

Lemma step_inv a b : step a b → inv a → inv b.
Proof.
  destruct 1 as [a u|a u|a u|a u|a u p Ha|a u p]; unfold inv; simpl; intros [Hu Hi]; try (split; [done|done]).
  - split; [done|]. by destruct (Z.eqb_spec a 0).
  - rewrite wrapping_sub_small by (unfold is_u64 in Hu; lia). unfold is_u64 in *. split; [lia|].
    intros Hp. specialize (Hi Hp). lia.
  - split; [done|]. by destruct p.
Qed.

(** [wait_until_idle] returns [true] only when no task is active any more,
    whatever the order in which tasks end and the waiter runs. *)
Theorem wait_until_idle_sound n s :
  is_u64 n → rtc step (start n) s → waiter s = Returned true → active s = 0.
Proof.
  intros Hn Hr. apply (rtc_invariant step inv _ _ step_inv Hr). by split.
Qed.

Lemma wait_until_idle_sound_witness : active (mk 0 0 (Returned true)) = 0.
Proof.
  apply (wait_until_idle_sound 1 (mk 0 0 (Returned true))); [by split|  |done].
  eapply rtc_l; [by apply finish_sub|]. eapply rtc_l; [apply finish_notify|].
  apply rtc_once. apply (wait_load 0 0).
Defined.

(** A wait that starts when nothing is active. *)
Definition idle_inv (s : state) : Prop :=
  active s = 0 ∧ unnotified s = 0%nat ∧ (waiter s = Load ∨ waiter s = Returned true).

Lemma step_idle_inv a b : step a b → idle_inv a → idle_inv b.
Proof.
  destruct 1 as [a u|a u|a u|a u|a u p Ha|a u p]; intros (? & ? & Hw); simplify_eq/=;
    try lia; try (by destruct Hw). unfold idle_inv. simpl. auto.
Qed.

(** C37: [wait_until_idle] can miss the last task. When it ends between the load
    of the counter and the call of [notified()], the notification reaches
    nobody: no task is left, nothing will wake the waiter, and the only thing
    that can still happen is the timeout, reported as not idle. A second wait
    started then finds the service idle at once. *)
Theorem wait_until_idle_lost_wakeup :
  ∃ s, rtc step (start 1) s ∧ active s = 0 ∧ unnotified s = 0%nat ∧
    (∀ s', step s s' → waiter s' = Returned false) ∧
    (∀ s', rtc step (start (active s)) s' → waiter s' = Load ∨ waiter s' = Returned true).
Proof.
  exists (mk 0 0 (Waiting false)). split_and!; [|done|done| |].
  - eapply rtc_l; [apply (wait_load 1 0)|]. eapply rtc_l; [by apply finish_sub|].
    eapply rtc_l; [apply finish_notify|]. apply rtc_once, wait_subscribe.
  - inversion 1; simplify_eq/=; solve [done|lia].
  - intros s' Hr. apply (rtc_invariant step idle_inv _ _ step_idle_inv Hr).
    unfold idle_inv, start. simpl. auto.
Qed.

End Idle.

(** ** The shutdown future *)

(** What the two futures of [console_shutdown_signal] meet, in order: the end of
    [ctrl_c()], the installation of the SIGTERM handler, and SIGTERM. *)
Inductive ConsoleEvent :=
| CtrlC (r : result string unit)
| TermHandler (r : result string unit)
| TermReceived.

(** [console_shutdown_signal] on a system with ([unix]) or without SIGTERM:
    [None] while it waits, [Err] when one of its [expect]s panicked. *)
Fixpoint console_shutdown_signal (unix installed : bool) (evs : list ConsoleEvent) : option (result string unit) :=
  match evs with
  | [] => None
  | CtrlC (Ok _) :: _ => Some (Ok tt)
  | CtrlC (Err e) :: _ => Some (Err ("无法安装 Ctrl+C 信号处理器: " +:+ e))
  | TermHandler (Ok _) :: evs => console_shutdown_signal unix unix evs
  | TermHandler (Err e) :: evs =>
      if unix then Some (Err ("无法安装 SIGTERM 信号处理器: " +:+ e)) else console_shutdown_signal unix installed evs
  | TermReceived :: evs => if installed then Some (Ok tt) else console_shutdown_signal unix installed evs
  end.

(** The watch channel between the task that awaits the shutdown future and the
    generations: its value, and whether its sender is still there. *)
Record External := mkExternal { requested : bool; sender : bool }.

Definition external_shutdown (shutdown : option (result string unit)) : External :=
  match shutdown with
  | None => mkExternal false true
  | Some (Ok _) => mkExternal true false
  | Some (Err _) => mkExternal false false       (* the task panicked and dropped the sender *)
  end.

(** Whether the control task stops the service for it: it reads the value, and
    [changed()] returns at a new value and, with an error nobody looks at, when
    the sender is gone. *)
Definition external_stop (x : External) : bool := requested x || negb (sender x).

Lemma external_stop_spec shutdown :
  external_stop (external_shutdown shutdown) = true ↔ is_Some shutdown.
Proof. destruct shutdown as [[]|]; simpl; by split; [|intros []]. Qed.

(** ** The loop *)

(** How one listener task is joined: it returned, or it panicked. *)
Inductive Joined :=
| Ended (r : result string unit)
| Crashed (msg : string).

(** The [server] future: it waits for every listener and gives up at the first
    that did not end well. *)
Fixpoint join_servers (js : list Joined) : result string unit :=
  match js with
  | [] => Ok tt
  | Ended (Ok _) :: js => join_servers js
  | Ended (Err e) :: _ => Err e
  | Crashed e :: _ => Err ("HTTP 监听任务异常退出: " +:+ e)
  end.

Lemma join_servers_Ok js : join_servers js = Ok tt ↔ Forall (λ j, j = Ended (Ok tt)) js.
Proof.
  induction js as [|[[[]|e]|e] js IH]; simpl; rewrite ?Forall_cons; naive_solver.
Qed.

(** A server task: the address it binds, and rustls or plain HTTP. *)
Record Server := mkServer { address : Net.IpAddr * Z; server_tls : option RustlsConfig }.

Section runtime.
Context `{RegexLib, IpNetLib, HostLib, CryptoLib, TlsLib}.

Inductive RunError :=
| ConfigFailed (e : ConfigError)
| LoggingFailed (msg : string)
| LogDirectoryChanged
| OpenFailed (e : StoreError)
| BuildPanicked
| TlsInvalid (e : TlsError)
| ServerFailed (msg : string)
| StillBusy.

(** What one generation of the service meets. *)
Record Generation := mkGeneration {
  opened : result StoreError Sys;
  tls_files : string → option string;    (* the readable files *)
  joined : list Server → list Joined;    (* the ends of the servers, in the order they end *)
  shutdown : option (result string unit); (* the shutdown future, when the control task chose *)
  received : option ManagementAction;    (* what [management_rx.recv()] returned *)
  wait1 : TaskStore → bool * TaskStore;  (* the tasks during the first wait *)
  wait2 : TaskStore → bool * TaskStore
}.

(** The action of the control task. *)
Definition control_action (g : Generation) : ManagementAction :=
  if external_stop (external_shutdown (shutdown g)) then AStop else default AStop (received g).

Definition stop_reason (a : ManagementAction) : StopReason :=
  match a with ARestart _ => RServerRestart | AStop => RServerShutdown end.

(** The end of a generation: ask, wait, kill, wait. *)
Definition shut_down (a : ManagementAction) (g : Generation) (st : TaskStore) : result RunError TaskStore :=
  let '(idle, st) := wait1 g (cancel_all (stop_reason a) st) in
  if idle then Ok st
  else
    let '(idle, st) := wait2 g (cancel_all RForceKilled st) in
    if idle then Ok st else Err StillBusy.

(** [config.tls.as_ref().map(load_tls_config).transpose()?]. *)
Definition load_tls (c : ResolvedConfig) (g : Generation) : result RunError (option RustlsConfig) :=
  match tls c with
  | Some t => map_err TlsInvalid (Some <$> load_tls_config (tls_files g) t)
  | None => Ok None
  end.

(** What is logged before the servers are spawned. *)
Definition warnings (c : ResolvedConfig) : list string :=
  (match tls c with Some _ => [] | None => ["未配置 TLS，所有监听端点均使用明文 HTTP；仅应在可信、隔离的网络中使用"] end) ++
  (if existsb (λ l, negb (Net.is_loopback (l_host l))) (server_listeners c)
   then ["检测到非回环监听端点；command-api 不适合暴露到公网，请使用精确 CIDR 和防火墙保护"] else []).

(** One server per listener, all with the same TLS configuration. *)
Definition spawn_servers (c : ResolvedConfig) (tls : option RustlsConfig) : list Server :=
  (λ l, mkServer (l_host l, l_port l) tls) <$> server_listeners c.

(** One iteration of the loop of [run]; [None] ends it. *)
Definition run_generation (log_dir : string) (h : host) (c : ResolvedConfig) (g : Generation)
    : result RunError (option ResolvedConfig) :=
  guard! negb (bool_decide (directory (logging c) = log_dir)) else LogDirectoryChanged;
  sys ← map_err OpenFailed (opened g);
  _ ← ok_or BuildPanicked (build_state c h sys);
  tls ← load_tls c g;
  _ ← map_err (λ e, ServerFailed ("HTTP 服务异常退出: " +:+ e)) (join_servers (joined g (spawn_servers c tls)));
  let a := control_action g in
  _ ← shut_down a g (store sys);
  Ok (match a with AStop => None | ARestart next => Some next end).

Inductive Outcome :=
| Finished                               (* [run] returned [Ok] *)
| Aborted (e : RunError)
| Serving (c : ResolvedConfig).          (* still running *)

(** The loop; the log of the configurations that were served. *)
Fixpoint run_loop (log_dir : string) (h : host) (c : ResolvedConfig) (gs : list Generation)
    : Outcome * list ResolvedConfig :=
  match gs with
  | [] => (Serving c, [])
  | g :: gs =>
      match run_generation log_dir h c g with
      | Err e => (Aborted e, if bool_decide (directory (logging c) = log_dir) then [c] else [])
      | Ok None => (Finished, [c])
      | Ok (Some next) => let '(o, cs) := run_loop log_dir h next gs in (o, c :: cs)
      end
  end.

(** [run] after its configuration was loaded and the log opened. *)
Definition run_loaded (h : host) (c : ResolvedConfig) (gs : list Generation) : Outcome * list ResolvedConfig :=
  run_loop (directory (logging c)) h c gs.

(** [run]: [loaded] is the outcome of [Config::load], [env_filter] and [try_init]
    what [init_logging] meets. *)
Definition run (loaded : result ConfigError ResolvedConfig * host) (env_filter : option string)
    (try_init : result string unit) (log_to_console : bool) (gs : list Generation)
    : Outcome * list ResolvedConfig :=
  let '(c, h) := loaded in
  match c with
  | Err e => (Aborted (ConfigFailed e), [])
  | Ok c =>
      match init_logging env_filter try_init (directory (logging c)) log_to_console with
      | Err msg => (Aborted (LoggingFailed msg), [])
      | Ok _ => run_loaded h c gs
      end
  end.

(** A signal handler that cannot be installed is an ordinary stop: when the tasks
    of the generation end, [run] returns [Ok]. *)
Lemma signal_failure_is_stop log_dir h c g gs unix evs e r :
  console_shutdown_signal unix false (CtrlC (Err e) :: evs) = shutdown g →
  run_generation log_dir h c g = Ok r → run_loop log_dir h c (g :: gs) = (Finished, [c]).
Proof.
  intros Hs Hr. assert (r = None) as ->.
  { unfold run_generation, control_action in Hr. rewrite <- Hs in Hr. inv_ok. done. }
  simpl. by rewrite Hr.
Qed.

(** The servers of a generation that got as far as listening. *)
Definition served (c : ResolvedConfig) (g : Generation) (ss : list Server) : Prop :=
  ∃ tls, load_tls c g = Ok tls ∧ ss = spawn_servers c tls.

Lemma run_generation_Ok log_dir h c g r :
  run_generation log_dir h c g = Ok r →
  directory (logging c) = log_dir ∧ (∃ sys, opened g = Ok sys ∧ is_ok (shut_down (control_action g) g (store sys)) = true) ∧
  (∃ ss, served c g ss ∧ Forall (λ j, j = Ended (Ok tt)) (joined g ss)) ∧
  r = match control_action g with AStop => None | ARestart next => Some next end.
Proof.
  unfold run_generation. intros Hr. inv_ok. breflect. split_and!; [done| | |done].
  - eexists. split; [eassumption|]. match goal with Hs : shut_down _ _ _ = Ok _ |- _ => by rewrite Hs end.
  - eexists. split; [eexists; by split|]. by apply join_servers_Ok.
Qed.

(** Every configured listener gets exactly one server, bound to its address.
    With a TLS section all of them demand a client certificate of the
    configured authorities, without one none speaks TLS; and what is then in
    the clear, or reachable from outside, has been warned about. *)
Lemma listeners_served c g ss :
  served c g ss →
  address <$> ss = (λ l, (l_host l, l_port l)) <$> server_listeners c ∧
  (∀ srv, srv ∈ ss →
     match tls c with
     | Some t => ∃ cfg, server_tls srv = Some cfg ∧ load_tls_config (tls_files g) t = Ok cfg ∧ client_roots cfg ≠ []
     | None => server_tls srv = None ∧ warnings c ≠ []
     end) ∧
  (∀ srv, srv ∈ ss → Net.is_loopback (address srv).1 = false → warnings c ≠ []).
Proof.
  intros (o & Ho & ->). unfold spawn_servers, load_tls, warnings in *. split_and!.
  - by rewrite <- list_fmap_compose.
  - intros srv (l & -> & Hl)%list_elem_of_fmap. simpl. destruct (tls c) as [t|]; [|by simplify_eq].
    destruct (load_tls_config (tls_files g) t) as [cfg|] eqn:Hc; [|done]. simplify_eq/=.
    exists cfg. split_and!; [done..|]. by eapply load_tls_config_roots.
  - intros srv (l & -> & Hl)%list_elem_of_fmap Hlo. simpl in Hlo.
    assert (existsb (λ l, negb (Net.is_loopback (l_host l))) (server_listeners c) = true) as ->.
    { apply existsb_exists. exists l. split; [by apply list_elem_of_In|]. by rewrite Hlo. }
    destruct (tls c); discriminate.
Qed.

Lemma run_loop_log log_dir h c gs :
  Forall (λ c, directory (logging c) = log_dir) (run_loop log_dir h c gs).2.
Proof.
  revert c. induction gs as [|g gs IH]; intros c; simpl; [done|].
  destruct (run_generation log_dir h c g) as [[next|]|e] eqn:Hg.
  - apply run_generation_Ok in Hg as (Hd & _). specialize (IH next).
    destruct (run_loop _ _ _ _). simpl in *. by constructor.
  - apply run_generation_Ok in Hg as (Hd & _). by repeat constructor.
  - case_bool_decide; by repeat constructor.
Qed.

(** The configurations served follow the restart actions. *)
Fixpoint chained (c : ResolvedConfig) (gs : list Generation) (cs : list ResolvedConfig) : Prop :=
  match cs, gs with
  | [], _ => True
  | c' :: cs, g :: gs =>
      c' = c ∧ (cs = [] ∨ ∃ next, control_action g = ARestart next ∧ chained next gs cs)
  | _ :: _, [] => False
  end.

Lemma run_loop_chained log_dir h c gs : chained c gs (run_loop log_dir h c gs).2.
Proof.
  revert c. induction gs as [|g gs IH]; intros c; simpl; [done|].
  destruct (run_generation log_dir h c g) as [[next|]|e] eqn:Hg.
  - apply run_generation_Ok in Hg as (_ & _ & _ & Hr). specialize (IH next).
    destruct (run_loop _ _ _ _). simpl in *. split; [done|]. right. exists next.
    by destruct (control_action g); simplify_eq.
  - simpl. by split; [|left].
  - case_bool_decide; simpl; [by split; [|left]|done].
Qed.

(** However often the service restarts, it never serves from another log
    directory than the one it started with, and each generation serves
    exactly the configuration of the restart that ended the previous one. *)
Theorem run_log_directory h c gs :
  Forall (λ c', directory (logging c') = directory (logging c)) (run_loaded h c gs).2 ∧
  chained c gs (run_loaded h c gs).2.
Proof. split; [apply run_loop_log|apply run_loop_chained]. Qed.

(** [run] returns [Ok] only after a generation that was told to stop and
    whose tasks had all ended, be it after they were asked or after they were
    killed; a generation that stays busy through both waits is an error. *)
Theorem run_finishes_idle log_dir h c gs cs :
  run_loop log_dir h c gs = (Finished, cs) →
  ∃ g sys, g ∈ gs ∧ control_action g = AStop ∧ opened g = Ok sys ∧
    let '(idle1, st1) := wait1 g (cancel_all RServerShutdown (store sys)) in
    idle1 = true ∨ (wait2 g (cancel_all RForceKilled st1)).1 = true.
Proof.
  revert c cs. induction gs as [|g gs IH]; intros c cs Hr; simpl in Hr; [done|].
  destruct (run_generation log_dir h c g) as [[next|]|e] eqn:Hg; [| |done].
  - destruct (run_loop log_dir h next gs) as [o cs'] eqn:Hl. simplify_eq.
    destruct (IH _ _ Hl) as (g' & sys & ? & ?). exists g', sys. split; [by right|done].
  - apply run_generation_Ok in Hg as (_ & (sys & Ho & Hs) & _ & Hr').
    destruct (control_action g) eqn:Ha; [|done]. exists g, sys. split_and!; [by left|done|done|].
    unfold shut_down in Hs. simpl in Hs. destruct (wait1 g _) as [i1 st1].
    destruct i1; [by left|right]. by destruct (wait2 g _) as [[]st2].
Qed.
End runtime.

(** ** A concrete run *)
Module RuntimeToy.

#[local] Existing Instances Toy.regex Toy.ipnet Toy.hostlib toy_crypto TlsToy.lib.

(** A generation that stays busy when asked to stop and ends when killed. *)
Definition stubborn (received : option ManagementAction) : Generation :=
  mkGeneration (Ok StoreToy.sys0) (λ _, None) (λ ss, (λ _, Ended (Ok tt)) <$> ss) None received (λ st, (false, st)) (λ st, (true, st)).

Definition twice : list Generation := [stubborn (Some (ARestart Toy.resolved)); stubborn (Some AStop)].

Example restart_then_stop : run_loaded Toy.fs Toy.resolved twice = (Finished, [Toy.resolved; Toy.resolved]).
Proof. reflexivity. Qed.

Lemma run_finishes_idle_witness :
  ∃ g sys, g ∈ twice ∧ control_action g = AStop ∧ opened g = Ok sys ∧
    let '(idle1, st1) := wait1 g (cancel_all RServerShutdown (store sys)) in
    idle1 = true ∨ (wait2 g (cancel_all RForceKilled st1)).1 = true.
Proof.
  apply (run_finishes_idle "/etc/logs" Toy.fs Toy.resolved twice [Toy.resolved; Toy.resolved]). reflexivity.
Defined.

End RuntimeToy.
