(* ===== verification/Shutdown.v ===== *)
(** * The shutdown sequence over the tasks themselves

    [Runtime.shut_down] ends a generation: it asks all tasks to stop, waits, kills
    what is left and waits again. Here its two waits are runs of [System]: the
    listeners have ended, so no task is created any more, while the tasks go on
    producing their effects and cleanup and stop requests go on. *)

From S2P Require Import Prelude RustStd Model Secret Disk Journal Store Config Capture Process Lifecycle App System Tls Runtime.
Local Open Scope string_scope.
Local Open Scope list_scope.
Local Open Scope Z_scope.

Section shutdown.
Context `{RegexLib, IpNetLib, HostLib, CryptoLib, JsonLaws, TimeLib, UuidLib, Platform, MapOrder, TlsLib}.

Definition store_of (a : System) : TaskStore := store (app_sys (app a)).

(** [store.cancel_all(reason)]. *)
Definition cancelled (why : StopReason) (a : System) : System :=
  mkSystem (set_store (cancel_all why (store_of a)) (app a)) (live a).

(** What happens after the listeners have ended. *)
Inductive drain_step : System → System → Prop :=
| drain_effect s l1 i p e es l2 :
    drain_step (mkSystem s (l1 ++ mkLive i p (e :: es) :: l2))
      (mkSystem (apply_effect i p e s) (l1 ++ mkLive i p es :: l2))
| drain_request s s' ls : request_step s s' → drain_step (mkSystem s ls) (mkSystem s' ls).

Lemma drain_sys a b : rtc drain_step a b → rtc sys_step a b.
Proof.
  induction 1 as [|x y z Hs _ IH]; [done|]. eapply rtc_l; [|exact IH].
  destruct Hs; [apply sys_effect|by apply sys_request].
Qed.

Lemma drain_inv total cfg a b : rtc drain_step a b → sys_inv total cfg a → sys_inv total cfg b.
Proof.
  intros Hab. apply (rtc_invariant sys_step (sys_inv total cfg)); [|by apply drain_sys].
  intros ? ?. apply sys_step_inv.
Qed.

Lemma drain_ids a b : rtc drain_step a b → l_id <$> live b = l_id <$> live a.
Proof.
  induction 1 as [|x y z Hs _ IH]; [done|]. rewrite IH. destruct Hs; simpl; [|done]. by rewrite !fmap_app.
Qed.

Lemma drain_todo a b :
  rtc drain_step a b → Forall (λ l, l_todo l = []) (live a) → Forall (λ l, l_todo l = []) (live b).
Proof.
  induction 1 as [|x y z Hs _ IH]; [done|]. intros Ht. apply IH. destruct Hs as [s l1 i p e es l2|]; [|done].
  by apply Forall_app in Ht as [_ [? _]%Forall_cons].
Qed.

Lemma cancelled_drain why a : drain_step a (cancelled why a).
Proof. destruct a as [s ls]. apply drain_request. apply (req_cancel_all why s). Qed.

(** *** [wait_until_idle] among the tasks *)

(** The waiter of [Idle] and the composed system share the counter of active
    tasks: a step of the waiter leaves the tasks alone, and what tasks and
    requests do to the counter the waiter sees at once. *)
Inductive wait_step : System * Idle.state → System * Idle.state → Prop :=
| step_waiter a w w' : Idle.step w w' → Idle.active w' = Idle.active w → wait_step (a, w) (a, w')
| step_tasks a b w w' :
    drain_step a b → w' = w ∨ Idle.step w w' → Idle.waiter w' = Idle.waiter w →
    Idle.active w' = active_count (store_of b) → wait_step (a, w) (b, w').

(** [wait_until_idle] called in [a] returned [idle] in [b]. *)
Definition waits (a : System) (idle : bool) (b : System) : Prop :=
  ∃ w, rtc wait_step (a, Idle.start (active_count (store_of a))) (b, w) ∧ Idle.waiter w = Idle.Returned idle.

(** The waiter excludes nothing: it can follow whatever the tasks do. *)
Lemma wait_follows total cfg a b w :
  sys_inv total cfg a → Z.of_nat (length (live a)) < 2 ^ 64 → Idle.active w = active_count (store_of a) →
  drain_step a b →
  ∃ w', wait_step (a, w) (b, w') ∧ Idle.waiter w' = Idle.waiter w ∧ Idle.active w' = active_count (store_of b).
Proof.
  intros Hinv Hlen Hw Hd. enough (∃ w', (w' = w ∨ Idle.step w w') ∧ Idle.waiter w' = Idle.waiter w ∧
    Idle.active w' = active_count (store_of b)) as (w' & ? & ? & ?) by (exists w'; split; [by eapply step_tasks|done]). destruct w as [n u p]. simpl in Hw. subst n. pose proof (si_active _ _ _ Hinv) as Ha.
  destruct Hd as [s l1 i q e es l2|s s' ls Hr].
  - pose proof (apply_effect_active i q e s) as He. destruct (is_mark e) eqn:Hm.
    + eexists (Idle.mk _ (S u) p). split_and!; [right; apply Idle.finish_sub|done|].
      * unfold store_of. rewrite Ha. cbn [live]. unfold actives. rewrite sum_list_with_middle.
        assert (active (mkLive i q (e :: es)) = true) as -> by (unfold active; cbn [l_todo existsb]; by rewrite Hm).
        pose proof (actives_length (l1 ++ l2)) as Hall. unfold actives in Hall. cbn [live b2n] in *.
        rewrite length_app in Hlen, Hall. simpl in Hlen. rewrite Z.mod_small by lia. lia.
      * simpl. unfold store_of. simpl. by rewrite He.
    + exists (Idle.mk (active_count (store_of (mkSystem s (l1 ++ mkLive i q (e :: es) :: l2)))) u p).
      split_and!; [by left|done|]. unfold store_of. simpl. by rewrite He.
  - exists (Idle.mk (active_count (store_of (mkSystem s ls))) u p).
    split_and!; [by left|done|]. unfold store_of. simpl.
    symmetry. apply (qc_active s s'), request_quiet; [apply (si_store _ _ _ Hinv)|done].
Qed.

Definition wait_inv (a : System) (y : System * Idle.state) : Prop :=
  rtc drain_step a y.1 ∧ Idle.active y.2 = active_count (store_of y.1) ∧
  (Idle.waiter y.2 = Idle.Returned true →
   ∃ m, rtc drain_step a m ∧ rtc drain_step m y.1 ∧ active_count (store_of m) = 0).

Lemma waiter_returns w w' :
  Idle.step w w' → Idle.waiter w' = Idle.Returned true → Idle.waiter w = Idle.Returned true ∨ Idle.active w = 0.
Proof.
  destruct 1 as [n u|n u|n u|n u|n u p|n u p]; simpl; intros Hp; try done; [|by left|left; by destruct p].
  right. by destruct (Z.eqb_spec n 0).
Qed.

Lemma wait_step_inv a y z : wait_step y z → wait_inv a y → wait_inv a z.
Proof.
  intros Hs (Hd & Hn & Hm). destruct Hs as [b w w' Hs Ha|b c w w' Hd' _ Hw Ha]; unfold wait_inv; simpl in *.
  - split_and!; [done|by rewrite Ha|]. intros [Hr|Hz]%(waiter_returns _ _ Hs); [by apply Hm|].
    exists b. split_and!; [done..|]. by rewrite <- Hn.
  - split_and!; [by eapply rtc_r|done|]. rewrite Hw. intros (m & ? & ? & ?)%Hm. exists m.
    split_and!; [done|by eapply rtc_r|done].
Qed.

(** A wait that returned [true] has seen the counter at zero. *)
Lemma waits_seen a idle b :
  waits a idle b →
  ∃ m, rtc drain_step a m ∧ rtc drain_step m b ∧ (idle = true → active_count (store_of m) = 0).
Proof.
  intros (w & Hr & Hw). destruct (rtc_invariant _ (wait_inv a) _ _ (wait_step_inv a) Hr) as (Hab & _ & Hm); [by split_and!|].
  simpl in *. destruct idle; [destruct (Hm Hw) as (m & ? & ? & ?); by exists m|by exists b].
Qed.

(** When the tasks end before the waiter looks, it returns [true]. *)
Lemma waits_idle total cfg a b :
  sys_inv total cfg a → Z.of_nat (length (live a)) < 2 ^ 64 → rtc drain_step a b → active_count (store_of b) = 0 →
  waits a true b.
Proof.
  intros Hinv Hlen Hd Hz. unfold waits. set (w := Idle.start _).
  assert (Idle.waiter w = Idle.Load ∧ Idle.active w = active_count (store_of a)) as [Hl Ha] by done. clearbody w.
  revert w Hl Ha. induction Hd as [a|a a' b Hs Hd IH]; intros [n u p] Hl Ha; simpl in *; subst.
  - exists (Idle.mk (active_count (store_of a)) u (Idle.Returned true)). split; [|done]. apply rtc_once, step_waiter; [|done].
    rewrite Hz. apply (Idle.wait_load 0 u).
  - destruct (wait_follows _ _ _ _ (Idle.mk (active_count (store_of a)) u Idle.Load) Hinv Hlen eq_refl Hs) as (w' & Hw & ? & ?).
    destruct (IH ltac:(by eapply (drain_inv _ _ a a'), Hinv; apply rtc_once)) with (w := w') as (w'' & Hr & ?); [|done..|].
    + pose proof (f_equal length (drain_ids _ _ (rtc_once _ _ Hs))) as He. rewrite !length_fmap in He. by rewrite He.
    + exists w''. split; [by eapply rtc_l|done].
Qed.

(** [w] is [wait_until_idle] between [a] and [b]. *)
Definition waited (w : TaskStore → bool * TaskStore) (a b : System) : Prop :=
  ∃ idle, w (store_of a) = (idle, store_of b) ∧ waits a idle b.

(** The waits of the generation [g], shut down in state [a] by [act]. *)
Definition generation_waits (act : ManagementAction) (g : Generation) (a : System) : Prop :=
  let a1 := cancelled (stop_reason act) a in
  ∃ b, waited (wait1 g) a1 b ∧
    ((wait1 g (store_of a1)).1 = false → ∃ b', waited (wait2 g) (cancelled RForceKilled b) b').

Lemma waited_idle total cfg w a b st :
  sys_inv total cfg a → Z.of_nat (length (live a)) < 2 ^ 64 → waited w a b → w (store_of a) = (true, st) →
  st = store_of b ∧ rtc drain_step a b ∧ all_over total b.
Proof.
  intros Hinv Hlen (idle & Hw & (m & E1 & E2 & Hidle)%waits_seen) Hst. rewrite Hw in Hst. injection Hst as -> <-.
  split_and!; [done|by etrans|]. apply (todo_all_over total cfg); [by eauto using drain_inv|].
  eapply drain_todo; [exact E2|]. eapply idle_todo; [by eapply drain_inv|by apply Hidle|].
  pose proof (f_equal length (drain_ids _ _ E1)) as Hl. rewrite !length_fmap in Hl. by rewrite Hl.
Qed.

(** Every task that was not over when [cancel_all] ran has been told why. *)
Lemma cancelled_told why a i r :
  tasks (store_of a) !! i = Some r → is_finished (status (snap r)) = false →
  ∃ r', tasks (store_of (cancelled why a)) !! i = Some r' ∧ Watch.value (stop r') = Some why ∧
    Watch.has_changed (stop r') (subscribe_stop r) = true.
Proof.
  intros Hr Hf. exists (request_stop_now why r). simpl. rewrite lookup_fmap, Hr. simpl.
  unfold cancel_record, record_snapshot.
  assert (status (set_output_truncated (truncated r) (snap r)) = status (snap r)) as -> by by destruct (snap r).
  rewrite Hf. split_and!; [done|done|]. unfold Watch.has_changed, subscribe_stop, Watch.subscribe. simpl.
  apply Nat.ltb_lt. lia.
Qed.

(** C17: a generation that was shut down has left nothing behind: whatever its
    tasks did before and during the two waits, when [shut_down] succeeds no task
    of the generation will do anything more, the store that is closed shows all
    of them as finished and all permits are back; no task was added meanwhile,
    and every task that was running at first has been given the reason. *)
Theorem shutdown_leaves_nothing c h sys s a act g st :
  0 ≤ max_total_concurrency (execution c) → Forall (λ r, 0 ≤ max_concurrency r) (routes c) →
  started c h sys s → rtc sys_step (mkSystem s []) a → Z.of_nat (length (live a)) < 2 ^ 64 →
  generation_waits act g a → shut_down act g (store_of a) = Ok st →
  ∃ b, rtc drain_step a b ∧ st = store_of b ∧ all_over (max_total_concurrency (execution c)) b ∧
    l_id <$> live b = l_id <$> live a ∧
    ∀ i r, tasks (store_of a) !! i = Some r → is_finished (status (snap r)) = false →
      ∃ r', tasks (store_of (cancelled (stop_reason act) a)) !! i = Some r' ∧
        Watch.value (stop r') = Some (stop_reason act) ∧
        Watch.has_changed (stop r') (subscribe_stop r) = true.
Proof.
  intros Hg Hr Hb Hrun Hlen (b1 & Hw1 & Hw2) Hsd.
  pose proof (sys_run_inv _ _ _ _ _ Hg Hr Hb Hrun) as Hinv.
  set (total := max_total_concurrency (execution c)) in *. set (cfg := config <$> app_routes s) in *.
  enough (∃ b, rtc drain_step a b ∧ st = store_of b ∧ all_over total b) as (b & Hab & Hst & Hover).
  { exists b. split_and!; [done|done|done|by apply drain_ids|]. intros i r. apply cancelled_told. }
  pose proof (rtc_once _ _ (cancelled_drain (stop_reason act) a)) as Hc.
  unfold shut_down in Hsd. change (cancel_all (stop_reason act) (store_of a)) with (store_of (cancelled (stop_reason act) a)) in Hsd.
  destruct (wait1 g (store_of (cancelled (stop_reason act) a))) as [[] st1] eqn:E1.
  - injection Hsd as ->.
    eapply waited_idle in Hw1 as (-> & Hd & Ho); [|by eapply drain_inv|exact Hlen|exact E1].
    exists b1. split_and!; [by etrans|done|done].
  - destruct (Hw2 eq_refl) as (b2 & Hw2'). destruct Hw1 as (idle & Hw & (m & Hd1 & Hd2 & _)%waits_seen). rewrite Hw in E1. injection E1 as -> <-.
    assert (rtc drain_step a (cancelled RForceKilled b1)) as Hk.
    { do 3 (etrans; [eassumption|]). apply rtc_once, cancelled_drain. }
    change (cancel_all RForceKilled (store_of b1)) with (store_of (cancelled RForceKilled b1)) in Hsd.
    destruct (wait2 g _) as [[] st2] eqn:E2; [|done]. injection Hsd as ->.
    eapply waited_idle in Hw2' as (-> & Hd & Ho); [|by eapply drain_inv| |exact E2].
    + exists b2. split_and!; [by etrans|done|done].
    + pose proof (f_equal length (drain_ids _ _ Hk)) as Hl. rewrite !length_fmap in Hl. by rewrite Hl.
Qed.

(** *** A wait that starts when nothing is active *)

Definition quiet_wait (y : System * Idle.state) : Prop :=
  Forall (λ l, l_todo l = []) (live y.1) ∧ Idle.idle_inv y.2.

Lemma wait_step_quiet y z : wait_step y z → quiet_wait y → quiet_wait z.
Proof.
  destruct 1 as [a w w' Hs _|a b w w' Hd Hs _ _]; intros [Ht Hi]; split; simpl in *.
  - done.
  - by eapply Idle.step_idle_inv.
  - by eapply drain_todo; [apply rtc_once|].
  - destruct Hs as [->|Hs]; [done|]. by eapply Idle.step_idle_inv.
Qed.

(** It finds the counter at zero at once: it cannot time out. *)
Lemma waits_quiet a idle b :
  Forall (λ l, l_todo l = []) (live a) → active_count (store_of a) = 0 → waits a idle b → idle = true.
Proof.
  intros Ht Hz (w & Hr & Hw).
  destruct (rtc_invariant _ quiet_wait _ _ wait_step_quiet Hr) as [_ (_ & _ & [Hl|Hl])].
  - split; [done|]. unfold Idle.idle_inv. simpl. auto.
  - simpl in Hl. congruence.
  - simpl in Hl. congruence.
Qed.

Lemma active_some total cfg a :
  sys_inv total cfg a → active_count (store_of a) ≠ 0 → ∃ l, l ∈ live a ∧ active l = true.
Proof.
  intros [_ _ _ Hact _ _ _ _] Hn. unfold store_of in Hn. rewrite Hact in Hn. clear Hact.
  unfold actives in Hn. induction (live a) as [|l ls IH]; simpl in Hn; [done|].
  destruct (active l) eqn:Hl; [exists l; split; [by left|done]|].
  destruct IH as (l' & ? & ?); [done|]. exists l'. split; [by right|done].
Qed.

(** C35: a shutdown fails only because of a task that is really still there. When
    [shut_down] returns an error, both waits timed out, and at the end of the
    first one some task of the generation had not ended: so the wake-up the
    first wait may have lost costs its timeout but never the shutdown, and tasks
    that have ended by then, however late, let it succeed. No task was added
    meanwhile, and before the second wait every task that was not over has been
    told to be killed. *)
Theorem shutdown_failure_busy c h sys s a act g e :
  0 ≤ max_total_concurrency (execution c) → Forall (λ r, 0 ≤ max_concurrency r) (routes c) →
  started c h sys s → rtc sys_step (mkSystem s []) a → Z.of_nat (length (live a)) < 2 ^ 64 →
  generation_waits act g a → shut_down act g (store_of a) = Err e →
  e = StillBusy ∧
  ∃ b b', waits (cancelled (stop_reason act) a) false b ∧ waits (cancelled RForceKilled b) false b' ∧
    l_id <$> live b = l_id <$> live a ∧ (∃ l, l ∈ live b ∧ active l = true) ∧
    ∀ i r, tasks (store_of b) !! i = Some r → is_finished (status (snap r)) = false →
      ∃ r', tasks (store_of (cancelled RForceKilled b)) !! i = Some r' ∧
        Watch.value (stop r') = Some RForceKilled ∧ Watch.has_changed (stop r') (subscribe_stop r) = true.
Proof.
  intros Hg Hr Hb Hrun Hlen (b & (idle & E1 & Hw) & Hw2) Hsd.
  pose proof (sys_run_inv _ _ _ _ _ Hg Hr Hb Hrun) as Hinv.
  unfold shut_down in Hsd. change (cancel_all (stop_reason act) (store_of a)) with (store_of (cancelled (stop_reason act) a)) in Hsd.
  rewrite E1 in Hsd, Hw2. destruct idle; [done|]. destruct (Hw2 eq_refl) as (b' & idle & E2 & Hw').
  change (cancel_all RForceKilled (store_of b)) with (store_of (cancelled RForceKilled b)) in Hsd.
  rewrite E2 in Hsd. destruct idle; [done|]. injection Hsd as <-. split; [done|]. exists b, b'.
  assert (rtc drain_step a b) as Hab.
  { eapply rtc_l; [apply (cancelled_drain (stop_reason act))|]. destruct (waits_seen _ _ _ Hw) as (m & ? & ? & _). by etrans. }
  pose proof (drain_inv _ _ _ _ Hab Hinv) as Hib.
  split_and!; [done|done|by apply drain_ids| |intros i r; apply cancelled_told].
  eapply active_some; [exact Hib|]. intros Hz.
  assert (Forall (λ l, l_todo l = []) (live b)) as Ht.
  { eapply idle_todo; [exact Hib|exact Hz|]. pose proof (f_equal length (drain_ids _ _ Hab)) as Hl.
    rewrite !length_fmap in Hl. by rewrite Hl. }
  by apply (waits_quiet (cancelled RForceKilled b)) in Hw'.
Qed.
End shutdown.

(** ** One task, shut down while it runs *)
Module ShutdownToy.

#[local] Existing Instances Toy.regex Toy.ipnet Toy.hostlib toy_crypto bit_json bit_json_laws bit_time_lib
  StoreToy.uuids unix AppToy.order TlsToy.lib.

Import SystemToy.

(** The task has been accepted and has produced nothing yet. *)
Definition serving : System := mkSystem accepted_state [mkLive 7%N "/commands/run" trace].

Lemma run_serving : rtc sys_step (mkSystem ready []) serving.
Proof.
  apply rtc_once.
  eapply (sys_execute ready accepted_state [] 7%N 5 "/commands/run" ["status"] (mkRouteRuntime Toy.resolved_route 1) task);
    [reflexivity|apply (AppToy.pair_eta _ (Ok (accepted 7%N))); vm_compute; reflexivity|set_solver|apply task_accepted|apply task_trace].
Qed.

(** Told to stop, it ends during the first wait. *)
Definition told : System := cancelled RServerShutdown serving.
Definition ended : System :=
  mkSystem (fold_left (λ s e, apply_effect 7%N "/commands/run" e s) trace (app told)) [mkLive 7%N "/commands/run" []].

Lemma all_effects s es :
  rtc drain_step (mkSystem s [mkLive 7%N "/commands/run" es])
    (mkSystem (fold_left (λ s e, apply_effect 7%N "/commands/run" e s) es s) [mkLive 7%N "/commands/run" []]).
Proof.
  revert s. induction es as [|e es IH]; intros s; simpl; [done|].
  eapply rtc_l; [apply (drain_effect s [] 7%N "/commands/run" e es [])|]. apply IH.
Qed.

Definition patient : Generation :=
  mkGeneration (Ok opened) (λ _, None) (λ ss, (λ _, Ended (Ok tt)) <$> ss) None (Some AStop) (λ _, (true, store_of ended)) (λ st, (false, st)).

Lemma patient_waits : generation_waits AStop patient serving.
Proof.
  exists ended. split; [|intros Hf; discriminate Hf]. exists true. split; [reflexivity|].
  eapply (waits_idle 16 (config <$> app_routes ready) told).
  - apply (drain_inv _ _ serving told); [apply rtc_once, cancelled_drain|].
    apply (sys_run_inv cfg Toy.fs opened ready serving);
      [vm_compute; congruence|by repeat constructor|exact ready_started|exact run_serving].
  - vm_compute. reflexivity.
  - apply all_effects.
  - vm_compute. reflexivity.
Qed.

Lemma shutdown_leaves_nothing_witness :
  ∃ b, rtc drain_step serving b ∧ store_of ended = store_of b ∧ all_over 16 b.
Proof.
  destruct (shutdown_leaves_nothing cfg Toy.fs opened ready serving AStop patient (store_of ended))
    as (b & Hd & Hs & Ho & _);
    [vm_compute; congruence|by repeat constructor|exact ready_started|exact run_serving|vm_compute; reflexivity
    |exact patient_waits|reflexivity|].
  exists b. split; [exact Hd|]. split; [exact Hs|exact Ho].
Defined.

(** A generation that does not wait at all: both waits time out. *)
Definition impatient : Generation :=
  mkGeneration (Ok opened) (λ _, None) (λ ss, (λ _, Ended (Ok tt)) <$> ss) None (Some AStop) (λ st, (false, st)) (λ st, (false, st)).

Lemma time_out a : active_count (store_of a) ≠ 0 → waits a false a.
Proof.
  intros Hn. exists (Idle.mk (active_count (store_of a)) 0 (Idle.Returned false)). split; [|done].
  eapply rtc_l; [apply step_waiter; [apply Idle.wait_load|done]|].
  apply Z.eqb_neq in Hn. rewrite Hn.
  eapply rtc_l; [apply step_waiter; [apply Idle.wait_subscribe|done]|].
  apply rtc_once, step_waiter; [apply Idle.wait_timeout|done].
Qed.

Lemma shutdown_failure_busy_witness :
  shut_down AStop impatient (store_of serving) = Err StillBusy ∧ ∃ b, l_id <$> live b = [7%N] ∧ ∃ l, l ∈ live b ∧ active l = true.
Proof.
  split; [reflexivity|].
  destruct (shutdown_failure_busy cfg Toy.fs opened ready serving AStop impatient StillBusy)
    as (_ & b & _ & _ & _ & Hi & Hl & _);
    [vm_compute; congruence|by repeat constructor|exact ready_started|exact run_serving|vm_compute; reflexivity
    | |reflexivity|].
  - exists (cancelled RServerShutdown serving). split.
    + exists false. split; [reflexivity|]. apply time_out. vm_compute. congruence.
    + intros _. eexists. exists false. split; [reflexivity|]. apply time_out. vm_compute. congruence.
  - exists b. split; [exact Hi|exact Hl].
Defined.

End ShutdownToy.
