(* ===== verification/Service.v ===== *)
(** * The Windows service (src/src/service.rs)

    The service's life as the service control manager sees it: [run] stores the
    configuration path and the name and enters the dispatcher,
    [run_service_main] reports its states while a second thread passes a stop
    request on to the runtime. The two threads are a transition system on the
    statuses reported so far. The commands that install, start, stop and remove
    the service are functions over the control manager, an interface ([Scm])
    whose documented behaviour is [ScmLaws]. *)

From S2P Require Import Prelude RustStd Model Secret Config.
Local Open Scope string_scope.
Local Open Scope list_scope.
Local Open Scope Z_scope.

(** ** Statuses *)

Inductive ServiceState := SvcStopped | SvcStartPending | SvcStopPending | SvcRunning.

#[global] Instance ServiceState_eq_dec : EqDecision ServiceState.
Proof. solve_decision. Defined.

Inductive ServiceType := OWN_PROCESS.
Inductive ServiceExitCode := Win32 (code : Z).

(** [ServiceStatus]; the only control ever accepted is STOP. *)
Record ServiceStatus := mkServiceStatus {
  service_type : ServiceType;
  current_state : ServiceState;
  accepts_stop : bool;
  svc_exit_code : ServiceExitCode;
  checkpoint : Z;
  wait_hint : Z;                          (* seconds *)
  svc_process_id : option Z
}.

Definition status (state : ServiceState) (accepted : bool) (checkpoint : Z) : ServiceStatus :=
  mkServiceStatus OWN_PROCESS state accepted (Win32 0) checkpoint
    (if checkpoint =? 0 then 0 else 10) None.

(** The control handler: whether it queues a stop event, and its result. *)
Inductive ServiceControl := CtlStop | CtlInterrogate | CtlOther.
Inductive HandlerResult := NoError | NotImplemented.

Definition control_handler (c : ServiceControl) : bool * HandlerResult :=
  match c with
  | CtlStop => (true, NoError)
  | CtlInterrogate => (false, NoError)
  | CtlOther => (false, NotImplemented)
  end.

(** ** The two threads *)

(** Where [run_service_main] stands. *)
Inductive main_pc :=
| Entered                                 (* about to register the handler *)
| Registered                              (* about to report StartPending *)
| StartReported                           (* about to build the runtime *)
| RuntimeBuilt                            (* about to report Running *)
| RunningReported                         (* about to spawn the stop thread *)
| Serving                                 (* inside [runtime::run] *)
| RunEnded (r : result string unit)       (* about to report Stopped *)
| Returned (r : result string unit).

(** Where the stop thread stands. *)
Inductive stop_pc :=
| NotSpawned
| Waiting                                 (* in [stop_event_rx.recv()] *)
| Received                                (* about to report StopPending *)
| StopReported                            (* about to send the shutdown *)
| Signalled.

Record Svc := mkSvc {
  main : main_pc;
  stopper : stop_pc;
  stop_events : nat;                      (* queued by the control handler *)
  statuses : list ServiceStatus           (* as received by the manager *)
}.

(** The manager sends a stop only while the last status accepts it. *)
Definition accepting (l : list ServiceStatus) : Prop := ∃ s, last l = Some s ∧ accepts_stop s = true.

Inductive svc_step : Svc → Svc → Prop :=
| main_register p n l : svc_step (mkSvc Entered p n l) (mkSvc Registered p n l)
| main_register_err p n l e : svc_step (mkSvc Entered p n l) (mkSvc (Returned (Err e)) p n l)
| main_start_pending p n l :
    svc_step (mkSvc Registered p n l) (mkSvc StartReported p n (l ++ [status SvcStartPending false 1]))
| main_start_pending_err p n l e : svc_step (mkSvc Registered p n l) (mkSvc (Returned (Err e)) p n l)
| main_build p n l : svc_step (mkSvc StartReported p n l) (mkSvc RuntimeBuilt p n l)
| main_build_err p n l e : svc_step (mkSvc StartReported p n l) (mkSvc (Returned (Err e)) p n l)
| main_running p n l :
    svc_step (mkSvc RuntimeBuilt p n l) (mkSvc RunningReported p n (l ++ [status SvcRunning true 0]))
| main_running_err p n l e : svc_step (mkSvc RuntimeBuilt p n l) (mkSvc (Returned (Err e)) p n l)
| main_spawn p n l : svc_step (mkSvc RunningReported p n l) (mkSvc Serving Waiting n l)
| main_run_ends p n l r : svc_step (mkSvc Serving p n l) (mkSvc (RunEnded r) p n l)
| main_stopped p n l r :
    svc_step (mkSvc (RunEnded r) p n l) (mkSvc (Returned r) p n (l ++ [status SvcStopped false 0]))
| main_stopped_err p n l r e : svc_step (mkSvc (RunEnded r) p n l) (mkSvc (Returned (Err e)) p n l)
| manager_control c m p n l :
    m ≠ Entered → (c = CtlStop → accepting l) →
    svc_step (mkSvc m p n l) (mkSvc m p (if (control_handler c).1 then S n else n) l)
| stop_recv m n l : svc_step (mkSvc m Waiting (S n) l) (mkSvc m Received n l)
| stop_report m n l :
    svc_step (mkSvc m Received n l) (mkSvc m StopReported n (l ++ [status SvcStopPending false 1]))
| stop_report_err m n l : svc_step (mkSvc m Received n l) (mkSvc m StopReported n l)
| stop_send m n l : svc_step (mkSvc m StopReported n l) (mkSvc m Signalled n l).

Definition svc_start : Svc := mkSvc Entered NotSpawned 0 [].

(** ** What the manager sees *)

(** The states reported before the stop thread exists. *)
Definition early (m : main_pc) (l : list ServiceState) : Prop :=
  match m with
  | Entered | Registered => l = []
  | StartReported | RuntimeBuilt => l = [SvcStartPending]
  | RunningReported => l = [SvcStartPending; SvcRunning]
  | Returned (Err _) => l = [] ∨ l = [SvcStartPending]
  | _ => False
  end.

Definition started (m : main_pc) : bool :=
  match m with Serving | RunEnded _ | Returned _ => true | _ => false end.

(** The states reported after [SvcRunning]. *)
Record late (m : main_pc) (p : stop_pc) (q : list ServiceState) : Prop := {
  late_pending : SvcStopPending ∈ q → p = StopReported ∨ p = Signalled;
  late_stopped : SvcStopped ∈ q → ∃ r, m = Returned r;
  late_ok : m = Returned (Ok tt) → SvcStopped ∈ q;
  late_shape : q ∈ [[]; [SvcStopPending]; [SvcStopped]; [SvcStopPending; SvcStopped]; [SvcStopped; SvcStopPending]]
}.

(** A status with its fields as [status] sets them. *)
Definition consistent (st : ServiceStatus) : Prop :=
  accepts_stop st = bool_decide (current_state st = SvcRunning) ∧ svc_exit_code st = Win32 0 ∧
  wait_hint st = (if checkpoint st =? 0 then 0 else 10).

Definition svc_inv (s : Svc) : Prop :=
  Forall consistent (statuses s) ∧
  let l := current_state <$> statuses s in
  (stopper s = NotSpawned ∧ early (main s) l ∨
   started (main s) = true ∧ stopper s ≠ NotSpawned ∧
   ∃ q, l = [SvcStartPending; SvcRunning] ++ q ∧ late (main s) (stopper s) q).

Lemma late_main m m' p q :
  (∀ r, m ≠ Returned r) → (m' = Returned (Ok tt) → False) → late m p q → late m' p q.
Proof. intros Hm Hm' []. split; try naive_solver. Qed.

Lemma late_stopper m p p' q : (p' = StopReported ∨ p' = Signalled) ∨ (p ≠ StopReported ∧ p ≠ Signalled) →
  late m p q → late m p' q.
Proof. intros Hp []. split; naive_solver. Qed.

Lemma late_add_stopped r p q : late (RunEnded r) p q → late (Returned r) p (q ++ [SvcStopped]).
Proof.
  intros [Hp Hs Ho Hq]. split.
  - intros Hin. apply Hp. set_solver.
  - by eexists.
  - set_solver.
  - destruct (decide (SvcStopped ∈ q)) as [Hin|Hin]; [by destruct (Hs Hin)|].
    repeat (apply elem_of_cons in Hq as [->|Hq]); set_solver.
Qed.

Lemma late_add_pending m q : late m Received q → late m StopReported (q ++ [SvcStopPending]).
Proof.
  intros [Hp Hs Ho Hq]. split.
  - by left.
  - set_solver.
  - set_solver.
  - destruct (decide (SvcStopPending ∈ q)) as [Hin|Hin]; [by destruct (Hp Hin)|].
    repeat (apply elem_of_cons in Hq as [->|Hq]); set_solver.
Qed.

Lemma svc_step_inv a b : svc_step a b → svc_inv a → svc_inv b.
Proof.
  intros Hs [Hf Hi]. split.
  { destruct Hs; simpl in *; try done; apply Forall_app; (split; [done|]); by repeat constructor. }
  destruct Hs; simpl in *; rewrite ?fmap_app; destruct Hi as [[Hp He]|(Hst & Hp & q & Hq & Hl)]; simpl in *; try done;
    try (left; split; [done|]; rewrite ?He; naive_solver).
  - right. split_and!; [done|done|]. exists []. rewrite He. split; [done|]. split; set_solver.
  - right. split_and!; [done|done|]. exists q. split; [done|]. eapply late_main; [| |exact Hl]; naive_solver.
  - right. split_and!; [done|done|]. exists (q ++ [SvcStopped]). rewrite Hq. split; [done|]. by apply late_add_stopped.
  - right. split_and!; [done|done|]. exists q. split; [done|]. eapply late_main; [| |exact Hl]; naive_solver.
  - right. by eauto 10.
  - right. split_and!; [done|done|]. exists q. split; [done|]. eapply late_stopper; [|exact Hl]. naive_solver.
  - right. split_and!; [done|done|]. exists (q ++ [SvcStopPending]). rewrite Hq. split; [done|]. by apply late_add_pending.
  - right. split_and!; [done|done|]. exists q. split; [done|]. eapply late_stopper; [|exact Hl]. naive_solver.
  - right. split_and!; [done|done|]. exists q. split; [done|]. eapply late_stopper; [|exact Hl]. naive_solver.
Qed.

(** C31: the service control manager sees a service that starts, runs and stops,
    in this order, whatever the timing of the two threads: the reported states
    are a beginning of StartPending, Running, StopPending, Stopped, or of
    StartPending, Running, Stopped, StopPending; STOP is accepted exactly while
    Running, a wait hint of ten seconds is given exactly with a checkpoint, and
    [run_service_main] returns [Ok] only after Stopped was reported. *)
Theorem service_status_order s :
  rtc svc_step svc_start s →
  let l := current_state <$> statuses s in
  Forall consistent (statuses s) ∧
  (l `prefix_of` [SvcStartPending; SvcRunning; SvcStopPending; SvcStopped] ∨
   l `prefix_of` [SvcStartPending; SvcRunning; SvcStopped; SvcStopPending]) ∧
  (main s = Returned (Ok tt) → SvcStopped ∈ l).
Proof.
  intros Hr. assert (svc_inv s) as [Hf Hi].
  { apply (rtc_invariant svc_step svc_inv _ _ svc_step_inv Hr). split; [constructor|]. by left. }
  split; [done|]. destruct Hi as [[_ He]|(_ & _ & q & -> & [_ _ Ho Hq])].
  - split; [|intros Hm; by rewrite Hm in He]. left. destruct (main s) as [| | | | | |[[]|]|[[]|]]; simpl in He;
      try done; rewrite ?He; try (by eexists). destruct He as [-> | ->]; by eexists.
  - split; [|intros Hm; specialize (Ho Hm); set_solver].
    repeat (apply elem_of_cons in Hq as [->|Hq]); try (by left; eexists); try (by right; eexists).
    by apply not_elem_of_nil in Hq.
Qed.

Lemma service_status_order_witness :
  let s := mkSvc Serving Waiting 0 [status SvcStartPending false 1; status SvcRunning true 0] in
  (current_state <$> statuses s) `prefix_of` [SvcStartPending; SvcRunning; SvcStopPending; SvcStopped] ∨
  (current_state <$> statuses s) `prefix_of` [SvcStartPending; SvcRunning; SvcStopped; SvcStopPending].
Proof.
  apply (service_status_order (mkSvc Serving Waiting 0 [status SvcStartPending false 1; status SvcRunning true 0])).
  eapply rtc_l; [apply main_register|]. eapply rtc_l; [apply main_start_pending|].
  eapply rtc_l; [apply main_build|]. eapply rtc_l; [apply main_running|]. apply rtc_once. apply main_spawn.
Defined.

(** The second order is possible: when the service ends by itself, for
    instance through its management API, while a stop request is being
    handled, the stop thread reports StopPending after the main thread has
    reported Stopped, and no later report corrects it. *)
Theorem stop_pending_after_stopped :
  ∃ s, rtc svc_step svc_start s ∧ main s = Returned (Ok tt) ∧
    current_state <$> statuses s = [SvcStartPending; SvcRunning; SvcStopped; SvcStopPending] ∧
    ∀ s', rtc svc_step s s' → current_state <$> statuses s' = current_state <$> statuses s.
Proof.
  set (l := [status SvcStartPending false 1; status SvcRunning true 0]).
  exists (mkSvc (Returned (Ok tt)) StopReported 0
    (l ++ [status SvcStopped false 0] ++ [status SvcStopPending false 1])).
  split_and!; [|done|done|].
  - eapply rtc_l; [apply main_register|]. eapply rtc_l; [apply main_start_pending|].
    eapply rtc_l; [apply main_build|]. eapply rtc_l; [apply main_running|].
    eapply rtc_l; [apply main_spawn|].
    eapply rtc_l; [apply (manager_control CtlStop); [done|by eexists]|]. simpl.
    eapply rtc_l; [apply stop_recv|]. eapply rtc_l; [apply (main_run_ends _ _ _ (Ok tt))|].
    eapply rtc_l; [apply main_stopped|]. apply rtc_once. apply stop_report.
  - intros s' Hr. set (s0 := mkSvc _ _ _ _) in *.
    assert (main s' = Returned (Ok tt) ∧ (stopper s' = StopReported ∨ stopper s' = Signalled) ∧
            statuses s' = statuses s0) as (_ & _ & ->); [|done].
    apply (rtc_invariant svc_step (λ s, main s = Returned (Ok tt) ∧ (stopper s = StopReported ∨ stopper s = Signalled) ∧
            statuses s = statuses s0) _ _) in Hr; [done| |by split_and!; [|left|]].
    intros a b Hs. destruct Hs; simpl; naive_solver.
Qed.

(** A start that fails before Running is reported to the manager by nothing
    but the end of the process: no Stopped status follows. *)
Lemma failed_start_unreported s e :
  rtc svc_step svc_start s → main s = Returned (Err e) → stopper s = NotSpawned →
  SvcStopped ∉ current_state <$> statuses s.
Proof.
  intros Hr Hm Hp. assert (svc_inv s) as [_ Hi].
  { apply (rtc_invariant svc_step svc_inv _ _ svc_step_inv Hr). split; [constructor|]. by left. }
  destruct Hi as [[_ He]|(_ & ? & _)]; [|done]. rewrite Hm in He. simpl in He. destruct He as [-> | ->]; set_solver.
Qed.

(** ** Commands over the control manager *)

Inductive ManagerAccess := CONNECT | CREATE_SERVICE.
Inductive ServiceAccess := QUERY_STATUS | START | STOP | DELETE | CHANGE_CONFIG.
Inductive ServiceStartType := AutoStart.
Inductive ServiceErrorControl := Normal.

Record ServiceInfo := mkServiceInfo {
  si_name : string;
  si_display_name : string;
  si_service_type : ServiceType;
  si_start_type : ServiceStartType;
  si_error_control : ServiceErrorControl;
  executable_path : string;
  launch_arguments : list string;
  dependencies : list string;
  si_account_name : option string;
  account_password : option string
}.

(** An open service: its name and the rights it was opened with. *)
Record ServiceHandle := mkServiceHandle { h_name : string; h_access : list ServiceAccess }.

(** The control manager, and the observation of what it has registered: the
    information and the description. *)
Class Scm (S : Type) := {
  local_computer : list ManagerAccess → S → result string unit;
  create_service : ServiceInfo → list ServiceAccess → S → result string ServiceHandle * S;
  open_service : string → list ServiceAccess → S → result string ServiceHandle;
  set_description : ServiceHandle → string → S → result string unit * S;
  start_service : ServiceHandle → S → result string unit * S;
  stop_service : ServiceHandle → S → result string unit * S;
  query_status : ServiceHandle → S → result string ServiceState;
  delete_service : ServiceHandle → S → result string unit * S;
  registered : S → gmap string (ServiceInfo * option string)
}.

Class ScmLaws S `{Scm S} : Prop := {
  create_service_Ok info acc s h s' : create_service info acc s = (Ok h, s') →
    h = mkServiceHandle (si_name info) acc ∧ registered s !! si_name info = None ∧
    registered s' = <[si_name info := (info, None)]> (registered s);
  create_service_Err info acc s e s' : create_service info acc s = (Err e, s') → registered s' = registered s;
  open_service_Ok n acc s h : open_service n acc s = Ok h →
    h = mkServiceHandle n acc ∧ is_Some (registered s !! n);
  set_description_Ok h d s s' : set_description h d s = (Ok tt, s') →
    CHANGE_CONFIG ∈ h_access h ∧
    registered s' = alter (λ '(i, _), (i, Some d)) (h_name h) (registered s);
  set_description_Err h d s e s' : set_description h d s = (Err e, s') → registered s' = registered s;
  start_registered h s r s' : start_service h s = (r, s') → registered s' = registered s;
  stop_registered h s r s' : stop_service h s = (r, s') → registered s' = registered s;
  delete_service_Ok h s s' : delete_service h s = (Ok tt, s') →
    DELETE ∈ h_access h ∧ registered s' = delete (h_name h) (registered s);
  delete_service_Err h s e s' : delete_service h s = (Err e, s') → registered s' = registered s
}.

Inductive ServiceError :=
| BadConfig (e : ConfigError)
| PathAlreadySet
| NameAlreadySet
| DispatcherFailed (msg : string)
| NoExecutable (msg : string)
| ScmFailed (msg : string)
| WindowsOnly.

(** The two [OnceLock]s. *)
Record Statics := mkStatics { CONFIG_PATH : option string; SERVICE_NAME : option string }.

Section commands.
Context `{RegexLib, IpNetLib, CryptoLib} {S : Type} `{Scm S}.

Definition C := stm S ServiceError.

(** A call of the manager as a step of a command. *)
Definition scm {A} (f : S → result string A * S) : C A := λ s,
  let '(r, s) := f s in (map_err ScmFailed r, s).
Definition scm_read {A} (f : S → result string A) : C A := λ s, (map_err ScmFailed (f s), s).

(** [run]: [dispatch] is [service_dispatcher::start]. *)
Definition run (loaded : result ConfigError ResolvedConfig) (dispatch : string → result string unit)
    (st : Statics) : result ServiceError unit * Statics :=
  match loaded with
  | Err e => (Err (BadConfig e), st)
  | Ok config =>
      match CONFIG_PATH st with
      | Some _ => (Err PathAlreadySet, st)
      | None =>
          let st := mkStatics (Some (source_path config)) (SERVICE_NAME st) in
          match SERVICE_NAME st with
          | Some _ => (Err NameAlreadySet, st)
          | None =>
              (map_err DispatcherFailed (dispatch (ws_name (windows_service config))),
               mkStatics (CONFIG_PATH st) (Some (ws_name (windows_service config))))
          end
      end
  end.

Definition service_info (config : ResolvedConfig) (executable : string) : ServiceInfo :=
  mkServiceInfo (ws_name (windows_service config)) (display_name (windows_service config)) OWN_PROCESS
    AutoStart Normal executable ["service"; "run"; "--config"; source_path config] []
    (account_name (account (windows_service config))) None.

(** [install]: [executable] is [current_exe()?.canonicalize()?]. *)
Definition install (loaded : result ConfigError ResolvedConfig) (executable : result string string) : C unit :=
  config ← pure_result (map_err BadConfig loaded);
  executable ← pure_result (map_err NoExecutable executable);
  _ ← scm_read (local_computer [CONNECT; CREATE_SERVICE]);
  service ← scm (create_service (service_info config executable) [QUERY_STATUS; START; STOP; DELETE; CHANGE_CONFIG]);
  scm (set_description service (ws_description (windows_service config))).

Definition manager_and_config (loaded : result ConfigError ResolvedConfig) : C ResolvedConfig :=
  config ← pure_result (map_err BadConfig loaded);
  _ ← scm_read (local_computer [CONNECT]);
  mret config.

Definition start (loaded : result ConfigError ResolvedConfig) : C unit :=
  config ← manager_and_config loaded;
  service ← scm_read (open_service (ws_name (windows_service config)) [START]);
  scm (start_service service).

Definition stop (loaded : result ConfigError ResolvedConfig) : C unit :=
  config ← manager_and_config loaded;
  service ← scm_read (open_service (ws_name (windows_service config)) [STOP; QUERY_STATUS]);
  scm (stop_service service).

Definition uninstall (loaded : result ConfigError ResolvedConfig) : C unit :=
  config ← manager_and_config loaded;
  service ← scm_read (open_service (ws_name (windows_service config)) [DELETE; STOP; QUERY_STATUS]);
  state ← scm_read (query_status service);
  _ ← (if bool_decide (state = SvcStopped) then mret tt else ignore (scm (stop_service service)));
  scm (delete_service service).

(** The five commands of a build for another system. *)
Definition unsupported (_ : string) : result ServiceError unit := Err WindowsOnly.
End commands.

Section command_facts.
Context `{RegexLib, IpNetLib, CryptoLib} {S : Type} `{ScmLaws S}.

Lemma scm_Ok {A} (f : S → result string A * S) s a s' : scm f s = (Ok a, s') ↔ f s = (Ok a, s').
Proof. unfold scm. destruct (f s) as [[]?]; naive_solver. Qed.

Lemma scm_read_Ok {A} (f : S → result string A) s a s' : scm_read f s = (Ok a, s') ↔ f s = Ok a ∧ s' = s.
Proof. unfold scm_read. destruct (f s); naive_solver. Qed.

Ltac inv_scm :=
  repeat (inv_stm; inv_ok;
    try match goal with
    | H : scm_read _ _ = (Ok _, _) |- _ => apply scm_read_Ok in H as [H ->]
    | H : scm _ _ = (Ok _, _) |- _ => apply scm_Ok in H
    end).

(** The effect of a successful [install]. *)
Lemma install_Ok loaded executable s s' :
  install loaded executable s = (Ok tt, s') →
  ∃ c e, loaded = Ok c ∧ executable = Ok e ∧
    let n := ws_name (windows_service c) in
    registered s !! n = None ∧
    registered s' = <[n := (service_info c e, Some (ws_description (windows_service c)))]> (registered s).
Proof.
  unfold install. intros Hi. inv_scm.
  match goal with Hc : create_service _ _ _ = _ |- _ => apply create_service_Ok in Hc as (-> & Hn & Hr) end.
  apply set_description_Ok in Hi as [_ Hd]. simpl in *. subst. eexists _, _. split_and!; try done.
  by rewrite Hd, Hr, alter_insert_eq.
Qed.

(** [install] either registers the service completely, or changes nothing,
    or (when only the description could not be set) leaves it registered
    without one and reports the error: a registered service starts with the
    system, as the account the configuration names and without a password,
    runs this program with the arguments [service run --config] and the
    canonical path of the configuration, and was not there before. *)
Theorem install_outcomes loaded executable s r s' :
  install loaded executable s = (r, s') →
  match r with
  | Ok _ => ∃ c e, loaded = Ok c ∧ executable = Ok e ∧ registered s !! ws_name (windows_service c) = None ∧
      registered s' = <[ws_name (windows_service c) :=
        (service_info c e, Some (ws_description (windows_service c)))]> (registered s)
  | Err _ => registered s' = registered s ∨
      ∃ c e, loaded = Ok c ∧ executable = Ok e ∧ registered s !! ws_name (windows_service c) = None ∧
        registered s' = <[ws_name (windows_service c) := (service_info c e, None)]> (registered s)
  end.
Proof.
  destruct r as [[]|err]; [apply install_Ok|]. unfold install, mbind, stm_bind, pure_result.
  destruct loaded as [c|e]; simpl; [|intros [= _ <-]; by left].
  destruct executable as [e|m]; simpl; [|intros [= _ <-]; by left].
  unfold scm_read. destruct (local_computer _ s); simpl; [|intros [= _ <-]; by left].
  unfold scm at 1. destruct (create_service _ _ s) as [[h|m] s1] eqn:Hc; simpl.
  - apply create_service_Ok in Hc as (-> & Hn & Hr). unfold scm.
    destruct (set_description _ _ s1) as [[]s2] eqn:Hd; simpl; [done|]. intros [= _ <-].
    apply set_description_Err in Hd. right. eexists _, _. split_and!; try done. by rewrite Hd, Hr.
  - intros [= _ <-]. apply create_service_Err in Hc. by left.
Qed.

(** [uninstall] undoes [install]: after both have succeeded with the same
    configuration, whatever start and stop did in between, the control manager
    has registered exactly what it had before; and it deletes the service also
    when stopping it fails. *)
Theorem uninstall_undoes_install loaded executable s s1 s2 s3 :
  install loaded executable s = (Ok tt, s1) →
  registered s2 = registered s1 →
  uninstall loaded s2 = (Ok tt, s3) →
  registered s3 = registered s.
Proof.
  intros (c & e & -> & -> & Hn & Hr)%install_Ok H12 Hu. unfold uninstall, manager_and_config in Hu.
  inv_scm. simplify_eq.
  match goal with Ho : open_service _ _ _ = _ |- _ => apply open_service_Ok in Ho as [-> _] end.
  match goal with
  | Hd : delete_service _ ?sx = _, Ho : registered ?sy = registered s1 |- _ =>
      assert (registered sx = registered sy) as Hx end.
  { case_bool_decide; inv_scm; [done|]. unfold scm.
    destruct (stop_service _ _) as [? sy] eqn:Hs. simpl. by eapply stop_registered. }
  apply delete_service_Ok in Hu as [_ ->]. simpl. rewrite Hx, H12, Hr. by rewrite delete_insert_id.
Qed.

(** A process that entered through [run] finds its name and configuration. *)
Lemma run_sets_statics c dispatch r st :
  run (Ok c) dispatch (mkStatics None None) = (r, st) →
  st = mkStatics (Some (source_path c)) (Some (ws_name (windows_service c))).
Proof. by intros [= _ <-]. Qed.
End command_facts.

(** ** A concrete control manager *)
Module ServiceToy.

#[local] Existing Instances Toy.regex Toy.ipnet toy_crypto.

#[local] Instance ServiceAccess_eq_dec : EqDecision ServiceAccess.
Proof. solve_decision. Defined.

(** Every registered service runs and can be stopped. *)
Definition Registry := gmap string (ServiceInfo * option string).

Definition allowed (h : ServiceHandle) (a : ServiceAccess) (reg reg' : Registry) : result string unit * Registry :=
  if bool_decide (a ∈ h_access h) then (Ok tt, reg') else (Err "access denied", reg).

#[local] Instance registry : Scm Registry := {|
  local_computer _ _ := Ok tt;
  create_service info acc reg :=
    match reg !! si_name info with
    | Some _ => (Err "exists", reg)
    | None => (Ok (mkServiceHandle (si_name info) acc), <[si_name info := (info, None)]> reg)
    end;
  open_service n acc reg := match reg !! n with Some _ => Ok (mkServiceHandle n acc) | None => Err "unknown" end;
  set_description h d reg := allowed h CHANGE_CONFIG reg (alter (λ '(i, _), (i, Some d)) (h_name h) reg);
  start_service h reg := allowed h START reg reg;
  stop_service h reg := allowed h STOP reg reg;
  query_status h reg := Ok SvcRunning;
  delete_service h reg := allowed h DELETE reg (delete (h_name h) reg);
  registered reg := reg
|}.

Lemma allowed_inv h a reg reg' r reg'' :
  allowed h a reg reg' = (r, reg'') → (r = Ok tt ∧ a ∈ h_access h ∧ reg'' = reg') ∨ (∃ e, r = Err e) ∧ reg'' = reg.
Proof. unfold allowed. case_bool_decide; intros [= <- <-]; eauto. Qed.

Lemma registry_laws : ScmLaws Registry.
Proof.
  split; simpl.
  - intros info acc reg h reg'. destruct (reg !! _) eqn:Hl; [done|]. intros [= <- <-]. done.
  - intros info acc reg e reg'. destruct (reg !! _); [|done]. by intros [= _ <-].
  - intros n acc reg h. destruct (reg !! n) eqn:Hl; [|done]. intros [= <-]. split; [done|]. by eexists.
  - intros h d reg reg' Ha. by apply allowed_inv in Ha as [(_ & ? & ->)|[[? [=]] _]].
  - intros h d reg e reg' Ha. by apply allowed_inv in Ha as [([=] & _)|[_ ->]].
  - intros h reg r reg' Ha. by apply allowed_inv in Ha as [(_ & _ & ->)|[_ ->]].
  - intros h reg r reg' Ha. by apply allowed_inv in Ha as [(_ & _ & ->)|[_ ->]].
  - intros h reg reg' Ha. by apply allowed_inv in Ha as [(_ & ? & ->)|[[? [=]] _]].
  - intros h reg e reg' Ha. by apply allowed_inv in Ha as [([=] & _)|[_ ->]].
Qed.
#[local] Existing Instance registry_laws.

Definition toy_info : ServiceInfo := service_info Toy.resolved "C:\command-api.exe".
Definition installed : Registry :=
  {[default_service_name := (toy_info, Some default_service_description)]}.

Lemma install_toy : install (Ok Toy.resolved) (Ok "C:\command-api.exe") ∅ = (Ok tt, installed).
Proof. reflexivity. Defined.

Lemma install_outcomes_witness :
  ∃ c e, Ok Toy.resolved = (Ok c : result ConfigError ResolvedConfig) ∧
    Ok "C:\command-api.exe" = (Ok e : result string string) ∧
    (∅ : Registry) !! ws_name (windows_service c) = None ∧
    installed = <[ws_name (windows_service c) :=
      (service_info c e, Some (ws_description (windows_service c)))]> (∅ : Registry).
Proof. exact (install_outcomes (Ok Toy.resolved) (Ok "C:\command-api.exe") ∅ (Ok tt) installed install_toy). Defined.

Lemma uninstall_undoes_install_witness :
  registered (uninstall (S:=Registry) (Ok Toy.resolved) installed).2 = registered (∅ : Registry).
Proof.
  apply (uninstall_undoes_install (Ok Toy.resolved) (Ok "C:\command-api.exe") (∅ : Registry) installed installed
    (uninstall (S:=Registry) (Ok Toy.resolved) installed).2); [apply install_toy|reflexivity|reflexivity].
Defined.

End ServiceToy.
