(* ===== verification/Cli.v ===== *)
(** * The secret commands of the command line (src/src/main.rs)

    [read_token] and the three [secret] commands on top of [Secret]: generate a
    random token into a key file, import a token into a key file, print the hash
    of a token as configuration text; and the exit code of the process. *)

From S2P Require Import Prelude RustStd Model Secret.
Local Open Scope string_scope.
Local Open Scope list_scope.
Local Open Scope Z_scope.

Definition quote : ascii := "034".
Definition line_feed : ascii := "010".
Definition carriage_return : ascii := "013".

(** Only characters of [cs]. *)
Fixpoint made_of (cs : list ascii) (s : string) : bool :=
  match s with
  | EmptyString => true
  | String c s => bool_decide (c ∈ cs) && made_of cs s
  end.

(** [s.trim_end_matches(cs)] for ASCII characters. *)
Fixpoint trim_end_matches (cs : list ascii) (s : string) : string :=
  match s with
  | EmptyString => EmptyString
  | String c r => if made_of cs s then EmptyString else String c (trim_end_matches cs r)
  end.

Inductive CliError :=
| StdinUnreadable
| PromptFailed
| TokensDiffer
| SecretFailed (e : SecretError).

(** Where the token comes from: standard input, [None] when it is not readable
    UTF-8, or the two answers at the terminal. *)
Inductive TokenInput :=
| FromStdin (content : option string)
| FromPrompt (first second : option string).

Definition read_token (i : TokenInput) : result CliError string :=
  match i with
  | FromStdin content =>
      value ← ok_or StdinUnreadable content;
      Ok (trim_end_matches [carriage_return; line_feed] value)
  | FromPrompt first second =>
      first ← ok_or PromptFailed first;
      second ← ok_or PromptFailed second;
      guard! negb (bool_decide (first = second)) else TokensDiffer;
      Ok first
  end.

Section commands.
Context `{CryptoLib, DpapiLib}.

(** The key file: whether its directory is created and the file written. *)
Record KeyFile := mkKeyFile { mkdir : option bool; writable : bool }.

Inductive SecretAction :=
| Generate (file : KeyFile) (scope : DpapiScope) (u1 u2 : string)
| Protect (file : KeyFile) (scope : DpapiScope) (input : TokenInput)
| Hash (input : TokenInput) (rounds : Z) (salt : string).

(** What a command writes: standard output, and the content of the key file. *)
Record Written := mkWritten { stdout : option string; key_file : option string }.

Definition line (s : string) : string := s +:+ String line_feed EmptyString.

(** The configuration text printed by [secret hash]. *)
Definition hash_yaml (phc : string) : string :=
  line "auth:" +:+ line "  token:" +:+ line "    provider: pbkdf2_sha256" +:+
  line ("    hash: " +:+ String quote (phc +:+ String quote EmptyString)).

Definition run_secret (a : SecretAction) : result CliError Written :=
  match a with
  | Generate file scope u1 u2 =>
      '(token, content) ← map_err SecretFailed (generate_and_protect u1 u2 scope (mkdir file) (writable file));
      Ok (mkWritten (Some (line token)) (Some content))
  | Protect file scope input =>
      token ← read_token input;
      content ← map_err SecretFailed (protect_to_file token scope (mkdir file) (writable file));
      Ok (mkWritten None (Some content))
  | Hash input rounds salt =>
      token ← read_token input;
      hash ← map_err SecretFailed (generate_pbkdf2_sha256 token rounds salt);
      Ok (mkWritten (Some (hash_yaml hash)) None)
  end.
End commands.

(** The exit code of [main] outside the worker branch. *)
Definition main_exit {A} (r : result CliError A) : Z := match r with Ok _ => 0 | Err _ => 1 end.

(** ** Theorems *)

(** The documented behaviour of the [pbkdf2] crate: a hash it produces parses as
    a complete PHC string of its algorithm with the given rounds and the
    recommended output length, and verifies its password. *)
Class CryptoLaws `{CryptoLib} : Prop :=
  hash_password_spec : ∀ rounds t salt phc, hash_password rounds t salt = Some phc →
    ∃ h, PasswordHash_new phc = Some h ∧ ph_algorithm h = "pbkdf2-sha256" ∧
      ph_salt h ≠ None ∧ ph_hash h ≠ None ∧
      Params_try_from h = Some (rounds, RECOMMENDED_OUTPUT_LENGTH) ∧ verify_password t h = true.

(** Trailing characters of [cs] after a text without any of them are cut. *)
Lemma trim_end_matches_app cs t e :
  Str.contains cs t = false → made_of cs e = true → trim_end_matches cs (t +:+ e) = t.
Proof.
  intros Ht He. induction t as [|c t IH].
  - change (trim_end_matches cs e = EmptyString). destruct e as [|c e]; [done|]. cbn [trim_end_matches].
    by rewrite He.
  - rewrite Str.app_cons. simpl in Ht. breflect. cbn [trim_end_matches made_of].
    rewrite bool_decide_eq_false_2 by done. simpl. by rewrite IH.
Qed.

Lemma contains_mono cs cs' s : cs ⊆ cs' → Str.contains cs' s = false → Str.contains cs s = false.
Proof.
  intros Hs. induction s as [|c s IH]; simpl; [done|]. intros Hc. breflect.
  rewrite bool_decide_eq_false_2 by set_solver. by apply IH.
Qed.

Lemma validate_token_Ok t :
  validate_token t = Ok tt → 32 ≤ Str.len t ≤ 4096 ∧ Str.contains line_breaks t = false.
Proof. unfold validate_token. intros Hv. inv_ok. breflect. split; [lia|done]. Qed.

Section cli_facts.
Context `{CryptoLaws, DpapiLib}.

(** C32: the hash that [secret hash --stdin] prints for a token, with or without
    the line end a terminal adds, is a hash the configuration accepts, and the
    verifier made from it accepts that token. *)
Theorem hash_command_usable t e rounds salt out :
  validate_token t = Ok tt → made_of [carriage_return; line_feed] e = true →
  run_secret (Hash (FromStdin (Some (t +:+ e))) rounds salt) = Ok out →
  ∃ phc v, stdout out = Some (hash_yaml phc) ∧ from_pbkdf2_sha256 phc = Ok v ∧ (verify v t).1 = true.
Proof.
  intros Ht He Hr. apply validate_token_Ok in Ht as [Hlen Hlb].
  unfold run_secret, read_token in Hr. inv_ok.
  match goal with Hs : Some _ = Some _ |- _ => injection Hs as <- end.
  match goal with Hg : generate_pbkdf2_sha256 _ _ _ = Ok ?p |- _ => rename p into phc;
    rewrite trim_end_matches_app in Hg; [| |done]; [unfold generate_pbkdf2_sha256 in Hg|] end.
  2: { eapply contains_mono; [|exact Hlb]. set_solver. }
  inv_ok. breflect.
  match goal with Hh : hash_password _ _ _ = Some _ |- _ =>
    destruct (hash_password_spec _ _ _ _ Hh) as (h & Hn & Ha & Hs & Hd & Hp & Hv) end.
  exists phc, (Pbkdf2Sha256 phc None). split; [done|].
  unfold from_pbkdf2_sha256, validate_pbkdf2_sha256. rewrite Hn. simpl. rewrite Ha, Hp.
  rewrite !(bool_decide_eq_false_2 (_ = None)), (bool_decide_eq_true_2 (_ = _)) by done.
  simpl. rewrite Z.eqb_refl, (proj2 (Z.ltb_ge _ _)) by lia. split; [done|].
  unfold verify, verify_begin, malformed. rewrite (proj2 (Z.ltb_ge _ _)), Hlb by lia. simpl.
  unfold pbkdf2_check. by rewrite Hn, Hv.
Qed.
End cli_facts.

(** ** An instance *)
Module CliToy.

(** A PHC string spells its rounds and its password. *)
Definition crypto : CryptoLib := {|
  sha256 s := s;
  PasswordHash := Z * string;
  PasswordHash_new s := BitText.decode s;
  ph_algorithm _ := "pbkdf2-sha256";
  ph_salt _ := Some "salt";
  ph_hash h := Some h.2;
  Params_try_from h := Some (h.1, 32);
  verify_password t h := bool_decide (t = h.2);
  hash_password rounds t _ := Some (BitText.encode (rounds, t));
  MIN_ROUNDS := 1000;
  RECOMMENDED_ROUNDS := 600000;
  RECOMMENDED_OUTPUT_LENGTH := 32
|}.

Lemma crypto_laws : @CryptoLaws crypto.
Proof.
  intros rounds t salt phc [= <-]. exists (rounds, t). split_and!; try done.
  - apply BitText.decode_encode.
  - simpl. by apply bool_decide_eq_true_2.
Qed.
#[local] Existing Instances crypto crypto_laws dpapi_unsupported.

Lemma hash_command_usable_witness :
  ∃ phc v, from_pbkdf2_sha256 phc = Ok v ∧ (verify v token32).1 = true.
Proof.
  destruct (hash_command_usable token32 (String carriage_return (String line_feed EmptyString)) 600000 "s"
    (mkWritten (Some (hash_yaml (BitText.encode (600000, token32)))) None)) as (phc & v & _ & Hv & Ha);
    [reflexivity|reflexivity|vm_compute; reflexivity|]. exists phc, v. by split.
Defined.

End CliToy.
