(* ===== verification/Main.v ===== *)
(** * The program (src/src/main.rs)

    [main] and [run]: the worker mode, and the three families of commands put
    together from [Runtime], [Service] and [Cli]. The parsing of the argument
    vector is clap's; its result is a [Command], with the defaults the
    declarations give. *)

From S2P Require Import Prelude RustStd Model Secret Disk Journal Store Config Capture Process Worker App Tls Runtime Service Cli.
Local Open Scope string_scope.
Local Open Scope list_scope.
Local Open Scope Z_scope.

Definition DEFAULT_CONFIG_PATH : string := "config.yaml".

(** [--config], with its default. *)
Definition config_option (o : option string) : string := default DEFAULT_CONFIG_PATH o.

(** [--scope] and [--rounds], with their defaults. *)
Definition scope_option (o : option DpapiScope) : DpapiScope := default User o.
Definition rounds_option `{CryptoLib} (o : option Z) : Z := default RECOMMENDED_ROUNDS o.

Inductive ServiceAction :=
| ServiceRun (config : option string)
| ServiceInstall (config : option string)
| ServiceStart (config : option string)
| ServiceStop (config : option string)
| ServiceUninstall (config : option string).

Inductive Command :=
| RunCommand (config : option string)
| ServiceCommand (action : ServiceAction)
| SecretCommand (action : SecretAction).

Section program.
Context `{RegexLib, IpNetLib, HostLib, CryptoLib, TlsLib, DpapiLib} {S : Type} `{Scm S}.

(** What the process meets: the file system behind [Config::load], the tokio
    runtime, the log, the generations of the service, its own executable, the
    service dispatcher and its variables, and the control manager. *)
Record Machine := mkMachine {
  load_config : string → result ConfigError ResolvedConfig * host;
  tokio_runtime : result string unit;
  log_env : option string;
  log_init : result string unit;
  generations : list Generation;
  current_exe : result string string;
  dispatcher : string → result string unit;
  statics : Statics;
  manager : S
}.

Inductive MainError :=
| NoRuntime (msg : string)
| RunAborted (e : RunError)
| ServiceFailed (e : ServiceError)
| SecretCommandFailed (e : CliError).

(** The outcome of a command: [None] while it still runs; what it printed or
    wrote; the control manager after it. *)
Definition Result : Type := option (result MainError Written) * S.

Definition silent : Written := mkWritten None None.

(** The service commands of a Windows build. *)
Definition service_action (m : Machine) (a : ServiceAction) : result ServiceError unit * S :=
  let loaded o := (load_config m (config_option o)).1 in
  match a with
  | ServiceRun o => ((Service.run (loaded o) (dispatcher m) (statics m)).1, manager m)
  | ServiceInstall o => install (loaded o) (current_exe m) (manager m)
  | ServiceStart o => start (loaded o) (manager m)
  | ServiceStop o => Service.stop (loaded o) (manager m)
  | ServiceUninstall o => uninstall (loaded o) (manager m)
  end.

(** [run]. *)
Definition run_command (windows : bool) (m : Machine) (c : Command) : Result :=
  match c with
  | RunCommand o =>
      match tokio_runtime m with
      | Err e => (Some (Err (NoRuntime e)), manager m)
      | Ok _ =>
          (match (Runtime.run (load_config m (config_option o)) (log_env m) (log_init m) true (generations m)).1 with
           | Finished => Some (Ok silent)
           | Aborted e => Some (Err (RunAborted e))
           | Runtime.Serving _ => None
           end, manager m)
      end
  | ServiceCommand a =>
      let '(r, s) := if windows then service_action m a else (unsupported DEFAULT_CONFIG_PATH, manager m) in
      (Some (map_err ServiceFailed ((λ _, silent) <$> r)), s)
  | SecretCommand a => (Some (map_err SecretCommandFailed (run_secret a)), manager m)
  end.

(** [main]: [worker] is what [process::worker_main()] returns. *)
Definition main (args : list string) (worker : Z) (outcome : result MainError Written) : Z :=
  if bool_decide (args !! 1%nat = Some "__worker") then worker_exit_code worker
  else match outcome with Ok _ => 0 | Err _ => 1 end.
End program.

Section facts.
Context `{RegexLib, IpNetLib, HostLib, CryptoLib, TlsLib, DpapiLib} {S : Type} `{ScmLaws S}.

(** The exit code of the process is a byte, in the worker mode the code of
    the script clamped to it, and otherwise 0 exactly when the command
    succeeded; the worker mode is entered by the first argument alone. *)
Theorem main_exit_spec args worker outcome :
  let code := main args worker outcome in
  0 ≤ code ≤ 255 ∧
  (args !! 1%nat = Some "__worker" → code = worker_exit_code worker ∧ (0 ≤ worker ≤ 255 → code = worker)) ∧
  (args !! 1%nat ≠ Some "__worker" → (code = 0 ↔ is_ok outcome = true)).
Proof.
  unfold main, worker_exit_code. case_bool_decide; split_and!; try done; try lia; by destruct outcome.
Qed.

(** Commands other than [service] leave the control manager alone, and so do
    the service commands of a build for another system, which all fail. *)
Lemma run_command_manager windows m c :
  (∀ a, c ≠ ServiceCommand a) ∨ windows = false → (run_command windows m c).2 = manager m.
Proof.
  intros Hc. destruct c as [o|a|a]; simpl; [by destruct (tokio_runtime m)| |done].
  destruct Hc as [Hc| ->]; [by destruct (Hc a)|done].
Qed.

(** The service that [service install] registers is the one that runs: the
    control manager starts it with the arguments it was given, and the command
    they spell, with the configuration that path still holds, enters the
    dispatcher under the registered name. *)
Theorem installed_service_runs m o s' c :
  (load_config m (config_option o)).1 = Ok c → (load_config m (source_path c)).1 = Ok c →
  statics m = mkStatics None None →
  run_command true m (ServiceCommand (ServiceInstall o)) = (Some (Ok silent), s') →
  ∃ info, registered s' !! ws_name (windows_service c) = Some (info, Some (ws_description (windows_service c))) ∧
    take 3 (launch_arguments info) = ["service"; "run"; "--config"] ∧
    service_action m (ServiceRun (launch_arguments info !! 3%nat)) =
      (map_err DispatcherFailed (dispatcher m (ws_name (windows_service c))), manager m).
Proof.
  intros Hl Hl' Hst Hr. simpl in Hr.
  destruct (install _ _ _) as [[[]|e] s1] eqn:Hi; [|by destruct e]. injection Hr as <-.
  apply install_Ok in Hi as (c' & e & Hc & He & Hn & Hreg).
  assert (c' = c) as -> by congruence.
  exists (service_info c e). rewrite Hreg, lookup_insert_eq. split_and!; [done|done|].
  simpl. rewrite Hl', Hst. done.
Qed.
End facts.

(** ** A concrete machine *)
Module MainToy.

#[local] Existing Instances Toy.regex Toy.ipnet Toy.hostlib toy_crypto TlsToy.lib dpapi_unsupported
  ServiceToy.registry ServiceToy.registry_laws.

Definition toy_machine : Machine (S:=ServiceToy.Registry) :=
  mkMachine (λ _, (Ok Toy.resolved, Toy.fs)) (Ok tt) None (Ok tt) RuntimeToy.twice (Ok "C:\command-api.exe")
    (λ _, Ok tt) (mkStatics None None) (∅ : ServiceToy.Registry).

Example foreground_run : (run_command false toy_machine (RunCommand None)).1 = Some (Ok silent).
Proof. reflexivity. Qed.

Lemma main_exit_spec_witness :
  main ["command-api"; "__worker"] 300 (Ok silent) = 255 ∧ main ["command-api"; "run"] 300 (Ok silent) = 0.
Proof.
  split; [reflexivity|].
  pose proof (main_exit_spec ["command-api"; "run"] 300 (Ok silent)) as (_ & _ & Hc). by apply Hc.
Defined.

Lemma installed_service_runs_witness :
  ∃ info, ServiceToy.installed !! default_service_name = Some (info, Some default_service_description) ∧
    take 3 (launch_arguments info) = ["service"; "run"; "--config"] ∧
    service_action toy_machine (ServiceRun (launch_arguments info !! 3%nat)) = (Ok tt, ∅).
Proof.
  exact (installed_service_runs toy_machine None ServiceToy.installed Toy.resolved eq_refl eq_refl eq_refl eq_refl).
Defined.

End MainToy.
