(* ===== verification/Tests.v ===== *)
(** * The repository's unit tests on the model

    One proposition per [#[test]] of src/src, with the values the test builds
    and the assertions it makes, and a proof that the model satisfies it: for
    every library where the code alone decides, for a library with the
    behaviour the test depends on elsewhere. YAML and the command line are
    parsed by libraries: those tests start from the parsed value. The tests
    of socket-address formatting and of clap concern libraries only. *)

From S2P Require Import Prelude RustStd Model Secret Config Disk Journal Store Capture Process App Tls Cli.
Local Open Scope string_scope.
Local Open Scope list_scope.
Local Open Scope Z_scope.

Definition is_err {E A} (r : result E A) : bool := negb (is_ok r).

(** ** config.rs *)
Module ConfigTests.

Definition executor_argument_order_is_stable : Prop :=
  launcher_args Pwsh = ["-NoLogo"; "-NoProfile"; "-NonInteractive"; "-ExecutionPolicy"; "Bypass"; "-File"] ∧
  launcher_args Bash = [].

Lemma executor_argument_order_is_stable_passes : executor_argument_order_is_stable.
Proof. by split. Qed.

Definition enabled_args (values patterns : list string) : RequestArgsConfig :=
  let d := RequestArgsConfig_default in
  mkRequestArgs true (max_count d) (max_item_bytes d) (max_total_bytes d) values patterns.

Definition cmd_cannot_enable_untrusted_arguments : Prop :=
  let route := mkRouteConfig "/cmd" Cmd None "test.cmd" [] (enabled_args [] []) None ∅ 1 10 1 false Utf8 in
  ∀ windows, is_err (validate_route windows route) = true.

Lemma cmd_cannot_enable_untrusted_arguments_passes : cmd_cannot_enable_untrusted_arguments.
Proof. intros []; vm_compute; reflexivity. Qed.

Definition LOCALHOST : Net.IpAddr := Net.V4 (127 * 2 ^ 24 + 1).
Definition UNSPECIFIED : Net.IpAddr := Net.V4 0.
Definition DOCUMENTATION : Net.IpAddr := Net.V6 (Z.shiftl 0x20010db8 96 + 1).

Definition accepts_legacy_host_and_multiple_freely_configured_hosts : Prop :=
  let legacy := mkServerConfig (deserialize_optional_hosts (One LOCALHOST)) (Some 27415) [] in
  hosts legacy = Some [LOCALHOST] ∧
  length <$> resolve_server legacy = Ok 1%nat ∧
  let multiple :=
    mkServerConfig (deserialize_optional_hosts (Many [LOCALHOST; UNSPECIFIED; DOCUMENTATION])) (Some 27415) [] in
  length <$> resolve_server multiple = Ok 3%nat.

Lemma accepts_legacy_host_and_multiple_freely_configured_hosts_passes :
  accepts_legacy_host_and_multiple_freely_configured_hosts.
Proof. vm_compute. done. Qed.

Definition supports_independent_ports_and_rejects_conflicting_server_forms : Prop :=
  let endpoints := mkServerConfig None None [mkListener LOCALHOST 27415; mkListener LOCALHOST 27416] in
  (∃ l0 l1, resolve_server endpoints = Ok [l0; l1] ∧ l_port l0 ≠ l_port l1) ∧
  let conflicting := mkServerConfig (deserialize_optional_hosts (One LOCALHOST)) None [mkListener LOCALHOST 27415] in
  is_err (resolve_server conflicting) = true ∧
  let duplicate := mkListener LOCALHOST 27415 in
  is_err (validate_listeners []) = true ∧ is_err (validate_listeners [duplicate; duplicate]) = true.

Lemma supports_independent_ports_and_rejects_conflicting_server_forms_passes :
  supports_independent_ports_and_rejects_conflicting_server_forms.
Proof.
  split; [|vm_compute; done]. exists (mkListener LOCALHOST 27415), (mkListener LOCALHOST 27416).
  split; [vm_compute; reflexivity|done].
Qed.

(** [any] and [docs] are 0.0.0.0/0 and 2001:db8::/32. *)
Definition allows_any_valid_cidr_but_still_requires_one `{IpNetLib} (any docs : IpNet) : Prop :=
  let access := mkAccess [any; docs] TokenFailureCooldownConfig_default in
  is_ok (validate_access access) = true ∧
  is_err (validate_access (mkAccess [] (token_failure_cooldown access))) = true.

Lemma allows_any_valid_cidr_but_still_requires_one_passes `{IpNetLib} any docs :
  allows_any_valid_cidr_but_still_requires_one any docs.
Proof. by split. Qed.

Definition normalizes_ipv4_mapped_ipv6 : Prop :=
  let v4 := 10 * 2 ^ 24 + 132 * 2 ^ 16 + 1 * 2 ^ 8 + 1 in
  normalize_ip (Net.V6 (Z.shiftl 0xffff 32 + v4)) = Net.V4 v4.

Lemma normalizes_ipv4_mapped_ipv6_passes : normalizes_ipv4_mapped_ipv6.
Proof. vm_compute. reflexivity. Qed.

Definition local_system_uses_the_scm_default_account : Prop :=
  account_name LocalSystem = None ∧ account_name LocalService = Some "NT AUTHORITY\LocalService".

Lemma local_system_uses_the_scm_default_account_passes : local_system_uses_the_scm_default_account.
Proof. by split. Qed.

(** [slug] is the compiled pattern. *)
Definition request_argument_allowlist_accepts_values_and_patterns `{RegexLib} (slug : Regex) : Prop :=
  let route := mkResolvedRoute "/safe" Sh "sh" "test.sh" [] (enabled_args ["status"] ["^[a-z0-9_-]{1,16}$"]) [slug]
    "." ∅ 1 1 1 false Utf8 in
  is_ok (validate_request_args route ["status"; "node-1"]) = true ∧
  is_err (validate_request_args route ["; Remove-Item C:\*"]) = true.

(** With any regular expressions, as long as the pattern accepts the one and
    rejects the other. *)
Lemma request_argument_allowlist_passes `{RegexLib} slug :
  is_match slug "node-1" = true → is_match slug "; Remove-Item C:\*" = false →
  request_argument_allowlist_accepts_values_and_patterns slug.
Proof.
  intros Hy Hn. split.
  - unfold validate_request_args, check_args, check_arg. simpl. by rewrite Hy.
  - unfold validate_request_args, check_args, check_arg. simpl. by rewrite Hn.
Qed.
End ConfigTests.

(** ** secret.rs *)
Module SecretTests.

Definition x32 : string := "xxxxxxxxxxxxxxxxxxxxxxxxxxxxxxxx".

Definition rejects_weak_or_multiline_tokens : Prop :=
  is_err (validate_token "short") = true ∧
  is_ok (validate_token x32) = true ∧
  is_err (validate_token (x32 +:+ String "010" EmptyString)) = true.

Lemma rejects_weak_or_multiline_tokens_passes : rejects_weak_or_multiline_tokens.
Proof. vm_compute. done. Qed.

Definition TOKEN : string := "0123456789abcdef0123456789abcdef0123456789abcdef0123456789abcdef".
Definition OTHER : string := "abcdef0123456789abcdef0123456789abcdef0123456789abcdef0123456789".

(** The three verifications of the test, one after the other. *)
Definition pbkdf2_sha256_verifier_accepts_only_the_original_token_and_caches_success `{CryptoLib} (salt : string) : Prop :=
  ∃ hash v0, generate_pbkdf2_sha256 TOKEN MIN_ROUNDS salt = Ok hash ∧ from_pbkdf2_sha256 hash = Ok v0 ∧
    let '(b1, v1) := verify v0 TOKEN in
    let '(b2, v2) := verify v1 OTHER in
    let '(b3, _) := verify v2 TOKEN in
    b1 = true ∧ b2 = false ∧ b3 = true.

Lemma pbkdf2_sha256_verifier_passes `{CryptoLaws} salt hash :
  MIN_ROUNDS ≤ MAX_PBKDF2_SHA256_ROUNDS → hash_password MIN_ROUNDS TOKEN salt = Some hash → sha256 OTHER ≠ sha256 TOKEN →
  pbkdf2_sha256_verifier_accepts_only_the_original_token_and_caches_success salt.
Proof.
  intros Hmin Hh Hne. destruct (hash_password_spec _ _ _ _ Hh) as (h & Hn & Ha & Hs & Hd & Hp & Hv).
  exists hash, (Pbkdf2Sha256 hash None). split_and!.
  - unfold generate_pbkdf2_sha256. change (validate_token TOKEN) with (@Ok SecretError unit tt). simpl.
    by rewrite Z.ltb_irrefl, (proj2 (Z.ltb_ge _ _) Hmin), Hh.
  - unfold from_pbkdf2_sha256, validate_pbkdf2_sha256. rewrite Hn. simpl. rewrite Ha, Hp.
    rewrite !(bool_decide_eq_false_2 (_ = None)), (bool_decide_eq_true_2 (_ = _)) by done.
    simpl. by rewrite Z.eqb_refl, (proj2 (Z.ltb_ge _ _)) by lia.
  - unfold verify, verify_begin. change (malformed TOKEN) with false. change (malformed OTHER) with false. simpl.
    unfold pbkdf2_check. rewrite Hn, Hv. simpl. unfold token_fingerprint.
    by rewrite (bool_decide_eq_false_2 (_ = _)), (bool_decide_eq_true_2 (_ = _)) by done.
Qed.

Example pbkdf2_sha256_verifier_runs :
  @pbkdf2_sha256_verifier_accepts_only_the_original_token_and_caches_success CliToy.crypto "salt".
Proof.
  apply (@pbkdf2_sha256_verifier_passes CliToy.crypto CliToy.crypto_laws "salt" (BitText.encode (1000, TOKEN)));
    [vm_compute; congruence|reflexivity|discriminate].
Qed.

Definition pbkdf2_sha256_rejects_invalid_or_different_phc_algorithms `{CryptoLib} : Prop :=
  is_err (from_pbkdf2_sha256 "not-a-phc-string") = true ∧
  is_err (from_pbkdf2_sha256 "$argon2id$v=19$m=19456,t=2,p=1$c2FsdA$YWJjZA") = true.

Lemma pbkdf2_sha256_rejects_passes `{CryptoLib} h :
  PasswordHash_new "not-a-phc-string" = None →
  PasswordHash_new "$argon2id$v=19$m=19456,t=2,p=1$c2FsdA$YWJjZA" = Some h → ph_algorithm h = "argon2id" →
  pbkdf2_sha256_rejects_invalid_or_different_phc_algorithms.
Proof.
  intros Hbad Hgood Ha. unfold pbkdf2_sha256_rejects_invalid_or_different_phc_algorithms.
  unfold from_pbkdf2_sha256, validate_pbkdf2_sha256. by rewrite Hbad, Hgood; simpl; rewrite Ha.
Qed.
End SecretTests.

(** ** process/mod.rs *)
Module ProcessTests.

Definition configured_arguments_precede_request_arguments : Prop :=
  let spec := mkWorkerSpec Bash "bash" "script.sh" ["--fixed"; "one"] ["--request"; "two words"] "." ∅ 1 in
  cmd_args (build_script_command spec) = ["script.sh"; "--fixed"; "one"; "--request"; "two words"].

Lemma configured_arguments_precede_request_arguments_passes : configured_arguments_precede_request_arguments.
Proof. done. Qed.
End ProcessTests.

(** ** runtime.rs *)
Module RuntimeTests.

(** The certificate file is also the file of the client authorities. *)
Definition loads_matching_pem_certificate_key_and_client_ca `{TlsLib} (cert_pem key_pem : string) : Prop :=
  let files p := if bool_decide (p = "server.crt") then Some cert_pem
                 else if bool_decide (p = "server.key") then Some key_pem else None in
  is_ok (load_tls_config files (mkTls "server.crt" "server.key" "server.crt")) = true.

Lemma loads_matching_pem_passes `{TlsLib} cert_pem key_pem cert key :
  pem_certs cert_pem = [Ok cert] → pem_private_key key_pem = Ok (Some key) → root_add cert = Ok tt →
  verifier_build [cert] = Ok tt → single_cert [cert] key = Ok tt →
  loads_matching_pem_certificate_key_and_client_ca cert_pem key_pem.
Proof.
  intros Hc Hk Hr Hv Hs. unfold loads_matching_pem_certificate_key_and_client_ca, load_tls_config. simpl.
  rewrite Hc. simpl. rewrite Hk. simpl. rewrite Hr. simpl. by rewrite Hv, Hs.
Qed.

Example loads_matching_pem_runs : @loads_matching_pem_certificate_key_and_client_ca TlsToy.lib "pair" "pair".
Proof. by apply (@loads_matching_pem_passes TlsToy.lib "pair" "pair" "pair" "pair"). Qed.
End RuntimeTests.

(** ** app.rs *)
Module AppTests.
#[local] Existing Instances Toy.regex Toy.ipnet Toy.hostlib CliToy.crypto AppToy.order dpapi_unsupported.

(** The script is in the directory of the configuration file; the host of the
    examples creates a last directory only, so that of the logs is there. *)
Definition host0 : host := ({["/tmp/t/test.sh"]}, {["/tmp/t"; "/tmp/t/logs"]}).

(** The configuration the test writes, as parsed. *)
Definition yaml (hash : string) : Config :=
  mkConfig (mkServerConfig (deserialize_optional_hosts (One ConfigTests.LOCALHOST)) (Some 27415) [])
    (mkAccess [(127 * 2 ^ 24, 8)] (mkCooldown true 10 default_token_failure_max_tracked_ips))
    None (Pbkdf2 hash) (mkLogging "logs" default_retention_seconds default_max_output_bytes)
    ExecutionConfig_default WindowsServiceConfig_default
    [mkRouteConfig "/run" Sh None "/tmp/t/test.sh" [] RequestArgsConfig_default None ∅ 1 5 1 false Utf8].

(** A request to [/] from an address, at an instant. *)
Definition get_index (now : Z) (from : Net.IpAddr) (auth : option string) (s : AppState) : Answer * AppState :=
  authenticate now now (mkRequest (Some from) auth) (λ s, (Reply index, s)) s.

Definition status_of (a : Answer) : option Z := match a with Reply r => Some (r_status r) | Panic => None end.

(** The four requests, [clock n] nanoseconds after the start. *)
Definition every_endpoint_requires_authentication (clock : nat → Z) : Prop :=
  ∃ hash c h s0,
    generate_pbkdf2_sha256 SecretTests.TOKEN MIN_ROUNDS "salt" = Ok hash ∧
    resolve false host0 (yaml hash) "/tmp/t/config.yaml" = (Ok c, h) ∧
    build_state c h StoreToy.sys0 = Some s0 ∧
    let right := Some ("Bearer " +:+ SecretTests.TOKEN) in
    let '(a1, s1) := get_index (clock 0%nat) ConfigTests.LOCALHOST None s0 in
    let '(a2, s2) := get_index (clock 1%nat) ConfigTests.LOCALHOST right s1 in
    let '(a3, s3) := get_index (clock 2%nat) (Net.V4 (10 * 2 ^ 24 + 1)) right s2 in
    let '(a4, _) := get_index (clock 3%nat) (Net.V4 (127 * 2 ^ 24 + 2)) right s3 in
    status_of a1 = Some UNAUTHORIZED ∧
    (∃ retry_after, a2 = Reply (cooling_down retry_after) ∧ 1 ≤ retry_after ≤ 10) ∧
    status_of a3 = Some FORBIDDEN ∧
    status_of a4 = Some OK.

Definition hash0 : string := BitText.encode (1000, SecretTests.TOKEN).
Definition config0 : ResolvedConfig :=
  mkResolved "/tmp/t/config.yaml" [mkListener ConfigTests.LOCALHOST 27415]
    (mkAccess [(127 * 2 ^ 24, 8)] (mkCooldown true 10 default_token_failure_max_tracked_ips)) None
    (Pbkdf2Sha256 hash0 None) (mkLogging "/tmp/t/logs" default_retention_seconds default_max_output_bytes)
    ExecutionConfig_default WindowsServiceConfig_default
    [mkResolvedRoute "/run" Sh "sh" "/tmp/t/test.sh" [] RequestArgsConfig_default [] "/tmp/t" ∅ 1 5 1 false Utf8].

Definition state0 : AppState :=
  mkAppState (Pbkdf2Sha256 hash0 None) [(127 * 2 ^ 24, 8)] (mkCooldown true 10 default_token_failure_max_tracked_ips) ∅
    default_max_total_concurrency {["/run" := mkRouteRuntime (mkResolvedRoute "/run" Sh "sh" "/tmp/t/test.sh" []
      RequestArgsConfig_default [] "/tmp/t" ∅ 1 5 1 false Utf8) 1]}
    (mkChannel [] true) 0 "/tmp/t/config.yaml" "/tmp/t/logs" (resolve false host0 (yaml hash0) "/tmp/t/config.yaml").2
    StoreToy.sys0.

(** A refused request leaves this entry in the empty table. *)
Lemma first_failure now : now + 10 * Instants.NANOS ≤ Instants.INSTANT_MAX →
  get_index now ConfigTests.LOCALHOST None state0 =
    (Reply unauthorized, set_failures {[ConfigTests.LOCALHOST := now + 10 * Instants.NANOS]} state0).
Proof.
  intros Hm. unfold get_index, authenticate. cbn [peer fmap option_fmap option_map].
  change (negb (existsb _ _)) with false. unfold cooldown_remaining. cbn [app_cooldown enabled state0 auth_failures negb].
  rewrite lookup_empty. unfold authorized. cbn [bearer authorization mbind option_bind].
  unfold record_auth_failure. cbn [app_cooldown enabled state0 auth_failures negb max_tracked_ips seconds].
  rewrite map_filter_empty. unfold Instants.add_secs. rewrite (proj2 (Z.leb_le _ _)) by lia. reflexivity.
Qed.

(** Then the address waits, whatever token it brings; *)
Lemma second_refused now until auth : now < until →
  get_index now ConfigTests.LOCALHOST auth (set_failures {[ConfigTests.LOCALHOST := until]} state0) =
    (Reply (cooling_down (ceil_secs (until - now))), set_failures {[ConfigTests.LOCALHOST := until]} state0).
Proof.
  intros Hu. unfold get_index, authenticate. cbn [peer fmap option_fmap option_map].
  change (negb (existsb _ _)) with false. unfold cooldown_remaining.
  cbn [app_cooldown enabled state0 set_failures auth_failures negb]. rewrite lookup_singleton_eq.
  by rewrite (proj2 (Z.ltb_lt _ _) Hu).
Qed.

(** another network is denied, another address of the network is served. *)
Lemma third_denied now auth s : app_cidrs s = app_cidrs state0 →
  get_index now (Net.V4 (10 * 2 ^ 24 + 1)) auth s = (Reply source_denied, s).
Proof. intros Hc. unfold get_index, authenticate. simpl. by rewrite Hc. Qed.

Lemma fourth_served now until :
  (get_index now (Net.V4 (127 * 2 ^ 24 + 2)) (Some ("Bearer " +:+ SecretTests.TOKEN))
     (set_failures {[ConfigTests.LOCALHOST := until]} state0)).1 = Reply index.
Proof.
  unfold get_index, authenticate. cbn [peer fmap option_fmap option_map].
  change (negb (existsb _ _)) with false. unfold cooldown_remaining.
  cbn [app_cooldown enabled state0 set_failures auth_failures negb]. rewrite lookup_singleton_ne by done.
  unfold authorized. change (bearer _) with (Some SecretTests.TOKEN). cbn [token].
  destruct (verify (Pbkdf2Sha256 hash0 None) SecretTests.TOKEN) as [b v] eqn:Hv.
  assert ((verify (Pbkdf2Sha256 hash0 None) SecretTests.TOKEN).1 = true) as Ht by (vm_compute; reflexivity).
  rewrite Hv in Ht. simpl in Ht. by subst b.
Qed.

(** The test passes whenever its second request comes within the cooldown. *)
Lemma every_endpoint_requires_authentication_passes clock :
  clock 0%nat ≤ clock 1%nat < clock 0%nat + 10 * Instants.NANOS →
  clock 0%nat + 10 * Instants.NANOS ≤ Instants.INSTANT_MAX →
  every_endpoint_requires_authentication clock.
Proof.
  intros Ht Hm. exists hash0, config0, (resolve false host0 (yaml hash0) "/tmp/t/config.yaml").2, state0.
  split; [reflexivity|]. split; [apply AppToy.pair_eta; vm_compute; reflexivity|]. split; [reflexivity|].
  cbv zeta. rewrite (first_failure _ Hm), second_refused, third_denied by (lia || done).
  pose proof (fourth_served (clock 3%nat) (clock 0%nat + 10 * Instants.NANOS)) as H4.
  destruct (get_index (clock 3%nat) _ _ _) as [a4 s4]. simpl in H4. subst a4.
  split_and!; [done| |done|done]. eexists. split; [done|]. apply ceil_secs_spec. lia.
Qed.
End AppTests.
